(* ===== verification/_CoqProject ===== *)
-Q . S2P
Prelude.v
TextIO.v
Threads.v
Csr.v
Grammar.v
Check.v
Filter.v
Convert.v
ParCompress.v
ParMain.v
ParThreads.v
RArray.v
RHash.v
RMap.v
RHeap.v
RBuckets.v
Dll.v
RFreq.v
RPrio.v
RQueue.v
RRepair.v
RStore.v
RPurge.v
RText.v
RTurn.v
RReplace.v
RCompact.v
RRounds.v
RLossless.v
Merge.v
MergeLossless.v
RPipeline.v
Laconic.v
Scripts.v
Util.v
Numpy.v
ParUtil.v
Splice.v
SelfLoop.v
GenMask.v
DepthFilter.v
Norm.v
NormThreads.v
Fusion.v
GraphIO.v
Reorder.v
Atomic.v
Alloc.v
