(* ===== verification/Prelude.v ===== *)
(** * Laconic: a verification library for the rule-compression engines

    The program compresses graphs.  Pairs of neighbours that occur often in the
    adjacency lists become rules, so that a graph turns into a grammar: rows of
    vertices and rules, and one row per rule.  There are two engines, a serial one
    ([src/Re-Pair&Laconic_serial/rule_compress/compress_op/], a Python extension)
    and a parallel one ([src/Laconic_parallel/]).  Around the serial engine are
    tools that filter rules, check a result, convert formats and prepare compressed
    graphs for graph neural networks.  Scripts drive the extension: one compresses a
    large graph in parts and merges them, another renumbers the result.

    ** Conventions

    A [std::vector], a C array or a numpy array is a list, indexed by [Z] with
    [!z].  C++ code becomes a function into [res]: it returns [Ok] or stops with an
    [ub].  Reads and writes outside an array, signed overflow where it can occur,
    failed assertions and missing [return]s are errors, so [wp m Q], the weakest
    precondition used throughout, states that [m] returns, that no undefined
    behaviour occurs, and that the result satisfies [Q]; [wpe e m Q] allows the error [e]
    as well.  [for] loops are [for_up]
    and [for_each]; [while] loops are [while] with fuel.  Running out of fuel is
    the error [OutOfFuel], so a result in [wp] form also shows that the fuel is
    enough, and the loop ends: one unit per remaining cell, symbol, edge or level,
    as said at each loop.  Machine integers are [Z] with the wrap-around written
    out ([u32], [u64], [i32], [int32]) where a value can leave its range.  What C++
    leaves open is an argument: the contents of fresh memory ([junk]), the
    iteration order of hash tables, the order in which threads take a lock or make
    their steps ([schedule]), whether [NDEBUG] is set, the initial value of an
    uninitialised variable.  Text files are lists of characters.  Printing to the
    console and timing are left out.

    ** Files

    - [Prelude]: results, weakest preconditions, lists indexed by [Z], slices, loops.
    - [TextIO]: the operators [>>] and [<<] for integers.  [Threads]: programs as trees
      of atomic steps on a shared memory, thread pools that run under a schedule, and
      threads that do not interfere.
    - [Csr]: [util.h], conversions between CSR, COO and adjacency lists and the
      renumbering of rules; [Util]: [coo_convert] with threads; [Numpy]: the copies
      between vectors and numpy arrays; [ParUtil]: [core/util.h].
    - [Grammar]: what a compressed graph means: [derives g row out], the expansion
      of a row, and its laws.
    - [Check]: [check.h].  [Filter]: [filter.h].  [DepthFilter]: [depth_filter.h].
      [Convert]: [convert.h].
    - [ParCompress]: [core/compress.h] and [core/hash.h], each phase as a loop over its
      threads; [ParMain]: [core/IO.h], [core/check.h], [core/filter.h],
      [src/compress.cc]; [ParThreads]: the compressor and [main] with threads that share
      the vectors of tables and sequences and interleave.
    - [RArray], [RHash], [RHeap], [RRepair]: the serial Re-Pair engine, [compress/]
      and [compress.h]; one [store] holds the records, the hash table, the heap and
      the occurrence lists, which point at each other.
    - Its components against what they stand for: [RMap] (the hash table as a finite
      map), [RBuckets], [RFreq], [RPrio] and [RQueue] (infrequent records in arrays,
      frequent ones in doubly linked groups, the heap as a map to frequencies, and the
      contract of a bounded priority queue), [Dll] (doubly linked lists through
      arrays), [RStore] and [RPurge] (records and occurrence lists: adding, removing
      and renumbering), [RText] (the text with holes as a list of symbols).
    - Their composition: [RTurn], [RReplace] and [RCompact] (replacing all occurrences
      of a pair, and compacting), [RRounds] (the algorithm on lists of symbols and its
      refinement by [repair]), [RLossless] ([prepare] and [compress_csr]),
      [RPipeline] ([compress_csr], [filter_csr] and [check_csr] one after the other).
    - [Merge]: [merge.h]; [MergeLossless]: what merged parts stand for; [Laconic]:
      [Laconic_serial_compression.py], which composes reading, compressing, merging
      and filtering; [Scripts]: [Re-Pair.py] and [gen_csr.py]; [Reorder]:
      [bfs_reorder.py].
    - [Splice]: [splice.h], [get_part_graph_info.h].  [SelfLoop]: [add_self_loop.h].
      [GenMask]: [gen_mask.h].  [Norm]: [norm.h], with its parallel loops run in order;
      [NormThreads]: these loops with threads and the variables they share.  [Fusion]:
      [fusion.h].  [GraphIO]: [graphIO.h].
    - [Atomic]: [cas], [write_min], [write_add] and [atomic_append] of [core/atomic.h]
      as threads that interleave; [Alloc]: the allocation wrappers of [core/atomic.h]
      and [compress/basics.cc] over an allocator that is a parameter, and [blog].

    ** Results

    - Compression loses nothing.  The parallel and the serial compressor, the filter
      by benefit and the filter by depth return on every well-formed input, and every
      row of the result expands to the row it came from
      ([ParCompress.Repair_lossless], [RLossless.compress_csr_lossless],
      [Filter.filter_csr_lossless], [DepthFilter.depth_filter_csr_lossless]); the
      checker ends and accepts exactly the lossless results
      ([Check.check_csr_correct]); the parallel program and the serial pipeline pass
      the check ([ParMain.main_passes_check], [RPipeline.compress_filter_check]).
      What merging compressed parts does depends on a counter the code does not
      initialise ([MergeLossless.merge_lossless]): if it starts at 0 the result stands
      for all parts, so compressing a graph in parts loses nothing then either
      ([Laconic.laconic_lossless]); each part has to start within the graph and fit the
      compressor, and the expansions of all rules together an [int].
    - Serial Re-Pair is the algorithm of that name: each rule replaces a pair that
      occurs most often, everywhere, until no pair occurs twice
      ([RLossless.compress_csr_refines]).  The text is assumed to have at most
      2^17 / 3 symbols: then the 2^17 cells of the hash table that [prepare] creates
      outnumber the insertions of a run.  Cells of deleted pairs are not reused, and
      without an empty cell a search need not end ([RHash.searchHash_diverges]), so a
      bound on the insertions is needed; the turns need as much fuel as there are
      symbols, since each one shortens the text.
    - The data structures of serial Re-Pair implement what they stand for: arrays a
      stack, the hash table a finite map as long as the insertions are fewer than its
      cells ([RMap.hash_refines_map]), the heap a bounded
      priority queue ([RQueue.heap_refines_queue]), the text with holes a sequence of
      symbols.
    - Format tools: round trips between COO and CSR, self loops, parts of a graph,
      merging, reading and writing files.  Numbers that were written are read back
      ([TextIO.read_numbers_show]), graphs are not ([GraphIO.output_read_back]).
    - Concurrency: every interleaving of the threads of the parallel compressor ends with
      the same result, the one of [ParCompress] ([ParThreads.Repair_any_interleaving]).
      A thread of a phase accesses its own entries of the shared vectors and what no
      thread of the phase writes; the instances of [ParThreads.Owns] and
      [ParThreads.Reads] say which, and [Threads.par_local] does the rest.  The fuel of
      a pool bounds the number of steps of all threads; any number from some [N] on is
      enough.  The parallel loops of [norm.h] do interfere, for every graph and every
      distribution of its rows to two threads ([NormThreads.gcn_norm_race]).
      Calls of [write_add] and [write_min] end in every interleaving, in at
      most quadratically many steps, and lose no update ([Atomic.write_add_correct],
      [Atomic.write_min_correct]); calls of [atomic_append] that need not grow the
      vector do not interfere ([Atomic.atomic_append_correct]), growing it does
      ([Atomic.atomic_append_race]).
    - Renumbering for the encoder is a one-to-one renaming ([Reorder.reorder_correct]).
    - Evaluation: level orders are topological and end on every graph, the fused
      order of several layers ends when rules are acyclic and respects the inputs
      of rules, and with one thread the edge weights of a compressed graph multiply along
      a path to the weight of the original edge, bit for bit in binary32.
    - Defects: theorems that end in an error say for which inputs the code fails
      ([ParCompress.Repair_empty_first_row], [ParCompress.Repair_few_vertices],
      [SelfLoop.add_self_loop_coo_correct], [GenMask.gen_mask_vertex_correct]); examples
      that evaluate a run show other departures from its purpose.

    ** Not modelled

    The declarations of the Python bindings ([function.cpp]) and the build script, which
    compute nothing, and the third-party code under [deps/]: the hash maps the programs
    use are finite maps.  The [int] counters of edges, nodes and steps in [GenMask] and
    [Fusion] are unbounded: they stay below the sizes of the arrays they count.  Memory is
    sequentially consistent: in [Atomic] an access to a
    word, in [ParThreads] one to an entry of a vector, in [NormThreads] one to a variable
    or an array element is a step. *)

From Stdlib Require Export ZArith Lia.
From stdpp Require Export base numbers list gmap sorting.
#[global] Open Scope Z_scope.

(** ** Results of C++ code

    A run either returns a value or stops for one of the reasons below.
    Reading or writing outside a vector, erasing [end()] and signed overflow
    are undefined behaviour in C++; the model makes each an error, so that a
    theorem that concludes [Ok] shows their absence. *)
Inductive ub : Type :=
| OutOfBounds   (** a vector or buffer indexed outside its range *)
| EraseEnd      (** [erase(find(..))] when [find] returned [end()] *)
| SelfInsert    (** a vector inserted into itself *)
| Overflow      (** signed integer overflow *)
| AssertFail    (** an [assert] whose condition is false *)
| ZeroDiv       (** division by zero *)
| DataRace      (** an insertion into a table other threads read *)
| NoReturn      (** control reaches the end of a non-void function *)
| OutOfFuel.    (** the loop did not finish within the fuel given *)

#[global] Instance ub_eq_dec : EqDecision ub.
Proof. solve_decision. Defined.

Inductive res (A : Type) : Type :=
| Ok (a : A)
| Err (e : ub).
Arguments Ok {A} a.
Arguments Err {A} e.

Definition rbind {A B} (m : res A) (k : A → res B) : res B :=
  match m with
  | Ok a => k a
  | Err e => Err e
  end.

Declare Scope res_scope.
Delimit Scope res_scope with res.
#[global] Open Scope res_scope.

Notation "'let*' x := m 'in' k" := (rbind m (fun x => k))
  (at level 10, x binder, m at level 200, k at level 200,
   format "'[v' 'let*'  x  :=  m  'in' '/' k ']'") : res_scope.

(** ** Total-correctness weakest preconditions

    [wp m Q]: the run [m] returns, and its value satisfies [Q]. *)
Definition wp {A} (m : res A) (Q : A → Prop) : Prop :=
  match m with
  | Ok a => Q a
  | Err _ => False
  end.

Section wp_rules.
Context {A B : Type}.
Implicit Types (m : res A) (P Q : A → Prop).

Lemma wp_ok (a : A) Q : Q a → wp (Ok a) Q.
Proof. done. Qed.

Lemma wp_inv m Q : wp m Q → ∃ a, m = Ok a ∧ Q a.
Proof. destruct m; simpl; [eauto | done]. Qed.

Lemma wp_intro m a Q : m = Ok a → Q a → wp m Q.
Proof. by intros ->. Qed.

Lemma wp_mono m P Q : wp m P → (∀ a, P a → Q a) → wp m Q.
Proof. destruct m; simpl; [eauto | done]. Qed.

Lemma wp_bind m (k : A → res B) (R : B → Prop) :
  wp m (λ a, wp (k a) R) → wp (rbind m k) R.
Proof. by destruct m. Qed.

Lemma wp_bind_ok m a (k : A → res B) (R : B → Prop) :
  m = Ok a → wp (k a) R → wp (rbind m k) R.
Proof. by intros ->. Qed.

Lemma wp_eq m a : wp m (λ b, b = a) ↔ m = Ok a.
Proof. destruct m; naive_solver. Qed.

Lemma rbind_ok m a (k : A → res B) : m = Ok a → rbind m k = k a.
Proof. by intros ->. Qed.
End wp_rules.

(** [wpe e m Q]: the run [m] stops with the error [e], or returns a value that satisfies
    [Q]; no other error occurs. *)
Definition wpe {A} (e : ub) (m : res A) (Q : A → Prop) : Prop :=
  match m with
  | Ok a => Q a
  | Err e' => e' = e
  end.

Section wpe_rules.
Context {A B : Type} (e : ub).
Implicit Types (m : res A) (P Q : A → Prop).

Lemma wpe_wp m Q : wp m Q → wpe e m Q.
Proof. by destruct m. Qed.

Lemma wpe_mono m P Q : wpe e m P → (∀ a, P a → Q a) → wpe e m Q.
Proof. destruct m; simpl; [eauto | done]. Qed.

Lemma wpe_bind m (k : A → res B) (R : B → Prop) :
  wpe e m (λ a, wpe e (k a) R) → wpe e (rbind m k) R.
Proof. by destruct m. Qed.

Lemma wpe_err m : wpe e m (λ _, False) → m = Err e.
Proof. destruct m; simpl; [done|congruence]. Qed.
End wpe_rules.

Lemma rbind_assoc {A B C} (m : res A) (f : A → res B) (g : B → res C) :
  rbind (rbind m f) g = rbind m (λ a, rbind (f a) g).
Proof. by destruct m. Qed.

(** ** Vectors indexed by C integers *)

(** The element at a C index: negative indices are out of range. *)
Definition zlookup {A} (l : list A) (i : Z) : option A :=
  if 0 <=? i then l !! Z.to_nat i else None.

Definition zinsert {A} (l : list A) (i : Z) (x : A) : list A :=
  <[Z.to_nat i := x]> l.

Definition zlen {A} (l : list A) : Z := Z.of_nat (length l).

Declare Scope vec_scope.
Delimit Scope vec_scope with vec.
#[global] Open Scope vec_scope.
Notation "l !z i" := (zlookup l i) (at level 20) : vec_scope.

(** [v[i]] read, [v[i] = x], and [v[i].push_back(x)]. *)
Definition vget {A} (l : list A) (i : Z) : res A :=
  match l !z i with
  | Some x => Ok x
  | None => Err OutOfBounds
  end.

Definition vset {A} (l : list A) (i : Z) (x : A) : res (list A) :=
  match l !z i with
  | Some _ => Ok (zinsert l i x)
  | None => Err OutOfBounds
  end.

Definition vpush {A} (g : list (list A)) (i : Z) (x : A) : res (list (list A)) :=
  let* r := vget g i in
  vset g i (r ++ [x]).

(** [for (i : l) r[i] = f(i)], the cells independent of each other. *)
Fixpoint mapr {A B} (f : A → res B) (l : list A) : res (list B) :=
  match l with
  | [] => Ok []
  | x :: l' =>
      let* y := f x in
      let* ys := mapr f l' in
      Ok (y :: ys)
  end.

(** [slice l a b]: the elements at positions [a .. b-1]. *)
Definition slice {A} (l : list A) (a b : Z) : list A :=
  take (Z.to_nat (b - a)) (drop (Z.to_nat a) l).

(** [vector(l.begin() + a, l.begin() + b)]. *)
Definition vrange {A} (l : list A) (a b : Z) : res (list A) :=
  if (0 <=? a) && (a <=? b) && (b <=? zlen l) then Ok (slice l a b) else Err OutOfBounds.

(** ** Loops *)

(** [for (i = lo; i < lo + n; i++) s = f(i, s)]. *)
Fixpoint for_nat {S} (n : nat) (i : Z) (f : Z → S → res S) (s : S) : res S :=
  match n with
  | O => Ok s
  | Datatypes.S n' => let* s' := f i s in for_nat n' (i + 1) f s'
  end.

(** [for (i = lo; i < hi; i++) s = f(i, s)], with [hi] not changed by [f]. *)
Definition for_up {S} (lo hi : Z) (f : Z → S → res S) (s : S) : res S :=
  for_nat (Z.to_nat (hi - lo)) lo f s.

(** [for (x : l) s = f(x, s)]. *)
Fixpoint for_each {A S} (l : list A) (f : A → S → res S) (s : S) : res S :=
  match l with
  | [] => Ok s
  | x :: l' => let* s' := f x s in for_each l' f s'
  end.

(** [while (c(s)) s = f(s)], stopped with [OutOfFuel] after [fuel] rounds. *)
Fixpoint while {S} (fuel : nat) (c : S → res bool) (f : S → res S) (s : S) : res S :=
  match fuel with
  | O => Err OutOfFuel
  | Datatypes.S fuel' =>
      let* b := c s in
      if b then let* s' := f s in while fuel' c f s' else Ok s
  end.

(** ** Machine integers *)

(** A [w]-bit unsigned value, and the two's complement [w]-bit signed one. *)
Definition wrapu (w z : Z) : Z := z mod 2 ^ w.
Definition wraps (w z : Z) : Z := (z + 2 ^ (w - 1)) mod 2 ^ w - 2 ^ (w - 1).
Abbreviation u32 := (wrapu 32).
Abbreviation u64 := (wrapu 64).
Abbreviation i32 := (wraps 32).

Lemma wrapu_small w x : 0 ≤ x < 2 ^ w → wrapu w x = x.
Proof. intros Hx. unfold wrapu. by apply Z.mod_small. Qed.

Definition INT_MIN : Z := - 2 ^ 31.
Definition INT_MAX : Z := 2 ^ 31 - 1.

(** The value of a signed 32-bit expression: an error when it overflows. *)
Definition int32 (z : Z) : res Z :=
  if (INT_MIN <=? z) && (z <=? INT_MAX) then Ok z else Err Overflow.

Lemma int32_ok z : INT_MIN ≤ z ≤ INT_MAX → int32 z = Ok z.
Proof. intros Hz. unfold int32. destruct (Z.leb_spec INT_MIN z), (Z.leb_spec z INT_MAX); done || lia. Qed.

Lemma int32_small z : 0 ≤ z ≤ INT_MAX → int32 z = Ok z.
Proof. intros Hz. apply int32_ok. unfold INT_MIN, INT_MAX in *. lia. Qed.

(** ** Lemmas on vectors *)

Create HintDb laconic.
Create Rewrite HintDb laconic.

Section vectors.
Context {A : Type}.
Implicit Types (l k : list A) (x y : A) (i j a b : Z).

Lemma zlen_nonneg l : 0 ≤ zlen l.
Proof. unfold zlen. lia. Qed.

Lemma zlen_nil : zlen (@nil A) = 0.
Proof. done. Qed.

Lemma zlen_cons x l : zlen (x :: l) = zlen l + 1.
Proof. unfold zlen. simpl. lia. Qed.

Lemma zlen_app l k : zlen (l ++ k) = zlen l + zlen k.
Proof. unfold zlen. rewrite length_app. lia. Qed.

Lemma zlen_pos l : l ≠ [] → 1 ≤ zlen l.
Proof. destruct l; [done|]. unfold zlen. simpl. lia. Qed.

Lemma zlen_zinsert l i x : zlen (zinsert l i x) = zlen l.
Proof. unfold zlen, zinsert. by rewrite length_insert. Qed.

Lemma zlen_replicate (n : nat) x : zlen (replicate n x) = Z.of_nat n.
Proof. unfold zlen. by rewrite length_replicate. Qed.

Lemma zlookup_nonneg l i : 0 ≤ i → l !z i = l !! Z.to_nat i.
Proof. intros. unfold zlookup. by destruct (Z.leb_spec 0 i); [|lia]. Qed.

Lemma zlookup_of_nat l (n : nat) : l !z (Z.of_nat n) = l !! n.
Proof. rewrite zlookup_nonneg by lia. by rewrite Nat2Z.id. Qed.

Lemma zlookup_Some_nat l i x : l !z i = Some x → l !! Z.to_nat i = Some x.
Proof. unfold zlookup. by destruct (0 <=? i). Qed.

Lemma zlookup_range l i x : l !z i = Some x → 0 ≤ i < zlen l.
Proof.
  unfold zlookup, zlen. destruct (Z.leb_spec 0 i); [|done].
  intros Hl%lookup_lt_Some. lia.
Qed.

Lemma zlookup_total l i : 0 ≤ i < zlen l → ∃ x, l !z i = Some x.
Proof.
  intros H. rewrite zlookup_nonneg by lia.
  apply lookup_lt_is_Some_2. unfold zlen in H. lia.
Qed.

Lemma zlookup_None l i : l !z i = None ↔ i < 0 ∨ zlen l ≤ i.
Proof.
  unfold zlookup, zlen. destruct (Z.leb_spec 0 i).
  - rewrite lookup_ge_None. lia.
  - split; [left; lia|done].
Qed.

Lemma zlookup_elem l i x : l !z i = Some x → x ∈ l.
Proof. intros H%zlookup_Some_nat. by eapply list_elem_of_lookup_2. Qed.

Lemma elem_zlookup l x : x ∈ l → ∃ i, l !z i = Some x.
Proof.
  intros [n Hn]%list_elem_of_lookup_1. exists (Z.of_nat n).
  by rewrite zlookup_of_nat.
Qed.

Lemma zlookup_zinsert_eq l i x : 0 ≤ i < zlen l → zinsert l i x !z i = Some x.
Proof.
  intros. rewrite zlookup_nonneg by lia. unfold zinsert.
  apply list_lookup_insert_eq. unfold zlen in *. lia.
Qed.

Lemma zlookup_zinsert_ne l i j x :
  i ≠ j → 0 ≤ i → zinsert l i x !z j = l !z j.
Proof.
  intros. unfold zlookup. destruct (Z.leb_spec 0 j); [|done].
  unfold zinsert. apply list_lookup_insert_ne. lia.
Qed.

(** A cell of an updated list, by cases on its index. *)
Lemma zlookup_zinsert l i x j :
  0 ≤ i < zlen l → zinsert l i x !z j = if decide (j = i) then Some x else l !z j.
Proof.
  intros Hi. case_decide as E; [subst; by apply zlookup_zinsert_eq|].
  destruct (decide (0 ≤ j)); [by rewrite zlookup_zinsert_ne by lia|]. by rewrite !(proj2 (zlookup_None _ j)) by lia.
Qed.

Lemma zlookup_app_l l k i : i < zlen l → (l ++ k) !z i = l !z i.
Proof.
  intros. unfold zlookup. destruct (Z.leb_spec 0 i); [|done].
  apply lookup_app_l. unfold zlen in *. lia.
Qed.

Lemma zlookup_app_r l k i : zlen l ≤ i → (l ++ k) !z i = k !z (i - zlen l).
Proof.
  intros. pose proof (zlen_nonneg l). rewrite !zlookup_nonneg by lia.
  unfold zlen in *. rewrite lookup_app_r by lia. f_equal. lia.
Qed.

Lemma zlookup_replicate (n : nat) x i :
  0 ≤ i < Z.of_nat n → replicate n x !z i = Some x.
Proof.
  intros. rewrite zlookup_nonneg by lia. apply lookup_replicate_2. lia.
Qed.

Lemma zlist_eq l k :
  zlen l = zlen k → (∀ i, 0 ≤ i < zlen l → l !z i = k !z i) → l = k.
Proof.
  intros Hlen Heq. apply list_eq. intros n.
  destruct (decide (n < length l)%nat) as [Hn|Hn].
  - specialize (Heq (Z.of_nat n)). rewrite !zlookup_of_nat in Heq.
    apply Heq. unfold zlen. lia.
  - rewrite !lookup_ge_None_2; unfold zlen in *; auto with lia.
Qed.

Lemma zinsert_id l i x : l !z i = Some x → zinsert l i x = l.
Proof. intros H%zlookup_Some_nat. by apply list_insert_id. Qed.

Lemma zinsert_zinsert l i x y : zinsert (zinsert l i x) i y = zinsert l i y.
Proof. unfold zinsert. apply list_insert_insert_eq. Qed.

(** Reads and writes within range. *)
Lemma vget_ok l i x : l !z i = Some x → vget l i = Ok x.
Proof. unfold vget. by intros ->. Qed.

Lemma vget_inv l i x : vget l i = Ok x → l !z i = Some x.
Proof. unfold vget. destruct (l !z i); congruence. Qed.

Lemma vset_ok l i x : 0 ≤ i < zlen l → vset l i x = Ok (zinsert l i x).
Proof. intros [y Hy]%zlookup_total. unfold vset. by rewrite Hy. Qed.

Lemma wp_vget l i (Q : A → Prop) x : l !z i = Some x → Q x → wp (vget l i) Q.
Proof. intros H ?. by rewrite (vget_ok _ _ _ H). Qed.

Lemma wp_vset l i x (Q : list A → Prop) :
  0 ≤ i < zlen l → Q (zinsert l i x) → wp (vset l i x) Q.
Proof. intros. by rewrite vset_ok. Qed.
End vectors.

Lemma vpush_ok {A} (g : list (list A)) i r x :
  g !z i = Some r → vpush g i x = Ok (zinsert g i (r ++ [x])).
Proof.
  intros H. unfold vpush. rewrite (vget_ok _ _ _ H). simpl.
  apply vset_ok. by eapply zlookup_range.
Qed.

Lemma zlen_fmap {A B} (f : A → B) (l : list A) : zlen (f <$> l) = zlen l.
Proof. unfold zlen. by rewrite length_fmap. Qed.

Lemma zlen_Forall2 {A B} (P : A → B → Prop) l k : Forall2 P l k → zlen l = zlen k.
Proof. intros H%Forall2_length. unfold zlen. lia. Qed.

Lemma zlookup_fmap {A B} (f : A → B) (l : list A) i : (f <$> l) !z i = f <$> l !z i.
Proof. unfold zlookup. destruct (0 <=? i); [apply list_lookup_fmap | done]. Qed.

Lemma zlookup_zip {A B} (l : list A) (k : list B) i x y :
  l !z i = Some x → k !z i = Some y → zip l k !z i = Some (x, y).
Proof.
  intros Hx Hy. pose proof (zlookup_range _ _ _ Hx). apply zlookup_Some_nat in Hx, Hy.
  rewrite zlookup_nonneg by lia. apply lookup_zip_with_Some. eauto.
Qed.

Lemma zlen_zip {A B} (l : list A) (k : list B) : zlen l = zlen k → zlen (zip l k) = zlen l.
Proof. unfold zlen. rewrite length_zip_with. lia. Qed.

Lemma elem_of_concat {A} (x : A) (l : list (list A)) : x ∈ concat l ↔ ∃ r, x ∈ r ∧ r ∈ l.
Proof.
  rewrite list_elem_of_In, in_concat. split; intros (r & H1 & H2); exists r; by rewrite !list_elem_of_In in *.
Qed.

#[export] Hint Rewrite @zlen_cons @zlen_app @zlen_zinsert @zlen_replicate
  @zlen_fmap : laconic.
#[export] Hint Resolve zlookup_range vget_ok vset_ok : laconic.

Lemma mapr_ok {A B} (f : A → res B) (h : A → B) l :
  (∀ x, x ∈ l → f x = Ok (h x)) → mapr f l = Ok (h <$> l).
Proof.
  induction l as [|x l IH]; intros Hf; [done|]. simpl. rewrite Hf by constructor. simpl.
  by rewrite IH by (intros; apply Hf; by constructor).
Qed.

Lemma vrange_ok {A} (l : list A) a b : 0 ≤ a ≤ b → b ≤ zlen l → vrange l a b = Ok (slice l a b).
Proof.
  intros. unfold vrange. destruct (Z.leb_spec 0 a), (Z.leb_spec a b), (Z.leb_spec b (zlen l)); done || lia.
Qed.

(** Membership in a list of concatenations. *)
Ltac list_in := rewrite ?elem_of_app, ?elem_of_cons, ?list_elem_of_singleton; tauto.

Lemma zlookup_cons_pos {A} (x : A) l i : 1 ≤ i → (x :: l) !z i = l !z (i - 1).
Proof. intros Hi. rewrite !zlookup_nonneg by lia. by replace (Z.to_nat i) with (S (Z.to_nat (i - 1))) by lia. Qed.

(** The heads and the tails of a lookup. *)
Lemma zlookup_cons_Some {A} (x : A) l i y : (x :: l) !z i = Some y → (i = 0 ∧ y = x) ∨ (1 ≤ i ∧ l !z (i - 1) = Some y).
Proof.
  intros Hi. pose proof (zlookup_range _ _ _ Hi). destruct (decide (i = 0)) as [->|]; [left; by injection Hi as <-|right].
  split; [lia|]. by rewrite zlookup_cons_pos in Hi by lia.
Qed.

(** ** Lemmas on slices *)
Section slices.
Context {A : Type}.
Implicit Types (l : list A) (a b c i : Z).

Lemma slice_nil l a b : b ≤ a → slice l a b = [].
Proof. intros. unfold slice. by replace (Z.to_nat (b - a)) with O by lia. Qed.

Lemma zlen_slice l a b : 0 ≤ a ≤ b → b ≤ zlen l → zlen (slice l a b) = b - a.
Proof.
  intros. unfold slice, zlen in *. rewrite length_take, length_drop. lia.
Qed.

Lemma slice_snoc l a b x :
  0 ≤ a ≤ b → l !z b = Some x → slice l a (b + 1) = slice l a b ++ [x].
Proof.
  intros Hab Hx%zlookup_Some_nat. unfold slice.
  replace (Z.to_nat (b + 1 - a)) with (S (Z.to_nat (b - a))) by lia.
  apply take_S_r. rewrite lookup_drop. rewrite <-Hx. f_equal. lia.
Qed.

Lemma slice_app l a b c : 0 ≤ a ≤ b → b ≤ c → slice l a b ++ slice l b c = slice l a c.
Proof.
  intros. unfold slice.
  replace (Z.to_nat (c - a)) with (Z.to_nat (b - a) + Z.to_nat (c - b))%nat by lia.
  rewrite <-take_take_drop, drop_drop. do 3 f_equal. lia.
Qed.

Lemma slice_cons l a b x :
  0 ≤ a < b → l !z a = Some x → slice l a b = x :: slice l (a + 1) b.
Proof.
  intros Hab Hx. rewrite <-(slice_app l a (a + 1) b) by lia.
  by rewrite (slice_snoc l a a x), slice_nil by (done || lia).
Qed.

Lemma slice_full l : slice l 0 (zlen l) = l.
Proof.
  unfold slice, zlen. rewrite drop_0. apply take_ge. lia.
Qed.

Lemma zlookup_slice l a b i :
  0 ≤ a → 0 ≤ i < b - a → slice l a b !z i = l !z (a + i).
Proof.
  intros. rewrite !zlookup_nonneg by lia. unfold slice.
  rewrite lookup_take_lt by lia. rewrite lookup_drop. f_equal. lia.
Qed.

Lemma slice_app_l l k a b : 0 ≤ a → b ≤ zlen l → slice (l ++ k) a b = slice l a b.
Proof.
  intros. unfold slice, zlen in *.
  destruct (decide (a ≤ b)); [|by replace (Z.to_nat (b - a)) with O by lia].
  destruct (decide (Z.to_nat a ≤ length l)%nat).
  - rewrite drop_app_le by done. rewrite take_app_le; [done|].
    rewrite length_drop. lia.
  - lia.
Qed.

Lemma slice_app_r l k a b : zlen l ≤ a → slice (l ++ k) a b = slice k (a - zlen l) (b - zlen l).
Proof.
  intros. unfold slice, zlen in *. rewrite drop_app_ge by lia.
  f_equal; [lia|]. f_equal. lia.
Qed.

(** Writing the element after a prefix extends the prefix. *)
Lemma slice_zinsert_snoc l i x :
  0 ≤ i < zlen l → slice (zinsert l i x) 0 (i + 1) = slice l 0 i ++ [x].
Proof.
  intros Hi. rewrite (slice_snoc _ 0 i x) by (try apply zlookup_zinsert_eq; lia).
  f_equal. unfold slice, zinsert. rewrite !drop_0. apply take_insert_ge. lia.
Qed.

Lemma elem_of_slice l a b x : x ∈ slice l a b → x ∈ l.
Proof.
  unfold slice. intros H. rewrite <-(take_drop (Z.to_nat a) l). apply elem_of_app. right.
  rewrite <-(take_drop (Z.to_nat (b - a)) (drop (Z.to_nat a) l)). apply elem_of_app. by left.
Qed.
End slices.

(** ** Rules for loops *)
Section loops.
Context {S : Type}.
Implicit Types (s : S) (f : Z → S → res S).

Lemma wp_for_nat (I : Z → S → Prop) (n : nat) lo f s :
  I lo s →
  (∀ i s, lo ≤ i < lo + Z.of_nat n → I i s → wp (f i s) (I (i + 1))) →
  wp (for_nat n lo f s) (I (lo + Z.of_nat n)).
Proof.
  revert lo s. induction n as [|n IH]; intros lo s Hs Hf; simpl.
  - by rewrite Z.add_0_r.
  - apply wp_bind. eapply wp_mono; [apply Hf; [lia|done]|].
    intros s' Hs'. replace (lo + Z.of_nat (Datatypes.S n)) with (lo + 1 + Z.of_nat n) by lia.
    apply IH; [done|]. intros i s'' Hi. apply Hf. lia.
Qed.

(** The loop rule: an invariant indexed by the counter. *)
Lemma wp_for_up (I : Z → S → Prop) lo hi f s (Q : S → Prop) :
  lo ≤ hi → I lo s →
  (∀ i s, lo ≤ i < hi → I i s → wp (f i s) (I (i + 1))) →
  (∀ s, I hi s → Q s) →
  wp (for_up lo hi f s) Q.
Proof.
  intros Hle Hs Hf HQ. unfold for_up. eapply wp_mono; [|exact HQ].
  replace hi with (lo + Z.of_nat (Z.to_nat (hi - lo))) at 2 by lia.
  apply wp_for_nat; [done|]. intros i s' Hi. apply Hf. lia.
Qed.

(** The same for loops that may stop with an error. *)
Lemma wpe_for_up e (I : Z → S → Prop) lo hi f s (Q : S → Prop) :
  lo ≤ hi → I lo s → (∀ i s, lo ≤ i < hi → I i s → wpe e (f i s) (I (i + 1))) → (∀ s, I hi s → Q s) →
  wpe e (for_up lo hi f s) Q.
Proof.
  intros Hle Hs Hf HQ. unfold for_up. remember (Z.to_nat (hi - lo)) as n eqn:Hn. revert lo s Hle Hs Hf Hn.
  induction n as [|n IH]; intros lo s Hle Hs Hf Hn; simpl; [apply HQ; by replace hi with lo by lia|].
  apply wpe_bind. eapply wpe_mono; [apply Hf; (done || lia)|]. intros s' Hs'. apply IH; [lia|done| |lia]. intros i s2 Hi. apply Hf. lia.
Qed.

Lemma for_up_nil lo hi f s : hi ≤ lo → for_up lo hi f s = Ok s.
Proof. intros. unfold for_up. by replace (Z.to_nat (hi - lo)) with O by lia. Qed.

Lemma for_up_cons lo hi f s :
  lo < hi → for_up lo hi f s = rbind (f lo s) (for_up (lo + 1) hi f).
Proof.
  intros. unfold for_up.
  replace (Z.to_nat (hi - lo)) with (Datatypes.S (Z.to_nat (hi - (lo + 1)))) by lia.
  done.
Qed.

(** Every round of a loop that returned has returned. *)
Lemma for_up_round lo hi f s r i : for_up lo hi f s = Ok r → lo ≤ i < hi → ∃ s' s'', f i s' = Ok s''.
Proof.
  unfold for_up. remember (Z.to_nat (hi - lo)) as n eqn:Hn. intros Hr Hi. assert (lo ≤ i < lo + Z.of_nat n) as Hi' by lia. clear Hn Hi.
  revert lo s Hr Hi'. induction n as [|n IH]; intros lo s Hr Hi; [lia|]. cbn in Hr. destruct (f lo s) as [s'|] eqn:E; [|done]. cbn in Hr.
  destruct (decide (i = lo)) as [->|]; [eauto|]. apply (IH (lo + 1) s' Hr). lia.
Qed.

Lemma for_up_ext lo hi f g s :
  (∀ i s, lo ≤ i < hi → f i s = g i s) → for_up lo hi f s = for_up lo hi g s.
Proof.
  intros Hfg. unfold for_up.
  assert (∀ n i, lo ≤ i → i + Z.of_nat n ≤ Z.max lo hi →
    ∀ s, for_nat n i f s = for_nat n i g s) as Hn; [|apply Hn; lia].
  induction n as [|n IH]; intros i Hi Hn s'; simpl; [done|].
  rewrite Hfg by lia. destruct (g i s'); simpl; [apply IH; lia|done].
Qed.

(** A loop that visits a list, with an invariant on the part visited. *)
Lemma wp_for_each {A} (I : list A → S → Prop) (l : list A) (f : A → S → res S) s (Q : S → Prop) :
  I [] s →
  (∀ pre x post s, l = pre ++ x :: post → I pre s → wp (f x s) (I (pre ++ [x]))) →
  (∀ s, I l s → Q s) →
  wp (for_each l f s) Q.
Proof.
  intros Hs Hf HQ. eapply wp_mono; [|exact HQ]. clear HQ.
  assert (∀ pre post s, l = pre ++ post → I pre s → wp (for_each post f s) (I l)) as H;
    [|by apply (H [] l)].
  clear Hs s. intros pre post. revert pre. induction post as [|x post IH]; intros pre s Hl Hs; simpl.
  - rewrite app_nil_r in Hl. by subst.
  - apply wp_bind. eapply wp_mono; [by eapply Hf|]. intros s' Hs'.
    apply (IH (pre ++ [x])); [|done]. by rewrite <-app_assoc.
Qed.

(** A [while] loop with a measure: it returns when the fuel exceeds it. *)
Lemma wp_while (I : S → Prop) (m : S → nat) fuel (c : S → res bool) (body : S → res S) s (Q : S → Prop) :
  I s → (m s < fuel)%nat →
  (∀ s, I s → wp (c s) (λ b : bool, if b then wp (body s) (λ s', I s' ∧ (m s' < m s)%nat) else Q s)) →
  wp (while fuel c body s) Q.
Proof.
  revert s. induction fuel as [|fuel IH]; intros s Hs Hm Hstep; [lia|]. simpl.
  apply wp_bind. eapply wp_mono; [by apply Hstep|]. intros [] Hb; simpl; [|done].
  apply wp_bind. eapply wp_mono; [exact Hb|]. intros s' [Hs' Hm'].
  apply IH; [done|lia|done].
Qed.

(** The same rule with the measure as an index of the invariant. *)
Lemma wp_while_rel (I : S → nat → Prop) k fuel (c : S → res bool) (body : S → res S) s
    (Q : S → Prop) :
  I s k → (k < fuel)%nat →
  (∀ s m, I s m → wp (c s) (λ b : bool,
     if b then wp (body s) (λ s', ∃ m', I s' m' ∧ (m' < m)%nat) else Q s)) →
  wp (while fuel c body s) Q.
Proof.
  revert s k. induction fuel as [|fuel IH]; intros s k Hs Hm Hstep; [lia|]. simpl.
  apply wp_bind. eapply wp_mono; [by eapply Hstep|]. intros [] Hb; simpl; [|done].
  apply wp_bind. eapply wp_mono; [exact Hb|]. intros s' (m' & Hs' & Hm').
  eapply IH; [done|lia|done].
Qed.

(** A loop that may stop with an error. *)
Lemma wpe_while e (I : S → nat → Prop) k fuel (c : S → res bool) (body : S → res S) s (Q : S → Prop) :
  I s k → (k < fuel)%nat →
  (∀ s m, I s m → wpe e (c s) (λ b : bool,
     if b then wpe e (body s) (λ s', ∃ m', I s' m' ∧ (m' < m)%nat) else Q s)) →
  wpe e (while fuel c body s) Q.
Proof.
  revert s k. induction fuel as [|fuel IH]; intros s k Hs Hm Hstep; [lia|]. simpl.
  apply wpe_bind. eapply wpe_mono; [by eapply Hstep|]. intros [] Hb; simpl; [|done].
  apply wpe_bind. eapply wpe_mono; [exact Hb|]. intros s' (m' & Hs' & Hm'). eapply IH; [done|lia|done].
Qed.

(** A loop whose condition stays true does not return, whatever the fuel. *)
Lemma while_forever (I : S → Prop) fuel (c : S → res bool) (body : S → res S) s :
  I s → (∀ s, I s → c s = Ok true ∧ ∃ s', body s = Ok s' ∧ I s') →
  while fuel c body s = Err OutOfFuel.
Proof.
  intros Hs Hstep. revert s Hs. induction fuel as [|fuel IH]; intros s Hs; simpl; [done|].
  destruct (Hstep s Hs) as (-> & s' & Hb & Hs'). simpl. rewrite Hb. simpl. by apply IH.
Qed.

(** More fuel does not change the value a loop returns. *)
Lemma while_fuel_mono n n' (c : S → res bool) (body : S → res S) s r :
  (n ≤ n')%nat → while n c body s = Ok r → while n' c body s = Ok r.
Proof.
  revert n' s. induction n as [|n IH]; intros n' s Hle H; simpl in H; [done|].
  destruct n' as [|n']; [lia|]. simpl.
  destruct (c s) as [[]|]; simpl in *; try done.
  destruct (body s); simpl in *; [|done]. apply IH; [lia|done].
Qed.
End loops.

(** Copying a range of one vector to the end of another. *)
Lemma for_up_copy {A} (l acc : list A) lo hi :
  0 ≤ lo ≤ hi → hi ≤ zlen l →
  for_up lo hi (λ e acc, let* x := vget l e in Ok (acc ++ [x])) acc = Ok (acc ++ slice l lo hi).
Proof.
  intros Hlo Hhi. apply wp_eq.
  apply (wp_for_up (λ i (acc' : list A), acc' = acc ++ slice l lo i)); [lia| | |done].
  - by rewrite slice_nil, app_nil_r by lia.
  - intros i acc' Hi ->. destruct (zlookup_total l i) as [x Hx]; [lia|].
    apply wp_bind. eapply wp_vget; [done|]. simpl.
    by rewrite (slice_snoc l lo i x), app_assoc by (done || lia).
Qed.

(** Appending the image of a vector, computed element by element. *)
Lemma for_up_map {A B} (row : list A) (f : A → res B) (h : A → B) (acc : list B) :
  (∀ d, d ∈ row → f d = Ok (h d)) →
  for_up 0 (zlen row) (λ e acc,
    let* d := vget row e in
    let* x := f d in
    Ok (acc ++ [x])) acc = Ok (acc ++ (h <$> row)).
Proof.
  intros Hf. apply wp_eq.
  apply (wp_for_up (λ i (acc' : list B), acc' = acc ++ (h <$> slice row 0 i))).
  - apply zlen_nonneg.
  - by rewrite slice_nil, app_nil_r by lia.
  - intros i acc' Hi ->. destruct (zlookup_total row i) as [x Hx]; [lia|].
    rewrite (vget_ok _ _ _ Hx). simpl. rewrite Hf by (by eapply zlookup_elem). simpl.
    by rewrite (slice_snoc row 0 i x), fmap_app, app_assoc by (done || lia).
  - intros acc' ->. by rewrite slice_full.
Qed.

(** ** Tactics *)

(** Normalise lengths, then arithmetic. *)
Ltac zlen_simpl :=
  autorewrite with laconic in *;
  repeat match goal with
  | |- context [@zlen ?T []] => change (@zlen T []) with 0
  | H : context [@zlen ?T []] |- _ => change (@zlen T []) with 0 in H
  end.

Ltac zlia :=
  zlen_simpl;
  repeat match goal with
  | H : _ !z _ = Some _ |- _ => apply zlookup_range in H
  end;
  try lia.

(** Run a straight-line program under [wp]: reads and writes known to be in
    range are executed, the rest is left. *)
Ltac wp_run :=
  repeat first
    [ progress cbn beta
    | match goal with
      | |- wp (rbind _ _) _ => apply wp_bind
      | |- wp (Ok _) _ => apply wp_ok
      | H : ?l !z ?i = Some ?x |- wp (vget ?l ?i) _ => apply (wp_vget l i _ x H)
      | |- wp (vset ?l ?i ?x) _ => apply wp_vset; [solve [zlia]|]
      end ].
