(* ===== verification/TextIO.v ===== *)
(** * Numbers in text files

    The stream operators the programs use on files: [>>] and [<<] for an integer type,
    with characters.  [>>] skips white space, takes a sign and digits, and stops before
    the first character that does not belong to the number.  Nothing to read at the end
    of the file leaves the variable as it was; text that is not a number makes it 0, and
    a number that does not fit makes it the nearest value of the type; in all three cases
    the stream fails, and nothing is read from it any more.  A minus sign before an
    unsigned number negates it modulo the size of the type. *)

From Stdlib Require Import Ascii.
From S2P Require Import Prelude.

(** ** Writing *)

Definition text : Type := list ascii.

Definition digit (d : Z) : ascii := ascii_of_nat (48 + Z.to_nat d).
Definition space : ascii := ascii_of_nat 32.
Definition newline : ascii := ascii_of_nat 10.
Definition minus : ascii := ascii_of_nat 45.
Definition plus : ascii := ascii_of_nat 43.

Fixpoint show_digits (fuel : nat) (n : Z) (acc : text) : text :=
  match fuel with
  | O => acc
  | S fuel' => if n <? 10 then digit n :: acc else show_digits fuel' (n / 10) (digit (n mod 10) :: acc)
  end.

(** [out << z]; a number has at most as many decimal digits as binary ones. *)
Definition show (z : Z) : text :=
  let n := Z.abs z in
  (if z <? 0 then [minus] else []) ++ show_digits (S (Z.to_nat (Z.log2 n))) n [].

(** ** Reading *)

Definition is_space (c : ascii) : bool :=
  let n := nat_of_ascii c in (n =? 32)%nat || ((9 <=? n) && (n <=? 13))%nat.
Definition is_digit (c : ascii) : bool := let n := nat_of_ascii c in ((48 <=? n) && (n <=? 57))%nat.
Definition digit_value (c : ascii) : Z := Z.of_nat (nat_of_ascii c) - 48.

(** An integer type: its width, and whether it has a sign. *)
Record itype := IType { width : Z; signed : bool }.
Definition int : itype := IType 32 true.
Definition uint32 : itype := IType 32 false.

Definition type_min (T : itype) : Z := if signed T then - 2 ^ (width T - 1) else 0.
Definition type_max (T : itype) : Z := if signed T then 2 ^ (width T - 1) - 1 else 2 ^ width T - 1.

Record stream := Stream { rest : text; good : bool }.

Fixpoint skip_spaces (s : text) : text :=
  match s with
  | c :: s' => if is_space c then skip_spaces s' else s
  | [] => []
  end.

(** The digits at the front: what follows them, their value, and whether there are any. *)
Fixpoint take_digits (s : text) (acc : Z) (any : bool) : text * Z * bool :=
  match s with
  | c :: s' => if is_digit c then take_digits s' (10 * acc + digit_value c) true else (s, acc, any)
  | [] => ([], acc, any)
  end.

Definition take_sign (s : text) : bool * text :=
  match s with
  | c :: s' => if decide (c = minus) then (true, s') else if decide (c = plus) then (false, s') else (false, s)
  | [] => (false, [])
  end.

(** The value a number with sign [neg] and absolute value [n] gives, and whether it fits. *)
Definition convert_value (T : itype) (neg : bool) (n : Z) : Z * bool :=
  if signed T then
    let z := if neg then - n else n in
    if z <? type_min T then (type_min T, false) else if type_max T <? z then (type_max T, false) else (z, true)
  else if type_max T <? n then (type_max T, false)
  else (wrapu (width T) (if neg then - n else n), true).

(** [in >> x], with [x] as it was: the stream and the new value. *)
Definition extract (T : itype) (s : stream) (x : Z) : stream * Z :=
  if negb (good s) then (s, x) else
  match skip_spaces (rest s) with
  | [] => (Stream [] false, x)
  | s1 =>
      let '(neg, s2) := take_sign s1 in
      let '(s3, n, any) := take_digits s2 0 false in
      if negb any then (Stream s3 false, 0) else
      let '(z, fits) := convert_value T neg n in
      (Stream s3 fits, z)
  end.

(** [while (in >> tmp) f(tmp);]: the numbers passed to [f].  Each round consumes a
    character. *)
Fixpoint read_all (fuel : nat) (T : itype) (s : stream) (tmp : Z) : list Z :=
  match fuel with
  | O => []
  | S fuel' =>
      let '(s', z) := extract T s tmp in
      if good s' then z :: read_all fuel' T s' z else []
  end.

Definition read_numbers (T : itype) (s : text) : list Z := read_all (S (length s)) T (Stream s true) 0.

Example read_numbers_ex1 : read_numbers uint32 (show 12 ++ [space] ++ show 0 ++ [newline] ++ show 4294967295) = [12; 0; 4294967295].
Proof. reflexivity. Qed.
Example read_numbers_ex2 : read_numbers int (show (-7) ++ [newline; space; plus] ++ show 5 ++ [space] ++ show 2147483648 ++ [space] ++ show 1) = [-7; 5].
Proof. reflexivity. Qed.

(** ** Reading what was written *)

Lemma digit_is_digit d : 0 ≤ d < 10 → is_digit (digit d) = true ∧ digit_value (digit d) = d.
Proof.
  intros Hd. unfold is_digit, digit_value, digit. rewrite nat_ascii_embedding by lia. split; [|lia].
  apply andb_true_iff. split; apply Nat.leb_le; lia.
Qed.

Lemma digit_not_space c : is_digit c = true → is_space c = false ∧ c ≠ minus ∧ c ≠ plus.
Proof.
  intros H. apply andb_true_iff in H as [H1%Nat.leb_le H2%Nat.leb_le]. split_and!.
  - unfold is_space. apply orb_false_iff. split; [apply Nat.eqb_neq; lia|]. apply andb_false_iff. right. apply Nat.leb_gt. lia.
  - intros ->. cbv in H1. lia.
  - intros ->. cbv in H1. lia.
Qed.

(** The digits of a number. *)
Definition value (ds : text) : Z := foldl (λ a c, 10 * a + digit_value c) 0 ds.

Lemma show_digits_spec fuel n acc :
  0 ≤ n < 2 ^ Z.of_nat fuel → (0 < fuel)%nat →
  ∃ ds, show_digits fuel n acc = ds ++ acc ∧ ds ≠ [] ∧ Forall (λ c, is_digit c = true) ds ∧ value ds = n.
Proof.
  revert n acc. induction fuel as [|fuel IH]; intros n acc Hn Hf; [lia|]. cbn [show_digits].
  destruct (Z.ltb_spec n 10).
  - exists [digit n]. pose proof (digit_is_digit n ltac:(lia)) as [Hd Hv]. split_and!; [done..|by constructor|]. unfold value. simpl. lia.
  - rewrite Nat2Z.inj_succ, Z.pow_succ_r in Hn by lia.
    pose proof (Z.div_mod n 10 ltac:(lia)). pose proof (Z.mod_pos_bound n 10 ltac:(lia)).
    pose proof (digit_is_digit (n mod 10) ltac:(lia)) as [Hd Hv].
    destruct fuel as [|fuel]; [simpl in Hn; lia|].
    destruct (IH (n / 10) (digit (n mod 10) :: acc)) as (ds & -> & Hne & Hall & Hval); [lia|lia|].
    exists (ds ++ [digit (n mod 10)]). split_and!; [by rewrite <-app_assoc|by destruct ds|by apply Forall_app; split; [|by constructor]|].
    unfold value in *. rewrite foldl_app. cbn [foldl]. lia.
Qed.

Lemma show_spec z : ∃ ds, show z = (if z <? 0 then [minus] else []) ++ ds ∧ ds ≠ [] ∧ Forall (λ c, is_digit c = true) ds ∧ value ds = Z.abs z.
Proof.
  unfold show. destruct (show_digits_spec (S (Z.to_nat (Z.log2 (Z.abs z)))) (Z.abs z) []) as (ds & -> & ?); [|lia|].
  - split; [lia|]. rewrite Nat2Z.inj_succ, Z2Nat.id by apply Z.log2_nonneg.
    destruct (Z.eq_dec (Z.abs z) 0) as [->|]; [done|]. apply Z.log2_spec. lia.
  - exists ds. by rewrite app_nil_r.
Qed.

(** What may follow a number: nothing, or something that is not a digit. *)
Definition ends_number (s : text) : Prop := match s with c :: _ => is_digit c = false | [] => True end.

Lemma take_digits_app ds s acc any :
  Forall (λ c, is_digit c = true) ds → ends_number s →
  take_digits (ds ++ s) acc any = (s, foldl (λ a c, 10 * a + digit_value c) acc ds, if ds is [] then any else true).
Proof.
  intros Hds Hs. revert acc any. induction Hds as [|c ds Hc Hds IH]; intros acc any; simpl.
  - destruct s as [|c s]; [done|]. simpl in *. by rewrite Hs.
  - rewrite Hc, IH. by destruct ds.
Qed.

Lemma skip_spaces_app sp s : Forall (λ c, is_space c = true) sp → skip_spaces (sp ++ s) = skip_spaces s.
Proof. induction 1 as [|c sp Hc _ IH]; simpl; [done|]. by rewrite Hc. Qed.

Lemma convert_value_ok T z : 0 < width T → type_min T ≤ z ≤ type_max T → convert_value T (z <? 0) (Z.abs z) = (z, true).
Proof.
  intros Hw Hz. unfold convert_value. destruct (signed T) eqn:Hs.
  - assert ((if z <? 0 then - Z.abs z else Z.abs z) = z) as -> by (destruct (Z.ltb_spec z 0); lia).
    by rewrite (proj2 (Z.ltb_ge z _)), (proj2 (Z.ltb_ge _ z)) by lia.
  - unfold type_min, type_max in *. rewrite Hs in *. rewrite (proj2 (Z.ltb_ge z 0)), Z.abs_eq, (proj2 (Z.ltb_ge _ z)) by lia.
    rewrite wrapu_small by lia. done.
Qed.

(** [>>] reads what [<<] wrote. *)
Lemma extract_show T sp z s x :
  0 < width T → type_min T ≤ z ≤ type_max T → Forall (λ c, is_space c = true) sp → ends_number s →
  extract T (Stream (sp ++ show z ++ s) true) x = (Stream s true, z).
Proof.
  intros Hw Hz Hsp Hs. destruct (show_spec z) as (ds & Hsh & Hne & Hds & Hval). unfold extract. cbn [good negb rest].
  rewrite skip_spaces_app by done. destruct ds as [|c ds]; [done|]. pose proof Hds as Hds'. apply Forall_cons in Hds' as [Hc _].
  destruct (digit_not_space c Hc) as (Hcs & Hcm & Hcp). rewrite Hsh, <-app_assoc.
  assert (∃ c' s', skip_spaces ((if z <? 0 then [minus] else []) ++ (c :: ds) ++ s) = c' :: s' ∧ take_sign (c' :: s') = (z <? 0, (c :: ds) ++ s)) as (c' & s' & -> & ->).
  { destruct (z <? 0); cbn [app skip_spaces].
    - by eexists _, _.
    - rewrite Hcs. eexists _, _. split; [done|]. unfold take_sign. by rewrite !decide_False. }
  rewrite take_digits_app by done. cbn [negb]. fold (value (c :: ds)). by rewrite Hval, convert_value_ok.
Qed.

(** ** Whole files *)

(** Numbers, each with the white space that follows it; only after the last one there
    may be none. *)
Fixpoint separated (l : list (Z * text)) : Prop :=
  match l with
  | [] => True
  | (_, sp) :: l' => Forall (λ c, is_space c = true) sp ∧ (sp ≠ [] ∨ l' = []) ∧ separated l'
  end.

Definition numbers_text (l : list (Z * text)) : text := concat ((λ p, show p.1 ++ p.2) <$> l).

Lemma space_ends c s : is_space c = true → ends_number (c :: s).
Proof. intros Hc. simpl. destruct (is_digit c) eqn:Hd; [|done]. destruct (digit_not_space c Hd). congruence. Qed.

Lemma read_all_text T fuel sp l x :
  0 < width T → Forall (λ z, type_min T ≤ z ≤ type_max T) l.*1 → Forall (λ c, is_space c = true) sp → separated l →
  (length l < fuel)%nat → read_all fuel T (Stream (sp ++ numbers_text l) true) x = l.*1.
Proof.
  intros Hw. revert fuel sp x. induction l as [|[z sp'] l IH]; intros [|fuel] sp x Hl Hsp Hsep Hf; simpl in Hf; try lia.
  - unfold numbers_text. simpl. unfold extract. cbn. by rewrite skip_spaces_app.
  - destruct Hsep as (Hsp' & Hlast & Hsep). rewrite fmap_cons in *. apply Forall_cons in Hl as [Hz Hl]. unfold numbers_text. cbn -[extract].
    fold (numbers_text l). rewrite <-app_assoc.
    assert (ends_number (sp' ++ numbers_text l)) as Hend.
    { destruct sp' as [|c sp']; [destruct Hlast as [?| ->]; done|]. apply Forall_cons in Hsp' as [? _]. by apply space_ends. }
    rewrite extract_show by done.
    cbn. f_equal. apply IH; try done. lia.
Qed.

Lemma show_nonempty z : (1 ≤ length (show z))%nat.
Proof. destruct (show_spec z) as (ds & -> & Hne & _). rewrite length_app. destruct ds; [done|]. simpl. lia. Qed.

Lemma numbers_text_length l : (length l ≤ length (numbers_text l))%nat.
Proof.
  induction l as [|[z sp] l IH]; [done|]. unfold numbers_text in *. rewrite fmap_cons. cbn [concat length fst snd].
  rewrite !length_app. pose proof (show_nonempty z). lia.
Qed.

(** A text that holds the numbers [l]. *)
Definition holds (s : text) (l : list Z) : Prop := ∃ sp toks,
  s = sp ++ numbers_text toks ∧ toks.*1 = l ∧ Forall (λ c, is_space c = true) sp ∧ separated toks.

(** A file of numbers that [<<] wrote, with white space between them, is read back by
    a loop around [>>] as the same numbers, for signed and unsigned types alike. *)
Theorem read_numbers_show T s l :
  0 < width T → Forall (λ z, type_min T ≤ z ≤ type_max T) l → holds s l → read_numbers T s = l.
Proof.
  intros Hw Hl (sp & toks & -> & <- & Hsp & Hsep). unfold read_numbers. apply read_all_text; try done.
  rewrite length_app. pose proof (numbers_text_length toks). lia.
Qed.

(** One number per line. *)
Definition lines (l : list Z) : text := numbers_text ((λ x, (x, [newline])) <$> l).

Lemma lines_hold l : holds (lines l) l.
Proof.
  exists [], ((λ x, (x, [newline])) <$> l). split_and!; [done| |done|].
  - rewrite <-list_fmap_compose. apply list_fmap_id.
  - induction l as [|x l IH]; [done|]. rewrite fmap_cons. split_and!; [by constructor|by left|done].
Qed.

Lemma read_numbers_show_witness : read_numbers uint32 (lines [3; 0; 4294967295]) = [3; 0; 4294967295].
Proof. apply read_numbers_show; [done| |apply lines_hold]. by repeat constructor. Defined.

(** ** The loop ends *)

Lemma skip_spaces_length s : (length (skip_spaces s) ≤ length s)%nat.
Proof. induction s as [|c s IH]; simpl; [done|]. destruct (is_space c); simpl; lia. Qed.

Lemma take_digits_length s acc any s' n b :
  take_digits s acc any = (s', n, b) → (length s' ≤ length s)%nat ∧ (any = false → b = true → (length s' < length s)%nat).
Proof.
  revert acc any. induction s as [|c s IH]; intros acc any H; simpl in *; [by injection H as <- <- ->; split; [done|intros ->]|].
  destruct (is_digit c); [destruct (IH _ _ H); lia|]. injection H as <- <- <-. split; [done|by intros ->].
Qed.

Lemma take_sign_length s neg s' : take_sign s = (neg, s') → (length s' ≤ length s)%nat.
Proof. destruct s as [|c s]; simpl; [by intros [= <- <-]|]. repeat case_decide; intros [= <- <-]; simpl; lia. Qed.

(** A successful extraction consumes a character. *)
Lemma extract_length T s x s' z : extract T s x = (s', z) → good s' = true → (length (rest s') < length (rest s))%nat.
Proof.
  unfold extract. intros H Hg. destruct (good s) eqn:Hs; cbn [negb] in H; [|injection H as <- <-; congruence].
  pose proof (skip_spaces_length (rest s)) as Hsk. destruct (skip_spaces (rest s)) as [|c s1] eqn:Hc; [by injection H as <- <-|].
  destruct (take_sign (c :: s1)) as [neg s2] eqn:Hn. pose proof (take_sign_length _ _ _ Hn).
  destruct (take_digits s2 0 false) as [[s3 n] any] eqn:Hd. destruct (take_digits_length _ _ _ _ _ _ Hd) as [_ Hlt].
  destruct any; cbn [negb] in H; [|by injection H as <- <-]. destruct (convert_value T neg n) as [v fits]. injection H as <- <-. cbn in *.
  specialize (Hlt eq_refl eq_refl). lia.
Qed.

(** More rounds change nothing: the loop of [read_numbers] runs until [>>] fails. *)
Lemma read_all_enough T fuel fuel' s x :
  (length (rest s) < fuel)%nat → (length (rest s) < fuel')%nat → read_all fuel T s x = read_all fuel' T s x.
Proof.
  revert fuel' s x. induction fuel as [|fuel IH]; intros [|fuel'] s x Hf Hf'; try lia. cbn [read_all].
  destruct (extract T s x) as [s' z] eqn:He. destruct (good s') eqn:Hg; [|done]. pose proof (extract_length _ _ _ _ _ He Hg).
  f_equal. apply IH; lia.
Qed.
