(* ===== verification/Threads.v ===== *)
(** * Threads

    Programs that run at the same time on one memory.  A program is a tree of atomic
    steps: it has returned, or it is about to make a step that changes the memory,
    fails, or goes on.  A [schedule] chooses which unfinished thread makes the next
    step, so a statement about all schedules is one about all interleavings.

    The main result: threads that only access their own part of the memory, and what
    nobody writes, end in every interleaving in the memory each of them reaches
    alone. *)

From S2P Require Import Prelude.

Section prog.
Context {M : Type}.

Unset Elimination Schemes.
Inductive prog (A : Type) : Type :=
| Ret (a : A)
| Act (f : M → res (M * prog A)).
Set Elimination Schemes.

Arguments Ret {A} a.
Arguments Act {A} f.

(** One atomic step. *)
Definition act {A} (f : M → res (M * A)) : prog A :=
  Act (λ m, let* '(m', a) := f m in Ok (m', Ret a)).

Definition fail {A} (e : ub) : prog A := Act (λ _, Err e).

Fixpoint pbind {A B} (p : prog A) (k : A → prog B) : prog B :=
  match p with
  | Ret a => k a
  | Act f => Act (λ m, match f m with Ok (m', p') => Ok (m', pbind p' k) | Err e => Err e end)
  end.

(** Without other threads. *)
Fixpoint run {A} (p : prog A) (m : M) : res (M * A) :=
  match p with
  | Ret a => Ok (m, a)
  | Act f => match f m with Ok (m', p') => run p' m' | Err e => Err e end
  end.

(** The number of steps it takes alone. *)
Fixpoint steps {A} (p : prog A) (m : M) : nat :=
  match p with
  | Ret _ => 0%nat
  | Act f => match f m with Ok (m', p') => S (steps p' m') | Err _ => 1%nat end
  end.

(** ** Loops *)

Fixpoint pwhile {S} (fuel : nat) (c : S → prog bool) (body : S → prog S) (s : S) : prog S :=
  match fuel with
  | O => fail OutOfFuel
  | Datatypes.S fuel' => pbind (c s) (λ b, if b : bool then pbind (body s) (pwhile fuel' c body) else Ret s)
  end.

Fixpoint pfor_each {X S} (l : list X) (body : X → S → prog S) (s : S) : prog S :=
  match l with
  | [] => Ret s
  | x :: l' => pbind (body x s) (pfor_each l' body)
  end.

Fixpoint pfor_nat {S} (n : nat) (i : Z) (body : Z → S → prog S) (s : S) : prog S :=
  match n with
  | O => Ret s
  | Datatypes.S n' => pbind (body i s) (pfor_nat n' (i + 1) body)
  end.

Definition pfor_up {S} (lo hi : Z) (body : Z → S → prog S) (s : S) : prog S :=
  pfor_nat (Z.to_nat (hi - lo)) lo body s.

(** ** Thread pools *)

Definition pending (t : nat) (p : prog ()) : option (nat * (M → res (M * prog ()))) :=
  match p with Ret _ => None | Act f => Some (t, f) end.

(** The threads that have not ended, with their next steps. *)
Definition running (ps : list (prog ())) : list (nat * (M → res (M * prog ()))) :=
  omap (λ '(t, p), pending t p) (imap pair ps).

(** Start all threads and join them.  [schedule k] chooses who makes step [k]. *)
Fixpoint par (fuel : nat) (schedule : nat → nat) (ps : list (prog ())) (m : M) : res M :=
  match running ps !! (schedule 0 mod length (running ps))%nat with
  | None => Ok m
  | Some (t, f) =>
      match fuel with
      | O => Err OutOfFuel
      | S fuel' => let* '(m', p') := f m in par fuel' (λ k, schedule (S k)) (<[t := p']> ps) m'
      end
  end.
End prog.

Arguments prog M A : clear implicits.
Arguments Ret {M A} a.
Arguments Act {M A} f.

Declare Scope prog_scope.
Delimit Scope prog_scope with prog.
Notation "'do*' x := p 'in' k" := (pbind p (fun x => k))
  (at level 10, x binder, p at level 200, k at level 200,
   format "'[v' 'do*'  x  :=  p  'in' '/' k ']'") : prog_scope.

(** ** Programs alone *)

Section runs.
Context {M : Type}.

Lemma prog_ind {A} (P : prog M A → Prop) :
  (∀ a, P (Ret a)) → (∀ f, (∀ m m' p', f m = Ok (m', p') → P p') → P (Act f)) → ∀ p, P p.
Proof.
  intros Hret Hact. fix IH 1. intros [a|f]; [apply Hret|]. apply Hact. intros m m' p' Hf.
  destruct (f m) as [[m1 p1]|e]; [|discriminate Hf]. injection Hf as <- <-. apply IH.
Qed.

Lemma run_act {A} (f : M → res (M * A)) m : run (act f) m = f m.
Proof. simpl. by destruct (f m) as [[m' a]|e]. Qed.

Lemma run_bind {A B} (p : prog M A) (k : A → prog M B) m :
  run (pbind p k) m = (let* '(m', a) := run p m in run (k a) m').
Proof.
  revert m. induction p as [a|f IH] using prog_ind; intros m; simpl; [done|].
  destruct (f m) as [[m' p']|e] eqn:Hf; simpl; [|done]. by apply (IH m m').
Qed.

Lemma run_bind_ok {A B} (p : prog M A) (k : A → prog M B) m m' a :
  run p m = Ok (m', a) → run (pbind p k) m = run (k a) m'.
Proof. intros Hp. by rewrite run_bind, Hp. Qed.

(** A loop over the memory follows a loop over values: [mk s] is the memory and the
    local state that stand for [s]. *)
Lemma run_pwhile {X S} (mk : X → M * S) fuel c body (pc : S → prog M bool) (pbody : S → prog M S) x x' :
  (∀ x b, c x = Ok b → run (pc (mk x).2) (mk x).1 = Ok ((mk x).1, b)) →
  (∀ x x', c x = Ok true → body x = Ok x' → run (pbody (mk x).2) (mk x).1 = Ok (mk x')) →
  while fuel c body x = Ok x' → run (pwhile fuel pc pbody (mk x).2) (mk x).1 = Ok (mk x').
Proof.
  intros Hc Hb. revert x. induction fuel as [|fuel IH]; intros x Hw; [done|]. simpl in *.
  destruct (c x) as [b|] eqn:Hcx; [|done]. rewrite (run_bind_ok _ _ _ _ _ (Hc _ _ Hcx)). simpl in Hw.
  destruct b; [|injection Hw as <-; simpl; by destruct (mk x)].
  destruct (body x) as [y|] eqn:Hbx; [|done]. rewrite (run_bind_ok _ _ _ (mk y).1 (mk y).2); [by apply IH|].
  rewrite (Hb _ _ Hcx Hbx). by destruct (mk y).
Qed.

Lemma run_pfor_up {X S} (mk : X → M * S) lo hi body (pbody : Z → S → prog M S) x x' :
  (∀ i x x', lo ≤ i < hi → body i x = Ok x' → run (pbody i (mk x).2) (mk x).1 = Ok (mk x')) →
  for_up lo hi body x = Ok x' → run (pfor_up lo hi pbody (mk x).2) (mk x).1 = Ok (mk x').
Proof.
  unfold for_up, pfor_up. remember (Z.to_nat (hi - lo)) as n eqn:Hn. revert lo x Hn.
  induction n as [|n IH]; intros lo x Hn Hb Hw; simpl in *; [injection Hw as <-; by destruct (mk x)|].
  destruct (body lo x) as [y|] eqn:Hbx; [|done]. simpl in Hw. rewrite (run_bind_ok _ _ _ (mk y).1 (mk y).2).
  - apply IH; [lia| |done]. intros i z z' Hi. apply Hb. lia.
  - rewrite (Hb lo x y) by (done || lia). by destruct (mk y).
Qed.

Lemma run_pfor_each {X Y S} (mk : Y → M * S) (l : list X) (body : X → Y → Y) (pbody : X → S → prog M S) y :
  (∀ x y, x ∈ l → run (pbody x (mk y).2) (mk y).1 = Ok (mk (body x y))) →
  run (pfor_each l pbody (mk y).2) (mk y).1 = Ok (mk (foldl (flip body) y l)).
Proof.
  revert y. induction l as [|x l IH]; intros y Hb; simpl; [by destruct (mk y)|].
  rewrite (run_bind_ok _ _ _ (mk (body x y)).1 (mk (body x y)).2).
  - apply IH. intros z y' Hz. apply Hb. by constructor.
  - rewrite Hb by constructor. by destruct (mk (body x y)).
Qed.

(** ** Interleavings as a step relation *)

(** Some thread of the pool makes a step. *)
Inductive pstep : list (prog M ()) * M → list (prog M ()) * M → Prop :=
| pstep_act ps m t f m' p' :
    ps !! t = Some (Act f) → f m = Ok (m', p') → pstep (ps, m) (<[t := p']> ps, m').

Lemma running_elem (ps : list (prog M ())) t f : ps !! t = Some (Act f) → ∃ i, running ps !! i = Some (t, f).
Proof.
  intros Ht. apply list_elem_of_lookup. unfold running. apply list_elem_of_omap. exists (t, Act f). split; [|done].
  apply elem_of_lookup_imap. by exists t, (Act f).
Qed.

Lemma running_done (ps : list (prog M ())) : Forall (λ p, p = Ret tt) ps → running ps = [].
Proof.
  intros Hps. destruct (running ps) as [|[t f] l] eqn:Hr; [done|]. assert ((t, f) ∈ running ps) as Hin by (rewrite Hr; by left).
  unfold running in Hin. apply list_elem_of_omap in Hin as ([t' p] & Hin & Hp). apply elem_of_lookup_imap in Hin as (u & q & [= -> ->] & Hq).
  rewrite Forall_lookup in Hps. by rewrite (Hps _ _ Hq) in Hp.
Qed.

(** What the threads can reach, they reach under some schedule. *)
Lemma par_reaches ps m ps' m' :
  rtc pstep (ps, m) (ps', m') → Forall (λ p, p = Ret tt) ps' →
  ∃ N schedule, ∀ fuel, (N ≤ fuel)%nat → par fuel schedule ps m = Ok m'.
Proof.
  intros Hr. remember (ps, m) as s eqn:Hs. remember (ps', m') as s' eqn:Hs'. revert ps m Hs.
  induction Hr as [s|s s1 s' Hstep _ IH]; intros ps m -> Hdone.
  - injection Hs' as -> ->. exists 0%nat, (λ _, 0%nat). intros fuel _. by destruct fuel; simpl; rewrite (running_done _ Hdone).
  - inversion Hstep as [? ? t f m1 p1 Ht Hf]; subst. destruct (IH eq_refl _ _ eq_refl Hdone) as (N & schedule & Hpar).
    destruct (running_elem ps t f Ht) as [i Hi]. exists (S N), (λ k, match k with O => i | S k' => schedule k' end).
    intros [|fuel] Hfuel; [lia|]. simpl. rewrite Nat.mod_small by (by eapply lookup_lt_Some). rewrite Hi, Hf. simpl. apply Hpar. lia.
Qed.

(** A thread runs a part of its program without being interrupted. *)
Lemma rtc_bind {A} (p : prog M A) (k : A → prog M ()) ps t m m' a :
  ps !! t = Some (pbind p k) → run p m = Ok (m', a) → rtc pstep (ps, m) (<[t := k a]> ps, m').
Proof.
  revert ps m. induction p as [b|f IH] using prog_ind; intros ps m Ht Hr; simpl in Ht, Hr.
  - injection Hr as -> ->. by rewrite list_insert_id.
  - destruct (f m) as [[m1 p1]|] eqn:Hf; [|done]. eapply rtc_l.
    + eapply pstep_act; [exact Ht|]. cbn beta. by rewrite Hf.
    + rewrite <-(list_insert_insert_eq ps t (k a) (pbind p1 k)). eapply IH; [done| |done]. apply list_lookup_insert_eq. by eapply lookup_lt_Some.
Qed.

Lemma rtc_bind_bind {A B} (p : prog M A) (k1 : A → prog M B) (k2 : B → prog M ()) ps t m m' a :
  ps !! t = Some (pbind (pbind p k1) k2) → run p m = Ok (m', a) → rtc pstep (ps, m) (<[t := pbind (k1 a) k2]> ps, m').
Proof.
  revert ps m. induction p as [b|f IH] using prog_ind; intros ps m Ht Hr; simpl in Ht, Hr.
  - injection Hr as -> ->. by rewrite list_insert_id.
  - destruct (f m) as [[m1 p1]|] eqn:Hf; [|done]. eapply rtc_l.
    + eapply pstep_act; [exact Ht|]. cbn beta. by rewrite Hf.
    + rewrite <-(list_insert_insert_eq ps t (pbind (k1 a) k2) (pbind (pbind p1 k1) k2)). eapply IH; [done| |done]. apply list_lookup_insert_eq. by eapply lookup_lt_Some.
Qed.

Lemma rtc_run (p : prog M ()) ps t m m' :
  ps !! t = Some p → run p m = Ok (m', tt) → rtc pstep (ps, m) (<[t := Ret tt]> ps, m').
Proof.
  revert ps m. induction p as [[]|f IH] using prog_ind; intros ps m Ht Hr; simpl in Hr.
  - injection Hr as ->. by rewrite list_insert_id.
  - destruct (f m) as [[m1 p1]|] eqn:Hf; [|done]. eapply rtc_l; [by eapply pstep_act|].
    rewrite <-(list_insert_insert_eq ps t (Ret tt) p1). eapply IH; [done| |done]. apply list_lookup_insert_eq. by eapply lookup_lt_Some.
Qed.

(** A single thread. *)
Lemma par_single (p : prog M ()) fuel schedule m m' :
  run p m = Ok (m', tt) → (steps p m ≤ fuel)%nat → par fuel schedule [p] m = Ok m'.
Proof.
  revert fuel schedule m. induction p as [[]|f IH] using prog_ind; intros fuel schedule m Hr Hf; simpl in *.
  - injection Hr as <-. by destruct fuel.
  - destruct (f m) as [[m1 p1]|] eqn:Hfm; [|done]. destruct fuel as [|fuel]; [lia|]. cbn [par running pending imap omap list_omap length].
    rewrite Nat.mod_1_r. cbn. rewrite Hfm. simpl. eapply IH; [done..|lia].
Qed.
End runs.

(** ** Noninterference *)

(** What thread [t] may access: its own part of the memory and what no thread writes. *)
Section noninterference.
Context {M V : Type} (view : nat → M → V).

(** A step of thread [t] depends on the view of [t] only, and keeps the other views. *)
Definition local_step {A} (t : nat) (f : M → res (M * A)) : Prop :=
  (∀ m1 m2, view t m1 = view t m2 →
    match f m1, f m2 with
    | Ok (m1', a1), Ok (m2', a2) => a1 = a2 ∧ view t m1' = view t m2'
    | Err e1, Err e2 => e1 = e2
    | _, _ => False
    end) ∧
  (∀ m m' a u, f m = Ok (m', a) → u ≠ t → view u m' = view u m).

(** All steps of a program are such steps. *)
Fixpoint local {A} (t : nat) (p : prog M A) : Prop :=
  match p with
  | Ret _ => True
  | Act f => local_step t f ∧ ∀ m, match f m with Ok (m', p') => local t p' | Err _ => True end
  end.

Lemma local_act {A} t (f : M → res (M * A)) : local_step t f → local t (act f).
Proof using.
  intros [Hv Hu]. split; [split|].
  - intros m1 m2 Hm. specialize (Hv m1 m2 Hm). destruct (f m1) as [[m1' a1]|], (f m2) as [[m2' a2]|]; simpl; try done.
    by destruct Hv as [-> ?].
  - intros m m' p u Hf Hne. destruct (f m) as [[m1 a]|] eqn:Hfm; [|done]. simpl in Hf. injection Hf as <- <-. by eapply Hu.
  - intros m. by destruct (f m) as [[m1 a]|].
Qed.

Lemma local_bind {A B} t (p : prog M A) (k : A → prog M B) :
  local t p → (∀ a, local t (k a)) → local t (pbind p k).
Proof using.
  intros Hp Hk. induction p as [a|f IH] using prog_ind; simpl; [apply Hk|]. destruct Hp as [[Hv Hu] Hl]. split; [split|].
  - intros m1 m2 Hm. specialize (Hv m1 m2 Hm). destruct (f m1) as [[m1' p1]|], (f m2) as [[m2' p2]|]; try done.
    by destruct Hv as [-> ?].
  - intros m m' q u Hf Hne. destruct (f m) as [[m1 p1]|] eqn:Hfm; [|done]. injection Hf as <- <-. by eapply Hu.
  - intros m. specialize (Hl m). destruct (f m) as [[m1 p1]|] eqn:Hfm; [|done]. by apply (IH m m1).
Qed.

Lemma local_fail {A} t e : local t (@fail M A e).
Proof using. by split; [split|]. Qed.

Lemma local_pwhile {S} t fuel (c : S → prog M bool) body s :
  (∀ s, local t (c s)) → (∀ s, local t (body s)) → local t (pwhile fuel c body s).
Proof using.
  intros Hc Hb. revert s. induction fuel as [|fuel IH]; intros s; [apply local_fail|].
  apply local_bind; [done|]. intros [|]; [by apply local_bind|done].
Qed.

Lemma local_pfor_up {S} t lo hi (body : Z → S → prog M S) s :
  (∀ i s, local t (body i s)) → local t (pfor_up lo hi body s).
Proof using.
  intros Hb. unfold pfor_up. generalize (Z.to_nat (hi - lo)). intros n. revert lo s.
  induction n as [|n IH]; intros lo s; [done|]. by apply local_bind.
Qed.

Lemma local_pfor_each {X S} t (l : list X) (body : X → S → prog M S) s :
  (∀ x s, local t (body x s)) → local t (pfor_each l body s).
Proof using. intros Hb. revert s. induction l as [|x l IH]; intros s; [done|]. by apply local_bind. Qed.

(** The others can be ignored. *)
Lemma local_run {A} t (p : prog M A) m1 m2 m1' a :
  local t p → view t m1 = view t m2 → run p m1 = Ok (m1', a) →
  steps p m2 = steps p m1 ∧ ∃ m2', run p m2 = Ok (m2', a) ∧ view t m2' = view t m1'.
Proof using.
  revert m1 m2. induction p as [b|f IH] using prog_ind; intros m1 m2 Hp Hm Hr; simpl in *.
  - injection Hr as <- <-. eauto.
  - destruct Hp as [[Hv _] Hl]. specialize (Hv m1 m2 Hm). specialize (Hl m1).
    destruct (f m1) as [[m1a p1]|] eqn:H1; [|done]. destruct (f m2) as [[m2a p2]|] eqn:H2; [|done].
    destruct Hv as [<- Hva]. destruct (IH _ _ _ H1 m1a m2a) as (-> & m2' & ? & ?); eauto.
Qed.

Lemma running_Some (ps : list (prog M ())) i t f : running ps !! i = Some (t, f) → ps !! t = Some (Act f).
Proof using.
  intros Hi%list_elem_of_lookup_2. unfold running in Hi. apply list_elem_of_omap in Hi as ([t' p] & Hin & Hp).
  apply elem_of_lookup_imap in Hin as (u & q & [= -> ->] & Hq). destruct q as [|g]; [done|]. simpl in Hp. by injection Hp as <- <-.
Qed.

Lemma running_None (ps : list (prog M ())) k t p :
  running ps !! (k mod length (running ps))%nat = None → ps !! t = Some p → ∃ a, p = Ret a.
Proof using.
  intros Hn Ht. destruct p as [a|f]; [by exists a|]. exfalso. apply lookup_ge_None in Hn.
  destruct (running_elem ps t f Ht) as [i Hin%list_elem_of_lookup_2].
  destruct (running ps) as [|x l] eqn:E; [by apply not_elem_of_nil in Hin|].
  pose proof (Nat.mod_upper_bound k (length (x :: l)) ltac:(done)). lia.
Qed.

(** The steps of all threads. *)
Fixpoint total (ps : list (prog M ())) (m : M) : nat :=
  match ps with
  | [] => 0%nat
  | p :: ps' => (steps p m + total ps' m)%nat
  end.

Lemma total_ext ps m m' : (∀ u p, ps !! u = Some p → steps p m' = steps p m) → total ps m' = total ps m.
Proof using.
  induction ps as [|p ps IH]; intros Hu; simpl; [done|].
  rewrite (Hu 0%nat p), IH by (intros; by eapply (Hu (S _)) || done). done.
Qed.

Lemma total_step ps t f m m' p' :
  ps !! t = Some (Act f) → f m = Ok (m', p') →
  (∀ u p, u ≠ t → ps !! u = Some p → steps p m' = steps p m) → total ps m = S (total (<[t := p']> ps) m').
Proof using.
  intros Ht Hf. revert t Ht. induction ps as [|p ps IH]; intros [|t] Ht Hu; simpl in *; try done.
  - injection Ht as ->. simpl. rewrite Hf. rewrite (total_ext ps m m'); [done|]. intros u q. by apply (Hu (S u) q).
  - rewrite (Hu 0%nat p), (IH t Ht) by (done || (intros u q ? ?; by apply (Hu (S u) q); [lia|])). lia.
Qed.

(** [final t] is a memory with the part of [t] that [t] leaves behind alone. *)
Definition on_track (final : nat → M) (ps : list (prog M ())) (m : M) : Prop := ∀ t p,
  ps !! t = Some p → local t p ∧ ∃ m', run p m = Ok (m', tt) ∧ view t m' = view t (final t).

Lemma on_track_step final ps t f m :
  on_track final ps m → ps !! t = Some (Act f) →
  ∃ m' p', f m = Ok (m', p') ∧ total ps m = S (total (<[t := p']> ps) m') ∧ on_track final (<[t := p']> ps) m' ∧
    ∀ u, u ≠ t → view u m' = view u m.
Proof using.
  intros Hps Ht. destruct (Hps _ _ Ht) as (Hl & m1 & Hrun & Hview). simpl in Hl, Hrun. destruct Hl as [[_ Hu] Hl].
  specialize (Hl m). destruct (f m) as [[m' p']|] eqn:Hf; [|done]. exists m', p'.
  assert (∀ u p, u ≠ t → ps !! u = Some p → steps p m' = steps p m ∧ ∃ m2, run p m' = Ok (m2, tt) ∧ view u m2 = view u (final u)) as Hoth.
  { intros u p Hne Hp. destruct (Hps _ _ Hp) as (Hlp & m2 & Hr2 & Hv2).
    destruct (local_run u p m m' m2 tt) as (? & m3 & ? & ?); try done; [by rewrite (Hu m m' p')|].
    split; [done|]. exists m3. split; [done|by etrans]. }
  split_and!; [done|apply (total_step _ _ f); [done..|intros u p Hne Hp; by destruct (Hoth u p Hne Hp)]| |by intros; eapply Hu].
  intros u p Hp. destruct (decide (u = t)) as [->|Hne].
  - rewrite list_lookup_insert_eq in Hp by (by eapply lookup_lt_Some). injection Hp as <-. split; [done|]. by exists m1.
  - rewrite list_lookup_insert_ne in Hp by done. split; [by apply Hps|]. by destruct (Hoth u p Hne Hp).
Qed.

Lemma par_views ps final fuel schedule m :
  on_track final ps m → (total ps m ≤ fuel)%nat →
  wp (par fuel schedule ps m) (λ m', ∀ t, view t m' = view t (if decide (t < length ps)%nat then final t else m)).
Proof using.
  revert schedule ps m. induction fuel as [|fuel IH]; intros schedule ps m Hps Hfuel; simpl.
  all: destruct (running ps !! _) as [[t f]|] eqn:Hr; simpl.
  2, 4: intros t; case_decide as Hlt; [|done]; apply lookup_lt_is_Some_2 in Hlt as [p Ht];
    destruct (running_None _ _ _ _ Hr Ht) as [a ->]; destruct (Hps _ _ Ht) as (_ & m' & [= <- _] & ?); done.
  all: apply running_Some in Hr; destruct (on_track_step final ps t f m Hps Hr) as (m' & p' & Hf & Htot & Hps' & Hoth).
  1: lia.
  rewrite Hf. simpl. eapply wp_mono; [apply IH; [done|lia]|].
  intros m2 Hm2 u. rewrite Hm2, length_insert. case_decide; [done|]. apply Hoth. intros ->. by apply lookup_lt_Some in Hr.
Qed.

(** The views determine the memory, so the result does not depend on the schedule. *)
Lemma par_local ps (final : nat → M) m' fuel schedule m :
  (∀ m1 m2, (∀ t, view t m1 = view t m2) → m1 = m2) →
  (∀ t p, ps !! t = Some p → local t p ∧ run p m = Ok (final t, tt) ∧ view t m' = view t (final t)) →
  (∀ t, (length ps ≤ t)%nat → view t m' = view t m) →
  (total ps m ≤ fuel)%nat → par fuel schedule ps m = Ok m'.
Proof using.
  intros Hext Hps Hrest Hfuel. apply wp_eq. eapply wp_mono; [apply (par_views ps final); [|done]|].
  - intros t p Hp. destruct (Hps t p Hp) as (? & ? & _). split; [done|]. eauto.
  - intros m2 Hm2. apply Hext. intros t. rewrite Hm2. case_decide as Hlt.
    + destruct (lookup_lt_is_Some_2 _ _ Hlt) as [p Hp]. by destruct (Hps t p Hp) as (_ & _ & ->).
    + symmetry. apply Hrest. lia.
Qed.
End noninterference.
