(* ===== verification/Csr.v ===== *)
(** * CSR, COO and adjacency-list conversions

    The helpers of [compress_op/util.h] that every stage of the pipeline
    calls.  A [std::vector<T>] and a one-dimensional numpy array are lists; a
    graph [vector<vector<VertexT>>] is a list of rows.  A CSR graph is a pair
    of vectors: row [v] is [elist[vlist[v] .. vlist[v+1])]. *)

From S2P Require Import Prelude.

(** ** Operations *)

(** [csr_convert]: append every CSR row to the row of the same index. *)
Definition csr_convert (graph : list (list Z)) (vlist elist : list Z) (vertex_cnt : Z)
    : res (list (list Z)) :=
  for_up 0 vertex_cnt (λ v graph,
    let* start := vget vlist v in
    let* end_ := vget vlist (v + 1) in
    for_up start end_ (λ e graph,
      let* x := vget elist e in
      vpush graph v x) graph) graph.

(** [csr_convert_idx]: the transposed adjacency lists. *)
Definition csr_convert_idx (graph : list (list Z)) (vlist elist : list Z) (vertex_cnt : Z)
    : res (list (list Z)) :=
  for_up 0 vertex_cnt (λ v graph,
    let* start := vget vlist v in
    let* end_ := vget vlist (v + 1) in
    for_up start end_ (λ e graph,
      let* x := vget elist e in
      vpush graph x v) graph) graph.

(** [insert_spliter]: the rows one after the other, each followed by its own
    separator [max_symbol], [max_symbol + 1], ... *)
Definition insert_spliter (vlist elist re : list Z) (max_symbol : Z) : res (list Z) :=
  if zlen vlist =? 0 then Ok re else
  let* '(re, _) :=
    for_up 0 (zlen vlist - 1) (λ v '(re, cur),
      let* start := vget vlist v in
      let* end_ := vget vlist (v + 1) in
      let* re :=
        for_up start end_ (λ e re, let* x := vget elist e in Ok (re ++ [x])) re in
      Ok (re ++ [cur], cur + 1)) (re, max_symbol) in
  Ok re.

(** [genNewIdForRule]: number the rules that are kept, in order. *)
Definition genNewIdForRule (newRuleId : list Z) (merge_flag : list bool)
    (vertex_cnt rule_cnt : Z) : res (list Z * Z) :=
  let* '(newRuleId, cur) :=
    for_up 0 rule_cnt (λ i '(newRuleId, cur),
      let* newRuleId := vset newRuleId i cur in
      let* b := vget merge_flag i in
      Ok (newRuleId, if b then cur else cur + 1)) (newRuleId, vertex_cnt) in
  Ok (newRuleId, cur - vertex_cnt).

(** The test [srcID >= vertex_cnt && merge_flag[srcID - vertex_cnt] == true]
    and the renaming [dstID >= vertex_cnt ? newRuleId[dstID - vertex_cnt] :
    dstID] that both writers use. *)
Definition is_merged (merge_flag : list bool) (vertex_cnt v : Z) : res bool :=
  if vertex_cnt <=? v then vget merge_flag (v - vertex_cnt) else Ok false.

Definition new_id (newRuleId : list Z) (vertex_cnt d : Z) : res Z :=
  if vertex_cnt <=? d then vget newRuleId (d - vertex_cnt) else Ok d.

(** [genNewGraphCOO]: the kept rows as an edge list. *)
Definition genNewGraphCOO (src dst : list Z) (graph : list (list Z)) (newRuleId : list Z)
    (merge_flag : list bool) (vertex_cnt : Z) : res (list Z * list Z) :=
  for_up 0 (zlen graph) (λ v '(src, dst),
    let* row := vget graph v in
    let* n_srcID := new_id newRuleId vertex_cnt v in
    let* b := is_merged merge_flag vertex_cnt v in
    if b : bool then Ok (src, dst) else
    for_up 0 (zlen row) (λ e '(src, dst),
      let* dstID := vget row e in
      let* n_dstID := new_id newRuleId vertex_cnt dstID in
      Ok (src ++ [n_srcID], dst ++ [n_dstID])) (src, dst)) (src, dst).

(** [genNewGraphCSR]: the kept rows as a CSR graph. *)
Definition genNewGraphCSR (vlist elist : list Z) (graph : list (list Z)) (newRuleId : list Z)
    (merge_flag : list bool) (vertex_cnt : Z) : res (list Z * list Z) :=
  for_up 0 (zlen graph) (λ v '(vlist, elist),
    let* row := vget graph v in
    let* b := is_merged merge_flag vertex_cnt v in
    if b : bool then Ok (vlist, elist) else
    let* elist :=
      for_up 0 (zlen row) (λ e elist,
        let* dstID := vget row e in
        let* n_dstID := new_id newRuleId vertex_cnt dstID in
        Ok (elist ++ [n_dstID])) elist in
    Ok (vlist ++ [zlen elist], elist)) (vlist ++ [0], elist).

(** [coo_convert]: each of [num_thread] threads groups its block of the edge
    list by source, then appends its groups under the lock.  [order] is the
    order in which the threads take the lock; block bounds are [uint]. *)
Definition coo_block (src dst : list Z) (vertex_cnt block_size t : Z) : res (list (list Z)) :=
  for_up (u32 (t * block_size)) (Z.min (u32 (u32 (t + 1) * block_size)) (zlen src))
    (λ e local_graph,
      let* s := vget src e in
      let* d := vget dst e in
      vpush local_graph s d)
    (replicate (Z.to_nat vertex_cnt) []).

Definition coo_convert (order : list Z) (num_thread : Z) (graph : list (list Z))
    (src dst : list Z) (vertex_cnt : Z) : res (list (list Z)) :=
  if negb (zlen src =? zlen dst) then Err AssertFail else
  let block_size := u32 ((zlen src + num_thread - 1) / num_thread) in
  for_each order (λ t graph,
    let* local_graph := coo_block src dst vertex_cnt block_size t in
    for_up 0 vertex_cnt (λ i graph,
      let* r := vget graph i in
      let* l := vget local_graph i in
      vset graph i (r ++ l)) graph) graph.

(** [py::array_t<int> a = vector2numpy1D(v)] for a vector of [int64_t]: the
    values are narrowed to 32 bits. *)
Definition np_narrow (l : list Z) : list Z := i32 <$> l.

(** ** Specification vocabulary *)

(** [vlist], [elist] describe [n] rows. *)
Definition csr_okb (vlist elist : list Z) (n : Z) : bool :=
  forallb (λ v,
    match vlist !z v, vlist !z (v + 1) with
    | Some a, Some b => (0 <=? a) && (a <=? b) && (b <=? zlen elist)
    | _, _ => false
    end) (seqZ 0 n).

Definition csr_row (vlist elist : list Z) (v : Z) : list Z :=
  match vlist !z v, vlist !z (v + 1) with
  | Some a, Some b => slice elist a b
  | _, _ => []
  end.

Definition csr_rows (vlist elist : list Z) (n : Z) : list (list Z) :=
  csr_row vlist elist <$> seqZ 0 n.

(** The CSR form of a graph: running offsets and concatenated rows. *)
Fixpoint offsets_from (s : Z) (g : list (list Z)) : list Z :=
  s :: match g with
       | [] => []
       | r :: g' => offsets_from (s + zlen r) g'
       end.

Definition offsets (g : list (list Z)) : list Z := offsets_from 0 g.

(** Rows one after the other, each closed by its separator. *)
Fixpoint with_splits (s : Z) (g : list (list Z)) : list Z :=
  match g with
  | [] => []
  | r :: g' => r ++ s :: with_splits (s + 1) g'
  end.

(** How often [x] occurs in [l]. *)
Definition cnt (x : Z) (l : list Z) : nat := length (filter (x =.) l).

(** Row [x] of the transpose of [g], whose rows are numbered from [v]. *)
Fixpoint tr_row (g : list (list Z)) (x v : Z) : list Z :=
  match g with
  | [] => []
  | r :: g' => replicate (cnt x r) v ++ tr_row g' x (v + 1)
  end.

(** The rows that a writer keeps, numbered from [v]. *)
Fixpoint kept_from (n : Z) (merge_flag : list bool) (v : Z) (g : list (list Z))
    : list (list Z) :=
  match g with
  | [] => []
  | r :: g' =>
      if (n <=? v) && default false (merge_flag !z (v - n))
      then kept_from n merge_flag (v + 1) g'
      else r :: kept_from n merge_flag (v + 1) g'
  end.

(** The number a kept rule gets: the count of kept rules before it. *)
Definition rank (merge_flag : list bool) (i : Z) : Z :=
  zlen (filter (λ b, b = false) (take (Z.to_nat i) merge_flag)).

Definition rename (n : Z) (merge_flag : list bool) (d : Z) : Z :=
  if n <=? d then n + rank merge_flag (d - n) else d.

Definition rename_rows (n : Z) (merge_flag : list bool) (g : list (list Z)) : list (list Z) :=
  (λ r : list Z, rename n merge_flag <$> r) <$> g.

(** The graph of the kept rows, renumbered. *)
Definition new_graph (n : Z) (merge_flag : list bool) (g : list (list Z)) : list (list Z) :=
  rename_rows n merge_flag (kept_from n merge_flag 0 g).

(** ** Lemmas *)


Lemma zlen_seqZ a n : 0 ≤ n → zlen (seqZ a n) = n.
Proof. intros. unfold zlen. rewrite length_seqZ. lia. Qed.

Lemma zlookup_seqZ a n i : 0 ≤ i < n → seqZ a n !z i = Some (a + i).
Proof.
  intros. rewrite zlookup_nonneg by lia. apply lookup_seqZ. lia.
Qed.

Lemma NoDup_range (l : list Z) n : NoDup l → (∀ x, x ∈ l → 0 ≤ x < n) → zlen l ≤ Z.max n 0.
Proof.
  intros Hnd Hl. assert (l ⊆+ seqZ 0 n) as Hsub.
  { apply NoDup_submseteq; [done|]. intros x Hx. apply elem_of_seqZ. specialize (Hl x Hx). lia. }
  apply submseteq_length in Hsub. rewrite length_seqZ in Hsub. unfold zlen. lia.
Qed.

Lemma csr_okb_spec vlist elist n v :
  csr_okb vlist elist n = true → 0 ≤ v < n →
  ∃ a b, vlist !z v = Some a ∧ vlist !z (v + 1) = Some b ∧ 0 ≤ a ≤ b ∧ b ≤ zlen elist.
Proof.
  unfold csr_okb. rewrite forallb_forall. intros H Hv.
  specialize (H v). rewrite <-list_elem_of_In, elem_of_seqZ in H. specialize (H ltac:(lia)).
  destruct (vlist !z v) as [a|], (vlist !z (v + 1)) as [b|]; try done.
  exists a, b. split_and!; (done || lia).
Qed.

Lemma csr_okb_intro vlist elist n :
  (∀ v, 0 ≤ v < n → ∃ a b, vlist !z v = Some a ∧ vlist !z (v + 1) = Some b ∧
     0 ≤ a ≤ b ∧ b ≤ zlen elist) →
  csr_okb vlist elist n = true.
Proof.
  intros H. unfold csr_okb. rewrite forallb_forall. intros v.
  rewrite <-list_elem_of_In, elem_of_seqZ. intros Hv.
  destruct (H v ltac:(lia)) as (a & b & -> & -> & ? & ?). lia.
Qed.

Lemma csr_row_slice vlist elist v a b :
  vlist !z v = Some a → vlist !z (v + 1) = Some b → csr_row vlist elist v = slice elist a b.
Proof. unfold csr_row. by intros -> ->. Qed.

Lemma zlen_csr_rows vlist elist n : 0 ≤ n → zlen (csr_rows vlist elist n) = n.
Proof. intros. unfold csr_rows. rewrite zlen_fmap. by apply zlen_seqZ. Qed.

Lemma zlookup_csr_rows vlist elist n v :
  0 ≤ v < n → csr_rows vlist elist n !z v = Some (csr_row vlist elist v).
Proof.
  intros. unfold csr_rows. rewrite zlookup_fmap, zlookup_seqZ by lia. simpl. by rewrite Z.add_0_l.
Qed.

(** Appending a range of [elist] to one row. *)
Lemma for_push_row (graph : list (list Z)) v r (elist : list Z) lo hi :
  graph !z v = Some r → 0 ≤ lo ≤ hi → hi ≤ zlen elist →
  for_up lo hi (λ e graph, let* x := vget elist e in vpush graph v x) graph =
  Ok (zinsert graph v (r ++ slice elist lo hi)).
Proof.
  intros Hr Hlo Hhi. pose proof (zlookup_range _ _ _ Hr). apply wp_eq.
  apply (wp_for_up (λ i g, g = zinsert graph v (r ++ slice elist lo i))); [lia| | |done].
  - rewrite slice_nil, app_nil_r by lia. by rewrite zinsert_id.
  - intros i g Hi ->. destruct (zlookup_total elist i) as [x Hx]; [lia|]. wp_run.
    erewrite vpush_ok by (apply zlookup_zinsert_eq; lia). simpl.
    by rewrite zinsert_zinsert, (slice_snoc elist lo i x), app_assoc by (done || lia).
Qed.

Lemma csr_convert_spec (graph : list (list Z)) vlist elist n :
  csr_okb vlist elist n = true → 0 ≤ n → zlen graph = n →
  wp (csr_convert graph vlist elist n) (λ g, zlen g = n ∧
    ∀ v r, graph !z v = Some r → g !z v = Some (r ++ csr_row vlist elist v)).
Proof.
  intros Hok Hn Hlen. unfold csr_convert.
  apply (wp_for_up (λ i g, zlen g = n ∧ ∀ v r, graph !z v = Some r →
    g !z v = Some (if v <? i then r ++ csr_row vlist elist v else r))); [done| | |].
  - split; [done|]. intros v r Hr. destruct (Z.ltb_spec v 0); [zlia|done].
  - intros i g Hi [Hg HI]. destruct (csr_okb_spec _ _ _ i Hok Hi) as (a & b & Ha & Hb & ? & ?).
    destruct (zlookup_total graph i) as [r Hr]; [lia|]. wp_run.
    pose proof (HI _ _ Hr) as Hgi. rewrite Z.ltb_irrefl in Hgi.
    erewrite for_push_row by done. simpl. split; [by zlia|].
    intros v r' Hr'. destruct (decide (v = i)) as [->|].
    + rewrite zlookup_zinsert_eq by lia. destruct (Z.ltb_spec i (i + 1)); [|lia].
      by simplify_eq; rewrite (csr_row_slice _ _ _ a b).
    + rewrite zlookup_zinsert_ne by lia. rewrite (HI _ _ Hr').
      by destruct (Z.ltb_spec v i), (Z.ltb_spec v (i + 1)); try lia.
  - intros g [? HI]. split; [done|]. intros v r Hr. rewrite (HI _ _ Hr).
    destruct (Z.ltb_spec v n); [done|zlia].
Qed.

(** From empty rows, [csr_convert] computes the rows of the CSR graph. *)
Lemma csr_convert_rows vlist elist n :
  csr_okb vlist elist n = true → 0 ≤ n →
  csr_convert (replicate (Z.to_nat n) []) vlist elist n = Ok (csr_rows vlist elist n).
Proof.
  intros Hok Hn.
  destruct (wp_inv _ _ (csr_convert_spec (replicate (Z.to_nat n) []) vlist elist n Hok Hn
    ltac:(rewrite zlen_replicate; lia))) as (g & -> & Hg & HI).
  f_equal. apply zlist_eq; rewrite ?zlen_csr_rows by done; [done|].
  intros v Hv. rewrite zlookup_csr_rows by lia.
  apply (HI v []). apply zlookup_replicate. lia.
Qed.

(** *** Counting *)

Lemma cnt_nil x : cnt x [] = 0%nat.
Proof. done. Qed.

Lemma cnt_cons x y l : cnt x (y :: l) = ((if decide (x = y) then 1 else 0) + cnt x l)%nat.
Proof. unfold cnt. rewrite filter_cons. by destruct (decide (x = y)). Qed.

Lemma cnt_app x l k : cnt x (l ++ k) = (cnt x l + cnt x k)%nat.
Proof. unfold cnt. by rewrite filter_app, length_app. Qed.

Lemma cnt_replicate x y m : cnt x (replicate m y) = if decide (x = y) then m else 0%nat.
Proof.
  induction m as [|m IH]; simpl; [by destruct (decide _)|].
  rewrite cnt_cons, IH. by destruct (decide (x = y)).
Qed.

Lemma cnt_elem x l : (0 < cnt x l)%nat ↔ x ∈ l.
Proof.
  induction l as [|y l IH]; [split; [cbn; lia|by intros ?%not_elem_of_nil]|].
  rewrite cnt_cons, elem_of_cons, <-IH. destruct (decide (x = y)); lia.
Qed.

Lemma cnt_zero x l : cnt x l = 0%nat ↔ x ∉ l.
Proof. rewrite <-cnt_elem. lia. Qed.

Lemma cnt_le_length x l : (cnt x l ≤ length l)%nat.
Proof. apply length_filter. Qed.

#[export] Instance cnt_perm x : Proper ((≡ₚ) ==> (=)) (cnt x).
Proof. intros l k H. unfold cnt. by rewrite H. Qed.

(** Equal counts make a permutation. *)
Lemma cnt_Permutation l k : (∀ x, cnt x l = cnt x k) → l ≡ₚ k.
Proof.
  revert k. induction l as [|x l IH]; intros k H.
  - destruct k as [|y k]; [done|]. specialize (H y). rewrite cnt_cons, decide_True in H by done.
    rewrite cnt_nil in H. lia.
  - assert (x ∈ k) as [k1 [k2 ->]]%list_elem_of_split.
    { apply cnt_elem. rewrite <-H, cnt_cons, decide_True by done. lia. }
    rewrite <-Permutation_middle. constructor. apply IH. intros y. specialize (H y).
    rewrite cnt_cons, cnt_app, cnt_cons in H. rewrite cnt_app. lia.
Qed.

(** *** The transpose *)

Lemma tr_row_app g1 g2 x v : tr_row (g1 ++ g2) x v = tr_row g1 x v ++ tr_row g2 x (v + zlen g1).
Proof.
  revert v. induction g1 as [|r g1 IH]; intros v; simpl.
  - by rewrite zlen_nil, Z.add_0_r.
  - rewrite IH, <-app_assoc, zlen_cons. do 3 f_equal. lia.
Qed.

Lemma tr_row_ge g x v w : w ∈ tr_row g x v → v ≤ w < v + zlen g.
Proof.
  revert v. induction g as [|r g IH]; intros v; simpl; [by intros ?%not_elem_of_nil|].
  rewrite elem_of_app, zlen_cons. pose proof (zlen_nonneg g) as Hg0. intros [[-> _]%elem_of_replicate|H].
  - lia.
  - specialize (IH _ H). lia.
Qed.

(** Row [x] of the transpose lists [w] once per occurrence of [x] in row [w]. *)
Lemma cnt_tr_row g x v w r : g !z (w - v) = Some r → cnt w (tr_row g x v) = cnt x r.
Proof.
  revert v. induction g as [|r' g IH]; intros v Hr.
  - pose proof (zlookup_range _ _ _ Hr) as Hv. zlia.
  - simpl. rewrite cnt_app, cnt_replicate. pose proof (zlookup_range _ _ _ Hr) as Hv.
    destruct (decide (w = v)) as [->|Hne].
    + replace (v - v) with 0 in Hr by lia.
      rewrite (proj2 (cnt_zero v _)); [|intros Hin%tr_row_ge; lia].
      rewrite zlookup_nonneg in Hr by lia. simplify_eq/=. lia.
    + rewrite (IH (v + 1)); [lia|]. rewrite zlookup_nonneg in Hr by lia.
      rewrite zlookup_nonneg by lia.
      replace (Z.to_nat (w - v)) with (S (Z.to_nat (w - (v + 1)))) in Hr by lia. done.
Qed.

Lemma for_push_col (graph : list (list Z)) v (elist : list Z) lo hi :
  0 ≤ lo ≤ hi → hi ≤ zlen elist → (∀ x, x ∈ slice elist lo hi → 0 ≤ x < zlen graph) →
  wp (for_up lo hi (λ e graph, let* x := vget elist e in vpush graph x v) graph)
    (λ g, zlen g = zlen graph ∧ ∀ x r, graph !z x = Some r →
      g !z x = Some (r ++ replicate (cnt x (slice elist lo hi)) v)).
Proof.
  intros Hlo Hhi Hx.
  apply (wp_for_up (λ i g, zlen g = zlen graph ∧ ∀ x r, graph !z x = Some r →
    g !z x = Some (r ++ replicate (cnt x (slice elist lo i)) v))); [lia| | |done].
  - split; [done|]. intros x r Hr. by rewrite slice_nil, cnt_nil, app_nil_r by lia.
  - intros i g Hi [Hg HI]. destruct (zlookup_total elist i) as [y Hy]; [lia|]. wp_run.
    assert (0 ≤ y < zlen graph) as Hyr.
    { apply Hx. rewrite <-(slice_app elist lo i hi), (slice_cons elist i hi y) by (done || lia).
      rewrite elem_of_app, elem_of_cons. by right; left. }
    destruct (zlookup_total graph y) as [ry Hry]; [lia|].
    erewrite vpush_ok by (by apply HI). simpl. split; [by zlia|].
    intros x r Hr. rewrite (slice_snoc elist lo i y), cnt_app, cnt_cons, cnt_nil by (done || lia).
    destruct (decide (x = y)) as [->|].
    + rewrite zlookup_zinsert_eq by lia. simplify_eq.
      by rewrite Nat.add_0_r, replicate_add, app_assoc.
    + rewrite zlookup_zinsert_ne by lia. rewrite (HI _ _ Hr). do 3 f_equal. lia.
Qed.

Lemma csr_rows_S vlist elist n :
  0 ≤ n → csr_rows vlist elist (n + 1) = csr_rows vlist elist n ++ [csr_row vlist elist n].
Proof.
  intros. unfold csr_rows. rewrite seqZ_app by lia. rewrite fmap_app. done.
Qed.

(** [csr_convert_idx] from empty rows computes the transposed graph. *)
Lemma csr_convert_idx_spec vlist elist n :
  csr_okb vlist elist n = true → 0 ≤ n → Forall (λ x, 0 ≤ x < n) elist →
  wp (csr_convert_idx (replicate (Z.to_nat n) []) vlist elist n) (λ g, zlen g = n ∧
    ∀ x, 0 ≤ x < n → g !z x = Some (tr_row (csr_rows vlist elist n) x 0)).
Proof.
  intros Hok Hn Hel. unfold csr_convert_idx.
  apply (wp_for_up (λ i g, zlen g = n ∧
    ∀ x, 0 ≤ x < n → g !z x = Some (tr_row (csr_rows vlist elist i) x 0))); [done| | |done].
  - split; [rewrite zlen_replicate; lia|]. intros x Hx. apply zlookup_replicate. lia.
  - intros i g Hi [Hg HI]. destruct (csr_okb_spec _ _ _ i Hok Hi) as (a & b & Ha & Hb & ? & ?).
    wp_run. eapply wp_mono; [apply for_push_col; [lia|lia|]|].
    + intros x Hx%elem_of_slice. rewrite Forall_forall in Hel. specialize (Hel _ Hx). lia.
    + intros g' [Hg' HI']. split; [lia|]. intros x Hx. rewrite (HI' _ _ (HI _ Hx)).
      rewrite csr_rows_S, tr_row_app by lia. simpl.
      by rewrite app_nil_r, zlen_csr_rows, (csr_row_slice _ _ _ a b) by (done || lia).
Qed.

(** *** Offsets *)

Lemma offsets_from_snoc s g r :
  offsets_from s (g ++ [r]) = offsets_from s g ++ [s + zlen (concat g) + zlen r].
Proof.
  revert s. induction g as [|r' g IH]; intros s; simpl.
  - zlen_simpl. by rewrite Z.add_0_r.
  - rewrite IH, zlen_app. simpl. do 4 f_equal. lia.
Qed.

Lemma offsets_snoc g r : offsets (g ++ [r]) = offsets g ++ [zlen (concat (g ++ [r]))].
Proof.
  unfold offsets. rewrite offsets_from_snoc, concat_app, zlen_app. simpl.
  by rewrite app_nil_r, Z.add_0_l.
Qed.

Lemma zlen_offsets_from s g : zlen (offsets_from s g) = zlen g + 1.
Proof. revert s. induction g as [|r g IH]; intros s; simpl; [done|]. rewrite !zlen_cons, IH. lia. Qed.

Lemma zlookup_offsets_from s g v :
  0 ≤ v ≤ zlen g → offsets_from s g !z v = Some (s + zlen (concat (take (Z.to_nat v) g))).
Proof.
  intros Hv. rewrite zlookup_nonneg by lia.
  assert (Z.to_nat v ≤ length g)%nat as Hn by (unfold zlen in Hv; lia). clear Hv.
  revert s Hn. generalize (Z.to_nat v) as m. clear v.
  induction g as [|r g IH]; intros [|m] s Hn; simpl in *; try lia.
  - by rewrite Z.add_0_r.
  - by rewrite Z.add_0_r.
  - rewrite IH by lia. rewrite zlen_app. f_equal. lia.
Qed.

Lemma concat_take_drop {A} (g : list (list A)) m r :
  g !! m = Some r →
  concat g = concat (take m g) ++ r ++ concat (drop (S m) g).
Proof.
  intros H. rewrite <-(take_drop_middle g m r H) at 1. rewrite concat_app. done.
Qed.

(** The rows of the CSR form of [g] are the rows of [g]. *)
Lemma csr_row_offsets g v r : g !z v = Some r → csr_row (offsets g) (concat g) v = r.
Proof.
  intros Hr. pose proof (zlookup_range _ _ _ Hr) as Hv. apply zlookup_Some_nat in Hr.
  unfold csr_row, offsets. rewrite !zlookup_offsets_from by lia.
  replace (Z.to_nat (v + 1)) with (S (Z.to_nat v)) by lia.
  rewrite (take_S_r _ _ _ Hr), concat_app, zlen_app. simpl. rewrite app_nil_r.
  rewrite (concat_take_drop g _ r Hr), !Z.add_0_l.
  rewrite slice_app_r by done. rewrite Z.sub_diag. rewrite slice_app_l by (zlia; lia).
  replace (_ + _ - _) with (zlen r) by lia. apply slice_full.
Qed.

Lemma csr_okb_offsets g : csr_okb (offsets g) (concat g) (zlen g) = true.
Proof.
  apply csr_okb_intro. intros v Hv. unfold offsets. rewrite !zlookup_offsets_from by lia.
  do 2 eexists. split_and!; [done|done| | |]; rewrite ?Z.add_0_l.
  - apply zlen_nonneg.
  - replace (Z.to_nat (v + 1)) with (S (Z.to_nat v)) by lia.
    destruct (zlookup_total g v Hv) as [r Hr%zlookup_Some_nat].
    rewrite (take_S_r _ _ _ Hr), concat_app, zlen_app. simpl.
    pose proof (zlen_nonneg (r ++ [])). lia.
  - rewrite <-(take_drop (Z.to_nat (v + 1)) g) at 2. rewrite concat_app, zlen_app.
    pose proof (zlen_nonneg (concat (drop (Z.to_nat (v + 1)) g))). lia.
Qed.

Lemma csr_rows_offsets g : csr_rows (offsets g) (concat g) (zlen g) = g.
Proof.
  pose proof (zlen_nonneg g) as Hg.
  apply zlist_eq; rewrite zlen_csr_rows by done; [done|].
  intros v Hv. rewrite zlookup_csr_rows by done. destruct (zlookup_total g v Hv) as [r Hr].
  by rewrite Hr, (csr_row_offsets g v r).
Qed.

(** A CSR graph that starts at 0 and ends at the end of [elist] is the CSR
    form of its rows. *)
Lemma concat_csr_rows vlist elist n :
  csr_okb vlist elist n = true → 0 ≤ n → vlist !z 0 = Some 0 →
  ∀ e, vlist !z n = Some e → concat (csr_rows vlist elist n) = slice elist 0 e.
Proof.
  intros Hok Hn H0. revert Hok. pattern n. apply natlike_ind; [| |done]; clear n Hn.
  - intros _ e He. simplify_eq. by rewrite slice_nil.
  - intros n Hn IH Hok e He. unfold Z.succ in *.
    destruct (csr_okb_spec _ _ _ n Hok) as (a & b & Ha & Hb & ? & ?); [lia|].
    rewrite csr_rows_S, concat_app by done. simpl. rewrite app_nil_r. simplify_eq.
    rewrite (IH ltac:(apply csr_okb_intro; intros v Hv; eapply csr_okb_spec; [done|lia]) _ Ha).
    rewrite (csr_row_slice _ _ _ _ _ Ha He). apply slice_app; lia.
Qed.

Lemma offsets_csr_rows vlist elist n :
  csr_okb vlist elist n = true → 0 ≤ n → vlist !z 0 = Some 0 → zlen vlist = n + 1 →
  offsets (csr_rows vlist elist n) = vlist.
Proof.
  intros Hok Hn H0 Hlen. unfold offsets.
  apply zlist_eq; rewrite zlen_offsets_from, zlen_csr_rows by done; [lia|].
  intros v Hv. rewrite zlookup_offsets_from by (rewrite zlen_csr_rows by done; lia).
  destruct (zlookup_total vlist v) as [e He]; [lia|]. rewrite He, Z.add_0_l. f_equal.
  assert (take (Z.to_nat v) (csr_rows vlist elist n) = csr_rows vlist elist v) as ->.
  { unfold csr_rows. rewrite <-fmap_take. f_equal. replace n with (v + (n - v)) by lia.
    rewrite seqZ_app by lia. rewrite take_app_length'; [done|]. rewrite length_seqZ. lia. }
  assert (csr_okb vlist elist v = true) as Hokv.
  { apply csr_okb_intro. intros w Hw. eapply csr_okb_spec; [done|lia]. }
  rewrite (concat_csr_rows _ _ _ Hokv ltac:(lia) H0 e He).
  destruct (decide (v = 0)) as [->|]; [by simplify_eq|].
  destruct (csr_okb_spec _ _ _ (v - 1) Hok) as (a & b & Ha & Hb & ? & ?); [lia|].
  rewrite Z.sub_add in Hb. simplify_eq. rewrite zlen_slice; lia.
Qed.

(** *** Separators *)

Lemma with_splits_snoc s g r :
  with_splits s (g ++ [r]) = with_splits s g ++ r ++ [s + zlen g].
Proof.
  revert s. induction g as [|r' g IH]; intros s; simpl.
  - zlen_simpl. by rewrite Z.add_0_r.
  - rewrite IH, zlen_cons, <-app_assoc. simpl. do 5 f_equal. lia.
Qed.

Lemma insert_spliter_spec vlist elist re ms :
  csr_okb vlist elist (zlen vlist - 1) = true → 0 < zlen vlist →
  insert_spliter vlist elist re ms =
  Ok (re ++ with_splits ms (csr_rows vlist elist (zlen vlist - 1))).
Proof.
  intros Hok Hlen. unfold insert_spliter. destruct (Z.eqb_spec (zlen vlist) 0); [lia|].
  apply wp_eq, wp_bind.
  apply (wp_for_up (λ i '(acc, cur), acc = re ++ with_splits ms (csr_rows vlist elist i) ∧
    cur = ms + i)); [lia| | |].
  - split; [by rewrite app_nil_r|lia].
  - intros i [acc cur] Hi [-> ->].
    destruct (csr_okb_spec _ _ _ i Hok Hi) as (a & b & Ha & Hb & ? & ?). wp_run.
    rewrite for_up_copy by lia. simpl. split; [|lia].
    rewrite csr_rows_S, with_splits_snoc, zlen_csr_rows by lia.
    by rewrite (csr_row_slice _ _ _ _ _ Ha Hb), !app_assoc.
  - by intros [acc cur] [-> ->].
Qed.

(** *** Renumbering *)

Lemma rank_0 flag : rank flag 0 = 0.
Proof. done. Qed.

Lemma rank_S flag i b :
  flag !z i = Some b → rank flag (i + 1) = rank flag i + if b then 0 else 1.
Proof.
  intros Hb. pose proof (zlookup_range _ _ _ Hb) as Hi. apply zlookup_Some_nat in Hb.
  unfold rank. replace (Z.to_nat (i + 1)) with (S (Z.to_nat i)) by lia.
  rewrite (take_S_r _ _ _ Hb), filter_app, zlen_app, filter_cons, filter_nil. by destruct b.
Qed.

Lemma rank_nonneg flag i : 0 ≤ rank flag i.
Proof. apply zlen_nonneg. Qed.

Lemma rank_mono flag i j : i ≤ j → rank flag i ≤ rank flag j.
Proof.
  intros Hij. unfold rank.
  rewrite <-(take_drop (Z.to_nat i) (take (Z.to_nat j) flag)), take_take, filter_app, zlen_app.
  rewrite Nat.min_l by lia.
  pose proof (zlen_nonneg (filter (λ b, b = false) (drop (Z.to_nat i) (take (Z.to_nat j) flag)))).
  lia.
Qed.

(** Kept rules get distinct consecutive numbers, in order. *)
Lemma rank_lt flag i j : flag !z i = Some false → i < j → rank flag i < rank flag j.
Proof.
  intros Hi Hij. pose proof (rank_mono flag (i + 1) j ltac:(lia)).
  rewrite (rank_S _ _ _ Hi) in H. lia.
Qed.

Lemma genNewIdForRule_spec newRuleId flag n rc :
  0 ≤ rc → zlen newRuleId = rc → zlen flag = rc →
  wp (genNewIdForRule newRuleId flag n rc) (λ '(ids, cnt),
    cnt = rank flag rc ∧ zlen ids = rc ∧
    ∀ i, 0 ≤ i < rc → ids !z i = Some (n + rank flag i)).
Proof.
  intros Hrc Hids Hfl. unfold genNewIdForRule. apply wp_bind.
  apply (wp_for_up (λ i '(ids, cur), cur = n + rank flag i ∧ zlen ids = rc ∧
    ∀ j, 0 ≤ j < i → ids !z j = Some (n + rank flag j))); [done| | |].
  - rewrite rank_0. split_and!; [lia|done|lia].
  - intros i [ids cur] Hi (-> & Hl & HI). destruct (zlookup_total flag i) as [b Hb]; [lia|].
    wp_run. split_and!.
    + rewrite (rank_S _ _ _ Hb). destruct b; lia.
    + by zlia.
    + intros j Hj. destruct (decide (j = i)) as [->|].
      * apply zlookup_zinsert_eq. lia.
      * rewrite zlookup_zinsert_ne by lia. apply HI. lia.
  - intros [ids cur] (-> & Hl & HI). simpl. split_and!; [lia|done|done].
Qed.

(** *** Writing the kept rows *)

Lemma kept_from_app n flag v g1 g2 :
  kept_from n flag v (g1 ++ g2) = kept_from n flag v g1 ++ kept_from n flag (v + zlen g1) g2.
Proof.
  revert v. induction g1 as [|r g1 IH]; intros v; simpl.
  - zlen_simpl. by rewrite Z.add_0_r.
  - rewrite IH, zlen_cons. replace (v + (zlen g1 + 1)) with (v + 1 + zlen g1) by lia.
    by destruct (_ && _).
Qed.

Lemma new_graph_app n flag g1 g2 :
  new_graph n flag (g1 ++ g2) =
  new_graph n flag g1 ++ rename_rows n flag (kept_from n flag (zlen g1) g2).
Proof. unfold new_graph, rename_rows. by rewrite kept_from_app, fmap_app, Z.add_0_l. Qed.

Section writers.
Context (graph : list (list Z)) (ids : list Z) (flag : list bool) (n rc : Z).
Context (Hn : 0 ≤ n) (Hgraph : zlen graph = n + rc) (Hflag : zlen flag = rc).
Context (Hids : ∀ i, 0 ≤ i < rc → ids !z i = Some (n + rank flag i)).
Context (Hrows : Forall (Forall (λ x, 0 ≤ x < n + rc)) graph).

Lemma is_merged_ok v :
  0 ≤ v < n + rc →
  is_merged flag n v = Ok ((n <=? v) && default false (flag !z (v - n))).
Proof using Hflag.
  intros Hv. unfold is_merged. destruct (Z.leb_spec n v); [|done].
  destruct (zlookup_total flag (v - n)) as [b Hb]; [lia|].
  by rewrite (vget_ok _ _ _ Hb), Hb.
Qed.

Lemma new_id_ok d : 0 ≤ d < n + rc → new_id ids n d = Ok (rename n flag d).
Proof using Hids.
  intros Hd. unfold new_id, rename. destruct (Z.leb_spec n d); [|done].
  by apply vget_ok, Hids; lia.
Qed.

Lemma rows_range v row d : graph !z v = Some row → d ∈ row → 0 ≤ d < n + rc.
Proof using Hrows.
  intros Hr Hd. rewrite Forall_forall in Hrows. specialize (Hrows row (zlookup_elem _ _ _ Hr)).
  rewrite Forall_forall in Hrows. by apply Hrows.
Qed.

(** [genNewGraphCSR] writes the CSR form of the kept rows, renumbered. *)
Lemma genNewGraphCSR_spec :
  genNewGraphCSR [] [] graph ids flag n =
  Ok (offsets (new_graph n flag graph), concat (new_graph n flag graph)).
Proof using All.
  unfold genNewGraphCSR. apply wp_eq. simpl.
  apply (wp_for_up (λ i '(vl, el),
    let gi := new_graph n flag (take (Z.to_nat i) graph) in
    vl = offsets gi ∧ el = concat gi)).
  - apply zlen_nonneg.
  - done.
  - intros i [vl el] Hi [-> ->]. destruct (zlookup_total graph i Hi) as [row Hrow]. wp_run.
    rewrite is_merged_ok by lia. simpl.
    replace (Z.to_nat (i + 1)) with (S (Z.to_nat i)) by lia.
    rewrite (take_S_r _ _ _ (zlookup_Some_nat _ _ _ Hrow)), new_graph_app. simpl.
    rewrite (ltac:(unfold zlen; rewrite length_take; unfold zlen in Hi; lia) :
      zlen (take (Z.to_nat i) graph) = i).
    destruct (_ && _) eqn:Hb; simpl.
    + by rewrite !app_nil_r.
    + apply wp_bind.
      rewrite (for_up_map row (new_id ids n) (rename n flag))
        by (intros d Hd; apply new_id_ok; by eapply rows_range).
      simpl. rewrite offsets_snoc, concat_app. simpl. by rewrite !app_nil_r.
  - intros [vl el] [-> ->]. unfold zlen. rewrite Nat2Z.id, firstn_all. done.
Qed.
End writers.

(** *** The kept rows by index *)

Lemma zlen_take {A} (l : list A) m : 0 ≤ m ≤ zlen l → zlen (take (Z.to_nat m) l) = m.
Proof. intros. unfold zlen in *. rewrite length_take. lia. Qed.

Lemma zlen_kept_take n flag g m :
  0 ≤ n → zlen g = n + zlen flag → 0 ≤ m ≤ zlen g →
  zlen (kept_from n flag 0 (take (Z.to_nat m) g)) = rename n flag m.
Proof.
  intros Hn Hlen Hm. destruct Hm as [Hm0 Hm]. revert Hm. pattern m.
  apply natlike_ind; [| |done]; clear m Hm0.
  - intros _. simpl. unfold rename. destruct (Z.leb_spec n 0); [|done].
    by replace (0 - n) with 0 by lia; rewrite rank_0; replace n with 0 by lia.
  - intros m Hm0 IH Hm. unfold Z.succ in *. specialize (IH ltac:(lia)).
    destruct (zlookup_total g m) as [r Hr]; [lia|].
    replace (Z.to_nat (m + 1)) with (S (Z.to_nat m)) by lia.
    rewrite (take_S_r _ _ _ (zlookup_Some_nat _ _ _ Hr)), kept_from_app, zlen_app, IH.
    rewrite zlen_take, Z.add_0_l by lia. simpl. unfold rename.
    destruct (Z.leb_spec n m); simpl.
    + destruct (zlookup_total flag (m - n)) as [b Hb]; [lia|]. rewrite Hb. simpl.
      destruct (Z.leb_spec n (m + 1)); [|lia].
      replace (m + 1 - n) with (m - n + 1) by lia. rewrite (rank_S _ _ _ Hb).
      destruct b; zlen_simpl; lia.
    + destruct (Z.leb_spec n (m + 1)); zlen_simpl; [|lia].
      replace (m + 1 - n) with 0 by lia. rewrite rank_0. lia.
Qed.

(** The row of a kept symbol is found under its new number. *)
Lemma zlookup_new_graph n flag g v row :
  0 ≤ n → zlen g = n + zlen flag → g !z v = Some row →
  (n ≤ v → flag !z (v - n) = Some false) →
  new_graph n flag g !z rename n flag v = Some (rename n flag <$> row).
Proof.
  intros Hn Hlen Hrow Hkept. pose proof (zlookup_range _ _ _ Hrow) as Hv.
  rewrite <-(take_drop_middle g _ _ (zlookup_Some_nat _ _ _ Hrow)).
  unfold new_graph, rename_rows. rewrite kept_from_app, fmap_app.
  pose proof (zlen_kept_take n flag g v Hn Hlen ltac:(lia)) as Hk.
  rewrite zlookup_app_r by (rewrite zlen_fmap, Hk; lia).
  rewrite zlen_fmap, Hk, Z.sub_diag, zlen_take, Z.add_0_l by lia. simpl.
  destruct (Z.leb_spec n v) as [Hge|]; simpl; [by rewrite Hkept|done].
Qed.

Lemma zlen_new_graph n flag g :
  0 ≤ n → zlen g = n + zlen flag → zlen (new_graph n flag g) = n + rank flag (zlen flag).
Proof.
  intros Hn Hlen. unfold new_graph, rename_rows. rewrite zlen_fmap.
  rewrite <-(firstn_all g). replace (length g) with (Z.to_nat (zlen g)) by (unfold zlen; lia).
  pose proof (zlen_nonneg flag).
  rewrite zlen_kept_take by lia. unfold rename. destruct (Z.leb_spec n (zlen g)); [|lia].
  do 2 f_equal. lia.
Qed.

Lemma rename_small n flag x : x < n → rename n flag x = x.
Proof. intros. unfold rename. destruct (Z.leb_spec n x); [lia|done]. Qed.

Lemma rename_large n flag x : n ≤ x → n ≤ rename n flag x.
Proof.
  intros. unfold rename. destruct (Z.leb_spec n x); [|lia]. pose proof (rank_nonneg flag (x - n)). lia.
Qed.

Lemma rename_le n flag x : rename n flag x ≤ Z.max x n.
Proof.
  unfold rename. destruct (Z.leb_spec n x); [|lia].
  assert (rank flag (x - n) ≤ x - n); [|lia].
  unfold rank, zlen. pose proof (length_filter (λ b, b = false) (take (Z.to_nat (x - n)) flag)) as Hle.
  rewrite length_take in Hle. lia.
Qed.

Lemma zlen_concat_kept n flag v g : zlen (concat (kept_from n flag v g)) ≤ zlen (concat g).
Proof.
  revert v. induction g as [|r g IH]; intros v; simpl; [done|].
  specialize (IH (v + 1)). pose proof (zlen_nonneg r).
  destruct (_ && _); simpl; zlen_simpl; lia.
Qed.

Lemma zlen_concat_rename n flag g : zlen (concat (rename_rows n flag g)) = zlen (concat g).
Proof.
  unfold rename_rows. induction g as [|r g IH]; [done|]. rewrite fmap_cons. simpl. zlen_simpl. lia.
Qed.

Lemma zlen_concat_le (g ex : list (list Z)) :
  zlen g = zlen ex → (∀ v r l, g !z v = Some r → ex !z v = Some l → zlen r ≤ zlen l) →
  zlen (concat g) ≤ zlen (concat ex).
Proof.
  revert ex. induction g as [|r g IH]; intros [|l ex] Hlen Hle; simpl; zlen_simpl;
    try (pose proof (zlen_nonneg g)); try (pose proof (zlen_nonneg ex)); try lia.
  assert (zlen r ≤ zlen l) by (by apply (Hle 0)).
  enough (zlen (concat g) ≤ zlen (concat ex)) by lia.
  apply IH; [lia|]. intros v r' l' Hr' Hl'. pose proof (zlookup_range _ _ _ Hr').
  apply (Hle (v + 1)).
  - change (r :: g) with ([r] ++ g). rewrite zlookup_app_r by (zlen_simpl; lia).
    rewrite <-Hr'. f_equal. zlen_simpl. lia.
  - change (l :: ex) with ([l] ++ ex). rewrite zlookup_app_r by (zlen_simpl; lia).
    rewrite <-Hl'. f_equal. zlen_simpl. lia.
Qed.

(** Narrowing to 32 bits keeps small values. *)
Lemma i32_small z : 0 ≤ z ≤ INT_MAX → i32 z = z.
Proof. unfold INT_MAX, wraps. intros H. rewrite Z.mod_small by lia. lia. Qed.

Lemma np_narrow_id l : Forall (λ x, 0 ≤ x ≤ INT_MAX) l → np_narrow l = l.
Proof.
  unfold np_narrow. induction 1 as [|x l Hx _ IH]; [done|]. rewrite fmap_cons, IH.
  by rewrite i32_small.
Qed.

Lemma offsets_bound g x : x ∈ offsets g → 0 ≤ x ≤ zlen (concat g).
Proof.
  intros [v Hv]%elem_zlookup. unfold offsets in Hv. pose proof (zlookup_range _ _ _ Hv) as Hr.
  rewrite zlen_offsets_from in Hr. rewrite zlookup_offsets_from in Hv by lia. simplify_eq.
  rewrite <-(take_drop (Z.to_nat v) g) at 3. rewrite concat_app, zlen_app.
  pose proof (zlen_nonneg (concat (take (Z.to_nat v) g))).
  pose proof (zlen_nonneg (concat (drop (Z.to_nat v) g))). lia.
Qed.

Lemma Forall_concat_rows (P : Z → Prop) g : Forall (Forall P) g → Forall P (concat g).
Proof. induction 1; simpl; [done|by apply Forall_app]. Qed.

Lemma new_graph_bound n flag g B :
  0 ≤ n ≤ B → Forall (Forall (λ x, 0 ≤ x ≤ B)) g →
  Forall (λ x, 0 ≤ x ≤ B) (concat (new_graph n flag g)).
Proof.
  intros Hn Hg. apply Forall_concat_rows. unfold new_graph. generalize 0 at 2 as v.
  induction Hg as [|r g Hr _ IH]; intros v; simpl; [constructor|].
  destruct (_ && _); [apply IH|]. unfold rename_rows. rewrite fmap_cons. constructor; [|apply IH].
  apply Forall_fmap. eapply Forall_impl; [exact Hr|]. intros x [Hx0 HxB]. simpl.
  pose proof (rename_le n flag x). split; [|lia].
  destruct (decide (x < n)); [rewrite rename_small; lia|].
  pose proof (rename_large n flag x ltac:(lia)). lia.
Qed.

Lemma zlookup_csr_row g v : 0 ≤ v < zlen g → g !z v = Some (csr_row (offsets g) (concat g) v).
Proof. intros [r Hr]%zlookup_total. by rewrite (csr_row_offsets g v r). Qed.
