(* ===== verification/Grammar.v ===== *)
(** * The meaning of a rule-compressed graph

    A compressed graph has [n] vertices and some rules: a row of [g] with
    index below [n] is the successor list of a vertex, a row with index [n] or
    more is the right-hand side of a rule, and an entry [x >= n] stands for
    the right-hand side of rule [x].  This file is the specification that the
    compressors, the filters, the merger and the checker are proved against:
    [derives g n xs l k] says that the symbols [xs] expand to the vertices [l]
    in [k] rule applications. *)

From S2P Require Import Prelude Csr.

Section derives.
Context (g : list (list Z)) (n : Z).

Inductive derives : list Z → list Z → nat → Prop :=
| derives_nil : derives [] [] 0
| derives_vertex x xs l k :
    x < n → derives xs l k → derives (x :: xs) (x :: l) k
| derives_rule x xs row l1 l2 k1 k2 :
    n ≤ x → g !z x = Some row →
    derives row l1 k1 → derives xs l2 k2 →
    derives (x :: xs) (l1 ++ l2) (S (k1 + k2)).

Lemma derives_app xs ys l1 l2 k1 k2 :
  derives xs l1 k1 → derives ys l2 k2 → derives (xs ++ ys) (l1 ++ l2) (k1 + k2).
Proof.
  induction 1; intros Hys; simpl; [done| |].
  - constructor; auto.
  - rewrite <-app_assoc.
    match goal with |- derives _ _ (S (?a + ?b + ?c)) =>
      replace (S (a + b + c)) with (S (a + (b + c))) by lia end.
    econstructor; eauto.
Qed.

Lemma derives_app_inv xs ys l k :
  derives (xs ++ ys) l k →
  ∃ l1 l2 k1 k2, l = l1 ++ l2 ∧ k = (k1 + k2)%nat ∧ derives xs l1 k1 ∧ derives ys l2 k2.
Proof.
  revert l k. induction xs as [|x xs IH]; intros l k H; simpl in *.
  - exists [], l, 0%nat, k. split_and!; [done|done|constructor|done].
  - inversion H; subst.
    + destruct (IH _ _ ltac:(eassumption)) as (l1 & l2 & k1 & k2 & -> & -> & ? & ?).
      exists (x :: l1), l2, k1, k2. split_and!; try done. by constructor.
    + destruct (IH _ _ ltac:(eassumption)) as (l1' & l2' & k1' & k2' & -> & -> & ? & ?).
      exists (l1 ++ l1'), l2', (S (k1 + k1')), k2'. split_and!; try done.
      * by rewrite app_assoc.
      * lia.
      * by econstructor.
Qed.

Lemma derives_rule_inv x l k :
  n ≤ x → derives [x] l k → ∃ row k', g !z x = Some row ∧ derives row l k' ∧ k = S k'.
Proof.
  intros Hx H. inversion H; subst; [lia|].
  match goal with H : derives [] _ _ |- _ => inversion H; subst end.
  rewrite app_nil_r, Nat.add_0_r. eauto.
Qed.

Lemma derives_single_rule x row l k :
  n ≤ x → g !z x = Some row → derives row l k → derives [x] l (S k).
Proof.
  intros. rewrite <-(app_nil_r l), <-(Nat.add_0_r k). econstructor; eauto. constructor.
Qed.

Lemma derives_det xs l k l' k' : derives xs l k → derives xs l' k' → l = l' ∧ k = k'.
Proof.
  intros H. revert l' k'. induction H as [|x xs l k Hx _ IH|x xs row l1 l2 k1 k2 Hx Hrow _ IH1 _ IH2];
    intros l' k' H'; inversion H'; subst; try lia; [done| |].
  - edestruct IH; [eassumption|]. by subst.
  - simplify_eq. edestruct IH1; [eassumption|]. edestruct IH2; [eassumption|]. by subst.
Qed.

(** Vertices expand to themselves. *)
Lemma derives_vertices xs : Forall (λ x, x < n) xs → derives xs xs 0.
Proof. induction 1; by constructor. Qed.

(** The result consists of vertices. *)
Lemma derives_result xs l k : derives xs l k → Forall (λ x, x < n) l.
Proof. induction 1; [constructor|by constructor|by apply Forall_app]. Qed.

(** Permuting the symbols permutes the result. *)
Lemma derives_perm xs ys l k :
  xs ≡ₚ ys → derives xs l k → ∃ l', derives ys l' k ∧ l ≡ₚ l'.
Proof.
  intros Hp. revert l k. induction Hp as [|x xs ys _ IH|x y xs|xs ys zs _ IH1 _ IH2]; intros l k H.
  - eauto.
  - inversion H; subst.
    + destruct (IH _ _ ltac:(eassumption)) as (l' & ? & Hl). exists (x :: l').
      split; [by constructor|by rewrite Hl].
    + destruct (IH _ _ ltac:(eassumption)) as (l' & ? & Hl). exists (l1 ++ l').
      split; [by econstructor|by rewrite Hl].
  - apply (derives_app_inv [y] (x :: xs)) in H as (l1 & l2 & k1 & k2 & -> & -> & Hy & H).
    apply (derives_app_inv [x] xs) in H as (l3 & l4 & k3 & k4 & -> & -> & Hx & H).
    exists (l3 ++ (l1 ++ l4)). split; [|by rewrite !(assoc_L (++)), (comm (++) l1 l3)].
    replace (k1 + (k3 + k4))%nat with (k3 + (k1 + k4))%nat by lia.
    apply (derives_app [x] (y :: xs)), (derives_app [y] xs); done.
  - destruct (IH1 _ _ H) as (l' & H' & Hl). destruct (IH2 _ _ H') as (l'' & ? & Hl').
    exists l''. split; [done|by rewrite Hl].
Qed.

(** With non-empty rules an expansion is at least as long as its symbols. *)
Lemma derives_length xs l k :
  (∀ x row, n ≤ x → g !z x = Some row → row ≠ []) →
  derives xs l k → (length xs ≤ length l)%nat.
Proof.
  intros Hne. induction 1 as [| |x xs row l1 l2 k1 k2 Hx Hrow _ IH1 _ IH2]; simpl; [lia..|].
  rewrite length_app. specialize (Hne x row Hx Hrow). destruct row; [done|simpl in *; lia].
Qed.
End derives.

(** ** Well-formed compressed graphs *)

(** Every row has an expansion: the rules are acyclic and in range. *)
Definition decompressible (g : list (list Z)) (n : Z) : Prop :=
  ∀ v row, g !z v = Some row → ∃ l k, derives g n row l k.

(** A sufficient check: entries are in range and rules refer to smaller
    symbols only, as a compressor that numbers rules in order produces. *)
Definition ordered_rulesb (g : list (list Z)) (n : Z) : bool :=
  forallb (λ v, forallb (λ x, (0 <=? x) && (x <? zlen g) && ((v <? n) || (x <? v)))
    (default [] (g !z v))) (seqZ 0 (zlen g)).

Lemma ordered_rules_derives g n :
  0 ≤ n → ordered_rulesb g n = true →
  ∀ (m : nat) xs, Forall (λ x, 0 ≤ x < zlen g ∧ x < n + Z.of_nat m) xs →
  ∃ l k, derives g n xs l k.
Proof.
  intros Hn Hord. induction m as [|m IH]; intros xs Hxs.
  - exists xs, 0%nat. apply derives_vertices. eapply Forall_impl; [done|]. simpl. lia.
  - induction Hxs as [|x xs [Hx Hm] _ IHxs]; [by exists [], 0%nat; constructor|].
    destruct IHxs as (l2 & k2 & H2). destruct (decide (x < n)) as [|Hge].
    { exists (x :: l2), k2. by constructor. }
    destruct (zlookup_total g x Hx) as [row Hrow].
    destruct (IH row) as (l1 & k1 & H1).
    + unfold ordered_rulesb in Hord. rewrite forallb_forall in Hord.
      specialize (Hord x). rewrite <-list_elem_of_In, elem_of_seqZ in Hord.
      specialize (Hord ltac:(lia)). rewrite Hrow in Hord. simpl in Hord.
      rewrite forallb_forall in Hord. apply Forall_forall. intros y Hy.
      specialize (Hord y). rewrite <-list_elem_of_In in Hord. specialize (Hord Hy). lia.
    + exists (l1 ++ l2), (S (k1 + k2)). econstructor; eauto with lia.
Qed.

Lemma ordered_rules_decompressible g n :
  0 ≤ n → ordered_rulesb g n = true → decompressible g n.
Proof.
  intros Hn Hord v row Hrow.
  apply (ordered_rules_derives g n Hn Hord (Z.to_nat (zlen g))).
  unfold ordered_rulesb in Hord. rewrite forallb_forall in Hord.
  pose proof (zlookup_range _ _ _ Hrow). specialize (Hord v).
  rewrite <-list_elem_of_In, elem_of_seqZ, Hrow in Hord. specialize (Hord ltac:(lia)).
  simpl in Hord. rewrite forallb_forall in Hord. apply Forall_forall. intros y Hy.
  specialize (Hord y). rewrite <-list_elem_of_In in Hord. specialize (Hord Hy). lia.
Qed.

(** ** Decompression as a function *)

Fixpoint expand (fuel : nat) (g : list (list Z)) (n : Z) (xs : list Z) : option (list Z * nat) :=
  match fuel, xs with
  | _, [] => Some ([], 0%nat)
  | O, _ => None
  | S fuel', x :: xs' =>
      if x <? n then
        '(l, k) ← expand fuel' g n xs'; Some (x :: l, k)
      else
        row ← g !z x;
        '(l1, k1) ← expand fuel' g n row;
        '(l2, k2) ← expand fuel' g n xs';
        Some (l1 ++ l2, S (k1 + k2))
  end.

Lemma expand_sound fuel g n xs l k : expand fuel g n xs = Some (l, k) → derives g n xs l k.
Proof.
  revert xs l k. induction fuel as [|fuel IH]; intros [|x xs] l k H; simpl in H; simplify_eq;
    try by constructor.
  destruct (Z.ltb_spec x n).
  - destruct (expand fuel g n xs) as [[l' k']|] eqn:E; simplify_eq/=. constructor; auto.
  - destruct (g !z x) as [row|] eqn:Hrow; simpl in H; [|done].
    destruct (expand fuel g n row) as [[l1 k1]|] eqn:E1; simpl in H; [|done].
    destruct (expand fuel g n xs) as [[l2 k2]|] eqn:E2; simplify_eq/=.
    econstructor; eauto.
Qed.

(** The expansions of the rows of a CSR graph, checked by computation. *)
Lemma expand_rows_sound fuel vlist elist g n (ex : list (list Z)) :
  (λ v, fst <$> expand fuel g n (csr_row vlist elist v)) <$> seqZ 0 (zlen ex) = Some <$> ex →
  ∀ v l, ex !z v = Some l → ∃ k, derives g n (csr_row vlist elist v) l k.
Proof.
  intros Heq v l Hl. pose proof (zlookup_range _ _ _ Hl) as Hv.
  apply (f_equal (λ l, l !z v)) in Heq. rewrite !zlookup_fmap, zlookup_seqZ, Hl, Z.add_0_l in Heq by lia.
  simpl in Heq. destruct (expand fuel g n (csr_row vlist elist v)) as [[l' k]|] eqn:E; [|done].
  simpl in Heq. simplify_eq. exists k. by eapply expand_sound.
Qed.

(** ** Inlining a rule *)

(** Replacing one occurrence of rule [r] in a row by the right-hand side of
    [r] changes no expansion. *)
Lemma derives_inline g n v r a b rhs xs l k :
  n ≤ r → v ≠ r → g !z v = Some (a ++ r :: b) → g !z r = Some rhs →
  derives g n xs l k →
  ∃ k', derives (zinsert g v (a ++ rhs ++ b)) n xs l k' ∧ (k' ≤ k)%nat.
Proof.
  intros Hr Hvr Hv Hrhs. pose proof (zlookup_range _ _ _ Hv) as Hvl. set (g' := zinsert _ _ _).
  assert (g' !z r = Some rhs) as Hr' by (unfold g'; rewrite zlookup_zinsert_ne by lia; done).
  induction 1 as [|x xs l k Hx _ IH|x xs row l1 l2 k1 k2 Hx Hrow _ IH1 _ IH2].
  - exists 0%nat. split; [constructor|lia].
  - destruct IH as (k' & ? & ?). exists k'. split; [by constructor|lia].
  - destruct IH1 as (k1' & H1 & ?), IH2 as (k2' & H2 & ?).
    destruct (decide (x = v)) as [->|Hne].
    + simplify_eq. apply derives_app_inv in H1 as (la & lr & ka & kr & -> & -> & Ha & Hrb).
      apply (derives_app_inv _ _ [r] b) in Hrb as (lr' & lb & kr' & kb & -> & -> & Hr1 & Hb).
      destruct (derives_rule_inv _ _ _ _ _ Hr Hr1) as (row & kr'' & Hrow & Hrd & ->).
      rewrite Hr' in Hrow. simplify_eq.
      exists (S ((ka + (kr'' + kb)) + k2')). split; [|lia].
      econstructor; [done| |by repeat apply derives_app|done].
      unfold g'. by rewrite zlookup_zinsert_eq.
    + exists (S (k1' + k2')). split; [|lia].
      econstructor; [done| |done|done]. unfold g'. by rewrite zlookup_zinsert_ne by lia.
Qed.

(** ** Rows by index *)

Definition rowof (g : list (list Z)) (v : Z) : list Z := default [] (g !z v).

Lemma rowof_lookup g v r : g !z v = Some r → rowof g v = r.
Proof. unfold rowof. by intros ->. Qed.

Lemma lookup_rowof g v : 0 ≤ v < zlen g → g !z v = Some (rowof g v).
Proof. intros [r Hr]%zlookup_total. unfold rowof. by rewrite Hr. Qed.

Lemma rowof_zinsert g v r w :
  0 ≤ v < zlen g → rowof (zinsert g v r) w = if decide (w = v) then r else rowof g w.
Proof.
  intros Hv. unfold rowof. destruct (decide (w = v)) as [->|].
  - by rewrite zlookup_zinsert_eq.
  - by rewrite zlookup_zinsert_ne by lia.
Qed.

Lemma rowof_out g v : ¬ 0 ≤ v < zlen g → rowof g v = [].
Proof. intros Hv. unfold rowof. by rewrite (proj2 (zlookup_None g v)) by lia. Qed.

(** ** Counting inside expansions *)

(** A row whose expansion exists does not contain its own rule. *)
Lemma derives_no_self g n r row l k :
  n ≤ r → g !z r = Some row → derives g n row l k → r ∉ row.
Proof.
  intros Hr Hrow Hd [a [b Hab]]%list_elem_of_split. pose proof Hd as Hd'. rewrite Hab in Hd'.
  apply derives_app_inv in Hd' as (l1 & l2 & k1 & k2 & -> & -> & _ & Hd2).
  apply (derives_app_inv _ _ [r]) in Hd2 as (l3 & l4 & k3 & k4 & -> & -> & Hd3 & _).
  destruct (derives_det _ _ _ _ _ _ _ Hd3 (derives_single_rule _ _ _ _ _ _ Hr Hrow Hd)). lia.
Qed.

(** Every occurrence of a rule contributes its whole expansion. *)
Lemma derives_count g n r lr kr xs l k :
  derives g n [r] lr kr → derives g n xs l k → Z.of_nat (cnt r xs) * zlen lr ≤ zlen l.
Proof.
  intros Hr. revert l k. induction xs as [|x xs IH]; intros l k H.
  - rewrite cnt_nil. pose proof (zlen_nonneg l). lia.
  - apply (derives_app_inv _ _ [x]) in H as (l1 & l2 & k1 & k2 & -> & -> & Hx & H).
    specialize (IH _ _ H). rewrite cnt_cons, zlen_app. pose proof (zlen_nonneg l1).
    destruct (decide (r = x)) as [->|]; [|lia].
    destruct (derives_det _ _ _ _ _ _ _ Hr Hx) as [-> _]. lia.
Qed.

(** If each row index occurs in [L] at most as often as its share of the total
    allows, [L] is bounded by the total. *)
Lemma cnt_sum_bound (ex : list (list Z)) (L : list Z) (c : Z) :
  Forall (λ v, 0 ≤ v < zlen ex) L →
  (∀ v l, ex !z v = Some l → Z.of_nat (cnt v L) * c ≤ zlen l) →
  zlen L * c ≤ zlen (concat ex).
Proof.
  revert L. induction ex as [|l ex IH] using rev_ind; intros L HL Hc.
  - destruct L as [|x L]; [by zlia|]. apply Forall_cons in HL as [? _]. zlia.
  - set (v := zlen ex). set (L' := filter (λ w, w ≠ v) L).
    assert (zlen L = Z.of_nat (cnt v L) + zlen L') as ->.
    { unfold L', cnt, zlen. clear. induction L as [|x L IH]; [done|]. rewrite !filter_cons.
      simpl. destruct (decide (v = x)), (decide (x ≠ v)); simpl; try lia; congruence. }
    assert (∀ w, w ≠ v → cnt w L' = cnt w L) as Hcnt.
    { intros w Hw. unfold L'. clear -Hw. induction L as [|x L IH]; [done|]. rewrite filter_cons.
      destruct (decide (x ≠ v)); rewrite ?cnt_cons, IH; [done|].
      destruct (decide (w = x)); [subst; tauto|done]. }
    rewrite concat_app, zlen_app, Z.mul_add_distr_r. simpl. rewrite app_nil_r.
    assert (zlen L' * c ≤ zlen (concat ex)).
    { apply IH.
      - apply Forall_forall. intros w [Hw Hin]%list_elem_of_filter.
        rewrite Forall_forall in HL. specialize (HL w Hin). zlia.
      - intros w lw Hlw. pose proof (zlookup_range _ _ _ Hlw). rewrite Hcnt by lia.
        apply Hc. rewrite zlookup_app_l by lia. done. }
    assert (Z.of_nat (cnt v L) * c ≤ zlen l); [|lia].
    apply Hc. rewrite zlookup_app_r by lia. unfold v. by rewrite Z.sub_diag.
Qed.

(** ** Renumbering *)

(** If every kept symbol has, under its new number, its renamed row, and kept
    rows mention kept symbols only, renaming preserves expansions. *)
Lemma derives_rename g g' n (kept : Z → Prop) (f : Z → Z) xs l k :
  (∀ x, x < n → f x = x) → (∀ x, n ≤ x → n ≤ f x) →
  (∀ x row, n ≤ x → kept x → g !z x = Some row →
     Forall kept row ∧ g' !z f x = Some (f <$> row)) →
  derives g n xs l k → Forall kept xs → derives g' n (f <$> xs) l k.
Proof.
  intros Hsmall Hlarge Hrow. induction 1 as [|x xs l k Hx _ IH|x xs row l1 l2 k1 k2 Hx Hr _ IH1 _ IH2];
    intros Hk; [constructor| |]; apply Forall_cons in Hk as [Hkx Hk]; rewrite fmap_cons.
  - rewrite Hsmall by done. constructor; [done|by apply IH].
  - destruct (Hrow x row Hx Hkx Hr) as [Hkr Hr'].
    econstructor; [by apply Hlarge|done|by apply IH1|by apply IH2].
Qed.
