(* ===== verification/Check.v ===== *)
(** * The correctness checker

    [compress_op/check.h]: expand each vertex of the compressed graph with an
    explicit stack and compare, as sorted lists, with the original successors.
    The main results: the stack expansion is a permutation of the expansion
    [derives] defines, and [check_csr] answers [true] exactly when every
    vertex has the same successors, counted with multiplicity. *)

From S2P Require Import Prelude Csr Grammar.

(** ** Operations *)

Definition get_ori_successors (gp : list (list Z)) (vertexID : Z) : res (list Z) :=
  let* row := vget gp vertexID in
  for_up 0 (zlen row) (λ i re,
    let* x := vget row i in
    Ok (re ++ [x])) [].

(** One round of the [while] loop: pop a rule, push the rules of its row on the
    stack and append the vertices of its row to the result.  The head of the
    list is the top of the stack. *)
Definition push_successors_step (cg : list (list Z)) (vertex_cnt : Z)
    (st : list Z * list Z) : res (list Z * list Z) :=
  let '(result, PQ) := st in
  match PQ with
  | [] => Ok (result, PQ)
  | ruleID :: PQ =>
      let* row := vget cg ruleID in
      for_up 0 (zlen row) (λ i '(result, PQ),
        let* dst := vget row i in
        if vertex_cnt <=? dst then Ok (result, dst :: PQ)
        else Ok (result ++ [dst], PQ)) (result, PQ)
  end.

Definition push_successors (fuel : nat) (result : list Z) (cg : list (list Z))
    (PQ : list Z) (vertex_cnt : Z) : res (list Z) :=
  let* '(result, _) :=
    while fuel (λ '(_, PQ), Ok (match PQ with [] => false | _ => true end))
      (push_successors_step cg vertex_cnt) (result, PQ) in
  Ok result.

Definition get_compress_successors (fuel : nat) (cg : list (list Z)) (vertexID vertex_cnt : Z)
    : res (list Z) :=
  let* row := vget cg vertexID in
  for_up 0 (zlen row) (λ i re,
    let* dst := vget row i in
    if vertex_cnt <=? dst then push_successors fuel re cg [dst] vertex_cnt
    else Ok (re ++ [dst])) [].

(** [sort] both vectors in place and compare them. *)
Definition compare (a b : list Z) : bool :=
  bool_decide (merge_sort Z.le a = merge_sort Z.le b).

(** The loop over the vertices, with its early [return false]; [count] is
    never changed. *)
Definition check_loop (fuel : nat) (graph compressed_graph : list (list Z)) (vertex_cnt : Z)
    : res bool :=
  let* early :=
    for_up 0 vertex_cnt (λ v early,
      match early with
      | Some b => Ok (Some b)
      | None =>
          let* ori_successors := get_ori_successors graph v in
          let* compress_successors :=
            get_compress_successors fuel compressed_graph v vertex_cnt in
          if compare ori_successors compress_successors then Ok None
          else Ok (Some false)
      end) None in
  let count := 0 in
  Ok (match early with Some b => b | None => count =? 0 end).

Definition check_csr (fuel : nat) (vlist elist compress_vlist compress_elist : list Z)
    (vertex_cnt rule_cnt : Z) : res bool :=
  let graph := replicate (Z.to_nat vertex_cnt) [] in
  let compressed_graph := replicate (Z.to_nat (vertex_cnt + rule_cnt)) [] in
  let* graph := csr_convert graph vlist elist vertex_cnt in
  let* compressed_graph :=
    csr_convert compressed_graph compress_vlist compress_elist (vertex_cnt + rule_cnt) in
  check_loop fuel graph compressed_graph vertex_cnt.

Definition check_coo (fuel : nat) (order order' : list Z) (num_thread : Z)
    (src dst compress_src compress_dst : list Z) (vertex_cnt rule_cnt : Z) : res bool :=
  let graph := replicate (Z.to_nat vertex_cnt) [] in
  let compressed_graph := replicate (Z.to_nat (vertex_cnt + rule_cnt)) [] in
  let* graph := coo_convert order num_thread graph src dst vertex_cnt in
  let* compressed_graph :=
    coo_convert order' num_thread compressed_graph compress_src compress_dst
      (vertex_cnt + rule_cnt) in
  check_loop fuel graph compressed_graph vertex_cnt.

(** ** Lemmas *)

Lemma get_ori_successors_ok gp v row :
  gp !z v = Some row → get_ori_successors gp v = Ok row.
Proof.
  intros H. unfold get_ori_successors. rewrite (vget_ok _ _ _ H). simpl.
  rewrite for_up_copy by (pose proof (zlen_nonneg row); lia). by rewrite slice_full.
Qed.

(** The row of a popped rule: its rules go on the stack, last one on top, its
    vertices to the result. *)
Lemma push_row_ok row vertex_cnt result PQ :
  for_up 0 (zlen row) (λ i '(result, PQ),
    let* dst := vget row i in
    if vertex_cnt <=? dst then Ok (result, dst :: PQ)
    else Ok (result ++ [dst], PQ)) (result, PQ) =
  Ok (result ++ filter (λ x, x < vertex_cnt) row,
      reverse (filter (λ x, vertex_cnt ≤ x) row) ++ PQ).
Proof.
  apply wp_eq. apply (wp_for_up (λ i st, st =
    (result ++ filter (λ x, x < vertex_cnt) (slice row 0 i),
     reverse (filter (λ x, vertex_cnt ≤ x) (slice row 0 i)) ++ PQ))).
  - apply zlen_nonneg.
  - rewrite slice_nil by lia. by rewrite app_nil_r.
  - intros i st Hi ->. destruct (zlookup_total row i Hi) as [x Hx]. wp_run.
    rewrite (slice_snoc row 0 i x), !filter_app, !filter_cons by (done || lia).
    destruct (Z.leb_spec vertex_cnt x).
    + rewrite decide_False, decide_True, !filter_nil by lia. simpl.
      by rewrite app_nil_r, reverse_snoc.
    + rewrite decide_True, decide_False, !filter_nil by lia. simpl.
      by rewrite app_nil_r, app_assoc.
  - intros st ->. by rewrite slice_full.
Qed.

Lemma filter_partition (n : Z) (row : list Z) :
  row ≡ₚ filter (λ x, x < n) row ++ filter (λ x, n ≤ x) row.
Proof.
  induction row as [|x row IH]; [done|]. rewrite !filter_cons.
  destruct (decide (x < n)), (decide (n ≤ x)); try lia; simpl.
  - by rewrite IH at 1.
  - by rewrite IH at 1; rewrite Permutation_middle.
Qed.

(** The stack loop returns, within as many rounds as there are rules to
    expand, a permutation of the expansion of the stack. *)
Lemma push_successors_ok fuel result cg PQ n l k :
  Forall (λ x, n ≤ x) PQ → derives cg n PQ l k → (k < fuel)%nat →
  wp (push_successors fuel result cg PQ n) (λ r, r ≡ₚ result ++ l).
Proof.
  intros HPQ Hd Hk. unfold push_successors. apply wp_bind.
  apply (wp_while_rel (λ '(r, Q) (m : nat), Forall (λ x, n ≤ x) Q ∧
    ∃ l', derives cg n Q l' m ∧ r ++ l' ≡ₚ result ++ l) k).
  - eauto.
  - done.
  - intros [r Q] m (HQ & l' & Hl' & Hp). destruct Q as [|x Q]; simpl.
    + inversion Hl'; subst. rewrite app_nil_r in Hp. done.
    + apply Forall_cons in HQ as [Hx HQ]. inversion Hl' as [| |? ? row l1 l2 k1 k2 _ Hrow H1 H2]; subst; [lia|].
      rewrite (vget_ok _ _ _ Hrow). simpl. rewrite push_row_ok. simpl.
      exists (k1 + k2)%nat. split; [|lia]. split.
      { apply Forall_app; split; [|done]. apply Forall_reverse, Forall_forall.
        intros y Hy. apply list_elem_of_filter in Hy. tauto. }
      destruct (derives_perm _ _ _ _ _ _ (filter_partition n row) H1) as (l1' & H1' & Hp1).
      apply derives_app_inv in H1' as (lv & lr & kv & kr & -> & -> & Hv & Hr).
      assert (Forall (λ x, x < n) (filter (λ x, x < n) row)) as Hlt.
      { apply Forall_forall. intros y Hy. apply list_elem_of_filter in Hy. tauto. }
      destruct (derives_det _ _ _ _ _ _ _ Hv (derives_vertices cg n _ Hlt)) as [-> ->].
      destruct (derives_perm _ _ _ _ _ _ (symmetry (reverse_Permutation _)) Hr) as (lr' & Hr' & Hp2).
      exists (lr' ++ l2). split; [by apply derives_app|].
      rewrite <-Hp, <-Hp2, Hp1, <-!(assoc_L (++)). done.
Qed.

Lemma get_compress_successors_ok fuel cg v n row l k :
  cg !z v = Some row → derives cg n row l k → (k < fuel)%nat →
  wp (get_compress_successors fuel cg v n) (λ r, r ≡ₚ l).
Proof.
  intros Hrow Hd Hk. unfold get_compress_successors. rewrite (vget_ok _ _ _ Hrow). simpl.
  apply (wp_for_up (λ i (re : list Z), ∃ l1 l2 k1 k2, derives cg n (slice row 0 i) l1 k1 ∧
    derives cg n (slice row i (zlen row)) l2 k2 ∧ l = l1 ++ l2 ∧ k = (k1 + k2)%nat ∧ re ≡ₚ l1)).
  - apply zlen_nonneg.
  - exists [], l, 0%nat, k. rewrite slice_nil, slice_full by lia.
    split_and!; [constructor|done..].
  - intros i re Hi (l1 & l2 & k1 & k2 & H1 & H2 & -> & -> & Hre).
    destruct (zlookup_total row i Hi) as [x Hx].
    rewrite (slice_cons row i (zlen row) x) in H2 by (done || lia).
    apply (derives_app_inv _ _ [x]) in H2 as (lx & l3 & kx & k3 & -> & -> & Hdx & H3).
    rewrite (vget_ok _ _ _ Hx). simpl.
    assert (derives cg n (slice row 0 (i + 1)) (l1 ++ lx) (k1 + kx)) as H1x.
    { rewrite (slice_snoc row 0 i x) by (done || lia). by apply derives_app. }
    destruct (Z.leb_spec n x).
    + eapply wp_mono; [apply (push_successors_ok fuel re cg [x] n lx kx); [by constructor|done|lia]|].
      intros re' Hre'. exists (l1 ++ lx), l3, (k1 + kx)%nat, k3.
      split_and!; [done|done|by rewrite app_assoc|lia|]. by rewrite Hre', Hre.
    + destruct (derives_det _ _ _ _ _ _ _ Hdx (derives_vertices cg n [x] ltac:(by constructor)))
        as [-> ->]. simpl.
      exists (l1 ++ [x]), l3, (k1 + 0)%nat, k3.
      split_and!; [done|done|by rewrite <-app_assoc|lia|by rewrite Hre].
  - intros re (l1 & l2 & k1 & k2 & H1 & H2 & -> & -> & Hre).
    rewrite slice_nil in H2 by lia. inversion H2; subst. by rewrite app_nil_r.
Qed.

Lemma compare_true a b : compare a b = true ↔ a ≡ₚ b.
Proof.
  unfold compare. rewrite bool_decide_eq_true. split.
  - intros H. rewrite <-(merge_sort_Permutation Z.le a), H. apply merge_sort_Permutation.
  - intros H. apply (StronglySorted_unique Z.le); [by apply (StronglySorted_merge_sort Z.le)..|].
    by rewrite !merge_sort_Permutation.
Qed.

(** Every vertex has, in the compressed graph, the successors it has in the
    original one. *)
Definition same_successors (graph cg : list (list Z)) (n : Z) : Prop :=
  ∀ v row crow l k, 0 ≤ v < n → graph !z v = Some row → cg !z v = Some crow →
  derives cg n crow l k → row ≡ₚ l.

Lemma check_loop_ok fuel graph cg n :
  0 ≤ n ≤ zlen graph → n ≤ zlen cg →
  (∀ v crow, 0 ≤ v < n → cg !z v = Some crow → ∃ l k, derives cg n crow l k ∧ (k < fuel)%nat) →
  wp (check_loop fuel graph cg n) (λ b, b = true ↔ same_successors graph cg n).
Proof.
  intros Hn Hcg Hd. unfold check_loop. apply wp_bind.
  apply (wp_for_up (λ i early, match early with
    | Some b => b = false ∧ ¬ same_successors graph cg n
    | None => ∀ v row crow l k, 0 ≤ v < i → graph !z v = Some row → cg !z v = Some crow →
        derives cg n crow l k → row ≡ₚ l
    end)); [lia|intros; lia| |].
  - intros i [b|] Hi HI; [done|].
    destruct (zlookup_total graph i) as [row Hrow]; [lia|].
    destruct (zlookup_total cg i) as [crow Hcrow]; [lia|].
    destruct (Hd i crow ltac:(lia) Hcrow) as (l & k & Hdl & Hk).
    rewrite (get_ori_successors_ok _ _ _ Hrow). simpl. apply wp_bind.
    eapply wp_mono; [by eapply get_compress_successors_ok|]. intros r Hr. simpl.
    destruct (compare row r) eqn:Hc; simpl.
    + apply compare_true in Hc. intros v row' crow' l' k' Hv Hrow' Hcrow' Hd'.
      destruct (decide (v = i)) as [->|]; [|by apply (HI v row' crow' l' k'); [lia|..]]. simplify_eq.
      destruct (derives_det _ _ _ _ _ _ _ Hdl Hd') as [-> _]. by rewrite Hc.
    + split; [done|]. intros Hsame. specialize (Hsame i row crow l k ltac:(lia) Hrow Hcrow Hdl).
      rewrite <-not_true_iff_false, compare_true, Hr in Hc. done.
  - intros [b|] HI; simpl; [destruct HI as [-> ?]; split; [done|tauto]|]. split; [|done]. intros _. exact HI.
Qed.

(** Finitely many rows with an expansion have a common bound. *)
Lemma expansions_fuel cg n (m : nat) :
  (∀ v crow, 0 ≤ v < Z.of_nat m → cg !z v = Some crow → ∃ l k, derives cg n crow l k) →
  ∃ N : nat, ∀ v crow, 0 ≤ v < Z.of_nat m → cg !z v = Some crow →
    ∃ l k, derives cg n crow l k ∧ (k < N)%nat.
Proof.
  induction m as [|m IHm]; intros Hdec; [exists 0%nat; intros v crow Hv; lia|].
  destruct IHm as [N IH]; [intros v crow Hv; apply Hdec; lia|].
  destruct (cg !z (Z.of_nat m)) as [crow|] eqn:Hrow.
  - destruct (Hdec (Z.of_nat m) crow ltac:(lia) Hrow) as (l & k & Hd). exists (N + S k)%nat. intros v crow' Hv Hcrow.
    destruct (decide (v = Z.of_nat m)) as [->|].
    + simplify_eq. exists l, k. split; [done|lia].
    + destruct (IH v crow' ltac:(lia) Hcrow) as (l' & k' & ? & ?). exists l', k'. split; [done|lia].
  - exists N. intros v crow' Hv Hcrow. apply (IH v crow'); [|done].
    destruct (decide (v = Z.of_nat m)) as [->|]; [congruence|lia].
Qed.

(** [check_csr] on a graph whose vertices have expansions. *)
Lemma check_csr_ok vlist elist cv ce n rc :
  0 ≤ n → 0 ≤ rc →
  csr_okb vlist elist n = true → csr_okb cv ce (n + rc) = true →
  (∀ v row, 0 ≤ v < n → csr_rows cv ce (n + rc) !z v = Some row → ∃ l k, derives (csr_rows cv ce (n + rc)) n row l k) →
  ∃ N : nat, ∀ fuel, (N ≤ fuel)%nat → ∃ b, check_csr fuel vlist elist cv ce n rc = Ok b ∧
    (b = true ↔ same_successors (csr_rows vlist elist n) (csr_rows cv ce (n + rc)) n).
Proof.
  intros Hn Hrc Hok Hcok Hdec.
  destruct (expansions_fuel _ _ (Z.to_nat n) (λ v crow Hv, Hdec v crow ltac:(lia))) as [N HN]. exists N. intros fuel Hfuel.
  unfold check_csr. rewrite csr_convert_rows by done. simpl.
  rewrite csr_convert_rows by (done || lia). simpl. apply wp_inv, check_loop_ok.
  - rewrite zlen_csr_rows; lia.
  - rewrite zlen_csr_rows; lia.
  - intros v crow Hv Hcrow. destruct (HN v crow ltac:(lia) Hcrow) as (l & k & ? & ?).
    exists l, k. split; [done|lia].
Qed.

(** ** Results *)

(** A lossless result passes the check. *)
Lemma lossless_passes g vl el R :
  0 ≤ R → csr_okb vl el (zlen g + R) = true →
  (∀ v row, g !z v = Some row → ∃ k, derives (csr_rows vl el (zlen g + R)) (zlen g) (csr_row vl el v) row k) →
  ∃ N : nat, ∀ fuel, (N ≤ fuel)%nat → check_csr fuel (offsets g) (concat g) vl el (zlen g) R = Ok true.
Proof.
  intros HR Hok Hrow. pose proof (zlen_nonneg g). destruct (check_csr_ok (offsets g) (concat g) vl el (zlen g) R) as [N HN]; [lia|lia|apply csr_okb_offsets|done| |].
  - intros v row Hv Hr. rewrite zlookup_csr_rows in Hr by lia. injection Hr as <-. destruct (zlookup_total g v Hv) as [row Hr]. destruct (Hrow v row Hr) as [k Hk]. by exists row, k.
  - exists N. intros fuel Hf. destruct (HN fuel Hf) as (b & -> & Hb). f_equal. apply Hb. rewrite csr_rows_offsets.
    intros v row crow l k Hv Hr Hc Hl. rewrite zlookup_csr_rows in Hc by lia. injection Hc as <-. destruct (Hrow v row Hr) as [k' Hk']. by destruct (derives_det _ _ _ _ _ _ _ Hl Hk') as [-> _].
Qed.

(** C10: [check_csr] terminates on every decompressible graph and answers [true]
    exactly when no successor list changed. *)
Theorem check_csr_correct vlist elist cv ce n rc :
  0 ≤ n → 0 ≤ rc →
  csr_okb vlist elist n = true → csr_okb cv ce (n + rc) = true →
  decompressible (csr_rows cv ce (n + rc)) n →
  ∃ N : nat, ∀ fuel, (N ≤ fuel)%nat → ∃ b, check_csr fuel vlist elist cv ce n rc = Ok b ∧
    (b = true ↔ same_successors (csr_rows vlist elist n) (csr_rows cv ce (n + rc)) n).
Proof. intros Hn Hrc Hok Hcok Hdec. apply check_csr_ok; try done. intros v row _. apply Hdec. Qed.

(** The theorem applies to a graph with one rule. *)
Lemma check_csr_correct_witness :
  ∃ N : nat, ∀ fuel, (N ≤ fuel)%nat → ∃ b,
    check_csr fuel [0; 2; 4; 4] [0; 1; 1; 0] [0; 1; 2; 2; 4] [3; 3; 0; 1] 3 1 = Ok b ∧
    (b = true ↔ same_successors (csr_rows [0; 2; 4; 4] [0; 1; 1; 0] 3)
       (csr_rows [0; 1; 2; 2; 4] [3; 3; 0; 1] (3 + 1)) 3).
Proof.
  apply check_csr_correct; [lia|lia|reflexivity|reflexivity|].
  apply ordered_rules_decompressible; [lia|reflexivity].
Defined.
