(* ===== verification/Filter.v ===== *)
(** * Rule filtering

    [compress_op/filter.h]: a rule whose reuse does not pay for itself is
    inlined into its parents and dropped; the remaining rules are renumbered.
    The state is the graph, its transpose (for each symbol, the rows it occurs
    in), the length and frequency of each rule and the merge flags.  The main
    result: filtering changes no expansion of any vertex. *)

From S2P Require Import Prelude Csr Grammar.

(** ** Operations *)

Record rule_info := RuleInfo { len : Z; freq : Z }.

Record fstate := FState {
  fgraph : list (list Z);
  fgraphT : list (list Z);
  frif : list rule_info;
  fflag : list bool
}.

(** [(freq - 1) * (len - 1) - 1 <= threshold], in [int]. *)
Definition judgeRule (threshold len freq : Z) : res bool :=
  let* a := int32 (freq - 1) in
  let* b := int32 (len - 1) in
  let* p := int32 (a * b) in
  let* q := int32 (p - 1) in
  Ok (q <=? threshold).

(** [it = find(row, x); pos = row.erase(it); row.insert(pos, ins)]. *)
Definition erase_insert (row : list Z) (x : Z) (ins : list Z) : res (list Z) :=
  match list_find (x =.) row with
  | Some (i, _) => Ok (take i row ++ ins ++ drop (S i) row)
  | None => Err EraseEnd
  end.

(** The same on row [v] of a graph, inserting row [r] of it. *)
Definition inline_row (g : list (list Z)) (v x r : Z) : res (list (list Z)) :=
  let* row := vget g v in
  let* ins := vget g r in
  if v =? r then Err SelfInsert else
  let* row := erase_insert row x ins in
  vset g v row.

(** Recompute the flag of a rule after its length or frequency changed. *)
Definition set_info (threshold : Z) (st : fstate) (i : Z) (info : rule_info) : res fstate :=
  let* rif := vset (frif st) i info in
  let* b := judgeRule threshold (len info) (freq info) in
  let* merge_flag := vset (fflag st) i b in
  Ok (FState (fgraph st) (fgraphT st) rif merge_flag).

(** First loop of [mergeRule]: one parent occurrence. *)
Definition merge_parent (threshold ID vertex_cnt node : Z) (st : fstate) : res fstate :=
  let* graph := inline_row (fgraph st) node ID ID in
  let* rhs := vget graph ID in
  let st := FState graph (fgraphT st) (frif st) (fflag st) in
  if vertex_cnt <=? node then
    let* info := vget (frif st) (node - vertex_cnt) in
    set_info threshold st (node - vertex_cnt)
      (RuleInfo (i32 (len info + (zlen rhs - 1))) (freq info))
  else Ok st.

(** Second loop of [mergeRule]: one child occurrence.  [new_freq] is the new
    frequency, from the old one and the new number of occurrences. *)
Definition merge_child (new_freq : Z → Z → Z) (threshold ID vertex_cnt child_id : Z)
    (st : fstate) : res fstate :=
  let* graphT := inline_row (fgraphT st) child_id ID ID in
  let st := FState (fgraph st) graphT (frif st) (fflag st) in
  if vertex_cnt <=? child_id then
    let* info := vget (frif st) (child_id - vertex_cnt) in
    let* occ := vget graphT child_id in
    set_info threshold st (child_id - vertex_cnt)
      (RuleInfo (len info) (i32 (new_freq (freq info) (zlen occ))))
  else Ok st.

Definition mergeRule_with (new_freq : Z → Z → Z) (threshold rule_id : Z) (st : fstate)
    (vertex_cnt : Z) : res fstate :=
  let ID := rule_id + vertex_cnt in
  let* parents := vget (fgraphT st) ID in
  let* st := for_up 0 (zlen parents) (λ i st,
    let* parents := vget (fgraphT st) ID in
    let* node := vget parents i in
    merge_parent threshold ID vertex_cnt node st) st in
  let* children := vget (fgraph st) ID in
  for_up 0 (zlen children) (λ i st,
    let* children := vget (fgraph st) ID in
    let* child_id := vget children i in
    merge_child new_freq threshold ID vertex_cnt child_id st) st.

(** The serial version stores the new number of occurrences. *)
Definition mergeRule : Z → Z → fstate → Z → res fstate :=
  mergeRule_with (λ _ occurrences, occurrences).

Definition initInfoForRule (threshold : Z) (st : fstate) (vertex_cnt rule_cnt : Z) : res fstate :=
  for_up 0 rule_cnt (λ i st,
    let* occ := vget (fgraphT st) (i + vertex_cnt) in
    let* row := vget (fgraph st) (i + vertex_cnt) in
    set_info threshold st i (RuleInfo (i32 (zlen row)) (i32 (zlen occ)))) st.

(** The main loop of [filter_csr]. *)
Definition filter_loop (threshold : Z) (st : fstate) (vertex_cnt rule_cnt : Z) : res fstate :=
  for_up 0 rule_cnt (λ i st,
    let* b := vget (fflag st) i in
    if b : bool then mergeRule threshold i st vertex_cnt else Ok st) st.

(** Both filters end by renumbering the rules they keep and writing the rows. *)
Definition renumber (vertex_cnt rule_cnt : Z) (graph : list (list Z)) (merge_flag : list bool) : res (list Z * list Z * Z * Z) :=
  let* '(newRuleId, newRule_cnt) := genNewIdForRule (replicate (Z.to_nat rule_cnt) 0) merge_flag vertex_cnt rule_cnt in
  let* '(new_vlist, new_elist) := genNewGraphCSR [] [] graph newRuleId merge_flag vertex_cnt in
  Ok (np_narrow new_vlist, np_narrow new_elist, vertex_cnt, newRule_cnt).

Definition filter_csr (vlist elist : list Z) (vertex_cnt rule_cnt threshold : Z)
    : res (list Z * list Z * Z * Z) :=
  let total := Z.to_nat (vertex_cnt + rule_cnt) in
  let* graph := csr_convert (replicate total []) vlist elist (vertex_cnt + rule_cnt) in
  let* graphT := csr_convert_idx (replicate total []) vlist elist (vertex_cnt + rule_cnt) in
  let rif := replicate (Z.to_nat rule_cnt) (RuleInfo 0 0) in
  let merge_flag := replicate (Z.to_nat rule_cnt) false in
  let* st := initInfoForRule threshold (FState graph graphT rif merge_flag) vertex_cnt rule_cnt in
  let* st := filter_loop threshold st vertex_cnt rule_cnt in
  renumber vertex_cnt rule_cnt (fgraph st) (fflag st).

(** ** Lemmas on single operations *)

Lemma erase_insert_ok row x ins :
  x ∈ row → ∃ a b, row = a ++ x :: b ∧ erase_insert row x ins = Ok (a ++ ins ++ b).
Proof.
  intros Hx. destruct (list_find_elem_of (x =.) row x Hx eq_refl) as [[i y] Hf].
  unfold erase_insert. rewrite Hf. apply list_find_Some in Hf as (Hi & <- & _).
  exists (take i row), (drop (S i) row). split; [|done]. by rewrite take_drop_middle.
Qed.

Lemma inline_row_ok g v x r :
  0 ≤ v < zlen g → 0 ≤ r < zlen g → v ≠ r → x ∈ rowof g v →
  ∃ a b, rowof g v = a ++ x :: b ∧
    inline_row g v x r = Ok (zinsert g v (a ++ rowof g r ++ b)).
Proof.
  intros Hv Hr Hne Hx. destruct (erase_insert_ok _ _ (rowof g r) Hx) as (a & b & Hab & He).
  exists a, b. split; [done|]. unfold inline_row.
  rewrite (vget_ok _ _ _ (lookup_rowof _ _ Hv)), (vget_ok _ _ _ (lookup_rowof _ _ Hr)). simpl.
  rewrite (proj2 (Z.eqb_neq v r) Hne), He. simpl. by apply vset_ok.
Qed.

(** The merge criterion over the integers. *)
Definition judgeb (threshold len freq : Z) : bool := (freq - 1) * (len - 1) - 1 <=? threshold.

Lemma judgeRule_ok threshold len freq :
  1 ≤ len → 1 ≤ freq → freq * len ≤ INT_MAX →
  judgeRule threshold len freq = Ok (judgeb threshold len freq).
Proof.
  intros Hl Hf Hb. unfold judgeRule, int32, judgeb, INT_MIN, INT_MAX in *.
  assert (0 ≤ (freq - 1) * (len - 1) ≤ freq * len) by nia.
  assert (len ≤ freq * len) by nia. assert (freq ≤ freq * len) by nia.
  repeat match goal with |- context [if ?b then Ok _ else _] =>
    replace b with true by lia; simpl end. done.
Qed.

(** Growing a rule that is worth keeping leaves it worth keeping. *)
Lemma judgeb_mono threshold len freq len' freq' :
  1 ≤ len ≤ len' → 1 ≤ freq ≤ freq' →
  judgeb threshold len freq = false → judgeb threshold len' freq' = false.
Proof. intros. unfold judgeb in *. apply Z.leb_gt. apply Z.leb_gt in H1. nia. Qed.

Lemma set_info_ok threshold st i info :
  0 ≤ i < zlen (frif st) → 0 ≤ i < zlen (fflag st) →
  1 ≤ len info → 1 ≤ freq info → freq info * len info ≤ INT_MAX →
  set_info threshold st i info =
  Ok (FState (fgraph st) (fgraphT st) (zinsert (frif st) i info)
        (zinsert (fflag st) i (judgeb threshold (len info) (freq info)))).
Proof.
  intros Hr Hf Hl Hq Hb. unfold set_info. rewrite vset_ok by done. simpl.
  rewrite judgeRule_ok by done. simpl. by rewrite vset_ok by done.
Qed.

(** ** The invariant of the filter loop *)

Section filter.
(** [N] vertices, [R] rules, and [ex], the expansion of every row. *)
Context (N R threshold : Z) (ex : list (list Z)).
Context (HN : 0 ≤ N) (HR : 0 ≤ R).
Context (Hex : zlen ex = N + R) (Hsize : zlen (concat ex) ≤ INT_MAX).

Local Abbreviation T := (N + R).

(** Every row expands to its entry of [ex]. *)
Definition expands_to (g : list (list Z)) : Prop :=
  ∀ v l, ex !z v = Some l → ∃ k, derives g N (rowof g v) l k.

Definition nonempty_rules (g : list (list Z)) : Prop :=
  ∀ r, N ≤ r < T → rowof g r ≠ [].

Definition in_range (g : list (list Z)) : Prop :=
  zlen g = T ∧ ∀ v x, x ∈ rowof g v → 0 ≤ x < T.

(** Lengths, frequencies and flags describe the rules not merged yet. *)
Definition info_ok (M : gset Z) (st : fstate) : Prop :=
  zlen (frif st) = R ∧ zlen (fflag st) = R ∧
  ∀ r, N ≤ r < T →
    (r ∉ M → frif st !z (r - N) =
      Some (RuleInfo (zlen (rowof (fgraph st) r)) (zlen (rowof (fgraphT st) r)))) ∧
    fflag st !z (r - N) = Some (bool_decide (r ∈ M) ||
      judgeb threshold (zlen (rowof (fgraph st) r)) (zlen (rowof (fgraphT st) r))).

(** [i] rules have been visited, those of [M] were merged. *)
Record finv (i : Z) (M : gset Z) (st : fstate) : Prop := {
  fi_M : ∀ x, x ∈ M → N ≤ x < N + i;
  fi_range : in_range (fgraph st);
  fi_rangeT : in_range (fgraphT st);
  fi_cnt : ∀ v x, v ∉ M → x ∉ M →
    cnt v (rowof (fgraphT st) x) = cnt x (rowof (fgraph st) v);
  fi_out : ∀ v x, v ∉ M → x ∈ M → x ∉ rowof (fgraph st) v;
  fi_in : ∀ v x, v ∈ M → x ∉ M → v ∉ rowof (fgraphT st) x;
  fi_info : info_ok M st;
  fi_kept : ∀ r, N ≤ r < N + i → r ∉ M →
    judgeb threshold (zlen (rowof (fgraph st) r)) (zlen (rowof (fgraphT st) r)) = false;
  fi_ne : nonempty_rules (fgraph st);
  fi_used : ∀ r, N ≤ r < T → r ∉ M → rowof (fgraphT st) r ≠ [];
  fi_ex : expands_to (fgraph st)
}.

Lemma ex_lookup v : 0 ≤ v < T → ∃ l, ex !z v = Some l.
Proof using Hex. intros. apply zlookup_total. lia. Qed.

(** A row is no longer than its expansion. *)
Lemma row_bound g v l :
  nonempty_rules g → in_range g → expands_to g → ex !z v = Some l → zlen (rowof g v) ≤ zlen l.
Proof using HN.
  intros Hne [Hlen _] Hexp Hl. destruct (Hexp v l Hl) as [k Hd].
  enough (length (rowof g v) ≤ length l)%nat by (unfold zlen; lia).
  eapply derives_length; [|done]. intros x row Hx Hrow. rewrite <-(rowof_lookup _ _ _ Hrow).
  apply Hne. apply zlookup_range in Hrow. lia.
Qed.

(** Occurrences of a rule times its expanded length stay within the total. *)
Lemma occ_bound g r l L :
  expands_to g → in_range g → N ≤ r < T → ex !z r = Some l →
  Forall (λ v, 0 ≤ v < T) L → (∀ v, (cnt v L ≤ cnt r (rowof g v))%nat) →
  zlen L * zlen l ≤ INT_MAX.
Proof using HN Hex Hsize.
  intros Hexp [Hlen _] Hr Hl HL Hcnt. etrans; [|exact Hsize].
  apply cnt_sum_bound; [by rewrite Hex|]. intros v lv Hlv.
  destruct (Hexp v lv Hlv) as [k Hd], (Hexp r l Hl) as [kr Hdr].
  assert (derives g N [r] l (S kr)) as Hr1.
  { eapply derives_single_rule; [lia|apply lookup_rowof; lia|done]. }
  pose proof (derives_count _ _ _ _ _ _ _ _ Hr1 Hd).
  specialize (Hcnt v). pose proof (zlen_nonneg l). nia.
Qed.

(** What inlining one parent occurrence does to the graph. *)
Lemma inline_parent g ID node :
  expands_to g → nonempty_rules g → in_range g →
  N ≤ ID < T → 0 ≤ node < T → node ≠ ID → ID ∈ rowof g node →
  ∃ row', inline_row g node ID ID = Ok (zinsert g node row') ∧
    expands_to (zinsert g node row') ∧ nonempty_rules (zinsert g node row') ∧
    in_range (zinsert g node row') ∧
    zlen row' = zlen (rowof g node) + (zlen (rowof g ID) - 1) ∧
    ∀ x, (cnt x row' + (if decide (x = ID) then 1 else 0) =
          cnt x (rowof g node) + cnt x (rowof g ID))%nat.
Proof using HN Hex.
  intros Hexp Hne [Hlen Hrng] HID Hnode Hneq Hin.
  destruct (inline_row_ok g node ID ID) as (a & b & Hab & Hok); [lia|lia|done|done|].
  exists (a ++ rowof g ID ++ b). split; [done|].
  assert (rowof g ID ≠ []) as HneID by (apply Hne; lia). split_and!.
  - intros v l Hl. destruct (Hexp v l Hl) as [k Hd].
    assert (0 ≤ v < T) as Hv by (apply zlookup_range in Hl; lia).
    destruct (derives_inline g N node ID a b (rowof g ID) (rowof g v) l k) as (k' & Hd' & _);
      [lia|done|by rewrite lookup_rowof, Hab by lia|by apply lookup_rowof; lia|done|].
    rewrite rowof_zinsert by lia. destruct (decide (v = node)) as [->|]; [|eauto].
    rewrite Hab in Hd'. apply derives_app_inv in Hd' as (l1 & l2 & k1 & k2 & -> & -> & H1 & H2).
    apply (derives_app_inv _ _ [ID]) in H2 as (l3 & l4 & k3 & k4 & -> & -> & H3 & H4).
    apply derives_rule_inv in H3 as (row & k5 & Hrow & H5 & ->); [|lia].
    rewrite zlookup_zinsert_ne, lookup_rowof in Hrow by lia. simplify_eq.
    eexists. by repeat apply derives_app.
  - intros r Hr. rewrite rowof_zinsert by lia. case_decide; [|by apply Hne].
    destruct (rowof g ID); [done|]. by destruct a.
  - split; [by zlia|]. intros v x. rewrite rowof_zinsert by lia. case_decide; [|apply Hrng].
    rewrite !elem_of_app. intros [?|[?|?]]; [apply (Hrng node)|apply (Hrng ID)|apply (Hrng node)];
      try done; rewrite Hab, elem_of_app, elem_of_cons; auto.
  - rewrite Hab. zlen_simpl. lia.
  - intros x. rewrite Hab, !cnt_app, cnt_cons. lia.
Qed.

(** Updating the information of one rule after its rows changed. *)
Lemma info_update M st g' gT' r :
  info_ok M st → N ≤ r < T → r ∉ M →
  (∀ r', N ≤ r' < T → r' ≠ r → zlen (rowof g' r') = zlen (rowof (fgraph st) r') ∧
     zlen (rowof gT' r') = zlen (rowof (fgraphT st) r')) →
  info_ok M (FState g' gT'
    (zinsert (frif st) (r - N) (RuleInfo (zlen (rowof g' r)) (zlen (rowof gT' r))))
    (zinsert (fflag st) (r - N) (judgeb threshold (zlen (rowof g' r)) (zlen (rowof gT' r))))).
Proof using Type.
  intros (Hrif & Hfl & Hinfo) Hr HrM Hother. unfold info_ok. simpl.
  rewrite !zlen_zinsert. split_and!; [done|done|]. intros r' Hr'. destruct (decide (r' = r)) as [->|Hne].
  - rewrite !zlookup_zinsert_eq by lia. by rewrite bool_decide_eq_false_2.
  - destruct (Hother r' Hr' Hne) as [-> ->]. rewrite !zlookup_zinsert_ne by lia.
    by apply Hinfo.
Qed.

Lemma info_frame M st g' gT' :
  info_ok M st →
  (∀ r', N ≤ r' < T → zlen (rowof g' r') = zlen (rowof (fgraph st) r') ∧
     zlen (rowof gT' r') = zlen (rowof (fgraphT st) r')) →
  info_ok M (FState g' gT' (frif st) (fflag st)).
Proof using Type.
  intros (Hrif & Hfl & Hinfo) Hother. unfold info_ok. simpl. split_and!; [done|done|].
  intros r' Hr'. destruct (Hother r' Hr') as [-> ->]. by apply Hinfo.
Qed.

(** *** Merging rule [N + i] *)
Section merge.
Context (i : Z) (M : gset Z) (st0 : fstate) (Hinv : finv i M st0) (Hi : 0 ≤ i < R).

Local Abbreviation ID := (i + N).
Local Abbreviation g0 := (fgraph st0).
Local Abbreviation gT0 := (fgraphT st0).
Local Abbreviation rhs := (rowof g0 ID).
Local Abbreviation P := (rowof gT0 ID).

Lemma ID_notin_M : ID ∉ M.
Proof using Hinv. intros HM%(fi_M _ _ _ Hinv). lia. Qed.

Lemma ID_notin_rhs : ID ∉ rhs.
Proof using HN Hex Hi Hinv.
  destruct (ex_lookup ID) as [l Hl]; [lia|].
  destruct (fi_ex _ _ _ Hinv _ _ Hl) as [k Hd]. destruct (fi_range _ _ _ Hinv) as [Hlen _].
  apply (derives_no_self g0 N ID rhs l k); [lia|apply lookup_rowof; lia|done].
Qed.

Lemma parent_ok node : node ∈ P → 0 ≤ node < T ∧ node ≠ ID ∧ node ∉ M.
Proof using HN Hex Hi Hinv.
  intros Hin. pose proof ID_notin_M as HID. split; [|split].
  - by apply (proj2 (fi_rangeT _ _ _ Hinv) ID).
  - intros ->. apply ID_notin_rhs. apply cnt_elem.
    rewrite <-(fi_cnt _ _ _ Hinv) by done. by apply cnt_elem.
  - intros HM. by apply (fi_in _ _ _ Hinv node ID).
Qed.

Lemma child_ok c : c ∈ rhs → 0 ≤ c < T ∧ c ≠ ID ∧ c ∉ M.
Proof using HN Hex Hi Hinv.
  intros Hin. split; [|split].
  - by apply (proj2 (fi_range _ _ _ Hinv) ID).
  - intros ->. by apply ID_notin_rhs.
  - intros HM. apply (fi_out _ _ _ Hinv ID c); [apply ID_notin_M|done|done].
Qed.

Lemma rhs_pos : 1 ≤ zlen rhs.
Proof using HN Hi Hinv.
  apply zlen_pos, (fi_ne _ _ _ Hinv). lia.
Qed.

Lemma P_pos : 1 ≤ zlen P.
Proof using HN Hi Hinv.
  apply zlen_pos, (fi_used _ _ _ Hinv); [lia|apply ID_notin_M].
Qed.

(** The state after the parents [pre] were rewritten. *)
Record parents_done (pre : list Z) (st : fstate) : Prop := {
  pd_T : fgraphT st = gT0;
  pd_ex : expands_to (fgraph st);
  pd_ne : nonempty_rules (fgraph st);
  pd_range : in_range (fgraph st);
  pd_info : info_ok M st;
  pd_rhs : rowof (fgraph st) ID = rhs;
  pd_cnt : ∀ v x, (cnt x (rowof (fgraph st) v) + (if decide (x = ID) then cnt v pre else 0) =
    cnt x (rowof g0 v) + cnt v pre * cnt x rhs)%nat;
  pd_len : ∀ v, zlen (rowof (fgraph st) v) =
    zlen (rowof g0 v) + Z.of_nat (cnt v pre) * (zlen rhs - 1)
}.

Lemma parents_done_nil : parents_done [] st0.
Proof using Hinv.
  destruct Hinv. constructor; try done.
  - intros v x. rewrite cnt_nil. destruct (decide _); lia.
  - intros v. rewrite cnt_nil. lia.
Qed.

(** The frequency of a rule not merged, times its expanded length. *)
Lemma freq_bound r l :
  N ≤ r < T → r ∉ M → ex !z r = Some l → zlen (rowof gT0 r) * zlen l ≤ INT_MAX.
Proof using HN Hex Hsize Hinv.
  intros Hr HrM Hl. destruct Hinv. apply (occ_bound g0 r l); try done.
  - apply Forall_forall. intros v Hv. by apply (proj2 fi_rangeT0 r).
  - intros v. destruct (decide (v ∈ M)) as [HvM|HvM].
    + rewrite (proj2 (cnt_zero v _)); [lia|by apply fi_in0].
    + by rewrite fi_cnt0.
Qed.

Lemma merge_parent_ok pre node post st :
  P = pre ++ node :: post → parents_done pre st →
  wp (merge_parent threshold ID N node st) (parents_done (pre ++ [node])).
Proof using HN Hex Hsize Hi Hinv.
  intros HP Hpd. pose proof rhs_pos as Hrhs.
  destruct (parent_ok node) as (Hnode & Hneq & HnM); [rewrite HP, elem_of_app, elem_of_cons; auto|].
  destruct Hpd as [HT Hexp Hne Hrng Hinfo Hrow Hcnt Hlen].
  assert (ID ∈ rowof (fgraph st) node) as Hin.
  { apply cnt_elem. specialize (Hcnt node ID). rewrite decide_True in Hcnt by done.
    rewrite (proj2 (cnt_zero ID rhs) ID_notin_rhs) in Hcnt.
    rewrite <-(fi_cnt _ _ _ Hinv node ID HnM ID_notin_M), HP, cnt_app, cnt_cons in Hcnt.
    rewrite decide_True in Hcnt by done. lia. }
  destruct (inline_parent (fgraph st) ID node) as
    (row' & Hok & Hexp' & Hne' & Hrng' & Hlen' & Hcnt'); try done; [lia|].
  destruct Hrng as [HlenT Hrng].
  unfold merge_parent. rewrite Hok. simpl.
  assert (rowof (zinsert (fgraph st) node row') ID = rhs) as Hrow'.
  { rewrite rowof_zinsert by lia. by rewrite decide_False. }
  rewrite (vget_ok _ ID rhs) by
    (rewrite <-Hrow'; apply lookup_rowof; rewrite zlen_zinsert; lia). simpl.
  rewrite Hrow in Hlen', Hcnt'.
  assert (∀ stx, fgraph stx = zinsert (fgraph st) node row' → fgraphT stx = gT0 →
    info_ok M stx → parents_done (pre ++ [node]) stx) as Hdone.
  { intros stx Hgx HTx Hix. constructor; rewrite ?Hgx; try done.
    - intros v x. rewrite rowof_zinsert, cnt_app, cnt_cons, cnt_nil by lia.
      specialize (Hcnt v x). specialize (Hcnt' x).
      destruct (decide (v = node)) as [->|], (decide (x = ID)); lia.
    - intros v. rewrite rowof_zinsert, cnt_app, cnt_cons, cnt_nil by lia.
      destruct (decide (v = node)) as [->|]; rewrite ?Hlen', Hlen; lia. }
  destruct (Z.leb_spec N node) as [Hge|Hlt]; [|].
  - destruct (ex_lookup node Hnode) as [l Hl].
    pose proof (row_bound _ _ _ Hne' Hrng' Hexp' Hl) as Hbound.
    rewrite rowof_zinsert, decide_True in Hbound by (done || lia).
    pose proof (freq_bound node l ltac:(lia) HnM Hl) as Hfreq.
    assert (1 ≤ zlen (rowof gT0 node)) as Hfpos.
    { apply zlen_pos, (fi_used _ _ _ Hinv); [lia|done]. }
    assert (1 ≤ zlen row') as Hlpos.
    { apply zlen_pos. pose proof (Hne' node ltac:(lia)) as Hnn.
      by rewrite rowof_zinsert, decide_True in Hnn by (done || lia). }
    destruct Hinfo as (Hrif & Hfl & Hinf). pose proof (proj1 (Hinf node ltac:(lia)) HnM) as Hrn.
    rewrite (vget_ok _ _ _ Hrn). simpl. rewrite HT.
    rewrite i32_small by nia. rewrite <-Hlen'.
    rewrite set_info_ok by (simpl; (lia || nia)). simpl. apply Hdone; [done|done|].
    pose proof (info_update M st (zinsert (fgraph st) node row') gT0 node) as Hup.
    rewrite rowof_zinsert, decide_True in Hup by (done || lia). apply Hup; [done|lia|done|].
    intros r' Hr' Hne''. rewrite HT, rowof_zinsert, decide_False by (done || lia). done.
  - apply Hdone; [done|done|]. apply info_frame; [done|]. intros r' Hr'.
    rewrite rowof_zinsert, decide_False by lia. done.
Qed.

(** *** The children *)
Section children.
Context (st1 : fstate) (Hst1 : parents_done P st1).

Record children_done (pre : list Z) (st : fstate) : Prop := {
  cd_g : fgraph st = fgraph st1;
  cd_range : in_range (fgraphT st);
  cd_info : info_ok M st;
  cd_P : rowof (fgraphT st) ID = P;
  cd_cnt : ∀ x v, (cnt v (rowof (fgraphT st) x) + (if decide (v = ID) then cnt x pre else 0) =
    cnt v (rowof gT0 x) + cnt x pre * cnt v P)%nat;
  cd_len : ∀ x, zlen (rowof (fgraphT st) x) =
    zlen (rowof gT0 x) + Z.of_nat (cnt x pre) * (zlen P - 1)
}.

Lemma children_done_nil : children_done [] st1.
Proof using Hinv Hst1.
  destruct Hst1. constructor; try done; rewrite ?pd_T0; try done.
  - apply (fi_rangeT _ _ _ Hinv).
  - intros x v. rewrite cnt_nil. destruct (decide _); lia.
  - intros x. rewrite cnt_nil. lia.
Qed.

(** What inlining one child occurrence does to the transpose. *)
Lemma inline_child gT c :
  in_range gT → 0 ≤ c < T → c ≠ ID → ID ∈ rowof gT c →
  ∃ row', inline_row gT c ID ID = Ok (zinsert gT c row') ∧ in_range (zinsert gT c row') ∧
    zlen row' = zlen (rowof gT c) + (zlen (rowof gT ID) - 1) ∧
    ∀ v, (cnt v row' + (if decide (v = ID) then 1 else 0) =
          cnt v (rowof gT c) + cnt v (rowof gT ID))%nat.
Proof using HN Hi.
  intros [Hlen Hrng] Hc Hne Hin.
  destruct (inline_row_ok gT c ID ID) as (a & b & Hab & Hok); [lia|lia|done|done|].
  exists (a ++ rowof gT ID ++ b). split_and!; [done| | |].
  - split; [by rewrite zlen_zinsert|]. intros v x. rewrite rowof_zinsert by lia. case_decide; [|apply Hrng].
    rewrite !elem_of_app. intros [?|[?|?]]; [apply (Hrng c)|apply (Hrng ID)|apply (Hrng c)];
      try done; rewrite Hab, elem_of_app, elem_of_cons; auto.
  - rewrite Hab. zlen_simpl. lia.
  - intros v. rewrite Hab, !cnt_app, cnt_cons. lia.
Qed.

Lemma cnt_merged_zero v x : v ∈ M → x ∉ M → cnt v (rowof gT0 x) = 0%nat.
Proof using Hinv. intros. apply cnt_zero. by apply (fi_in _ _ _ Hinv). Qed.

Lemma cnt_ID_P : cnt ID P = 0%nat.
Proof using HN Hex Hi Hinv.
  apply cnt_zero. intros Hin. by destruct (parent_ok _ Hin) as (_ & ? & _).
Qed.

(** Occurrences of a child, counted against the rewritten graph. *)
Lemma child_occ_le pre post c v L :
  rhs = pre ++ post → c ∈ rhs →
  (cnt v L + (if decide (v = ID) then cnt c pre else 0) =
    cnt v (rowof gT0 c) + cnt c pre * cnt v P)%nat →
  (cnt v L ≤ cnt c (rowof (fgraph st1) v))%nat.
Proof using HN Hex Hi Hinv Hst1.
  intros Hpre Hc HL. destruct (child_ok c Hc) as (_ & HcID & HcM).
  assert (cnt c pre ≤ cnt c rhs)%nat as Hle by (rewrite Hpre, cnt_app; lia).
  pose proof (pd_cnt _ _ Hst1 v c) as Hcnt. rewrite decide_False in Hcnt by done.
  destruct (decide (v ∈ M)) as [HvM|HvM].
  - rewrite (cnt_merged_zero v c HvM HcM), (cnt_merged_zero v ID HvM ID_notin_M) in HL. lia.
  - rewrite <-(fi_cnt _ _ _ Hinv v c HvM HcM) in Hcnt.
    destruct (decide (v = ID)) as [->|]; [|nia]. rewrite cnt_ID_P in *. lia.
Qed.

(** One more child is done when its row was replaced by the inlined one. *)
Lemma child_inlined pre c st row' stx :
  children_done pre st → 0 ≤ c < T → c ≠ ID → in_range (zinsert (fgraphT st) c row') →
  zlen row' = zlen (rowof (fgraphT st) c) + (zlen P - 1) →
  (∀ v, cnt v row' + (if decide (v = ID) then 1 else 0) = cnt v (rowof (fgraphT st) c) + cnt v P)%nat →
  fgraph stx = fgraph st1 → fgraphT stx = zinsert (fgraphT st) c row' → info_ok M stx →
  children_done (pre ++ [c]) stx.
Proof using Hi.
  intros [Hg Hrng Hinfo HP Hcnt Hlen] Hcr HcID Hrng' Hlen' Hcnt' Hgx HTx Hix. pose proof (proj1 Hrng) as HlenT.
  constructor; rewrite ?HTx; try done.
  - rewrite rowof_zinsert by lia. by rewrite decide_False.
  - intros x v. rewrite rowof_zinsert, cnt_app, cnt_cons, cnt_nil by lia.
    specialize (Hcnt x v). specialize (Hcnt' v).
    destruct (decide (x = c)) as [->|], (decide (v = ID)); lia.
  - intros x. rewrite rowof_zinsert, cnt_app, cnt_cons, cnt_nil by lia.
    destruct (decide (x = c)) as [->|]; rewrite ?Hlen', Hlen; lia.
Qed.

Lemma merge_child_ok pre c post st :
  rhs = pre ++ c :: post → children_done pre st →
  wp (merge_child (λ _ o, o) threshold ID N c st) (children_done (pre ++ [c])).
Proof using HN Hex Hsize Hi Hinv Hst1.
  intros Hrhs Hcd. pose proof P_pos as HPpos.
  assert (c ∈ rhs) as Hc by (rewrite Hrhs, elem_of_app, elem_of_cons; auto).
  destruct (child_ok c Hc) as (Hcr & HcID & HcM).
  pose proof Hcd as [Hg Hrng Hinfo HP Hcnt Hlen].
  assert (ID ∈ rowof (fgraphT st) c) as Hin.
  { apply cnt_elem. specialize (Hcnt c ID). rewrite decide_True, cnt_ID_P in Hcnt by done.
    rewrite (fi_cnt _ _ _ Hinv ID c ID_notin_M HcM), Hrhs, cnt_app, cnt_cons in Hcnt.
    rewrite decide_True in Hcnt by done. lia. }
  destruct (inline_child (fgraphT st) c) as (row' & Hok & Hrng' & Hlen' & Hcnt'); try done.
  rewrite HP in Hlen', Hcnt'. pose proof (proj1 Hrng) as HlenT.
  unfold merge_child. rewrite Hok. simpl.
  assert (∀ stx, fgraph stx = fgraph st1 → fgraphT stx = zinsert (fgraphT st) c row' →
    info_ok M stx → children_done (pre ++ [c]) stx) as Hdone.
  { intros stx Hgx HTx Hix. by apply (child_inlined pre c st row'). }
  destruct (Z.leb_spec N c) as [Hge|Hlt].
  - assert (rowof (zinsert (fgraphT st) c row') c = row') as Hrow'.
    { rewrite rowof_zinsert by lia. by rewrite decide_True. }
    destruct (ex_lookup c Hcr) as [l Hl]. destruct Hst1 as [_ Hexp1 Hne1 Hrng1 _ _ _ _].
    pose proof (row_bound _ _ _ Hne1 Hrng1 Hexp1 Hl) as Hbound.
    assert (zlen row' * zlen l ≤ INT_MAX) as Hfreq.
    { apply (occ_bound (fgraph st1) c l); try done; [lia| |].
      - apply Forall_forall. intros v Hv. apply (proj2 Hrng' c). by rewrite Hrow'.
      - intros v. apply (child_occ_le (pre ++ [c]) post); [by rewrite <-app_assoc|done|].
        rewrite cnt_app, cnt_cons, cnt_nil. specialize (Hcnt c v). specialize (Hcnt' v).
        destruct (decide (v = ID)), (decide (c = c)); (lia || done). }
    assert (1 ≤ zlen (rowof (fgraph st1) c)) as Hlpos.
    { apply zlen_pos, Hne1. lia. }
    assert (1 ≤ zlen row') as Hfpos.
    { assert (1 ≤ zlen (rowof (fgraphT st) c)); [|lia].
      apply zlen_pos. intros Hnil. rewrite Hnil in Hin. by apply not_elem_of_nil in Hin. }
    destruct Hinfo as (Hrif & Hfl & Hinf). pose proof (proj1 (Hinf c ltac:(lia)) HcM) as Hrc.
    rewrite (vget_ok _ _ _ Hrc). simpl.
    rewrite (vget_ok _ c row') by (rewrite <-Hrow' at 2; apply lookup_rowof;
      rewrite zlen_zinsert; lia). simpl.
    rewrite i32_small by nia. rewrite Hg.
    rewrite set_info_ok by (simpl; (lia || nia)). simpl. apply Hdone; [done|done|].
    pose proof (info_update M st (fgraph st1) (zinsert (fgraphT st) c row') c) as Hup.
    rewrite Hrow' in Hup. apply Hup; [done|lia|done|].
    intros r' Hr' Hne''. rewrite Hg, rowof_zinsert, decide_False by (done || lia). done.
  - apply Hdone; [done|done|]. apply info_frame; [done|]. intros r' Hr'.
    rewrite rowof_zinsert, decide_False by lia. done.
Qed.

(** Both loops done: the invariant holds with [ID] merged. *)
Lemma merge_finish st :
  children_done rhs st → judgeb threshold (zlen rhs) (zlen P) = true →
  finv (i + 1) (M ∪ {[ID]}) st.
Proof using HN Hex Hi Hinv Hst1.
  intros [Hg HrT Hinfo HP Hcnt Hlen] Hj. pose proof rhs_pos as Hrpos. pose proof P_pos as HPpos.
  pose proof ID_notin_M as HID. pose proof cnt_ID_P as HIDP.
  pose proof (proj2 (cnt_zero ID rhs) ID_notin_rhs) as HIDr.
  pose proof Hst1 as [_ Hexp1 Hne1 Hrng1 _ Hrhs1 Hcnt1 Hlen1].
  constructor; rewrite ?Hg; try done.
  - intros x [Hx|Hx%elem_of_singleton]%elem_of_union; [|lia].
    pose proof (fi_M _ _ _ Hinv x Hx). lia.
  - intros v x Hv Hx. rewrite not_elem_of_union, not_elem_of_singleton in Hv, Hx.
    specialize (Hcnt x v). specialize (Hcnt1 v x). rewrite decide_False in Hcnt by tauto.
    rewrite decide_False in Hcnt1 by tauto.
    rewrite (fi_cnt _ _ _ Hinv v x) in Hcnt by tauto. lia.
  - intros v x Hv [Hx|Hx%elem_of_singleton]%elem_of_union; [|subst x];
      rewrite not_elem_of_union, not_elem_of_singleton in Hv; destruct Hv as [HvM HvID];
      apply cnt_zero.
    + specialize (Hcnt1 v x). rewrite decide_False in Hcnt1 by (intros ->; done).
      rewrite (proj2 (cnt_zero x (rowof g0 v))) in Hcnt1 by (by apply (fi_out _ _ _ Hinv)).
      rewrite (proj2 (cnt_zero x rhs)) in Hcnt1 by (by apply (fi_out _ _ _ Hinv)). lia.
    + specialize (Hcnt1 v ID). rewrite decide_True in Hcnt1 by done.
      rewrite <-(fi_cnt _ _ _ Hinv v ID) in Hcnt1 by tauto. lia.
  - intros v x [Hv|Hv%elem_of_singleton]%elem_of_union Hx; [|subst v];
      rewrite not_elem_of_union, not_elem_of_singleton in Hx; apply cnt_zero.
    + specialize (Hcnt x v). rewrite decide_False in Hcnt by (intros ->; done).
      rewrite (cnt_merged_zero v x), (cnt_merged_zero v ID) in Hcnt by tauto. lia.
    + specialize (Hcnt x ID). rewrite decide_True in Hcnt by done.
      rewrite (fi_cnt _ _ _ Hinv ID x) in Hcnt by tauto. lia.
  - destruct Hinfo as (Hrif & Hfl & Hinf). split_and!; [done|done|]. intros r Hr.
    destruct (Hinf r Hr) as [Hr1 Hr2]. split.
    + intros HrM. apply Hr1. intros HrM'. apply HrM. by apply elem_of_union_l.
    + rewrite Hr2. f_equal. destruct (decide (r = ID)) as [->|Hne].
      * rewrite Hg, Hrhs1, HP, Hj. by rewrite !orb_true_r.
      * f_equal. apply bool_decide_ext. rewrite elem_of_union, elem_of_singleton. tauto.
  - intros r Hr HrM. rewrite not_elem_of_union, not_elem_of_singleton in HrM.
    assert (N ≤ r < N + i) as Hr' by lia.
    eapply judgeb_mono; [| |apply (fi_kept _ _ _ Hinv r Hr'); tauto].
    + rewrite Hlen1. pose proof (zlen_pos _ (fi_ne _ _ _ Hinv r ltac:(lia))). nia.
    + rewrite Hlen. pose proof (zlen_pos _ (fi_used _ _ _ Hinv r ltac:(lia) ltac:(tauto))). nia.
  - intros r Hr HrM Hnil. rewrite not_elem_of_union in HrM.
    pose proof (zlen_pos _ (fi_used _ _ _ Hinv r Hr ltac:(tauto))) as Hpos.
    specialize (Hlen r). rewrite Hnil in Hlen. zlen_simpl. nia.
Qed.
End children.

Lemma mergeRule_ok :
  judgeb threshold (zlen rhs) (zlen P) = true →
  wp (mergeRule threshold i st0 N) (finv (i + 1) (M ∪ {[ID]})).
Proof using HN Hex Hsize Hi Hinv.
  intros Hj. unfold mergeRule, mergeRule_with.
  rewrite (vget_ok _ ID P) by
    (apply lookup_rowof; rewrite (proj1 (fi_rangeT _ _ _ Hinv)); lia). simpl. apply wp_bind.
  apply (wp_for_up (λ j st, parents_done (slice P 0 j) st)).
  - apply zlen_nonneg.
  - rewrite slice_nil by lia. apply parents_done_nil.
  - intros j st Hj' Hpd. destruct (zlookup_total P j Hj') as [node Hnode].
    rewrite (pd_T _ _ Hpd), (vget_ok gT0 ID P) by
      (apply lookup_rowof; rewrite (proj1 (fi_rangeT _ _ _ Hinv)); lia). simpl.
    rewrite (vget_ok _ _ _ Hnode). simpl. rewrite (slice_snoc P 0 j node) by (done || lia).
    apply (merge_parent_ok _ _ (slice P (j + 1) (zlen P))); [|done].
    rewrite <-(slice_full P) at 1. rewrite <-(slice_app P 0 j) by lia.
    by rewrite (slice_cons P j (zlen P) node) by (done || lia).
  - intros st1. rewrite slice_full. intros Hst1.
    rewrite (vget_ok _ ID rhs) by (rewrite <-(pd_rhs _ _ Hst1); apply lookup_rowof;
      rewrite (proj1 (pd_range _ _ Hst1)); lia). simpl.
    apply (wp_for_up (λ j st, children_done st1 (slice rhs 0 j) st)).
    + apply zlen_nonneg.
    + rewrite slice_nil by lia. by apply children_done_nil.
    + intros j st Hj' Hcd. destruct (zlookup_total rhs j Hj') as [c Hc].
      rewrite (cd_g _ _ _ Hcd), (vget_ok _ ID rhs) by (rewrite <-(pd_rhs _ _ Hst1);
        apply lookup_rowof; rewrite (proj1 (pd_range _ _ Hst1)); lia). simpl.
      rewrite (vget_ok _ _ _ Hc). simpl. rewrite (slice_snoc rhs 0 j c) by (done || lia).
      apply (merge_child_ok _ Hst1 _ _ (slice rhs (j + 1) (zlen rhs))); [|done].
      rewrite <-(slice_full rhs) at 1. rewrite <-(slice_app rhs 0 j) by lia.
      by rewrite (slice_cons rhs j (zlen rhs) c) by (done || lia).
    + intros st. rewrite slice_full. intros Hcd. by eapply merge_finish.
Qed.
End merge.

Lemma finv_skip i M st :
  finv i M st → 0 ≤ i < R →
  judgeb threshold (zlen (rowof (fgraph st) (i + N))) (zlen (rowof (fgraphT st) (i + N))) = false →
  finv (i + 1) M st.
Proof using Type.
  intros [] Hi Hj. constructor; try done.
  - intros x Hx. specialize (fi_M0 x Hx). lia.
  - intros r Hr HrM. destruct (decide (r = i + N)) as [->|]; [done|]. apply fi_kept0; [lia|done].
Qed.

Lemma filter_loop_ok st :
  finv 0 ∅ st → wp (filter_loop threshold st N R) (λ st', ∃ M, finv R M st').
Proof using HN HR Hex Hsize.
  intros Hst. unfold filter_loop. apply (wp_for_up (λ i st', ∃ M, finv i M st')); [done| | |done].
  - by exists ∅.
  - intros i st' Hi [M HM]. destruct (fi_info _ _ _ HM) as (_ & _ & Hinfo).
    assert (i + N ∉ M) as Hnot by (by eapply ID_notin_M).
    destruct (Hinfo (i + N) ltac:(lia)) as [_ Hfl].
    rewrite bool_decide_eq_false_2, Z.add_simpl_r in Hfl by done. simpl in Hfl.
    rewrite (vget_ok _ _ _ Hfl). simpl. destruct (judgeb _ _ _) eqn:Hj.
    + eapply wp_mono; [by apply (mergeRule_ok i M)|]. eauto.
    + simpl. exists M. by apply finv_skip.
Qed.

(** *** The initial state *)
Section init.
Context (g gT : list (list Z)).
Context (Hg : in_range g) (HgT : in_range gT).
Context (Htr : ∀ v x, cnt v (rowof gT x) = cnt x (rowof g v)).
Context (Hne : nonempty_rules g) (Hexp : expands_to g).
Context (Hused : ∀ r, N ≤ r < T → rowof gT r ≠ []).

Lemma init_ok :
  wp (initInfoForRule threshold (FState g gT (replicate (Z.to_nat R) (RuleInfo 0 0))
        (replicate (Z.to_nat R) false)) N R) (finv 0 ∅).
Proof using All.
  unfold initInfoForRule.
  apply (wp_for_up (λ i st, fgraph st = g ∧ fgraphT st = gT ∧ zlen (frif st) = R ∧
    zlen (fflag st) = R ∧ ∀ r, N ≤ r < N + i →
      frif st !z (r - N) = Some (RuleInfo (zlen (rowof g r)) (zlen (rowof gT r))) ∧
      fflag st !z (r - N) = Some (judgeb threshold (zlen (rowof g r)) (zlen (rowof gT r)))));
    [done| | |].
  - simpl. rewrite !zlen_replicate. split_and!; try done; lia.
  - intros i st Hi (HgE & HgTE & Hlr & Hlf & HI). rewrite HgE, HgTE.
    rewrite (vget_ok _ _ _ (lookup_rowof gT (i + N) ltac:(destruct HgT; lia))).
    simpl. rewrite (vget_ok _ _ _ (lookup_rowof g (i + N) ltac:(destruct Hg; lia))). simpl.
    destruct (ex_lookup (i + N)) as [l Hl]; [lia|].
    pose proof (row_bound g _ _ Hne Hg Hexp Hl) as Hrow.
    assert (zlen (rowof gT (i + N)) * zlen l ≤ INT_MAX) as Hocc.
    { apply (occ_bound g (i + N) l); try done; [lia| |].
      - apply Forall_forall. intros v Hv. by apply (proj2 HgT (i + N)).
      - intros v. by rewrite Htr. }
    assert (1 ≤ zlen (rowof g (i + N))) as Hp1.
    { apply zlen_pos, Hne. lia. }
    assert (1 ≤ zlen (rowof gT (i + N))) as Hp2.
    { apply zlen_pos, Hused. lia. }
    rewrite !i32_small by nia. rewrite set_info_ok by (simpl; (lia || nia)). simpl.
    rewrite !zlen_zinsert. split_and!; try done. intros r Hr.
    destruct (decide (r = i + N)) as [->|].
    + rewrite Z.add_simpl_r, !zlookup_zinsert_eq by lia. done.
    + rewrite !zlookup_zinsert_ne by lia. apply HI. lia.
  - intros st (HgE & HgTE & Hlr & Hlf & HI). constructor; rewrite ?HgE, ?HgTE; try done.
    + split_and!; [done|done|]. intros r Hr. destruct (HI r Hr) as [H1 H2].
      by rewrite HgE, HgTE, H1, H2, bool_decide_eq_false_2.
    + intros r Hr. lia.
    + intros r Hr _. by apply Hused.
Qed.
End init.
End filter.

(** ** Results *)

(** What [filter_csr] asks of its input: [N] vertices and [R] rules in CSR
    form; [ex] is the expansion of each row, and their total size fits in an
    [int]; every rule is non-empty and occurs somewhere. *)
Record filter_input (vlist elist : list Z) (N R : Z) (ex : list (list Z)) : Prop := {
  fin_N : 0 ≤ N;
  fin_R : 0 ≤ R;
  fin_csr : csr_okb vlist elist (N + R) = true;
  fin_elist : Forall (λ x, 0 ≤ x < N + R) elist;
  fin_int : N + R ≤ INT_MAX;
  fin_ex : zlen ex = N + R;
  fin_derives : ∀ v l, ex !z v = Some l →
    ∃ k, derives (csr_rows vlist elist (N + R)) N (csr_row vlist elist v) l k;
  fin_size : zlen (concat ex) ≤ INT_MAX;
  fin_rules : ∀ r, N ≤ r < N + R → csr_row vlist elist r ≠ [] ∧
    ∃ v, 0 ≤ v < N + R ∧ r ∈ csr_row vlist elist v
}.

(** If kept rows use kept rules only, the expansions of the vertices survive. *)
Lemma renumber_lossless N R graph flag ex :
  0 ≤ N → 0 ≤ R → N + R ≤ INT_MAX → zlen flag = R → zlen graph = N + R →
  Forall (Forall (λ x, 0 ≤ x < N + R)) graph → zlen (concat graph) ≤ INT_MAX →
  (∀ v row, graph !z v = Some row → (N ≤ v → flag !z (v - N) = Some false) →
    Forall (λ x, 0 ≤ x < N + R ∧ (N ≤ x → flag !z (x - N) = Some false)) row) →
  expands_to N ex graph →
  ∃ vl el R', renumber N R graph flag = Ok (vl, el, N, R') ∧
    0 ≤ R' ≤ R ∧ csr_okb vl el (N + R') = true ∧
    ∀ v l, 0 ≤ v < N → ex !z v = Some l →
      ∃ k, derives (csr_rows vl el (N + R')) N (csr_row vl el v) l k.
Proof.
  intros fin_N0 fin_R0 Hint Hfl Hlen Hrows Hsize Hkept Hexp. unfold renumber.
  destruct (wp_inv _ _ (genNewIdForRule_spec (replicate (Z.to_nat R) 0) flag N R fin_R0
    ltac:(rewrite zlen_replicate; lia) Hfl)) as ([ids cntr] & -> & -> & Hids & Hid). simpl.
  rewrite (genNewGraphCSR_spec graph ids flag N R) by done. simpl.
  set (g' := new_graph N flag graph).
  assert (zlen g' = N + rank flag R) as Hg'.
  { unfold g'. rewrite zlen_new_graph by lia. by rewrite Hfl. }
  assert (zlen (concat g') ≤ INT_MAX) as Hsize'.
  { unfold g', new_graph. rewrite zlen_concat_rename. etrans; [apply zlen_concat_kept|done]. }
  rewrite !np_narrow_id; cycle 1.
  { apply new_graph_bound; [lia|]. eapply Forall_impl; [exact Hrows|]. intros row Hrow.
    eapply Forall_impl; [exact Hrow|]. simpl. lia. }
  { apply Forall_forall. intros x Hx%offsets_bound. lia. }
  pose proof (rank_nonneg flag R) as Hrank.
  exists (offsets g'), (concat g'), (rank flag R). split_and!; [done|lia| | |].
  - pose proof (rename_le N flag (N + R)) as Hle. unfold rename in Hle.
    destruct (Z.leb_spec N (N + R)); [|lia]. rewrite Z.add_simpl_l in Hle. lia.
  - rewrite <-Hg'. apply csr_okb_offsets.
  - intros v l Hv Hl. rewrite <-Hg', csr_rows_offsets.
    assert (graph !z v = Some (rowof graph v)) as Hrow by (apply lookup_rowof; lia).
    assert (g' !z v = Some (rename N flag <$> rowof graph v)) as Hrow'.
    { rewrite <-(rename_small N flag v) at 1 by lia.
      apply zlookup_new_graph; [lia|lia|done|lia]. }
    rewrite (csr_row_offsets g' v _ Hrow').
    destruct (Hexp v l Hl) as [k Hd]. exists k.
    apply (derives_rename graph g' N
      (λ x, 0 ≤ x < N + R ∧ (N ≤ x → flag !z (x - N) = Some false))); try done.
    + intros x Hx. by apply rename_small.
    + intros x Hx. by apply rename_large.
    + intros x row Hx [Hxr Hxk] Hrx. split; [apply (Hkept x row Hrx Hxk)|].
      apply zlookup_new_graph; [lia|lia|done|done].
    + apply (Hkept v _ Hrow). lia.
Qed.

Section filter_csr.
Context (vlist elist : list Z) (N R threshold : Z) (ex : list (list Z)).
Context (Hin : filter_input vlist elist N R ex).

Local Abbreviation T := (N + R).
Local Abbreviation g := (csr_rows vlist elist T).

Lemma input_range : in_range N R g.
Proof using Hin.
  destruct Hin. split; [apply zlen_csr_rows; lia|]. intros v x Hx.
  destruct (decide (0 ≤ v < T)) as [Hv|Hv].
  - rewrite (rowof_lookup _ _ _ (zlookup_csr_rows _ _ _ v Hv)) in Hx. unfold csr_row in Hx.
    destruct (vlist !z v), (vlist !z (v + 1)); try by apply not_elem_of_nil in Hx.
    apply elem_of_slice in Hx. rewrite Forall_forall in fin_elist0. by apply fin_elist0.
  - rewrite rowof_out in Hx by (rewrite zlen_csr_rows; lia). by apply not_elem_of_nil in Hx.
Qed.

Lemma rowof_input v : 0 ≤ v < T → rowof g v = csr_row vlist elist v.
Proof using Type. intros Hv. by apply rowof_lookup, zlookup_csr_rows. Qed.

Lemma input_expands : expands_to N ex g.
Proof using Hin.
  destruct Hin. intros v l Hl. rewrite rowof_input by (apply zlookup_range in Hl; lia). eauto.
Qed.

Lemma input_nonempty : nonempty_rules N R g.
Proof using Hin.
  intros r Hr. destruct Hin. rewrite rowof_input by lia. by apply fin_rules0.
Qed.

(** The transpose computed by [csr_convert_idx]. *)
Lemma input_transpose :
  wp (csr_convert_idx (replicate (Z.to_nat T) []) vlist elist T) (λ gT,
    in_range N R gT ∧ (∀ v x, cnt v (rowof gT x) = cnt x (rowof g v)) ∧
    ∀ r, N ≤ r < T → rowof gT r ≠ []).
Proof using Hin.
  pose proof input_range as [Hlen Hrng]. destruct Hin.
  eapply wp_mono; [apply csr_convert_idx_spec; [done|lia|done]|].
  intros gT [HlenT HgT].
  assert (∀ v x, cnt v (rowof gT x) = cnt x (rowof g v)) as Htr.
  { intros v x. destruct (decide (0 ≤ x < T)) as [Hx|Hx].
    - rewrite (rowof_lookup _ _ _ (HgT x Hx)). destruct (decide (0 ≤ v < T)) as [Hv|Hv].
      + apply cnt_tr_row. rewrite Z.sub_0_r. by apply lookup_rowof; rewrite Hlen.
      + rewrite (rowof_out g v), cnt_nil by lia. apply cnt_zero. intros Hw%tr_row_ge. lia.
    - rewrite (rowof_out gT x), cnt_nil by lia. symmetry. apply cnt_zero. intros Hw%Hrng. lia. }
  split_and!; [split; [done|]|done|].
  - intros x v Hv%cnt_elem. rewrite Htr in Hv.
    destruct (decide (0 ≤ v < T)) as [|Hv']; [done|].
    rewrite (rowof_out g v), cnt_nil in Hv by lia. lia.
  - intros r Hr Hnil. destruct (fin_rules0 r Hr) as (_ & v & Hv & Hrv).
    rewrite <-rowof_input in Hrv by done. apply cnt_elem in Hrv.
    rewrite <-Htr, Hnil, cnt_nil in Hrv. lia.
Qed.

(** The state after the merge loop, as the writers use it. *)
Lemma final_state st M :
  finv N R threshold ex R M st →
  let flag := fflag st in
  zlen flag = R ∧ zlen (fgraph st) = T ∧ Forall (Forall (λ x, 0 ≤ x < T)) (fgraph st) ∧
  zlen (concat (fgraph st)) ≤ INT_MAX ∧
  ∀ v row, fgraph st !z v = Some row → (N ≤ v → flag !z (v - N) = Some false) →
    Forall (λ x, 0 ≤ x < T ∧ (N ≤ x → flag !z (x - N) = Some false)) row.
Proof using Hin.
  intros Hfin flag. destruct Hin. destruct (fi_info _ _ _ _ _ _ _ Hfin) as (Hrif & Hfl & Hinfo).
  destruct (fi_range _ _ _ _ _ _ _ Hfin) as [Hlen Hrng].
  assert (∀ x, N ≤ x < T → x ∉ M → flag !z (x - N) = Some false) as Hfalse.
  { intros x Hx HxM. unfold flag. rewrite (proj2 (Hinfo x Hx)), bool_decide_eq_false_2 by done.
    by rewrite (fi_kept _ _ _ _ _ _ _ Hfin x). }
  split_and!; [done|done| | |].
  - apply Forall_forall. intros row [v Hv]%elem_zlookup. apply Forall_forall. intros x Hx.
    apply (Hrng v). by rewrite (rowof_lookup _ _ _ Hv).
  - etrans; [|exact fin_size0]. apply zlen_concat_le; [lia|]. intros v r l Hr Hl.
    rewrite <-(rowof_lookup _ _ _ Hr).
    apply (row_bound N R ex fin_N0 (fgraph st)); [| |by apply (fi_ex _ _ _ _ _ _ _ Hfin)|done].
    + by apply (fi_ne _ _ _ _ _ _ _ Hfin).
    + done.
  - intros v row Hrow Hv. apply Forall_forall. intros x Hx.
    rewrite <-(rowof_lookup _ _ _ Hrow) in Hx. split; [by apply (Hrng v)|].
    intros Hge. apply Hfalse; [split; [done|by apply (Hrng v)]|]. intros HxM.
    apply (fi_out _ _ _ _ _ _ _ Hfin v x); [|done|done]. intros HvM.
    pose proof (fi_M _ _ _ _ _ _ _ Hfin v HvM) as HvR.
    specialize (Hv ltac:(lia)). unfold flag in Hv.
    rewrite (proj2 (Hinfo v ltac:(lia))), bool_decide_eq_true_2 in Hv by done. done.
Qed.

(** The run on a well-formed input. *)
Lemma filter_csr_ok :
  ∃ vl el R', filter_csr vlist elist N R threshold = Ok (vl, el, N, R') ∧
    0 ≤ R' ≤ R ∧ csr_okb vl el (N + R') = true ∧
    ∀ v l, 0 ≤ v < N → ex !z v = Some l →
      ∃ k, derives (csr_rows vl el (N + R')) N (csr_row vl el v) l k.
Proof using Hin.
  pose proof Hin as []. unfold filter_csr.
  rewrite csr_convert_rows by (done || lia). simpl.
  destruct (wp_inv _ _ input_transpose) as (gT & -> & HgT & Htr & Hused). simpl.
  destruct (wp_inv _ _ (init_ok N R threshold ex fin_N0 fin_R0 fin_ex0 fin_size0 g gT
    input_range HgT Htr input_nonempty input_expands Hused)) as (st0 & -> & Hst0). simpl.
  destruct (wp_inv _ _ (filter_loop_ok N R threshold ex fin_N0 fin_R0 fin_ex0 fin_size0 st0 Hst0))
    as (st & -> & M & Hst). simpl.
  destruct (final_state st M Hst) as (Hfl & Hlen & Hrows & Hsize & Hkept).
  apply (renumber_lossless N R (fgraph st) (fflag st) ex); try done.
  intros v l Hl. by apply (fi_ex _ _ _ _ _ _ _ Hst).
Qed.

(** C8: filtering is lossless.  On every well-formed input the run returns a
    CSR graph of the same vertices and at most as many rules, in which every
    vertex expands to the successors it expanded to before. *)
Theorem filter_csr_lossless :
  ∃ vl el R', filter_csr vlist elist N R threshold = Ok (vl, el, N, R') ∧
    0 ≤ R' ≤ R ∧ csr_okb vl el (N + R') = true ∧
    ∀ v l, 0 ≤ v < N → ex !z v = Some l →
      ∃ k, derives (csr_rows vl el (N + R')) N (csr_row vl el v) l k.
Proof using Hin. exact filter_csr_ok. Qed.
End filter_csr.

(** ** An input the theorem applies to *)

Definition sample_vlist : list Z := [0; 2; 3; 5; 7; 9].
Definition sample_elist : list Z := [4; 3; 4; 3; 0; 0; 1; 3; 2].
Definition sample_expansions : list (list Z) :=
  [[0; 1; 2; 0; 1]; [0; 1; 2]; [0; 1; 0]; [0; 1]; [0; 1; 2]].

Lemma sample_filter_input : filter_input sample_vlist sample_elist 3 2 sample_expansions.
Proof.
  split; try (vm_compute; done).
  - vm_compute. repeat constructor; done.
  - apply (expand_rows_sound 10). vm_compute. reflexivity.
  - intros r Hr. assert (r = 3 ∨ r = 4) as [->| ->] by lia; (split; [done|]).
    + exists 0. split; [lia|]. by apply (zlookup_elem _ 1).
    + exists 0. split; [lia|]. by apply (zlookup_elem _ 0).
Qed.

Lemma filter_csr_lossless_witness :
  ∃ vl el R', filter_csr sample_vlist sample_elist 3 2 0 = Ok (vl, el, 3, R') ∧
    0 ≤ R' ≤ 2 ∧ csr_okb vl el (3 + R') = true ∧
    ∀ v l, 0 ≤ v < 3 → sample_expansions !z v = Some l →
      ∃ k, derives (csr_rows vl el (3 + R')) 3 (csr_row vl el v) l k.
Proof. exact (filter_csr_lossless _ _ _ _ 0 _ sample_filter_input). Defined.
