(* ===== verification/Convert.v ===== *)
(** * Converting between COO and CSR

    [compress_op/convert.h].  The output arrays are allocated without being
    initialised: their first contents are arguments of the model, and the
    theorems hold whatever they are. *)

From S2P Require Import Prelude Csr.

(** ** Operations *)

(** [while (cur_v != v) vlist_ptr[++cur_v] = e_size;]  Each round moves
    [cur_v] one cell on, so it stops or leaves the array within
    [length vlist] rounds. *)
Definition fill_to (v e_size : Z) (st : Z * list Z) : res (Z * list Z) :=
  while (S (length st.2)) (λ '(cur_v, _), Ok (negb (cur_v =? v)))
    (λ '(cur_v, vlist),
      let* vlist := vset vlist (cur_v + 1) e_size in
      Ok (cur_v + 1, vlist)) st.

Definition coo2csr (vlist0 elist0 src dst : list Z) (vertex_cnt : Z)
    : res (list Z * list Z) :=
  let edge_cnt := zlen src in
  let* vlist := vset vlist0 0 0 in
  let* '(cur_v, vlist, elist, e_size) :=
    for_up 0 edge_cnt (λ e '(cur_v, vlist, elist, e_size),
      let* v := vget src e in
      let* '(cur_v, vlist) := fill_to v e_size (cur_v, vlist) in
      let* d := vget dst e in
      let* elist := vset elist e d in
      Ok (cur_v, vlist, elist, e_size + 1)) (0, vlist, elist0, 0) in
  let* '(_, vlist) := fill_to vertex_cnt e_size (cur_v, vlist) in
  Ok (vlist, elist).

(** [vlist_buf.size - 1] wraps around for an empty array, and the first access is then
    out of bounds. *)
Definition csr2coo (src0 dst0 vlist elist : list Z) : res (list Z * list Z) :=
  if zlen vlist =? 0 then Err OutOfBounds else
  let vertex_cnt := zlen vlist - 1 in
  for_up 0 vertex_cnt (λ v '(src, dst),
    let* start := vget vlist v in
    let* end_ := vget vlist (v + 1) in
    for_up start end_ (λ e '(src, dst),
      let* src := vset src e v in
      let* d := vget elist e in
      let* dst := vset dst e d in
      Ok (src, dst)) (src, dst)) (src0, dst0).

(** ** Specification *)

(** The source column of the rows of [g], numbered from [v]. *)
Fixpoint src_from (v : Z) (g : list (list Z)) : list Z :=
  match g with
  | [] => []
  | r :: g' => replicate (length r) v ++ src_from (v + 1) g'
  end.

(** How many edges leave vertices below [u]. *)
Definition below (src : list Z) (u : Z) : Z := zlen (filter (λ s, s < u) src).

(** ** Lemmas *)

Lemma src_from_app v g1 g2 : src_from v (g1 ++ g2) = src_from v g1 ++ src_from (v + zlen g1) g2.
Proof.
  revert v. induction g1 as [|r g1 IH]; intros v; simpl.
  - zlen_simpl. by rewrite Z.add_0_r.
  - rewrite IH, <-app_assoc, zlen_cons. do 3 f_equal. lia.
Qed.

Lemma src_from_range v g s : s ∈ src_from v g → v ≤ s < v + zlen g.
Proof.
  revert v. induction g as [|r g IH]; intros v; simpl; [by intros ?%not_elem_of_nil|].
  rewrite elem_of_app, zlen_cons. pose proof (zlen_nonneg g) as Hg.
  intros [[-> _]%elem_of_replicate|Hin]; [lia|]. specialize (IH _ Hin). lia.
Qed.

Lemma zlen_src_from v g : zlen (src_from v g) = zlen (concat g).
Proof.
  revert v. induction g as [|r g IH]; intros v; simpl; [done|].
  rewrite !zlen_app, IH, zlen_replicate. unfold zlen. lia.
Qed.

Lemma src_from_sorted v g : StronglySorted Z.le (src_from v g).
Proof.
  revert v. induction g as [|r g IH]; intros v; simpl; [constructor|].
  apply StronglySorted_app. split_and!; [| |done].
  - intros x y [-> _]%elem_of_replicate Hy%src_from_range. lia.
  - induction (length r) as [|m IHm]; simpl; constructor; [done|].
    apply Forall_replicate. lia.
Qed.

Lemma below_app s1 s2 u : below (s1 ++ s2) u = below s1 u + below s2 u.
Proof. unfold below. by rewrite filter_app, zlen_app. Qed.

Lemma below_all s u : Forall (λ x, x < u) s → below s u = zlen s.
Proof.
  unfold below. induction 1 as [|x s Hx _ IH]; [done|]. rewrite filter_cons, decide_True by done.
  by rewrite !zlen_cons, IH.
Qed.

Lemma below_none s u : Forall (λ x, u ≤ x) s → below s u = 0.
Proof.
  unfold below. induction 1 as [|x s Hx _ IH]; [done|]. by rewrite filter_cons, decide_False by lia.
Qed.

Lemma below_le s u : below s u ≤ zlen s.
Proof. unfold below, zlen. apply inj_le, length_filter. Qed.

(** In a sorted column the offset of every vertex up to [s[e]], and after all
    earlier sources, is [e]. *)
Lemma below_at src e u :
  StronglySorted Z.le src → 0 ≤ e ≤ zlen src →
  (∀ i s, 0 ≤ i < e → src !z i = Some s → s < u) →
  (∀ s, src !z e = Some s → u ≤ s) →
  below src u = e.
Proof.
  intros Hs He Hlt Hge.
  rewrite <-(slice_full src), <-(slice_app src 0 e) by lia. rewrite below_app, below_all, below_none.
  - rewrite zlen_slice; lia.
  - destruct (decide (e < zlen src)) as [Hlt'|]; [|rewrite slice_nil by lia; constructor].
    destruct (zlookup_total src e) as [s Hs']; [lia|]. specialize (Hge s Hs').
    rewrite <-(slice_full src), <-(slice_app src 0 e) in Hs by lia.
    apply StronglySorted_app in Hs as (_ & _ & Hs).
    rewrite (slice_cons src e (zlen src) s) in * by (done || lia).
    apply StronglySorted_inv in Hs as [_ Hs]. constructor; [done|].
    eapply Forall_impl; [exact Hs|]. simpl. lia.
  - apply Forall_forall. intros s [i Hi]%elem_zlookup. pose proof (zlookup_range _ _ _ Hi) as Hr.
    rewrite zlen_slice in Hr by lia. rewrite zlookup_slice in Hi by lia.
    by apply (Hlt i); [lia|rewrite <-Hi; f_equal; lia].
Qed.

(** [fill_to] writes [e_size] in the cells after [cur_v] up to [v]. *)
Lemma fill_to_ok v e_size cur_v vlist :
  0 ≤ cur_v ≤ v → v < zlen vlist →
  wp (fill_to v e_size (cur_v, vlist)) (λ '(cur', vl), cur' = v ∧ zlen vl = zlen vlist ∧
    ∀ u, vl !z u = if decide (cur_v < u ≤ v) then Some e_size else vlist !z u).
Proof.
  intros Hcur Hv. unfold fill_to. cbn [snd].
  apply (wp_while_rel (λ '(cur', vl) m, cur_v ≤ cur' ≤ v ∧ m = Z.to_nat (v - cur') ∧
    zlen vl = zlen vlist ∧
    ∀ u, vl !z u = if decide (cur_v < u ≤ cur') then Some e_size else vlist !z u)
    (Z.to_nat (v - cur_v))).
  - split_and!; try done; [lia|]. intros u. by rewrite decide_False by lia.
  - unfold zlen in Hv. lia.
  - intros [cur' vl] m (Hc & -> & Hlen & HI). simpl. destruct (Z.eqb_spec cur' v) as [->|]; simpl.
    + done.
    + wp_run. exists (Z.to_nat (v - (cur' + 1))). split_and!; try lia; [by zlia|].
      intros u. destruct (decide (u = cur' + 1)) as [->|].
      * rewrite zlookup_zinsert_eq by lia. by rewrite decide_True by lia.
      * rewrite zlookup_zinsert_ne, HI by lia.
        destruct (decide (cur_v < u ≤ cur')), (decide (cur_v < u ≤ cur' + 1)); done || lia.
Qed.

(** In a sorted list an entry bounds the ones that follow it. *)
Lemma sorted_from src e v :
  StronglySorted Z.le src → src !z e = Some v → ∀ i s, e ≤ i → src !z i = Some s → v ≤ s.
Proof.
  intros Hs He i s Hi Hsi. pose proof (zlookup_range _ _ _ Hsi) as Hir. pose proof (zlookup_range _ _ _ He) as Her.
  rewrite <-(slice_full src), <-(slice_app src 0 e) in Hs by lia.
  apply StronglySorted_app in Hs as (_ & _ & Hs).
  rewrite (slice_cons src e (zlen src) v) in Hs by (done || lia).
  apply StronglySorted_inv in Hs as [_ Hs]. destruct (decide (i = e)) as [->|]; [simplify_eq; lia|].
  rewrite Forall_forall in Hs. apply Hs. apply (zlookup_elem _ (i - (e + 1))).
  rewrite zlookup_slice by lia. rewrite <-Hsi. f_equal. lia.
Qed.

(** [coo2csr] on a sorted edge list: offsets of the vertices, and the
    destinations. *)
Lemma coo2csr_spec vlist0 elist0 src dst n :
  StronglySorted Z.le src → Forall (λ s, 0 ≤ s < n) src → 0 ≤ n →
  zlen dst = zlen src → zlen elist0 = zlen src → zlen vlist0 = n + 1 →
  coo2csr vlist0 elist0 src dst n = Ok (below src <$> seqZ 0 (n + 1), dst).
Proof.
  intros Hs Hr Hn Hd He Hv. apply wp_eq. unfold coo2csr.
  rewrite vset_ok by lia. simpl. apply wp_bind.
  apply (wp_for_up (λ e '(cur_v, vlist, elist, e_size), e_size = e ∧
    0 ≤ cur_v ≤ n ∧ zlen vlist = n + 1 ∧ zlen elist = zlen src ∧
    slice elist 0 e = slice dst 0 e ∧
    (∀ u, 0 ≤ u ≤ cur_v → vlist !z u = Some (below src u)) ∧
    (∀ i s, 0 ≤ i < e → src !z i = Some s → s ≤ cur_v) ∧
    (∀ i s, e ≤ i → src !z i = Some s → cur_v ≤ s))).
  - apply zlen_nonneg.
  - split_and!; try (done || lia || by zlia).
    + intros u Hu. replace u with 0 by lia. rewrite zlookup_zinsert_eq by lia.
      rewrite below_none; [done|]. eapply Forall_impl; [exact Hr|]. simpl. lia.
    + intros i s Hi Hsi%zlookup_elem. rewrite Forall_forall in Hr. specialize (Hr s Hsi). lia.
  - intros e [[[cur_v vlist] elist] e_size] Hei (-> & Hcur & Hlv & Hle & Hsl & Hvl & Hpre & Hpost).
    destruct (zlookup_total src e) as [v Hsrc]; [lia|].
    destruct (zlookup_total dst e) as [d Hdst]; [lia|]. wp_run.
    assert (0 ≤ v < n) as Hvn.
    { rewrite Forall_forall in Hr. by apply Hr, (zlookup_elem _ e). }
    pose proof (Hpost e v ltac:(lia) Hsrc) as Hcv.
    eapply wp_mono; [apply fill_to_ok; lia|]. intros [cur' vl] (-> & Hlv' & Hvl'). wp_run.
    pose proof (sorted_from src e v Hs Hsrc) as Hsorted.
    split_and!; try (done || lia || by zlia).
    + rewrite slice_zinsert_snoc by lia. by rewrite Hsl, (slice_snoc dst 0 e d) by (done || lia).
    + intros u Hu. rewrite Hvl'. case_decide as Hcu.
      * symmetry. f_equal. apply below_at; [done|lia| |].
        -- intros i s Hi Hsi. specialize (Hpre i s Hi Hsi). lia.
        -- intros s Hse. simplify_eq. lia.
      * apply Hvl. lia.
    + intros i s Hi Hsi. destruct (decide (i = e)) as [->|]; [simplify_eq; lia|].
      specialize (Hpre i s ltac:(lia) Hsi). lia.
    + intros i s Hi. apply Hsorted. lia.
  - intros [[[cur_v vlist] elist] e_size] (-> & Hcur & Hlv & Hle & Hsl & Hvl & Hpre & _). wp_run.
    eapply wp_mono; [apply fill_to_ok; lia|]. intros [cur' vl] (-> & Hlv' & Hvl'). simpl.
    f_equal.
    + apply zlist_eq; rewrite ?zlen_fmap, ?zlen_seqZ by lia; [lia|].
      intros u Hu. rewrite zlookup_fmap, zlookup_seqZ, Z.add_0_l by lia. simpl. rewrite Hvl'.
      case_decide; [|apply Hvl; lia]. symmetry. f_equal. apply below_at; [done|pose proof (zlen_nonneg src); lia| |].
      * intros i s Hi Hsi. specialize (Hpre i s Hi Hsi). lia.
      * intros s Hse%zlookup_range. lia.
    + rewrite <-(slice_full elist), <-(slice_full dst). by rewrite Hle, Hd.
Qed.

(** The row copy of [csr2coo]. *)
Lemma csr2coo_row (v : Z) (elist src dst : list Z) lo hi :
  0 ≤ lo ≤ hi → hi ≤ zlen elist → hi ≤ zlen src → hi ≤ zlen dst →
  wp (for_up lo hi (λ e '(src, dst),
      let* src := vset src e v in
      let* d := vget elist e in
      let* dst := vset dst e d in
      Ok (src, dst)) (src, dst))
    (λ '(src', dst'), zlen src' = zlen src ∧ zlen dst' = zlen dst ∧
      slice src' 0 hi = slice src 0 lo ++ replicate (Z.to_nat (hi - lo)) v ∧
      slice dst' 0 hi = slice dst 0 lo ++ slice elist lo hi).
Proof.
  intros Hlo He Hs Hd.
  apply (wp_for_up (λ e '(src', dst'), zlen src' = zlen src ∧ zlen dst' = zlen dst ∧
      slice src' 0 e = slice src 0 lo ++ replicate (Z.to_nat (e - lo)) v ∧
      slice dst' 0 e = slice dst 0 lo ++ slice elist lo e)); [lia| | |done].
  - rewrite (slice_nil elist) by lia. rewrite Z.sub_diag, !app_nil_r. done.
  - intros e [src' dst'] He' (Hls & Hld & Hsl & Hdl). destruct (zlookup_total elist e) as [d Hde]; [lia|].
    wp_run. split_and!; [by zlia|by zlia| |].
    + rewrite slice_zinsert_snoc, Hsl by lia.
      replace (Z.to_nat (e + 1 - lo)) with (S (Z.to_nat (e - lo))) by lia.
      by rewrite replicate_S_end, app_assoc.
    + by rewrite slice_zinsert_snoc, Hdl, (slice_snoc elist lo e d), app_assoc by (done || lia).
Qed.

Lemma csr2coo_offsets src0 dst0 g :
  zlen src0 = zlen (concat g) → zlen dst0 = zlen (concat g) →
  csr2coo src0 dst0 (offsets g) (concat g) = Ok (src_from 0 g, concat g).
Proof.
  intros Hs Hd. apply wp_eq. unfold csr2coo. unfold offsets at 1 2. rewrite zlen_offsets_from.
  pose proof (zlen_nonneg g). destruct (Z.eqb_spec (zlen g + 1) 0); [lia|].
  replace (zlen g + 1 - 1) with (zlen g) by lia.
  apply (wp_for_up (λ v '(src, dst), zlen src = zlen src0 ∧ zlen dst = zlen dst0 ∧
    slice src 0 (zlen (concat (take (Z.to_nat v) g))) = src_from 0 (take (Z.to_nat v) g) ∧
    slice dst 0 (zlen (concat (take (Z.to_nat v) g))) = concat (take (Z.to_nat v) g))).
  - apply zlen_nonneg.
  - done.
  - intros v [src dst] Hv (Hls & Hld & Hsl & Hdl).
    destruct (zlookup_total g v) as [r Hr]; [lia|].
    pose proof (concat_take_drop g (Z.to_nat v) r (zlookup_Some_nat _ _ _ Hr)) as Hcat.
    assert (take (Z.to_nat (v + 1)) g = take (Z.to_nat v) g ++ [r]) as Htake.
    { replace (Z.to_nat (v + 1)) with (S (Z.to_nat v)) by lia. by apply take_S_r, zlookup_Some_nat. }
    assert (offsets g !z v = Some (zlen (concat (take (Z.to_nat v) g)))) as Hv1.
    { unfold offsets. by rewrite zlookup_offsets_from by lia. }
    assert (offsets g !z (v + 1) = Some (zlen (concat (take (Z.to_nat v) g)) + zlen r)) as Hv2.
    { unfold offsets. rewrite zlookup_offsets_from by lia. rewrite Htake, concat_app, zlen_app.
      simpl. by rewrite app_nil_r. }
    apply (wp_bind_ok _ _ _ _ (vget_ok _ _ _ Hv1)). apply (wp_bind_ok _ _ _ _ (vget_ok _ _ _ Hv2)).
    pose proof (zlen_nonneg r). pose proof (zlen_nonneg (concat (take (Z.to_nat v) g))).
    pose proof (zlen_nonneg (concat (drop (S (Z.to_nat v)) g))).
    assert (zlen (concat g) = zlen (concat (take (Z.to_nat v) g)) + zlen r
      + zlen (concat (drop (S (Z.to_nat v)) g))) as Hlen.
    { rewrite Hcat at 1. rewrite !zlen_app. lia. }
    eapply wp_mono; [apply csr2coo_row; lia|]. intros [src' dst'] (-> & -> & Hs' & Hd').
    rewrite Htake, concat_app, zlen_app, src_from_app, zlen_take by lia. simpl. rewrite !app_nil_r.
    split_and!; try done.
    + rewrite Hs', Hsl. do 2 f_equal. unfold zlen. lia.
    + rewrite Hd', Hdl. f_equal. rewrite Hcat at 1.
      rewrite slice_app_r by lia. rewrite Z.sub_diag, slice_app_l by lia.
      replace (_ + zlen r - _) with (zlen r) by lia. apply slice_full.
  - intros [src dst] (Hls & Hld & Hsl & Hdl).
    rewrite (take_ge g) in Hsl, Hdl by (unfold zlen; lia).
    rewrite <-(slice_full src), <-(slice_full dst), Hls, Hld, Hs, Hd. by f_equal.
Qed.

(** The offsets read off the source column. *)
Lemma below_src_from v g u :
  v ≤ u ≤ v + zlen g → below (src_from v g) u = zlen (concat (take (Z.to_nat (u - v)) g)).
Proof.
  revert v. induction g as [|r g IH]; intros v Hu; simpl.
  - by rewrite take_nil.
  - rewrite zlen_cons in Hu. rewrite below_app. destruct (decide (u = v)) as [->|].
    + rewrite Z.sub_diag, !below_none; [done| |].
      * apply Forall_forall. intros x Hx%src_from_range. lia.
      * apply Forall_replicate. lia.
    + replace (Z.to_nat (u - v)) with (S (Z.to_nat (u - (v + 1)))) by lia. simpl.
      rewrite zlen_app, IH, below_all, zlen_replicate by (lia || (apply Forall_replicate; lia)). done.
Qed.

Lemma below_offsets g : below (src_from 0 g) <$> seqZ 0 (zlen g + 1) = offsets g.
Proof.
  pose proof (zlen_nonneg g). apply zlist_eq.
  - unfold offsets. rewrite zlen_fmap, zlen_seqZ, zlen_offsets_from by lia. done.
  - intros u Hu. rewrite zlen_fmap, zlen_seqZ in Hu by lia.
    rewrite zlookup_fmap, zlookup_seqZ by lia. unfold offsets.
    rewrite zlookup_offsets_from by lia. simpl. f_equal.
    rewrite below_src_from by lia. by rewrite !Z.add_0_l, Z.sub_0_r.
Qed.

Lemma below_S src u : below src (u + 1) = below src u + Z.of_nat (cnt u src).
Proof.
  unfold below. induction src as [|x src IH]; [done|].
  rewrite !filter_cons, cnt_cons.
  destruct (decide (x < u + 1)), (decide (x < u)), (decide (u = x)); rewrite ?zlen_cons; lia.
Qed.

(** A sorted column is the column of the rows it cuts its edges into. *)
Lemma sorted_src_from src n g :
  StronglySorted Z.le src → Forall (λ s, 0 ≤ s < n) src → zlen g = n →
  below src <$> seqZ 0 (n + 1) = offsets g → src_from 0 g = src.
Proof.
  intros Hs Hr <- Hb. rewrite <-below_offsets in Hb.
  apply (StronglySorted_unique Z.le); [apply src_from_sorted|done|].
  apply cnt_Permutation. intros u. destruct (decide (0 ≤ u < zlen g)) as [Hu|Hu].
  - assert (∀ w, 0 ≤ w ≤ zlen g → below src w = below (src_from 0 g) w) as Heq.
    { intros w Hw. apply (f_equal (λ l, l !z w)) in Hb.
      rewrite !zlookup_fmap, !zlookup_seqZ in Hb by lia. simpl in Hb. by simplify_eq. }
    pose proof (below_S src u) as H1. pose proof (below_S (src_from 0 g) u) as H2.
    rewrite !Heq in H1 by lia. lia.
  - rewrite !(proj2 (cnt_zero u _)); [done| |].
    + intros Hin. rewrite Forall_forall in Hr. specialize (Hr _ Hin). lia.
    + intros Hin%src_from_range. lia.
Qed.

(** ** Results *)

(** C11: from CSR to COO and back: whatever the fresh output arrays hold,
    [csr2coo] then [coo2csr] return without leaving an array, and give back the
    offsets and the edges they started from. *)
Theorem coo2csr_csr2coo vlist0 elist0 src0 dst0 vlist elist n :
  0 ≤ n → csr_okb vlist elist n = true → zlen vlist = n + 1 →
  vlist !z 0 = Some 0 → vlist !z n = Some (zlen elist) →
  zlen src0 = zlen elist → zlen dst0 = zlen elist →
  zlen vlist0 = n + 1 → zlen elist0 = zlen elist →
  (let* '(src, dst) := csr2coo src0 dst0 vlist elist in
   coo2csr vlist0 elist0 src dst n) = Ok (vlist, elist).
Proof.
  intros Hn Hok Hlen H0 Hend Hs Hd Hv0 He0.
  pose proof (offsets_csr_rows _ _ _ Hok Hn H0 Hlen) as Hoff.
  pose proof (concat_csr_rows _ _ _ Hok Hn H0 _ Hend) as Hcat. rewrite slice_full in Hcat.
  pose proof (zlen_csr_rows vlist elist n Hn) as Hg.
  set (g := csr_rows vlist elist n) in *. clearbody g. subst vlist elist.
  rewrite csr2coo_offsets by done. simpl. rewrite coo2csr_spec.
  - by rewrite <-Hg, below_offsets.
  - apply src_from_sorted.
  - apply Forall_forall. intros s Hin%src_from_range. lia.
  - done.
  - by rewrite zlen_src_from.
  - by rewrite zlen_src_from.
  - done.
Qed.

(** C12: from a COO edge list sorted by source to CSR and back: [coo2csr] then
    [csr2coo] give back the two columns. *)
Theorem csr2coo_coo2csr vlist0 elist0 src0 dst0 src dst n :
  StronglySorted Z.le src → Forall (λ s, 0 ≤ s < n) src → 0 ≤ n →
  zlen dst = zlen src →
  zlen src0 = zlen src → zlen dst0 = zlen src →
  zlen vlist0 = n + 1 → zlen elist0 = zlen src →
  (let* '(vlist, elist) := coo2csr vlist0 elist0 src dst n in
   csr2coo src0 dst0 vlist elist) = Ok (src, dst).
Proof.
  intros Hs Hr Hn Hd Hs0 Hd0 Hv0 He0. rewrite coo2csr_spec by done. simpl.
  set (vl := below src <$> seqZ 0 (n + 1)).
  assert (∀ u, 0 ≤ u ≤ n → vl !z u = Some (below src u)) as Hvl.
  { intros u Hu. unfold vl. by rewrite zlookup_fmap, zlookup_seqZ by lia. }
  assert (csr_okb vl dst n = true) as Hok.
  { apply csr_okb_intro. intros v Hv. exists (below src v), (below src (v + 1)).
    rewrite !Hvl, below_S, Hd by lia. split_and!; try done.
    - apply zlen_nonneg.
    - lia.
    - rewrite <-below_S. apply below_le. }
  assert (vl !z 0 = Some 0) as H0.
  { rewrite Hvl by lia. rewrite below_none; [done|]. eapply Forall_impl; [exact Hr|]. simpl. lia. }
  assert (vl !z n = Some (zlen dst)) as Hend.
  { rewrite Hvl by lia. rewrite below_all; [by rewrite Hd|]. eapply Forall_impl; [exact Hr|]. simpl. lia. }
  assert (zlen vl = n + 1) as Hlen. { unfold vl. rewrite zlen_fmap, zlen_seqZ; lia. }
  pose proof (offsets_csr_rows _ _ _ Hok Hn H0 Hlen) as Hoff.
  pose proof (concat_csr_rows _ _ _ Hok Hn H0 _ Hend) as Hcat. rewrite slice_full in Hcat.
  pose proof (zlen_csr_rows vl dst n Hn) as Hg.
  set (g := csr_rows vl dst n) in *. clearbody g.
  rewrite <-Hoff, <-Hcat, csr2coo_offsets by (rewrite Hcat; lia).
  by rewrite (sorted_src_from src n g).
Qed.

Lemma coo2csr_csr2coo_witness :
  (let* '(src, dst) := csr2coo [9; 9; 9] [9; 9; 9] [0; 2; 2; 3] [1; 2; 0] in
   coo2csr [7; 7; 7; 7] [7; 7; 7] src dst 3) = Ok ([0; 2; 2; 3], [1; 2; 0]).
Proof. apply coo2csr_csr2coo; (reflexivity || lia). Defined.

Lemma csr2coo_coo2csr_witness :
  (let* '(vlist, elist) := coo2csr [7; 7; 7; 7] [7; 7; 7] [0; 0; 2] [1; 2; 0] 3 in
   csr2coo [9; 9; 9] [9; 9; 9] vlist elist) = Ok ([0; 0; 2], [1; 2; 0]).
Proof.
  apply csr2coo_coo2csr; try (reflexivity || lia).
  - repeat constructor; lia.
  - repeat constructor; lia.
Defined.
