(* ===== verification/ParCompress.v ===== *)
(** * The parallel compressor

    [Laconic_parallel/core/compress.h] and [hash.h].  Three turns; in each one
    the adjacent pairs of every row are counted in [thread_num] tables, every
    pair counted at least [threshold] times becomes a rule, and every row is
    rewritten greedily from the left.  Threads of one phase work on different
    tables, buckets and output vectors, and the phases are separated by joins:
    here a phase is a loop over the thread index, and [ParThreads] shows that
    every interleaving gives the same result.  [absl::flat_hash_map] is a
    finite map; the order in which turn [k] iterates over the table of thread
    [t] is a parameter.  The main result: the output is the CSR form of the
    input with every row rewritten and the new rules appended, and no vertex
    expands to anything else than its input row. *)

From S2P Require Import Prelude Csr Grammar.

(** ** Operations *)

Definition thread_num : Z := 40.
Definition threshold : Z := 4.
Definition compress_rate : Z := 3.

(** [(size_t)x.first << 32 | x.second]. *)
Definition pair_hash (first second : Z) : Z :=
  Z.lor (u64 (Z.shiftl (u64 first) 32)) (u64 second).

Definition count_pair (table : gmap Z Z) (pair : Z) : gmap Z Z :=
  match table !! pair with
  | Some c => <[pair := u64 (c + 1)]> table
  | None => <[pair := 1]> table
  end.

Definition processpairs (pairs : list Z) (table : gmap Z Z) : gmap Z Z :=
  filter (λ kvp, ¬ kvp.2 < threshold) (foldl count_pair table pairs).

(** State of [prepare_new_id]: [start_id], [convert], [temp_role_edge],
    [temp_role_vertex], [cur_v_offset]. *)
Record new_ids := NewIds {
  start_id : Z;
  convert : gmap Z Z;
  temp_role_edge : list Z;
  temp_role_vertex : list Z;
  cur_v_offset : Z
}.

Definition prepare_one (s : new_ids) (item : Z * Z) : new_ids :=
  let left := i32 (Z.shiftr item.1 32) in
  let right := i32 item.1 in
  NewIds (u64 (start_id s + 1))
    (match convert s !! item.1 with
     | Some _ => convert s
     | None => <[item.1 := start_id s]> (convert s)
     end)
    (temp_role_edge s ++ [u32 left; u32 right])
    (temp_role_vertex s ++ [u32 (cur_v_offset s)])
    (u64 (cur_v_offset s + 2)).

(** [items] are the entries of the table in iteration order. *)
Definition prepare_new_id (items : list (Z * Z)) (start : Z) : new_ids :=
  foldl prepare_one (NewIds start ∅ [] [] 0) items.

Section replace.
Context (hash_table convert_id : list (gmap Z Z)).

(** The id of a frequent pair.  [convert_id[..][..]] would insert a missing
    key into a table that the other threads read. *)
Definition pair_id (first second : Z) : res (option Z) :=
  let table_id := i32 ((u64 first) mod thread_num) in
  let hash_value := pair_hash first second in
  let* table := vget hash_table table_id in
  match table !! hash_value with
  | None => Ok None
  | Some _ =>
      let* convert := vget convert_id table_id in
      match convert !! hash_value with
      | Some id => Ok (Some id)
      | None => Err DataRace
      end
  end.

(** The scan of one row: [for (; idx < limit; idx++) ..].  A round reads
    [edges[idx + 1]], so there are at most [length edges] rounds.  [cast] is
    the conversion of [idx] in the comparison: none in the first copy of the
    loop, to [size_t] in the second. *)
Definition scan (cast : Z → Z) (edges : list Z) (limit : Z) (st : Z * list Z * Z) : res (Z * list Z * Z) :=
  while (S (length edges)) (λ '(idx, _, _), Ok (cast idx <? limit))
    (λ '(idx, new_edge, vsize),
      let* x := vget edges idx in
      let* y := vget edges (idx + 1) in
      let* found := pair_id x y in
      match found with
      | Some id => Ok (idx + 2, new_edge ++ [i32 id], vsize + 1)
      | None => Ok (idx + 1, new_edge ++ [x], vsize + 1)
      end) st.

(** The scan, and the last neighbour if it is not in a pair. *)
Definition replace_row (cast : Z → Z) (edges : list Z) (lo hi limit : Z) (st : list Z * Z)
    : res (list Z * Z) :=
  let '(new_edge, vsize) := st in
  let* '(idx, new_edge, vsize) := scan cast edges limit (lo, new_edge, vsize) in
  if cast idx <? hi then
    let* x := vget edges (hi - 1) in
    Ok (new_edge ++ [x], vsize + 1)
  else Ok (new_edge, vsize).

(** Result: the new edge sequence and the new vertex sequence. *)
Definition replace (origin_edge_sequence origin_vertex_sequence : list Z)
    : res (list Z * list Z) :=
  let* offset := vget origin_vertex_sequence 0 in
  let origin_vertex_sequence := (λ v, v - offset) <$> origin_vertex_sequence in
  let last := zlen origin_vertex_sequence - 1 in
  let* '(new_edge, vsize, new_vertex) :=
    for_up 0 last (λ vidx '(new_edge, vsize, new_vertex),
      let new_vertex := new_vertex ++ [vsize] in
      let* lo := vget origin_vertex_sequence vidx in
      let* hi := vget origin_vertex_sequence (vidx + 1) in
      let* '(new_edge, vsize) :=
        replace_row (λ i, i) origin_edge_sequence lo hi (hi - 1) (new_edge, vsize) in
      Ok (new_edge, vsize, new_vertex)) ([], 0, []) in
  let new_vertex := new_vertex ++ [vsize] in
  let* lo := vget origin_vertex_sequence last in
  let size := zlen origin_edge_sequence in
  let* '(new_edge, _) :=
    replace_row u64 origin_edge_sequence lo size (u64 (size - 1)) (new_edge, vsize) in
  Ok (new_edge, new_vertex).
End replace.

(** First phase: the pairs of each row go to the bucket of their first
    symbol.  [input_vertex[idy + 1] - 1] is a [uint32_t]. *)
Definition alloc_row (input_edge : list Z) (lo limit : Z) (pair_buckets : list (list Z))
    : res (list (list Z)) :=
  let* '(_, pair_buckets) :=
    while (S (length input_edge)) (λ '(idx, _), Ok (idx <? limit))
      (λ '(idx, pair_buckets),
        let* x := vget input_edge idx in
        let* y := vget input_edge (idx + 1) in
        let* pair_buckets := vpush pair_buckets (i32 (x mod thread_num)) (pair_hash x y) in
        Ok (idx + 1, pair_buckets)) (lo, pair_buckets) in
  Ok pair_buckets.

(** [input_vertex.size() - 1] wraps around for an empty vector, and the first
    access is then out of bounds. *)
Definition alloc_pairs (input_edge input_vertex : list Z) (pair_buckets : list (list Z))
    : res (list (list Z)) :=
  if zlen input_vertex =? 0 then Err OutOfBounds else
  for_up 0 (zlen input_vertex - 1) (λ idy pair_buckets,
    let* lo := vget input_vertex idy in
    let* hi := vget input_vertex (idy + 1) in
    alloc_row input_edge lo (u32 (hi - 1)) pair_buckets) pair_buckets.

(** First id of each thread. *)
Fixpoint start_ids (start : Z) (tables : list (gmap Z Z)) : list Z :=
  match tables with
  | [] => []
  | t :: tables' => start :: start_ids (u64 (start + Z.of_nat (size t))) tables'
  end.

(** The bucket of thread [idx]: its edges and its vertices. *)
Definition split_bucket (input_edge input_vertex : list Z) (thread_size idx : Z)
    : res (list Z * list Z) :=
  if idx <? thread_num - 1 then
    let* vertices := vrange input_vertex (idx * thread_size) ((idx + 1) * thread_size) in
    let* a := vget input_vertex (idx * thread_size) in
    let* b := vget input_vertex ((idx + 1) * thread_size) in
    let* edges := vrange input_edge a b in
    Ok (i32 <$> edges, i32 <$> vertices)
  else
    let* a := vget input_vertex ((thread_num - 1) * thread_size) in
    let* edges := vrange input_edge a (zlen input_edge) in
    let* vertices := vrange input_vertex ((thread_num - 1) * thread_size) (zlen input_vertex - 1) in
    Ok (i32 <$> edges, i32 <$> vertices).

(** Concatenate the parts of the threads, shifting each part's offsets by the
    number of edges before it. *)
Definition append_part (acc : list Z * list Z) (part : list Z * list Z) : list Z * list Z :=
  let '(input_edge, input_vertex) := acc in
  let '(edges, vertices) := part in
  (input_edge ++ (u32 <$> edges),
   input_vertex ++ ((λ v, u32 (v + zlen input_edge)) <$> vertices)).

Record rstate := RState {
  input_edge : list Z;
  input_vertex : list Z;
  max_id : Z;
  pair_buckets : list (list Z)
}.

Definition turn (iter : Z → gmap Z Z → list (Z * Z)) (len_vertex : Z) (s : rstate) : res rstate :=
  let* buckets := alloc_pairs (input_edge s) (input_vertex s) (pair_buckets s) in
  let hash_table := (λ pairs, processpairs pairs ∅) <$> buckets in
  let new_start_id := start_ids (u32 (max_id s + 1)) hash_table in
  let ids := (λ '(t, (table, start)), prepare_new_id (iter t table) start)
    <$> zip (seqZ 0 thread_num) (zip hash_table new_start_id) in
  let convert_id := convert <$> ids in
  let thread_size := len_vertex / thread_num in
  let* parts := mapr (λ idx,
      let* '(edges, vertices) := split_bucket (input_edge s) (input_vertex s) thread_size idx in
      replace hash_table convert_id edges vertices) (seqZ 0 thread_num) in
  let '(edge, vertex) := foldl append_part ([], []) parts in
  let '(edge, vertex) :=
    foldl append_part (edge, vertex) ((λ i, (temp_role_edge i, temp_role_vertex i)) <$> ids) in
  let vertex := vertex ++ [u32 (zlen edge)] in
  Ok (RState edge vertex (u32 (zlen vertex - 2)) buckets).

(** The constructor [Repair(input_edge, input_vertex, max_symbol)].  A wrong
    [max_symbol] is only reported. *)
Definition Repair (iter : Z → Z → gmap Z Z → list (Z * Z)) (input_edge input_vertex : list Z)
    (max_symbol : Z) : res rstate :=
  let len_vertex := zlen input_vertex in
  for_up 1 (compress_rate + 1) (λ k s, turn (iter k) len_vertex s)
    (RState input_edge input_vertex max_symbol (replicate (Z.to_nat thread_num) [])).

#[local] Arguments replace_row : simpl never.
#[local] Arguments scan : simpl never.

(** ** Specification *)

(** Greedy replacement of pairs, from the left. *)
Fixpoint rewrite_row (conv : Z → Z → option Z) (xs : list Z) : list Z :=
  match xs with
  | a :: ((b :: xs') as t) =>
      match conv a b with
      | Some id => id :: rewrite_row conv xs'
      | None => a :: rewrite_row conv t
      end
  | _ => xs
  end.

(** The offsets of the rows of [g], the last one excluded. *)
Fixpoint starts_from (s : Z) (g : list (list Z)) : list Z :=
  match g with
  | [] => []
  | r :: g' => s :: starts_from (s + zlen r) g'
  end.

(** The two symbols of a hashed pair. *)
Definition rule_of (item : Z * Z) : list Z := [item.1 / 2 ^ 32; item.1 mod 2 ^ 32].

(** ** Rewriting rows *)

Section rewrite.
Context (conv : Z → Z → option Z).

Lemma rewrite_row_ind (P : list Z → Prop) :
  P [] → (∀ a, P [a]) →
  (∀ a b xs id, conv a b = Some id → P xs → P (a :: b :: xs)) →
  (∀ a b xs, conv a b = None → P (b :: xs) → P (a :: b :: xs)) →
  ∀ xs, P xs.
Proof using.
  intros Hnil Hone Hsome Hnone xs. remember (length xs) as m eqn:Hm.
  revert xs Hm. induction m as [m IH] using lt_wf_ind. intros [|a [|b xs]] ->; [done..|].
  destruct (conv a b) as [id|] eqn:E.
  - eapply Hsome; [done|]. apply (IH (length xs)); simpl; [lia|done].
  - eapply Hnone; [done|]. apply (IH (length (b :: xs))); simpl; [lia|done].
Qed.

Lemma rewrite_row_some a b xs id :
  conv a b = Some id → rewrite_row conv (a :: b :: xs) = id :: rewrite_row conv xs.
Proof using. intros H. simpl. by rewrite H. Qed.

Lemma rewrite_row_none a b xs :
  conv a b = None → rewrite_row conv (a :: b :: xs) = a :: rewrite_row conv (b :: xs).
Proof using. intros H. simpl. by rewrite H. Qed.

Lemma rewrite_row_length xs : zlen (rewrite_row conv xs) ≤ zlen xs.
Proof using.
  induction xs as [|a|a b xs id H IH|a b xs H IH] using rewrite_row_ind; [done..| |].
  - rewrite (rewrite_row_some _ _ _ _ H), !zlen_cons. lia.
  - rewrite (rewrite_row_none _ _ _ H), !zlen_cons in *. lia.
Qed.

Lemma zlen_concat_rewrite g : zlen (concat (rewrite_row conv <$> g)) ≤ zlen (concat g).
Proof using.
  induction g as [|r g IH]; [done|]. rewrite fmap_cons. simpl. rewrite !zlen_app.
  pose proof (rewrite_row_length r). lia.
Qed.

Lemma rewrite_row_nonempty xs : xs ≠ [] → rewrite_row conv xs ≠ [].
Proof using. destruct xs as [|a [|b xs]]; simpl; [done..|]. by destruct (conv a b). Qed.

Lemma rewrite_row_Forall (P : Z → Prop) xs :
  (∀ a b id, conv a b = Some id → P id) → Forall P xs → Forall P (rewrite_row conv xs).
Proof using.
  intros Hid. induction xs as [|a|a b xs id H IH|a b xs H IH] using rewrite_row_ind; intros Hxs; [done..| |].
  - rewrite (rewrite_row_some _ _ _ _ H). apply Forall_cons in Hxs as [_ Hxs].
    apply Forall_cons in Hxs as [_ Hxs]. constructor; [by eapply Hid|by apply IH].
  - rewrite (rewrite_row_none _ _ _ H). apply Forall_cons in Hxs as [? Hxs]. constructor; [done|by apply IH].
Qed.

(** Rewriting a row with rules of the graph does not change its expansion. *)
Lemma derives_rewrite g n xs l k :
  (∀ a b id, conv a b = Some id → n ≤ id ∧ g !z id = Some [a; b]) →
  derives g n xs l k → ∃ k', derives g n (rewrite_row conv xs) l k'.
Proof using.
  intros Hconv. revert l k.
  induction xs as [|a|a b xs id H IH|a b xs H IH] using rewrite_row_ind; intros l k Hd; [by eauto..| |].
  - rewrite (rewrite_row_some _ _ _ _ H). destruct (Hconv _ _ _ H) as [Hid Hrow].
    apply (derives_app_inv _ _ [a; b] xs) in Hd as (l1 & l2 & k1 & k2 & -> & -> & Hab & Hd).
    destruct (IH _ _ Hd) as [k' Hd']. eexists. by eapply derives_rule.
  - rewrite (rewrite_row_none _ _ _ H).
    apply (derives_app_inv _ _ [a] (b :: xs)) in Hd as (l1 & l2 & k1 & k2 & -> & -> & Ha & Hd).
    destruct (IH _ _ Hd) as [k' Hd']. eexists. by apply (derives_app _ _ [a]).
Qed.

(** A turn on the graph: every row rewritten, the new rules appended. *)
Lemma derives_turn g rules n xs l k :
  (∀ a b id, conv a b = Some id →
     n ≤ id ∧ ((rewrite_row conv <$> g) ++ rules) !z id = Some [a; b]) →
  derives g n xs l k →
  ∃ k', derives ((rewrite_row conv <$> g) ++ rules) n (rewrite_row conv xs) l k'.
Proof using.
  intros Hconv Hd. set (g' := _ ++ rules) in *.
  assert (∃ k', derives g' n xs l k') as [k' Hd']; [|by eapply derives_rewrite].
  induction Hd as [|x xs l k Hx _ [k' IH]|x xs row l1 l2 k1 k2 Hx Hrow _ [k1' IH1] _ [k2' IH2]].
  - eexists. constructor.
  - eexists. by constructor.
  - destruct (derives_rewrite g' n row l1 k1' Hconv IH1) as [k1'' IH1'].
    eexists. eapply derives_rule; [done| |done|done].
    pose proof (zlookup_range _ _ _ Hrow). unfold g'.
    rewrite zlookup_app_l by (rewrite zlen_fmap; lia). by rewrite zlookup_fmap, Hrow.
Qed.
End rewrite.

(** ** Offsets *)

Lemma offsets_from_starts s g : offsets_from s g = starts_from s g ++ [s + zlen (concat g)].
Proof.
  revert s. induction g as [|r g IH]; intros s; simpl; [by rewrite Z.add_0_r|].
  rewrite IH, zlen_app. simpl. do 3 f_equal. lia.
Qed.

Lemma zlen_starts_from s g : zlen (starts_from s g) = zlen g.
Proof. revert s. induction g as [|r g IH]; intros s; simpl; [done|]. by rewrite !zlen_cons, IH. Qed.

Lemma starts_from_app s g1 g2 :
  starts_from s (g1 ++ g2) = starts_from s g1 ++ starts_from (s + zlen (concat g1)) g2.
Proof.
  revert s. induction g1 as [|r g IH]; intros s; simpl; [by rewrite Z.add_0_r|].
  rewrite IH, zlen_app. do 3 f_equal. lia.
Qed.

Lemma starts_from_shift s d g : (λ v, v + d) <$> starts_from s g = starts_from (s + d) g.
Proof.
  revert s. induction g as [|r g IH]; intros s; simpl; [done|]. rewrite IH. do 2 f_equal. lia.
Qed.

Lemma zlookup_starts_from s g v :
  0 ≤ v < zlen g → starts_from s g !z v = Some (s + zlen (concat (take (Z.to_nat v) g))).
Proof.
  intros Hv. rewrite <-zlookup_offsets_from by lia. rewrite offsets_from_starts.
  by rewrite zlookup_app_l by (rewrite zlen_starts_from; lia).
Qed.

Lemma starts_from_range s g x : x ∈ starts_from s g → s ≤ x ≤ s + zlen (concat g).
Proof.
  revert s. induction g as [|r g IH]; intros s; simpl; [by intros ?%not_elem_of_nil|].
  pose proof (zlen_nonneg r). pose proof (zlen_nonneg (concat g)). rewrite zlen_app.
  intros [->|Hx]%elem_of_cons; [lia|]. specialize (IH _ Hx). lia.
Qed.

Lemma slice_concat (g : list (list Z)) a b :
  0 ≤ a ≤ b → b ≤ zlen g →
  slice (concat g) (zlen (concat (take (Z.to_nat a) g))) (zlen (concat (take (Z.to_nat b) g)))
    = concat (slice g a b).
Proof.
  intros Ha Hb.
  assert (take (Z.to_nat b) g = take (Z.to_nat a) g ++ slice g a b) as Hsplit.
  { replace (take (Z.to_nat b) g) with (slice g 0 b) by (unfold slice; by rewrite drop_0, Z.sub_0_r).
    rewrite <-(slice_app g 0 a b) by lia. unfold slice at 1. by rewrite drop_0, Z.sub_0_r. }
  rewrite <-(take_drop (Z.to_nat b) g) at 1. rewrite Hsplit, !concat_app, <-app_assoc, zlen_app.
  pose proof (zlen_nonneg (concat (take (Z.to_nat a) g))).
  rewrite slice_app_r by lia. rewrite Z.sub_diag, Z.add_simpl_l, slice_app_l by lia. apply slice_full.
Qed.

Lemma slice_offsets g a b :
  0 ≤ a ≤ b → b ≤ zlen g →
  slice (offsets g) a b = starts_from (zlen (concat (take (Z.to_nat a) g))) (slice g a b).
Proof.
  intros Ha Hb. unfold offsets. rewrite offsets_from_starts, slice_app_l by (rewrite ?zlen_starts_from; lia).
  apply zlist_eq.
  - rewrite zlen_slice, zlen_starts_from, zlen_slice by (rewrite ?zlen_starts_from; lia). done.
  - intros i Hi. rewrite zlen_slice in Hi by (rewrite ?zlen_starts_from; lia).
    rewrite zlookup_slice, !zlookup_starts_from by (rewrite ?zlen_slice; lia). f_equal.
    rewrite Z.add_0_l, <-zlen_app, <-concat_app. do 2 f_equal.
    replace (Z.to_nat (a + i)) with (Z.to_nat a + Z.to_nat i)%nat by lia.
    rewrite <-take_take_drop. f_equal. unfold slice. rewrite take_take. f_equal. lia.
Qed.

(** ** The replacement phase *)

Section replace_ok.
Context (hash_table convert_id : list (gmap Z Z)) (conv : Z → Z → option Z).
Context (Hconv : ∀ a b, 0 ≤ a ≤ INT_MAX → 0 ≤ b ≤ INT_MAX →
  pair_id hash_table convert_id a b = Ok (conv a b)).
Context (Hid : ∀ a b id, conv a b = Some id → 0 ≤ id ≤ INT_MAX).

Local Abbreviation rr := (rewrite_row conv).

(** One row. *)
Lemma replace_row_ok cast edges lo hi new_edge vsize :
  Forall (λ x, 0 ≤ x ≤ INT_MAX) edges → 0 ≤ lo ≤ hi → hi ≤ zlen edges →
  (∀ i, 0 ≤ i ≤ hi → cast i = i) →
  replace_row hash_table convert_id cast edges lo hi (hi - 1) (new_edge, vsize) =
    Ok (new_edge ++ rr (slice edges lo hi), vsize + zlen (rr (slice edges lo hi))).
Proof using Hconv Hid.
  intros He Hlo Hhi Hcast. apply wp_eq. unfold replace_row. apply wp_bind. unfold scan.
  apply (wp_while_rel (λ '(idx, ne, vs) m, lo ≤ idx ≤ hi ∧ m = Z.to_nat (hi - idx) ∧
    ne ++ rr (slice edges idx hi) = new_edge ++ rr (slice edges lo hi) ∧
    vs + zlen (rr (slice edges idx hi)) = vsize + zlen (rr (slice edges lo hi)))
    (Z.to_nat (hi - lo))).
  - split_and!; done || lia.
  - unfold zlen in Hhi. lia.
  - intros [[idx ne] vs] m (Hidx & -> & Hne & Hvs). simpl. rewrite Hcast by lia.
    destruct (Z.ltb_spec idx (hi - 1)) as [Hlt|Hge].
    + destruct (zlookup_total edges idx) as [x Hx]; [lia|].
      destruct (zlookup_total edges (idx + 1)) as [y Hy]; [lia|]. wp_run.
      rewrite Forall_forall in He. rewrite Hconv by (by apply He; eapply zlookup_elem). simpl.
      rewrite (slice_cons edges idx hi x), (slice_cons edges (idx + 1) hi y) in Hne, Hvs by (done || lia).
      destruct (conv x y) as [id|] eqn:Hc; simpl.
      * rewrite (rewrite_row_some conv x y _ id Hc) in Hne, Hvs. rewrite zlen_cons in Hvs.
        replace (idx + 1 + 1) with (idx + 2) in * by lia.
        rewrite i32_small by (by eapply Hid). exists (Z.to_nat (hi - (idx + 2))).
        split_and!; try lia. by rewrite <-app_assoc.
      * rewrite (rewrite_row_none conv x y _ Hc) in Hne, Hvs. rewrite zlen_cons in Hvs.
        exists (Z.to_nat (hi - (idx + 1))).
        rewrite (slice_cons edges (idx + 1) hi y) by (done || lia).
        split_and!; try lia. by rewrite <-app_assoc.
    + simpl. destruct (Z.ltb_spec idx hi) as [Hlt|].
      * assert (idx = hi - 1) as -> by lia. destruct (zlookup_total edges (hi - 1)) as [x Hx]; [lia|].
        wp_run. rewrite (slice_cons edges (hi - 1) hi x), slice_nil in Hne, Hvs by (done || lia).
        simpl in Hne, Hvs. rewrite Hne. f_equal. change (zlen [x]) with 1 in Hvs. lia.
      * rewrite slice_nil in Hne, Hvs by lia. simpl in *. rewrite app_nil_r in Hne. subst ne.
        f_equal. change (zlen (@nil Z)) with 0 in Hvs. lia.
Qed.

(** One bucket of rows. *)
Lemma replace_ok o gb :
  gb ≠ [] → concat gb ≠ [] → Forall (Forall (λ x, 0 ≤ x ≤ INT_MAX)) gb →
  zlen (concat gb) ≤ INT_MAX →
  replace hash_table convert_id (concat gb) (starts_from o gb) =
    Ok (concat (rr <$> gb), starts_from 0 (rr <$> gb)).
Proof using Hconv Hid.
  intros Hgb Hcat Hrows Hsize. apply wp_eq. unfold replace.
  apply zlen_pos in Hgb, Hcat. pose proof (Forall_concat_rows _ _ Hrows) as Hall.
  assert (starts_from o gb !z 0 = Some o) as H0.
  { rewrite zlookup_starts_from by lia. simpl. f_equal. zlen_simpl. lia. }
  rewrite (vget_ok _ _ _ H0). simpl. rewrite (starts_from_shift o (- o)).
  rewrite Z.add_opp_diag_r, zlen_starts_from.
  assert (∀ v r, gb !z v = Some r → slice (concat gb) (zlen (concat (take (Z.to_nat v) gb)))
    (zlen (concat (take (Z.to_nat (v + 1)) gb))) = r) as Hslice.
  { intros v r Hr. pose proof (zlookup_range _ _ _ Hr). rewrite slice_concat by lia.
    rewrite (slice_cons gb v _ r), slice_nil by (done || lia). simpl. apply app_nil_r. }
  assert (∀ v r, gb !z v = Some r → take (Z.to_nat (v + 1)) gb = take (Z.to_nat v) gb ++ [r]) as Htake.
  { intros v r Hr. pose proof (zlookup_range _ _ _ Hr).
    replace (Z.to_nat (v + 1)) with (S (Z.to_nat v)) by lia. by apply take_S_r, zlookup_Some_nat. }
  assert (∀ v, zlen (concat (take (Z.to_nat v) gb)) ≤ zlen (concat gb)) as Hle.
  { intros v. rewrite <-(take_drop (Z.to_nat v) gb) at 2. rewrite concat_app, zlen_app.
    pose proof (zlen_nonneg (concat (drop (Z.to_nat v) gb))). lia. }
  apply wp_bind, (wp_for_up (λ v '(ne, vs, nv), ne = concat (rr <$> take (Z.to_nat v) gb) ∧
    vs = zlen ne ∧ nv = starts_from 0 (rr <$> take (Z.to_nat v) gb))); [lia|done| |].
  - intros v [[ne vs] nv] Hv (-> & -> & ->). destruct (zlookup_total gb v) as [r Hr]; [lia|].
    rewrite (vget_ok _ _ _ (zlookup_starts_from 0 gb v ltac:(lia))). simpl.
    rewrite (vget_ok _ _ _ (zlookup_starts_from 0 gb (v + 1) ltac:(lia))). simpl.
    rewrite !Z.add_0_l, replace_row_ok; rewrite ?(Hslice v r Hr); [|done| |apply Hle|done].
    + simpl. rewrite (Htake v r Hr), fmap_app, concat_app, starts_from_app. simpl.
      rewrite app_nil_r, zlen_app. done.
    + rewrite (Htake v r Hr), concat_app, zlen_app. pose proof (zlen_nonneg (concat [r])).
      pose proof (zlen_nonneg (concat (take (Z.to_nat v) gb))). lia.
  - intros [[ne vs] nv] (-> & -> & ->). destruct (zlookup_total gb (zlen gb - 1)) as [r Hr]; [lia|].
    rewrite (vget_ok _ _ _ (zlookup_starts_from 0 gb (zlen gb - 1) ltac:(lia))). simpl.
    assert (take (Z.to_nat (zlen gb - 1 + 1)) gb = gb) as Hfull by (apply take_ge; unfold zlen; lia).
    pose proof (Hslice _ _ Hr) as Hsl. pose proof (Htake _ _ Hr) as Htk. rewrite Hfull in Hsl, Htk.
    unfold INT_MAX in Hsize.
    assert (∀ i, 0 ≤ i ≤ zlen (concat gb) → u64 i = i) as Hcast.
    { intros i Hi. unfold wrapu. apply Z.mod_small. lia. }
    rewrite Hcast by lia.
    rewrite !Z.add_0_l, replace_row_ok; rewrite ?Hsl; [|done| |done|done].
    + simpl. set (gi := take (Z.to_nat (zlen gb - 1)) gb) in *. clearbody gi.
      assert (rr <$> gb = (rr <$> gi) ++ [rr r]) as -> by (by rewrite Htk, fmap_app).
      rewrite concat_app, starts_from_app. simpl. by rewrite app_nil_r, Z.add_0_l.
    + specialize (Hle (zlen gb - 1)). pose proof (zlen_nonneg (concat (take (Z.to_nat (zlen gb - 1)) gb))). lia.
Qed.
End replace_ok.

(** ** Hashed pairs *)

Lemma u32_small x : 0 ≤ x ≤ INT_MAX → u32 x = x.
Proof. intros Hx. unfold INT_MAX in *. apply wrapu_small. lia. Qed.

Lemma u64_small x : 0 ≤ x < 2 ^ 64 → u64 x = x.
Proof. apply wrapu_small. Qed.

Lemma u32_i32 x : u32 (i32 x) = u32 x.
Proof.
  unfold wrapu, wraps. rewrite Zminus_mod_idemp_l. f_equal. lia.
Qed.

Lemma pair_hash_eq a b : 0 ≤ a ≤ INT_MAX → 0 ≤ b ≤ INT_MAX → pair_hash a b = a * 2 ^ 32 + b.
Proof.
  unfold INT_MAX. intros Ha Hb. unfold pair_hash. rewrite (u64_small a), (u64_small b) by lia.
  rewrite u64_small; rewrite Z.shiftl_mul_pow2 by lia; [|lia].
  assert (Z.land (a * 2 ^ 32) b = 0) as Hland.
  { apply Z.bits_inj'. intros i Hi. rewrite Z.land_spec, Z.bits_0.
    destruct (decide (i < 32)); [by rewrite Z.mul_pow2_bits_low|].
    replace b with (b mod 2 ^ 32) by (apply Z.mod_small; lia).
    rewrite Z.mod_pow2_bits_high by lia. apply andb_false_r. }
  rewrite Z.add_nocarry_lxor by done. symmetry. by apply Z.lxor_lor.
Qed.

Lemma pair_hash_rule a b c :
  0 ≤ a ≤ INT_MAX → 0 ≤ b ≤ INT_MAX → rule_of (pair_hash a b, c) = [a; b].
Proof.
  intros Ha Hb. unfold rule_of. simpl. rewrite pair_hash_eq by done. unfold INT_MAX in *.
  rewrite Z.div_add_l, Z.div_small by lia.
  rewrite (Z.add_comm (a * _)), Z.mod_add, Z.mod_small by lia. by rewrite Z.add_0_r.
Qed.

Lemma pair_hash_inj a b a' b' :
  0 ≤ a ≤ INT_MAX → 0 ≤ b ≤ INT_MAX → 0 ≤ a' ≤ INT_MAX → 0 ≤ b' ≤ INT_MAX →
  pair_hash a b = pair_hash a' b' → a = a' ∧ b = b'.
Proof. intros ????. rewrite !pair_hash_eq by done. unfold INT_MAX in *. lia. Qed.

(** ** Counting pairs *)

Lemma foldl_count pairs (table : gmap Z Z) k :
  (∀ c, table !! k = Some c → 1 ≤ c) →
  default 0 (table !! k) + zlen pairs < 2 ^ 64 →
  foldl count_pair table pairs !! k =
    if decide (0 < default 0 (table !! k) + Z.of_nat (cnt k pairs)) then
      Some (default 0 (table !! k) + Z.of_nat (cnt k pairs)) else None.
Proof.
  revert table. induction pairs as [|p pairs IH]; intros table Hpos Hlen; simpl.
  - rewrite cnt_nil. destruct (table !! k) as [c|] eqn:Hk; simpl.
    + specialize (Hpos c eq_refl). rewrite decide_True by lia. f_equal. lia.
    + done.
  - rewrite zlen_cons in Hlen. pose proof (zlen_nonneg pairs).
    assert (count_pair table p !! k =
      if decide (k = p) then Some (default 0 (table !! k) + 1) else table !! k) as Hstep.
    { unfold count_pair. destruct (decide (k = p)) as [->|].
      - destruct (table !! p) as [c|] eqn:Hp; simpl in *; rewrite lookup_insert_eq; [|done].
        specialize (Hpos c eq_refl). by rewrite u64_small by lia.
      - by destruct (table !! p); rewrite lookup_insert_ne by done. }
    assert (0 ≤ default 0 (table !! k)).
    { destruct (table !! k) as [c|]; simpl; [specialize (Hpos c eq_refl)|]; lia. }
    rewrite IH, Hstep, cnt_cons; rewrite ?Hstep.
    + destruct (decide (k = p)); simpl.
      * rewrite !decide_True by lia. f_equal. lia.
      * done.
    + destruct (decide (k = p)); [|done]. intros c [= <-]. lia.
    + destruct (decide (k = p)); simpl; lia.
Qed.

(** The table of a thread holds the pairs counted at least [threshold] times,
    each with its count. *)
Lemma processpairs_lookup pairs k :
  zlen pairs < 2 ^ 64 →
  processpairs pairs ∅ !! k =
    if decide (threshold ≤ Z.of_nat (cnt k pairs)) then Some (Z.of_nat (cnt k pairs)) else None.
Proof.
  intros Hlen. unfold processpairs.
  assert (foldl count_pair ∅ pairs !! k =
    if decide (0 < Z.of_nat (cnt k pairs)) then Some (Z.of_nat (cnt k pairs)) else None) as Hf.
  { rewrite foldl_count; rewrite ?lookup_empty; simpl; done || lia. }
  unfold threshold. destruct (decide (4 ≤ Z.of_nat (cnt k pairs))).
  - apply map_lookup_filter_Some. rewrite Hf, decide_True by lia. split; [done|]. simpl. unfold threshold. lia.
  - apply map_lookup_filter_None. right. intros c. rewrite Hf. case_decide; [|done].
    intros [= <-]. simpl. unfold threshold. lia.
Qed.

Lemma cnt_NoDup_bound (ks l : list Z) (c : nat) :
  NoDup ks → (∀ k, k ∈ ks → (c ≤ cnt k l)%nat) → (c * length ks ≤ length l)%nat.
Proof.
  intros Hnd. revert l. induction Hnd as [|k ks Hk _ IH]; intros l Hc; simpl; [lia|].
  specialize (IH (filter (λ w, w ≠ k) l)).
  assert (length l = cnt k l + length (filter (λ w, w ≠ k) l))%nat as Hlen.
  { unfold cnt. clear. induction l as [|x l IH]; [done|]. rewrite !filter_cons. simpl.
    destruct (decide (k = x)), (decide (x ≠ k)); simpl; try lia; congruence. }
  assert (c * length ks ≤ length (filter (λ w, w ≠ k) l))%nat.
  { apply IH. intros w Hw. assert (w ≠ k) as Hne by congruence.
    assert (cnt w (filter (λ w, w ≠ k) l) = cnt w l) as ->.
    { clear -Hne. induction l as [|x l IH]; [done|]. rewrite filter_cons.
      destruct (decide (x ≠ k)); rewrite ?cnt_cons, IH; [done|].
      destruct (decide (w = x)); [subst; tauto|done]. }
    apply Hc. by constructor. }
  specialize (Hc k ltac:(constructor)). lia.
Qed.

Lemma processpairs_size pairs :
  zlen pairs < 2 ^ 64 → threshold * Z.of_nat (size (processpairs pairs ∅)) ≤ zlen pairs.
Proof.
  intros Hlen. rewrite <-length_map_to_list, <-(length_fmap fst).
  pose proof (cnt_NoDup_bound (map_to_list (processpairs pairs ∅)).*1 pairs 4) as Hb.
  unfold threshold, zlen in *. enough (4 * length (map_to_list (processpairs pairs ∅)).*1 ≤ length pairs)%nat
    by lia. apply Hb; clear Hb.
  - apply NoDup_fst_map_to_list.
  - intros k ([k' c] & -> & Hin)%list_elem_of_fmap. apply elem_of_map_to_list in Hin. simpl.
    rewrite processpairs_lookup in Hin by done. case_decide as Hd; [|done]. unfold threshold in Hd. lia.
Qed.

(** ** Collecting the pairs *)

Fixpoint adjacent (xs : list Z) : list (Z * Z) :=
  match xs with
  | a :: ((b :: _) as t) => (a, b) :: adjacent t
  | _ => []
  end.

Definition row_pairs (g : list (list Z)) : list (Z * Z) := concat (adjacent <$> g).

Lemma adjacent_elem a b xs : (a, b) ∈ adjacent xs → a ∈ xs ∧ b ∈ xs.
Proof.
  induction xs as [|x [|y xs] IH]; [by intros ?%not_elem_of_nil..|].
  change (adjacent (x :: y :: xs)) with ((x, y) :: adjacent (y :: xs)).
  intros [[= -> ->]|Hin]%elem_of_cons; [by repeat constructor|].
  destruct (IH Hin). split; by constructor.
Qed.

Lemma zlen_adjacent xs : zlen (adjacent xs) ≤ zlen xs.
Proof.
  induction xs as [|x [|y xs] IH]; [done..|].
  change (adjacent (x :: y :: xs)) with ((x, y) :: adjacent (y :: xs)).
  rewrite !zlen_cons in *. lia.
Qed.

Lemma row_pairs_elem a b g : (a, b) ∈ row_pairs g → ∃ r, r ∈ g ∧ a ∈ r ∧ b ∈ r.
Proof.
  unfold row_pairs. intros (ps & Hab & Hps)%elem_of_concat.
  apply list_elem_of_fmap in Hps as (r & -> & Hr). exists r. split; [done|]. by apply adjacent_elem.
Qed.

Lemma zlen_row_pairs g : zlen (row_pairs g) ≤ zlen (concat g).
Proof.
  unfold row_pairs. induction g as [|r g IH]; [done|]. rewrite fmap_cons. simpl.
  rewrite !zlen_app. pose proof (zlen_adjacent r). lia.
Qed.

Lemma zlen_concat_zinsert (g : list (list Z)) i r r' :
  g !z i = Some r → zlen (concat (zinsert g i r')) = zlen (concat g) - zlen r + zlen r'.
Proof.
  intros Hr%zlookup_Some_nat. unfold zinsert.
  rewrite (concat_take_drop g _ r Hr). rewrite insert_take_drop by (by eapply lookup_lt_Some).
  rewrite concat_app. simpl. rewrite !zlen_app. lia.
Qed.

(** [pb] is [pb0] with the pairs [ps] distributed. *)
Record bucketed (pb0 pb : list (list Z)) (ps : list (Z * Z)) : Prop := {
  bk_len : zlen pb = zlen pb0;
  bk_total : zlen (concat pb) = zlen (concat pb0) + zlen ps;
  bk_get : ∀ t b, pb0 !z t = Some b → pb !z t = Some
    (b ++ ((λ p, pair_hash p.1 p.2) <$> filter (λ p, p.1 mod thread_num = t) ps))
}.

Lemma bucketed_nil pb : bucketed pb pb [].
Proof.
  split; [done|by zlia|]. intros t b Hb. by rewrite app_nil_r.
Qed.

Lemma bucketed_push pb0 pb ps x y :
  bucketed pb0 pb ps → zlen pb0 = thread_num → 0 ≤ x →
  wp (vpush pb (i32 (x mod thread_num)) (pair_hash x y)) (λ pb', bucketed pb0 pb' (ps ++ [(x, y)])).
Proof.
  intros [Hlen Htot Hget] HT Hx. unfold thread_num in *.
  assert (0 ≤ x mod 40 < 40) as Hm by (apply Z.mod_pos_bound; lia).
  rewrite i32_small by (unfold INT_MAX; lia).
  destruct (zlookup_total pb0 (x mod 40)) as [b Hb]; [lia|].
  pose proof (Hget _ _ Hb) as Hpb. erewrite vpush_ok by done. simpl. split.
  - by rewrite zlen_zinsert.
  - rewrite (zlen_concat_zinsert _ _ _ _ Hpb), Htot, !zlen_app. change (zlen [_]) with 1. lia.
  - intros t b' Hb'. unfold thread_num. rewrite filter_app, fmap_app, filter_cons, filter_nil. simpl.
    destruct (decide (x mod 40 = t)) as [<-|Hne].
    + simplify_eq. rewrite zlookup_zinsert_eq by lia. by rewrite <-app_assoc.
    + rewrite zlookup_zinsert_ne by lia. simpl. rewrite app_nil_r. by apply Hget.
Qed.

Lemma alloc_row_ok pb0 pb ps edges lo hi :
  bucketed pb0 pb ps → zlen pb0 = thread_num → Forall (λ x, 0 ≤ x) edges →
  0 ≤ lo ≤ hi → hi ≤ zlen edges →
  wp (alloc_row edges lo (hi - 1) pb)
    (λ pb', bucketed pb0 pb' (ps ++ adjacent (slice edges lo hi))).
Proof.
  intros Hb HT He Hlo Hhi. unfold alloc_row. apply wp_bind.
  apply (wp_while_rel (λ '(idx, pb') m, lo ≤ idx ≤ hi ∧ m = Z.to_nat (hi - idx) ∧
    ∃ ps', bucketed pb0 pb' ps' ∧
      ps' ++ adjacent (slice edges idx hi) = ps ++ adjacent (slice edges lo hi)) (Z.to_nat (hi - lo))).
  - split_and!; try lia. by exists ps.
  - unfold zlen in Hhi. lia.
  - intros [idx pb'] m (Hidx & -> & ps' & Hb' & Hps). simpl.
    destruct (Z.ltb_spec idx (hi - 1)) as [Hlt|Hge].
    + destruct (zlookup_total edges idx) as [x Hx]; [lia|].
      destruct (zlookup_total edges (idx + 1)) as [y Hy]; [lia|]. wp_run.
      rewrite Forall_forall in He.
      eapply wp_mono; [apply bucketed_push; [done..|by eapply He, zlookup_elem]|].
      intros pb'' Hb''. wp_run. exists (Z.to_nat (hi - (idx + 1))). split; [|lia].
      split_and!; try lia. exists (ps' ++ [(x, y)]). split; [done|]. rewrite <-Hps, <-app_assoc.
      by rewrite (slice_cons edges idx hi x), (slice_cons edges (idx + 1) hi y) by (done || lia).
    + wp_run. assert (adjacent (slice edges idx hi) = []) as Hnil; [|by rewrite <-Hps, Hnil, app_nil_r].
      destruct (decide (idx < hi)); [|by rewrite slice_nil by lia].
      destruct (zlookup_total edges idx) as [x Hx]; [lia|].
      by rewrite (slice_cons edges idx hi x), slice_nil by (done || lia).
Qed.

Lemma alloc_pairs_ok pb0 g r0 :
  g !z 0 = Some r0 → r0 ≠ [] → Forall (Forall (λ x, 0 ≤ x ≤ INT_MAX)) g →
  zlen (concat g) ≤ INT_MAX → zlen pb0 = thread_num →
  wp (alloc_pairs (concat g) (offsets g) pb0) (λ pb, bucketed pb0 pb (row_pairs g)).
Proof.
  intros Hr0 Hne Hall Hsize HT. unfold alloc_pairs. unfold offsets at 1 2. rewrite zlen_offsets_from.
  pose proof (zlen_nonneg g). pose proof (zlookup_range _ _ _ Hr0) as Hg.
  destruct (Z.eqb_spec (zlen g + 1) 0); [lia|]. rewrite Z.add_simpl_r.
  pose proof (Forall_concat_rows _ _ Hall) as Hcat.
  apply (wp_for_up (λ i pb, bucketed pb0 pb (row_pairs (take (Z.to_nat i) g)))); [lia| | |].
  - apply bucketed_nil.
  - intros v pb Hv Hb. destruct (zlookup_total g v) as [r Hr]; [lia|].
    assert (take (Z.to_nat (v + 1)) g = take (Z.to_nat v) g ++ [r]) as Htake.
    { replace (Z.to_nat (v + 1)) with (S (Z.to_nat v)) by lia. by apply take_S_r, zlookup_Some_nat. }
    unfold offsets. rewrite (vget_ok _ _ _ (zlookup_offsets_from 0 g v ltac:(lia))). simpl.
    rewrite (vget_ok _ _ _ (zlookup_offsets_from 0 g (v + 1) ltac:(lia))). simpl. rewrite !Z.add_0_l.
    assert (slice (concat g) (zlen (concat (take (Z.to_nat v) g)))
      (zlen (concat (take (Z.to_nat (v + 1)) g))) = r) as Hsl.
    { rewrite slice_concat by lia. rewrite (slice_cons g v _ r), slice_nil by (done || lia). apply app_nil_r. }
    assert (zlen (concat (take (Z.to_nat (v + 1)) g)) ≤ zlen (concat g)) as Hle.
    { rewrite <-(take_drop (Z.to_nat (v + 1)) g) at 2. rewrite concat_app, zlen_app.
      pose proof (zlen_nonneg (concat (drop (Z.to_nat (v + 1)) g))). lia. }
    assert (1 ≤ zlen (concat (take (Z.to_nat (v + 1)) g))) as Hpos.
    { destruct g as [|r' g]; [done|]. replace (Z.to_nat (v + 1)) with (S (Z.to_nat v)) by lia. simpl.
      assert (r' = r0) as -> by (by injection Hr0). apply zlen_pos in Hne.
      rewrite zlen_app. pose proof (zlen_nonneg (concat (take (Z.to_nat v) g))). lia. }
    rewrite u32_small by lia.
    eapply wp_mono; [eapply alloc_row_ok; [done|done| | |done]|].
    + eapply Forall_impl; [exact Hcat|]. simpl. lia.
    + pose proof (zlen_nonneg (concat (take (Z.to_nat v) g))). split; [done|].
      rewrite Htake, concat_app, zlen_app. pose proof (zlen_nonneg (concat [r])). lia.
    + intros pb' Hb'. rewrite Hsl in Hb'. rewrite Htake. unfold row_pairs in *.
      rewrite fmap_app, concat_app. simpl. by rewrite app_nil_r.
  - intros pb Hb. rewrite take_ge in Hb by (unfold zlen; lia). done.
Qed.

(** ** Numbering the rules *)

Lemma rule_of_narrow k c : 0 ≤ k < 2 ^ 64 →
  [u32 (i32 (Z.shiftr k 32)); u32 (i32 k)] = rule_of (k, c).
Proof.
  intros Hk. rewrite !u32_i32. unfold rule_of, wrapu. simpl. rewrite Z.shiftr_div_pow2 by lia.
  rewrite (Z.mod_small (k / _)); [done|].
  split; [apply Z.div_pos|apply Z.div_lt_upper_bound]; lia.
Qed.

(** Ids are consecutive; the rules are the pairs, in iteration order. *)
Lemma prepare_new_id_ok items start :
  NoDup items.*1 → Forall (λ it, 0 ≤ it.1 < 2 ^ 64) items →
  0 ≤ start → start + zlen items < 2 ^ 31 → 2 * zlen items < 2 ^ 31 →
  let s := prepare_new_id items start in
  temp_role_edge s = concat (rule_of <$> items) ∧
  temp_role_vertex s = starts_from 0 (rule_of <$> items) ∧
  (∀ k id, convert s !! k = Some id →
     ∃ j c, 0 ≤ j ∧ items !z j = Some (k, c) ∧ id = start + j) ∧
  (∀ k, k ∈ items.*1 → is_Some (convert s !! k)).
Proof.
  intros Hnd Hk Hstart Hlen1 Hlen2.
  cut (let s := prepare_new_id items start in
    temp_role_edge s = concat (rule_of <$> items) ∧
    temp_role_vertex s = starts_from 0 (rule_of <$> items) ∧
    cur_v_offset s = 2 * zlen items ∧ start_id s = start + zlen items ∧
    (∀ k id, convert s !! k = Some id →
       ∃ j c, 0 ≤ j ∧ items !z j = Some (k, c) ∧ id = start + j) ∧
    (∀ k, k ∈ items.*1 → is_Some (convert s !! k))).
  { simpl. intros (?&?&?&?&?&?). by split_and!. }
  induction items as [|[k c] items IH] using rev_ind; simpl.
  - split_and!; try done; zlen_simpl; try lia. by intros k ?%not_elem_of_nil.
  - rewrite fmap_app, NoDup_app in Hnd. destruct Hnd as (Hnd & Hdisj & _).
    apply Forall_app in Hk as [Hk Hkk]. rewrite zlen_app in Hlen1, Hlen2.
    change (zlen [(k, c)]) with 1 in *. pose proof (zlen_nonneg items).
    specialize (IH Hnd Hk ltac:(lia) ltac:(lia)). simpl in IH.
    unfold prepare_new_id in *. rewrite foldl_snoc.
    set (s := foldl prepare_one _ items) in *. clearbody s.
    destruct IH as (He & Hv & Hoff & Hst & Hget & Hall).
    apply Forall_cons in Hkk as [Hkk _]. simpl in Hkk.
    assert (zlen (concat (rule_of <$> items)) = 2 * zlen items) as Hrl.
    { clear. induction items as [|it items IH]; [done|]. rewrite fmap_cons. simpl.
      rewrite !zlen_cons, IH. lia. }
    assert (convert s !! k = None) as Hnone.
    { destruct (convert s !! k) as [id|] eqn:E; [|done]. destruct (Hget k id E) as (j & c' & _ & Hj & _).
      exfalso. apply (Hdisj k); [|by constructor]. apply zlookup_elem in Hj.
      apply list_elem_of_fmap. by exists (k, c'). }
    unfold prepare_one. simpl. rewrite Hnone, He, Hv, Hoff, Hst, zlen_app.
    change (zlen [(k, c)]) with 1. rewrite (rule_of_narrow k c Hkk). split_and!.
    + rewrite fmap_app, concat_app. simpl. done.
    + rewrite fmap_app, starts_from_app, Z.add_0_l, Hrl. simpl.
      rewrite u32_small by (unfold INT_MAX; lia). done.
    + rewrite u64_small by lia. lia.
    + rewrite u64_small by lia. lia.
    + intros k' id Hid. destruct (decide (k' = k)) as [->|].
      * rewrite lookup_insert_eq in Hid. simplify_eq. exists (zlen items), c. split_and!; [lia| |done].
        rewrite zlookup_app_r by lia. by rewrite Z.sub_diag.
      * rewrite lookup_insert_ne in Hid by done. destruct (Hget k' id Hid) as (j & c' & Hj0 & Hj & ->).
        exists j, c'. split_and!; [done| |done]. pose proof (zlookup_range _ _ _ Hj).
        by rewrite zlookup_app_l by lia.
    + intros k'. rewrite fmap_app, elem_of_app. destruct (decide (k' = k)) as [->|Hne].
      * intros _. rewrite lookup_insert_eq. by eexists.
      * rewrite lookup_insert_ne by done. intros [Hin|Hin]; [by apply Hall|].
        apply list_elem_of_singleton in Hin. done.
Qed.

Lemma zlen_start_ids s tables : zlen (start_ids s tables) = zlen tables.
Proof. revert s. induction tables as [|t ts IH]; intros s; simpl; [done|]. by rewrite !zlen_cons, IH. Qed.

Lemma zlookup_start_ids s tables (items : list (list (Z * Z))) t :
  zlen items = zlen tables →
  (∀ i m it, tables !z i = Some m → items !z i = Some it → Z.of_nat (size m) = zlen it) →
  0 ≤ s → s + zlen (concat items) < 2 ^ 64 → 0 ≤ t < zlen tables →
  start_ids s tables !z t = Some (s + zlen (concat (take (Z.to_nat t) items))).
Proof.
  revert s items t. induction tables as [|m tables IH]; intros s [|it items] t Hlen Hsz Hs Hb Ht;
    [by zlia|by zlia| |].
  { pose proof (zlen_nonneg tables). zlia. }
  rewrite !zlen_cons in *. simpl in *. rewrite ?zlen_app in Hb. pose proof (zlen_nonneg it). pose proof (zlen_nonneg (concat items)).
  assert (Z.of_nat (size m) = zlen it) as Hm by (by apply (Hsz 0)).
  destruct (decide (t = 0)) as [->|].
  - rewrite zlookup_nonneg by lia. simpl. f_equal. zlen_simpl. lia.
  - replace t with (t - 1 + 1) at 1 by lia.
    assert (∀ (l : list Z) x, (x :: l) !z (t - 1 + 1) = l !z (t - 1)) as ->.
    { intros l x. rewrite !zlookup_nonneg by lia. by replace (Z.to_nat (t - 1 + 1)) with (S (Z.to_nat (t - 1))) by lia. }
    rewrite (IH _ items); try lia.
    + replace (Z.to_nat t) with (S (Z.to_nat (t - 1))) by lia. simpl. rewrite zlen_app. f_equal.
      rewrite u64_small by lia. lia.
    + intros i m' it' Hm' Hit'. apply (Hsz (i + 1)).
      * pose proof (zlookup_range _ _ _ Hm'). rewrite zlookup_nonneg in * by lia.
        by replace (Z.to_nat (i + 1)) with (S (Z.to_nat i)) by lia.
      * pose proof (zlookup_range _ _ _ Hm'). rewrite zlookup_nonneg in * by lia.
        by replace (Z.to_nat (i + 1)) with (S (Z.to_nat i)) by lia.
    + rewrite u64_small by lia. lia.
    + rewrite u64_small by lia. lia.
Qed.

(** ** Joining the parts *)

Lemma foldl_append_part g0 (chunks : list (list (list Z))) :
  Forall (Forall (Forall (λ x, 0 ≤ x ≤ INT_MAX))) chunks →
  zlen (concat (g0 ++ concat chunks)) ≤ INT_MAX →
  foldl append_part (concat g0, starts_from 0 g0) ((λ c, (concat c, starts_from 0 c)) <$> chunks) =
    (concat (g0 ++ concat chunks), starts_from 0 (g0 ++ concat chunks)).
Proof.
  revert g0. induction chunks as [|c chunks IH]; intros g0 Hx Hsz; csimpl.
  - by rewrite app_nil_r.
  - apply Forall_cons in Hx as [Hc Hx]. simpl in Hsz. rewrite app_assoc in Hsz.
    assert ((u32 <$> concat c) = concat c) as ->.
    { apply Forall_concat_rows in Hc. clear -Hc. induction Hc as [|x l Hx _ IH]; [done|].
      rewrite fmap_cons, IH, u32_small by done. done. }
    assert (((λ v, u32 (v + zlen (concat g0))) <$> starts_from 0 c) =
      starts_from (zlen (concat g0)) c) as ->.
    { transitivity ((λ v, v + zlen (concat g0)) <$> starts_from 0 c); [|by rewrite starts_from_shift].
      apply list_fmap_ext. intros i x Hi%list_elem_of_lookup_2%starts_from_range. apply u32_small.
      rewrite !concat_app, !zlen_app in Hsz. pose proof (zlen_nonneg (concat g0)).
      pose proof (zlen_nonneg (concat (concat chunks))). lia. }
    rewrite <-concat_app. rewrite <-(Z.add_0_l (zlen (concat g0))), <-starts_from_app.
    rewrite IH by done. by rewrite app_assoc.
Qed.

(** ** Splitting the rows among the threads *)

Definition chunk (g : list (list Z)) (ts t : Z) : list (list Z) :=
  if t <? thread_num - 1 then slice g (t * ts) ((t + 1) * ts)
  else slice g ((thread_num - 1) * ts) (zlen g).

Lemma chunk_elem g ts t r : r ∈ chunk g ts t → r ∈ g.
Proof. unfold chunk. destruct (_ <? _); apply elem_of_slice. Qed.

Lemma chunk_range g ts t :
  1 ≤ ts → (thread_num - 1) * ts < zlen g → 0 ≤ t < thread_num →
  ∃ a b, chunk g ts t = slice g a b ∧ a = t * ts ∧ a < b ≤ zlen g ∧
    (t < thread_num - 1 → b = (t + 1) * ts) ∧ (t = thread_num - 1 → b = zlen g).
Proof.
  unfold chunk, thread_num. intros Hts Hg Ht. destruct (Z.ltb_spec t (40 - 1)).
  - exists (t * ts), ((t + 1) * ts). split_and!; (done || nia).
  - assert (t = 39) as -> by lia. exists (39 * ts), (zlen g). split_and!; (done || nia).
Qed.

Lemma concat_chunks g ts :
  1 ≤ ts → (thread_num - 1) * ts < zlen g →
  concat (chunk g ts <$> seqZ 0 thread_num) = g.
Proof.
  intros Hts Hg.
  assert (∀ m : nat, Z.of_nat m ≤ thread_num - 1 →
    concat (chunk g ts <$> seqZ 0 (Z.of_nat m)) = slice g 0 (Z.of_nat m * ts)) as Hm.
  { induction m as [|m IH]; intros Hm; [by rewrite slice_nil by lia|].
    rewrite seqZ_S, fmap_app, concat_app, IH by lia. csimpl. rewrite app_nil_r, Z.add_0_l.
    unfold chunk. rewrite (proj2 (Z.ltb_lt _ _)) by lia.
    replace (Z.of_nat (S m)) with (Z.of_nat m + 1) by lia.
    unfold thread_num in *. apply slice_app; nia. }
  specialize (Hm 39%nat ltac:(unfold thread_num; lia)). unfold thread_num.
  change 40 with (Z.of_nat 40). rewrite seqZ_S, fmap_app, concat_app, Hm. csimpl.
  rewrite app_nil_r. unfold chunk, thread_num in *. simpl. rewrite slice_app by lia. apply slice_full.
Qed.

Lemma i32_id (l : list Z) : Forall (λ x, 0 ≤ x ≤ INT_MAX) l → i32 <$> l = l.
Proof. apply np_narrow_id. Qed.

Lemma concat_take_mono (g : list (list Z)) a b :
  0 ≤ a ≤ b → 0 ≤ zlen (concat (take (Z.to_nat a) g)) ≤ zlen (concat (take (Z.to_nat b) g)) ∧
    zlen (concat (take (Z.to_nat b) g)) ≤ zlen (concat g).
Proof.
  intros Hab. pose proof (zlen_nonneg (concat (take (Z.to_nat a) g))). split_and!; [done| |].
  - rewrite <-(take_drop (Z.to_nat a) (take (Z.to_nat b) g)), take_take, Nat.min_l by lia.
    rewrite concat_app, zlen_app. pose proof (zlen_nonneg (concat (drop (Z.to_nat a) (take (Z.to_nat b) g)))).
    lia.
  - rewrite <-(take_drop (Z.to_nat b) g) at 2. rewrite concat_app, zlen_app.
    pose proof (zlen_nonneg (concat (drop (Z.to_nat b) g))). lia.
Qed.

Lemma split_bucket_ok g ts t :
  1 ≤ ts → (thread_num - 1) * ts < zlen g → 0 ≤ t < thread_num →
  Forall (Forall (λ x, 0 ≤ x ≤ INT_MAX)) g → zlen (concat g) ≤ INT_MAX →
  ∃ o, split_bucket (concat g) (offsets g) ts t =
    Ok (concat (chunk g ts t), starts_from o (chunk g ts t)).
Proof.
  intros Hts Hg Ht Hx Hsz. destruct (chunk_range g ts t Hts Hg Ht) as (a & b & Hc & Ha & Hb & Hb1 & Hb2).
  exists (zlen (concat (take (Z.to_nat a) g))).
  assert (0 ≤ a) by nia. destruct (concat_take_mono g a b) as [Hm1 Hm2]; [lia|].
  assert (∀ v, 0 ≤ v ≤ zlen g → vget (offsets g) v = Ok (zlen (concat (take (Z.to_nat v) g)))) as Hget.
  { intros v Hv. apply vget_ok. unfold offsets. by rewrite zlookup_offsets_from by lia. }
  assert (zlen (offsets g) = zlen g + 1) as Hlo by (unfold offsets; apply zlen_offsets_from).
  assert (i32 <$> concat (slice g a b) = concat (slice g a b)) as Hi1.
  { apply i32_id, Forall_forall. intros x (r & Hxr & Hr%elem_of_slice)%elem_of_concat.
    rewrite Forall_forall in Hx. specialize (Hx r Hr). rewrite Forall_forall in Hx. by apply Hx. }
  assert (∀ o, o = zlen (concat (take (Z.to_nat a) g)) →
    i32 <$> starts_from o (slice g a b) = starts_from o (slice g a b)) as Hi2.
  { intros o ->. apply i32_id, Forall_forall. intros x Hin%starts_from_range.
    rewrite <-slice_concat, zlen_slice in Hin by lia. lia. }
  unfold split_bucket. rewrite Hc. destruct (Z.ltb_spec t (thread_num - 1)).
  - rewrite <-Hb1, <-Ha by lia. rewrite vrange_ok by lia. simpl. rewrite !Hget by lia. simpl.
    rewrite vrange_ok by lia. simpl. rewrite slice_concat, slice_offsets, Hi1, Hi2 by (done || lia). done.
  - assert (t = thread_num - 1) as Ht' by lia. rewrite <-Ht', <-Ha, Hget by lia. simpl.
    rewrite vrange_ok by lia. simpl. rewrite Hlo, Z.add_simpl_r, vrange_ok by lia. simpl.
    specialize (Hb2 Ht'). subst b. rewrite slice_offsets, Hi2 by (done || lia).
    rewrite <-(slice_concat g a (zlen g)) in Hi1 |- * by lia.
    rewrite (take_ge g (Z.to_nat (zlen g))) in Hi1 |- * by (unfold zlen; lia). by rewrite Hi1.
Qed.

(** ** One turn *)

(** What a turn needs of the graph [g] and of the pairs kept in the buckets:
    the first row is not empty, every thread gets at least one edge, entries
    are row numbers, and the buckets hold pairs of row numbers. *)
Record turn_input (ts : Z) (g pb : list (list Z)) : Prop := {
  ti_row0 : ∃ r, g !z 0 = Some r ∧ r ≠ [];
  ti_ts : 1 ≤ ts;
  ti_last : (thread_num - 1) * ts < zlen g;
  ti_chunks : ∀ t, 0 ≤ t < thread_num → concat (chunk g ts t) ≠ [];
  ti_range : Forall (Forall (λ x, 0 ≤ x < zlen g)) g;
  ti_pb_len : zlen pb = thread_num;
  ti_pb : ∀ t b h, pb !z t = Some b → h ∈ b →
    ∃ x y, 0 ≤ x < zlen g ∧ 0 ≤ y < zlen g ∧ x mod thread_num = t ∧ h = pair_hash x y
}.

Lemma zlookup_concat {A} (g : list (list A)) t r j x :
  g !z t = Some r → r !z j = Some x →
  concat g !z (zlen (concat (take (Z.to_nat t) g)) + j) = Some x.
Proof.
  intros Hr Hx. rewrite (concat_take_drop g _ r (zlookup_Some_nat _ _ _ Hr)).
  pose proof (zlookup_range _ _ _ Hx). rewrite zlookup_app_r by lia. rewrite Z.add_simpl_l.
  by rewrite zlookup_app_l by lia.
Qed.

Lemma zlen_concat_fmap {A B} (f : A → B) (g : list (list A)) :
  zlen (concat ((λ r : list A, f <$> r) <$> g)) = zlen (concat g).
Proof.
  induction g as [|r g IH]; [done|]. rewrite fmap_cons. simpl. by rewrite !zlen_app, zlen_fmap, IH.
Qed.

Lemma size_tables (buckets : list (list Z)) (items : list (list (Z * Z))) :
  zlen items = zlen buckets → zlen (concat buckets) < 2 ^ 64 →
  (∀ t b it, buckets !z t = Some b → items !z t = Some it →
     Z.of_nat (size (processpairs b ∅)) = zlen it) →
  4 * zlen (concat items) ≤ zlen (concat buckets).
Proof.
  revert items. induction buckets as [|b buckets IH]; intros [|it items] Hlen Hb Hsz; [done|..].
  { pose proof (zlen_nonneg items). zlia. }
  { pose proof (zlen_nonneg buckets). zlia. }
  simpl in *. rewrite !zlen_app, !zlen_cons in *.
  pose proof (zlen_nonneg b). pose proof (zlen_nonneg (concat buckets)).
  pose proof (processpairs_size b ltac:(lia)) as Hs. rewrite (Hsz 0 b it eq_refl eq_refl) in Hs.
  unfold threshold in Hs.
  assert (4 * zlen (concat items) ≤ zlen (concat buckets)); [|lia].
  apply IH; [lia|lia|]. intros t b' it' Hb' Hit'. apply (Hsz (t + 1));
    pose proof (zlookup_range _ _ _ Hb'); rewrite zlookup_nonneg in * by lia;
    by replace (Z.to_nat (t + 1)) with (S (Z.to_nat t)) by lia.
Qed.

Section turn.
Context (iter : Z → gmap Z Z → list (Z * Z)).
Context (iter_perm : ∀ t m, iter t m ≡ₚ map_to_list m).
Context (ts : Z) (g pb buckets : list (list Z)).
Context (Hti : turn_input ts g pb).
Context (Hbound : zlen g + 2 * zlen (concat g) + zlen (concat pb) ≤ INT_MAX).
Context (Hbk : bucketed pb buckets (row_pairs g)).

Definition tables : list (gmap Z Z) := (λ pairs, processpairs pairs ∅) <$> buckets.
Definition items : list (list (Z * Z)) :=
  (λ '(t, m), iter t m) <$> zip (seqZ 0 thread_num) tables.
Definition ids : list new_ids :=
  (λ '(t, (table, start)), prepare_new_id (iter t table) start)
    <$> zip (seqZ 0 thread_num) (zip tables (start_ids (zlen g) tables)).
Definition conv (x y : Z) : option Z :=
  if bool_decide (0 ≤ x ≤ INT_MAX ∧ 0 ≤ y ≤ INT_MAX) then
    match pair_id tables (convert <$> ids) x y with
    | Ok o => o
    | Err _ => None
    end
  else None.
Definition rules : list (list Z) := concat ((λ it : list (Z * Z), rule_of <$> it) <$> items).

Lemma zlen_buckets : zlen buckets = thread_num.
Proof using Hti Hbk. destruct Hti, Hbk. congruence. Qed.

Lemma zlen_tables : zlen tables = thread_num.
Proof using Hti Hbk. unfold tables. rewrite zlen_fmap. apply zlen_buckets. Qed.

Lemma zlen_items : zlen items = thread_num.
Proof using Hti Hbk.
  unfold items. pose proof zlen_tables as Ht.
  rewrite zlen_fmap, zlen_zip, zlen_seqZ; rewrite ?zlen_seqZ; unfold thread_num in *; lia.
Qed.

Lemma concat_buckets_bound : zlen (concat buckets) ≤ zlen (concat pb) + zlen (concat g).
Proof using Hbk. destruct Hbk as [_ -> _]. pose proof (zlen_row_pairs g). lia. Qed.

(** Thread [t]: its bucket, its table and its items. *)
Lemma thread_lookup t :
  0 ≤ t < thread_num → ∃ b, buckets !z t = Some b ∧
    tables !z t = Some (processpairs b ∅) ∧ items !z t = Some (iter t (processpairs b ∅)).
Proof using Hti Hbk.
  intros Ht. destruct (zlookup_total buckets t) as [b Hb]; [rewrite zlen_buckets; done|].
  assert (tables !z t = Some (processpairs b ∅)) as Htab.
  { unfold tables. by rewrite zlookup_fmap, Hb. }
  exists b. split_and!; [done..|]. unfold items. rewrite zlookup_fmap.
  rewrite (zlookup_zip _ _ _ t _ (zlookup_seqZ 0 thread_num t Ht) Htab). done.
Qed.

Lemma zlen_iter t m : zlen (iter t m) = Z.of_nat (size m).
Proof using iter_perm. unfold zlen. by rewrite (iter_perm t m), length_map_to_list. Qed.

Lemma zlen_all_items : 4 * zlen (concat items) ≤ zlen (concat pb) + zlen (concat g).
Proof using All.
  pose proof concat_buckets_bound. pose proof (zlen_nonneg g). pose proof (zlen_nonneg (concat g)).
  etrans; [apply (size_tables buckets)|done].
  - by rewrite zlen_items, zlen_buckets.
  - unfold INT_MAX in Hbound. lia.
  - intros t b it Hb Hit. destruct (thread_lookup t) as (b' & Hb' & _ & Hit').
    { rewrite <-zlen_buckets. by eapply zlookup_range. }
    simplify_eq. by rewrite zlen_iter.
Qed.

(** The key of an item of thread [t] is a pair of row numbers, the first one
    assigned to [t]. *)
Lemma item_key t it k c :
  items !z t = Some it → (k, c) ∈ it →
  ∃ x y, 0 ≤ x < zlen g ∧ 0 ≤ y < zlen g ∧ x mod thread_num = t ∧ k = pair_hash x y.
Proof using All.
  intros Hit Hin. destruct (thread_lookup t) as (b & Hb & _ & Hit').
  { rewrite <-zlen_items. by eapply zlookup_range. }
  simplify_eq. rewrite iter_perm, elem_of_map_to_list in Hin.
  assert (zlen (concat buckets) ≤ INT_MAX) as Hsz.
  { pose proof concat_buckets_bound. pose proof (zlen_nonneg g). pose proof (zlen_nonneg (concat g)). lia. }
  assert (zlen b < 2 ^ 64) as Hlb.
  { pose proof (zlen_concat_zinsert _ _ _ [] Hb) as Hz.
    pose proof (zlen_nonneg (concat (zinsert buckets t []))).
    change (zlen (@nil Z)) with 0 in Hz. unfold INT_MAX in *. lia. }
  rewrite processpairs_lookup in Hin by done. case_decide as Hd; [|done].
  assert (k ∈ b) as Hkb. { apply cnt_elem. unfold threshold in Hd. lia. }
  destruct (zlookup_total pb t) as [b0 Hb0].
  { rewrite (ti_pb_len _ _ _ Hti), <-zlen_buckets. by eapply zlookup_range. }
  rewrite (bk_get _ _ _ Hbk t b0 Hb0) in Hb. simplify_eq.
  apply elem_of_app in Hkb as [Hkb|Hkb]; [by eapply ti_pb|].
  apply list_elem_of_fmap in Hkb as ([x y] & -> & [Hmod Hxy]%list_elem_of_filter).
  apply row_pairs_elem in Hxy as (r & Hr & Hx & Hy). pose proof (ti_range _ _ _ Hti) as Hrg.
  rewrite Forall_forall in Hrg. specialize (Hrg r Hr). rewrite Forall_forall in Hrg.
  exists x, y. split_and!; try done; by apply Hrg.
Qed.

Lemma zlen_concat_take_items t it :
  items !z t = Some it →
  0 ≤ zlen (concat (take (Z.to_nat t) items)) ∧
  zlen (concat (take (Z.to_nat t) items)) + zlen it ≤ zlen (concat items).
Proof using.
  intros Hit. pose proof (zlen_nonneg (concat (take (Z.to_nat t) items))). split; [done|].
  rewrite (concat_take_drop items _ it (zlookup_Some_nat _ _ _ Hit)), !zlen_app.
  pose proof (zlen_nonneg (concat (drop (S (Z.to_nat t)) items))). lia.
Qed.

Lemma thread_ids t it :
  items !z t = Some it →
  ids !z t = Some (prepare_new_id it (zlen g + zlen (concat (take (Z.to_nat t) items)))).
Proof using All.
  intros Hit. assert (0 ≤ t < thread_num) as Ht by (rewrite <-zlen_items; by eapply zlookup_range).
  destruct (thread_lookup t Ht) as (b & Hb & Htab & Hit'). simplify_eq.
  pose proof zlen_all_items. pose proof (zlen_nonneg (concat pb)). pose proof (zlen_nonneg (concat g)).
  assert (start_ids (zlen g) tables !z t = Some (zlen g + zlen (concat (take (Z.to_nat t) items)))) as Hst.
  { apply zlookup_start_ids.
    - by rewrite zlen_items, zlen_tables.
    - intros i m it Hm Hi. destruct (thread_lookup i) as (b' & _ & Hm' & Hi').
      { rewrite <-zlen_items. by eapply zlookup_range. }
      simplify_eq. by rewrite zlen_iter.
    - apply zlen_nonneg.
    - unfold INT_MAX in *. lia.
    - by rewrite zlen_tables. }
  unfold ids. rewrite zlookup_fmap.
  by rewrite (zlookup_zip _ _ _ t _ (zlookup_seqZ 0 thread_num t Ht) (zlookup_zip _ _ _ _ _ Htab Hst)).
Qed.

(** What thread [t] hands over. *)
Lemma thread_ids_ok t it :
  items !z t = Some it → ∃ s, ids !z t = Some s ∧
    temp_role_edge s = concat (rule_of <$> it) ∧
    temp_role_vertex s = starts_from 0 (rule_of <$> it) ∧
    (∀ k id, convert s !! k = Some id → ∃ j c, 0 ≤ j ∧ it !z j = Some (k, c) ∧
       id = zlen g + zlen (concat (take (Z.to_nat t) items)) + j) ∧
    (∀ k, k ∈ it.*1 → is_Some (convert s !! k)).
Proof using All.
  intros Hit. eexists. split; [by apply thread_ids|]. apply prepare_new_id_ok.
  - destruct (thread_lookup t) as (b & _ & _ & Hit').
    { rewrite <-zlen_items. by eapply zlookup_range. }
    simplify_eq. rewrite iter_perm. apply NoDup_fst_map_to_list.
  - apply Forall_forall. intros [k c] Hin. simpl.
    destruct (item_key t it k c Hit Hin) as (x & y & Hx & Hy & _ & ->).
    pose proof (zlen_nonneg (concat pb)). pose proof (zlen_nonneg (concat g)).
    rewrite pair_hash_eq by lia. unfold INT_MAX in *. lia.
  - destruct (zlen_concat_take_items t it Hit). pose proof (zlen_nonneg g). lia.
  - destruct (zlen_concat_take_items t it Hit). pose proof zlen_all_items.
    pose proof (zlen_nonneg (concat pb)). pose proof (zlen_nonneg (concat g)). unfold INT_MAX in *. lia.
  - destruct (zlen_concat_take_items t it Hit). pose proof zlen_all_items.
    pose proof (zlen_nonneg (concat pb)). pose proof (zlen_nonneg (concat g)). pose proof (zlen_nonneg g).
    unfold INT_MAX in *. lia.
Qed.

Lemma ids_parts :
  (λ i, (temp_role_edge i, temp_role_vertex i)) <$> ids =
  (λ c, (concat c, starts_from 0 c)) <$> ((λ it : list (Z * Z), rule_of <$> it) <$> items).
Proof using All.
  pose proof zlen_tables as Ht. apply zlist_eq.
  - rewrite !zlen_fmap, zlen_items. unfold ids. rewrite zlen_fmap.
    assert (zlen (zip tables (start_ids (zlen g) tables)) = thread_num) as Hz.
    { rewrite zlen_zip; [done|]. by rewrite zlen_start_ids. }
    rewrite zlen_zip; rewrite zlen_seqZ by done; done.
  - intros t Hlt. rewrite zlen_fmap in Hlt.
    assert (zlen ids ≤ zlen items) as Hle.
    { rewrite zlen_items. unfold ids, zlen. rewrite length_fmap, length_zip_with, length_seqZ.
      unfold thread_num. lia. }
    destruct (zlookup_total items t) as [it Hit]; [lia|].
    destruct (thread_ids_ok t it Hit) as (s & Hs & He & Hv & _).
    rewrite !zlookup_fmap, Hs, Hit. simpl. by rewrite He, Hv.
Qed.

(** Looking up a pair never fails, and the id found is the number of a rule
    with this pair. *)
Lemma pair_id_ok x y :
  0 ≤ x ≤ INT_MAX → 0 ≤ y ≤ INT_MAX → pair_id tables (convert <$> ids) x y = Ok (conv x y).
Proof using All.
  intros Hx Hy. unfold conv. rewrite bool_decide_eq_true_2 by done. unfold pair_id.
  assert (0 ≤ x mod thread_num < thread_num) as Hm by (apply Z.mod_pos_bound; unfold thread_num; lia).
  rewrite (u64_small x) by (unfold INT_MAX in *; lia).
  rewrite i32_small by (unfold INT_MAX, thread_num in *; lia).
  destruct (thread_lookup _ Hm) as (b & Hb & Htab & Hit). rewrite (vget_ok _ _ _ Htab). simpl.
  destruct (processpairs b ∅ !! pair_hash x y) as [c|] eqn:Hk; [|done].
  destruct (thread_ids_ok _ _ Hit) as (s & Hs & _ & _ & _ & Hall).
  assert ((convert <$> ids) !z (x mod thread_num) = Some (convert s)) as Hc by (by rewrite zlookup_fmap, Hs).
  rewrite (vget_ok _ _ _ Hc). simpl.
  destruct (Hall (pair_hash x y)) as [id ->]; [|done].
  apply list_elem_of_fmap. exists (pair_hash x y, c). split; [done|].
  by rewrite iter_perm, elem_of_map_to_list.
Qed.

Lemma zlen_rules : zlen rules = zlen (concat items).
Proof using. unfold rules. apply zlen_concat_fmap. Qed.

Lemma conv_rule x y id :
  conv x y = Some id →
  zlen g ≤ id < zlen g + zlen rules ∧ rules !z (id - zlen g) = Some [x; y].
Proof using All.
  intros Hc. unfold conv, pair_id in Hc. case_bool_decide as Hxy; [|done]. destruct Hxy as [Hx Hy].
  assert (0 ≤ x mod thread_num < thread_num) as Hm by (apply Z.mod_pos_bound; unfold thread_num; lia).
  rewrite (u64_small x) in Hc by (unfold INT_MAX in *; lia).
  rewrite i32_small in Hc by (unfold INT_MAX, thread_num in *; lia).
  destruct (thread_lookup _ Hm) as (b & Hb & Htab & Hit). rewrite (vget_ok _ _ _ Htab) in Hc. simpl in Hc.
  destruct (processpairs b ∅ !! pair_hash x y) as [c|] eqn:Hk; [|done].
  destruct (thread_ids_ok _ _ Hit) as (s & Hs & _ & _ & Hget & _).
  assert ((convert <$> ids) !z (x mod thread_num) = Some (convert s)) as Hcs by (by rewrite zlookup_fmap, Hs).
  rewrite (vget_ok _ _ _ Hcs) in Hc. simpl in Hc.
  destruct (convert s !! pair_hash x y) as [id'|] eqn:Hid; simplify_eq.
  destruct (Hget _ _ Hid) as (j & c' & Hj0 & Hj & ->).
  assert (rules !z (zlen (concat (take (Z.to_nat (x mod thread_num)) items)) + j) = Some [x; y]) as Hr.
  { rewrite <-(pair_hash_rule x y c' Hx Hy). unfold rules.
    rewrite <-(zlen_concat_fmap rule_of), fmap_take. eapply zlookup_concat.
    - rewrite zlookup_fmap, Hit. done.
    - by rewrite zlookup_fmap, Hj. }
  pose proof (zlookup_range _ _ _ Hr). split; [lia|]. rewrite <-Hr. f_equal. lia.
Qed.

Definition next_graph : list (list Z) := (rewrite_row conv <$> g) ++ rules.

Lemma rule_range r : r ∈ rules → zlen r = 2 ∧ Forall (λ x, 0 ≤ x < zlen g) r.
Proof using All.
  intros (l & Hr & Hl)%elem_of_concat. apply list_elem_of_fmap in Hl as (it & -> & [t Hit]%elem_zlookup).
  apply list_elem_of_fmap in Hr as ([k c] & -> & Hin).
  destruct (item_key t it k c Hit Hin) as (x & y & Hx & Hy & _ & ->).
  pose proof (zlen_nonneg (concat pb)). pose proof (zlen_nonneg (concat g)).
  rewrite pair_hash_rule by lia. split; [done|].
  apply Forall_cons. split; [done|]. by apply Forall_singleton.
Qed.

Lemma zlen_concat_rules : zlen (concat rules) = 2 * zlen rules.
Proof using All.
  assert (Forall (λ r : list Z, zlen r = 2) rules) as Hf.
  { apply Forall_forall. intros r Hr. by apply rule_range. }
  induction Hf as [|r rs Hr _ IH]; [done|]. simpl. rewrite zlen_app, zlen_cons, IH, Hr. lia.
Qed.

Lemma next_graph_bounds :
  zlen next_graph = zlen g + zlen rules ∧
  4 * zlen rules ≤ zlen (concat pb) + zlen (concat g) ∧
  zlen (concat next_graph) ≤ zlen (concat g) + 2 * zlen rules.
Proof using All.
  unfold next_graph. rewrite zlen_app, zlen_fmap, concat_app, zlen_app, zlen_concat_rules, zlen_rules.
  pose proof zlen_all_items. pose proof (zlen_concat_rewrite conv g). lia.
Qed.

Lemma next_conv x y id : conv x y = Some id → zlen g ≤ id ∧ next_graph !z id = Some [x; y].
Proof using All.
  intros Hc. destruct (conv_rule x y id Hc) as [Hid Hr]. split; [lia|]. unfold next_graph.
  rewrite zlookup_app_r; rewrite zlen_fmap; [done|lia].
Qed.

Lemma next_range : Forall (Forall (λ x, 0 ≤ x < zlen next_graph)) next_graph.
Proof using All.
  destruct next_graph_bounds as (Hlen & _). rewrite Hlen. apply Forall_app. split.
  - apply Forall_fmap. eapply Forall_impl; [exact (ti_range _ _ _ Hti)|]. intros r Hr. simpl.
    apply rewrite_row_Forall.
    + intros x y id Hc. destruct (conv_rule x y id Hc). pose proof (zlen_nonneg g). lia.
    + eapply Forall_impl; [exact Hr|]. simpl. pose proof (zlen_nonneg rules). lia.
  - apply Forall_forall. intros r Hr. destruct (rule_range r Hr) as [_ Hr'].
    eapply Forall_impl; [exact Hr'|]. simpl. pose proof (zlen_nonneg rules). lia.
Qed.

Lemma concat_nonempty (h : list (list Z)) : concat h ≠ [] ↔ ∃ r, r ∈ h ∧ r ≠ [].
Proof using.
  split.
  - induction h as [|[|x r] h IH]; simpl; intros Hne; [done| |].
    + destruct (IH Hne) as (r & Hr & ?). exists r. split; [by constructor|done].
    + exists (x :: r). split; [by constructor|done].
  - intros (r & Hr & Hne) Hnil. destruct r as [|x r]; [done|].
    assert (x ∈ concat h) as Hx by (apply elem_of_concat; exists (x :: r); split; [by constructor|done]).
    rewrite Hnil in Hx. by apply not_elem_of_nil in Hx.
Qed.

Lemma next_chunks t : 0 ≤ t < thread_num → concat (chunk next_graph ts t) ≠ [].
Proof using All.
  intros Ht. destruct Hti as [_ H1 H2 Hch _ _ _]. destruct next_graph_bounds as (Hlen & _).
  pose proof (zlen_nonneg rules). pose proof (Hch t Ht) as Hc.
  apply concat_nonempty in Hc as (r & [i Hi]%elem_zlookup & Hne). apply concat_nonempty.
  exists (rewrite_row conv r). split; [|by apply rewrite_row_nonempty].
  destruct (chunk_range g ts t H1 H2 Ht) as (a & b & Hca & -> & Hab & Hb1 & Hb2). rewrite Hca in Hi.
  destruct (chunk_range next_graph ts t H1 ltac:(lia) Ht) as (a' & b' & Hca' & -> & Hab' & Hb1' & Hb2').
  rewrite Hca'. assert (b ≤ b') as Hbb.
  { destruct (decide (t = thread_num - 1)) as [He|]; [rewrite (Hb2 He), (Hb2' He); lia|].
    rewrite Hb1, Hb1' by lia. lia. }
  assert (0 ≤ t * ts) by nia. pose proof (zlookup_range _ _ _ Hi) as Hir. rewrite zlen_slice in Hir by lia.
  rewrite zlookup_slice in Hi by lia. apply (zlookup_elem _ i). rewrite zlookup_slice by lia.
  unfold next_graph. pose proof (zlookup_range _ _ _ Hi).
  rewrite zlookup_app_l by (rewrite zlen_fmap; lia). by rewrite zlookup_fmap, Hi.
Qed.

Lemma next_input : turn_input ts next_graph buckets.
Proof using All.
  destruct next_graph_bounds as (Hlen & _). pose proof (zlen_nonneg rules).
  pose proof Hti as [Hrow0 H1 H2 _ Hrange Hpbl Hpb]. split.
  - destruct Hrow0 as (r & Hr & Hne). exists (rewrite_row conv r). split; [|by apply rewrite_row_nonempty].
    unfold next_graph. pose proof (zlookup_range _ _ _ Hr).
    rewrite zlookup_app_l by (rewrite zlen_fmap; lia). by rewrite zlookup_fmap, Hr.
  - done.
  - lia.
  - apply next_chunks.
  - apply next_range.
  - apply zlen_buckets.
  - intros t b h Hb Hh. destruct (zlookup_total pb t) as [b0 Hb0].
    { rewrite Hpbl, <-zlen_buckets. by eapply zlookup_range. }
    rewrite (bk_get _ _ _ Hbk t b0 Hb0) in Hb. simplify_eq.
    apply elem_of_app in Hh as [Hh|Hh].
    + destruct (Hpb t b0 h Hb0 Hh) as (x & y & ? & ? & ? & ?). exists x, y. split_and!; (done || lia).
    + apply list_elem_of_fmap in Hh as ([x y] & -> & [Hmod Hxy]%list_elem_of_filter).
      apply row_pairs_elem in Hxy as (r & Hr & Hx & Hy).
      rewrite Forall_forall in Hrange. specialize (Hrange r Hr). rewrite Forall_forall in Hrange.
      exists x, y. pose proof (Hrange x Hx). pose proof (Hrange y Hy). split_and!; (done || lia).
Qed.
(** The rows of the next graph. *)
Lemma next_expand n v row l k :
  n ≤ zlen g → g !z v = Some row → derives g n row l k → ∃ row' k', next_graph !z v = Some row' ∧ derives next_graph n row' l k'.
Proof using All.
  intros Hn Hv Hd. exists (rewrite_row conv row). pose proof (zlookup_range _ _ _ Hv).
  destruct (derives_turn conv g rules n row l k) as [k' Hd']; [|done|].
  - intros x y id Hc. destruct (next_conv x y id Hc). split; [lia|done].
  - exists k'. split; [|done]. unfold next_graph. rewrite zlookup_app_l by (rewrite zlen_fmap; lia). by rewrite zlookup_fmap, Hv.
Qed.

Lemma rows_int : Forall (Forall (λ x, 0 ≤ x ≤ INT_MAX)) g ∧ Forall (Forall (λ x, 0 ≤ x ≤ INT_MAX)) next_graph.
Proof using All.
  pose proof next_graph_bounds as (Hlen & Hrl & _). pose proof (zlen_nonneg (concat pb)). pose proof (zlen_nonneg (concat g)).
  split; [eapply Forall_impl; [exact (ti_range _ _ _ Hti)|]|eapply Forall_impl; [exact next_range|]]; intros r Hr; (eapply Forall_impl; [exact Hr|]); simpl; lia.
Qed.

(** The parts that the threads rewrite. *)
Definition rewritten : list (list (list Z)) := (λ t, rewrite_row conv <$> chunk g ts t) <$> seqZ 0 thread_num.

Lemma concat_rewritten : concat rewritten = rewrite_row conv <$> g.
Proof using All.
  destruct Hti as [_ H1 H2 _ _ _ _]. unfold rewritten. transitivity (rewrite_row conv <$> concat (chunk g ts <$> seqZ 0 thread_num)); [|by rewrite concat_chunks].
  generalize conv as cv. intros cv. clear. induction (seqZ 0 thread_num) as [|t l IH]; [done|]. rewrite !fmap_cons. simpl. by rewrite fmap_app, IH.
Qed.

Lemma threads_rewrite :
  mapr (λ idx, let* '(edges, vertices) := split_bucket (concat g) (offsets g) ts idx in replace tables (convert <$> ids) edges vertices) (seqZ 0 thread_num) =
  Ok ((λ c, (concat c, starts_from 0 c)) <$> rewritten).
Proof using All.
  destruct rows_int as [Hint _]. pose proof Hti as [_ H1 H2 Hch _ _ _]. pose proof next_graph_bounds as (Hlen & Hrl & _).
  pose proof (zlen_nonneg (concat pb)). pose proof (zlen_nonneg (concat g)). pose proof (zlen_nonneg g).
  rewrite (mapr_ok _ (λ t, (concat (rewrite_row conv <$> chunk g ts t), starts_from 0 (rewrite_row conv <$> chunk g ts t)))).
  - unfold rewritten. by rewrite <-list_fmap_compose.
  - intros t Ht%elem_of_seqZ. rewrite Z.add_0_l in Ht.
    destruct (split_bucket_ok g ts t H1 H2 Ht Hint) as [o ->]; [lia|]. simpl. destruct (chunk_range g ts t H1 H2 Ht) as (a & b & Hca & -> & Hab & _). apply replace_ok.
    + intros x y Hx Hy. by apply pair_id_ok.
    + intros x y id Hc. destruct (next_conv x y id Hc) as [? Hr]. pose proof (zlookup_range _ _ _ Hr). lia.
    + intros Hnil. rewrite Hnil in Hca. apply (f_equal zlen) in Hca. rewrite zlen_slice in Hca by nia. zlen_simpl. lia.
    + by apply Hch.
    + apply Forall_forall. intros r Hr%chunk_elem. rewrite Forall_forall in Hint. by apply Hint.
    + rewrite Hca, <-slice_concat by nia. destruct (concat_take_mono g (t * ts) b); [nia|]. rewrite zlen_slice; lia.
Qed.

Lemma parts_append :
  foldl append_part (foldl append_part ([], []) ((λ c, (concat c, starts_from 0 c)) <$> rewritten)) ((λ i, (temp_role_edge i, temp_role_vertex i)) <$> ids) =
  (concat next_graph, starts_from 0 next_graph).
Proof using All.
  destruct rows_int as [_ Hint]. unfold next_graph in Hint. apply Forall_app in Hint as [Hi1 Hi2]. pose proof next_graph_bounds as (Hlen & Hrl & Hel). pose proof concat_rewritten as Hcc.
  pose proof (zlen_nonneg (concat pb)). pose proof (zlen_nonneg (concat g)). pose proof (zlen_nonneg g). rewrite ids_parts, (foldl_append_part [] _).
  2:{ apply Forall_forall. intros c Hc. apply Forall_forall. intros r Hr. rewrite Forall_forall in Hi1. apply Hi1. rewrite <-Hcc. apply elem_of_concat. eauto. }
  2:{ rewrite app_nil_l, Hcc. pose proof (zlen_concat_rewrite conv g). lia. }
  rewrite app_nil_l, Hcc. rewrite foldl_append_part; [done| |change (zlen (concat next_graph) ≤ INT_MAX); lia].
  apply Forall_forall. intros c Hc. apply Forall_forall. intros r Hr. rewrite Forall_forall in Hi2. apply Hi2. apply elem_of_concat. eauto.
Qed.
End turn.

(** What a turn does to the graph: rows rewritten, rules appended. *)
Record turn_output (ts : Z) (g pb : list (list Z)) (s : rstate) (g' : list (list Z)) : Prop := {
  to_state : s = RState (concat g') (offsets g') (zlen g' - 1) (pair_buckets s);
  to_input : turn_input ts g' (pair_buckets s);
  to_derives : ∀ n v row l k, n ≤ zlen g → g !z v = Some row → derives g n row l k →
    ∃ row' k', g' !z v = Some row' ∧ derives g' n row' l k';
  to_len : zlen g ≤ zlen g';
  to_pairs : zlen (concat (pair_buckets s)) ≤ zlen (concat pb) + zlen (concat g);
  to_rules : 4 * (zlen g' - zlen g) ≤ zlen (concat pb) + zlen (concat g);
  to_edges : zlen (concat g') ≤ zlen (concat g) + 2 * (zlen g' - zlen g)
}.

Lemma turn_ok iter ts len_vertex g pb :
  (∀ t m, iter t m ≡ₚ map_to_list m) → turn_input ts g pb →
  zlen g + 2 * zlen (concat g) + zlen (concat pb) ≤ INT_MAX → len_vertex / thread_num = ts →
  wp (turn iter len_vertex (RState (concat g) (offsets g) (zlen g - 1) pb))
    (λ s, ∃ g', turn_output ts g pb s g').
Proof.
  intros Hperm Hti Hbound Hts. pose proof Hti as [(r0 & Hr0 & Hne0) H1 H2 Hch Hrange Hpbl _].
  pose proof (zlen_nonneg (concat pb)). pose proof (zlen_nonneg (concat g)). pose proof (zlen_nonneg g).
  assert (Forall (Forall (λ x, 0 ≤ x ≤ INT_MAX)) g) as Hint.
  { eapply Forall_impl; [exact Hrange|]. intros r Hr. eapply Forall_impl; [exact Hr|]. simpl. lia. }
  unfold turn. cbn [input_edge input_vertex max_id pair_buckets]. apply wp_bind. eapply wp_mono; [eapply alloc_pairs_ok; try done; lia|].
  intros buckets Hbk. rewrite Z.sub_add, u32_small, Hts by lia. fold (tables buckets). fold (ids iter g buckets). set (g' := next_graph iter g buckets).
  pose proof (next_graph_bounds iter Hperm ts g pb buckets Hti Hbound Hbk) as (Hlen & Hrl & Hel). fold g' in Hlen, Hel.
  rewrite (threads_rewrite iter Hperm ts g pb buckets Hti Hbound Hbk). cbn [rbind]. pose proof (parts_append iter Hperm ts g pb buckets Hti Hbound Hbk) as Hparts. fold g' in Hparts.
  destruct (foldl append_part ([], []) _) as [edge vertex]. rewrite Hparts. cbn [wp]. exists g'. split; cbn [pair_buckets].
  - rewrite u32_small by (pose proof (zlen_nonneg (concat g')); lia).
    assert (starts_from 0 g' ++ [zlen (concat g')] = offsets g') as ->.
    { unfold offsets. by rewrite offsets_from_starts. }
    f_equal. unfold offsets. rewrite zlen_offsets_from.
    pose proof (zlookup_range _ _ _ Hr0). pose proof (zlen_nonneg (rules iter buckets)).
    rewrite u32_small by lia. lia.
  - by apply (next_input iter Hperm ts g pb buckets).
  - by apply (next_expand iter Hperm ts g pb buckets).
  - pose proof (zlen_nonneg (rules iter buckets)). lia.
  - rewrite (bk_total _ _ _ Hbk). pose proof (zlen_row_pairs g). lia.
  - lia.
  - lia.
Qed.

(** ** Results *)

(** What the constructor needs of its input, a graph with [N] rows: at least
    one edge in the first row and in the rows of every thread, entries that
    are vertices, and [N + 9 E] below [INT_MAX] for [E] edges, so that no
    counter of the three turns leaves its type. *)
Record repair_input (g : list (list Z)) : Prop := {
  ri_row0 : ∃ r, g !z 0 = Some r ∧ r ≠ [];
  ri_ts : 1 ≤ (zlen g + 1) / thread_num;
  ri_last : (thread_num - 1) * ((zlen g + 1) / thread_num) < zlen g;
  ri_chunks : ∀ t, 0 ≤ t < thread_num → concat (chunk g ((zlen g + 1) / thread_num) t) ≠ [];
  ri_range : Forall (Forall (λ x, 0 ≤ x < zlen g)) g;
  ri_bound : zlen g + 9 * zlen (concat g) ≤ INT_MAX
}.

Lemma repair_turn_input g :
  repair_input g →
  turn_input ((zlen g + 1) / thread_num) g (replicate (Z.to_nat thread_num) []).
Proof.
  intros []. split; try done. intros t b h Hb Hh. apply zlookup_elem, elem_of_replicate in Hb as [-> _].
  by apply not_elem_of_nil in Hh.
Qed.

(** The three turns, with the growth of the graph [g'] and of the number of
    pairs collected, in eighths of the number of edges of the input. *)
Definition growth (i q p e : Z) : Prop :=
  i = 1 ∧ q = 0 ∧ p = 0 ∧ e = 8 ∨ i = 2 ∧ q = 2 ∧ p = 8 ∧ e = 12 ∨
  i = 3 ∧ q = 7 ∧ p = 20 ∧ e = 22 ∨ i = 4 ∧ q = 18 ∧ p = 42 ∧ e = 43.

Record after_turns (g : list (list Z)) (i : Z) (s : rstate) (g' : list (list Z)) : Prop := {
  at_state : s = RState (concat g') (offsets g') (zlen g' - 1) (pair_buckets s);
  at_input : turn_input ((zlen g + 1) / thread_num) g' (pair_buckets s);
  at_len : zlen g ≤ zlen g';
  at_growth : ∃ q p e, growth i q p e ∧ 8 * (zlen g' - zlen g) ≤ q * zlen (concat g) ∧
    8 * zlen (concat g') ≤ e * zlen (concat g) ∧
    8 * zlen (concat (pair_buckets s)) ≤ p * zlen (concat g);
  at_derives : ∀ v row, g !z v = Some row → ∃ row' k, g' !z v = Some row' ∧ derives g' (zlen g) row' row k
}.

Lemma after_turns_start g :
  repair_input g →
  after_turns g 1 (RState (concat g) (offsets g) (zlen g - 1) (replicate (Z.to_nat thread_num) [])) g.
Proof.
  intros Hin. split; try done.
  - by apply repair_turn_input.
  - exists 0, 0, 8. split_and!; [by left|lia|lia|done].
  - intros v row Hv. exists row, 0%nat. split; [done|]. apply derives_vertices.
    pose proof (ri_range _ Hin) as Hr. rewrite Forall_forall in Hr.
    eapply Forall_impl; [exact (Hr row (zlookup_elem _ _ _ Hv))|]. simpl. lia.
Qed.

Lemma after_turns_step iter g i s g' :
  (∀ t m, iter t m ≡ₚ map_to_list m) → repair_input g → 1 ≤ i < 4 → after_turns g i s g' →
  wp (turn iter (zlen g + 1) s) (λ s', ∃ g'', after_turns g (i + 1) s' g'').
Proof.
  intros Hperm Hin Hi [Hs Hti Hlen (q & p & e & Hgr & Hb1 & Hb2 & Hb3) Hd].
  pose proof (ri_bound _ Hin) as Hb. pose proof (zlen_nonneg (concat g)). rewrite Hs.
  eapply wp_mono; [eapply turn_ok; try done|].
  { destruct Hgr as [(-> & -> & -> & ->)|[(-> & -> & -> & ->)|[(-> & -> & -> & ->)|(-> & _)]]]; lia. }
  intros s' (g'' & [Hs' Hti' Hder Hlen' Hpairs Hrules Hedges]). exists g''. split; try done.
  - lia.
  - destruct Hgr as [(-> & -> & -> & ->)|[(-> & -> & -> & ->)|[(-> & -> & -> & ->)|(-> & _)]]]; [| | |lia].
    + exists 2, 8, 12. split_and!; try lia. by right; left.
    + exists 7, 20, 22. split_and!; try lia. by do 2 right; left.
    + exists 18, 42, 43. split_and!; try lia. by do 3 right.
  - intros v row Hv. destruct (Hd v row Hv) as (row' & k & Hv' & Hdr).
    destruct (Hder (zlen g) v row' row k Hlen Hv' Hdr) as (row'' & k' & ? & ?). by exists row'', k'.
Qed.

Lemma Repair_ok iter g :
  (∀ k t m, iter k t m ≡ₚ map_to_list m) → repair_input g →
  wp (Repair iter (concat g) (offsets g) (zlen g - 1)) (λ s, ∃ g', after_turns g 4 s g').
Proof.
  intros Hperm Hin. unfold Repair, compress_rate. unfold offsets at 1. rewrite zlen_offsets_from.
  apply (wp_for_up (λ i s, ∃ g', after_turns g i s g')); [lia| | |done].
  - exists g. by apply after_turns_start.
  - intros i s Hi (g' & Hg'). by eapply after_turns_step.
Qed.

(** The result as a CSR graph. *)
Lemma after_turns_csr g s g' :
  repair_input g → after_turns g 4 s g' →
  let m := zlen (input_vertex s) - 1 in
  zlen g ≤ m ≤ INT_MAX ∧ max_id s = m - 1 ∧
  csr_okb (input_vertex s) (input_edge s) m = true ∧
  ∀ v row, g !z v = Some row →
    ∃ k, derives (csr_rows (input_vertex s) (input_edge s) m) (zlen g)
           (csr_row (input_vertex s) (input_edge s) v) row k.
Proof.
  intros Hin [Hs _ Hlen (q & p & e & Hgr & Hb1 & _) Hd]. rewrite Hs. cbn [input_vertex input_edge max_id].
  assert (zlen (offsets g') - 1 = zlen g') as Hm. { unfold offsets. rewrite zlen_offsets_from. lia. }
  pose proof (ri_bound _ Hin). pose proof (zlen_nonneg (concat g)).
  assert (q = 18) as -> by (unfold growth in Hgr; lia).
  cbv zeta. rewrite Hm. split_and!; [done|lia|done|apply csr_okb_offsets|].
  intros v row Hv. destruct (Hd v row Hv) as (row' & k & Hv' & Hdr). exists k.
  by rewrite csr_rows_offsets, (csr_row_offsets _ _ _ Hv').
Qed.

(** C1: the parallel compressor is lossless.  Whatever the iteration order of
    the hash tables, the three turns return without leaving a vector, and give
    a CSR graph in which every vertex expands to its input row, in the same
    order. *)
Theorem Repair_lossless iter g :
  (∀ k t m, iter k t m ≡ₚ map_to_list m) → repair_input g →
  ∃ s, Repair iter (concat g) (offsets g) (zlen g - 1) = Ok s ∧
    let m := zlen (input_vertex s) - 1 in
    zlen g ≤ m ≤ INT_MAX ∧ max_id s = m - 1 ∧
    csr_okb (input_vertex s) (input_edge s) m = true ∧
    ∀ v row, g !z v = Some row →
      ∃ k, derives (csr_rows (input_vertex s) (input_edge s) m) (zlen g)
             (csr_row (input_vertex s) (input_edge s) v) row k.
Proof.
  intros Hperm Hin. destruct (wp_inv _ _ (Repair_ok iter g Hperm Hin)) as (s & Hs & g' & Hg').
  exists s. split; [done|]. by apply (after_turns_csr g s g').
Qed.

(** C13: the counting phase.  The table of a thread holds exactly the pairs
    that its bucket holds at least [threshold] times, each with its count. *)
Theorem processpairs_counts pairs k c :
  zlen pairs < 2 ^ 64 →
  processpairs pairs ∅ !! k = Some c ↔ c = Z.of_nat (cnt k pairs) ∧ threshold ≤ c.
Proof.
  intros Hlen. rewrite processpairs_lookup by done. case_decide; [|by split; [done|intros [-> ?]]].
  split; [by intros [= <-]|by intros [-> _]].
Qed.

Lemma processpairs_counts_witness :
  processpairs [7; 9; 7; 7; 9; 7] ∅ !! 7 = Some 4 ↔
    4 = Z.of_nat (cnt 7 [7; 9; 7; 7; 9; 7]) ∧ threshold ≤ 4.
Proof. apply processpairs_counts. reflexivity. Defined.

(** ** Runs on concrete graphs *)

(** Iteration in the order of the model's finite maps. *)
Definition any_order (_ _ : Z) (m : gmap Z Z) : list (Z * Z) := map_to_list m.

Definition sample : list (list Z) := replicate 45 [0; 1; 2].

Definition repair_inputb (g : list (list Z)) : bool :=
  let ts := (zlen g + 1) / thread_num in
  bool_decide (default [] (g !z 0) ≠ []) && (1 <=? ts) && ((thread_num - 1) * ts <? zlen g) &&
  forallb (λ t, bool_decide (concat (chunk g ts t) ≠ [])) (seqZ 0 thread_num) &&
  forallb (forallb (λ x, (0 <=? x) && (x <? zlen g))) g &&
  (zlen g + 9 * zlen (concat g) <=? INT_MAX).

Lemma repair_inputb_ok g : repair_inputb g = true → repair_input g.
Proof.
  unfold repair_inputb. rewrite !andb_true_iff, !forallb_forall, !bool_decide_eq_true.
  intros (((((H0 & H1) & H2) & H3) & H4) & H5). split; try lia.
  - destruct (g !z 0) as [r|]; [by exists r|done].
  - intros t Ht. specialize (H3 t). rewrite <-list_elem_of_In, elem_of_seqZ, bool_decide_eq_true in H3.
    apply H3. lia.
  - apply Forall_forall. intros r Hr. apply list_elem_of_In in Hr. specialize (H4 r Hr). rewrite forallb_forall in H4.
    apply Forall_forall. intros x Hx. apply list_elem_of_In in Hx. specialize (H4 x Hx). lia.
Qed.

Lemma Repair_lossless_witness :
  ∃ s, Repair any_order (concat sample) (offsets sample) (zlen sample - 1) = Ok s ∧
    let m := zlen (input_vertex s) - 1 in
    zlen sample ≤ m ≤ INT_MAX ∧ max_id s = m - 1 ∧
    csr_okb (input_vertex s) (input_edge s) m = true ∧
    ∀ v row, sample !z v = Some row →
      ∃ k, derives (csr_rows (input_vertex s) (input_edge s) m) (zlen sample)
             (csr_row (input_vertex s) (input_edge s) v) row k.
Proof. apply Repair_lossless; [done|]. apply repair_inputb_ok. vm_compute. reflexivity. Defined.

(** The pair loop of a row stops with an error when it leaves the edge vector; it does not
    return if the end of the row lies behind the vector. *)
Lemma alloc_row_end input_edge lo limit pair_buckets :
  0 ≤ lo → zlen pair_buckets = thread_num →
  wpe OutOfBounds (alloc_row input_edge lo limit pair_buckets) (λ buckets,
    zlen buckets = thread_num ∧ (limit ≤ lo ∨ limit < zlen input_edge)).
Proof.
  intros Hlo Hb. unfold alloc_row. apply wpe_bind.
  apply (wpe_while _ (λ '(idx, buckets) m, lo ≤ idx ∧ zlen buckets = thread_num ∧ m = Z.to_nat (zlen input_edge - idx) ∧
    (lo < idx → idx < zlen input_edge)) (Z.to_nat (zlen input_edge - lo))).
  - split_and!; (done || lia).
  - unfold zlen. lia.
  - intros [idx buckets] m (Hidx & Hbk & -> & Hlast). cbn [wpe]. destruct (Z.ltb_spec idx limit); [|split; [done|lia]].
    unfold vget at 1. destruct (input_edge !z idx) as [x|] eqn:Hx; [|done]. apply zlookup_range in Hx. cbn [rbind].
    unfold vget at 1. destruct (input_edge !z (idx + 1)) as [y|] eqn:Hy; [|done]. apply zlookup_range in Hy. cbn [rbind].
    assert (0 ≤ i32 (x mod thread_num) < zlen buckets) as Hi.
    { rewrite Hbk. pose proof (Z.mod_pos_bound x thread_num ltac:(done)) as Hm. unfold thread_num in *. rewrite i32_small by (unfold INT_MAX; lia). done. }
    destruct (zlookup_total buckets _ Hi) as [r Hr]. rewrite (vpush_ok _ _ _ _ Hr). cbn [rbind wpe].
    exists (Z.to_nat (zlen input_edge - (idx + 1))). rewrite zlen_zinsert. split; [|lia]. split_and!; (done || lia).
Qed.

(** Filling the buckets of the threads ends, with or without that error. *)
Lemma alloc_pairs_end g buckets :
  zlen buckets = thread_num →
  wpe OutOfBounds (alloc_pairs (concat g) (offsets g) buckets) (λ buckets', zlen buckets' = thread_num).
Proof.
  intros Hb. unfold alloc_pairs. assert (zlen (offsets g) = zlen g + 1) as -> by (unfold offsets; rewrite zlen_offsets_from; lia).
  pose proof (zlen_nonneg g). destruct (Z.eqb_spec (zlen g + 1) 0); [lia|].
  apply (wpe_for_up _ (λ _ buckets, zlen buckets = thread_num)); [lia|done| |done]. intros i buckets' Hi Hb'.
  unfold vget at 1. destruct (offsets g !z i) as [lo|] eqn:Hlo; [|done]. unfold vget. destruct (offsets g !z (i + 1)) as [hi|]; [|done]. cbn [rbind].
  eapply wpe_mono; [apply alloc_row_end; [|done]|by intros ? []]. by apply (offsets_bound g), (zlookup_elem _ i).
Qed.

(** C14: every graph whose first vertex has no successor is outside the domain of the
    compressor, whatever the iteration order of its tables and the symbol it is given as
    the largest one: [input_vertex[1] - 1] wraps around in [uint32_t], and the pair loop
    of the first turn runs off the end of the edge vector. *)
Theorem Repair_empty_first_row iter g max_symbol :
  zlen (concat g) < 2 ^ 32 →
  Repair iter (concat ([] :: g)) (offsets ([] :: g)) max_symbol = Err OutOfBounds.
Proof.
  intros Hlen. unfold Repair. rewrite for_up_cons by done. unfold turn, alloc_pairs. cbn [input_edge input_vertex pair_buckets].
  assert (zlen (offsets ([] :: g)) = zlen g + 2) as Hz by (unfold offsets; rewrite zlen_offsets_from, zlen_cons; lia).
  pose proof (zlen_nonneg g). rewrite Hz. destruct (Z.eqb_spec (zlen g + 2) 0); [lia|]. rewrite for_up_cons by lia.
  assert (vget (offsets ([] :: g)) 0 = Ok 0 ∧ vget (offsets ([] :: g)) (0 + 1) = Ok 0) as [-> ->] by (by destruct g). cbn [rbind concat app].
  rewrite (wpe_err OutOfBounds (alloc_row (concat g) 0 (u32 (0 - 1)) _)); [done|]. eapply wpe_mono; [by apply alloc_row_end|].
  intros b [_ Hl]. change (u32 (0 - 1)) with (2 ^ 32 - 1) in Hl. lia.
Qed.

Lemma Repair_empty_first_row_witness :
  Repair any_order (concat ([] :: replicate 44 [0; 1; 2])) (offsets ([] :: replicate 44 [0; 1; 2])) 44 = Err OutOfBounds.
Proof. apply Repair_empty_first_row. reflexivity. Defined.

(** C15: so is every graph with fewer than [thread_num] offsets: the threads get empty
    vertex buckets and [replace] reads the first entry of one. *)
Theorem Repair_few_vertices iter g max_symbol :
  zlen g + 1 < thread_num → Repair iter (concat g) (offsets g) max_symbol = Err OutOfBounds.
Proof.
  intros Hlen. assert (zlen (offsets g) = zlen g + 1) as Hz by (unfold offsets; rewrite zlen_offsets_from; lia). pose proof (zlen_nonneg g).
  unfold Repair. rewrite for_up_cons by done. unfold turn at 1. cbn [input_edge input_vertex pair_buckets max_id]. rewrite !rbind_assoc. apply wpe_err, wpe_bind.
  eapply wpe_mono; [by apply alloc_pairs_end|]. intros buckets _. cbv zeta. rewrite Hz, (Z.div_small (zlen g + 1)) by lia.
  change (seqZ 0 thread_num) with (0 :: seqZ 1 39). cbn [mapr]. unfold split_bucket. rewrite (proj2 (Z.ltb_lt 0 (thread_num - 1))) by done.
  rewrite !Z.mul_0_r. unfold vrange at 1. rewrite (proj2 (Z.leb_le 0 (zlen (offsets g)))) by lia. cbn [andb Z.leb Z.compare rbind].
  assert (vget (offsets g) 0 = Ok 0) as -> by (by destruct g). cbn [rbind]. unfold vrange.
  rewrite (proj2 (Z.leb_le 0 (zlen (concat g)))) by apply zlen_nonneg. cbn [andb Z.leb Z.compare rbind]. by rewrite !slice_nil by lia.
Qed.

Lemma Repair_few_vertices_witness :
  Repair any_order (concat (replicate 20 [0; 1; 2])) (offsets (replicate 20 [0; 1; 2])) 19 = Err OutOfBounds.
Proof. apply Repair_few_vertices. reflexivity. Defined.

(** The pairs collected in one turn are still in the buckets in the next
    one, so pairs that no longer occur are counted again and get rules: the
    output has rules that occur in no row. *)
Example Repair_unused_rules :
  ∃ s, Repair any_order (concat sample) (offsets sample) (zlen sample - 1) = Ok s ∧
    ∃ r, zlen sample ≤ r ≤ max_id s ∧ r ∉ input_edge s.
Proof.
  eexists. split; [vm_compute; reflexivity|]. cbn [max_id input_edge]. exists 46.
  split; [done|]. apply (bool_decide_unpack _). vm_compute. exact I.
Qed.
