(* ===== verification/ParMain.v ===== *)
(** * The parallel program

    [Laconic_parallel/core/IO.h], [core/check.h], [core/filter.h] and
    [src/compress.cc].  Files are texts, read with [>>]; a file that
    cannot be opened ends the program.  The checker and the filter are the serial ones at another integer
    type, apart from the frequency update of the filter and the recursive
    checker, which are modelled here. *)

From S2P Require Import Prelude TextIO Csr Grammar Check Filter ParCompress.

(** ** IO.h *)

(** [sequence] and the largest symbol; [None]: the file does not exist, and the program
    exits. *)
Definition load_edge_file (infile : option text) (sequence : list Z) : option (list Z * Z) :=
  numbers ← read_numbers uint32 <$> infile;
  Some (foldl (λ '(sequence, max_symbol) tmp, (sequence ++ [tmp], Z.max tmp max_symbol)) (sequence, 0) numbers).

Definition load_vertex_file (infile : option text) (sequence : list Z) : option (list Z) :=
  numbers ← read_numbers uint32 <$> infile;
  Some (foldl (λ sequence tmp, sequence ++ [tmp]) sequence numbers).

(** ** check.h *)

(** [decompress]: the entry [x] of a rule is replaced by the edges from
    position [x] to the position given by the next entry. *)
Fixpoint decompress (fuel : nat) (max_id : Z) (compressed_vec compress_v compress_e : list Z)
    : res (list Z) :=
  match fuel with
  | O => Err OutOfFuel
  | S fuel' =>
      for_up 0 (zlen compressed_vec) (λ i temp_vec,
        let* x := vget compressed_vec i in
        if max_id <? x then
          let* y := vget compressed_vec (i + 1) in
          let* new_vec := vrange compress_e x y in
          let* new_role := decompress fuel' max_id new_vec compress_v compress_e in
          Ok (temp_vec ++ new_role)
        else Ok (temp_vec ++ [x])) []
  end.

(** [check] only prints; the model returns the first vertex that differs, at
    which the loop stops.  With fewer than two offsets [origin_v.size() - 2]
    wraps around and the first round reads [origin_v] out of bounds. *)
Definition check (fuel : nat) (origin_v origin_e compress_v compress_e : list Z) (max_id : Z)
    : res (option Z) :=
  if zlen origin_v <? 2 then Err OutOfBounds else
  for_up 0 (zlen origin_v - 2) (λ j found,
    match found with
    | Some v => Ok (Some v)
    | None =>
        let* a := vget origin_v j in
        let* b := vget origin_v (j + 1) in
        let* temp := vrange origin_e a b in
        let* c := vget compress_v j in
        let* d := vget compress_v (j + 1) in
        let* compress_temp := vrange compress_e c d in
        let* compress_temp := decompress fuel max_id compress_temp compress_v compress_e in
        if bool_decide (temp = compress_temp) then Ok None else Ok (Some j)
    end) None.

Definition get_ori_successors := Check.get_ori_successors.
Definition push_successors := Check.push_successors.
Definition get_compress_successors := Check.get_compress_successors.
Definition compare := Check.compare.
Definition csr_convert := Csr.csr_convert.

(** [vertex_cnt + rule_cnt] is a [uint32_t]. *)
Definition check_csr (fuel : nat) (vlist elist compress_vlist compress_elist : list Z)
    (vertex_cnt rule_cnt : Z) : res bool :=
  let total := u32 (vertex_cnt + rule_cnt) in
  let* graph := csr_convert (replicate (Z.to_nat vertex_cnt) []) vlist elist vertex_cnt in
  let* compressed_graph := csr_convert (replicate (Z.to_nat total) []) compress_vlist compress_elist total in
  check_loop fuel graph compressed_graph vertex_cnt.

(** ** filter.h *)

Definition judgeRule := Filter.judgeRule.
Definition initInfoForRule := Filter.initInfoForRule.
Definition csr_convert_filter := Csr.csr_convert.
Definition csr_convert_filter_idx := Csr.csr_convert_idx.
Definition genNewGraphCSR := Csr.genNewGraphCSR.
Definition genNewIdForRule := Csr.genNewIdForRule.

(** [rif[..].freq += graphT[child_id].size()]: the number of occurrences is
    added to the old frequency. *)
Definition mergeRule : Z → Z → fstate → Z → res fstate :=
  mergeRule_with (λ old occurrences, old + occurrences).

Definition filter_csr (vlist elist : list Z) (vertex_cnt rule_cnt threshold : Z)
    : res (list Z * list Z * Z * Z) :=
  let total := u32 (vertex_cnt + rule_cnt) in
  let* graph := csr_convert_filter (replicate (Z.to_nat total) []) vlist elist total in
  let* graphT := csr_convert_filter_idx (replicate (Z.to_nat total) []) vlist elist total in
  let rif := replicate (Z.to_nat rule_cnt) (RuleInfo 0 0) in
  let merge_flag := replicate (Z.to_nat rule_cnt) false in
  let* st := initInfoForRule threshold (FState graph graphT rif merge_flag) vertex_cnt rule_cnt in
  let* st := for_up 0 rule_cnt (λ i st,
    let* b := vget (fflag st) i in
    if b : bool then mergeRule threshold i st vertex_cnt else Ok st) st in
  let* '(newRuleId, newRule_cnt) :=
    genNewIdForRule (replicate (Z.to_nat rule_cnt) 0) (fflag st) vertex_cnt rule_cnt in
  let* '(new_vlist, new_elist) :=
    genNewGraphCSR [] [] (fgraph st) newRuleId (fflag st) vertex_cnt in
  Ok (new_vlist, new_elist, vertex_cnt, newRule_cnt).

(** ** compress.cc *)

(** Result: the compressed edges and vertices, and the largest id; [None] when the
    program exits because a file does not exist. *)
Definition main (iter : Z → Z → gmap Z Z → list (Z * Z)) (edge_file vertex_file : option text)
    : res (option rstate) :=
  match load_edge_file edge_file [], load_vertex_file vertex_file [] with
  | Some (sequence_edge, max_symbol), Some sequence_vertex =>
      let* s := Repair iter sequence_edge sequence_vertex max_symbol in
      Ok (Some s)
  | _, _ => Ok None
  end.

(** ** Results *)

Lemma foldl_push (l sequence : list Z) : foldl (λ sequence tmp, sequence ++ [tmp]) sequence l = sequence ++ l.
Proof.
  revert sequence. induction l as [|x l IH]; intros sequence; simpl.
  - by rewrite app_nil_r.
  - by rewrite IH, <-app_assoc.
Qed.

(** The edges and an upper bound of them that is attained. *)
Lemma foldl_push_max (l sequence : list Z) m :
  0 ≤ m → foldl (λ '(sequence, max_symbol) tmp, (sequence ++ [tmp], Z.max tmp max_symbol)) (sequence, m) l =
    (sequence ++ l, Z.max m (foldr Z.max 0 l)).
Proof.
  revert sequence m. induction l as [|x l IH]; intros sequence m Hm; simpl.
  - rewrite app_nil_r. f_equal. lia.
  - rewrite IH, <-app_assoc by lia. f_equal. lia.
Qed.

(** A file of numbers of type [uint32_t]. *)
Definition number_file (file : option text) (l : list Z) : Prop :=
  ∃ s, file = Some s ∧ holds s l ∧ Forall (λ z, 0 ≤ z < 2 ^ 32) l.

Lemma number_file_read file l : number_file file l → read_numbers uint32 <$> file = Some l.
Proof.
  intros (s & -> & Hs & Hl). simpl. f_equal. apply read_numbers_show; [done| |done].
  eapply Forall_impl; [exact Hl|]. cbv [type_min type_max uint32 signed width]. lia.
Qed.

Lemma load_vertex_file_ok file l : number_file file l → load_vertex_file file [] = Some l.
Proof. intros Hf. unfold load_vertex_file. rewrite (number_file_read _ _ Hf). simpl. by rewrite foldl_push. Qed.

Lemma load_edge_file_ok file l : number_file file l → load_edge_file file [] = Some (l, foldr Z.max 0 l).
Proof.
  intros Hf. unfold load_edge_file. rewrite (number_file_read _ _ Hf). simpl. rewrite foldl_push_max by done. do 2 f_equal.
  enough (0 ≤ foldr Z.max 0 l) by lia. clear. induction l; simpl; lia.
Qed.

Lemma number_file_lines l : forallb (λ z, (0 <=? z) && (z <? 2 ^ 32)) l = true → number_file (Some (lines l)) l.
Proof.
  intros Hl. exists (lines l). split_and!; [done|apply lines_hold|]. apply Forall_forall. intros z Hz%list_elem_of_In.
  rewrite forallb_forall in Hl. specialize (Hl z Hz). lia.
Qed.

Lemma max_symbol_ok edges m :
  Forall (λ x, 0 ≤ x ≤ m) edges → m ∈ edges → foldr Z.max 0 edges = m.
Proof.
  intros Hall Hm. assert (foldr Z.max 0 edges ≤ m) as Hle.
  { assert (0 ≤ m) by (rewrite Forall_forall in Hall; by apply (Hall m)). clear Hm.
    induction Hall; simpl; lia. }
  clear Hall. induction Hm as [x l|x y l _ IH]; simpl in *; lia.
Qed.

(** C3: the program is lossless.  On the files of a graph the compressor
    accepts and whose last vertex is the target of an edge, [main] returns a
    compressed graph, and [check_csr] of the input against it terminates and
    answers [true]. *)
Theorem main_passes_check iter g edge_file vertex_file :
  (∀ k t m, iter k t m ≡ₚ map_to_list m) → repair_input g → zlen g - 1 ∈ concat g →
  number_file edge_file (concat g) → number_file vertex_file (offsets g) →
  ∃ s, main iter edge_file vertex_file = Ok (Some s) ∧
    let rule_cnt := zlen (input_vertex s) - zlen (offsets g) in
    ∃ N : nat, ∀ fuel, (N ≤ fuel)%nat →
      check_csr fuel (offsets g) (concat g) (input_vertex s) (input_edge s)
        (zlen (offsets g) - 1) rule_cnt = Ok true.
Proof.
  intros Hperm Hin Hmax Hef Hvf. destruct (wp_inv _ _ (Repair_ok iter g Hperm Hin)) as (s & Hs & g' & Hg').
  destruct (after_turns_csr g s g' Hin Hg') as (Hm & Hid & Hok & Hd). exists s. unfold main.
  rewrite (load_edge_file_ok _ _ Hef), (load_vertex_file_ok _ _ Hvf).
  rewrite (max_symbol_ok _ (zlen g - 1)); [|apply Forall_concat_rows|done].
  2:{ eapply Forall_impl; [exact (ri_range _ Hin)|]. intros r Hr. eapply Forall_impl; [exact Hr|].
      simpl. lia. }
  rewrite Hs. split; [done|]. cbv zeta. replace (zlen (offsets g)) with (zlen g + 1) by (symmetry; apply zlen_offsets_from).
  replace (zlen g + 1 - 1) with (zlen g) by lia. set (m := zlen (input_vertex s) - 1) in *.
  pose proof (zlen_nonneg g) as Hg.
  destruct (expansions_fuel (csr_rows (input_vertex s) (input_edge s) m) (zlen g) (length g)) as [N HN].
  { intros v crow Hv Hcrow. rewrite zlookup_csr_rows in Hcrow by (unfold zlen in *; lia). simplify_eq.
    destruct (zlookup_total g v) as [row Hrow]; [done|]. destruct (Hd v row Hrow). eauto. }
  exists N. intros fuel Hf. unfold check_csr, csr_convert.
  replace (zlen g + (zlen (input_vertex s) - (zlen g + 1))) with m by lia.
  assert (u32 m = m) as Hu.
  { apply u32_small. lia. }
  rewrite Hu. rewrite csr_convert_rows by (done || apply csr_okb_offsets). simpl.
  rewrite csr_convert_rows by (done || lia). simpl. rewrite csr_rows_offsets.
  destruct (wp_inv _ _ (check_loop_ok fuel g (csr_rows (input_vertex s) (input_edge s) m) (zlen g)
    ltac:(lia) ltac:(rewrite zlen_csr_rows; lia)
    ltac:(intros v crow Hv Hc; destruct (HN v crow Hv Hc) as (l & k & ? & ?); exists l, k; split; [done|lia])))
    as (b & -> & Hb). f_equal. apply Hb. intros v row crow l k Hv Hrow Hcrow Hdl.
  rewrite zlookup_csr_rows in Hcrow by lia. simplify_eq. destruct (Hd v row Hrow) as [k' Hd'].
  destruct (derives_det _ _ _ _ _ _ _ Hd' Hdl) as [-> _]. done.
Qed.

Definition sample_closed : list (list Z) := replicate 44 [0; 1; 2] ++ [[0; 1; 44]].

Lemma main_passes_check_witness :
  ∃ s, main any_order (Some (lines (concat sample_closed))) (Some (lines (offsets sample_closed))) = Ok (Some s) ∧
    let rule_cnt := zlen (input_vertex s) - zlen (offsets sample_closed) in
    ∃ N : nat, ∀ fuel, (N ≤ fuel)%nat →
      check_csr fuel (offsets sample_closed) (concat sample_closed) (input_vertex s) (input_edge s)
        (zlen (offsets sample_closed) - 1) rule_cnt = Ok true.
Proof.
  apply main_passes_check; [done| | | |].
  - apply repair_inputb_ok. vm_compute. reflexivity.
  - apply (zlookup_elem _ 134). reflexivity.
  - apply number_file_lines. vm_compute. reflexivity.
  - apply number_file_lines. vm_compute. reflexivity.
Defined.

(** The largest symbol of the edge file is taken for the last vertex.  Here the last
    vertex is not the target of an edge: the constructor reports a bad input and goes
    on with rule ids that are vertex numbers, and the checker rejects the result. *)
Example main_max_symbol :
  ∃ s, main any_order (Some (lines (concat sample))) (Some (lines (offsets sample))) = Ok (Some s) ∧
    check_csr 100 (offsets sample) (concat sample) (input_vertex s) (input_edge s)
      (zlen sample) (zlen (input_vertex s) - zlen (offsets sample)) = Ok false.
Proof. eexists. split; [vm_compute; reflexivity|]. vm_compute. reflexivity. Qed.

(** The recursive checker reads the edge vector at the rule number instead
    of at the rule's offset, and the next symbol as the end of the rule: on a
    graph whose only rule is correct it leaves the vectors, while [check_csr]
    accepts the graph. *)
Example decompress_reads_rule_number :
  let g := [[0; 1]; [0; 1]; [2]] in
  let cg := [[3]; [3]; [2]; [0; 1]] in
  check_csr 10 (offsets g) (concat g) (offsets cg) (concat cg) 3 1 = Ok true ∧
  check 10 (offsets g) (concat g) (offsets cg) (concat cg) 2 = Err OutOfBounds.
Proof. split; vm_compute; reflexivity. Qed.

(** The frequency of a child of a merged rule is added up instead of
    recomputed, so the parallel filter keeps a rule that the serial one
    drops. *)
Example filter_csr_counts_twice :
  let g := [[3]; [4; 0]; [0]; [4; 0]; [1; 2]] in
  Filter.filter_csr (offsets g) (concat g) 3 2 0 = Ok ([0; 3; 6; 7], [1; 2; 0; 1; 2; 0; 0], 3, 0) ∧
  filter_csr (offsets g) (concat g) 3 2 0 = Ok ([0; 2; 4; 5; 7], [3; 0; 3; 0; 0; 1; 2], 3, 1).
Proof. split; vm_compute; reflexivity. Qed.
