(* ===== verification/ParThreads.v ===== *)
(** * The threads of the parallel compressor

    [Laconic_parallel/core/compress.h] with its threads.  [ParCompress] runs each phase
    of a turn as a loop over the threads; here the threads of a phase share one
    memory, the vectors of tables and sequences, and every access to it is an atomic
    step.  [schedule] chooses the order of the steps.  The main result: every
    interleaving ends, and the result is the one of [ParCompress].  That no two threads
    of a phase access the same entry, one of them writing it, is what the instances of
    [Owns] and [Reads] below say; the error [DataRace] stands for the one access that would
    change a table that is shared, the insertion of a missing key. *)

From S2P Require Import Prelude TextIO Csr Grammar Threads ParCompress ParMain.
#[local] Open Scope prog_scope.

(** ** Memory *)

(** The global vectors, and the ones the constructor passes to its threads. *)
Record mem := Mem {
  m_pairs : list (list Z);            (** [pair_buckets] *)
  hash_table : list (gmap Z Z);
  new_start_id : list Z;
  convert_id : list (gmap Z Z);
  role_edge : list (list Z);
  role_vertex : list (list Z);
  m_buckets : list (list Z);          (** [buckets] *)
  vertex_buckets : list (list Z);
  new_edge_sequence : list (list Z);
  new_vertex_sequence : list (list Z)
}.

(** A vector of the memory. *)
Record field (A : Type) := Field { get : mem → list A; put : list A → mem → mem }.
Arguments Field {A} get put.
Arguments get {A}.
Arguments put {A}.

Definition f_hash_table : field (gmap Z Z) := Field hash_table
  (λ l '(Mem a _ c d e f g h i j), Mem a l c d e f g h i j).
Definition f_new_start_id : field Z := Field new_start_id
  (λ l '(Mem a b _ d e f g h i j), Mem a b l d e f g h i j).
Definition f_convert_id : field (gmap Z Z) := Field convert_id
  (λ l '(Mem a b c _ e f g h i j), Mem a b c l e f g h i j).
Definition f_role_edge : field (list Z) := Field role_edge
  (λ l '(Mem a b c d _ f g h i j), Mem a b c d l f g h i j).
Definition f_role_vertex : field (list Z) := Field role_vertex
  (λ l '(Mem a b c d e _ g h i j), Mem a b c d e l g h i j).
Definition f_vertex_buckets : field (list Z) := Field vertex_buckets
  (λ l '(Mem a b c d e f g _ i j), Mem a b c d e f g l i j).
Definition f_new_edge_sequence : field (list Z) := Field new_edge_sequence
  (λ l '(Mem a b c d e f g h _ j), Mem a b c d e f g h l j).
Definition f_new_vertex_sequence : field (list Z) := Field new_vertex_sequence
  (λ l '(Mem a b c d e f g h i _), Mem a b c d e f g h i l).

(** Read something, and change entry [t] of a vector. *)
Definition look {A} (f : mem → res A) : prog mem A := act (λ m, let* a := f m in Ok (m, a)).

Definition upd {A B} (v : field A) (t : nat) (g : A → res (A * B)) : prog mem B :=
  act (λ m,
    let* x := vget (get v m) (Z.of_nat t) in
    let* '(y, b) := g x in
    Ok (put v (zinsert (get v m) (Z.of_nat t) y) m, b)).

Definition upd_ {A} (v : field A) (t : nat) (g : A → A) : prog mem () := upd v t (λ x, Ok (g x, tt)).

(** ** The threads *)

(** [processpairs(pair_buckets[t], hash_table[t])].  The increment of a counter reads
    and writes it in two steps. *)
Definition processpairs_thread (t : nat) : prog mem () :=
  do* pairs := look (λ m, vget (m_pairs m) (Z.of_nat t)) in
  do* _ := pfor_each pairs (λ pair _,
    do* iter := look (λ m, let* table := vget (hash_table m) (Z.of_nat t) in Ok (table !! pair)) in
    match iter with
    | Some c => upd_ f_hash_table t (λ table, <[pair := u64 (c + 1)]> table)
    | None => upd_ f_hash_table t (λ table, <[pair := 1]> table)
    end) tt in
  upd_ f_hash_table t (λ table, filter (λ kvp, ¬ kvp.2 < threshold) table).

(** [prepare_new_id(hash_table[t], new_start_id[t], convert_id[t], role_edge[t],
    role_vertex[t])]; [iter t] is the iteration order of the table. *)
Definition prepare_new_id_thread (iter : Z → gmap Z Z → list (Z * Z)) (t : nat) : prog mem () :=
  do* table := look (λ m, vget (hash_table m) (Z.of_nat t)) in
  do* _ := pfor_each (iter (Z.of_nat t) table) (λ item cur_v_offset,
    do* start_id := look (λ m, vget (new_start_id m) (Z.of_nat t)) in
    do* _ := upd_ f_convert_id t (λ convert,
      match convert !! item.1 with
      | Some _ => convert
      | None => <[item.1 := start_id]> convert
      end) in
    do* _ := upd_ f_new_start_id t (λ start_id, u64 (start_id + 1)) in
    do* _ := upd_ f_role_vertex t (λ role_vertex, role_vertex ++ [u32 cur_v_offset]) in
    do* _ := upd_ f_role_edge t (λ role_edge, role_edge ++ [u32 (i32 (Z.shiftr item.1 32))]) in
    do* _ := upd_ f_role_edge t (λ role_edge, role_edge ++ [u32 (i32 item.1)]) in
    Ret (u64 (cur_v_offset + 2))) 0 in
  Ret tt.

(** [replace(buckets[t], vertex_buckets[t], new_edge_sequence[t],
    new_vertex_sequence[t])]; the tables of all threads are read. *)
Definition edges_of (t : nat) (m : mem) : res (list Z) := vget (m_buckets m) (Z.of_nat t).
Definition vertices_of (t : nat) (m : mem) : res (list Z) := vget (vertex_buckets m) (Z.of_nat t).

Definition pair_id_thread (first second : Z) : prog mem (option Z) :=
  let table_id := i32 ((u64 first) mod thread_num) in
  let hash_value := pair_hash first second in
  do* found := look (λ m, let* table := vget (hash_table m) table_id in Ok (table !! hash_value)) in
  match found with
  | None => Ret None
  | Some _ => look (λ m,
      let* convert := vget (convert_id m) table_id in
      match convert !! hash_value with
      | Some id => Ok (Some id)
      | None => Err DataRace
      end)
  end.

Definition scan_thread (cast : Z → Z) (t len : nat) (limit : mem → res Z) : Z * Z → prog mem (Z * Z) :=
  pwhile (S len) (λ '(idx, _), look (λ m, let* l := limit m in Ok (cast idx <? l)))
    (λ '(idx, vsize),
      do* x := look (λ m, let* edges := edges_of t m in vget edges idx) in
      do* y := look (λ m, let* edges := edges_of t m in vget edges (idx + 1)) in
      do* found := pair_id_thread x y in
      match found with
      | Some id =>
          do* _ := upd_ f_new_edge_sequence t (λ new_edge, new_edge ++ [i32 id]) in
          Ret (idx + 2, vsize + 1)
      | None =>
          do* _ := upd_ f_new_edge_sequence t (λ new_edge, new_edge ++ [x]) in
          Ret (idx + 1, vsize + 1)
      end).

Definition replace_row_thread (cast : Z → Z) (t len : nat) (lo : Z) (hi limit : mem → res Z) (vsize : Z) : prog mem Z :=
  do* '(idx, vsize) := scan_thread cast t len limit (lo, vsize) in
  do* single := look (λ m, let* h := hi m in Ok (cast idx <? h)) in
  if single : bool then
    do* x := look (λ m, let* h := hi m in let* edges := edges_of t m in vget edges (h - 1)) in
    do* _ := upd_ f_new_edge_sequence t (λ new_edge, new_edge ++ [x]) in
    Ret (vsize + 1)
  else Ret vsize.

Definition replace_thread (t : nat) : prog mem () :=
  do* len := look (λ m, let* edges := edges_of t m in Ok (length edges)) in
  do* '(offset, size) := look (λ m, let* vs := vertices_of t m in let* o := vget vs 0 in Ok (o, zlen vs)) in
  do* _ := pfor_up 0 size (λ vidx _, upd f_vertex_buckets t (λ vs,
    let* x := vget vs vidx in
    let* vs := vset vs vidx (x - offset) in
    Ok (vs, tt))) tt in
  do* vsize := pfor_up 0 (size - 1) (λ vidx vsize,
    do* _ := upd_ f_new_vertex_sequence t (λ new_vertex, new_vertex ++ [vsize]) in
    do* lo := look (λ m, let* vs := vertices_of t m in vget vs vidx) in
    replace_row_thread (λ i, i) t len lo
      (λ m, let* vs := vertices_of t m in vget vs (vidx + 1))
      (λ m, let* vs := vertices_of t m in let* hi := vget vs (vidx + 1) in Ok (hi - 1)) vsize) 0 in
  do* _ := upd_ f_new_vertex_sequence t (λ new_vertex, new_vertex ++ [vsize]) in
  do* lo := look (λ m, let* vs := vertices_of t m in vget vs (size - 1)) in
  do* _ := replace_row_thread u64 t len lo
    (λ m, let* edges := edges_of t m in Ok (zlen edges))
    (λ m, let* edges := edges_of t m in Ok (u64 (zlen edges - 1))) vsize in
  Ret tt.

(** ** The constructor *)

Abbreviation threads := (Z.to_nat thread_num).

(** [threads.emplace_back(..)] for every thread, and [join]. *)
Definition spawn (fuel : nat) (schedule : nat → nat) (thread : nat → prog mem ()) (m : mem) : res mem :=
  par fuel schedule (thread <$> seq 0 threads) m.

(** The vectors of the constructor and the memory of its threads. *)
Record pstate := PState { p_edge : list Z; p_vertex : list Z; p_max_id : Z; shared : mem }.

(** [clear] of the first [thread_num] entries. *)
Definition clear {A} `{Empty A} (l : list A) : list A := replicate threads ∅ ++ drop threads l.
Definition clears (l : list (list Z)) : list (list Z) := replicate threads [] ++ drop threads l.

Definition turn_threads (fuel : nat) (schedule : nat → nat → nat) (iter : Z → gmap Z Z → list (Z * Z)) (len_vertex : Z)
    (s : pstate) : res pstate :=
  let '(PState edge vertex max_id (Mem pairs tables start convert redge rvertex bs vbs nedge nvertex)) := s in
  let* pairs := alloc_pairs edge vertex pairs in
  let* m := spawn fuel (schedule 0%nat) processpairs_thread (Mem pairs tables start convert redge rvertex bs vbs nedge nvertex) in
  let '(Mem pairs tables start convert redge rvertex bs vbs nedge nvertex) := m in
  let start := start_ids (u32 (max_id + 1)) tables in
  let redge := redge ++ replicate threads [] in
  let rvertex := rvertex ++ replicate threads [] in
  let* m := spawn fuel (schedule 1%nat) (prepare_new_id_thread iter) (Mem pairs tables start convert redge rvertex bs vbs nedge nvertex) in
  let '(Mem pairs tables start convert redge rvertex bs vbs nedge nvertex) := m in
  let* parts := mapr (split_bucket edge vertex (len_vertex / thread_num)) (seqZ 0 thread_num) in
  let nedge := nedge ++ replicate threads [] in
  let nvertex := nvertex ++ replicate threads [] in
  let* m := spawn fuel (schedule 2%nat) replace_thread (Mem pairs tables start convert redge rvertex (parts.*1) (parts.*2) nedge nvertex) in
  let '(Mem pairs tables start convert redge rvertex bs vbs nedge nvertex) := m in
  let '(edge, vertex) := foldl append_part ([], []) (zip nedge nvertex) in
  let '(edge, vertex) := foldl append_part (edge, vertex) (zip (take threads redge) (take threads rvertex)) in
  let vertex := vertex ++ [u32 (zlen edge)] in
  Ok (PState edge vertex (u32 (zlen vertex - 2))
    (Mem pairs (clear tables) start (clear convert) (clears redge) (clears rvertex) bs vbs [] [])).

Definition Repair_threads (fuel : nat) (schedule : Z → nat → nat → nat) (iter : Z → Z → gmap Z Z → list (Z * Z))
    (input_edge input_vertex : list Z) (max_symbol : Z) : res pstate :=
  let len_vertex := zlen input_vertex in
  let m := Mem (replicate threads []) (replicate threads ∅) (replicate threads 0) (replicate threads ∅) [] []
    (replicate threads []) (replicate threads []) [] [] in
  for_up 1 (compress_rate + 1) (λ k s, turn_threads fuel (schedule k) (iter k) len_vertex s)
    (PState input_edge input_vertex max_symbol m).

(** [main] with the threads of the constructor. *)
Definition main_threads (fuel : nat) (schedule : Z → nat → nat → nat) (iter : Z → Z → gmap Z Z → list (Z * Z))
    (edge_file vertex_file : option text) : res (option pstate) :=
  match load_edge_file edge_file [], load_vertex_file vertex_file [] with
  | Some (sequence_edge, max_symbol), Some sequence_vertex =>
      let* s := Repair_threads fuel schedule iter sequence_edge sequence_vertex max_symbol in
      Ok (Some s)
  | _, _ => Ok None
  end.

(** ** What a thread may access *)

(** Entry [t] of a vector that the threads of a phase share. *)
Definition entry {A} (t : nat) (l : list A) : nat * option A := (length l, l !! t).
#[local] Arguments entry : simpl never.

Definition count_view (t : nat) (m : mem) :=
  let '(Mem a b c d e f g h i j) := m in ((a, c, d, e, f, g), (h, i, j), entry t b).
Definition ids_view (t : nat) (m : mem) :=
  let '(Mem a b c d e f g h i j) := m in ((a, b, g, h, i, j), entry t c, entry t d, entry t e, entry t f).
Definition replace_view (t : nat) (m : mem) :=
  let '(Mem a b c d e f g h i j) := m in ((a, b, c, d, e, f, g), entry t h, entry t i, entry t j).

(** Thread [t] owns entry [t] of the vector [v]. *)
Class Owns {V A} (view : nat → mem → V) (v : field A) : Prop := {
  own_get t m1 m2 : view t m1 = view t m2 → entry t (get v m1) = entry t (get v m2);
  own_put t m1 m2 y : view t m1 = view t m2 →
    view t (put v (<[t := y]> (get v m1)) m1) = view t (put v (<[t := y]> (get v m2)) m2);
  own_frame t u m y : u ≠ t → view u (put v (<[t := y]> (get v m)) m) = view u m
}.

(** What [f] reads is in the view. *)
Class Reads {V A} (view : nat → mem → V) (t : nat) (f : mem → A) : Prop :=
  reads m1 m2 : view t m1 = view t m2 → f m1 = f m2.

Lemma entry_insert {A} t y (l1 l2 : list A) :
  entry t l1 = entry t l2 → entry t (<[t := y]> l1) = entry t (<[t := y]> l2).
Proof.
  unfold entry. intros [= Hl Ht]. rewrite !length_insert, Hl. f_equal. by rewrite !list_lookup_insert, Hl, Ht.
Qed.

Lemma entry_insert_ne {A} t u y (l : list A) : u ≠ t → entry u (<[t := y]> l) = entry u l.
Proof. intros Hne. unfold entry. by rewrite length_insert, list_lookup_insert_ne. Qed.

Ltac view_cases m := destruct m as [? ? ? ? ? ? ? ? ? ?].
Ltac split_view := repeat match goal with H : (_, _) = (_, _) |- _ => apply pair_equal_spec in H as [? ?] end.
Ltac solve_owns :=
  split;
  [ intros t m1 m2; view_cases m1; view_cases m2; cbn; intros; split_view; done
  | intros t m1 m2 y; view_cases m1; view_cases m2; cbn; intros; split_view; subst;
    repeat match goal with H : entry t ?a = entry t ?b |- _ => (rewrite (entry_insert t y a b H) || rewrite H); clear H end; done
  | intros t u m y Hne; view_cases m; cbn; by rewrite entry_insert_ne by done ].

#[global] Instance count_owns_table : Owns count_view f_hash_table.
Proof. solve_owns. Qed.
#[global] Instance ids_owns_start : Owns ids_view f_new_start_id.
Proof. solve_owns. Qed.
#[global] Instance ids_owns_convert : Owns ids_view f_convert_id.
Proof. solve_owns. Qed.
#[global] Instance ids_owns_role_edge : Owns ids_view f_role_edge.
Proof. solve_owns. Qed.
#[global] Instance ids_owns_role_vertex : Owns ids_view f_role_vertex.
Proof. solve_owns. Qed.
#[global] Instance replace_owns_vertices : Owns replace_view f_vertex_buckets.
Proof. solve_owns. Qed.
#[global] Instance replace_owns_new_edge : Owns replace_view f_new_edge_sequence.
Proof. solve_owns. Qed.
#[global] Instance replace_owns_new_vertex : Owns replace_view f_new_vertex_sequence.
Proof. solve_owns. Qed.

(** Reading what no thread writes, and the own entry of a vector. *)
Ltac solve_reads :=
  intros m1 m2; view_cases m1; view_cases m2; cbn; intros; split_view; by subst.

#[global] Instance count_reads_pairs t : Reads count_view t m_pairs.
Proof. solve_reads. Qed.
#[global] Instance ids_reads_table t : Reads ids_view t hash_table.
Proof. solve_reads. Qed.
#[global] Instance replace_reads_table t : Reads replace_view t hash_table.
Proof. solve_reads. Qed.
#[global] Instance replace_reads_convert t : Reads replace_view t convert_id.
Proof. solve_reads. Qed.
#[global] Instance replace_reads_buckets t : Reads replace_view t m_buckets.
Proof. solve_reads. Qed.

Section accesses.
Context {V : Type} (view : nat → mem → V).

Lemma entry_vget {A} t (l1 l2 : list A) : entry t l1 = entry t l2 → vget l1 (Z.of_nat t) = vget l2 (Z.of_nat t).
Proof using. unfold entry, vget. intros [= _ Ht]. by rewrite !zlookup_of_nat, Ht. Qed.

#[global] Instance reads_own {A} t (v : field A) : Owns view v → Reads view t (λ m, vget (get v m) (Z.of_nat t)).
Proof using. intros Hv m1 m2 Hm. by apply entry_vget, (own_get (view := view) (v := v)). Qed.

#[global] Instance reads_const {A} t (a : A) : Reads view t (λ _, a).
Proof using. by intros m1 m2. Qed.

#[global] Instance reads_vget {A} t (f : mem → list A) i : Reads view t f → Reads view t (λ m, vget (f m) i).
Proof using. intros Hf m1 m2 Hm. by rewrite (Hf m1 m2). Qed.

#[global] Instance reads_bind {A B} t (f : mem → res A) (k : mem → A → res B) :
  Reads view t f → (∀ a, Reads view t (λ m, k m a)) → Reads view t (λ m, rbind (f m) (k m)).
Proof using. intros Hf Hk m1 m2 Hm. rewrite (Hf m1 m2 Hm). destruct (f m2) as [a|]; [|done]. by apply (Hk a m1 m2). Qed.

Lemma local_look {A} t (f : mem → res A) : Reads view t f → local view t (look f).
Proof using.
  intros Hf. apply local_act. split.
  - intros m1 m2 Hm. rewrite (Hf m1 m2 Hm). by destruct (f m2).
  - intros m m' a u. destruct (f m); [|done]. by intros [= -> ->].
Qed.

Lemma local_upd {A B} t (v : field A) (g : A → res (A * B)) : Owns view v → local view t (upd v t g).
Proof using.
  intros Hv. apply local_act. split.
  - intros m1 m2 Hm. rewrite (entry_vget t (get v m1) (get v m2)) by (by apply (own_get (view := view))).
    destruct (vget (get v m2) (Z.of_nat t)) as [x|]; [|done]. simpl. destruct (g x) as [[y b]|]; [|done]. simpl. split; [done|].
    unfold zinsert. rewrite Nat2Z.id. by apply (own_put (view := view)).
  - intros m m' a u. destruct (vget (get v m) (Z.of_nat t)) as [x|]; [|done]. simpl. destruct (g x) as [[y b]|]; [|done]. simpl.
    intros [= <- <-] Hne. unfold zinsert. rewrite Nat2Z.id. by apply (own_frame (view := view)).
Qed.
End accesses.

#[global] Instance count_reads_own_table t : Reads count_view t (λ m, vget (hash_table m) (Z.of_nat t)).
Proof. apply (reads_own count_view t f_hash_table). apply _. Qed.
#[global] Instance ids_reads_own_start t : Reads ids_view t (λ m, vget (new_start_id m) (Z.of_nat t)).
Proof. apply (reads_own ids_view t f_new_start_id). apply _. Qed.
#[global] Instance replace_reads_own_vertices t : Reads replace_view t (vertices_of t).
Proof. apply (reads_own replace_view t f_vertex_buckets). apply _. Qed.
#[global] Instance replace_reads_own_edges t : Reads replace_view t (edges_of t).
Proof. apply reads_vget. apply _. Qed.

(** A program all of whose accesses are to the view of its thread. *)
Ltac solve_local :=
  repeat (intros; match goal with
  | |- local _ _ (look _) => apply local_look; apply _
  | |- local _ _ (upd _ _ _) => apply local_upd; apply _
  | |- local _ _ (upd_ _ _ _) => apply local_upd; apply _
  | |- local _ _ (pbind _ _) => apply local_bind
  | |- local _ _ (pfor_each _ _ _) => apply local_pfor_each
  | |- local _ _ (pfor_up _ _ _ _) => apply local_pfor_up
  | |- local _ _ (pwhile _ _ _ _) => apply local_pwhile
  | |- local _ _ (Ret _) => exact I
  | |- local _ _ (if ?b then _ else _) => destruct b
  | |- local _ _ (match ?x with _ => _ end) => destruct x
  end).

Lemma processpairs_local t : local count_view t (processpairs_thread t).
Proof. unfold processpairs_thread. solve_local. Qed.

Lemma prepare_new_id_local iter t : local ids_view t (prepare_new_id_thread iter t).
Proof. unfold prepare_new_id_thread. solve_local. Qed.

Lemma replace_row_local cast t len lo hi limit vsize :
  Reads replace_view t hi → Reads replace_view t limit →
  local replace_view t (replace_row_thread cast t len lo hi limit vsize).
Proof. unfold replace_row_thread, scan_thread, pair_id_thread. solve_local. Qed.

Lemma replace_local t : local replace_view t (replace_thread t).
Proof. unfold replace_thread. solve_local; intros; apply replace_row_local; apply _. Qed.

(** ** The threads alone *)

#[local] Arguments run : simpl never.
#[local] Arguments pbind : simpl never.
#[local] Arguments look : simpl never.
#[local] Arguments upd : simpl never.
#[local] Arguments upd_ : simpl never.
#[local] Arguments replace_row : simpl never.
#[local] Arguments scan : simpl never.

Lemma run_look {A} (f : mem → res A) m a : f m = Ok a → run (look f) m = Ok (m, a).
Proof. intros Hf. unfold look. rewrite run_act. by rewrite Hf. Qed.

Lemma run_upd {A B} (v : field A) t (g : A → res (A * B)) m x y b :
  get v m !! t = Some x → g x = Ok (y, b) → run (upd v t g) m = Ok (put v (<[t := y]> (get v m)) m, b).
Proof.
  intros Hx Hg. unfold upd. rewrite run_act. unfold vget. rewrite zlookup_of_nat, Hx. simpl. rewrite Hg. simpl.
  unfold zinsert. by rewrite Nat2Z.id.
Qed.

Lemma run_upd_ {A} (v : field A) t (g : A → A) m x :
  get v m !! t = Some x → run (upd_ v t g) m = Ok (put v (<[t := g x]> (get v m)) m, tt).
Proof. intros Hx. by apply (run_upd _ _ _ _ x). Qed.

Lemma vget_nat {A} (l : list A) t x : l !! t = Some x → vget l (Z.of_nat t) = Ok x.
Proof. intros Hx. apply vget_ok. by rewrite zlookup_of_nat. Qed.

(** Entry [t], when it was just written. *)
Lemma lookup_own {A} (l : list A) t x y : l !! t = Some x → <[t := y]> l !! t = Some y.
Proof. intros Hx. apply list_lookup_insert_eq. by eapply lookup_lt_Some. Qed.

Lemma run_processpairs t m pairs table :
  m_pairs m !! t = Some pairs → hash_table m !! t = Some table →
  run (processpairs_thread t) m = Ok (put f_hash_table (<[t := processpairs pairs table]> (hash_table m)) m, tt).
Proof.
  destruct m as [a b c d e f g h i j]. cbn. intros Hp Ht. unfold processpairs_thread.
  erewrite run_bind_ok by (apply run_look; cbn; by apply vget_nat).
  pose (mk := λ table, (Mem a (<[t := table]> b) c d e f g h i j, tt)).
  assert (Mem a b c d e f g h i j = (mk table).1) as -> by (simpl; by rewrite list_insert_id).
  erewrite run_bind_ok.
  2: { apply (run_pfor_each mk pairs (λ pair table, count_pair table pair)). intros pair tab _. unfold mk at 1 2. cbn [fst snd].
    erewrite run_bind_ok by (apply run_look; cbn; rewrite (vget_nat _ _ tab) by (by eapply lookup_own); reflexivity).
    unfold mk, count_pair. destruct (tab !! pair); erewrite run_upd_ by (cbn; by eapply lookup_own); cbn; by rewrite list_insert_insert_eq. }
  erewrite run_upd_ by (unfold mk; cbn; by eapply lookup_own). unfold mk. cbn. rewrite list_insert_insert_eq. done.
Qed.

(** Run the next access: a read, or a change of the own entry of a vector. *)
Ltac run_look := erewrite run_bind_ok by (apply run_look; cbn; erewrite vget_nat by (done || by eapply lookup_own); reflexivity).
Ltac run_upd := erewrite run_bind_ok by (apply run_upd_; cbn; (done || by eapply lookup_own)); cbn; rewrite ?list_insert_insert_eq.

(** The entries of thread [t] after [prepare_new_id]. *)
Definition ids_mem (t : nat) (r : new_ids) (m : mem) : mem :=
  let '(Mem a b c d e f g h i j) := m in
  Mem a b (<[t := start_id r]> c) (<[t := convert r]> d) (<[t := temp_role_edge r]> e) (<[t := temp_role_vertex r]> f) g h i j.

Lemma run_prepare_new_id iter t m table start :
  hash_table m !! t = Some table → new_start_id m !! t = Some start → convert_id m !! t = Some ∅ →
  role_edge m !! t = Some [] → role_vertex m !! t = Some [] →
  run (prepare_new_id_thread iter t) m = Ok (ids_mem t (prepare_new_id (iter (Z.of_nat t) table) start) m, tt).
Proof.
  destruct m as [a b c d e f g h i j]. cbn. intros Ht Hs Hc He Hv. unfold prepare_new_id_thread. run_look.
  pose (mk := λ r, (ids_mem t r (Mem a b c d e f g h i j), cur_v_offset r)). pose (r0 := NewIds start ∅ [] [] 0).
  assert (Mem a b c d e f g h i j = (mk r0).1) as -> by (simpl; by rewrite !list_insert_id).
  erewrite run_bind_ok.
  2: { apply (run_pfor_each mk _ (λ item r, prepare_one r item) _ r0). intros [k n] [s co re rv o] _. unfold mk. cbn.
    run_look. do 5 run_upd. by rewrite <-app_assoc. }
  done.
Qed.

Lemma run_pair_id x y m r :
  pair_id (hash_table m) (convert_id m) x y = Ok r → run (pair_id_thread x y) m = Ok (m, r).
Proof.
  unfold pair_id, pair_id_thread. intros Hr. destruct (vget (hash_table m) _) as [table|] eqn:Ht; [|done]. cbn in Hr.
  erewrite run_bind_ok by (apply run_look; cbn; rewrite Ht; reflexivity).
  destruct (table !! _); [|by injection Hr as <-]. apply run_look.
  destruct (vget (convert_id m) _) as [convert|]; [|done]. cbn in *. by destruct (convert !! _).
Qed.

Section replace.
Context (t : nat) (a : list (list Z)) (tables : list (gmap Z Z)) (c : list Z) (convs : list (gmap Z Z)).
Context (e f g h i j : list (list Z)) (edges : list Z).
Context (Hedges : g !! t = Some edges) (Hi : is_Some (i !! t)) (Hj : is_Some (j !! t)) (Hh : is_Some (h !! t)).

(** The memory while thread [t] rewrites its rows. *)
Definition rw_mem (vertices new_edge new_vertex : list Z) : mem :=
  Mem a tables c convs e f g (<[t := vertices]> h) (<[t := new_edge]> i) (<[t := new_vertex]> j).

Lemma edges_of_rw vs ne nv : edges_of t (rw_mem vs ne nv) = Ok edges.
Proof using Hedges. by apply vget_nat. Qed.

Lemma vertices_of_rw vs ne nv : vertices_of t (rw_mem vs ne nv) = Ok vs.
Proof using Hh. destruct Hh as [x Hx]. apply vget_nat. by eapply lookup_own. Qed.

Lemma run_push_edge vs ne nv x :
  run (upd_ f_new_edge_sequence t (λ new_edge, new_edge ++ [x])) (rw_mem vs ne nv) = Ok (rw_mem vs (ne ++ [x]) nv, tt).
Proof using Hi.
  destruct Hi as [y Hy]. erewrite run_upd_ by (cbn; by eapply lookup_own). unfold rw_mem. cbn. by rewrite list_insert_insert_eq.
Qed.

Lemma run_push_vertex vs ne nv x :
  run (upd_ f_new_vertex_sequence t (λ new_vertex, new_vertex ++ [x])) (rw_mem vs ne nv) = Ok (rw_mem vs ne (nv ++ [x]), tt).
Proof using Hj.
  destruct Hj as [y Hy]. erewrite run_upd_ by (cbn; by eapply lookup_own). unfold rw_mem. cbn. by rewrite list_insert_insert_eq.
Qed.

Lemma run_edge vs ne nv idx x :
  vget edges idx = Ok x → run (look (λ m, let* edges := edges_of t m in vget edges idx)) (rw_mem vs ne nv) = Ok (rw_mem vs ne nv, x).
Proof using Hedges. intros Hx. apply run_look. by rewrite edges_of_rw. Qed.

Lemma run_scan cast limit (limitf : mem → res Z) vs nv idx ne vsize idx' ne' vsize' :
  (∀ ne, limitf (rw_mem vs ne nv) = Ok limit) →
  scan tables convs cast edges limit (idx, ne, vsize) = Ok (idx', ne', vsize') →
  run (scan_thread cast t (length edges) limitf (idx, vsize)) (rw_mem vs ne nv) = Ok (rw_mem vs ne' nv, (idx', vsize')).
Proof using Hedges Hi.
  intros Hlim Hscan. pose (mk := λ '(idx, ne, vsize), (rw_mem vs ne nv, (idx, vsize) : Z * Z)).
  unfold scan in Hscan. unfold scan_thread.
  refine (run_pwhile mk _ _ _ _ _ (idx, ne, vsize) (idx', ne', vsize') _ _ Hscan); clear idx ne vsize idx' ne' vsize' Hscan.
  - intros [[idx ne] vsize] b [= <-]. apply run_look. cbn. by rewrite Hlim.
  - intros [[idx ne] vsize] s' _ Hs. cbn. destruct (vget edges idx) as [x|] eqn:Hx; [|done]. cbn in Hs.
    destruct (vget edges (idx + 1)) as [y|] eqn:Hy; [|done]. cbn in Hs. destruct (pair_id _ _ x y) as [r|] eqn:Hr; [|done]. cbn in Hs.
    erewrite run_bind_ok by (by apply run_edge). erewrite run_bind_ok by (by apply run_edge).
    erewrite run_bind_ok by (by apply run_pair_id).
    destruct r; injection Hs as <-; by erewrite run_bind_ok by apply run_push_edge.
Qed.

Lemma run_replace_row cast limit hi (limitf hif : mem → res Z) vs nv lo ne vsize ne' vsize' :
  (∀ ne, limitf (rw_mem vs ne nv) = Ok limit) → (∀ ne, hif (rw_mem vs ne nv) = Ok hi) →
  replace_row tables convs cast edges lo hi limit (ne, vsize) = Ok (ne', vsize') →
  run (replace_row_thread cast t (length edges) lo hif limitf vsize) (rw_mem vs ne nv) = Ok (rw_mem vs ne' nv, vsize').
Proof using Hedges Hi.
  intros Hlim Hhi Hrow. unfold replace_row in Hrow. destruct (scan _ _ _ _ _ _) as [[[idx ne1] vsize1]|] eqn:Hs; [|done]. cbn in Hrow.
  unfold replace_row_thread. erewrite run_bind_ok by (by eapply run_scan). cbn iota beta.
  erewrite run_bind_ok by (apply run_look; cbn; by rewrite Hhi). destruct (cast idx <? hi); [|by injection Hrow as <- <-].
  destruct (vget edges (hi - 1)) as [x|] eqn:Hx; [|done]. injection Hrow as <- <-.
  erewrite run_bind_ok by (apply run_look; cbn; rewrite Hhi; cbn; rewrite edges_of_rw; exact Hx).
  by erewrite run_bind_ok by apply run_push_edge.
Qed.
Lemma run_shift vs o ne nv :
  run (pfor_up 0 (zlen vs) (λ vidx _, upd f_vertex_buckets t (λ vs,
    let* x := vget vs vidx in
    let* vs := vset vs vidx (x - o) in
    Ok (vs, tt))) tt) (rw_mem vs ne nv) = Ok (rw_mem ((λ v, v - o) <$> vs) ne nv, tt).
Proof using Hh.
  pose (mk := λ vs, (rw_mem vs ne nv, tt)).
  refine (run_pfor_up mk _ _ (λ vidx vs, let* x := vget vs vidx in vset vs vidx (x - o)) _ vs ((λ v, v - o) <$> vs) _ _).
  - intros k us us' Hk Hus. destruct (vget us k) as [x|] eqn:Hx; [|done]. cbn in Hus. unfold mk. cbn. destruct Hh as [y Hy].
    erewrite run_upd; [|cbn; by eapply lookup_own|rewrite Hx; cbn; by rewrite Hus].
    unfold rw_mem. cbn. by rewrite list_insert_insert_eq.
  - apply wp_eq. apply (wp_for_up (λ k us, us = ((λ v, v - o) <$> slice vs 0 k) ++ slice vs k (zlen vs))).
    + apply zlen_nonneg.
    + by rewrite slice_nil, slice_full by lia.
    + intros k us Hk ->. destruct (zlookup_total vs k Hk) as [x Hx].
      assert (zlen ((λ v, v - o) <$> slice vs 0 k) = k) as Hl by (rewrite zlen_fmap, zlen_slice; lia).
      rewrite (slice_cons vs k (zlen vs) x) by (done || lia).
      assert ((((λ v, v - o) <$> slice vs 0 k) ++ x :: slice vs (k + 1) (zlen vs)) !z k = Some x) as Hk'.
      { rewrite zlookup_app_r by lia. by rewrite Hl, Z.sub_diag. }
      rewrite (vget_ok _ _ _ Hk'). cbn. rewrite vset_ok by (by eapply zlookup_range). cbn.
      rewrite (slice_snoc vs 0 k x), fmap_app, <-app_assoc by (done || lia). cbn.
      unfold zinsert. rewrite insert_app_r_alt by (unfold zlen in Hl; lia).
      replace (Z.to_nat k - _)%nat with 0%nat by (unfold zlen in Hl; lia). done.
    + intros us ->. by rewrite slice_full, slice_nil, app_nil_r by lia.
Qed.

Definition shifted (vertices : list Z) : list Z := (λ v, v - default 0 (vertices !z 0)) <$> vertices.

Lemma run_replace vertices ne nv :
  h !! t = Some vertices → i !! t = Some [] → j !! t = Some [] →
  replace tables convs edges vertices = Ok (ne, nv) →
  run (replace_thread t) (Mem a tables c convs e f g h i j) = Ok (rw_mem (shifted vertices) ne nv, tt).
Proof using Hedges Hi Hj Hh.
  intros Hv Hi0 Hj0 Hrep. assert (Mem a tables c convs e f g h i j = rw_mem vertices [] []) as ->.
  { unfold rw_mem. by rewrite !list_insert_id. }
  unfold replace in Hrep. destruct (vget vertices 0) as [o|] eqn:Ho; [|done]. cbn in Hrep. set (vs := (λ v, v - o) <$> vertices) in *.
  assert (shifted vertices = vs) as -> by (unfold shifted; by rewrite (vget_inv _ _ _ Ho)).
  assert (zlen vs = zlen vertices) as Hlen by apply zlen_fmap. rewrite Hlen in Hrep. unfold replace_thread.
  erewrite run_bind_ok by (apply run_look; cbn; rewrite edges_of_rw; reflexivity).
  erewrite run_bind_ok by (apply run_look; cbn; rewrite vertices_of_rw; cbn; rewrite Ho; reflexivity). cbn iota beta.
  erewrite run_bind_ok by apply run_shift. fold vs.
  destruct (for_up _ _ _ _) as [[[ne1 vsize] nv1]|] eqn:Hloop; [|done]. cbn in Hrep.
  pose (mk := λ '(ne, vsize, nv), (rw_mem vs ne nv, vsize : Z)).
  erewrite run_bind_ok.
  2: { refine (run_pfor_up mk _ _ _ _ ([], 0, []) (ne1, vsize, nv1) _ Hloop). intros k [[ne2 vsize2] nv2] s' Hk Hs. cbn.
    destruct (vget vs k) as [lo|] eqn:Hlo; [|done]. cbn in Hs. destruct (vget vs (k + 1)) as [hi|] eqn:Hhi; [|done]. cbn in Hs.
    destruct (replace_row _ _ _ _ _ _ _ _) as [[ne3 vsize3]|] eqn:Hrow; [|done]. injection Hs as <-.
    erewrite run_bind_ok by apply run_push_vertex.
    erewrite run_bind_ok by (apply run_look; cbn; rewrite vertices_of_rw; exact Hlo).
    erewrite run_replace_row; [done| | |done]; intros ne4; rewrite vertices_of_rw; cbn; by rewrite Hhi. }
  cbn iota beta. destruct (vget vs (zlen vertices - 1)) as [lo|] eqn:Hlo; [|done]. cbn in Hrep.
  destruct (replace_row _ _ _ _ _ _ _ _) as [[ne3 vsize3]|] eqn:Hrow; [|done]. injection Hrep as <- <-.
  erewrite run_bind_ok by apply run_push_vertex.
  erewrite run_bind_ok by (apply run_look; cbn; rewrite vertices_of_rw; exact Hlo).
  erewrite run_bind_ok by (eapply run_replace_row; [..|exact Hrow]; intros ne4; by rewrite edges_of_rw). done.
Qed.
End replace.

(** ** The phases *)

Lemma entry_ext {A} (l1 l2 : list A) : (∀ t, entry t l1 = entry t l2) → l1 = l2.
Proof. intros Hl. apply list_eq. intros t. specialize (Hl t). unfold entry in Hl. by injection Hl. Qed.

Lemma entry_written {A} t (l l' : list A) x :
  length l' = length l → l' !! t = Some x → entry t l' = entry t (<[t := x]> l).
Proof.
  intros Hl Hx. unfold entry. rewrite length_insert, list_lookup_insert_eq, Hx, Hl; [done|].
  rewrite <-Hl. by eapply lookup_lt_Some.
Qed.

Lemma entry_rest {A} t (l l' : list A) : length l' = length l → drop threads l' = drop threads l → (threads ≤ t)%nat → entry t l' = entry t l.
Proof.
  intros Hl Hd Ht. unfold entry. rewrite Hl. f_equal.
  assert (∀ k : list A, k !! t = drop threads k !! (t - threads)%nat) as Hk by (intros k; rewrite lookup_drop; f_equal; lia).
  by rewrite (Hk l), (Hk l'), Hd.
Qed.

Ltac same_views := repeat match goal with |- (_, _) = (_, _) => apply pair_equal_spec; split; try reflexivity end.

Ltac solve_ext :=
  intros m1 m2; view_cases m1; view_cases m2; cbn; intros Hv;
  pose proof (Hv 0%nat); split_view; subst; f_equal; apply entry_ext; intros t; specialize (Hv t); by split_view.

Lemma count_view_ext m1 m2 : (∀ t, count_view t m1 = count_view t m2) → m1 = m2.
Proof. revert m1 m2. solve_ext. Qed.
Lemma ids_view_ext m1 m2 : (∀ t, ids_view t m1 = ids_view t m2) → m1 = m2.
Proof. revert m1 m2. solve_ext. Qed.
Lemma replace_view_ext m1 m2 : (∀ t, replace_view t m1 = replace_view t m2) → m1 = m2.
Proof. revert m1 m2. solve_ext. Qed.

(** With enough fuel, whatever the schedule. *)
Definition always {A} (run : nat → (nat → nat) → res A) (a : A) : Prop :=
  ∃ N, ∀ fuel schedule, (N ≤ fuel)%nat → run fuel schedule = Ok a.

Lemma spawn_ok {V} (view : nat → mem → V) thread (final : nat → mem) m m' :
  (∀ m1 m2, (∀ t, view t m1 = view t m2) → m1 = m2) → (∀ t, local view t (thread t)) →
  (∀ t, (t < threads)%nat → run (thread t) m = Ok (final t, tt) ∧ view t m' = view t (final t)) →
  (∀ t, (threads ≤ t)%nat → view t m' = view t m) →
  always (λ fuel schedule, spawn fuel schedule thread m) m'.
Proof.
  intros Hext Hlocal Hrun Hrest. exists (total (thread <$> seq 0 threads) m). intros fuel schedule Hfuel.
  unfold spawn. apply (par_local view _ final); [done| |by rewrite length_fmap, length_seq|done].
  intros t p Hp. rewrite list_lookup_fmap in Hp. apply fmap_Some in Hp as (u & [-> Hu]%lookup_seq & ->). split; [done|]. by apply Hrun.
Qed.

Lemma count_phase a tables c d e f g h i j :
  length a = threads → tables = replicate threads ∅ →
  always (λ fuel schedule, spawn fuel schedule processpairs_thread (Mem a tables c d e f g h i j))
    (Mem a ((λ pairs, processpairs pairs ∅) <$> a) c d e f g h i j).
Proof.
  intros Ha ->. set (m := Mem _ _ _ _ _ _ _ _ _ _).
  apply (spawn_ok count_view _ (λ t, put f_hash_table (<[t := processpairs (default [] (a !! t)) ∅]> (hash_table m)) m)).
  - apply count_view_ext.
  - apply processpairs_local.
  - intros t Ht. destruct (lookup_lt_is_Some_2 a t ltac:(lia)) as [pairs Hp]. rewrite Hp. split.
    + apply run_processpairs; [done|]. cbn. by apply lookup_replicate_2.
    + unfold m. cbn [count_view put get f_hash_table hash_table]. f_equal. apply entry_written.
      * by rewrite length_fmap, length_replicate.
      * by rewrite list_lookup_fmap, Hp.
  - intros t Ht. unfold m. cbn [count_view]. f_equal. apply entry_rest; [by rewrite length_fmap, length_replicate| |done].
    rewrite !drop_ge; [done|rewrite length_replicate; lia|rewrite length_fmap; lia].
Qed.

Lemma ids_phase iter n a tables start d e f g h i j :
  length tables = threads → length start = threads → d = replicate threads ∅ →
  e = replicate (threads + n) [] → f = replicate (threads + n) [] →
  let ids := (λ '(t, (table, s)), prepare_new_id (iter t table) s) <$> zip (seqZ 0 thread_num) (zip tables start) in
  always (λ fuel schedule, spawn fuel schedule (prepare_new_id_thread iter) (Mem a tables start d e f g h i j))
    (Mem a tables (start_id <$> ids) (convert <$> ids) ((temp_role_edge <$> ids) ++ replicate n [])
      ((temp_role_vertex <$> ids) ++ replicate n []) g h i j).
Proof.
  intros Ht Hs -> -> -> ids.
  assert (length ids = threads) as Hids.
  { unfold ids. rewrite length_fmap, !length_zip, length_seqZ, Ht, Hs. done. }
  assert (∀ t, (t < threads)%nat → ∃ table s, tables !! t = Some table ∧ start !! t = Some s ∧
    ids !! t = Some (prepare_new_id (iter (Z.of_nat t) table) s)) as Hlook.
  { intros t Hlt. destruct (lookup_lt_is_Some_2 tables t) as [table Htab]; [by rewrite Ht|].
    destruct (lookup_lt_is_Some_2 start t) as [s Hst]; [by rewrite Hs|]. exists table, s. split_and!; [done..|].
    assert (zip (seqZ 0 thread_num) (zip tables start) !! t = Some (Z.of_nat t, (table, s))) as Hz.
    { apply lookup_zip_Some. split; [|by apply lookup_zip_Some]. rewrite lookup_seqZ. unfold thread_num in *. lia. }
    unfold ids. by rewrite list_lookup_fmap, Hz. }
  clearbody ids. set (m := Mem _ _ _ _ _ _ _ _ _ _).
  apply (spawn_ok ids_view _ (λ t, ids_mem t (default (NewIds 0 ∅ [] [] 0) (ids !! t)) m)).
  - apply ids_view_ext.
  - apply prepare_new_id_local.
  - intros t Hlt. destruct (Hlook t Hlt) as (table & s & Htab & Hst & Hid). rewrite Hid. split.
    + apply run_prepare_new_id; try done; cbn; apply lookup_replicate_2; lia.
    + unfold m. cbn [ids_view ids_mem default]. unfold id. same_views; apply entry_written.
      all: rewrite ?length_app, ?length_fmap, ?length_replicate, ?Hids, ?Hs; try done.
      all: rewrite ?lookup_app_l, ?list_lookup_fmap, ?Hid by (rewrite length_fmap; lia); done.
  - intros t Hlt. unfold m. cbn [ids_view]. same_views; apply entry_rest; try done.
    all: rewrite ?length_app, ?length_fmap, ?length_replicate, ?Hids, ?Hs; try done.
    all: rewrite ?drop_app, ?length_fmap, ?Hids, ?Nat.sub_diag, ?drop_replicate, ?(drop_ge start), ?(drop_ge (_ <$> ids)) by (rewrite ?length_fmap; lia); try done.
    all: simpl; f_equal; lia.
Qed.

Lemma mapr_lookup {A B} (f : A → res B) l ys :
  mapr f l = Ok ys → length ys = length l ∧ ∀ t x, l !! t = Some x → ∃ y, ys !! t = Some y ∧ f x = Ok y.
Proof.
  revert ys. induction l as [|x l IH]; intros ys Hm; simpl in *; [by injection Hm as <-|].
  destruct (f x) as [y|] eqn:Hy; [|done]. destruct (mapr f l) as [ys'|] eqn:Hl; [|done]. injection Hm as <-.
  destruct (IH ys' eq_refl) as [Hlen Hlook]. split; [simpl; lia|]. intros [|t] z Hz; simpl in *; [|by apply Hlook].
  injection Hz as <-. by exists y.
Qed.

Lemma mapr_bind {A B C} (f : A → res B) (k : B → res C) l zs :
  mapr (λ x, let* y := f x in k y) l = Ok zs → ∃ ys, mapr f l = Ok ys ∧ mapr k ys = Ok zs.
Proof.
  revert zs. induction l as [|x l IH]; intros zs Hm; simpl in *; [injection Hm as <-; by exists []|].
  destruct (f x) as [y|]; [|done]. simpl in Hm. destruct (k y) as [z|] eqn:Hz; [|done].
  destruct (mapr _ l) as [zs'|]; [|done]. injection Hm as <-. destruct (IH zs' eq_refl) as (ys & -> & Hk).
  exists (y :: ys). split; [done|]. simpl. by rewrite Hz, Hk.
Qed.

Lemma replace_phase a tables c convs e f parts rs :
  length parts = threads → mapr (λ '(es, vs), replace tables convs es vs) parts = Ok rs →
  always (λ fuel schedule, spawn fuel schedule replace_thread
      (Mem a tables c convs e f (parts.*1) (parts.*2) (replicate threads []) (replicate threads [])))
    (Mem a tables c convs e f (parts.*1) (shifted <$> parts.*2) (rs.*1) (rs.*2)).
Proof.
  intros Hp [Hlen Hlook]%mapr_lookup. set (m := Mem _ _ _ _ _ _ _ _ _ _). pose (part t := default ([], []) (parts !! t)).
  pose (r t := default ([], []) (rs !! t)).
  apply (spawn_ok replace_view _ (λ t, rw_mem t a tables c convs e f (parts.*1) (parts.*2) (replicate threads []) (replicate threads [])
    (shifted (part t).2) (r t).1 (r t).2)).
  - apply replace_view_ext.
  - apply replace_local.
  - intros t Hlt. destruct (lookup_lt_is_Some_2 parts t) as [[es vs] Hpt]; [lia|]. destruct (Hlook t _ Hpt) as ([ne nv] & Hr & Hrep).
    unfold part, r. rewrite Hpt, Hr. unfold id. cbn [from_option fst snd]. assert (replicate threads ([] : list Z) !! t = Some []) as Hnil by (by apply lookup_replicate_2).
    assert (parts.*1 !! t = Some es ∧ parts.*2 !! t = Some vs) as [H1 H2] by (by rewrite !list_lookup_fmap, Hpt). split.
    + by eapply run_replace.
    + unfold m, rw_mem. cbn [replace_view]. same_views; apply entry_written.
      all: rewrite ?length_fmap, ?length_replicate; try lia.
      all: by rewrite ?list_lookup_fmap, ?Hr, ?Hpt.
  - intros t Hlt. unfold m. cbn [replace_view]. same_views; apply entry_rest; try done.
    all: rewrite ?length_fmap, ?length_replicate; try lia.
    all: by rewrite !drop_ge by (rewrite ?length_fmap, ?length_replicate; lia).
Qed.

(** ** A turn *)

(** What every round of a loop keeps, the loop keeps. *)
Lemma for_up_keeps {S} (I : S → Prop) lo hi f s s' :
  (∀ i s s', f i s = Ok s' → I s → I s') → for_up lo hi f s = Ok s' → I s → I s'.
Proof.
  intros Hf. unfold for_up. generalize (Z.to_nat (hi - lo)). intros n. revert lo s. induction n as [|n IH]; intros lo s; simpl.
  - by intros [= ->].
  - destruct (f lo s) as [s1|] eqn:Hs; [|done]. simpl. intros Hn HI. eapply IH; [done|]. by eapply Hf.
Qed.

Lemma while_keeps {S} (I : S → Prop) fuel c f s s' :
  (∀ s s', f s = Ok s' → I s → I s') → while fuel c f s = Ok s' → I s → I s'.
Proof.
  intros Hf. revert s. induction fuel as [|fuel IH]; intros s; simpl; [done|].
  destruct (c s) as [[|]|]; simpl; [|by intros [= ->]|done].
  destruct (f s) as [s1|] eqn:Hs; [|done]. simpl. intros Hn HI. eapply IH; [done|]. by eapply Hf.
Qed.

Lemma alloc_row_length edges lo limit pb pb' : alloc_row edges lo limit pb = Ok pb' → length pb' = length pb.
Proof.
  unfold alloc_row. intros H. destruct (while _ _ _ _) as [[idx pb1]|] eqn:Hw; [|done]. injection H as <-.
  refine (while_keeps (λ '(_, pb1), length pb1 = length pb) _ _ _ _ _ _ Hw eq_refl).
  intros [i1 pb2] [i2 pb3] Hs Hl. destruct (vget edges i1) as [x|]; [|done]. cbn in Hs. destruct (vget edges (i1 + 1)) as [y|]; [|done].
  cbn in Hs. unfold vpush, vset in Hs. destruct (vget pb2 _); [|done]. cbn in Hs. destruct (pb2 !z _); [|done]. injection Hs as <- <-.
  unfold zinsert. by rewrite length_insert.
Qed.

Lemma alloc_pairs_length edge vertex pb pb' : alloc_pairs edge vertex pb = Ok pb' → length pb' = length pb.
Proof.
  unfold alloc_pairs. destruct (zlen vertex =? 0); [done|]. intros H.
  refine (for_up_keeps (λ pb1, length pb1 = length pb) _ _ _ _ _ _ H eq_refl). intros i pb1 pb2 Hs Hl.
  destruct (vget vertex i); [|done]. cbn in Hs. destruct (vget vertex (i + 1)); [|done]. cbn in Hs. by rewrite (alloc_row_length _ _ _ _ _ Hs).
Qed.

(** The memory between two turns.  The vectors of rules get new entries in every turn;
    only the first [thread_num] are used. *)
Definition represents (s : rstate) (p : pstate) : Prop := ∃ n start bs vbs,
  p = PState (input_edge s) (input_vertex s) (max_id s)
    (Mem (pair_buckets s) (replicate threads ∅) start (replicate threads ∅) (replicate n []) (replicate n []) bs vbs [] []) ∧
  length (pair_buckets s) = threads.

Lemma clear_full {A} `{Empty A} (l : list A) : length l = threads → clear l = replicate threads ∅.
Proof. intros Hl. unfold clear. by rewrite drop_ge, app_nil_r by lia. Qed.

Lemma clears_full (l : list (list Z)) n : length l = threads → clears (l ++ replicate n []) = replicate (threads + n) [].
Proof. intros Hl. unfold clears. by rewrite <-Hl, drop_app_length, Hl, <-replicate_add. Qed.

Lemma zip_fmap_same {A B C} (f : A → B) (g : A → C) l : zip (f <$> l) (g <$> l) = (λ x, (f x, g x)) <$> l.
Proof. induction l as [|x l IH]; [done|]. rewrite !fmap_cons. simpl. by rewrite IH. Qed.

Lemma turn_threads_ok iter len_vertex s s' p :
  turn iter len_vertex s = Ok s' → represents s p →
  ∃ p', represents s' p' ∧ ∃ N, ∀ fuel schedule, (N ≤ fuel)%nat → turn_threads fuel schedule iter len_vertex p = Ok p'.
Proof.
  intros Hturn (n & start & bs & vbs & -> & Hpb). unfold turn in Hturn.
  destruct (alloc_pairs _ _ _) as [pb|] eqn:Ha; [|done]. cbn [rbind] in Hturn. pose proof (alloc_pairs_length _ _ _ _ Ha) as Hlen. rewrite Hpb in Hlen.
  set (tables := (λ pairs, processpairs pairs ∅) <$> pb) in *. set (starts := start_ids _ tables) in *.
  set (ids := (λ '(t, (table, s)), prepare_new_id (iter t table) s) <$> zip (seqZ 0 thread_num) (zip tables starts)) in *.
  assert (length tables = threads) as Htab by (unfold tables; by rewrite length_fmap).
  assert (length starts = threads) as Hst.
  { pose proof (zlen_start_ids (u32 (max_id s + 1)) tables) as Hz. unfold zlen in Hz. fold starts in Hz. lia. }
  assert (length ids = threads) as Hids.
  { unfold ids. by rewrite length_fmap, !length_zip, length_seqZ, Htab, Hst. }
  destruct (mapr _ _) as [parts|] eqn:Hm; [|done]. cbn [rbind] in Hturn. apply mapr_bind in Hm as (sp & Hsp & Hrs).
  assert (length sp = threads) as Hspl by (by rewrite (proj1 (mapr_lookup _ _ _ Hsp)), length_seqZ).
  assert (length parts = threads) as Hpl by (by rewrite (proj1 (mapr_lookup _ _ _ Hrs))).
  destruct (count_phase pb _ start (replicate threads ∅) (replicate n []) (replicate n []) bs vbs [] [] Hlen eq_refl) as [N1 H1].
  destruct (ids_phase iter n pb tables starts _ _ _ bs vbs [] [] Htab Hst eq_refl eq_refl eq_refl) as [N2 H2]. fold ids in H2.
  destruct (replace_phase pb tables (start_id <$> ids) (convert <$> ids) ((temp_role_edge <$> ids) ++ replicate n [])
    ((temp_role_vertex <$> ids) ++ replicate n []) sp parts Hspl Hrs) as [N3 H3].
  destruct (foldl append_part ([], []) parts) as [edge vertex] eqn:He.
  destruct (foldl append_part (edge, vertex) _) as [edge' vertex'] eqn:Hv. injection Hturn as <-.
  exists (PState edge' (vertex' ++ [u32 (zlen edge')]) (u32 (zlen (vertex' ++ [u32 (zlen edge')]) - 2))
    (Mem pb (clear tables) (start_id <$> ids) (clear (convert <$> ids)) (clears ((temp_role_edge <$> ids) ++ replicate n []))
      (clears ((temp_role_vertex <$> ids) ++ replicate n [])) (sp.*1) (shifted <$> sp.*2) [] [])). split.
  - exists (threads + n)%nat, (start_id <$> ids), (sp.*1), (shifted <$> sp.*2). split; [|done].
    by rewrite !clear_full, !clears_full by (rewrite ?length_fmap; done).
  - exists (N1 + N2 + N3)%nat. intros fuel schedule Hfuel. unfold turn_threads. rewrite Ha. cbn [rbind].
    rewrite H1 by lia. cbn [rbind]. fold tables. fold starts.
    rewrite <-replicate_add, (Nat.add_comm n), H2 by lia. cbn [rbind]. rewrite Hsp. cbn [rbind]. rewrite !app_nil_l, H3 by lia. cbn [rbind].
    rewrite zip_fst_snd, He, !take_app_length' by (rewrite length_fmap; done). by rewrite zip_fmap_same, Hv.
Qed.

(** ** The constructor *)

Lemma turns_threads_ok iter len_vertex n k s s' p :
  for_nat n k (λ k s, turn (iter k) len_vertex s) s = Ok s' → represents s p →
  ∃ p', represents s' p' ∧ ∃ N, ∀ fuel schedule, (N ≤ fuel)%nat →
    for_nat n k (λ k s, turn_threads fuel (schedule k) (iter k) len_vertex s) p = Ok p'.
Proof.
  revert k s p. induction n as [|n IH]; intros k s p Hs Hp; simpl in *; [injection Hs as <-; exists p; split; [done|]; by exists 0%nat|].
  destruct (turn (iter k) len_vertex s) as [s1|] eqn:Hs1; [|done]. simpl in Hs.
  destruct (turn_threads_ok _ _ _ _ _ Hs1 Hp) as (p1 & Hp1 & N1 & H1).
  destruct (IH _ _ _ Hs Hp1) as (p' & Hp' & N2 & H2). exists p'. split; [done|]. exists (N1 + N2)%nat. intros fuel schedule Hfuel.
  rewrite H1 by lia. simpl. apply H2. lia.
Qed.

Lemma Repair_threads_ok iter edge vertex max_symbol s :
  Repair iter edge vertex max_symbol = Ok s →
  ∃ p, represents s p ∧ ∃ N, ∀ fuel schedule, (N ≤ fuel)%nat →
    Repair_threads fuel schedule iter edge vertex max_symbol = Ok p.
Proof.
  intros Hs. unfold Repair, for_up in Hs. eapply turns_threads_ok in Hs; [exact Hs|].
  exists 0%nat, (replicate threads 0), (replicate threads []), (replicate threads []). split; [done|]. apply length_replicate.
Qed.

(** Whatever [main] returns, every interleaving of the threads gives. *)
Theorem main_any_interleaving iter edge_file vertex_file s :
  main iter edge_file vertex_file = Ok (Some s) →
  ∃ p, p_edge p = input_edge s ∧ p_vertex p = input_vertex s ∧
    ∃ N, ∀ fuel schedule, (N ≤ fuel)%nat → main_threads fuel schedule iter edge_file vertex_file = Ok (Some p).
Proof.
  unfold main, main_threads. destruct (load_edge_file _ _) as [[edge max_symbol]|]; [|done].
  destruct (load_vertex_file _ _) as [vertex|]; [|done]. destruct (Repair _ _ _ _) as [s1|] eqn:Hs; [|done]. intros [= ->].
  destruct (Repair_threads_ok _ _ _ _ _ Hs) as (p & (n & start & bs & vbs & -> & _) & N & HN). eexists. split_and!; [..|exists N; intros fuel schedule Hf; by rewrite HN]; done.
Qed.

(** C2: whatever the order in which the threads of a phase run, step by step, and
    whatever the iteration order of the tables, the compressor ends, no thread reads
    outside a vector or a table that is being changed, and the result is always the
    same one: that of the phases run thread by thread, in which every vertex expands to
    its input row. *)
Theorem Repair_any_interleaving iter g :
  (∀ k t m, iter k t m ≡ₚ map_to_list m) → repair_input g →
  ∃ s p, Repair iter (concat g) (offsets g) (zlen g - 1) = Ok s ∧
    (∃ N, ∀ fuel schedule, (N ≤ fuel)%nat →
      Repair_threads fuel schedule iter (concat g) (offsets g) (zlen g - 1) = Ok p) ∧
    p_edge p = input_edge s ∧ p_vertex p = input_vertex s ∧ p_max_id p = max_id s ∧
    let m := zlen (p_vertex p) - 1 in
    csr_okb (p_vertex p) (p_edge p) m = true ∧
    ∀ v row, g !z v = Some row →
      ∃ k, derives (csr_rows (p_vertex p) (p_edge p) m) (zlen g) (csr_row (p_vertex p) (p_edge p) v) row k.
Proof.
  intros Hperm Hin. destruct (wp_inv _ _ (Repair_ok iter g Hperm Hin)) as (s & Hs & g' & Hg').
  destruct (Repair_threads_ok _ _ _ _ _ Hs) as (p & (n & start & bs & vbs & -> & _) & HN). cbn [p_edge p_vertex p_max_id].
  exists s, (PState (input_edge s) (input_vertex s) (max_id s)
    (Mem (pair_buckets s) (replicate threads ∅) start (replicate threads ∅) (replicate n []) (replicate n []) bs vbs [] [])).
  do 5 (split; [done|]). by destruct (after_turns_csr g s g' Hin Hg') as (_ & _ & ?).
Qed.

Lemma Repair_any_interleaving_witness :
  ∃ s p, Repair any_order (concat sample) (offsets sample) (zlen sample - 1) = Ok s ∧
    (∃ N, ∀ fuel schedule, (N ≤ fuel)%nat →
      Repair_threads fuel schedule any_order (concat sample) (offsets sample) (zlen sample - 1) = Ok p) ∧
    p_edge p = input_edge s ∧ p_vertex p = input_vertex s ∧ p_max_id p = max_id s ∧
    let m := zlen (p_vertex p) - 1 in
    csr_okb (p_vertex p) (p_edge p) m = true ∧
    ∀ v row, sample !z v = Some row →
      ∃ k, derives (csr_rows (p_vertex p) (p_edge p) m) (zlen sample) (csr_row (p_vertex p) (p_edge p) v) row k.
Proof. apply Repair_any_interleaving; [done|]. apply repair_inputb_ok. vm_compute. reflexivity. Defined.
