(* ===== verification/RArray.v ===== *)
(** * Extendible arrays

    [compress/array.cc] with the occupancy factor 0.5 that the program uses
    ([compress.h], [float factor = 0.50]).  A [Tarray] is a heap buffer of
    [maxsize] cells of which the first [size] are in use.  Fresh cells hold an
    arbitrary value [junk].  The capacity is computed in [float]: [f32] is the
    conversion of an [int] to [float], and products with 0.5 and quotients by
    0.5 are exact.  The main result: the array is a stack, whatever the
    capacity. *)

From S2P Require Import Prelude Csr.

(** ** Operations *)

(** The nearest [float] of an integer, ties to even; exact below [2^24]. *)
Definition f32 (z : Z) : Z :=
  if z <? 2 ^ 24 then z else
  let e := Z.log2 z - 23 in
  let q := z / 2 ^ e in
  let r := z mod 2 ^ e in
  if r <? 2 ^ (e - 1) then q * 2 ^ e
  else if 2 ^ (e - 1) <? r then (q + 1) * 2 ^ e
  else (if Z.even q then q else q + 1) * 2 ^ e.

Record Tarray := TArray {
  pairs : list Z;
  amaxsize : Z;
  asize : Z;
  aminsize : Z
}.

(** [realloc]: the old cells that fit, then fresh ones. *)
Definition realloc {A} (junk : A) (l : list A) (n : Z) : list A := resize (Z.to_nat n) junk l.

Definition createArray (minsize : Z) : Tarray := TArray [] 0 0 minsize.

(** [A->maxsize /= A->factor] and [A->maxsize *= A->factor]. *)
Definition grow (maxsize : Z) : res Z := int32 (2 * f32 maxsize).
Definition shrink (maxsize : Z) : Z := f32 maxsize / 2.

(** Result: the array and the position of the new element. *)
Definition insertArray (junk : Z) (A : Tarray) (pair : Z) : res (Tarray * Z) :=
  let* '(pairs, maxsize) :=
    if asize A =? amaxsize A then
      if amaxsize A =? 0 then
        let maxsize := aminsize A in
        Ok (replicate (Z.to_nat maxsize) junk, maxsize)
      else
        let* maxsize := grow (amaxsize A) in
        Ok (realloc junk (pairs A) maxsize, maxsize)
    else Ok (pairs A, amaxsize A) in
  let* pairs := vset pairs (asize A) pair in
  Ok (TArray pairs maxsize (asize A + 1) (aminsize A), asize A).

Definition deleteArray (junk : Z) (A : Tarray) : Tarray :=
  let size := asize A - 1 in
  if size =? 0 then TArray [] 0 size (aminsize A)
  else if (4 * f32 size <? f32 (amaxsize A)) && (2 * f32 (aminsize A) <=? f32 (amaxsize A)) then
    let maxsize := shrink (amaxsize A) in
    TArray (realloc junk (pairs A) maxsize) maxsize size (aminsize A)
  else TArray (pairs A) (amaxsize A) size (aminsize A).

Definition destroyArray (A : Tarray) : Tarray :=
  if amaxsize A =? 0 then A else TArray [] 0 0 (aminsize A).

(** ** Invariant *)

(** The elements in use. *)
Definition acontents (A : Tarray) : list Z := slice (pairs A) 0 (asize A).

Record arr_ok (A : Tarray) : Prop := {
  ao_size : 0 ≤ asize A ≤ amaxsize A;
  ao_buf : zlen (pairs A) = amaxsize A;
  ao_cap : amaxsize A = 0 ∨ aminsize A ≤ amaxsize A ∧ ∃ k, 0 ≤ k ≤ 30 ∧ amaxsize A = 2 ^ k;
  ao_min : ∃ k, 0 ≤ k ≤ 30 ∧ aminsize A = 2 ^ k;
  ao_empty : asize A = 0 → amaxsize A = 0
}.

(** ** Lemmas *)

Lemma f32_small z : z < 2 ^ 24 → f32 z = z.
Proof. intros Hz. unfold f32. by destruct (Z.ltb_spec z (2 ^ 24)); [|lia]. Qed.

Lemma f32_pow2 k : 0 ≤ k → f32 (2 ^ k) = 2 ^ k.
Proof.
  intros Hk. unfold f32. destruct (Z.ltb_spec (2 ^ k) (2 ^ 24)) as [|Hge]; [done|].
  apply Z.pow_le_mono_r_iff in Hge; [|lia|lia]. rewrite Z.log2_pow2 by lia.
  assert (2 ^ k = 2 ^ 23 * 2 ^ (k - 23)) as Hs by (rewrite <-Z.pow_add_r by lia; f_equal; lia).
  assert (0 < 2 ^ (k - 23)) by (apply Z.pow_pos_nonneg; lia).
  assert (2 ^ k mod 2 ^ (k - 23) = 0) as -> by (rewrite Hs; apply Z.mod_mul; lia).
  assert (0 < 2 ^ (k - 23 - 1)) by (apply Z.pow_pos_nonneg; lia).
  destruct (Z.ltb_spec 0 (2 ^ (k - 23 - 1))); [|lia].
  rewrite Hs, Z.div_mul by lia. done.
Qed.

(** A conversion to [float] changes a value by less than a quarter, and stays
    below the next power of two. *)
Lemma f32_bounds z : 2 ^ 24 ≤ z → 3 * z ≤ 4 * f32 z ∧ f32 z ≤ 2 ^ (Z.log2 z + 1).
Proof.
  intros Hz. unfold f32. destruct (Z.ltb_spec z (2 ^ 24)) as [|_]; [lia|].
  set (e := Z.log2 z - 23).
  assert (24 ≤ Z.log2 z) as Hlog by (apply Z.log2_le_pow2; lia).
  assert (0 < 2 ^ e) as He by (apply Z.pow_pos_nonneg; lia).
  pose proof (Z.div_mod z (2 ^ e) ltac:(lia)) as Hdm.
  pose proof (Z.mod_pos_bound z (2 ^ e) ltac:(lia)) as Hmb.
  destruct (Z.log2_spec z) as [Hlo Hhi]; [lia|].
  replace (Z.log2 z) with (23 + e) in Hlo by lia. replace (Z.succ (Z.log2 z)) with (24 + e) in Hhi by lia.
  replace (Z.log2 z + 1) with (24 + e) by lia. rewrite Z.pow_add_r in * by lia.
  set (q := z / 2 ^ e) in *. assert (2 ^ 23 ≤ q < 2 ^ 24) as Hq by nia.
  repeat case_match; split; nia.
Qed.

Lemma f32_lower z : 0 ≤ z → 3 * z ≤ 4 * f32 z.
Proof.
  intros Hz. destruct (decide (z < 2 ^ 24)); [rewrite f32_small by done; lia|]. apply f32_bounds. lia.
Qed.

Lemma zlen_realloc {A} (junk : A) l n : 0 ≤ n → zlen (realloc junk l n) = n.
Proof. intros. unfold zlen, realloc. rewrite length_resize. lia. Qed.

Lemma slice_realloc {A} (junk : A) l n b :
  0 ≤ b ≤ n → b ≤ zlen l → slice (realloc junk l n) 0 b = slice l 0 b.
Proof.
  intros Hb Hl. unfold slice, realloc, zlen in *. rewrite !drop_0.
  destruct (decide (length l ≤ Z.to_nat n)%nat).
  - rewrite resize_ge by done. by rewrite take_app_le by lia.
  - rewrite resize_le by lia. rewrite take_take. f_equal. lia.
Qed.

Lemma arr_ok_create m k : 0 ≤ k ≤ 30 → m = 2 ^ k → arr_ok (createArray m).
Proof. intros Hk ->. split; simpl; try done. - by left. - by exists k. Qed.

Lemma insertArray_ok junk A x :
  arr_ok A → asize A < 2 ^ 30 →
  wp (insertArray junk A x) (λ '(A', pos), arr_ok A' ∧ pos = asize A ∧
    acontents A' = acontents A ++ [x] ∧ asize A' = asize A + 1 ∧ aminsize A' = aminsize A).
Proof.
  intros [Hsz Hbuf Hcap (j & Hj & Hmin) Hemp] Hlt. unfold insertArray. apply wp_bind.
  assert (0 < 2 ^ j) by (apply Z.pow_pos_nonneg; lia).
  apply (wp_mono _ (λ '(p, m), zlen p = m ∧ asize A < m ∧ (aminsize A ≤ m ∧ ∃ k, 0 ≤ k ≤ 30 ∧ m = 2 ^ k) ∧
    slice p 0 (asize A) = acontents A)).
  - destruct (Z.eqb_spec (asize A) (amaxsize A)) as [He|].
    + destruct (Z.eqb_spec (amaxsize A) 0) as [Hz|].
      * simpl. rewrite zlen_replicate. split_and!; [lia|lia|lia|by exists j|].
        unfold acontents. by rewrite !slice_nil by lia.
      * destruct Hcap as [|(Hle & k & Hk & Hm)]; [lia|]. unfold grow. rewrite Hm, f32_pow2 by lia.
        assert (2 ^ k < 2 ^ 30) as Hk30 by lia. apply Z.pow_lt_mono_r_iff in Hk30; [|lia|lia].
        assert (2 * 2 ^ k = 2 ^ (k + 1)) as H2 by (rewrite Z.pow_add_r by lia; lia).
        assert (0 < 2 ^ k) by (apply Z.pow_pos_nonneg; lia).
        assert (2 ^ (k + 1) ≤ 2 ^ 30) by (apply Z.pow_le_mono_r; lia).
        unfold int32, INT_MIN, INT_MAX.
        destruct (Z.leb_spec (- 2 ^ 31) (2 * 2 ^ k)), (Z.leb_spec (2 * 2 ^ k) (2 ^ 31 - 1)); try lia.
        simpl. rewrite zlen_realloc by lia. split_and!; [lia|lia|lia|exists (k + 1); lia|].
        unfold acontents. apply slice_realloc; lia.
    + simpl. destruct Hcap as [|Hcap]; [lia|]. split_and!; [lia|lia|lia|by destruct Hcap|done].
  - intros [p m] (Hp & Hm & (Hmm & k & Hk & Hmk) & Hc). wp_run. split_and!; try done.
    + split; simpl; [lia|by zlia| |by exists j|lia]. right. split; [done|by exists k].
    + unfold acontents in *. simpl. rewrite slice_zinsert_snoc by lia. by rewrite Hc.
Qed.

Lemma acontents_last A x l : arr_ok A → acontents A = l ++ [x] → asize A = zlen l + 1.
Proof.
  intros [Hsz Hbuf _ _ _] Hc. apply (f_equal zlen) in Hc. unfold acontents in Hc.
  rewrite zlen_slice, zlen_app in Hc by lia. change (zlen [x]) with 1 in Hc. lia.
Qed.

Lemma deleteArray_ok junk A x l :
  arr_ok A → acontents A = l ++ [x] →
  arr_ok (deleteArray junk A) ∧ acontents (deleteArray junk A) = l ∧
  asize (deleteArray junk A) = asize A - 1 ∧ aminsize (deleteArray junk A) = aminsize A.
Proof.
  intros Hok Hc. pose proof (acontents_last A x l Hok Hc) as Hl. pose proof (zlen_nonneg l).
  destruct Hok as [Hsz Hbuf Hcap (j & Hj & Hmin) Hemp]. unfold deleteArray.
  assert (slice (pairs A) 0 (asize A - 1) = l) as Hc'.
  { unfold acontents in Hc. destruct (zlookup_total (pairs A) (asize A - 1)) as [y Hy]; [lia|].
    replace (asize A) with (asize A - 1 + 1) in Hc by lia.
    rewrite (slice_snoc _ 0 (asize A - 1) y) in Hc by (done || lia).
    by apply app_inj_tail in Hc as [-> _]. }
  destruct (Z.eqb_spec (asize A - 1) 0) as [Hz|Hnz].
  { split_and!; [|..]; simpl; try done.
    - split; simpl; [lia|done|by left|by exists j|done].
    - rewrite <-Hc'. unfold acontents. simpl. by rewrite !slice_nil by lia. }
  destruct Hcap as [|(Hle & k & Hk & Hm)]; [lia|].
  destruct (_ && _) eqn:Hb.
  - apply andb_true_iff in Hb as [Hb1%Z.ltb_lt Hb2%Z.leb_le].
    rewrite Hm, f32_pow2 in Hb1 by lia. rewrite Hm, Hmin, !f32_pow2 in Hb2 by lia.
    pose proof (f32_lower (asize A - 1) ltac:(lia)) as Hlow.
    assert (0 < 2 ^ j) by (apply Z.pow_pos_nonneg; lia).
    destruct (decide (k = 0)) as [->|]; [simpl in *; lia|].
    assert (2 ^ k = 2 * 2 ^ (k - 1)) as H2 by (rewrite <-Z.pow_succ_r by lia; f_equal; lia).
    unfold shrink. rewrite Hm, f32_pow2, H2, (Z.mul_comm 2), Z.div_mul by lia.
    split_and!; simpl; try done.
    + split; simpl; [lia|apply zlen_realloc; lia| |by exists j|lia].
      right. split; [lia|]. exists (k - 1). lia.
    + unfold acontents. simpl. rewrite slice_realloc by lia. done.
  - split_and!; simpl; try done. split; simpl; [lia|done| |by exists j|lia]. right. split; [done|by exists k].
Qed.

Lemma destroyArray_ok A : arr_ok A → arr_ok (destroyArray A) ∧ acontents (destroyArray A) = [].
Proof.
  intros Hok. pose proof Hok as [Hsz Hbuf Hcap Hmin Hemp]. unfold destroyArray.
  destruct (Z.eqb_spec (amaxsize A) 0) as [Hz|].
  - split; [done|]. unfold acontents. apply slice_nil. lia.
  - split; [|done]. split; simpl; try done. by left.
Qed.

(** ** The array as a stack *)

Inductive aop := Push (x : Z) | Pop.

Definition array_step (junk : Z) (op : aop) (A : Tarray) : res Tarray :=
  match op with
  | Push x => let* '(A, _) := insertArray junk A x in Ok A
  | Pop => Ok (deleteArray junk A)
  end.

(** The specification: a list whose last element is the top. *)
Definition stack_step (op : aop) (l : list Z) : option (list Z) :=
  match op, reverse l with
  | Push x, _ => Some (l ++ [x])
  | Pop, _ :: l' => Some (reverse l')
  | Pop, [] => None
  end.

Fixpoint stack_run (ops : list aop) (l : list Z) : option (list Z) :=
  match ops with
  | [] => Some l
  | op :: ops' => l' ← stack_step op l; stack_run ops' l'
  end.

Lemma array_step_ok junk op A l :
  arr_ok A → asize A < 2 ^ 30 → stack_step op (acontents A) = Some l →
  wp (array_step junk op A) (λ A', arr_ok A' ∧ acontents A' = l ∧ asize A' ≤ asize A + 1).
Proof.
  intros Hok Hsz Hst. destruct op as [x|]; simpl in *.
  - simplify_eq. apply wp_bind. eapply wp_mono; [by apply insertArray_ok|].
    intros [A' pos] (? & _ & ? & ? & _). simpl. split_and!; (done || lia).
  - destruct (reverse (acontents A)) as [|y l'] eqn:Hr; simplify_eq.
    apply (f_equal reverse) in Hr. rewrite reverse_involutive, reverse_cons in Hr.
    destruct (deleteArray_ok junk A y (reverse l') Hok Hr) as (? & ? & ? & _). split_and!; (done || lia).
Qed.

(** C18: the extendible array implements a stack: every sequence of insertions
    and deletions that a stack allows returns, with the stack's contents, and
    keeps the buffer at least as long as the contents, across all the
    reallocations. *)
Theorem array_refines_stack junk ops A l :
  arr_ok A → asize A + zlen ops ≤ 2 ^ 30 → stack_run ops (acontents A) = Some l →
  wp (for_each ops (array_step junk) A) (λ A', arr_ok A' ∧ acontents A' = l).
Proof.
  revert A. induction ops as [|op ops IH]; intros A Hok Hsz Hrun; simpl in *.
  - by simplify_eq.
  - rewrite zlen_cons in Hsz. pose proof (zlen_nonneg ops).
    destruct (stack_step op (acontents A)) as [l1|] eqn:Hst; simpl in Hrun; [|done].
    apply wp_bind. eapply wp_mono; [apply array_step_ok; [done|lia|done]|].
    intros A' (Hok' & <- & Hsz'). apply IH; [done|lia|done].
Qed.

Lemma array_refines_stack_witness :
  wp (for_each [Push 5; Push 6; Push 7; Pop; Pop] (array_step 9) (createArray 2))
    (λ A', arr_ok A' ∧ acontents A' = [5]).
Proof. apply array_refines_stack; [by apply (arr_ok_create 2 1)|done|reflexivity]. Defined.
