(* ===== verification/RHash.v ===== *)
(** * The hash table of pairs

    [compress/hash.cc]: linear probing over the record numbers, with -1 for an
    empty cell and -2 for a deleted one.  The records themselves ([records.h])
    are a vector; a record knows its cell ([kpos]).  The main results: with an
    empty cell left the table is a finite map from pairs to record numbers, also
    across a resize; without one, the search for an absent pair does not
    return. *)

From S2P Require Import Prelude Csr RArray.

(** ** Operations *)

Record Trecord := TRecord {
  rleft : Z; rright : Z;   (* the pair *)
  rfreq : Z;
  rcpos : Z;               (* first position in the text *)
  rhpos : Z;               (* position in the heap *)
  rkpos : Z                (* position in the hash table *)
}.

Record Thash := THash {
  table : list Z;
  maxpos : Z;
  used : Z
}.

Definition LPRIME : Z := 767865341467865341.
#[global] Arguments LPRIME : simpl never.

(** [((LPRIME * u) >> 32) & maxpos] for [u = left << 32 | right]. *)
Definition home (maxpos left right : Z) : Z :=
  let u := Z.lor (u64 (Z.shiftl (u64 left) 32)) (u64 right) in
  Z.land (Z.shiftr (u64 (LPRIME * u)) 32) maxpos.

(** [k = (k + 1) & H.maxpos]. *)
Definition next_cell (maxpos k : Z) : Z := Z.land (k + 1) maxpos.

#[global] Arguments home : simpl never.

(** A probe that has visited every cell visits the same cells again: with one
    round per cell and one more, running out of fuel means that the loop does
    not end. *)
Definition search_cell (fuel : nat) (H : Thash) (recs : list Trecord) (left right : Z) : res Z :=
  while fuel
    (λ k,
      let* t := vget (table H) k in
      if t =? -1 then Ok false
      else if 0 <=? t then
        let* r := vget recs t in
        Ok (negb ((rleft r =? left) && (rright r =? right)))
      else Ok true)
    (λ k, Ok (next_cell (maxpos H) k))
    (home (maxpos H) left right).

Definition searchHash (H : Thash) (recs : list Trecord) (left right : Z) : res Z :=
  let* k := search_cell (S (length (table H))) H recs left right in
  vget (table H) k.

Definition deleteHash (H : Thash) (recs : list Trecord) (id : Z) : res Thash :=
  let* r := vget recs id in
  let* table := vset (table H) (rkpos r) (-2) in
  Ok (THash table (maxpos H) (used H - 1)).

(** [while (maxpos & (maxpos - 1)) maxpos &= maxpos - 1]: at most one round per
    bit. *)
Definition top_bit (maxpos : Z) : res Z :=
  while 64 (λ m, Ok (negb (Z.land m (m - 1) =? 0))) (λ m, Ok (Z.land m (m - 1))) maxpos.

Definition createHash (maxpos : Z) : res Thash :=
  let* m := top_bit maxpos in
  let maxpos := Z.lor (Z.shiftl (m - 1) 1) 1 in
  Ok (THash (replicate (Z.to_nat (1 + maxpos)) (-1)) maxpos 0).

Definition finsertHash (H : Thash) (left right : Z) : res Z :=
  while (S (length (table H)))
    (λ k, let* t := vget (table H) k in Ok (0 <=? t))
    (λ k, Ok (next_cell (maxpos H) k))
    (home (maxpos H) left right).

Definition set_kpos (recs : list Trecord) (id k : Z) : res (list Trecord) :=
  let* r := vget recs id in
  vset recs id (TRecord (rleft r) (rright r) (rfreq r) (rcpos r) (rhpos r) k).

(** [k = finsertHash(H, rec[id].pair); H.table[k] = id; rec[id].kpos = k]. *)
Definition place (H : Thash) (recs : list Trecord) (id : Z) : res (Thash * list Trecord) :=
  let* r := vget recs id in
  let* k := finsertHash H (rleft r) (rright r) in
  let* table := vset (table H) k id in
  let* recs := set_kpos recs id k in
  Ok (THash table (maxpos H) (used H), recs).

(** The resize of [insertHash]. *)
Definition resizeHash (H : Thash) (recs : list Trecord) : res (Thash * list Trecord) :=
  let* m := int32 (Z.lor (Z.shiftl (maxpos H) 1) 1) in
  let* newH := createHash m in
  let* '(newH, recs) :=
    for_up 0 (maxpos H + 1) (λ i '(newH, recs),
      let* t := vget (table H) i in
      if 0 <=? t then place newH recs t else Ok (newH, recs)) (newH, recs) in
  Ok (THash (table newH) (maxpos newH) (used H), recs).

(** [H->used > H->maxpos * factor], with the factor 0.5. *)
Definition insertHash (H : Thash) (recs : list Trecord) (id : Z) : res (Thash * list Trecord) :=
  let* '(H, recs) :=
    if f32 (maxpos H) <? 2 * f32 (used H) then resizeHash H recs else Ok (H, recs) in
  place (THash (table H) (maxpos H) (used H + 1)) recs id.

Definition hashRepos (H : Thash) (recs : list Trecord) (id : Z) : res Thash :=
  let* r := vget recs id in
  let* table := vset (table H) (rkpos r) id in
  Ok (THash table (maxpos H) (used H)).

Definition destroyHash (H : Thash) : Thash := THash [] 0 0.

#[global] Arguments searchHash : simpl never.
#[global] Arguments finsertHash : simpl never.
#[global] Arguments place : simpl never.
#[global] Arguments createHash : simpl never.

(** ** Invariant *)

(** [d] steps after cell [k0]. *)
Definition probe (M k0 d : Z) : Z := (k0 + d) mod M.

(** Cell [k] is reached from [k0] without meeting an empty cell before it. *)
Definition reached (tb : list Z) (k0 k : Z) : Prop :=
  ∃ d, 0 ≤ d < zlen tb ∧ probe (zlen tb) k0 d = k ∧
    ∀ i, 0 ≤ i < d → tb !z probe (zlen tb) k0 i ≠ Some (-1).

(** Cell [k] holds record [id], whose pair is [(l, r)]. *)
Definition holds (tb : list Z) (recs : list Trecord) (k l r id : Z) : Prop :=
  0 ≤ id ∧ tb !z k = Some id ∧ ∃ rec, recs !z id = Some rec ∧ rleft rec = l ∧ rright rec = r ∧ rkpos rec = k.

(** The map the table represents. *)
Definition maps (H : Thash) (recs : list Trecord) (l r id : Z) : Prop :=
  ∃ k, holds (table H) recs k l r id.

Record table_ok (H : Thash) (recs : list Trecord) : Prop := {
  tk_size : ∃ b, 1 ≤ b ≤ 30 ∧ zlen (table H) = 2 ^ b ∧ maxpos H = 2 ^ b - 1;
  tk_cell : ∀ k id, table H !z k = Some id → 0 ≤ id →
    ∃ l r, holds (table H) recs k l r id ∧ reached (table H) (home (maxpos H) l r) k;
  tk_uniq : ∀ l r id id', maps H recs l r id → maps H recs l r id' → id = id'
}.

(** The number of cells in use. *)
Definition live (tb : list Z) : Z := zlen (filter (λ t, 0 ≤ t) tb).

Record hash_ok (H : Thash) (recs : list Trecord) : Prop := {
  ho_table : table_ok H recs;
  ho_used : used H = live (table H)
}.

(** ** Probing *)

Lemma land_mask x b : 0 ≤ b → Z.land x (2 ^ b - 1) = x mod 2 ^ b.
Proof. intros Hb. replace (2 ^ b - 1) with (Z.ones b) by (rewrite Z.ones_equiv; lia). by apply Z.land_ones. Qed.

Section probing.
Context (H : Thash) (b : Z) (Hb : 1 ≤ b ≤ 30).
Context (Hsize : zlen (table H) = 2 ^ b) (Hmax : maxpos H = 2 ^ b - 1).

Local Abbreviation M := (zlen (table H)).

Lemma cells_pos : 0 < M.
Proof using Hb Hsize. rewrite Hsize. apply Z.pow_pos_nonneg; lia. Qed.

Lemma home_range l r : 0 ≤ home (maxpos H) l r < M.
Proof using All.
  unfold home. rewrite Hmax, land_mask, Hsize by lia. apply Z.mod_pos_bound. rewrite <-Hsize. apply cells_pos.
Qed.

Lemma probe_range k0 d : 0 ≤ probe M k0 d < M.
Proof using Hb Hsize. unfold probe. apply Z.mod_pos_bound, cells_pos. Qed.

Lemma probe_0 l r : probe M (home (maxpos H) l r) 0 = home (maxpos H) l r.
Proof using All. unfold probe. rewrite Z.add_0_r. apply Z.mod_small, home_range. Qed.

Lemma probe_next k0 d : next_cell (maxpos H) (probe M k0 d) = probe M k0 (d + 1).
Proof using All.
  unfold next_cell, probe. rewrite Hmax, land_mask, Hsize by lia.
  rewrite Z.add_mod_idemp_l by (rewrite <-Hsize; pose proof cells_pos; lia). f_equal. lia.
Qed.

(** Every cell is met by a probe. *)
Lemma probe_hit k0 k : 0 ≤ k < M → ∃ d, 0 ≤ d < M ∧ probe M k0 d = k.
Proof using Hb Hsize.
  intros Hk. pose proof cells_pos. exists ((k - k0) mod M). split; [by apply Z.mod_pos_bound|].
  unfold probe. rewrite Z.add_mod_idemp_r by lia. rewrite Zplus_minus. by apply Z.mod_small.
Qed.

(** The first cell on the probe path with a decidable property. *)
Lemma probe_first (P : Z → Prop) `{!∀ t, Decision (P t)} k0 k t :
  table H !z k = Some t → P t →
  ∃ d t', 0 ≤ d < M ∧ table H !z probe M k0 d = Some t' ∧ P t' ∧
    ∀ i ti, 0 ≤ i < d → table H !z probe M k0 i = Some ti → ¬ P ti.
Proof using Hb Hsize.
  intros Hk HP. destruct (probe_hit k0 k) as (d0 & Hd0 & Hp0); [by eapply zlookup_range|].
  assert (∀ m : nat, Z.of_nat m ≤ d0 + 1 →
    (∃ d t', 0 ≤ d < Z.of_nat m ∧ table H !z probe M k0 d = Some t' ∧ P t' ∧
      ∀ i ti, 0 ≤ i < d → table H !z probe M k0 i = Some ti → ¬ P ti) ∨
    (∀ i ti, 0 ≤ i < Z.of_nat m → table H !z probe M k0 i = Some ti → ¬ P ti)) as Hm.
  { induction m as [|m IH]; intros Hm; [right; intros; lia|].
    destruct IH as [(d & t' & Hd & ? & ? & ?)|IH]; [lia|left; exists d, t'; split; [lia|done]|].
    destruct (zlookup_total (table H) (probe M k0 (Z.of_nat m))) as [tm Htm]; [apply probe_range|].
    destruct (decide (P tm)).
    - left. exists (Z.of_nat m), tm. split_and!; try done; lia.
    - right. intros i ti Hi Hti. destruct (decide (i = Z.of_nat m)) as [->|]; [congruence|].
      apply (IH i ti); [lia|done]. }
  destruct (Hm (Z.to_nat (d0 + 1))) as [(d & t' & Hd & ? & ? & ?)|Hno]; [lia| |].
  - exists d, t'. split; [lia|done].
  - exfalso. apply (Hno d0 t); [lia| |done]. by rewrite Hp0.
Qed.

(** A probing loop that stops at distance [d] and not before. *)
Lemma probe_loop (c : Z → res bool) k0 d :
  0 ≤ d < M → probe M k0 0 = k0 →
  (∀ i, 0 ≤ i < d → c (probe M k0 i) = Ok true) → c (probe M k0 d) = Ok false →
  while (S (length (table H))) c (λ k, Ok (next_cell (maxpos H) k)) k0 = Ok (probe M k0 d).
Proof using All.
  intros Hd H0 Hgo Hstop. apply wp_eq.
  apply (wp_while_rel (λ k m, ∃ i, 0 ≤ i ≤ d ∧ k = probe M k0 i ∧ m = Z.to_nat (d - i)) (Z.to_nat d)).
  - exists 0. split_and!; [lia|lia|done|f_equal; lia].
  - unfold zlen in Hd. lia.
  - intros k m (i & Hi & -> & ->). destruct (decide (i = d)) as [->|].
    + by rewrite Hstop.
    + rewrite Hgo by lia. simpl. exists (Z.to_nat (d - (i + 1))). split; [|lia].
      exists (i + 1). split_and!; [lia|lia|by rewrite probe_next|done].
Qed.
End probing.

(** ** Searching *)

Lemma search_found H recs l r id :
  table_ok H recs → maps H recs l r id → searchHash H recs l r = Ok id.
Proof.
  intros [(b & Hb & Hsize & Hmax) Hcell Huniq] (k & Hid & Hk & rec & Hrec & Hl & Hr & Hkp).
  destruct (Hcell k id Hk Hid) as (l' & r' & (_ & _ & rec' & Hrec' & <- & <- & _) & (d & Hd & Hpd & Hpath)).
  rewrite Hrec in Hrec'. simplify_eq. unfold searchHash, search_cell.
  set (k0 := home (maxpos H) (rleft rec') (rright rec')) in *.
  pose proof (probe_0 H b Hb Hsize Hmax (rleft rec') (rright rec')) as H0. fold k0 in H0.
  rewrite (probe_loop H b Hb Hsize Hmax _ k0 d Hd H0).
  - simpl. by rewrite Hpd, (vget_ok _ _ _ Hk).
  - intros i Hi.
    destruct (zlookup_total (table H) (probe (zlen (table H)) k0 i)) as [t Ht]; [by eapply probe_range|].
    rewrite (vget_ok _ _ _ Ht). simpl. destruct (Z.eqb_spec t (-1)) as [->|]; [by apply Hpath in Ht|].
    destruct (Z.leb_spec 0 t) as [Ht0|]; [|done].
    destruct (Hcell _ t Ht Ht0) as (l' & r' & Hh & _). pose proof Hh as (_ & _ & rt & Hrt & Hlt & Hrt' & Hkt).
    rewrite (vget_ok _ _ _ Hrt). simpl. f_equal. apply negb_true_iff, andb_false_iff.
    destruct (Z.eqb_spec (rleft rt) (rleft rec')) as [Hel|]; [|by left]. right. apply Z.eqb_neq. intros Her.
    assert (t = id) as ->.
    { apply (Huniq (rleft rec') (rright rec')).
      - eexists. rewrite <-Hel, <-Her, Hlt, Hrt'. exact Hh.
      - exists (rkpos rec'). split_and!; [done|done|]. by exists rec'. }
    assert (rt = rec') as -> by congruence.
    assert (probe (zlen (table H)) k0 i = probe (zlen (table H)) k0 d) as Hpe by congruence.
    unfold probe in Hpe. apply (f_equal (λ x, (x - k0) mod zlen (table H))) in Hpe.
    rewrite !Zminus_mod_idemp_l, !Z.add_simpl_l, !Z.mod_small in Hpe by lia. lia.
  - rewrite Hpd, (vget_ok _ _ _ Hk). simpl. destruct (Z.eqb_spec id (-1)); [lia|].
    destruct (Z.leb_spec 0 id); [|lia]. rewrite (vget_ok _ _ _ Hrec). simpl.
    by rewrite !Z.eqb_refl.
Qed.

Lemma search_absent H recs l r :
  table_ok H recs → (∀ id, ¬ maps H recs l r id) → -1 ∈ table H → searchHash H recs l r = Ok (-1).
Proof.
  intros [(b & Hb & Hsize & Hmax) Hcell _] Hno [k Hk]%elem_zlookup.
  set (k0 := home (maxpos H) l r).
  destruct (probe_first H b Hb Hsize (λ t, t = -1) k0 k (-1) Hk eq_refl) as (d & t & Hd & Ht & -> & Hbefore).
  unfold searchHash, search_cell. fold k0.
  rewrite (probe_loop H b Hb Hsize Hmax _ k0 d Hd (probe_0 H b Hb Hsize Hmax l r)).
  - simpl. by rewrite (vget_ok _ _ _ Ht).
  - intros i Hi.
    destruct (zlookup_total (table H) (probe (zlen (table H)) k0 i)) as [t Hti]; [by eapply probe_range|].
    rewrite (vget_ok _ _ _ Hti). simpl. destruct (Z.eqb_spec t (-1)) as [|]; [by destruct (Hbefore i t)|].
    destruct (Z.leb_spec 0 t) as [Ht0|]; [|done].
    destruct (Hcell _ t Hti Ht0) as (l' & r' & Hh & _). pose proof Hh as (_ & _ & rt & Hrt & Hlt & Hrt' & Hkt).
    rewrite (vget_ok _ _ _ Hrt). simpl. f_equal. apply negb_true_iff, andb_false_iff.
    destruct (Z.eqb_spec (rleft rt) l) as [<-|]; [|by left]. right. apply Z.eqb_neq. intros <-.
    apply (Hno t). eexists. rewrite <-Hlt, <-Hrt' in Hh. exact Hh.
  - by rewrite (vget_ok _ _ _ Ht).
Qed.

(** ** Placing a record *)

Lemma live_app t1 t2 : live (t1 ++ t2) = live t1 + live t2.
Proof. unfold live. by rewrite filter_app, zlen_app. Qed.

Lemma live_cons t tb : live (t :: tb) = (if decide (0 ≤ t) then 1 else 0) + live tb.
Proof. unfold live. rewrite filter_cons. case_decide; rewrite ?zlen_cons; lia. Qed.

Lemma live_zinsert tb k old new :
  tb !z k = Some old →
  live (zinsert tb k new) = live tb - (if decide (0 ≤ old) then 1 else 0) + (if decide (0 ≤ new) then 1 else 0).
Proof.
  intros Hk%zlookup_Some_nat. unfold zinsert. rewrite insert_take_drop by (by eapply lookup_lt_Some).
  rewrite <-(take_drop_middle tb _ old Hk) at 3. rewrite !live_app, !live_cons. lia.
Qed.

Lemma live_bounds tb : 0 ≤ live tb ≤ zlen tb.
Proof. unfold live, zlen. pose proof (length_filter (λ t, 0 ≤ t) tb). lia. Qed.

Lemma free_cell tb : live tb < zlen tb → ∃ k t, tb !z k = Some t ∧ t < 0.
Proof.
  induction tb as [|t tb IH]; [done|]. rewrite live_cons, zlen_cons. destruct (decide (0 ≤ t)).
  - intros Hl. destruct IH as (k & t' & Hk & Ht'); [lia|]. exists (k + 1), t'. split; [|done].
    pose proof (zlookup_range _ _ _ Hk). rewrite zlookup_nonneg in * by lia.
    by replace (Z.to_nat (k + 1)) with (S (Z.to_nat k)) by lia.
  - intros _. exists 0, t. split; [done|lia].
Qed.

(** The number of empty cells. *)
Definition empties (tb : list Z) : Z := zlen (filter (λ t, t = -1) tb).

Lemma empties_app t1 t2 : empties (t1 ++ t2) = empties t1 + empties t2.
Proof. unfold empties. by rewrite filter_app, zlen_app. Qed.

Lemma empties_cons t tb : empties (t :: tb) = (if decide (t = -1) then 1 else 0) + empties tb.
Proof. unfold empties. rewrite filter_cons. case_decide; rewrite ?zlen_cons; lia. Qed.

Lemma empties_zinsert tb k old new :
  tb !z k = Some old →
  empties (zinsert tb k new) = empties tb - (if decide (old = -1) then 1 else 0) + (if decide (new = -1) then 1 else 0).
Proof.
  intros Hk%zlookup_Some_nat. unfold zinsert. rewrite insert_take_drop by (by eapply lookup_lt_Some).
  rewrite <-(take_drop_middle tb _ old Hk) at 3. rewrite !empties_app, !empties_cons. lia.
Qed.

Lemma empties_empty n : empties (replicate n (-1)) = Z.of_nat n.
Proof. induction n as [|n IH]; [done|]. simpl. rewrite empties_cons, IH, decide_True by done. lia. Qed.

Lemma empties_elem tb : 0 < empties tb → -1 ∈ tb.
Proof.
  unfold empties. intros Hp. destruct (filter (λ t, t = -1) tb) as [|t l] eqn:E; [done|].
  assert (t ∈ filter (λ t, t = -1) tb) as [-> Hin]%list_elem_of_filter by (rewrite E; by left). done.
Qed.

(** Records that differ in their cell only. *)
Definition no_kpos (r : Trecord) : Trecord :=
  TRecord (rleft r) (rright r) (rfreq r) (rcpos r) (rhpos r) 0.
Definition kpos_only (recs recs' : list Trecord) : Prop := no_kpos <$> recs = no_kpos <$> recs'.

#[export] Instance kpos_only_equiv : Equivalence kpos_only.
Proof. split; unfold kpos_only; congruence. Qed.

Lemma kpos_only_lookup recs recs' i r :
  kpos_only recs recs' → recs !z i = Some r →
  ∃ r', recs' !z i = Some r' ∧ rleft r' = rleft r ∧ rright r' = rright r.
Proof.
  intros Heq Hr. apply (f_equal (λ l, l !z i)) in Heq. rewrite !zlookup_fmap, Hr in Heq.
  destruct (recs' !z i) as [r'|]; [|done]. exists r'. by destruct r, r'; simplify_eq/=.
Qed.

Lemma set_kpos_ok recs id k rec :
  recs !z id = Some rec →
  ∃ recs', set_kpos recs id k = Ok recs' ∧ kpos_only recs recs' ∧
    (∃ rec', recs' !z id = Some rec' ∧ rleft rec' = rleft rec ∧ rright rec' = rright rec ∧ rkpos rec' = k) ∧
    (∀ i, i ≠ id → recs' !z i = recs !z i).
Proof.
  intros Hrec. unfold set_kpos. rewrite (vget_ok _ _ _ Hrec). simpl. pose proof (zlookup_range _ _ _ Hrec) as Hr.
  rewrite vset_ok by done. eexists. split_and!; [done| | |].
  - unfold kpos_only, zinsert. rewrite list_fmap_insert. symmetry. apply list_insert_id.
    rewrite list_lookup_fmap, (zlookup_Some_nat _ _ _ Hrec). done.
  - eexists. rewrite zlookup_zinsert_eq by done. done.
  - intros i Hi. apply zlookup_zinsert_ne; [congruence|lia].
Qed.

(** What placing record [id], whose pair is [(l0, r0)], does to the table. *)
Record placed (H : Thash) (recs : list Trecord) (id l0 r0 : Z) (H' : Thash) (recs' : list Trecord) : Prop := {
  pl_ok : table_ok H' recs';
  pl_maxpos : maxpos H' = maxpos H;
  pl_len : zlen (table H') = zlen (table H);
  pl_used : used H' = used H;
  pl_live : live (table H') = live (table H) + 1;
  pl_empty : empties (table H) - 1 ≤ empties (table H');
  pl_recs : kpos_only recs recs';
  pl_maps : ∀ l r i, maps H' recs' l r i ↔ maps H recs l r i ∨ (l = l0 ∧ r = r0 ∧ i = id);
  pl_ids : ∀ k i, 0 ≤ i → table H' !z k = Some i → i = id ∨ table H !z k = Some i
}.

Lemma maps_stored H recs l r i : maps H recs l r i → 0 ≤ i ∧ ∃ k, table H !z k = Some i.
Proof. intros (k & ? & ? & _). eauto. Qed.

(** What the cells hold after record [id] was put into cell [k]. *)
Lemma place_holds tb recs recs' id k t rec rec' :
  0 ≤ id → tb !z k = Some t → t < 0 → (∀ j, tb !z j ≠ Some id) →
  recs' !z id = Some rec' → rleft rec' = rleft rec → rright rec' = rright rec → rkpos rec' = k → (∀ i, i ≠ id → recs' !z i = recs !z i) →
  ∀ j l r i, holds (zinsert tb k id) recs' j l r i ↔ holds tb recs j l r i ∨ (j = k ∧ l = rleft rec ∧ r = rright rec ∧ i = id).
Proof.
  intros Hid Ht Htneg Hnew Hrec' Hl' Hr' Hk' Hoth. pose proof (zlookup_range _ _ _ Ht) as Hkr.
  assert (∀ j, zinsert tb k id !z j = if decide (j = k) then Some id else tb !z j) as Htb' by (intros j; by apply zlookup_zinsert).
  intros j l r i. unfold holds. rewrite Htb'. destruct (decide (j = k)) as [->|Hjk].
  - split.
    + intros (Hi & [= <-] & re & Hre & <- & <- & Hke). right. rewrite Hrec' in Hre. simplify_eq. by rewrite Hl', Hr'.
    + intros [(Hi & Hki & _)|(_ & -> & -> & ->)].
      * rewrite Ht in Hki. simplify_eq. lia.
      * split_and!; [done|done|]. by exists rec'.
  - split.
    + intros (Hi & Hji & re & Hre & ? & ? & ?). left. assert (i ≠ id) by (intros ->; by apply (Hnew j)).
      split_and!; [done|done|]. exists re. rewrite Hoth in Hre by done. done.
    + intros [(Hi & Hji & re & Hre & ? & ? & ?)|(? & _)]; [|done].
      assert (i ≠ id) by (intros ->; by apply (Hnew j)). split_and!; [done|done|]. exists re.
      by rewrite Hoth by done.
Qed.

Lemma place_ok H recs id rec :
  table_ok H recs → recs !z id = Some rec → (∀ k, table H !z k ≠ Some id) →
  (∀ i, ¬ maps H recs (rleft rec) (rright rec) i) → live (table H) < zlen (table H) →
  wp (place H recs id) (λ '(H', recs'), placed H recs id (rleft rec) (rright rec) H' recs').
Proof.
  intros [(b & Hb & Hsize & Hmax) Hcell Huniq] Hrec Hnew Hno Hlive.
  assert (0 ≤ id) as Hid by (by apply zlookup_range in Hrec as []).
  set (k0 := home (maxpos H) (rleft rec) (rright rec)). assert (probe (zlen (table H)) k0 0 = k0) as Hk0.
  { apply (probe_0 H b Hb Hsize Hmax). }
  destruct (free_cell _ Hlive) as (kf & tf & Hkf & Htf).
  destruct (probe_first H b Hb Hsize (λ t, t < 0) k0 kf tf Hkf Htf) as (d & t & Hd & Ht & Htneg & Hbefore).
  remember (probe (zlen (table H)) k0 d) as k eqn:Hkd.
  assert (finsertHash H (rleft rec) (rright rec) = Ok k) as Hfin.
  { rewrite Hkd. apply (probe_loop H b Hb Hsize Hmax _ k0 d Hd Hk0).
    - intros i Hi. destruct (zlookup_total (table H) (probe (zlen (table H)) k0 i)) as [ti Hti]; [by eapply probe_range|].
      rewrite (vget_ok _ _ _ Hti). simpl. f_equal. apply Z.leb_le. specialize (Hbefore i ti Hi Hti). lia.
    - rewrite <-Hkd, (vget_ok _ _ _ Ht). simpl. f_equal. by apply Z.leb_gt. }
  pose proof (zlookup_range _ _ _ Ht) as Hkr.
  destruct (set_kpos_ok recs id k rec Hrec) as (recs' & Hset & Hko & (rec' & Hrec' & Hl' & Hr' & Hk') & Hoth).
  unfold place. rewrite (vget_ok _ _ _ Hrec). cbn [rbind]. rewrite Hfin. cbn [rbind].
  rewrite vset_ok by done. cbn [rbind]. rewrite Hset. cbn [rbind wp]. set (tb' := zinsert (table H) k id).
  assert (∀ j, tb' !z j = if decide (j = k) then Some id else table H !z j) as Htb'.
  { intros j. unfold tb'. case_decide as Hj; [subst; by apply zlookup_zinsert_eq|].
    by apply zlookup_zinsert_ne; [congruence|lia]. }
  assert (zlen tb' = zlen (table H)) as Hlen' by apply zlen_zinsert.
  assert (∀ j, tb' !z j = Some (-1) → table H !z j = Some (-1)) as Hempty.
  { intros j. rewrite Htb'. case_decide; [|done]. intros [= He]. lia. }
  pose proof (place_holds (table H) recs recs' id k t rec rec' Hid Ht Htneg Hnew Hrec' Hl' Hr' Hk' Hoth) as Hholds. fold tb' in Hholds.
  assert (∀ l r i, maps (THash tb' (maxpos H) (used H)) recs' l r i ↔
    maps H recs l r i ∨ (l = rleft rec ∧ r = rright rec ∧ i = id)) as Hmaps.
  { intros l r i. unfold maps. simpl. split.
    - intros [j [Hh|(_ & ?)]%Hholds]; [left; by exists j|by right].
    - intros [[j Hh]|Hn]; [exists j|exists k]; apply Hholds; [by left|by right]. }
  split; simpl; try done.
  - split; simpl.
    + exists b. by rewrite Hlen'.
    + intros j i Hj Hi. rewrite Htb' in Hj. destruct (decide (j = k)) as [->|Hjk]; simplify_eq.
      * exists (rleft rec), (rright rec). split; [by apply Hholds; right|]. exists d. rewrite Hlen'.
        split_and!; [lia|lia|done|]. intros x Hx. intros Hempt%Hempty. specialize (Hbefore x _ Hx Hempt). lia.
      * destruct (Hcell j i Hj Hi) as (l & r & Hh & (dj & Hdj & Hpj & Hpath)).
        exists l, r. split; [by apply Hholds; left|]. exists dj. rewrite Hlen'. split_and!; try done; [lia..|].
        intros x Hx Hempt%Hempty. by apply (Hpath x Hx).
    + intros l r i i' [H1|(-> & -> & ->)]%Hmaps [H2|(Hl & Hr & ->)]%Hmaps; [by eapply Huniq| | |done].
      * subst. by apply Hno in H1.
      * by apply Hno in H2.
  - unfold tb'. rewrite (live_zinsert _ _ _ _ Ht), decide_False, decide_True by lia. lia.
  - unfold tb'. rewrite (empties_zinsert _ _ _ _ Ht). repeat case_decide; lia.
  - intros j i Hi. rewrite Htb'. case_decide; [intros [= <-]; by left|by right].
Qed.

(** ** Creating a table *)

(** Clearing the lowest bit of [2^t o], for [o] odd. *)
Lemma land_pred_odd t o : 0 ≤ t → Z.odd o = true → 0 < o → Z.land (2 ^ t * o) (2 ^ t * o - 1) = 2 ^ t * (o - 1).
Proof.
  intros Ht Ho Hpos. assert (0 < 2 ^ t) by (apply Z.pow_pos_nonneg; lia).
  apply Z.bits_inj'. intros i Hi. rewrite Z.land_spec, !(Z.mul_comm (2 ^ t)).
  destruct (decide (i < t)); [by rewrite !Z.mul_pow2_bits_low|].
  rewrite !Z.mul_pow2_bits by lia.
  assert (Z.testbit (o * 2 ^ t - 1) i = Z.testbit (o - 1) (i - t)) as ->.
  { replace i with (i - t + t) at 1 by lia. rewrite <-Z.div_pow2_bits by lia. f_equal.
    replace (o * 2 ^ t - 1) with ((o - 1) * 2 ^ t + (2 ^ t - 1)) by lia.
    rewrite Z.div_add_l, (Z.div_small (2 ^ t - 1)) by lia. lia. }
  destruct (decide (i = t)) as [->|].
  - rewrite Z.sub_diag, !Z.bit0_odd, Ho. done.
  - pose proof (Z.div2_odd o) as Hoe. rewrite Ho in Hoe. cbn [Z.b2z] in Hoe.
    rewrite Hoe, Z.add_simpl_r. replace (i - t) with (Z.succ (i - t - 1)) by lia.
    rewrite Z.testbit_odd_succ, Z.testbit_even_succ by lia. by rewrite andb_diag.
Qed.

Lemma top_bit_pow2 b : 0 ≤ b → top_bit (2 ^ b) = Ok (2 ^ b).
Proof.
  intros Hb. apply wp_eq. unfold top_bit. pose proof (land_pred_odd b 1 Hb eq_refl ltac:(lia)) as Hl.
  rewrite Z.mul_1_r, Z.mul_0_r in Hl.
  apply (wp_while_rel (λ m _, m = 2 ^ b) 0); [done|lia|]. intros m k ->. by rewrite Hl.
Qed.

(** A run of ones: the loop clears them from the right, one per round. *)
Lemma top_bit_ones b : 0 ≤ b ≤ 60 → top_bit (2 ^ (b + 1) - 1) = Ok (2 ^ b).
Proof.
  intros Hb. apply wp_eq. unfold top_bit.
  apply (wp_while_rel (λ m k, ∃ t, 0 ≤ t ≤ b ∧ m = 2 ^ t * (2 ^ (b + 1 - t) - 1) ∧ k = Z.to_nat (b - t))
    (Z.to_nat b)).
  - exists 0. split_and!; try lia. rewrite Z.sub_0_r. lia.
  - lia.
  - intros m k (t & Ht & -> & ->). assert (0 < 2 ^ (b - t)) by (apply Z.pow_pos_nonneg; lia).
    assert (2 ^ (b + 1 - t) = 2 * 2 ^ (b - t)) as Hp.
    { rewrite <-Z.pow_succ_r by lia. f_equal. lia. }
    assert (0 < 2 ^ t) by (apply Z.pow_pos_nonneg; lia).
    rewrite land_pred_odd, Hp; [|lia| |lia].
    2:{ rewrite Hp, Z.odd_sub, Z.odd_mul. done. }
    replace (2 ^ t * (2 * 2 ^ (b - t) - 1 - 1)) with (2 ^ (t + 1) * (2 ^ (b - t) - 1)).
    2:{ rewrite Z.pow_add_r by lia. lia. }
    assert (0 < 2 ^ (t + 1)) by (apply Z.pow_pos_nonneg; lia).
    destruct (Z.eqb_spec (2 ^ (t + 1) * (2 ^ (b - t) - 1)) 0) as [Hz|Hz]; simpl.
    + assert (2 ^ (b - t) = 1) as Hone by nia.
      destruct (decide (t = b)) as [->|]; [rewrite Hone; lia|].
      assert (1 < 2 ^ (b - t)) by (apply Z.pow_gt_1; lia). lia.
    + assert (t ≠ b) by (intros ->; rewrite Z.sub_diag in Hz; simpl in Hz; lia).
      exists (Z.to_nat (b - (t + 1))). split; [|lia]. exists (t + 1). split_and!; try lia.
      do 2 f_equal. f_equal. lia.
Qed.

Lemma live_empty n : live (replicate n (-1)) = 0.
Proof. induction n as [|n IH]; [done|]. simpl. rewrite live_cons, IH. done. Qed.

Lemma shift_mask b : 0 ≤ b → Z.lor (Z.shiftl (2 ^ b - 1) 1) 1 = 2 ^ (b + 1) - 1.
Proof.
  intros Hb. rewrite Z.shiftl_mul_pow2 by lia. assert (0 < 2 ^ b) by (apply Z.pow_pos_nonneg; lia).
  assert (Z.land ((2 ^ b - 1) * 2 ^ 1) 1 = 0) as Hland.
  { change 1 with (Z.ones 1) at 3. rewrite Z.land_ones by lia. apply Z.mod_mul. lia. }
  rewrite <-Z.lxor_lor, <-Z.add_nocarry_lxor by done. rewrite Z.pow_add_r by lia. lia.
Qed.

(** A new table is empty and has [2^(b+1)] cells. *)
Lemma createHash_ok m b recs :
  0 ≤ b < 30 → m = 2 ^ b ∨ m = 2 ^ (b + 1) - 1 →
  ∃ H, createHash m = Ok H ∧ table_ok H recs ∧ maxpos H = 2 ^ (b + 1) - 1 ∧ used H = 0 ∧
    live (table H) = 0 ∧ table H = replicate (Z.to_nat (2 ^ (b + 1))) (-1).
Proof.
  intros Hb Hm. unfold createHash.
  assert (top_bit m = Ok (2 ^ b)) as ->.
  { destruct Hm as [->| ->]; [apply top_bit_pow2|apply top_bit_ones]; lia. }
  cbn [rbind]. rewrite shift_mask, Zplus_minus by lia. eexists. split; [done|].
  assert (0 < 2 ^ (b + 1)) by (apply Z.pow_pos_nonneg; lia).
  assert (∀ k id, replicate (Z.to_nat (2 ^ (b + 1))) (-1) !z k = Some id → 0 ≤ id → False) as Hno.
  { intros k id Hk. apply zlookup_elem, elem_of_replicate in Hk as [-> _]. lia. }
  split_and!; try done; [|apply live_empty]. split; simpl.
  - exists (b + 1). rewrite zlen_replicate. split_and!; lia.
  - intros k id Hk Hid. by destruct (Hno k id).
  - intros l r id id' (k & Hid & Hk & _). by destruct (Hno k id).
Qed.

(** ** Insertion *)

Definition pair_of (recs : list Trecord) (x l r : Z) : Prop :=
  ∃ rec, recs !z x = Some rec ∧ rleft rec = l ∧ rright rec = r.

#[export] Instance pair_of_proper : Proper (kpos_only ==> eq ==> eq ==> eq ==> iff) pair_of.
Proof.
  intros recs recs' Hk x ? <- l ? <- r ? <-. split.
  - intros (rec & Hr & <- & <-). destruct (kpos_only_lookup _ _ _ _ Hk Hr) as (rec' & ? & ? & ?). by exists rec'.
  - intros (rec & Hr & <- & <-). symmetry in Hk.
    destruct (kpos_only_lookup _ _ _ _ Hk Hr) as (rec' & ? & ? & ?). by exists rec'.
Qed.

(** In a well-formed table, a pair is mapped to [x] when [x] is in a cell. *)
Lemma maps_iff H recs l r x :
  table_ok H recs → maps H recs l r x ↔ 0 ≤ x ∧ (∃ k, table H !z k = Some x) ∧ pair_of recs x l r.
Proof.
  intros [_ Hcell _]. split.
  - intros (k & Hx & Hk & rec & ? & ? & ? & _). split_and!; [done|by exists k|by exists rec].
  - intros (Hx & (k & Hk) & rec & Hr & <- & <-).
    destruct (Hcell k x Hk Hx) as (l' & r' & (_ & _ & rec' & Hr' & <- & <- & Hkp) & _).
    rewrite Hr in Hr'. simplify_eq. eexists. split_and!; [done|exact Hk|]. by exists rec'.
Qed.

(** A record is in one cell only. *)
Lemma cell_unique H recs k k' x :
  table_ok H recs → 0 ≤ x → table H !z k = Some x → table H !z k' = Some x → k = k'.
Proof.
  intros [_ Hcell _] Hx Hk Hk'.
  destruct (Hcell k x Hk Hx) as (? & ? & (_ & _ & rec & Hr & _ & _ & <-) & _).
  destruct (Hcell k' x Hk' Hx) as (? & ? & (_ & _ & rec' & Hr' & _ & _ & <-) & _). congruence.
Qed.

(** The state of the resize after the first [i] cells. *)
Record moved (H : Thash) (recs : list Trecord) (b i : Z) (newH : Thash) (recs' : list Trecord) : Prop := {
  mv_ok : table_ok newH recs';
  mv_len : zlen (table newH) = 2 ^ (b + 1);
  mv_max : maxpos newH = 2 ^ (b + 1) - 1;
  mv_recs : kpos_only recs recs';
  mv_live : live (table newH) = live (slice (table H) 0 i);
  mv_empty : zlen (table newH) - live (table newH) ≤ empties (table newH);
  mv_ids : ∀ x, 0 ≤ x → (∃ k, table newH !z k = Some x) ↔ (∃ k, k < i ∧ table H !z k = Some x)
}.

Lemma moved_step H recs b i newH recs' t :
  table_ok H recs → zlen (table H) = 2 ^ b → 0 ≤ b → moved H recs b i newH recs' →
  table H !z i = Some t → 0 ≤ t →
  wp (place newH recs' t) (λ '(newH', recs''), moved H recs b (i + 1) newH' recs'').
Proof.
  intros Hok Hsz Hb [Hnew Hlen Hmx Hrecs Hlive Hempty Hids] Ht Ht0. pose proof (zlookup_range _ _ _ Ht) as Hi.
  destruct (tk_cell _ _ Hok i t Ht Ht0) as (l & r & (_ & _ & rec & Hrec & <- & <- & _) & _).
  destruct (kpos_only_lookup _ _ _ _ Hrecs Hrec) as (rec' & Hrec' & Hl & Hr).
  assert (∀ k, k < i → table H !z k = Some t → False) as Hfresh.
  { intros k Hk Hkt. pose proof (cell_unique _ _ _ _ _ Hok Ht0 Ht Hkt). lia. }
  assert (slice (table H) 0 (i + 1) = slice (table H) 0 i ++ [t]) as Hsl by (apply slice_snoc; [lia|done]).
  eapply wp_mono; [apply (place_ok newH recs' t rec'); try done|].
  - intros k Hk. destruct (proj1 (Hids t Ht0)) as (k' & ? & ?); [by exists k|]. by apply (Hfresh k').
  - intros x (Hx & Hst & Hp)%maps_iff; [|done]. apply (Hids x Hx) in Hst as (k & Hk & Hkx).
    assert (x = t) as ->; [|by apply (Hfresh k)].
    apply (tk_uniq _ _ Hok (rleft rec) (rright rec)); apply maps_iff; try done.
    + split_and!; [done|by exists k|]. rewrite Hrecs. by rewrite <-Hl, <-Hr.
    + split_and!; [done|by exists i|by exists rec].
  - rewrite Hlen, Hlive. pose proof (live_bounds (slice (table H) 0 i)).
    rewrite zlen_slice in H0 by lia. assert (0 < 2 ^ b) by (apply Z.pow_pos_nonneg; lia).
    rewrite Z.pow_add_r by lia. lia.
  - intros [newH' recs''] [Hpok Hpm Hpl Hpu Hplv Hpe Hpr Hpmaps Hpids]. split; try done.
    + by rewrite Hpl.
    + by rewrite Hpm.
    + by rewrite Hrecs.
    + rewrite Hplv, Hlive, Hsl, live_app, live_cons, decide_True by done. done.
    + lia.
    + intros x Hx. split.
      * intros (k & Hk). destruct (Hpids k x Hx Hk) as [->|Hold]; [exists i; split; [lia|done]|].
        destruct (proj1 (Hids x Hx)) as (k' & ? & ?); [by exists k|]. exists k'. split; [lia|done].
      * intros (k & Hk & Hkx).
        destruct (tk_cell _ _ Hok k x Hkx Hx) as (lx & rx & (_ & _ & rx' & Hrx & Hlx & Hrx2 & _) & _).
        destruct (kpos_only_lookup _ _ _ _ Hrecs Hrx) as (rx'' & Hrx'' & Hl2 & Hr2).
        assert (maps newH' recs'' (rleft rx'') (rright rx'') x) as Hm.
        { apply Hpmaps. destruct (decide (k = i)) as [->|].
          - right. assert (x = t) as -> by congruence. assert (rx'' = rec') as -> by congruence. done.
          - left. apply maps_iff; [done|]. split_and!; [done| |by exists rx''].
            apply (Hids x Hx). exists k. split; [lia|done]. }
        by apply maps_stored in Hm as [_ ?].
Qed.

Lemma resizeHash_ok H recs b :
  hash_ok H recs → zlen (table H) = 2 ^ b → 1 ≤ b < 30 →
  wp (resizeHash H recs) (λ '(H', recs'), hash_ok H' recs' ∧ kpos_only recs recs' ∧
    zlen (table H') = 2 ^ (b + 1) ∧ maxpos H' = 2 ^ (b + 1) - 1 ∧ used H' = used H ∧
    zlen (table H') - live (table H') ≤ empties (table H') ∧
    ∀ l r x, maps H' recs' l r x ↔ maps H recs l r x).
Proof.
  intros [Hok Hused] Hsz Hb. destruct (tk_size _ _ Hok) as (b' & Hb' & Hsz' & Hmax).
  assert (b' = b) as -> by (apply (Z.pow_inj_r 2); lia).
  assert (0 < 2 ^ b) by (apply Z.pow_pos_nonneg; lia).
  assert (2 ^ b ≤ 2 ^ 29) by (apply Z.pow_le_mono_r; lia).
  unfold resizeHash. rewrite Hmax, shift_mask by lia.
  assert (int32 (2 ^ (b + 1) - 1) = Ok (2 ^ (b + 1) - 1)) as ->.
  { unfold int32, INT_MIN, INT_MAX. rewrite Z.pow_add_r by lia.
    destruct (Z.leb_spec (- 2 ^ 31) (2 ^ b * 2 ^ 1 - 1)), (Z.leb_spec (2 ^ b * 2 ^ 1 - 1) (2 ^ 31 - 1)); done || lia. }
  cbn [rbind]. destruct (createHash_ok (2 ^ (b + 1) - 1) b recs) as (E0 & -> & Hok0 & Hmax0 & _ & Hlive0 & Htb0);
    [lia|by right|]. cbn [rbind]. apply wp_bind.
  apply (wp_for_up (λ i '(newH, recs'), moved H recs b i newH recs')).
  - lia.
  - split; try done.
    + rewrite Htb0, zlen_replicate. assert (0 < 2 ^ (b + 1)) by (apply Z.pow_pos_nonneg; lia). lia.
    + rewrite Htb0, live_empty, empties_empty, zlen_replicate. lia.
    + intros x Hx. split.
      * intros (k & Hk). rewrite Htb0 in Hk. apply zlookup_elem, elem_of_replicate in Hk as [-> _]. lia.
      * intros (k & Hk & Hkx). apply zlookup_range in Hkx. lia.
  - intros i [newH recs'] Hi Hmv. destruct (zlookup_total (table H) i) as [t Ht]; [lia|].
    rewrite (vget_ok _ _ _ Ht). cbn [rbind]. destruct (Z.leb_spec 0 t) as [Ht0|Ht0].
    + apply (moved_step H recs b i); (done || lia).
    + destruct Hmv as [? ? ? ? Hlv ? Hids]. split; try done.
      * rewrite Hlv, (slice_snoc _ 0 i t), live_app, live_cons, decide_False by (done || lia).
        change (live []) with 0. lia.
      * intros x Hx. rewrite Hids by done. split; intros (k & Hk & Hkx); exists k; (split; [|done]); [lia|].
        destruct (decide (k = i)) as [->|]; [|lia]. rewrite Ht in Hkx. simplify_eq. lia.
  - rewrite Z.sub_add. intros [newH recs'] [Hnok Hnlen Hnm Hnrecs Hnlive Hnempty Hnids]. cbn [rbind wp].
    rewrite <-Hsz, slice_full in Hnlive.
    assert (table_ok (THash (table newH) (maxpos newH) (used H)) recs') as Hok'.
    { destruct Hnok as [? ? Hu]. split; try done. }
    split_and!; try done.
    + split; [done|]. simpl. lia.
    + intros l r x. rewrite !maps_iff by done. simpl. rewrite Hnrecs.
      split; intros (Hx & Hst & Hp); (split_and!; [done| |done]).
      * apply (Hnids x Hx) in Hst as (k & _ & Hk). by exists k.
      * destruct Hst as (k & Hk). apply (Hnids x Hx). exists k. split; [|done]. apply zlookup_range in Hk. lia.
Qed.

Lemma f32_maxpos b : 0 ≤ b → f32 (2 ^ b - 1) ≤ 2 ^ b.
Proof.
  intros Hb. destruct (decide (2 ^ b - 1 < 2 ^ 24)); [rewrite f32_small by done; lia|].
  etrans; [apply f32_bounds; lia|]. apply Z.pow_le_mono_r; [lia|].
  assert (Z.log2 (2 ^ b - 1) < b); [|lia]. apply Z.log2_lt_pow2; lia.
Qed.

Lemma table_ok_used H recs n : table_ok H recs → table_ok (THash (table H) (maxpos H) n) recs.
Proof. intros []. split; done. Qed.

(** ** Results *)

(** Searching: a pair in the table is found under its record number; the search
    for a pair that is not in the table returns -1, if an empty cell is left. *)
Lemma searchHash_ok H recs l r :
  hash_ok H recs →
  (∀ id, maps H recs l r id → searchHash H recs l r = Ok id) ∧
  ((∀ id, ¬ maps H recs l r id) → -1 ∈ table H → searchHash H recs l r = Ok (-1)).
Proof. intros [Hok _]. split; intros; [by apply search_found|by apply search_absent]. Qed.

(** The cells after an insertion: one fewer is empty, or the table has doubled
    and holds no deleted cell. *)
Definition cells_after (H H' : Thash) : Prop :=
  live (table H') = live (table H) + 1 ∧
  ((zlen (table H') = zlen (table H) ∧ empties (table H) - 1 ≤ empties (table H')) ∨
   (zlen (table H') = 2 * zlen (table H) ∧ f32 (maxpos H) < 2 * f32 (used H) ∧
    zlen (table H') - live (table H') ≤ empties (table H'))).

(** Inserting a record whose pair is not in the table returns, also when it
    doubles the table, adds this pair to the map and nothing else, and changes no
    record apart from the cell numbers. *)
Lemma insertHash_ok H recs id rec :
  hash_ok H recs → zlen (table H) < 2 ^ 30 → recs !z id = Some rec →
  (∀ k, table H !z k ≠ Some id) → (∀ i, ¬ maps H recs (rleft rec) (rright rec) i) →
  wp (insertHash H recs id) (λ '(H', recs'), hash_ok H' recs' ∧ kpos_only recs recs' ∧ cells_after H H' ∧
    ∀ l r i, maps H' recs' l r i ↔
      maps H recs l r i ∨ (l = rleft rec ∧ r = rright rec ∧ i = id)).
Proof.
  intros Hok Hlt Hrec Hnew Hno. pose proof Hok as [Htok Hused].
  destruct (tk_size _ _ Htok) as (b & Hb & Hsz & Hmax).
  rewrite Hsz in Hlt. apply Z.pow_lt_mono_r_iff in Hlt; [|lia|lia].
  assert (0 ≤ id) as Hid by (by apply zlookup_range in Hrec as []).
  assert (0 < 2 ^ b) by (apply Z.pow_pos_nonneg; lia). pose proof (live_bounds (table H)) as Hlb.
  unfold insertHash. apply wp_bind.
  apply (wp_mono _ (λ '(H1, recs1), hash_ok H1 recs1 ∧ kpos_only recs recs1 ∧
    live (table H1) < zlen (table H1) ∧ live (table H1) = live (table H) ∧
    ((zlen (table H1) = zlen (table H) ∧ empties (table H1) = empties (table H)) ∨
     (zlen (table H1) = 2 * zlen (table H) ∧ f32 (maxpos H) < 2 * f32 (used H) ∧ zlen (table H1) - live (table H1) ≤ empties (table H1))) ∧
    (∀ l r x, maps H1 recs1 l r x ↔ maps H recs l r x))).
  - destruct (Z.ltb_spec (f32 (maxpos H)) (2 * f32 (used H))) as [Hfull|Hle].
    + eapply wp_mono; [apply (resizeHash_ok H recs b); (done || lia)|].
      intros [H1 recs1] (Hok1 & Hk1 & Hl1 & _ & Hu1 & He1 & Hm1). assert (live (table H1) = live (table H)) as Hlv by (rewrite <-(ho_used _ _ Hok1); lia).
      split_and!; try done.
      * rewrite Hlv, Hl1, Z.pow_add_r by lia. lia.
      * right. split_and!; [|done..]. rewrite Hl1, Hsz, Z.pow_add_r by lia. lia.
    + simpl. split_and!; try done; [|by left]. pose proof (f32_lower (used H) ltac:(lia)).
      pose proof (f32_maxpos b ltac:(lia)). rewrite Hmax in Hle. lia.
  - intros [H1 recs1] ([Htok1 Hused1] & Hk1 & Hlive1 & Hlv1 & Hcells & Hmaps1).
    destruct (kpos_only_lookup _ _ _ _ Hk1 Hrec) as (rec1 & Hrec1 & Hl1 & Hr1).
    eapply wp_mono; [apply (place_ok _ recs1 id rec1); [by apply table_ok_used|done| | |done]|].
    + simpl. intros k Hk. destruct (tk_cell _ _ Htok1 k id Hk Hid) as (l & r & Hh & _).
      assert (maps H recs l r id) as Hm by (apply Hmaps1; by exists k).
      apply maps_stored in Hm as (_ & k' & Hk'). by apply (Hnew k').
    + intros i Hm. apply (Hno i). rewrite <-Hl1, <-Hr1. by apply Hmaps1.
    + intros [H' recs'] [Hpok _ Hplen Hpu Hpl Hpe Hpr Hpm _]. simpl in *. split_and!.
      * split; [done|]. lia.
      * by rewrite Hk1.
      * split; [lia|]. destruct Hcells as [[? ?]|(? & ? & ?)]; [left; lia|right; lia].
      * intros l r i. rewrite Hpm, Hl1, Hr1. apply or_iff_compat_r. apply Hmaps1.
Qed.

(** Deleting a record takes its pair out of the map and leaves every other pair
    where it was. *)
Lemma deleteHash_ok H recs id k :
  hash_ok H recs → 0 ≤ id → table H !z k = Some id →
  wp (deleteHash H recs id) (λ H', hash_ok H' recs ∧ zlen (table H') = zlen (table H) ∧
    empties (table H') = empties (table H) ∧ live (table H') = live (table H) - 1 ∧
    ∀ l r i, maps H' recs l r i ↔ maps H recs l r i ∧ i ≠ id).
Proof.
  intros [Hok Hused] Hid Hk. pose proof Hok as [(b & Hb & Hsz & Hmax) Hcell Huniq].
  destruct (Hcell k id Hk Hid) as (l0 & r0 & (_ & _ & rec & Hrec & _ & _ & Hkp) & _).
  pose proof (zlookup_range _ _ _ Hk) as Hkr.
  unfold deleteHash. rewrite (vget_ok _ _ _ Hrec). cbn [rbind]. rewrite Hkp, vset_ok by done. cbn [rbind wp].
  set (tb' := zinsert (table H) k (-2)).
  assert (∀ j, tb' !z j = if decide (j = k) then Some (-2) else table H !z j) as Htb'.
  { intros j. unfold tb'. case_decide; [subst; by apply zlookup_zinsert_eq|].
    apply zlookup_zinsert_ne; [congruence|lia]. }
  assert (zlen tb' = zlen (table H)) as Hlen' by apply zlen_zinsert.
  assert (∀ j l r i, holds tb' recs j l r i ↔ holds (table H) recs j l r i ∧ i ≠ id) as Hholds.
  { intros j l r i. unfold holds. rewrite Htb'. destruct (decide (j = k)) as [->|Hjk].
    - split; [intros (? & [= <-] & _); lia|]. intros [(? & Hki & _) ?]. congruence.
    - split; [|tauto]. intros (Hi & Hji & Hr). split_and!; try done.
      intros ->. by apply Hjk, (cell_unique H recs _ _ id Hok Hid). }
  split.
  - split; simpl; [split; simpl|].
    + exists b. by rewrite Hlen'.
    + intros j i Hj Hi. rewrite Htb' in Hj. destruct (decide (j = k)) as [->|Hjk]; [simplify_eq; lia|].
      destruct (Hcell j i Hj Hi) as (l & r & Hh & (d & Hd & Hp & Hpath)). exists l, r. split.
      * apply Hholds. split; [done|]. intros ->. by apply Hjk, (cell_unique H recs _ _ id Hok Hid).
      * exists d. rewrite Hlen'. split_and!; try done; [lia..|]. intros x Hx. rewrite Htb'.
        case_decide; [done|]. by apply Hpath.
    + intros l r i i' [j [Hj _]%Hholds] [j' [Hj' _]%Hholds]. eapply Huniq; [by exists j|by exists j'].
    + unfold tb'. rewrite (live_zinsert _ _ _ _ Hk), decide_True, decide_False by lia. lia.
  - split_and!; [done|by unfold tb'; cbn; rewrite (empties_zinsert _ _ _ _ Hk), !decide_False by lia; lia|
      by unfold tb'; cbn; rewrite (live_zinsert _ _ _ _ Hk), decide_True, decide_False by lia; lia|].
    intros l r i. unfold maps. simpl. split.
    + intros [j [Hj ?]%Hholds]. split; [by exists j|done].
    + intros [[j Hj] ?]. exists j. by apply Hholds.
Qed.

(** C17: deleted cells are never emptied again.  Once no cell is empty, the
    search for a pair that is not in the table goes round the table for ever:
    no number of rounds is enough. *)
Theorem searchHash_diverges H recs l r fuel :
  hash_ok H recs → -1 ∉ table H → (∀ id, ¬ maps H recs l r id) →
  search_cell fuel H recs l r = Err OutOfFuel.
Proof.
  intros [[(b & Hb & Hsize & Hmax) Hcell _] _] Hfull Hno. unfold search_cell.
  apply (while_forever (λ k, 0 ≤ k < zlen (table H))); [by eapply home_range|].
  intros k Hk. split.
  - destruct (zlookup_total (table H) k Hk) as [t Ht]. rewrite (vget_ok _ _ _ Ht). cbn [rbind].
    destruct (Z.eqb_spec t (-1)) as [->|]; [by apply zlookup_elem in Ht|].
    destruct (Z.leb_spec 0 t) as [Ht0|]; [|done].
    destruct (Hcell k t Ht Ht0) as (l' & r' & Hh & _). pose proof Hh as (_ & _ & rt & Hrt & Hlt & Hrt' & _).
    rewrite (vget_ok _ _ _ Hrt). cbn [rbind]. f_equal. apply negb_true_iff, andb_false_iff.
    destruct (Z.eqb_spec (rleft rt) l) as [<-|]; [|by left]. right. apply Z.eqb_neq. intros <-.
    apply (Hno t). exists k. rewrite <-Hlt, <-Hrt' in Hh. exact Hh.
  - eexists. split; [done|]. unfold next_cell. rewrite Hmax, land_mask, Hsize by lia.
    apply Z.mod_pos_bound, Z.pow_pos_nonneg; lia.
Qed.

(** ** The invariant as a check *)

Definition reachedb (tb : list Z) (k0 k : Z) : bool :=
  existsb (λ d, (probe (zlen tb) k0 d =? k) &&
    forallb (λ i, bool_decide (tb !z probe (zlen tb) k0 i ≠ Some (-1))) (seqZ 0 d)) (seqZ 0 (zlen tb)).

Definition cell_okb (H : Thash) (recs : list Trecord) (k : Z) : bool :=
  match table H !z k with
  | Some id =>
      if 0 <=? id then
        match recs !z id with
        | Some rec => (rkpos rec =? k) && reachedb (table H) (home (maxpos H) (rleft rec) (rright rec)) k
        | None => false
        end
      else true
  | None => true
  end.

Definition distinctb (recs : list Trecord) (x y : Z) : bool :=
  match recs !z x, recs !z y with
  | Some rx, Some ry => (x =? y) || negb ((rleft rx =? rleft ry) && (rright rx =? rright ry))
  | _, _ => true
  end.

Definition hash_okb (b : Z) (H : Thash) (recs : list Trecord) : bool :=
  (1 <=? b) && (b <=? 30) && (zlen (table H) =? 2 ^ b) && (maxpos H =? 2 ^ b - 1) &&
  forallb (cell_okb H recs) (seqZ 0 (zlen (table H))) &&
  forallb (λ x, forallb (distinctb recs x) (filter (λ t, 0 ≤ t) (table H))) (filter (λ t, 0 ≤ t) (table H)) &&
  (used H =? live (table H)).

Lemma reachedb_ok tb k0 k : reachedb tb k0 k = true → reached tb k0 k.
Proof.
  unfold reachedb. rewrite existsb_exists. intros (d & Hd & Hb).
  rewrite <-list_elem_of_In, elem_of_seqZ in Hd. apply andb_true_iff in Hb as [Hp%Z.eqb_eq Hf].
  rewrite forallb_forall in Hf. exists d. split_and!; [lia|lia|done|]. intros i Hi.
  specialize (Hf i). rewrite <-list_elem_of_In, elem_of_seqZ, bool_decide_eq_true in Hf. apply Hf. lia.
Qed.

Lemma hash_okb_ok b H recs : hash_okb b H recs = true → hash_ok H recs.
Proof.
  unfold hash_okb. rewrite !andb_true_iff. intros ((((((H1 & H2) & H3) & H4) & H5) & H6) & H7).
  assert (∀ k id, table H !z k = Some id → 0 ≤ id → ∃ rec, recs !z id = Some rec ∧ rkpos rec = k ∧
    reached (table H) (home (maxpos H) (rleft rec) (rright rec)) k) as Hcell.
  { intros k id Hk Hid. rewrite forallb_forall in H5. specialize (H5 k).
    rewrite <-list_elem_of_In, elem_of_seqZ in H5. pose proof (zlookup_range _ _ _ Hk).
    specialize (H5 ltac:(lia)). unfold cell_okb in H5. rewrite Hk in H5.
    destruct (Z.leb_spec 0 id); [|lia]. destruct (recs !z id) as [rec|]; [|done].
    apply andb_true_iff in H5 as [Hkp%Z.eqb_eq Hr%reachedb_ok]. by exists rec. }
  split; [split|lia].
  - exists b. lia.
  - intros k id Hk Hid. destruct (Hcell k id Hk Hid) as (rec & Hrec & Hkp & Hr).
    exists (rleft rec), (rright rec). split; [|done]. split_and!; [done|done|]. by exists rec.
  - intros l r x y (k & Hx & Hkx & rx & Hrx & Hlx & Hrx' & _) (k' & Hy & Hky & ry & Hry & Hly & Hry' & _).
    rewrite forallb_forall in H6. specialize (H6 x). rewrite <-list_elem_of_In, list_elem_of_filter in H6.
    specialize (H6 (conj Hx (zlookup_elem _ _ _ Hkx))). rewrite forallb_forall in H6. specialize (H6 y).
    rewrite <-list_elem_of_In, list_elem_of_filter in H6. specialize (H6 (conj Hy (zlookup_elem _ _ _ Hky))).
    unfold distinctb in H6. rewrite Hrx, Hry in H6. subst l r. rewrite Hly, Hry', !Z.eqb_refl in H6. simpl in H6.
    rewrite orb_false_r in H6. by apply Z.eqb_eq.
Qed.

Definition search_b (H : Thash) (recs : list Trecord) (l r : Z) : bool :=
  existsb (λ x, (0 <=? x) && match recs !z x with
    | Some rec => (rleft rec =? l) && (rright rec =? r)
    | None => false
    end) (table H).

Lemma not_maps H recs l r id : search_b H recs l r = false → ¬ maps H recs l r id.
Proof.
  intros Hb (k & Hid & Hk & rec & Hrec & <- & <- & _). apply not_true_iff_false in Hb. apply Hb.
  apply existsb_exists. exists id. split; [by apply list_elem_of_In, (zlookup_elem _ k)|].
  rewrite Hrec, !Z.eqb_refl. destruct (Z.leb_spec 0 id); [done|lia].
Qed.

(** ** A concrete table *)

(** A table of two cells reaches the diverging state in three operations. *)
Lemma searchHash_diverges_witness :
  let recs := [TRecord 1 2 1 0 0 0; TRecord 3 4 1 0 0 0] in
  let recs' := [TRecord 1 2 1 0 0 0; TRecord 3 4 1 0 0 1] in
  (let* H := createHash 1 in
   let* '(H, recs) := insertHash H recs 0 in
   let* H := deleteHash H recs 0 in
   insertHash H recs 1) = Ok (THash [-2; 1] 1 1, recs') ∧
  search_cell 1000 (THash [-2; 1] 1 1) recs' 1 2 = Err OutOfFuel.
Proof.
  split; [vm_compute; reflexivity|]. apply searchHash_diverges.
  - apply (hash_okb_ok 1). vm_compute. reflexivity.
  - intros Hin%list_elem_of_In. simpl in Hin. intuition discriminate.
  - intros id. apply not_maps. vm_compute. reflexivity.
Defined.
