(* ===== verification/RMap.v ===== *)
(** * The hash table as a finite map

    [compress/hash.cc] against its contract: a finite map from pairs of symbols to
    record numbers. *)

From stdpp Require Import gmap.
From S2P Require Import Prelude Csr RArray RHash.

Abbreviation pair := (Z * Z)%type.

Record hash_rep (H : Thash) (recs : list Trecord) (M : gmap pair Z) : Prop := {
  hp_ok : hash_ok H recs;
  hp_maps : ∀ l r id, maps H recs l r id ↔ M !! (l, r) = Some id
}.

Section rep.
Context (H : Thash) (recs : list Trecord) (M : gmap pair Z) (Hh : hash_rep H recs M).

(** The record of a pair of the map. *)
Lemma rep_record l r id : M !! (l, r) = Some id →
  0 ≤ id ∧ ∃ rec, recs !z id = Some rec ∧ rleft rec = l ∧ rright rec = r ∧ table H !z rkpos rec = Some id.
Proof using Hh.
  intros (k & Hid & Hk & rec & Hr & ? & ? & <-)%(hp_maps _ _ _ Hh). split; [done|]. by exists rec.
Qed.

Lemma rep_inj p q id : M !! p = Some id → M !! q = Some id → p = q.
Proof using Hh.
  destruct p as [l r], q as [l' r']. intros (_ & rec & Hr & <- & <- & _)%rep_record (_ & rec' & Hr' & <- & <- & _)%rep_record. congruence.
Qed.

Lemma rep_cell id k : 0 ≤ id → table H !z k = Some id → ∃ p, M !! p = Some id.
Proof using Hh.
  intros Hid Hk. destruct (hp_ok _ _ _ Hh) as [[_ Hcell _] _]. destruct (Hcell k id Hk Hid) as (l & r & Hm & _).
  exists (l, r). apply (hp_maps _ _ _ Hh). by exists k.
Qed.

Lemma hash_search l r : -1 ∈ table H → searchHash H recs l r = Ok (default (-1) (M !! (l, r))).
Proof using Hh.
  intros He. destruct (searchHash_ok H recs l r (hp_ok _ _ _ Hh)) as [Hf Hn]. destruct (M !! (l, r)) as [id|] eqn:E.
  - by apply Hf, (hp_maps _ _ _ Hh).
  - apply Hn; [|done]. intros id Hid%(hp_maps _ _ _ Hh). congruence.
Qed.

Lemma hash_insert id rec :
  zlen (table H) < 2 ^ 30 → recs !z id = Some rec → (∀ p, M !! p ≠ Some id) → M !! (rleft rec, rright rec) = None →
  wp (insertHash H recs id) (λ '(H', recs'), hash_rep H' recs' (<[(rleft rec, rright rec) := id]> M) ∧
    kpos_only recs recs' ∧ cells_after H H').
Proof using Hh.
  intros Hlt Hr Hnew Hno. assert (0 ≤ id) as Hid by (by apply zlookup_range in Hr as []). eapply wp_mono.
  { apply (insertHash_ok H recs id rec (hp_ok _ _ _ Hh) Hlt Hr).
    - intros k Hk. destruct (rep_cell id k Hid Hk) as [p Hp]. by apply (Hnew p).
    - intros i Hi%(hp_maps _ _ _ Hh). congruence. }
  intros [H' recs'] (Hok & Hk & Hc & Hm). split_and!; [|done..]. split; [done|]. intros l r i.
  rewrite Hm, (hp_maps _ _ _ Hh), lookup_insert_Some. split.
  - intros [Hi|(-> & -> & ->)]; [right|by left]. split; [|done]. intros [= <- <-]. congruence.
  - intros [[[= <- <-] <-]|[_ ?]]; [by right|by left].
Qed.

Lemma hash_delete l r id :
  M !! (l, r) = Some id →
  wp (deleteHash H recs id) (λ H', hash_rep H' recs (delete (l, r) M) ∧ zlen (table H') = zlen (table H) ∧
    empties (table H') = empties (table H) ∧ live (table H') = live (table H) - 1).
Proof using Hh.
  intros HM. destruct (rep_record l r id HM) as (Hid & rec & Hr & _ & _ & Hk).
  eapply wp_mono; [by apply (deleteHash_ok H recs id (rkpos rec) (hp_ok _ _ _ Hh))|].
  intros H' (Hok & Hlen & He & Hl & Hm). split_and!; [|done..]. split; [done|]. intros l' r' i.
  rewrite Hm, (hp_maps _ _ _ Hh), lookup_delete_Some. split.
  - intros [Hi Hne]. split; [|done]. intros E. rewrite <-E in Hi. congruence.
  - intros [Hne Hi]. split; [done|]. intros ->. apply Hne. by apply (rep_inj (l, r) (l', r') id).
Qed.
End rep.

(** The table depends on the pairs and the cells of the records it holds only. *)
Lemma hash_rep_ext H recs recs' M :
  hash_rep H recs M →
  (∀ p id r, M !! p = Some id → recs !z id = Some r → ∃ r', recs' !z id = Some r' ∧
    rleft r' = rleft r ∧ rright r' = rright r ∧ rkpos r' = rkpos r) →
  hash_rep H recs' M.
Proof.
  intros Hh Hs.
  assert (∀ k l r id, holds (table H) recs k l r id → holds (table H) recs' k l r id) as Hto.
  { intros k l r id Hm. pose proof Hm as (Hid & Hk & rec & Hr & <- & <- & <-). destruct (Hs (rleft rec, rright rec) id rec) as (rec' & Hr' & ? & ? & ?).
    - apply (hp_maps _ _ _ Hh). by exists (rkpos rec).
    - done.
    - split_and!; [done..|]. by exists rec'. }
  assert (∀ k l r id, holds (table H) recs' k l r id → holds (table H) recs k l r id) as Hfrom.
  { intros k l r id (Hid & Hk & rec' & Hr' & <- & <- & <-). destruct (hp_ok _ _ _ Hh) as [[_ Hcell _] _].
    destruct (Hcell _ id Hk Hid) as (l & r & Hm & _). destruct (Hto _ _ _ _ Hm) as (_ & _ & rec'' & Hr'' & ? & ? & _). by simplify_eq. }
  destruct Hh as [[[Hsz Hcell Hu] Hus] Hm]. split; [split; [split|]|].
  - done.
  - intros k id Hk Hid. destruct (Hcell k id Hk Hid) as (l & r & ? & ?). exists l, r. split; [by apply Hto|done].
  - intros l r id id' [k Hk%Hfrom] [k' Hk'%Hfrom]. eapply Hu; [by exists k|by exists k'].
  - done.
  - intros l r id. rewrite <-Hm. split; intros [k Hk]; exists k; [by apply Hfrom|by apply Hto].
Qed.

(** A record that is not in the map may change. *)
Lemma hash_rep_out H recs M id r :
  hash_rep H recs M → (∀ p, M !! p ≠ Some id) → 0 ≤ id < zlen recs → hash_rep H (zinsert recs id r) M.
Proof.
  intros Hh Hno Hid. eapply hash_rep_ext; [exact Hh|]. intros p j rj Hj Hrj. exists rj. split; [|done].
  rewrite zlookup_zinsert_ne; [done| |lia]. intros ->. by apply (Hno p).
Qed.

(** Renumbering: the record [last] is copied to [id]. *)
Lemma hash_repos H recs M p last id r :
  hash_rep H recs M → M !! p = Some last → (∀ q, M !! q ≠ Some id) → 0 ≤ id < zlen recs → recs !z last = Some r →
  wp (hashRepos H (zinsert recs id r) id) (λ H', hash_rep H' (zinsert recs id r) (<[p := id]> M) ∧
    zlen (table H') = zlen (table H) ∧ empties (table H') = empties (table H) ∧ live (table H') = live (table H)).
Proof.
  intros Hh HM Hno Hid Hr. destruct p as [l0 r0]. pose proof (rep_record _ _ _ Hh _ _ _ HM) as (Hlast & r' & Hr' & Hl0 & Hr0 & Hk). assert (r' = r) as -> by congruence.
  assert (id ≠ last) as Hne by (intros ->; by apply (Hno (l0, r0))). set (recs' := zinsert recs id r).
  pose proof (zlookup_range _ _ _ Hk) as Hkr. unfold hashRepos. assert (recs' !z id = Some r) as Hrid by (by apply zlookup_zinsert_eq).
  rewrite (vget_ok _ _ _ Hrid). cbn [rbind]. rewrite vset_ok by done. cbn [rbind wp]. set (k0 := rkpos r) in *. set (tb' := zinsert (table H) k0 id).
  assert (∀ j, tb' !z j = if decide (j = k0) then Some id else table H !z j) as Htb.
  { intros j. unfold tb'. case_decide; [subst; by apply zlookup_zinsert_eq|]. apply zlookup_zinsert_ne; [congruence|lia]. }
  assert (∀ j, j ≠ id → recs' !z j = recs !z j) as Hrecs by (intros j Hj; apply zlookup_zinsert_ne; [congruence|lia]).
  assert (zlen tb' = zlen (table H)) as Hlen by apply zlen_zinsert.
  destruct (hp_ok _ _ _ Hh) as [Htok Hused]. pose proof Htok as [Hsz Hcell Huniq].
  assert (∀ k, table H !z k = Some id → False) as Hnocell.
  { intros k Hk'. destruct (rep_cell _ _ _ Hh id k ltac:(lia) Hk') as [q Hq]. by apply (Hno q). }
  assert (∀ k l' r1 i, holds tb' recs' k l' r1 i ↔ (i = id ∧ k = k0 ∧ l' = l0 ∧ r1 = r0) ∨ (i ≠ last ∧ holds (table H) recs k l' r1 i)) as Hholds.
  { intros k l' r1 i. unfold holds. rewrite Htb. destruct (decide (k = k0)) as [->|Hk0].
    - split.
      + intros (_ & [= <-] & rec & Hrec & <- & <- & _). left. simplify_eq. done.
      + intros [(-> & _ & -> & ->)|(Hi & _ & Hk' & _)]; [|congruence]. split_and!; [lia|done|]. by exists r.
    - split.
      + intros (Hi & Hki & rec & Hrec & ? & ? & ?). right. assert (i ≠ id) by (intros ->; by eapply Hnocell).
        split; [intros ->; by apply Hk0, (cell_unique H recs _ _ last)|]. split_and!; [done..|]. exists rec. by rewrite <-Hrecs.
      + intros [(_ & ? & _)|(Hi & Hi0 & Hki & rec & Hrec & ? & ? & ?)]; [done|]. assert (i ≠ id) by (intros ->; by eapply Hnocell).
        split_and!; [done..|]. exists rec. by rewrite Hrecs. }
  assert (∀ l' r1 i, maps (THash tb' (maxpos H) (used H)) recs' l' r1 i ↔ <[(l0, r0) := id]> M !! (l', r1) = Some i) as Hmaps.
  { intros l' r1 i. rewrite lookup_insert_Some, <-(hp_maps _ _ _ Hh). unfold maps. cbn [table]. split.
    - intros [k [(-> & -> & -> & ->)|[Hi Hm]]%Hholds]; [by left|]. right. split; [|by exists k]. intros [= <- <-].
      assert (maps H recs l0 r0 i) as Hm' by (by exists k). apply (hp_maps _ _ _ Hh) in Hm'. congruence.
    - intros [[[= <- <-] <-]|[Hne' [k Hm]]]; [exists k0; apply Hholds; by left|]. exists k. apply Hholds. right. split; [|done].
      intros ->. assert (maps H recs l' r1 last) as Hm' by (by exists k). apply (hp_maps _ _ _ Hh) in Hm'. apply Hne'. by apply (rep_inj _ _ _ Hh _ _ last). }
  split_and!.
  - split; [|exact Hmaps]. split; [split; cbn [table maxpos]|].
    + destruct Hsz as (b & ? & ? & ?). exists b. by rewrite Hlen.
    + intros k i Hk' Hi.
      assert (∀ l' r1 k', reached (table H) (home (maxpos H) l' r1) k' → reached tb' (home (maxpos H) l' r1) k') as Hreach.
      { intros l' r1 k' (d & Hd & Hp & Hpath). exists d. rewrite Hlen. split_and!; [lia|lia|done|]. intros x Hx. rewrite Htb.
        case_decide; [intros [= ->]; lia|by apply Hpath]. }
      rewrite Htb in Hk'. destruct (decide (k = k0)) as [->|Hkne].
      * injection Hk' as <-. exists l0, r0. split; [apply Hholds; by left|]. apply Hreach.
        destruct (Hcell k0 last Hk Hlast) as (l' & r1 & (_ & _ & rec & Hrec & <- & <- & _) & Hre). by simplify_eq.
      * destruct (Hcell k i Hk' Hi) as (l' & r1 & Hm & Hre). exists l', r1. split; [|by apply Hreach]. apply Hholds. right. split; [|done].
        intros ->. by apply Hkne, (cell_unique H recs _ _ last).
    + intros l' r1 i i' Hi%Hmaps Hi'%Hmaps. congruence.
    + cbn. rewrite Hused. unfold tb'. rewrite (live_zinsert _ _ _ _ Hk), !decide_True by lia. lia.
  - done.
  - cbn. unfold tb'. rewrite (empties_zinsert _ _ _ _ Hk), !decide_False by lia. lia.
  - cbn. unfold tb'. rewrite (live_zinsert _ _ _ _ Hk), !decide_True by lia. lia.
Qed.

(** ** Sequences of operations *)

Lemma cells_insert H H' recs k :
  hash_ok H recs → 1 ≤ k → cells_after H H' →
  2 ^ 17 ≤ zlen (table H) ≤ 2 ^ 18 ∧ k ≤ empties (table H) ∧ live (table H) ≤ 2 ^ 17 - k →
  2 ^ 17 ≤ zlen (table H') ≤ 2 ^ 18 ∧ k - 1 ≤ empties (table H') ∧ live (table H') ≤ 2 ^ 17 - (k - 1).
Proof.
  intros [[(b & Hb & Hsz & Hmax) _ _] Hused] Hk [Hl Hc] (Hz & He & Hlv). destruct Hc as [[Hz' He']|(Hz' & Hfull & He')]; [lia|].
  rewrite Hmax, Hused, !f32_small in Hfull by lia. assert (zlen (table H) < 2 ^ 18) as Hlt by lia. rewrite Hsz in Hlt, Hz.
  apply Z.pow_lt_mono_r_iff in Hlt; [|lia|lia]. destruct Hz as [Hz _]. apply Z.pow_le_mono_r_iff in Hz; [|lia|lia].
  assert (b = 17) as -> by lia. rewrite Hz', Hsz in *. lia.
Qed.


(** The operations on the table, and what they answer. *)
Inductive command :=
  | FindPair (l r : Z)
  | AddPair (id : Z)
  | DropPair (id : Z).

Fixpoint run_hash (cs : list command) (H : Thash) (recs : list Trecord) : res (list Z) :=
  match cs with
  | [] => Ok []
  | FindPair l r :: cs' =>
      let* id := searchHash H recs l r in
      let* out := run_hash cs' H recs in
      Ok (id :: out)
  | AddPair id :: cs' =>
      let* '(H, recs) := insertHash H recs id in
      run_hash cs' H recs
  | DropPair id :: cs' =>
      let* H := deleteHash H recs id in
      run_hash cs' H recs
  end.

(** The same on a finite map; [None] when an operation is not allowed: a record is
    inserted when neither it nor its pair is in the map, and deleted when it is. *)
Fixpoint run_map (pair_of : Z → option pair) (cs : list command) (M : gmap pair Z) : option (list Z) :=
  match cs with
  | [] => Some []
  | FindPair l r :: cs' => cons (default (-1) (M !! (l, r))) <$> run_map pair_of cs' M
  | AddPair id :: cs' =>
      p ← pair_of id;
      if decide (M !! p = None ∧ map_Forall (λ _ i, i ≠ id) M) then run_map pair_of cs' (<[p := id]> M) else None
  | DropPair id :: cs' =>
      p ← pair_of id;
      if decide (M !! p = Some id) then run_map pair_of cs' (delete p M) else None
  end.

Fixpoint inserts (cs : list command) : Z :=
  match cs with
  | [] => 0
  | AddPair _ :: cs' => 1 + inserts cs'
  | _ :: cs' => inserts cs'
  end.

Definition pair_of (recs : list Trecord) (id : Z) : option pair := (λ r, (rleft r, rright r)) <$> recs !z id.

Lemma pair_of_kpos recs recs' id : kpos_only recs recs' → pair_of recs' id = pair_of recs id.
Proof.
  intros Heq%(f_equal (λ l, l !z id)). rewrite !zlookup_fmap in Heq. unfold pair_of. destruct (recs !z id) as [[]|], (recs' !z id) as [[]|]; simplify_eq/=; done.
Qed.

Lemma inserts_nonneg cs : 0 ≤ inserts cs.
Proof. induction cs as [|[] cs IH]; cbn; lia. Qed.

Lemma run_ext f f' cs M : (∀ id, f id = f' id) → run_map f cs M = run_map f' cs M.
Proof.
  intros E. revert M. induction cs as [|[l r|id|id] cs IH]; intros M; [done|..]; cbn; [by rewrite IH|..]; rewrite E; destruct (f' id) as [p|]; try done; cbn; case_decide; try done; apply IH.
Qed.

Lemma run_refines cs H recs M k out :
  hash_rep H recs M → 2 ^ 17 ≤ zlen (table H) ≤ 2 ^ 18 ∧ k ≤ empties (table H) ∧ live (table H) ≤ 2 ^ 17 - k → inserts cs < k →
  run_map (pair_of recs) cs M = Some out → run_hash cs H recs = Ok out.
Proof.
  revert H recs M k out. induction cs as [|[l r|id|id] cs IH]; intros H recs M k out Hh Hk Hi Hrun; cbn [run_hash run_map inserts] in *; [by simplify_eq| | |]; pose proof (inserts_nonneg cs).
  - apply fmap_Some in Hrun as (out' & Hrun & ->). rewrite (hash_search _ _ _ Hh) by (apply empties_elem; lia). cbn [rbind]. by rewrite (IH _ _ _ _ _ Hh Hk Hi Hrun).
  - apply bind_Some in Hrun as (p & Hp & Hrun). case_decide as E; [|done]. destruct E as [HM Hno]. unfold pair_of in Hp. apply fmap_Some in Hp as (rec & Hr & ->).
    destruct (wp_inv _ _ (hash_insert _ _ _ Hh id rec ltac:(lia) Hr ltac:(intros p Hp; by apply (Hno p id)) HM)) as ([H' recs'] & -> & Hh' & Hkp & Hc). cbn [rbind].
    eapply (IH H' recs' _ (k - 1)); [exact Hh'| |lia|].
    + eapply cells_insert; [apply (hp_ok _ _ _ Hh)|lia|done|done].
    + rewrite <-Hrun. apply run_ext. intros i. by apply pair_of_kpos.
  - apply bind_Some in Hrun as (p & Hp & Hrun). case_decide as E; [|done]. destruct p as [l r].
    destruct (wp_inv _ _ (hash_delete _ _ _ Hh l r id E)) as (H' & -> & Hh' & Hz & He & Hl). cbn [rbind]. eapply (IH H' recs _ k); [exact Hh'|lia|lia|done].
Qed.

(** C20: the hash table refines a finite map.  Starting from the table that [prepare]
    creates, any sequence of searches, insertions and deletions that is allowed on the
    map, with fewer than 2^17 insertions, returns and gives the answers of the map,
    whatever collisions, deleted cells and resizings it goes through. *)
Theorem hash_refines_map cs recs out :
  run_map (pair_of recs) cs ∅ = Some out → inserts cs < 2 ^ 17 →
  (let* H := createHash (256 * 256) in run_hash cs H recs) = Ok out.
Proof.
  intros Hrun Hi. destruct (createHash_ok (256 * 256) 16 recs ltac:(lia) ltac:(by left)) as (H & -> & Htab & _ & Hused & Hlive & Htb). cbn [rbind].
  change (2 ^ (16 + 1)) with (2 ^ 17) in Htb. eapply (run_refines cs H recs ∅ (2 ^ 17)); [|rewrite Hlive, Htb, empties_empty, zlen_replicate; lia|done|done].
  split; [split; [done|lia]|]. intros l r id. rewrite lookup_empty. split; [|done]. intros (k & Hid & Hk & _). rewrite Htb in Hk.
  apply zlookup_elem, elem_of_replicate in Hk as [-> _]. lia.
Qed.

Lemma hash_refines_map_witness :
  let recs := [TRecord 1 2 1 0 0 0; TRecord 3 4 1 0 0 0; TRecord 1 3 1 0 0 0] in
  (let* H := createHash (256 * 256) in
   run_hash [AddPair 0; AddPair 1; FindPair 1 2; DropPair 0; FindPair 1 2; AddPair 2; FindPair 1 3; FindPair 3 4] H recs) = Ok [0; -1; 2; 1].
Proof. apply hash_refines_map; [vm_compute; reflexivity|reflexivity]. Defined.
