(* ===== verification/RHeap.v ===== *)
(** * Records and the priority structure

    [compress/records.cc] and [compress/heap.cc].  Records, hash table, heap and
    occurrence lists point at each other, so the operations act on one store
    that holds all of them.  A C pointer into one of the arrays is an index;
    every access through a pointer reads the array again, as the C code does.
    Memory that [malloc] returns holds an arbitrary value [junk]. *)

From S2P Require Import Prelude Csr RArray RHash.

(** ** Data *)

Record Tlist := TList { lprev : Z; lnext : Z }.

Record Trarray := TRarray {
  records : list Trecord;
  rmaxsize : Z;
  rsize : Z;
  rminsize : Z
}.

Record Thfreq := THfreq { ffreq : Z; felems : Z; flarger : Z; fsmaller : Z }.
Record Thnode := THnode { nid : Z; nprev : Z; nnext : Z; nfnode : Z }.

Record Theap := THeap {
  hfreq : list Thnode;   (* frequent nodes *)
  freef : Z;
  hff : list Thfreq;     (* frequencies of the frequent nodes *)
  freeff : Z;
  smallest : Z;
  largest : Z;
  infreq : list Tarray;  (* infrequent ones, one array per frequency *)
  sqrtu : Z;
  hmax : Z
}.

Record store := Store {
  Rec : Trarray;
  Hash : Thash;
  Heap : Theap;
  L : list Tlist
}.

(** Field updates. *)
Definition set_prev (x : Z) (n : Thnode) := THnode (nid n) x (nnext n) (nfnode n).
Definition set_next (x : Z) (n : Thnode) := THnode (nid n) (nprev n) x (nfnode n).
Definition set_fnode (x : Z) (n : Thnode) := THnode (nid n) (nprev n) (nnext n) x.
Definition set_id (x : Z) (n : Thnode) := THnode x (nprev n) (nnext n) (nfnode n).
Definition set_ffreq (x : Z) (f : Thfreq) := THfreq x (felems f) (flarger f) (fsmaller f).
Definition set_elems (x : Z) (f : Thfreq) := THfreq (ffreq f) x (flarger f) (fsmaller f).
Definition set_larger (x : Z) (f : Thfreq) := THfreq (ffreq f) (felems f) x (fsmaller f).
Definition set_smaller (x : Z) (f : Thfreq) := THfreq (ffreq f) (felems f) (flarger f) x.
Definition set_freq (x : Z) (r : Trecord) := TRecord (rleft r) (rright r) x (rcpos r) (rhpos r) (rkpos r).
Definition set_cpos (x : Z) (r : Trecord) := TRecord (rleft r) (rright r) (rfreq r) x (rhpos r) (rkpos r).
Definition set_hpos (x : Z) (r : Trecord) := TRecord (rleft r) (rright r) (rfreq r) (rcpos r) x (rkpos r).
Definition set_lprev (x : Z) (l : Tlist) := TList x (lnext l).
Definition set_lnext (x : Z) (l : Tlist) := TList (lprev l) x.

Definition with_nodes (H : Theap) (l : list Thnode) (free : Z) : Theap :=
  THeap l free (hff H) (freeff H) (smallest H) (largest H) (infreq H) (sqrtu H) (hmax H).
Definition with_ff (H : Theap) (l : list Thfreq) (free small large : Z) : Theap :=
  THeap (hfreq H) (freef H) l free small large (infreq H) (sqrtu H) (hmax H).
Definition with_infreq (H : Theap) (l : list Tarray) : Theap :=
  THeap (hfreq H) (freef H) (hff H) (freeff H) (smallest H) (largest H) l (sqrtu H) (hmax H).
Definition with_max (H : Theap) (m : Z) : Theap :=
  THeap (hfreq H) (freef H) (hff H) (freeff H) (smallest H) (largest H) (infreq H) (sqrtu H) m.

(** [a[i] = f(a[i])]. *)
Definition upd {A} (l : list A) (i : Z) (f : A → A) : res (list A) :=
  let* x := vget l i in
  vset l i (f x).

Lemma upd_ok {A} (l : list A) i f x : l !z i = Some x → upd l i f = Ok (zinsert l i (f x)).
Proof.
  intros Hx. unfold upd. rewrite (vget_ok _ _ _ Hx). simpl. apply vset_ok. by eapply zlookup_range.
Qed.

Definition upd_node (i : Z) (f : Thnode → Thnode) (H : Theap) : res Theap :=
  let* l := upd (hfreq H) i f in Ok (with_nodes H l (freef H)).
Definition upd_ff (i : Z) (f : Thfreq → Thfreq) (H : Theap) : res Theap :=
  let* l := upd (hff H) i f in Ok (with_ff H l (freeff H) (smallest H) (largest H)).
Definition set_freef (x : Z) (H : Theap) : Theap := with_nodes H (hfreq H) x.
Definition set_freeff (x : Z) (H : Theap) : Theap := with_ff H (hff H) x (smallest H) (largest H).
Definition set_smallest (x : Z) (H : Theap) : Theap := with_ff H (hff H) (freeff H) x (largest H).
Definition set_largest (x : Z) (H : Theap) : Theap := with_ff H (hff H) (freeff H) (smallest H) x.

Definition with_records (R : Trarray) (l : list Trecord) : Trarray :=
  TRarray l (rmaxsize R) (rsize R) (rminsize R).
Definition with_Rec (s : store) (R : Trarray) : store := Store R (Hash s) (Heap s) (L s).
Definition with_Hash (s : store) (H : Thash) : store := Store (Rec s) H (Heap s) (L s).
Definition with_Heap (s : store) (H : Theap) : store := Store (Rec s) (Hash s) H (L s).
Definition with_L (s : store) (l : list Tlist) : store := Store (Rec s) (Hash s) (Heap s) l.

Definition recs (s : store) : list Trecord := records (Rec s).
Definition with_recs (s : store) (l : list Trecord) : store := with_Rec s (with_records (Rec s) l).
Definition upd_rec (s : store) (i : Z) (f : Trecord → Trecord) : res store :=
  let* l := upd (recs s) i f in Ok (with_recs s l).
Definition upd_L (s : store) (i : Z) (f : Tlist → Tlist) : res store :=
  let* l := upd (L s) i f in Ok (with_L s l).

(** [NullFreq = 1 << (8*sizeof(int)-1)]. *)
Definition NullFreq : Z := INT_MIN.

(** ** Creation *)

Definition createRecords (minsize : Z) : Trarray := TRarray [] 0 0 minsize.

(** [while (H.sqrtu * H.sqrtu < u) H.sqrtu++], from 2. *)
Definition sqrt_up (u : Z) : res Z :=
  while (S (Z.to_nat u)) (λ x, Ok (x * x <? u)) (λ x, Ok (x + 1)) 2.

(** [infreq[0]] is allocated and not initialised. *)
Definition createHeap (junk u minsize : Z) : res Theap :=
  let* s := sqrt_up u in
  let infreq := TArray [] junk junk junk :: replicate (Z.to_nat (s - 1)) (createArray minsize) in
  let nodes := (λ i, THnode junk junk (if i <? s - 1 then i + 1 else -1) junk) <$> seqZ 0 s in
  let ffs := (λ i, THfreq junk junk (if i <? s - 1 then i + 1 else -1) junk) <$> seqZ 0 s in
  Ok (THeap nodes 0 ffs 0 (-1) (-1) infreq s s).

(** [destroyHeap] frees the arrays. *)
Definition destroyHeap (H : Theap) : Theap :=
  THeap [] (freef H) [] (freeff H) (-1) (-1) [] 0 (hmax H).

(** ** Moving between records and heap *)

(** [move(A, i, j, rec)] for [A = infreq[f]]: the buffer is shared. *)
Definition move (f i j : Z) (s : store) : res store :=
  let H := Heap s in
  let* A := vget (infreq H) f in
  let* id := vget (pairs A) j in
  let* p := vset (pairs A) i id in
  let* inf := vset (infreq H) f (TArray p (amaxsize A) (asize A) (aminsize A)) in
  upd_rec (with_Heap s (with_infreq H inf)) id (set_hpos i).

(** [deleteArray(&H->infreq[f])]. *)
Definition delete_infreq (junk f : Z) (s : store) : res store :=
  let* inf := upd (infreq (Heap s)) f (deleteArray junk) in
  Ok (with_Heap s (with_infreq (Heap s) inf)).

(** [rec[id].hpos = insertArray(&H->infreq[f], id)]. *)
Definition insert_infreq (junk f id : Z) (s : store) : res store :=
  let* A := vget (infreq (Heap s)) f in
  let* '(A, pos) := insertArray junk A id in
  let* inf := vset (infreq (Heap s)) f A in
  upd_rec (with_Heap s (with_infreq (Heap s) inf)) id (set_hpos pos).

Definition insertHeap (junk id : Z) (s : store) : res store :=
  let* s := insert_infreq junk 1 id s in
  upd_rec s id (set_freq 1).

Definition heapRepos (id : Z) (s : store) : res store :=
  let H := Heap s in
  let* r := vget (recs s) id in
  if rfreq r <? sqrtu H then
    let* A := vget (infreq H) (rfreq r) in
    let* p := vset (pairs A) (rhpos r) id in
    let* inf := vset (infreq H) (rfreq r) (TArray p (amaxsize A) (asize A) (aminsize A)) in
    Ok (with_Heap s (with_infreq H inf))
  else
    let* H := upd_node (rhpos r) (set_id id) H in
    Ok (with_Heap s H).

(** ** Records *)

Definition junk_record (junk : Z) : Trecord := TRecord junk junk junk junk junk junk.

(** Result: the number of the new record. *)
Definition insertRecord (junk left right : Z) (s : store) : res (Z * store) :=
  let R := Rec s in
  let* '(l, maxsize) :=
    if rsize R =? rmaxsize R then
      if rmaxsize R =? 0 then
        Ok (replicate (Z.to_nat (rminsize R)) (junk_record junk), rminsize R)
      else
        let* m := grow (rmaxsize R) in
        Ok (realloc (junk_record junk) (records R) m, m)
    else Ok (records R, rmaxsize R) in
  let id := rsize R in
  let* l := upd l id (λ r, TRecord left right (rfreq r) (rcpos r) (rhpos r) (rkpos r)) in
  let* '(H, l) := insertHash (Hash s) l id in
  let s := Store (TRarray l maxsize (id + 1) (rminsize R)) H (Heap s) (L s) in
  let* s := insertHeap junk id s in
  Ok (id, s).

Definition deleteRecord (junk : Z) (R : Trarray) : Trarray :=
  let size := rsize R - 1 in
  if size =? 0 then TRarray [] 0 size (rminsize R)
  else if (4 * f32 size <? f32 (rmaxsize R)) && (2 * f32 (rminsize R) <=? f32 size) then
    let maxsize := shrink (rmaxsize R) in
    TRarray (realloc (junk_record junk) (records R) maxsize) maxsize size (rminsize R)
  else TRarray (records R) (rmaxsize R) size (rminsize R).

Definition destroyRecords (R : Trarray) : Trarray :=
  if rmaxsize R =? 0 then R else TRarray [] 0 0 (rminsize R).

Definition removeRecord (junk id : Z) (s : store) : res store :=
  let* H := deleteHash (Hash s) (recs s) id in
  let s := with_Hash s H in
  let* r := vget (recs s) id in
  let* s :=
    if rcpos r =? -1 then Ok s else
    let* l := vget (L s) (rcpos r) in
    if lprev l =? - id - 1 then upd_L s (rcpos r) (set_lprev NullFreq) else Ok s in
  let* s :=
    if id =? rsize (Rec s) - 1 then Ok s else
    let* last := vget (recs s) (rsize (Rec s) - 1) in
    let* l := vset (recs s) id last in
    let s := with_recs s l in
    let* H := hashRepos (Hash s) (recs s) id in
    let s := with_Hash s H in
    let* s := heapRepos id s in
    let* r := vget (recs s) id in
    if rcpos r =? -1 then Ok s else upd_L s (rcpos r) (set_lprev (- id - 1)) in
  Ok (with_Rec s (deleteRecord junk (Rec s))).

(** ** The frequent part *)

(** Take node [hpos] out of the list of frequency node [fp]. *)
Definition unlink_node (hpos fp : Z) (H : Theap) : res Theap :=
  let* p := vget (hfreq H) hpos in
  let* H :=
    if nprev p =? -1 then upd_ff fp (set_elems (nnext p)) H
    else upd_node (nprev p) (set_next (nnext p)) H in
  let* p := vget (hfreq H) hpos in
  if nnext p =? -1 then Ok H else upd_node (nnext p) (set_prev (nprev p)) H.

(** Put node [hpos] first in the list of frequency node [fp]. *)
Definition push_node (hpos fp : Z) (H : Theap) : res Theap :=
  let* f := vget (hff H) fp in
  let* H := upd_node hpos (set_next (felems f)) H in
  upd_node (felems f) (set_prev hpos) H.

(** Release frequency node [fp] if its list became empty. *)
Definition drop_if_empty (fp : Z) (H : Theap) : res Theap :=
  let* f := vget (hff H) fp in
  if negb (felems f =? -1) then Ok H else
  let* H := if fsmaller f =? -1 then Ok (set_smallest (flarger f) H)
            else upd_ff (fsmaller f) (set_larger (flarger f)) H in
  let* f := vget (hff H) fp in
  let* H := if flarger f =? -1 then Ok (set_largest (fsmaller f) H)
            else upd_ff (flarger f) (set_smaller (fsmaller f)) H in
  let* H := upd_ff fp (set_larger (freeff H)) H in
  Ok (set_freeff fp H).

(** [ff[i].freq == freq] for a pointer that may be -1. *)
Definition has_freq (H : Theap) (i freq : Z) : res bool :=
  if i =? -1 then Ok false else
  let* f := vget (hff H) i in
  Ok (ffreq f =? freq).

(** [incFreq], node [hpos] in the frequent part, to frequency [freq]. *)
Definition inc_frequent (hpos freq : Z) (H : Theap) : res Theap :=
  let* p := vget (hfreq H) hpos in
  let fp := nfnode p in
  let* f := vget (hff H) fp in
  let* next_exists := has_freq H (flarger f) freq in
  if (nprev p =? -1) && (nnext p =? -1) && negb next_exists then upd_ff fp (set_ffreq freq) H else
  let* H := unlink_node hpos fp H in
  let* H := upd_node hpos (set_prev (-1)) H in
  let* f := vget (hff H) fp in
  let* next_exists := has_freq H (flarger f) freq in
  let* '(lfp, H) :=
    if next_exists then
      let* H := push_node hpos (flarger f) H in
      Ok (flarger f, H)
    else
      let lfp := freeff H in
      let* lf := vget (hff H) lfp in
      let H := set_freeff (flarger lf) H in
      let* H := upd_ff lfp (λ lf, THfreq freq (felems lf) (flarger f) fp) H in
      let* H := if flarger f =? -1 then Ok (set_largest lfp H)
                else upd_ff (flarger f) (set_smaller lfp) H in
      let* H := upd_ff fp (set_larger lfp) H in
      let* H := upd_node hpos (set_next (-1)) H in
      Ok (lfp, H) in
  let* H := upd_ff lfp (set_elems hpos) H in
  let* H := upd_node hpos (set_fnode lfp) H in
  drop_if_empty fp H.

(** [incFreq], a record that enters the frequent part with frequency [freq]. *)
Definition enter_frequent (id freq : Z) (s : store) : res store :=
  let H := Heap s in
  let hpos := freef H in
  let* free := vget (hfreq H) hpos in
  let H := set_freef (nnext free) H in
  let* s := upd_rec s id (set_hpos hpos) in
  let* H := upd_node hpos (λ p, set_id id (set_prev (-1) p)) H in
  let* exists_ := has_freq H (smallest H) freq in
  let* '(fp, H) :=
    if exists_ then
      let fp := smallest H in
      let* H := push_node hpos fp H in
      Ok (fp, H)
    else
      let fp := freeff H in
      let* f := vget (hff H) fp in
      let H := set_freeff (flarger f) H in
      let* H := upd_ff fp (λ f, THfreq freq (felems f) (smallest H) (-1)) H in
      let* H := if smallest H =? -1 then Ok H else upd_ff (smallest H) (set_smaller fp) H in
      let H := set_smallest fp H in
      let H := if largest H =? -1 then set_largest fp H else H in
      let* H := upd_node hpos (set_next (-1)) H in
      Ok (fp, H) in
  let* H := upd_ff fp (set_elems hpos) H in
  let* H := upd_node hpos (set_fnode fp) H in
  Ok (with_Heap s H).

Definition incFreq (junk id : Z) (s : store) : res store :=
  let* r := vget (recs s) id in
  let freq := rfreq r in
  let hpos := rhpos r in
  let* s := upd_rec s id (set_freq (freq + 1)) in
  if sqrtu (Heap s) <=? freq then
    let* H := inc_frequent hpos (freq + 1) (Heap s) in
    Ok (with_Heap s H)
  else
    let* A := vget (infreq (Heap s)) freq in
    let* s := move freq hpos (asize A - 1) s in
    let* s := delete_infreq junk freq s in
    if freq + 1 <? sqrtu (Heap s) then insert_infreq junk (freq + 1) id s
    else enter_frequent id (freq + 1) s.

(** [decFreq], node [hpos] stays in the frequent part, with frequency [freq]. *)
Definition dec_frequent (hpos freq : Z) (H : Theap) : res Theap :=
  let* p := vget (hfreq H) hpos in
  let fp := nfnode p in
  let* f := vget (hff H) fp in
  let* next_exists := has_freq H (fsmaller f) freq in
  if (nprev p =? -1) && (nnext p =? -1) && negb next_exists then upd_ff fp (set_ffreq freq) H else
  let* H := unlink_node hpos fp H in
  let* H := upd_node hpos (set_prev (-1)) H in
  let* f := vget (hff H) fp in
  let* next_exists := has_freq H (fsmaller f) freq in
  let* '(sfp, H) :=
    if next_exists then
      let* H := push_node hpos (fsmaller f) H in
      Ok (fsmaller f, H)
    else
      let sfp := freeff H in
      let* sf := vget (hff H) sfp in
      let H := set_freeff (flarger sf) H in
      let* H := upd_ff sfp (λ sf, THfreq freq (felems sf) fp (fsmaller f)) H in
      let* H := if fsmaller f =? -1 then Ok (set_smallest sfp H)
                else upd_ff (fsmaller f) (set_larger sfp) H in
      let* H := upd_ff fp (set_smaller sfp) H in
      let* H := upd_node hpos (set_next (-1)) H in
      Ok (sfp, H) in
  let* H := upd_ff sfp (set_elems hpos) H in
  let* H := upd_node hpos (set_fnode sfp) H in
  drop_if_empty fp H.

(** [decFreq], node [hpos] leaves the frequent part: it has the smallest
    frequency. *)
Definition leave_frequent (hpos : Z) (H : Theap) : res Theap :=
  let* p := vget (hfreq H) hpos in
  let fp := nfnode p in
  let* H := unlink_node hpos fp H in
  let* H := upd_node hpos (set_next (freef H)) H in
  let H := set_freef hpos H in
  let* f := vget (hff H) fp in
  if negb (felems f =? -1) then Ok H else
  let H := set_smallest (flarger f) H in
  let* H := if flarger f =? -1 then Ok (set_largest (-1) H)
            else upd_ff (flarger f) (set_smaller (-1)) H in
  let* H := upd_ff fp (set_larger (freeff H)) H in
  Ok (set_freeff fp H).

Definition decFreq (junk id : Z) (s : store) : res store :=
  let* r := vget (recs s) id in
  let freq := rfreq r in
  let hpos := rhpos r in
  let* s := upd_rec s id (set_freq (freq - 1)) in
  if sqrtu (Heap s) <? freq then
    let* H := dec_frequent hpos (freq - 1) (Heap s) in
    Ok (with_Heap s H)
  else
    let* s :=
      if freq <? sqrtu (Heap s) then
        let* A := vget (infreq (Heap s)) freq in
        let* s := move freq hpos (asize A - 1) s in
        delete_infreq junk freq s
      else
        let* H := leave_frequent hpos (Heap s) in
        Ok (with_Heap s H) in
    if 0 <? freq - 1 then insert_infreq junk (freq - 1) id s
    else removeRecord junk id s.

(** ** Extraction *)

(** [while (H->max && (H->infreq[H->max].size == 0)) H->max--]. *)
Definition lower_max (H : Theap) : res Z :=
  while (S (Z.to_nat (sqrtu H)))
    (λ m, if m =? 0 then Ok false else
          let* A := vget (infreq H) m in Ok (asize A =? 0))
    (λ m, Ok (m - 1)) (hmax H).

(** Result: the record extracted, or -1. *)
Definition extractMax (junk : Z) (s : store) : res (Z * store) :=
  let H := Heap s in
  let H := if (hmax H =? sqrtu H) && (largest H =? -1) then with_max H (hmax H - 1) else H in
  if hmax H <? sqrtu H then
    let* m := lower_max H in
    let H := with_max H m in
    if m =? 0 then Ok (-1, with_Heap s H) else
    let* A := vget (infreq H) m in
    let* ret := vget (pairs A) (asize A - 1) in
    let* s := delete_infreq junk m (with_Heap s H) in
    Ok (ret, s)
  else
    let fp := largest H in
    let* f := vget (hff H) fp in
    let hpos := felems f in
    let* p := vget (hfreq H) hpos in
    let* H := upd_ff fp (set_elems (nnext p)) H in
    let* H :=
      if nnext p =? -1 then
        let H := set_largest (fsmaller f) H in
        let* H := if fsmaller f =? -1 then Ok (set_smallest (-1) H)
                  else upd_ff (fsmaller f) (set_larger (-1)) H in
        let* H := upd_ff fp (set_larger (freeff H)) H in
        Ok (set_freeff fp H)
      else upd_node (nnext p) (set_prev (-1)) H in
    let* H := upd_node hpos (set_next (freef H)) H in
    Ok (nid p, with_Heap s (set_freef hpos H)).

(** Remove the pairs of frequency 1.  [infreq[1].pairs] is read anew in every
    round: [removeRecord] may renumber records that are still to be removed. *)
Definition purgeHeap (junk : Z) (s : store) : res store :=
  let* A := vget (infreq (Heap s)) 1 in
  let* s := for_up 0 (asize A) (λ i s,
    let* A := vget (infreq (Heap s)) 1 in
    let* id := vget (pairs A) i in
    removeRecord junk id s) s in
  let* inf := upd (infreq (Heap s)) 1 destroyArray in
  Ok (with_Heap s (with_infreq (Heap s) inf)).
