(* ===== verification/RBuckets.v ===== *)
(** * The infrequent part of the heap

    [compress/heap.cc]: the pairs of frequency below [sqrtu] are kept in one
    array per frequency.  The invariant: a record in array [f] at position [i]
    has frequency [f] and [hpos = i].  Here are the lemmas on taking a record out
    of its array, on putting one into an array, and on extraction from an array;
    RPrio puts them together with the frequent part. *)

From S2P Require Import Prelude Csr RArray RHash RHeap.

(** ** The size of the heap *)

(** The square root loop of [createHeap] ends, with the least number from 2
    on whose square is at least [u]. *)
Lemma sqrt_up_correct u :
  0 ≤ u → wp (sqrt_up u) (λ x, 2 ≤ x ∧ u ≤ x * x ∧ (x = 2 ∨ (x - 1) * (x - 1) < u)).
Proof.
  intros Hu. unfold sqrt_up.
  apply (wp_while_rel (λ x m, 2 ≤ x ∧ (x = 2 ∨ (x - 1) * (x - 1) < u) ∧ m = Z.to_nat (u - x)) (Z.to_nat (u - 2))).
  - split_and!; [done|by left|done].
  - lia.
  - intros x m (Hx & Hmin & ->). destruct (Z.ltb_spec (x * x) u); simpl.
    + exists (Z.to_nat (u - (x + 1))). split; [|nia]. split_and!; [lia| |done]. right. rewrite Z.add_simpl_r. done.
    + done.
Qed.

(** ** Buckets *)

Definition in_bucket (s : store) (f i id : Z) : Prop :=
  1 ≤ f ∧ ∃ A, infreq (Heap s) !z f = Some A ∧ acontents A !z i = Some id.

Definition bucket (s : store) (f : Z) : list Z :=
  match infreq (Heap s) !z f with
  | Some A => acontents A
  | None => []
  end.

Record buckets_ok (s : store) : Prop := {
  bo_arr : ∀ f A, 1 ≤ f → infreq (Heap s) !z f = Some A → arr_ok A;
  bo_rec : ∀ f i id, in_bucket s f i id → ∃ r, recs s !z id = Some r ∧ rfreq r = f ∧ rhpos r = i
}.

(** The invariant for all records but [x]. *)
Record buckets_but (x : Z) (s : store) : Prop := {
  bb_arr : ∀ f A, 1 ≤ f → infreq (Heap s) !z f = Some A → arr_ok A;
  bb_rec : ∀ f i id, in_bucket s f i id → id ≠ x → ∃ r, recs s !z id = Some r ∧ rfreq r = f ∧ rhpos r = i
}.

(** Records that differ in [hpos] only. *)
Definition no_hpos (r : Trecord) : Trecord := set_hpos 0 r.
Definition hpos_only (l l' : list Trecord) : Prop := no_hpos <$> l = no_hpos <$> l'.

#[export] Instance hpos_only_equiv : Equivalence hpos_only.
Proof. split; unfold hpos_only; congruence. Qed.

Lemma hpos_only_lookup l l' i r :
  hpos_only l l' → l !z i = Some r → ∃ r', l' !z i = Some r' ∧ rfreq r' = rfreq r ∧ no_hpos r' = no_hpos r.
Proof.
  intros Heq Hr. apply (f_equal (λ l, l !z i)) in Heq. rewrite !zlookup_fmap, Hr in Heq.
  destruct (l' !z i) as [r'|]; [|done]. exists r'. destruct r, r'; simplify_eq/=. done.
Qed.

Lemma hpos_only_set l i p r : l !z i = Some r → hpos_only l (zinsert l i (set_hpos p r)).
Proof.
  intros Hr. unfold hpos_only, zinsert. rewrite list_fmap_insert. symmetry. apply list_insert_id.
  by rewrite list_lookup_fmap, (zlookup_Some_nat _ _ _ Hr).
Qed.

Lemma acontents_lookup A i : arr_ok A → 0 ≤ i < asize A → acontents A !z i = pairs A !z i.
Proof. intros [] Hi. unfold acontents. rewrite zlookup_slice by lia. done. Qed.

Lemma acontents_range A i x : arr_ok A → acontents A !z i = Some x → 0 ≤ i < asize A.
Proof.
  intros [] Hx%zlookup_range. unfold acontents in Hx. rewrite zlen_slice in Hx by lia. lia.
Qed.

(** Overwriting a cell in use. *)
Lemma acontents_set A i x :
  arr_ok A → 0 ≤ i < asize A →
  let A' := TArray (zinsert (pairs A) i x) (amaxsize A) (asize A) (aminsize A) in
  arr_ok A' ∧ acontents A' = zinsert (acontents A) i x.
Proof.
  intros Hok Hi. pose proof Hok as [Hsz Hbuf Hcap Hmin Hemp]. split.
  - split; simpl; try done. rewrite zlen_zinsert. done.
  - unfold acontents. simpl. apply zlist_eq.
    + rewrite zlen_zinsert, !zlen_slice by (rewrite ?zlen_zinsert; lia). done.
    + intros j Hj. rewrite zlen_slice in Hj by (rewrite ?zlen_zinsert; lia).
      rewrite zlookup_slice by lia. simpl. destruct (decide (j = i)) as [->|].
      * rewrite !zlookup_zinsert_eq by (rewrite ?zlen_slice; lia). done.
      * rewrite !zlookup_zinsert_ne, zlookup_slice by lia. done.
Qed.

Lemma with_infreq_bucket s l f g A :
  infreq (Heap s) !z f = Some A → 1 ≤ f →
  (∀ i id, in_bucket (with_Heap s (with_infreq (Heap s) (zinsert (infreq (Heap s)) f l))) g i id ↔
    1 ≤ g ∧ if decide (g = f) then acontents l !z i = Some id else in_bucket s g i id).
Proof.
  intros HA Hf i id. pose proof (zlookup_range _ _ _ HA). unfold in_bucket. simpl.
  destruct (decide (g = f)) as [->|].
  - rewrite zlookup_zinsert_eq by lia. split; [intros (? & ? & [= <-] & ?); done|]. intros [? ?]. eauto.
  - rewrite zlookup_zinsert_ne by lia. tauto.
Qed.

(** ** Taking a record out of its array *)

(** Overwrite with the last element, then drop the last one. *)
Lemma slice_zinsert_out (c : list Z) i x a b :
  0 ≤ a → 0 ≤ i → (i < a ∨ b ≤ i) → slice (zinsert c i x) a b = slice c a b.
Proof.
  intros Ha Hi Ho. unfold slice, zinsert. destruct Ho.
  - rewrite drop_insert_lt by lia. done.
  - destruct (decide (a ≤ b)); [|by replace (Z.to_nat (b - a)) with O by lia].
    rewrite drop_insert_ge, take_insert_ge by lia. done.
Qed.

Lemma swap_remove (c : list Z) i x y :
  c !z i = Some x → c !z (zlen c - 1) = Some y →
  c ≡ₚ x :: slice (zinsert c i y) 0 (zlen c - 1).
Proof.
  intros Hx Hy. pose proof (zlookup_range _ _ _ Hx). set (m := zlen c - 1) in *.
  assert (c = slice c 0 m ++ [y]) as Hc.
  { rewrite <-(slice_snoc c 0 m y) by (done || lia). replace (m + 1) with (zlen c) by lia. by rewrite slice_full. }
  destruct (decide (i = m)) as [->|].
  - rewrite slice_zinsert_out by lia. rewrite Hc at 1. rewrite Permutation_app_comm. simpl.
    assert (x = y) as -> by congruence. done.
  - assert (slice c 0 m = slice c 0 i ++ x :: slice c (i + 1) m) as Hs.
    { rewrite <-(slice_cons c i m x), slice_app by (done || lia). done. }
    rewrite <-(slice_app (zinsert c i y) 0 i m) by lia.
    rewrite (slice_cons (zinsert c i y) i m y) by (try apply zlookup_zinsert_eq; lia).
    rewrite !slice_zinsert_out by lia. rewrite Hc, Hs at 1. rewrite <-app_assoc. simpl.
    rewrite <-Permutation_middle. constructor. apply Permutation_app_head. symmetry. apply Permutation_cons_append.
Qed.

Definition take_out (junk f hpos : Z) (s : store) : res store :=
  let* A := vget (infreq (Heap s)) f in
  let* s := move f hpos (asize A - 1) s in
  delete_infreq junk f s.

(** What changes when a record leaves or enters an array. *)
Record same_but_buckets (s s' : store) : Prop := {
  sb_sqrtu : sqrtu (Heap s') = sqrtu (Heap s);
  sb_infreq : zlen (infreq (Heap s')) = zlen (infreq (Heap s));
  sb_recs : hpos_only (recs s) (recs s');
  sb_hash : Hash s' = Hash s;
  sb_L : L s' = L s
}.

(** The store when [y], the last record of array [f], has moved to [hpos] and the array
    is now [A2]. *)
Definition taken (s : store) (f hpos y : Z) (ry : Trecord) (A2 : Tarray) : store :=
  with_Heap (with_recs s (zinsert (recs s) y (set_hpos hpos ry))) (with_infreq (Heap s) (zinsert (infreq (Heap s)) f A2)).

(** The contents without the element at [hpos], where the last one takes its place. *)
Definition without (c : list Z) (hpos y : Z) : list Z := slice (zinsert c hpos y) 0 (zlen c - 1).

Lemma without_lookup c hpos y i id :
  0 ≤ hpos < zlen c → without c hpos y !z i = Some id → 0 ≤ i < zlen c - 1 ∧ (if decide (i = hpos) then id = y else c !z i = Some id).
Proof.
  intros Hh Hi. pose proof (zlookup_range _ _ _ Hi) as Hir. unfold without in Hi, Hir. rewrite zlen_slice in Hir by (rewrite ?zlen_zinsert; lia). split; [lia|].
  rewrite zlookup_slice in Hi by lia. simpl in Hi. destruct (decide (i = hpos)) as [->|].
  - rewrite zlookup_zinsert_eq in Hi by lia. by simplify_eq.
  - rewrite zlookup_zinsert_ne in Hi by lia. done.
Qed.

Lemma take_out_run junk f hpos s A y ry :
  arr_ok A → 1 ≤ f → infreq (Heap s) !z f = Some A → 0 ≤ hpos < zlen (acontents A) → acontents A !z (zlen (acontents A) - 1) = Some y → recs s !z y = Some ry →
  ∃ A2, take_out junk f hpos s = Ok (taken s f hpos y ry A2) ∧ arr_ok A2 ∧ acontents A2 = without (acontents A) hpos y.
Proof.
  intros HokA Hf HA Hh Hy Hry. set (c := acontents A) in *. assert (zlen c = asize A) as Hm. { unfold c, acontents. destruct HokA. rewrite zlen_slice; lia. }
  unfold take_out. rewrite (vget_ok _ _ _ HA). cbn [rbind]. rewrite <-Hm. unfold move. rewrite (vget_ok _ _ _ HA). cbn [rbind].
  assert (pairs A !z (zlen c - 1) = Some y) as Hpy by (rewrite <-(acontents_lookup A) by (done || lia); done).
  rewrite (vget_ok _ _ _ Hpy). cbn [rbind]. rewrite vset_ok by (destruct HokA; lia). cbn [rbind].
  pose proof (zlookup_range _ _ _ HA) as HfA. rewrite vset_ok by lia. cbn [rbind].
  destruct (acontents_set A hpos y HokA ltac:(lia)) as [HokA1 HcA1].
  set (A1 := TArray (zinsert (pairs A) hpos y) (amaxsize A) (asize A) (aminsize A)) in *. fold c in HcA1.
  unfold upd_rec. change (recs (with_Heap s _)) with (recs s). rewrite (upd_ok _ _ _ _ Hry). cbn [rbind].
  unfold delete_infreq. cbn [Heap with_recs with_Rec with_Heap infreq with_infreq].
  set (inf1 := zinsert (infreq (Heap s)) f A1). assert (inf1 !z f = Some A1) as HA1 by (apply zlookup_zinsert_eq; lia).
  rewrite (upd_ok _ _ _ _ HA1). cbn [rbind]. destruct (zlookup_total (zinsert c hpos y) (zlen c - 1)) as [z Hz]; [rewrite zlen_zinsert; lia|].
  assert (acontents A1 = without c hpos y ++ [z]) as Hc1.
  { rewrite HcA1. unfold without. rewrite <-(slice_snoc _ 0 (zlen c - 1) z) by (done || lia).
    replace (zlen c - 1 + 1) with (zlen (zinsert c hpos y)) by (rewrite zlen_zinsert; lia). by rewrite slice_full. }
  destruct (deleteArray_ok junk A1 z _ HokA1 Hc1) as (HokA2 & HcA2 & _). exists (deleteArray junk A1). unfold inf1. by rewrite zinsert_zinsert.
Qed.

Section taken.
Context (x f hpos y : Z) (s : store) (A A2 : Tarray) (ry : Trecord).
Local Abbreviation c := (acontents A).
Local Abbreviation s' := (taken s f hpos y ry A2).
Context (Hs : buckets_but x s) (Hf : 1 ≤ f) (HA : infreq (Heap s) !z f = Some A) (Hx : c !z hpos = Some x) (Hy : c !z (zlen c - 1) = Some y).
Context (Hux : ∀ g i, in_bucket s g i x → g = f ∧ i = hpos) (Hry : recs s !z y = Some ry) (Hryf : y ≠ x → rfreq ry = f ∧ rhpos ry = zlen c - 1).
Context (HokA2 : arr_ok A2) (HcA2 : acontents A2 = without c hpos y).

Lemma taken_bucket g i id : in_bucket s' g i id ↔ 1 ≤ g ∧ if decide (g = f) then without c hpos y !z i = Some id else in_bucket s g i id.
Proof using HA Hf HcA2. rewrite <-HcA2. apply (with_infreq_bucket s A2 f g A HA Hf i id). Qed.

Lemma taken_none g i : ¬ in_bucket s' g i x.
Proof using HA Hf HcA2 Hx Hy Hux.
  assert (y = x → hpos = zlen c - 1) as Hyx. { intros E. destruct (Hux f (zlen c - 1)); [split; [done|exists A; by rewrite <-E]|done]. }
  intros [Hg Hi]%taken_bucket. destruct (decide (g = f)) as [->|]; [|by destruct (Hux g i Hi)].
  apply without_lookup in Hi as [Hir Hi]; [|by eapply zlookup_range]. destruct (decide (i = hpos)) as [->|]; [specialize (Hyx (eq_sym Hi)); lia|].
  destruct (Hux f i); [split; [done|by exists A]|]. lia.
Qed.

Lemma taken_ok : buckets_but x s'.
Proof using All.
  pose proof Hs as [Harr Hrec]. pose proof (zlookup_range _ _ _ HA). split.
  - intros g B Hg HB. change (infreq (Heap s')) with (zinsert (infreq (Heap s)) f A2) in HB. destruct (decide (g = f)) as [->|].
    + rewrite zlookup_zinsert_eq in HB by lia. by simplify_eq.
    + rewrite zlookup_zinsert_ne in HB by lia. by apply (Harr g).
  - intros g i id Hid Hne. change (recs s') with (zinsert (recs s) y (set_hpos hpos ry)).
    assert (∀ r0, recs s !z id = Some r0 → id ≠ y → zinsert (recs s) y (set_hpos hpos ry) !z id = Some r0) as Hkeep.
    { intros r0 Hr0 Hny. rewrite zlookup_zinsert_ne; [done|congruence|]. apply zlookup_range in Hry. lia. }
    apply taken_bucket in Hid as [Hg Hid]. destruct (decide (g = f)) as [->|].
    + apply without_lookup in Hid as [Hir Hid]; [|by eapply zlookup_range]. destruct (decide (i = hpos)) as [->|].
      * subst id. exists (set_hpos hpos ry). rewrite zlookup_zinsert_eq by (by eapply zlookup_range). destruct (Hryf Hne). done.
      * destruct (Hrec f i id) as (r0 & Hr0 & Hf0 & Hh0); [split; [done|by exists A]|done|]. exists r0. split; [|done]. apply Hkeep; [done|].
        intros ->. destruct (Hryf Hne) as [_ Hhp]. assert (r0 = ry) as -> by congruence. lia.
    + destruct (Hrec g i id Hid Hne) as (r0 & Hr0 & Hf0 & Hh0). exists r0. split; [|done]. apply Hkeep; [done|].
      intros ->. destruct (Hryf Hne) as [Hfy _]. assert (r0 = ry) as -> by congruence. congruence.
Qed.
End taken.

Lemma take_out_ok junk x f hpos s A r :
  buckets_but x s → 1 ≤ f → infreq (Heap s) !z f = Some A → acontents A !z hpos = Some x →
  (∀ g i, in_bucket s g i x → g = f ∧ i = hpos) → recs s !z x = Some r →
  wp (take_out junk f hpos s) (λ s', buckets_but x s' ∧ (∀ g i, ¬ in_bucket s' g i x) ∧
    same_but_buckets s s' ∧ bucket s f ≡ₚ x :: bucket s' f ∧ (∀ g, g ≠ f → bucket s' g = bucket s g) ∧
    ∃ i y ry inf, in_bucket s f i y ∧ recs s !z y = Some ry ∧
      s' = with_Heap (with_recs s (zinsert (recs s) y (set_hpos hpos ry))) (with_infreq (Heap s) inf)).
Proof.
  intros Hs Hf HA Hx Hux Hr. pose proof Hs as [Harr Hrec]. pose proof (Harr f A Hf HA) as HokA. pose proof (zlookup_range _ _ _ Hx) as Hh. set (c := acontents A) in *.
  destruct (zlookup_total c (zlen c - 1)) as [y Hy]; [lia|].
  assert (∃ ry, recs s !z y = Some ry ∧ (y ≠ x → rfreq ry = f ∧ rhpos ry = zlen c - 1)) as (ry & Hry & Hryf).
  { destruct (decide (y = x)) as [->|]; [by exists r|]. destruct (Hrec f (zlen c - 1) y) as (ry & ? & ? & ?); [split; [done|by exists A]|done|]. by exists ry. }
  destruct (take_out_run junk f hpos s A y ry HokA Hf HA Hh Hy Hry) as (A2 & -> & HokA2 & HcA2). cbn [wp]. pose proof (zlookup_range _ _ _ HA) as HfA.
  assert (infreq (Heap (taken s f hpos y ry A2)) = zinsert (infreq (Heap s)) f A2) as Hinf by done. split_and!.
  - by apply (taken_ok x f hpos y s A A2 ry).
  - by apply (taken_none x f hpos y s A A2 ry).
  - split; try done; [by rewrite Hinf, zlen_zinsert|]. change (recs (taken s f hpos y ry A2)) with (zinsert (recs s) y (set_hpos hpos ry)). by apply hpos_only_set.
  - unfold bucket. rewrite Hinf, HA, zlookup_zinsert_eq, HcA2 by lia. by apply swap_remove.
  - intros g Hg. unfold bucket. by rewrite Hinf, zlookup_zinsert_ne by lia.
  - exists (zlen c - 1), y, ry, (zinsert (infreq (Heap s)) f A2). split_and!; [split; [done|by exists A]|done|done].
Qed.

(** ** Putting a record into an array *)

Lemma in_bucket_lookup s f i id : in_bucket s f i id ↔ 1 ≤ f ∧ bucket s f !z i = Some id.
Proof.
  unfold in_bucket, bucket. destruct (infreq (Heap s) !z f) as [A|].
  - split; [intros (? & ? & [= <-] & ?); done|]. intros [? ?]. eauto.
  - split; [by intros (? & ? & ? & ?)|]. intros [_ Hi]. apply zlookup_range in Hi.
    change (zlen []) with 0 in Hi. lia.
Qed.

(** An array never holds a record twice, so it is no longer than the records. *)
Lemma bucket_size x s f A :
  buckets_but x s → (∀ g i, ¬ in_bucket s g i x) → 1 ≤ f → infreq (Heap s) !z f = Some A →
  asize A ≤ zlen (recs s).
Proof.
  intros [Harr Hrec] Hx Hf HA. pose proof (Harr f A Hf HA) as Hok.
  assert (zlen (acontents A) = asize A) as <-. { unfold acontents. destruct Hok. rewrite zlen_slice; lia. }
  assert (∀ i id, acontents A !z i = Some id → ∃ r, recs s !z id = Some r ∧ rhpos r = i) as Hc.
  { intros i id Hid. assert (in_bucket s f i id) as Hb by (split; [done|by exists A]).
    destruct (Hrec f i id Hb) as (r & ? & _ & ?); [intros ->; by eapply Hx|]. by exists r. }
  pose proof (zlen_nonneg (recs s)). rewrite <-(Z.max_l (zlen (recs s)) 0) by lia. apply NoDup_range.
  - apply NoDup_alt. intros i j id Hi Hj. rewrite <-!zlookup_of_nat in Hi, Hj.
    destruct (Hc _ _ Hi) as (r & Hr & Hri), (Hc _ _ Hj) as (r' & Hr' & Hrj).
    assert (r = r') as -> by congruence. lia.
  - intros id [i Hi]%elem_zlookup. destruct (Hc _ _ Hi) as (r & Hr & _). by eapply zlookup_range.
Qed.

Lemma put_in_ok junk x f s A r :
  buckets_but x s → (∀ g i, ¬ in_bucket s g i x) → 1 ≤ f → infreq (Heap s) !z f = Some A →
  zlen (recs s) < 2 ^ 30 → recs s !z x = Some r → rfreq r = f →
  wp (insert_infreq junk f x s) (λ s', buckets_ok s' ∧ same_but_buckets s s' ∧
    bucket s' f = bucket s f ++ [x] ∧ (∀ g, g ≠ f → bucket s' g = bucket s g) ∧
    ∃ inf, s' = with_Heap (with_recs s (zinsert (recs s) x (set_hpos (zlen (bucket s f)) r))) (with_infreq (Heap s) inf)).
Proof.
  intros Hbut Hnox Hf HA Hn Hr Hrf. pose proof (bucket_size x s f A Hbut Hnox Hf HA) as Hsz.
  destruct Hbut as [Harr Hrec]. pose proof (Harr f A Hf HA) as Hok. unfold insert_infreq.
  rewrite (vget_ok _ _ _ HA). cbn [rbind]. apply wp_bind.
  eapply wp_mono; [apply insertArray_ok; [done|lia]|]. intros [A' pos] (HokA' & -> & Hc & Hsz' & _).
  pose proof (zlookup_range _ _ _ HA) as Hfr. rewrite vset_ok by done. cbn [rbind].
  unfold upd_rec. change (recs (with_Heap s _)) with (recs s). rewrite (upd_ok _ _ _ _ Hr). cbn [rbind wp].
  set (recs1 := zinsert (recs s) x _). set (s' := with_recs _ _).
  assert (zlen (acontents A) = asize A) as Hlen. { unfold acontents. destruct Hok. rewrite zlen_slice; lia. }
  assert (∀ g, bucket s' g = if decide (g = f) then bucket s f ++ [x] else bucket s g) as Hb.
  { intros g. unfold bucket. change (infreq (Heap s')) with (zinsert (infreq (Heap s)) f A').
    destruct (decide (g = f)) as [->|]; [rewrite zlookup_zinsert_eq, HA by lia; done|].
    by rewrite zlookup_zinsert_ne by lia. }
  split_and!.
  - split.
    + intros g B Hg HB. change (infreq (Heap s')) with (zinsert (infreq (Heap s)) f A') in HB.
      destruct (decide (g = f)) as [->|].
      * rewrite zlookup_zinsert_eq in HB by lia. by simplify_eq.
      * rewrite zlookup_zinsert_ne in HB by lia. by apply (Harr g).
    + intros g i id [Hg Hid]%in_bucket_lookup. change (recs s') with recs1.
      destruct (decide (id = x)) as [->|Hne].
      * exists (set_hpos (asize A) r). split; [apply zlookup_zinsert_eq; by eapply zlookup_range|].
        rewrite Hb in Hid. destruct (decide (g = f)) as [->|].
        -- split; [done|]. destruct (decide (i < zlen (bucket s f))).
           { rewrite zlookup_app_l in Hid by done. destruct (Hnox f i). by apply in_bucket_lookup. }
           rewrite zlookup_app_r in Hid by lia. apply zlookup_range in Hid. change (zlen [x]) with 1 in Hid.
           unfold bucket in Hid. rewrite HA in Hid. simpl. lia.
        -- destruct (Hnox g i). by apply in_bucket_lookup.
      * unfold recs1. rewrite zlookup_zinsert_ne; [|congruence|apply zlookup_range in Hr; lia].
        apply (Hrec g i id); [|done]. apply in_bucket_lookup. split; [done|]. rewrite Hb in Hid.
        destruct (decide (g = f)) as [->|]; [|done].
        destruct (decide (i < zlen (bucket s f))); [by rewrite zlookup_app_l in Hid by done|].
        rewrite zlookup_app_r in Hid by lia. apply zlookup_elem, list_elem_of_singleton in Hid. done.
  - split; try done.
    + change (infreq (Heap s')) with (zinsert (infreq (Heap s)) f A'). by rewrite zlen_zinsert.
    + change (recs s') with recs1. by apply hpos_only_set.
  - rewrite Hb. by destruct (decide (f = f)).
  - intros g Hg. rewrite Hb. by destruct (decide (g = f)).
  - exists (zinsert (infreq (Heap s)) f A'). unfold bucket. by rewrite HA, Hlen.
Qed.

(** ** Positions in the heap *)

Lemma no_hpos_eq r r' : no_hpos r = no_hpos r' → r' = set_hpos (rhpos r') r.
Proof. destruct r, r'. unfold no_hpos, set_hpos. simpl. intros [= -> -> -> -> ->]. done. Qed.

Lemma hpos_only_Some l l' i r :
  hpos_only l l' → l !z i = Some r → ∃ p, l' !z i = Some (set_hpos p r).
Proof.
  intros Heq Hr. destruct (hpos_only_lookup l l' i r Heq Hr) as (r' & Hr' & _ & Hno).
  exists (rhpos r'). by rewrite <-(no_hpos_eq r r').
Qed.

Lemma zlen_hpos_only l l' : hpos_only l l' → zlen l' = zlen l.
Proof. intros Heq%(f_equal zlen). rewrite !zlen_fmap in Heq. done. Qed.

(** The invariant without [id] does not depend on the frequency of [id]. *)
Lemma buckets_but_freq s id g r :
  buckets_ok s → recs s !z id = Some r → buckets_but id (with_recs s (zinsert (recs s) id (g r))).
Proof.
  intros [Harr Hrec] Hr. split; [exact Harr|]. intros f i j Hj Hne.
  destruct (Hrec f i j Hj) as (r' & Hr' & ?). exists r'. split; [|done].
  change (recs (with_recs s _)) with (zinsert (recs s) id (g r)).
  rewrite zlookup_zinsert_ne; [done|congruence|]. apply zlookup_range in Hr. lia.
Qed.

(** ** Extraction *)

(** Taking the last record of an array that is not empty. *)
Lemma extract_from junk s A f H :
  buckets_ok s → 1 ≤ f → infreq (Heap s) !z f = Some A → asize A ≠ 0 → infreq H = infreq (Heap s) →
  ∃ id s', vget (pairs A) (asize A - 1) = Ok id ∧ delete_infreq junk f (with_Heap s H) = Ok s' ∧
    bucket s f = bucket s' f ++ [id] ∧ (∀ g, g ≠ f → bucket s' g = bucket s g) ∧
    recs s' = recs s ∧ buckets_ok s'.
Proof.
  intros [Harr Hrec] Hf HA Hnz HH. pose proof (Harr f A Hf HA) as Hok. pose proof (ao_size _ Hok).
  pose proof (ao_buf _ Hok). destruct (zlookup_total (pairs A) (asize A - 1)) as [id Hid]; [lia|].
  assert (acontents A = slice (pairs A) 0 (asize A - 1) ++ [id]) as Hc.
  { unfold acontents. rewrite <-(slice_snoc _ 0 (asize A - 1)) by (done || lia). by rewrite Z.sub_add. }
  destruct (deleteArray_ok junk A id _ Hok Hc) as (HokA' & HcA' & _).
  assert (infreq H !z f = Some A) as HA' by (by rewrite HH). pose proof (zlookup_range _ _ _ HA) as Hfr.
  eexists id, _. split; [by apply vget_ok|]. unfold delete_infreq. cbn [Heap with_Heap].
  rewrite (upd_ok _ _ _ _ HA'). cbn [rbind]. split; [done|]. set (s' := with_Heap _ _).
  assert (∀ g, bucket s' g = if decide (g = f) then acontents (deleteArray junk A) else bucket s g) as Hb.
  { intros g. unfold bucket. change (infreq (Heap s')) with (zinsert (infreq H) f (deleteArray junk A)). rewrite HH.
    destruct (decide (g = f)) as [->|]; [by rewrite zlookup_zinsert_eq by lia|by rewrite zlookup_zinsert_ne by lia]. }
  split_and!.
  - rewrite Hb. destruct (decide (f = f)); [|done]. unfold bucket. by rewrite HA, HcA'.
  - intros g Hg. rewrite Hb. by destruct (decide (g = f)).
  - done.
  - split.
    + intros g B Hg HB. change (infreq (Heap s')) with (zinsert (infreq H) f (deleteArray junk A)) in HB. rewrite HH in HB.
      destruct (decide (g = f)) as [->|].
      * rewrite zlookup_zinsert_eq in HB by lia. by simplify_eq.
      * rewrite zlookup_zinsert_ne in HB by lia. by apply (Harr g).
    + intros g i j [Hg Hj]%in_bucket_lookup. apply (Hrec g i j), in_bucket_lookup. split; [done|].
      rewrite Hb in Hj. destruct (decide (g = f)) as [->|]; [|done]. unfold bucket. rewrite HA, Hc.
      rewrite HcA' in Hj. rewrite zlookup_app_l; [done|]. apply zlookup_range in Hj. lia.
Qed.
