(* ===== verification/Dll.v ===== *)
(** * Doubly linked lists

    The heap and the occurrence lists of Re-Pair link array cells through fields
    that hold indices.  [dll P N p l t]: the cells [l] are linked in this order,
    [P] and [N] give the previous and the next cell of a cell, [p] is the previous
    field of the first cell and [t] the next field of the last one. *)

From S2P Require Import Prelude.

Definition first_or (t : Z) (l : list Z) : Z := default t (head l).
Definition last_or (p : Z) (l : list Z) : Z := default p (last l).

Fixpoint dll (P N : Z → option Z) (p : Z) (l : list Z) (t : Z) : Prop :=
  match l with
  | [] => True
  | x :: l' => P x = Some p ∧ N x = Some (first_or t l') ∧ dll P N x l' t
  end.

Lemma last_or_snoc p l x : last_or p (l ++ [x]) = x.
Proof. unfold last_or. by rewrite last_snoc. Qed.

Lemma last_or_cons p x l : last_or p (x :: l) = last_or x l.
Proof. unfold last_or. destruct l as [|y l]; [done|]. rewrite last_cons_cons. destruct (last (y :: l)) eqn:E; [done|]. by apply last_None in E. Qed.

Lemma last_or_mid p l x k : last_or p (l ++ x :: k) = last_or x k.
Proof. revert p. induction l as [|y l IH]; intros p; [apply last_or_cons|]. simpl. by rewrite last_or_cons, IH. Qed.

Lemma first_or_app t l k : first_or t (l ++ k) = first_or (first_or t k) l.
Proof. by destruct l. Qed.

Lemma dll_app P N p l k t : dll P N p (l ++ k) t ↔ dll P N p l (first_or t k) ∧ dll P N (last_or p l) k t.
Proof.
  revert p. induction l as [|x l IH]; intros p; [simpl; tauto|]. rewrite <-app_comm_cons. cbn [dll].
  rewrite IH, first_or_app, last_or_cons. tauto.
Qed.

(** The fields of a cell in the middle. *)
Lemma dll_at P N p l x k t :
  dll P N p (l ++ x :: k) t → P x = Some (last_or p l) ∧ N x = Some (first_or t k).
Proof. rewrite dll_app. cbn [dll]. tauto. Qed.

(** New ends: only the previous field of the first cell and the next field of
    the last one change. *)
Lemma dll_relink P N P' N' p l t p' t' :
  dll P N p l t → NoDup l →
  (∀ y, y ∈ l → P' y = if decide (head l = Some y) then Some p' else P y) →
  (∀ y, y ∈ l → N' y = if decide (last l = Some y) then Some t' else N y) →
  dll P' N' p' l t'.
Proof.
  revert p p'. induction l as [|x l IH]; intros p p' Hd Hnd HP HN; [done|]. destruct Hd as (Hp & Hn & Hd).
  apply NoDup_cons in Hnd as [Hx Hnd]. cbn [dll]. split_and!.
  - rewrite HP by (by left). by rewrite decide_True.
  - rewrite HN by (by left). destruct l as [|y l]; [by rewrite decide_True|]. rewrite last_cons_cons, decide_False; [done|].
    intros Hl. apply Hx. rewrite list_elem_of_lookup. rewrite last_lookup in Hl. by eexists.
  - eapply (IH x x); [done|done| |].
    + intros y Hy. rewrite HP by (by right). rewrite decide_False by (intros [= ->]; done).
      destruct l as [|z l]; [by apply not_elem_of_nil in Hy|]. simpl. case_decide as E; [|done]. injection E as ->. by destruct Hd.
    + intros y Hy. rewrite HN by (by right). destruct l as [|z l]; [by apply not_elem_of_nil in Hy|]. by rewrite last_cons_cons.
Qed.

Lemma dll_frame P N P' N' p l t :
  dll P N p l t → (∀ y, y ∈ l → P' y = P y ∧ N' y = N y) → dll P' N' p l t.
Proof.
  revert p. induction l as [|x l IH]; intros p; [done|]. intros (Hp & Hn & Hd) Hs.
  destruct (Hs x) as [HPx HNx]; [by left|]. cbn [dll]. rewrite HPx, HNx. split_and!; [done..|].
  apply IH; [done|]. intros y Hy. apply Hs. by right.
Qed.

Lemma head_last_mid (l k : list Z) x : NoDup (l ++ x :: k) → (x ∉ l) ∧ (x ∉ k) ∧ NoDup l ∧ NoDup k ∧ ∀ y, y ∈ l → y ∉ k.
Proof.
  intros (Hl & Hd & [Hx Hk]%NoDup_cons)%NoDup_app. split_and!; try done.
  - intros Hxl. apply (Hd x Hxl). by left.
  - intros y Hy Hyk. apply (Hd y Hy). by right.
Qed.

(** Take the cell [x] out. *)
Lemma dll_remove P N P' N' p l x k t :
  dll P N p (l ++ x :: k) t → NoDup (l ++ x :: k) →
  (∀ y, y ∈ l ++ k → P' y = if decide (head k = Some y) then Some (last_or p l) else P y) →
  (∀ y, y ∈ l ++ k → N' y = if decide (last l = Some y) then Some (first_or t k) else N y) →
  dll P' N' p (l ++ k) t.
Proof.
  intros [Hl (Hx & Hnx & Hk)]%dll_app Hnd HP HN. destruct (head_last_mid _ _ _ Hnd) as (Hxl & Hxk & Hndl & Hndk & Hdis).
  apply dll_app. split.
  - apply (dll_relink P N P' N' p l _ p (first_or t k) Hl Hndl).
    + intros y Hy. rewrite HP by (apply elem_of_app; by left). rewrite (decide_False (P := head k = Some y)).
      2: { intros Hh. apply (Hdis y Hy). destruct k; [done|]. injection Hh as ->. by left. }
      destruct l as [|z l]; [by apply not_elem_of_nil in Hy|]. simpl. case_decide as E; [|done]. injection E as ->. by destruct Hl.
    + intros y Hy. by apply HN, elem_of_app; left.
  - apply (dll_relink P N P' N' x k t (last_or p l) t Hk Hndk).
    + intros y Hy. by apply HP, elem_of_app; right.
    + intros y Hy. rewrite HN by (apply elem_of_app; by right). rewrite (decide_False (P := last l = Some y)).
      2: { intros Hh. apply (Hdis y); [|done]. rewrite last_lookup in Hh. by eapply list_elem_of_lookup_2. }
      case_decide as E; [|done]. apply last_Some in E as [k' ->]. rewrite dll_app in Hk. destruct Hk as [_ (_ & Hny & _)]. done.
Qed.

(** Put the cell [x] in front. *)
Lemma dll_push P N P' N' p l x t q :
  dll P N q l t → NoDup (x :: l) → P' x = Some p → N' x = Some (first_or t l) →
  (∀ y, y ∈ l → P' y = if decide (head l = Some y) then Some x else P y) →
  (∀ y, y ∈ l → N' y = N y) →
  dll P' N' p (x :: l) t.
Proof.
  intros Hl [Hx Hnd]%NoDup_cons HPx HNx HP HN. cbn [dll]. split_and!; [done..|].
  apply (dll_relink P N P' N' q l t x t Hl Hnd HP). intros y Hy. rewrite HN by done. case_decide as E; [|done].
  apply last_Some in E as [l' ->]. rewrite dll_app in Hl. by destruct Hl as [_ (_ & ? & _)].
Qed.

(** Put the cell [x] between two parts. *)
Lemma dll_insert P N P' N' p l x k t :
  dll P N p (l ++ k) t → NoDup (l ++ x :: k) → P' x = Some (last_or p l) → N' x = Some (first_or t k) →
  (∀ y, y ∈ l ++ k → P' y = if decide (head k = Some y) then Some x else P y) →
  (∀ y, y ∈ l ++ k → N' y = if decide (last l = Some y) then Some x else N y) →
  dll P' N' p (l ++ x :: k) t.
Proof.
  intros [Hl Hk]%dll_app Hnd HPx HNx HP HN. destruct (head_last_mid _ _ _ Hnd) as (Hxl & Hxk & Hndl & Hndk & Hdis).
  apply dll_app. split.
  - apply (dll_relink P N P' N' p l _ p _ Hl Hndl).
    + intros y Hy. rewrite HP by (apply elem_of_app; by left). rewrite (decide_False (P := head k = Some y)).
      2: { intros Hh. apply (Hdis y Hy). destruct k; [done|]. injection Hh as ->. by left. }
      destruct l as [|z l]; [by apply not_elem_of_nil in Hy|]. simpl. case_decide as E; [|done]. injection E as ->. by destruct Hl.
    + intros y Hy. by apply HN, elem_of_app; left.
  - eapply (dll_push P N); [exact Hk|by apply NoDup_cons|done|done| |].
    + intros y Hy. by apply HP, elem_of_app; right.
    + intros y Hy. rewrite HN by (apply elem_of_app; by right). rewrite decide_False; [done|].
      intros Hh. apply (Hdis y); [|done]. rewrite last_lookup in Hh. by eapply list_elem_of_lookup_2.
Qed.
