(* ===== verification/RFreq.v ===== *)
(** * The frequent part of the heap

    [compress/heap.cc]: the pairs of frequency [sqrtu] and more.  A frequency node
    ([Thfreq]) heads the doubly linked list of the heap nodes ([Thnode]) of that
    frequency; the frequency nodes are themselves linked by increasing frequency,
    from [smallest] to [largest].  Unused nodes of both kinds are chained from
    [freef] and [freeff]. *)

From S2P Require Import Prelude Csr RArray RHash RHeap Dll.

(** ** Representation *)

Record group := Group { gfp : Z; gfreq : Z; gnodes : list Z }.

Definition node_prev (H : Theap) (x : Z) : option Z := nprev <$> hfreq H !z x.
Definition node_next (H : Theap) (x : Z) : option Z := nnext <$> hfreq H !z x.
Definition node_fnode (H : Theap) (x : Z) : option Z := nfnode <$> hfreq H !z x.
Definition node_id (H : Theap) (x : Z) : option Z := nid <$> hfreq H !z x.
Definition ff_freq (H : Theap) (x : Z) : option Z := ffreq <$> hff H !z x.
Definition ff_elems (H : Theap) (x : Z) : option Z := felems <$> hff H !z x.
Definition ff_larger (H : Theap) (x : Z) : option Z := flarger <$> hff H !z x.
Definition ff_smaller (H : Theap) (x : Z) : option Z := fsmaller <$> hff H !z x.

(** A chain of unused cells. *)
Fixpoint chain (N : Z → option Z) (l : list Z) : Prop :=
  match l with
  | [] => True
  | x :: l' => N x = Some (first_or (-1) l') ∧ chain N l'
  end.

Record group_ok (H : Theap) (g : group) : Prop := {
  go_freq : ff_freq H (gfp g) = Some (gfreq g);
  go_elems : ff_elems H (gfp g) = Some (first_or (-1) (gnodes g));
  go_nodes : dll (node_prev H) (node_next H) (-1) (gnodes g) (-1);
  go_fnode : ∀ x, x ∈ gnodes g → node_fnode H x = Some (gfp g);
  go_large : sqrtu H ≤ gfreq g
}.

Definition all_nodes (G : list group) : list Z := G ≫= gnodes.

(** [fl]: nodes that are in no list; [fn], [ffn]: the unused nodes. *)
Record freq_core (H : Theap) (G : list group) (fl fn ffn : list Z) : Prop := {
  fc_nodes : all_nodes G ++ fl ++ fn ≡ₚ seqZ 0 (sqrtu H);
  fc_ffs : (gfp <$> G) ++ ffn ≡ₚ seqZ 0 (sqrtu H);
  fc_hfreq : zlen (hfreq H) = sqrtu H;
  fc_hff : zlen (hff H) = sqrtu H;
  fc_groups : ∀ g, g ∈ G → group_ok H g;
  fc_chain : dll (ff_smaller H) (ff_larger H) (-1) (gfp <$> G) (-1);
  fc_smallest : smallest H = first_or (-1) (gfp <$> G);
  fc_largest : largest H = last_or (-1) (gfp <$> G);
  fc_sorted : StronglySorted Z.lt (gfreq <$> G);
  fc_freef : freef H = first_or (-1) fn;
  fc_freeff : freeff H = first_or (-1) ffn;
  fc_fn : chain (node_next H) fn;
  fc_ffn : chain (ff_larger H) ffn
}.

(** Node [x] is in the list of frequency [f]. *)
Definition in_group (G : list group) (x f : Z) : Prop := ∃ g, g ∈ G ∧ x ∈ gnodes g ∧ gfreq g = f.

(** ** Cells *)

Lemma wp_upd_node i f H x (Q : Theap → Prop) :
  hfreq H !z i = Some x → Q (with_nodes H (zinsert (hfreq H) i (f x)) (freef H)) → wp (upd_node i f H) Q.
Proof.
  intros Hx HQ. unfold upd_node. by rewrite (upd_ok _ _ _ _ Hx).
Qed.

Lemma wp_upd_ff i f H x (Q : Theap → Prop) :
  hff H !z i = Some x → Q (with_ff H (zinsert (hff H) i (f x)) (freeff H) (smallest H) (largest H)) → wp (upd_ff i f H) Q.
Proof.
  intros Hx HQ. unfold upd_ff. by rewrite (upd_ok _ _ _ _ Hx).
Qed.

(** What the operations on the frequent part leave alone. *)
Record same_rest (H H' : Theap) : Prop := {
  sr_sqrtu : sqrtu H' = sqrtu H;
  sr_infreq : infreq H' = infreq H;
  sr_hmax : hmax H' = hmax H;
  sr_hfreq : zlen (hfreq H') = zlen (hfreq H);
  sr_hff : zlen (hff H') = zlen (hff H);
  sr_id : ∀ x, node_id H' x = node_id H x
}.

#[export] Instance same_rest_preorder : PreOrder same_rest.
Proof.
  split; [by split|]. intros H1 H2 H3 [] []. split; congruence.
Qed.

Lemma node_total H x : 0 ≤ x < zlen (hfreq H) → ∃ n, hfreq H !z x = Some n.
Proof. apply zlookup_total. Qed.

Ltac view_simpl :=
  unfold node_prev, node_next, node_fnode, node_id, ff_freq, ff_elems, ff_larger, ff_smaller,
    set_freef, set_freeff, set_smallest, set_largest;
  cbn [hfreq hff freef freeff smallest largest sqrtu infreq hmax with_nodes with_ff].

(** *** Unlinking *)

Record unlinked (H : Theap) (fp : Z) (l : list Z) (x : Z) (k : list Z) (H' : Theap) : Prop := {
  un_prev : ∀ y, y ≠ x → node_prev H' y = if decide (head k = Some y) then Some (last_or (-1) l) else node_prev H y;
  un_next : ∀ y, y ≠ x → node_next H' y = if decide (last l = Some y) then Some (first_or (-1) k) else node_next H y;
  un_fnode : ∀ y, node_fnode H' y = node_fnode H y;
  un_elems : ∀ y, ff_elems H' y = if decide (y = fp) then Some (first_or (-1) (l ++ k)) else ff_elems H y;
  un_freq : ∀ y, ff_freq H' y = ff_freq H y;
  un_larger : ∀ y, ff_larger H' y = ff_larger H y;
  un_smaller : ∀ y, ff_smaller H' y = ff_smaller H y;
  un_scalars : (smallest H', largest H', freef H', freeff H') = (smallest H, largest H, freef H, freeff H);
  un_rest : same_rest H H'
}.

(** The node before [x], or the frequency node, skips [x]. *)
Lemma unlink_before H fp l x k nx ffx :
  hfreq H !z x = Some nx → hff H !z fp = Some ffx → felems ffx = first_or (-1) (l ++ x :: k) → nnext nx = first_or (-1) k →
  x ∉ l → (∀ y, y ∈ l → 0 ≤ y < zlen (hfreq H)) →
  ∃ H1, (if last_or (-1) l =? -1 then upd_ff fp (set_elems (nnext nx)) H
    else upd_node (last_or (-1) l) (set_next (nnext nx)) H) = Ok H1 ∧ hfreq H1 !z x = Some nx ∧
    (∀ y, node_prev H1 y = node_prev H y) ∧
    (∀ y, node_next H1 y = if decide (last l = Some y) then Some (first_or (-1) k) else node_next H y) ∧
    (∀ y, node_fnode H1 y = node_fnode H y) ∧
    (∀ y, ff_elems H1 y = if decide (y = fp) then Some (first_or (-1) (l ++ k)) else ff_elems H y) ∧
    (∀ y, ff_freq H1 y = ff_freq H y) ∧ (∀ y, ff_larger H1 y = ff_larger H y) ∧ (∀ y, ff_smaller H1 y = ff_smaller H y) ∧
    (smallest H1, largest H1, freef H1, freeff H1) = (smallest H, largest H, freef H, freeff H) ∧ same_rest H H1.
Proof.
  intros Hx Hffx Hel HN Hxl Hrange. pose proof (zlookup_range _ _ _ Hffx) as Hfpr. destruct l as [|w l _] using rev_ind.
  - simpl. unfold upd_ff. rewrite (upd_ok _ _ _ _ Hffx). cbn [rbind]. eexists. split; [done|].
    split_and!; try done; view_simpl.
    + intros y. rewrite zlookup_zinsert by done. case_decide; [subst; by rewrite HN|done].
    + intros y. rewrite zlookup_zinsert by done. case_decide; [subst; by rewrite Hffx|done].
    + intros y. rewrite zlookup_zinsert by done. case_decide; [subst; by rewrite Hffx|done].
    + intros y. rewrite zlookup_zinsert by done. case_decide; [subst; by rewrite Hffx|done].
    + split; view_simpl; try done. by rewrite zlen_zinsert.
  - assert (0 ≤ w < zlen (hfreq H)) as Hw by (apply Hrange; list_in). rewrite last_or_snoc.
    destruct (Z.eqb_spec w (-1)); [lia|]. destruct (node_total H w Hw) as [nw Hnw].
    unfold upd_node. rewrite (upd_ok _ _ _ _ Hnw). cbn [rbind]. eexists. split; [done|].
    assert (x ≠ w) as Hxw by (intros ->; apply Hxl; list_in). rewrite last_snoc.
    split_and!; try done; view_simpl.
    + by rewrite zlookup_zinsert, decide_False by done.
    + intros y. rewrite zlookup_zinsert by done. case_decide; [subst; by rewrite Hnw|done].
    + intros y. rewrite zlookup_zinsert by done. case_decide as E; [subst; rewrite decide_True by done; simpl; by rewrite HN|].
      rewrite decide_False by congruence. done.
    + intros y. rewrite zlookup_zinsert by done. case_decide; [subst; by rewrite Hnw|done].
    + intros y. case_decide; [|done]. subst y. rewrite Hffx. simpl. rewrite Hel. by destruct l.
    + split; view_simpl; try done; [by rewrite zlen_zinsert|]. intros y. rewrite zlookup_zinsert by done.
      case_decide; [subst; by rewrite Hnw|done].
Qed.

Lemma unlink_node_spec H fp f l x k :
  group_ok H (Group fp f (l ++ x :: k)) → NoDup (l ++ x :: k) → (∀ y, y ∈ l ++ x :: k → 0 ≤ y < zlen (hfreq H)) →
  wp (unlink_node x fp H) (unlinked H fp l x k).
Proof.
  intros [Hfr Hel Hdll Hfn Hlg] Hnd Hrange. cbn [gfp gfreq gnodes] in *.
  destruct (dll_at _ _ _ _ _ _ _ Hdll) as [HP HN]. unfold node_prev, node_next in HP, HN.
  destruct (hfreq H !z x) as [nx|] eqn:Hx; [|done]. simpl in HP, HN. injection HP as HP. injection HN as HN.
  destruct (head_last_mid _ _ _ Hnd) as (Hxl & Hxk & Hndl & Hndk & Hdis).
  unfold ff_elems in Hel. destruct (hff H !z fp) as [ffx|] eqn:Hffx; [|done]. simpl in Hel. injection Hel as Hel.
  pose proof (zlookup_range _ _ _ Hffx) as Hfpr. pose proof (zlookup_range _ _ _ Hx) as Hxr.
  unfold unlink_node. rewrite (vget_ok _ _ _ Hx). cbn [rbind]. rewrite HP.
  destruct (unlink_before H fp l x k nx ffx Hx Hffx Hel HN Hxl ltac:(intros y Hy; apply Hrange; list_in)) as (H1 & -> & Hx1 & Hp1 & Hn1 & Hf1 & He1 & Hq1 & Hl1 & Hs1 & Hsc1 & Hr1).
  cbn [rbind]. rewrite (vget_ok _ _ _ Hx1). cbn [rbind]. rewrite HN.
  destruct k as [|z k].
  - simpl. split; try done.
  - assert (0 ≤ z < zlen (hfreq H)) as Hz by (apply Hrange; list_in). change (first_or (-1) (z :: k)) with z.
    destruct (Z.eqb_spec z (-1)); [lia|]. destruct (node_total H1 z) as [nz Hnz]; [rewrite (sr_hfreq _ _ Hr1); done|].
    eapply wp_upd_node; [exact Hnz|]. assert (0 ≤ z < zlen (hfreq H1)) as Hz1 by (by eapply zlookup_range). split.
    + intros y Hy. view_simpl. rewrite zlookup_zinsert by done. case_decide as E.
      * subst. rewrite decide_True by done. simpl. by rewrite HP.
      * rewrite decide_False by (simpl; congruence). apply Hp1.
    + intros y Hy. rewrite <-Hn1. view_simpl. rewrite zlookup_zinsert by done. case_decide; [subst; by rewrite Hnz|done].
    + intros y. rewrite <-Hf1. view_simpl. rewrite zlookup_zinsert by done. case_decide; [subst; by rewrite Hnz|done].
    + apply He1.
    + apply Hq1.
    + apply Hl1.
    + apply Hs1.
    + apply Hsc1.
    + etrans; [exact Hr1|]. split; view_simpl; try done; [by rewrite zlen_zinsert|]. intros y. rewrite zlookup_zinsert by done.
      case_decide; [subst; by rewrite Hnz|done].
Qed.

(** *** Keeping the representation *)

Lemma group_frame H H' g :
  group_ok H g → sqrtu H' = sqrtu H →
  (∀ y, y ∈ gnodes g → node_prev H' y = node_prev H y ∧ node_next H' y = node_next H y ∧ node_fnode H' y = node_fnode H y) →
  ff_freq H' (gfp g) = ff_freq H (gfp g) → ff_elems H' (gfp g) = ff_elems H (gfp g) → group_ok H' g.
Proof.
  intros [Hf He Hd Hn Hl] Hs Hnodes Hf' He'. split; [congruence|congruence| | |by rewrite Hs].
  - eapply dll_frame; [exact Hd|]. intros y Hy. by destruct (Hnodes y Hy) as (? & ? & _).
  - intros y Hy. destruct (Hnodes y Hy) as (_ & _ & ->). by apply Hn.
Qed.

Lemma chain_frame N N' l : chain N l → (∀ y, y ∈ l → N' y = N y) → chain N' l.
Proof.
  induction l as [|x l IH]; [done|]. intros [Hx Hl] Hs. split; [by rewrite Hs by (by left)|]. apply IH; [done|]. intros y Hy. apply Hs. by right.
Qed.

Lemma all_nodes_app G1 G2 : all_nodes (G1 ++ G2) = all_nodes G1 ++ all_nodes G2.
Proof. apply bind_app. Qed.

Lemma all_nodes_cons g G : all_nodes (g :: G) = gnodes g ++ all_nodes G.
Proof. done. Qed.

Lemma elem_all_nodes G x : x ∈ all_nodes G ↔ ∃ g, g ∈ G ∧ x ∈ gnodes g.
Proof. unfold all_nodes. rewrite list_elem_of_bind. split; intros (g & ? & ?); by exists g. Qed.

Section core.
Context (H : Theap) (G : list group) (fl fn ffn : list Z) (Hc : freq_core H G fl fn ffn).

Lemma core_nodes_NoDup : NoDup (all_nodes G ++ fl ++ fn).
Proof using Hc. rewrite (fc_nodes _ _ _ _ _ Hc). apply NoDup_seqZ. Qed.

Lemma core_ffs_NoDup : NoDup ((gfp <$> G) ++ ffn).
Proof using Hc. rewrite (fc_ffs _ _ _ _ _ Hc). apply NoDup_seqZ. Qed.

Lemma core_node_range x : x ∈ all_nodes G ++ fl ++ fn → 0 ≤ x < zlen (hfreq H).
Proof using Hc. rewrite (fc_nodes _ _ _ _ _ Hc), (fc_hfreq _ _ _ _ _ Hc), elem_of_seqZ. lia. Qed.

Lemma core_ff_range x : x ∈ (gfp <$> G) ++ ffn → 0 ≤ x < zlen (hff H).
Proof using Hc. rewrite (fc_ffs _ _ _ _ _ Hc), (fc_hff _ _ _ _ _ Hc), elem_of_seqZ. lia. Qed.
End core.

(** Replace one group: what has to be shown of the new state. *)
Lemma core_change H H' G1 g g' G2 fl fl' fn fn' ffn :
  freq_core H (G1 ++ g :: G2) fl fn ffn → same_rest H H' → gfp g' = gfp g → gfreq g' = gfreq g →
  gnodes g ++ fl ++ fn ≡ₚ gnodes g' ++ fl' ++ fn' →
  (∀ y, y ∉ gnodes g → y ∉ fl → y ∉ fn → node_prev H' y = node_prev H y ∧ node_next H' y = node_next H y ∧ node_fnode H' y = node_fnode H y) →
  (∀ y, ff_freq H' y = ff_freq H y) → (∀ y, y ≠ gfp g → ff_elems H' y = ff_elems H y) →
  (∀ y, ff_larger H' y = ff_larger H y) → (∀ y, ff_smaller H' y = ff_smaller H y) →
  smallest H' = smallest H → largest H' = largest H → freeff H' = freeff H →
  group_ok H' g' → freef H' = first_or (-1) fn' → chain (node_next H') fn' →
  freq_core H' (G1 ++ g' :: G2) fl' fn' ffn.
Proof.
  intros Hc Hr Hfp Hfq Hperm Hnodes Hff Hel Hla Hsm Hsml Hlrg Hfree Hg' Hfn' Hchain.
  pose proof (core_nodes_NoDup _ _ _ _ _ Hc) as Hnd. pose proof (core_ffs_NoDup _ _ _ _ _ Hc) as Hndf.
  destruct Hc as [Hn Hf Hlh Hlf Hgs Hch Hs Hl Hso Hfr Hfrr Hcn Hcf].
  assert (∀ (A B C : list Z), A ++ B ++ C ≡ₚ B ++ A ++ C) as Hsw by (intros; by rewrite !app_assoc, (Permutation_app_comm A B)).
  assert (all_nodes (G1 ++ g' :: G2) ++ fl' ++ fn' ≡ₚ all_nodes (G1 ++ g :: G2) ++ fl ++ fn) as Hall.
  { rewrite !all_nodes_app, !all_nodes_cons, <-!app_assoc. apply Permutation_app_head.
    rewrite (Hsw (gnodes g') _ _), (Hsw (gnodes g) _ _). apply Permutation_app_head. by rewrite Hperm. }
  assert (gfp <$> G1 ++ g' :: G2 = gfp <$> G1 ++ g :: G2) as Hgfp by (rewrite !fmap_app; simpl; by rewrite Hfp).
  destruct Hr as [Hrs Hri Hrm Hrh Hrf _].
  split; rewrite ?Hgfp, ?Hrs, ?Hrh, ?Hrf; try done.
  - by rewrite Hall.
  - intros g0 Hg0. apply elem_of_app in Hg0 as [Hg0|[->|Hg0]%elem_of_cons]; [|done|];
      (assert (g0 ∈ G1 ++ g :: G2) as Hin by (rewrite elem_of_app, elem_of_cons; tauto);
       apply (group_frame H); [by apply Hgs|done| |apply Hff|apply Hel]).
    + intros y Hy. apply Hnodes; intros Hy2; rewrite all_nodes_app, all_nodes_cons, <-!app_assoc in Hnd; apply NoDup_app in Hnd as (_ & Hd & _);
        apply (Hd y); try (apply elem_all_nodes; eauto); rewrite !elem_of_app; tauto.
    + rewrite fmap_app, <-app_assoc in Hndf. apply NoDup_app in Hndf as (_ & Hd & _). intros E. apply (Hd (gfp g0)); [by apply list_elem_of_fmap_2|].
      rewrite E. simpl. by left.
    + intros y Hy. rewrite all_nodes_app, all_nodes_cons, <-!app_assoc in Hnd. apply NoDup_app in Hnd as (_ & _ & Hnd).
      assert (y ∈ all_nodes G2) as Hy' by (apply elem_all_nodes; eauto). apply Hnodes; intros Hy2.
      * apply NoDup_app in Hnd as (_ & Hd & _). apply (Hd y Hy2). rewrite elem_of_app. by left.
      * apply NoDup_app in Hnd as (_ & _ & Hnd). apply NoDup_app in Hnd as (_ & Hd & _). apply (Hd y Hy'). rewrite elem_of_app. by left.
      * apply NoDup_app in Hnd as (_ & _ & Hnd). apply NoDup_app in Hnd as (_ & Hd & _). apply (Hd y Hy'). rewrite elem_of_app. by right.
    + rewrite fmap_app, <-app_assoc in Hndf. apply NoDup_app in Hndf as (_ & _ & Hndf). simpl in Hndf. apply NoDup_cons in Hndf as [Hd _].
      intros E. apply Hd. rewrite <-E, elem_of_app. left. by apply list_elem_of_fmap_2.
  - eapply dll_frame; [exact Hch|]. done.
  - congruence.
  - congruence.
  - rewrite !fmap_app in *. simpl in *. by rewrite Hfq.
  - congruence.
  - eapply chain_frame; [exact Hcf|done].
Qed.

Lemma unlink_core H G1 fp f l x k G2 fl fn ffn H' :
  freq_core H (G1 ++ Group fp f (l ++ x :: k) :: G2) fl fn ffn → unlinked H fp l x k H' →
  freq_core H' (G1 ++ Group fp f (l ++ k) :: G2) (x :: fl) fn ffn.
Proof.
  intros Hc [Hp Hn Hf He Hq Hla Hsm [= Hs Hl Hfr Hfrr] Hr].
  assert (group_ok H (Group fp f (l ++ x :: k))) as [Hgq Hge Hgn Hgf Hgl] by (apply (fc_groups _ _ _ _ _ Hc); list_in).
  cbn [gfp gfreq gnodes] in *. pose proof (core_nodes_NoDup _ _ _ _ _ Hc) as Hnd.
  rewrite all_nodes_app, all_nodes_cons, <-!app_assoc in Hnd. apply NoDup_app in Hnd as (_ & _ & Hnd). cbn [gnodes] in Hnd.
  apply NoDup_app in Hnd as (Hndg & Hdis & Hnd).
  destruct (head_last_mid _ _ _ Hndg) as (Hxl & Hxk & Hndl & Hndk & Hlk).
  assert (∀ y, last l = Some y → y ∈ l) as Hlast by (intros y Hy; rewrite last_lookup in Hy; by eapply list_elem_of_lookup_2).
  assert (∀ y, head k = Some y → y ∈ k) as Hhead by (intros y Hy; destruct k; [done|injection Hy as ->; by left]).
  eapply (core_change H H' G1 (Group fp f (l ++ x :: k))); try done.
  - cbn [gnodes]. rewrite <-!app_assoc. apply Permutation_app_head. simpl. by rewrite Permutation_middle.
  - cbn [gnodes]. intros y Hy _ _. assert (y ≠ x) by (intros ->; apply Hy; list_in). rewrite Hp, Hn, Hf by done.
    rewrite !decide_False; [done|intros ?%Hlast|intros ?%Hhead]; apply Hy; list_in.
  - intros y Hy. rewrite He. by rewrite decide_False.
  - split; cbn [gfp gfreq gnodes].
    + by rewrite Hq.
    + by rewrite He, decide_True.
    + apply (dll_remove (node_prev H) (node_next H) _ _ (-1) l x k (-1) Hgn Hndg).
      * intros y Hy. apply Hp. intros ->. apply elem_of_app in Hy as [?|?]; done.
      * intros y Hy. apply Hn. intros ->. apply elem_of_app in Hy as [?|?]; done.
    + intros y Hy. rewrite Hf. apply Hgf. rewrite elem_of_app in Hy. list_in.
    + by rewrite (sr_sqrtu _ _ Hr).
  - rewrite Hfr. apply (fc_freef _ _ _ _ _ Hc).
  - eapply chain_frame; [apply (fc_fn _ _ _ _ _ Hc)|]. intros y Hy.
    assert (y ∉ l ++ x :: k) as Hyg. { intros Hyg. apply (Hdis y Hyg). list_in. }
    rewrite Hn by (intros ->; apply Hyg; list_in). rewrite decide_False; [done|]. intros ?%Hlast. apply Hyg. list_in.
Qed.

(** ** Joining a list *)

Lemma core_ff H G fl fn ffn g : freq_core H G fl fn ffn → g ∈ G →
  ∃ c, hff H !z gfp g = Some c ∧ ffreq c = gfreq g ∧ felems c = first_or (-1) (gnodes g).
Proof.
  intros Hc Hg. destruct (fc_groups _ _ _ _ _ Hc g Hg) as [Hf He _ _ _]. unfold ff_freq, ff_elems in *.
  destruct (hff H !z gfp g) as [c|]; [|done]. exists c. simpl in *. split; [done|]. split; congruence.
Qed.

(** Node [x] is the first one of its group now: from the contents of the cells. *)
Lemma core_pushed H H' G1 fp f y l G2 x fl fn ffn c nx ny :
  freq_core H (G1 ++ Group fp f (y :: l) :: G2) (x :: fl) fn ffn → hff H !z fp = Some c → ffreq c = f →
  hfreq H !z x = Some nx → nprev nx = -1 → hfreq H !z y = Some ny →
  (∀ z, hfreq H' !z z = if decide (z = x) then Some (THnode (nid nx) (nprev nx) y fp)
    else if decide (z = y) then Some (set_prev x ny) else hfreq H !z z) →
  (∀ z, hff H' !z z = if decide (z = fp) then Some (set_elems x c) else hff H !z z) → same_rest H H' →
  smallest H' = smallest H ∧ largest H' = largest H ∧ freef H' = freef H ∧ freeff H' = freeff H →
  freq_core H' (G1 ++ Group fp f (x :: y :: l) :: G2) fl fn ffn.
Proof.
  intros Hc Hcf Hcq Hnx Hpx Hny Hn' Hf' Hr (Hs & Hlg & Hfr & Hfrr). pose proof (core_nodes_NoDup _ _ _ _ _ Hc) as Hnd.
  rewrite all_nodes_app, all_nodes_cons, <-!app_assoc in Hnd. apply NoDup_app in Hnd as (_ & _ & Hnd). cbn [gnodes] in Hnd.
  assert (x ∉ y :: l) as Hxl. { intros Hx. apply NoDup_app in Hnd as (_ & Hd & _). apply (Hd x Hx). list_in. }
  assert (x ∉ fl ++ fn) as Hxf.
  { apply NoDup_app in Hnd as (_ & _ & Hnd). apply NoDup_app in Hnd as (_ & _ & Hnd). by apply NoDup_cons in Hnd as [? _]. }
  assert (NoDup (y :: l)) as Hndl by (by apply NoDup_app in Hnd as (? & _)).
  assert (x ≠ y) as Hxy by (intros ->; apply Hxl; by left).
  assert (group_ok H (Group fp f (y :: l))) as [Hgq Hge Hgn Hgf Hgl] by (apply (fc_groups _ _ _ _ _ Hc); list_in). cbn [gfp gfreq gnodes] in *.
  assert (∀ z, node_prev H' z = if decide (z = y) then Some x else node_prev H z) as Hvp.
  { intros z. unfold node_prev. rewrite Hn'. destruct (decide (z = x)) as [->|]; [rewrite decide_False, Hnx by done; done|]. by case_decide. }
  assert (∀ z, node_next H' z = if decide (z = x) then Some y else node_next H z) as Hvn.
  { intros z. unfold node_next. rewrite Hn'. case_decide; [done|]. case_decide; [subst; by rewrite Hny|done]. }
  assert (∀ z, node_fnode H' z = if decide (z = x) then Some fp else node_fnode H z) as Hvf.
  { intros z. unfold node_fnode. rewrite Hn'. case_decide; [done|]. case_decide; [subst; by rewrite Hny|done]. }
  eapply (core_change H H' G1 (Group fp f (y :: l))); try done; cbn [gfp gfreq gnodes].
  - rewrite !app_assoc. apply Permutation_app_tail. rewrite <-Permutation_middle. done.
  - intros z Hz Hzf _. rewrite Hvp, Hvn, Hvf. assert (z ≠ x) by (intros ->; apply Hzf; by left).
    assert (z ≠ y) by (intros ->; apply Hz; by left). by rewrite !decide_False.
  - intros z. unfold ff_freq. rewrite Hf'. case_decide; [subst; by rewrite Hcf|done].
  - intros z Hz. unfold ff_elems. by rewrite Hf', decide_False.
  - intros z. unfold ff_larger. rewrite Hf'. case_decide; [subst; by rewrite Hcf|done].
  - intros z. unfold ff_smaller. rewrite Hf'. case_decide; [subst; by rewrite Hcf|done].
  - split; cbn [gfp gfreq gnodes].
    + unfold ff_freq. rewrite Hf', decide_True by done. simpl. by rewrite Hcq.
    + unfold ff_elems. by rewrite Hf', decide_True.
    + apply (dll_push (node_prev H) (node_next H) _ _ (-1) (y :: l) x (-1) (-1) Hgn).
      * by apply NoDup_cons.
      * rewrite Hvp, decide_False by done. unfold node_prev. rewrite Hnx. simpl. by rewrite Hpx.
      * by rewrite Hvn, decide_True.
      * intros z Hz. rewrite Hvp. simpl. destruct (decide (z = y)) as [->|]; [by rewrite decide_True|]. rewrite decide_False by congruence. done.
      * intros z Hz. rewrite Hvn, decide_False; [done|]. intros ->. done.
    + intros z [->|Hz]%elem_of_cons; rewrite Hvf; [by rewrite decide_True|]. rewrite decide_False by (intros ->; done). by apply Hgf.
    + by rewrite (sr_sqrtu _ _ Hr).
  - rewrite Hfr. apply (fc_freef _ _ _ _ _ Hc).
  - eapply chain_frame; [apply (fc_fn _ _ _ _ _ Hc)|]. intros z Hz. rewrite Hvn, decide_False; [done|]. intros ->. apply Hxf. list_in.
Qed.

(** Node [x], whose previous field is -1 already, becomes the first one. *)
Lemma attach_wp {B} H G1 fp f l G2 x fl fn ffn (K : Theap → res B) (Q : B → Prop) :
  freq_core H (G1 ++ Group fp f l :: G2) (x :: fl) fn ffn → l ≠ [] → node_prev H x = Some (-1) →
  (∀ H', freq_core H' (G1 ++ Group fp f (x :: l) :: G2) fl fn ffn → same_rest H H' → wp (K H') Q) →
  wp (let* '(lfp, H) := let* H := push_node x fp H in Ok (fp, H) in
      let* H := upd_ff lfp (set_elems x) H in
      let* H := upd_node x (set_fnode lfp) H in K H) Q.
Proof.
  intros Hc Hl Hpx HK. destruct l as [|y l]; [done|].
  destruct (core_ff _ _ _ _ _ (Group fp f (y :: l)) Hc) as (c & Hcf & Hcq & Hce); [list_in|]. cbn [gfp gnodes gfreq] in *.
  change (first_or (-1) (y :: l)) with y in Hce.
  assert (x ∈ all_nodes (G1 ++ Group fp f (y :: l) :: G2) ++ (x :: fl) ++ fn) as Hxin by list_in.
  assert (y ∈ all_nodes (G1 ++ Group fp f (y :: l) :: G2) ++ (x :: fl) ++ fn) as Hyin.
  { rewrite all_nodes_app, all_nodes_cons. cbn [gnodes]. list_in. }
  pose proof (core_node_range _ _ _ _ _ Hc _ Hxin) as Hxr. pose proof (core_node_range _ _ _ _ _ Hc _ Hyin) as Hyr.
  destruct (node_total H x Hxr) as [nx Hnx]. destruct (node_total H y Hyr) as [ny Hny].
  assert (x ≠ y) as Hxy.
  { intros <-. pose proof (core_nodes_NoDup _ _ _ _ _ Hc) as Hnd. rewrite all_nodes_app, all_nodes_cons, <-!app_assoc in Hnd. apply NoDup_app in Hnd as (_ & _ & Hnd).
    cbn [gnodes] in Hnd. apply NoDup_app in Hnd as (_ & Hd & _). apply (Hd x); list_in. }
  unfold push_node. rewrite (vget_ok _ _ _ Hcf). cbn [rbind]. rewrite Hce.
  apply wp_bind. apply wp_bind. apply wp_bind. eapply wp_upd_node; [exact Hnx|].
  eapply wp_upd_node; [view_simpl; rewrite zlookup_zinsert, decide_False by (done || congruence); exact Hny|]. cbn [rbind wp].
  apply wp_bind. eapply wp_upd_ff; [view_simpl; exact Hcf|].
  apply wp_bind. eapply wp_upd_node.
  { view_simpl. rewrite zlookup_zinsert, decide_False by (rewrite ?zlen_zinsert; done). rewrite zlookup_zinsert, decide_True by done. done. }
  view_simpl. set (H' := with_nodes _ _ _).
  assert (∀ z, hfreq H' !z z = if decide (z = x) then Some (THnode (nid nx) (nprev nx) y fp)
    else if decide (z = y) then Some (set_prev x ny) else hfreq H !z z) as Hn'.
  { intros z. unfold H'. view_simpl. rewrite zlookup_zinsert by (rewrite !zlen_zinsert; done). case_decide; [done|].
    rewrite zlookup_zinsert by (rewrite zlen_zinsert; done). case_decide; [done|]. rewrite zlookup_zinsert, decide_False by done. done. }
  assert (∀ z, hff H' !z z = if decide (z = fp) then Some (set_elems x c) else hff H !z z) as Hf'.
  { intros z. unfold H'. view_simpl. apply zlookup_zinsert. by eapply zlookup_range. }
  assert (same_rest H H') as Hr.
  { split; unfold H'; view_simpl; try done; rewrite ?zlen_zinsert; try done. intros z. fold (hfreq H'). 
    change (nid <$> hfreq H' !z z = nid <$> hfreq H !z z). rewrite Hn'. case_decide; [subst; by rewrite Hnx|].
    case_decide; [subst; by rewrite Hny|done]. }
  apply HK; [|done]. eapply (core_pushed H H' G1 fp f y l G2 x fl fn ffn c nx ny); try done. unfold node_prev in Hpx. rewrite Hnx in Hpx. by injection Hpx.
Qed.

(** ** A new frequency, and a frequency without nodes *)

Lemma sorted_insert (G1 G2 : list group) g :
  StronglySorted Z.lt (gfreq <$> G1 ++ G2) → (∀ h, h ∈ G1 → gfreq h < gfreq g) → (∀ h, h ∈ G2 → gfreq g < gfreq h) →
  StronglySorted Z.lt (gfreq <$> G1 ++ g :: G2).
Proof.
  intros Hs Hlo Hhi. induction G1 as [|h G1 IH]; simpl in *.
  - constructor; [done|]. apply Forall_fmap, Forall_forall. intros k Hk. by apply Hhi.
  - apply StronglySorted_inv in Hs as [Hs Hh]. constructor; [apply IH; [done|]; intros; apply Hlo; by right|].
    rewrite fmap_app in *. apply Forall_app in Hh as [H1 H2]. apply Forall_app. split; [done|]. simpl. constructor; [|done].
    apply Hlo. by left.
Qed.

Lemma sorted_delete (G1 G2 : list group) g :
  StronglySorted Z.lt (gfreq <$> G1 ++ g :: G2) → StronglySorted Z.lt (gfreq <$> G1 ++ G2).
Proof.
  induction G1 as [|h G1 IH]; simpl; intros Hs; apply StronglySorted_inv in Hs as [Hs Hh]; [done|].
  constructor; [by apply IH|]. rewrite fmap_app in *. apply Forall_app in Hh as [H1 H2]. apply Forall_app. split; [done|].
  by apply Forall_cons in H2 as [_ ?].
Qed.

Lemma core_insert H H' G1 G2 q f x fl fn ffn :
  freq_core H (G1 ++ G2) (x :: fl) fn (q :: ffn) → same_rest H H' →
  (∀ y, node_prev H' y = if decide (y = x) then Some (-1) else node_prev H y) →
  (∀ y, node_next H' y = if decide (y = x) then Some (-1) else node_next H y) →
  (∀ y, node_fnode H' y = if decide (y = x) then Some q else node_fnode H y) →
  (∀ y, ff_freq H' y = if decide (y = q) then Some f else ff_freq H y) →
  (∀ y, ff_elems H' y = if decide (y = q) then Some x else ff_elems H y) →
  (∀ y, ff_smaller H' y = if decide (y = q) then Some (last_or (-1) (gfp <$> G1))
     else if decide (head (gfp <$> G2) = Some y) then Some q else ff_smaller H y) →
  (∀ y, ff_larger H' y = if decide (y = q) then Some (first_or (-1) (gfp <$> G2))
     else if decide (last (gfp <$> G1) = Some y) then Some q else ff_larger H y) →
  smallest H' = first_or q (gfp <$> G1) → largest H' = last_or q (gfp <$> G2) →
  freef H' = freef H → freeff H' = first_or (-1) ffn →
  sqrtu H ≤ f → (∀ h, h ∈ G1 → gfreq h < f) → (∀ h, h ∈ G2 → f < gfreq h) →
  freq_core H' (G1 ++ Group q f [x] :: G2) fl fn ffn.
Proof.
  intros Hc Hr Hp Hn Hf Hq He Hs Hl Hsm Hlg Hfr Hfrr Hbig Hlo Hhi.
  pose proof (core_nodes_NoDup _ _ _ _ _ Hc) as Hnd. pose proof (core_ffs_NoDup _ _ _ _ _ Hc) as Hndf.
  destruct Hc as [Hcn Hcf Hlh Hlf Hgs Hch Hcs Hcl Hso Hcfr Hcfrr Hcfn Hcffn].
  assert (x ∉ all_nodes (G1 ++ G2)) as Hx1. { intros Hx. apply NoDup_app in Hnd as (_ & Hd & _). apply (Hd x Hx). list_in. }
  assert (x ∉ fl ++ fn) as Hx2. { apply NoDup_app in Hnd as (_ & _ & Hnd). simpl in Hnd. by apply NoDup_cons in Hnd as [? _]. }
  assert (q ∉ (gfp <$> G1 ++ G2)) as Hq1. { intros Hx. apply NoDup_app in Hndf as (_ & Hd & _). apply (Hd q Hx). list_in. }
  assert (q ∉ ffn) as Hq2. { apply NoDup_app in Hndf as (_ & _ & Hnd2). simpl in Hnd2. by apply NoDup_cons in Hnd2 as [? _]. }
  assert (NoDup ((gfp <$> G1) ++ q :: (gfp <$> G2))) as Hndg.
  { rewrite <-Permutation_middle. apply NoDup_cons. rewrite <-fmap_app. split; [done|]. by apply NoDup_app in Hndf as (? & _). }
  destruct Hr as [Hrs Hri Hrm Hrh Hrf _].
  split; rewrite ?Hrs, ?Hrh, ?Hrf; try done.
  - rewrite <-Hcn, !all_nodes_app, all_nodes_cons. cbn [gnodes]. rewrite <-!app_assoc. apply Permutation_app_head. simpl.
    by rewrite Permutation_middle.
  - rewrite <-Hcf, !fmap_app, <-!app_assoc. apply Permutation_app_head. simpl. by rewrite <-Permutation_middle.
  - intros g Hg. apply elem_of_app in Hg. rewrite elem_of_cons in Hg.
    assert (g ∈ G1 ++ G2 → group_ok H' g) as Hold.
    { intros Hin. assert (gfp g ≠ q) by (intros E; apply Hq1; rewrite <-E; by apply list_elem_of_fmap_2).
      apply (group_frame H); [by apply Hgs|done| | |].
      - intros y Hy. assert (y ≠ x) by (intros ->; apply Hx1, elem_all_nodes; eauto). rewrite Hp, Hn, Hf. by rewrite !decide_False.
      - by rewrite Hq, decide_False.
      - by rewrite He, decide_False. }
    destruct Hg as [Hg|[->|Hg]]; [apply Hold; list_in| |apply Hold; list_in].
    split; cbn [gfp gfreq gnodes].
    + by rewrite Hq, decide_True.
    + by rewrite He, decide_True.
    + simpl. rewrite Hp, Hn, !decide_True by done. done.
    + intros y ->%list_elem_of_singleton. by rewrite Hf, decide_True.
    + by rewrite Hrs.
  - rewrite fmap_app. simpl. rewrite fmap_app in Hch.
    apply (dll_insert (ff_smaller H) (ff_larger H) _ _ (-1) _ q _ (-1) Hch Hndg).
    + by rewrite Hs, decide_True.
    + by rewrite Hl, decide_True.
    + intros y Hy. rewrite Hs, decide_False; [done|]. intros ->. apply Hq1. by rewrite fmap_app.
    + intros y Hy. rewrite Hl, decide_False; [done|]. intros ->. apply Hq1. by rewrite fmap_app.
  - rewrite Hsm, fmap_app, first_or_app. done.
  - rewrite Hlg, fmap_app. symmetry. apply last_or_mid.
  - apply (sorted_insert G1 G2 (Group q f [x])); done.
  - by rewrite Hfr.
  - eapply chain_frame; [exact Hcfn|]. intros y Hy. rewrite Hn, decide_False; [done|]. intros ->. apply Hx2. list_in.
  - destruct Hcffn as [_ Hcffn]. eapply chain_frame; [exact Hcffn|]. intros y Hy. rewrite Hl.
    rewrite !decide_False; [done| |intros ->; done]. intros E. rewrite last_lookup in E. apply list_elem_of_lookup_2 in E.
    apply NoDup_app in Hndf as (_ & Hd & _). apply (Hd y); [rewrite fmap_app|]; list_in.
Qed.

Lemma core_drop H H' G1 q f G2 fl fn ffn :
  freq_core H (G1 ++ Group q f [] :: G2) fl fn ffn → same_rest H H' →
  (∀ y, node_prev H' y = node_prev H y ∧ node_next H' y = node_next H y ∧ node_fnode H' y = node_fnode H y) →
  (∀ y, y ≠ q → ff_freq H' y = ff_freq H y) → (∀ y, y ≠ q → ff_elems H' y = ff_elems H y) →
  (∀ y, y ≠ q → ff_smaller H' y = if decide (head (gfp <$> G2) = Some y) then Some (last_or (-1) (gfp <$> G1)) else ff_smaller H y) →
  (∀ y, y ≠ q → ff_larger H' y = if decide (last (gfp <$> G1) = Some y) then Some (first_or (-1) (gfp <$> G2)) else ff_larger H y) →
  ff_larger H' q = Some (first_or (-1) ffn) →
  smallest H' = first_or (-1) (gfp <$> G1 ++ G2) → largest H' = last_or (-1) (gfp <$> G1 ++ G2) →
  freef H' = freef H → freeff H' = q →
  freq_core H' (G1 ++ G2) fl fn (q :: ffn).
Proof.
  intros Hc Hr Hnodes Hq He Hs Hl Hlq Hsm Hlg Hfr Hfrr. pose proof (core_ffs_NoDup _ _ _ _ _ Hc) as Hndf.
  destruct Hc as [Hcn Hcf Hlh Hlf Hgs Hch Hcs Hcl Hso Hcfr Hcfrr Hcfn Hcffn].
  rewrite fmap_app in Hndf, Hch, Hcf. simpl in Hndf, Hch, Hcf.
  assert (NoDup ((gfp <$> G1) ++ q :: (gfp <$> G2))) as Hndg.
  { by apply NoDup_app in Hndf as (? & _). }
  assert (∀ y, y ∈ (gfp <$> G1) ++ (gfp <$> G2) → y ≠ q) as Hne.
  { intros y Hy ->. destruct (head_last_mid _ _ _ Hndg) as (? & ? & _). apply elem_of_app in Hy as [?|?]; done. }
  destruct Hr as [Hrs Hri Hrm Hrh Hrf _].
  split; rewrite ?Hrs, ?Hrh, ?Hrf; try done.
  - rewrite <-Hcn, !all_nodes_app, all_nodes_cons. done.
  - rewrite <-Hcf, fmap_app, <-!app_assoc. apply Permutation_app_head. simpl. by rewrite <-Permutation_middle.
  - intros g Hg. assert (gfp g ≠ q) by (apply Hne; rewrite <-fmap_app; by apply list_elem_of_fmap_2).
    apply (group_frame H); [|done|by intros|by apply Hq|by apply He]. apply Hgs. rewrite elem_of_app in *. rewrite elem_of_cons. tauto.
  - rewrite fmap_app. apply (dll_remove (ff_smaller H) (ff_larger H) _ _ (-1) _ q _ (-1) Hch Hndg).
    + intros y Hy. by apply Hs, Hne.
    + intros y Hy. by apply Hl, Hne.
  - by eapply sorted_delete.
  - by rewrite Hfr.
  - eapply chain_frame; [exact Hcfn|]. intros y Hy. apply Hnodes.
  - split; [done|]. eapply chain_frame; [exact Hcffn|]. intros y Hy.
    assert (y ∉ (gfp <$> G1) ++ q :: (gfp <$> G2)) as Hny.
    { apply NoDup_app in Hndf as (_ & Hd & _). intros E. by apply (Hd y). }
    rewrite Hl by (intros ->; apply Hny; list_in). rewrite decide_False; [done|]. intros E. rewrite last_lookup in E.
    apply list_elem_of_lookup_2 in E. apply Hny. list_in.
Qed.

(** The same, from the contents of the cells. *)
Lemma core_new H H' G1 G2 q f x nx fl fn ffn :
  freq_core H (G1 ++ G2) (x :: fl) fn (q :: ffn) →
  (∀ y, hff H' !z y = if decide (y = q) then Some (THfreq f x (first_or (-1) (gfp <$> G2)) (last_or (-1) (gfp <$> G1)))
     else if decide (head (gfp <$> G2) = Some y) then set_smaller q <$> hff H !z y
     else if decide (last (gfp <$> G1) = Some y) then set_larger q <$> hff H !z y else hff H !z y) →
  hfreq H !z x = Some nx →
  (∀ y, hfreq H' !z y = if decide (y = x) then Some (THnode (nid nx) (-1) (-1) q) else hfreq H !z y) →
  zlen (hfreq H') = zlen (hfreq H) → zlen (hff H') = zlen (hff H) →
  smallest H' = first_or q (gfp <$> G1) → largest H' = last_or q (gfp <$> G2) →
  freef H' = freef H → freeff H' = first_or (-1) ffn →
  sqrtu H' = sqrtu H → infreq H' = infreq H → hmax H' = hmax H →
  sqrtu H ≤ f → (∀ h, h ∈ G1 → gfreq h < f) → (∀ h, h ∈ G2 → f < gfreq h) →
  freq_core H' (G1 ++ Group q f [x] :: G2) fl fn ffn ∧ same_rest H H'.
Proof.
  intros Hc Hf Hnx Hn Hlh Hlf Hs Hl Hfr Hfrr Hsq Hin Hmx Hbig Hlo Hhi.
  assert (same_rest H H') as Hr.
  { split; try done. intros y. unfold node_id. rewrite Hn. case_decide; [subst; by rewrite Hnx|done]. }
  split; [|done]. pose proof (core_ffs_NoDup _ _ _ _ _ Hc) as Hndf. rewrite fmap_app in Hndf.
  assert (∀ y, last (gfp <$> G1) = Some y → y ∈ gfp <$> G1) as Hlast by (intros y Hy; rewrite last_lookup in Hy; by eapply list_elem_of_lookup_2).
  assert (∀ y, head (gfp <$> G2) = Some y → y ∈ gfp <$> G2) as Hhead by (intros y Hy; destruct (gfp <$> G2); [done|injection Hy as ->; by left]).
  assert (∀ y, y ∈ (gfp <$> G1) ++ (gfp <$> G2) → y ≠ q) as Hq.
  { intros y Hy ->. apply NoDup_app in Hndf as (_ & Hd & _). apply (Hd q Hy). list_in. }
  assert (∀ y, y ∈ (gfp <$> G1) ++ (gfp <$> G2) → is_Some (hff H !z y)) as Hex.
  { intros y Hy. destruct (zlookup_total (hff H) y) as [c Hc']; [|by rewrite Hc'].
    apply (core_ff_range _ _ _ _ _ Hc). rewrite fmap_app, elem_of_app. by left. }
  assert (∀ y, head (gfp <$> G2) = Some y → last (gfp <$> G1) ≠ Some y) as Hdis.
  { intros y H2%Hhead H1%Hlast. apply NoDup_app in Hndf as (Hnd & _). apply NoDup_app in Hnd as (_ & Hd & _). by apply (Hd y). }
  apply (core_insert H H' G1 G2 q f x fl fn ffn); try done.
  - intros y. unfold node_prev. rewrite Hn. by case_decide.
  - intros y. unfold node_next. rewrite Hn. by case_decide.
  - intros y. unfold node_fnode. rewrite Hn. by case_decide.
  - intros y. unfold ff_freq. rewrite Hf. case_decide; [done|]. repeat case_decide; by destruct (hff H !z y).
  - intros y. unfold ff_elems. rewrite Hf. case_decide; [done|]. repeat case_decide; by destruct (hff H !z y).
  - intros y. unfold ff_smaller. rewrite Hf. case_decide; [done|]. case_decide as E.
    + destruct (Hex y) as [c ->]; [apply Hhead in E; list_in|done].
    + case_decide; by destruct (hff H !z y).
  - intros y. unfold ff_larger. rewrite Hf. case_decide; [done|]. case_decide as E.
    + rewrite decide_False by (by apply Hdis). by destruct (hff H !z y).
    + case_decide as E2; [|done]. destruct (Hex y) as [c ->]; [apply Hlast in E2; list_in|done].
Qed.

(** The neighbours of a node that is taken out of the chain. *)
Lemma bypass_smaller H l v s :
  (∀ y, y ∈ l → 0 ≤ y < zlen (hff H)) → smallest H = first_or s l →
  ∃ H1, (if last_or (-1) l =? -1 then Ok (set_smallest v H) else upd_ff (last_or (-1) l) (set_larger v) H) = Ok H1 ∧
    (∀ y, hff H1 !z y = if decide (last l = Some y) then set_larger v <$> hff H !z y else hff H !z y) ∧
    smallest H1 = first_or v l ∧ zlen (hff H1) = zlen (hff H) ∧ H1 = with_ff H (hff H1) (freeff H) (smallest H1) (largest H).
Proof.
  intros Hr Hs. destruct l as [|w l _] using rev_ind; [by eexists|]. rewrite last_or_snoc. assert (0 ≤ w < zlen (hff H)) as Hw by (apply Hr; list_in).
  destruct (Z.eqb_spec w (-1)); [lia|]. destruct (zlookup_total _ _ Hw) as [cw Hcw]. unfold upd_ff. rewrite (upd_ok _ _ _ _ Hcw).
  cbn [rbind]. eexists. split; [done|]. rewrite last_snoc. split_and!; try done; view_simpl.
  - intros y. rewrite zlookup_zinsert by done. destruct (decide (y = w)) as [->|]; [by rewrite decide_True, Hcw|]. by rewrite decide_False by congruence.
  - rewrite Hs, !first_or_app. by destruct l.
  - by rewrite zlen_zinsert.
Qed.

Lemma bypass_larger H l v s :
  (∀ y, y ∈ l → 0 ≤ y < zlen (hff H)) → largest H = last_or s l →
  ∃ H1, (if first_or (-1) l =? -1 then Ok (set_largest v H) else upd_ff (first_or (-1) l) (set_smaller v) H) = Ok H1 ∧
    (∀ y, hff H1 !z y = if decide (head l = Some y) then set_smaller v <$> hff H !z y else hff H !z y) ∧
    largest H1 = last_or v l ∧ zlen (hff H1) = zlen (hff H) ∧ H1 = with_ff H (hff H1) (freeff H) (smallest H) (largest H1).
Proof.
  intros Hr Hs. destruct l as [|w l]; [by eexists|]. change (first_or (-1) (w :: l)) with w. assert (0 ≤ w < zlen (hff H)) as Hw by (apply Hr; list_in).
  destruct (Z.eqb_spec w (-1)); [lia|]. destruct (zlookup_total _ _ Hw) as [cw Hcw]. unfold upd_ff. rewrite (upd_ok _ _ _ _ Hcw).
  cbn [rbind]. eexists. split; [done|]. split_and!; try done; view_simpl.
  - intros y. rewrite zlookup_zinsert by done. destruct (decide (y = w)) as [->|]; [by rewrite decide_True, Hcw|]. by rewrite decide_False by (cbn; congruence).
  - by rewrite Hs, !last_or_cons.
  - by rewrite zlen_zinsert.
Qed.

(** [core_drop] from the contents of the cells. *)
Lemma core_dropped H H' G1 q f G2 fl fn ffn c :
  freq_core H (G1 ++ Group q f [] :: G2) fl fn ffn → same_rest H H' → hfreq H' = hfreq H →
  hff H' !z q = Some (set_larger (first_or (-1) ffn) c) →
  (∀ y, y ≠ q → hff H' !z y = let z := if decide (last (gfp <$> G1) = Some y) then set_larger (first_or (-1) (gfp <$> G2)) <$> hff H !z y else hff H !z y in
     if decide (head (gfp <$> G2) = Some y) then set_smaller (last_or (-1) (gfp <$> G1)) <$> z else z) →
  smallest H' = first_or (-1) (gfp <$> G1 ++ G2) → largest H' = last_or (-1) (gfp <$> G1 ++ G2) → freef H' = freef H → freeff H' = q →
  freq_core H' (G1 ++ G2) fl fn (q :: ffn).
Proof.
  intros Hc Hr Hn Hq Hf Hs Hl Hfr Hff. assert (∀ y, y ∈ (gfp <$> G1) ++ (gfp <$> G2) → is_Some (hff H !z y)) as Hex.
  { intros y Hy. destruct (zlookup_total (hff H) y) as [cy Hcy]; [|by rewrite Hcy]. apply (core_ff_range _ _ _ _ _ Hc). rewrite fmap_app, fmap_cons. apply elem_of_app in Hy as [Hy|Hy]; rewrite !elem_of_app, elem_of_cons; tauto. }
  apply (core_drop H H' G1 q f G2 fl fn ffn Hc Hr); try done.
  - intros y. unfold node_prev, node_next, node_fnode. by rewrite Hn.
  - intros y Hy. unfold ff_freq. rewrite Hf by done. repeat case_decide; by destruct (hff H !z y).
  - intros y Hy. unfold ff_elems. rewrite Hf by done. repeat case_decide; by destruct (hff H !z y).
  - intros y Hy. unfold ff_smaller. rewrite Hf by done. destruct (decide (head (gfp <$> G2) = Some y)) as [E|]; [|case_decide; by destruct (hff H !z y)].
    destruct (Hex y) as [cy ->]; [destruct (gfp <$> G2); [done|]; injection E as ->; list_in|]. by case_decide.
  - intros y Hy. unfold ff_larger. rewrite Hf by done. destruct (decide (last (gfp <$> G1) = Some y)) as [E|]; [|case_decide; by destruct (hff H !z y)].
    destruct (Hex y) as [cy ->]; [rewrite last_lookup in E; apply list_elem_of_lookup_2 in E; list_in|]. by case_decide.
  - unfold ff_larger. by rewrite Hq.
Qed.

Lemma drop_if_empty_spec H G1 q f l G2 fl fn ffn :
  freq_core H (G1 ++ Group q f l :: G2) fl fn ffn →
  wp (drop_if_empty q H) (λ H', same_rest H H' ∧
    if decide (l = []) then freq_core H' (G1 ++ G2) fl fn (q :: ffn) else H' = H).
Proof.
  intros Hc. destruct (core_ff _ _ _ _ _ (Group q f l) Hc) as (c & Hcf & Hcq & Hce); [list_in|]. cbn [gfp gnodes gfreq] in *.
  unfold drop_if_empty. rewrite (vget_ok _ _ _ Hcf). cbn [rbind]. rewrite Hce. destruct l as [|y l].
  2: { assert (0 ≤ y < zlen (hfreq H)).
       { apply (core_node_range _ _ _ _ _ Hc). rewrite all_nodes_app, all_nodes_cons. cbn [gnodes]. list_in. }
       change (first_or (-1) (y :: l)) with y. destruct (Z.eqb_spec y (-1)); [lia|]. cbn [negb wp]. split; [done|]. by case_decide. }
  cbn. pose proof (core_ffs_NoDup _ _ _ _ _ Hc) as Hndf. rewrite fmap_app in Hndf. cbn in Hndf.
  pose proof (fc_chain _ _ _ _ _ Hc) as Hch. rewrite fmap_app in Hch. cbn in Hch.
  destruct (dll_at _ _ _ _ _ _ _ Hch) as [Hsm Hla]. unfold ff_smaller, ff_larger in Hsm, Hla. rewrite Hcf in Hsm, Hla.
  cbn in Hsm, Hla. injection Hsm as Hsm. injection Hla as Hla. rewrite Hsm.
  pose proof (fc_smallest _ _ _ _ _ Hc) as Hcs. pose proof (fc_largest _ _ _ _ _ Hc) as Hcl. pose proof (fc_freeff _ _ _ _ _ Hc) as Hcfr.
  rewrite fmap_app in Hcs, Hcl. cbn in Hcs, Hcl. rewrite last_or_mid in Hcl. rewrite first_or_app in Hcs. cbn in Hcs.
  assert (∀ y, y ∈ (gfp <$> G1) ++ q :: (gfp <$> G2) → 0 ≤ y < zlen (hff H)) as Hrange.
  { intros y Hy. apply (core_ff_range _ _ _ _ _ Hc). rewrite fmap_app, elem_of_app. by left. }
  assert (NoDup ((gfp <$> G1) ++ q :: (gfp <$> G2))) as Hnd by (by apply NoDup_app in Hndf as (? & _)).
  destruct (head_last_mid _ _ _ Hnd) as (Hq1 & Hq2 & _ & _ & _). assert (0 ≤ q < zlen (hff H)) as Hqr by (apply Hrange; list_in).
  destruct (bypass_smaller H (gfp <$> G1) (flarger c) _ ltac:(intros y Hy; apply Hrange; list_in) Hcs) as (H1 & -> & Hf1 & Hs1 & Hl1 & Heq1).
  cbn [rbind]. assert (hff H1 !z q = Some c) as Hq1c.
  { rewrite Hf1, decide_False; [done|]. intros E. rewrite last_lookup in E. by apply list_elem_of_lookup_2 in E. }
  rewrite (vget_ok _ _ _ Hq1c). cbn [rbind]. rewrite Hla. assert (largest H1 = last_or q (gfp <$> G2)) as Hcl1 by (by rewrite Heq1).
  destruct (bypass_larger H1 (gfp <$> G2) (fsmaller c) _ ltac:(intros y Hy; rewrite Hl1; apply Hrange; list_in) Hcl1) as (H2 & -> & Hf2 & Hs2 & Hl2 & Heq2).
  cbn [rbind]. assert (hff H2 !z q = Some c) as Hq2c.
  { rewrite Hf2, decide_False; [done|]. intros E. destruct (gfp <$> G2); [done|]. injection E as ->. apply Hq2. by left. }
  rewrite Heq1 in Heq2. apply wp_bind. eapply wp_upd_ff; [exact Hq2c|]. cbn [wp]. rewrite decide_True by done.
  set (H' := set_freeff q _). assert (same_rest H H') as Hr' by (unfold H'; rewrite Heq2; split; view_simpl; try done; rewrite zlen_zinsert; lia).
  split; [done|]. apply (core_dropped H H' G1 q f G2 fl fn ffn c Hc Hr'); unfold H'; view_simpl; rewrite ?zlookup_zinsert_eq by lia.
  - by rewrite Heq2.
  - rewrite Heq2. view_simpl. by rewrite Hcfr.
  - intros y Hy. rewrite zlookup_zinsert_ne by (done || lia). by rewrite Hf2, Hf1, Hsm, Hla.
  - rewrite Heq2. view_simpl. by rewrite Hs1, Hla, fmap_app, first_or_app.
  - rewrite Hs2, Hsm, fmap_app. destruct (gfp <$> G2); [by rewrite app_nil_r|by rewrite last_or_mid, last_or_cons].
  - by rewrite Heq2.
  - done.
Qed.

(** ** Allocating a frequency node *)

Section alloc.
Context (H : Theap) (G1 G2 : list group) (q f x : Z) (nx : Thnode) (fl fn ffn : list Z).
Context (Hc : freq_core H (G1 ++ G2) (x :: fl) fn (q :: ffn)) (Hnx : hfreq H !z x = Some nx) (Hpx : nprev nx = -1).
Context (Hbig : sqrtu H ≤ f) (Hlo : ∀ h, h ∈ G1 → gfreq h < f) (Hhi : ∀ h, h ∈ G2 → f < gfreq h).

Lemma free_ff : ∃ c, hff H !z q = Some c ∧ flarger c = first_or (-1) ffn ∧ freeff H = q.
Proof using Hc.
  pose proof (fc_ffn _ _ _ _ _ Hc) as [Hq _]. unfold ff_larger in Hq. destruct (hff H !z q) as [c|]; [|done].
  exists c. injection Hq as Hq. split_and!; [done..|]. apply (fc_freeff _ _ _ _ _ Hc).
Qed.

Lemma alloc_cells y : y ∈ (gfp <$> G1) ++ (gfp <$> G2) → y ≠ q ∧ ∃ c, hff H !z y = Some c.
Proof using Hc.
  intros Hy. pose proof (core_ffs_NoDup _ _ _ _ _ Hc) as Hnd. rewrite fmap_app in Hnd. split.
  - intros ->. apply NoDup_app in Hnd as (_ & Hd & _). apply (Hd q Hy). by left.
  - apply zlookup_total, (core_ff_range _ _ _ _ _ Hc). rewrite fmap_app, elem_of_app. by left.
Qed.

Lemma alloc_disjoint y : y ∈ gfp <$> G1 → y ∉ gfp <$> G2.
Proof using Hc.
  intros Hy. pose proof (core_ffs_NoDup _ _ _ _ _ Hc) as Hnd. rewrite fmap_app in Hnd.
  apply NoDup_app in Hnd as (Hnd & _). apply NoDup_app in Hnd as (_ & Hd & _). by apply Hd.
Qed.

(** Link a new frequency node to the neighbour on its right, if any. *)
Definition link_right (q z : Z) (H : Theap) : res Theap :=
  if z =? -1 then Ok (set_largest q H) else upd_ff z (set_smaller q) H.
Definition link_left (q w : Z) (H : Theap) : res Theap :=
  if w =? -1 then Ok (set_smallest q H) else upd_ff w (set_larger q) H.

Lemma link_right_spec l k fr sm lg :
  zlen k = zlen (hff H) → l = gfp <$> G2 → lg = last_or (-1) (gfp <$> G1 ++ G2) →
  wp (link_right q (first_or (-1) l) (with_ff H k fr sm lg)) (λ H',
    ∃ k', H' = with_ff H k' fr sm (last_or q l) ∧ zlen k' = zlen k ∧
    ∀ y, k' !z y = if decide (head l = Some y) then set_smaller q <$> k !z y else k !z y).
Proof using Hc.
  intros Hk -> ->. unfold link_right. destruct (gfp <$> G2) as [|z l] eqn:E2.
  - cbn. exists k. done.
  - change (first_or (-1) (z :: l)) with z. destruct (alloc_cells z) as (Hzq & c & Hz); [rewrite E2; list_in|].
    pose proof (zlookup_range _ _ _ Hz). destruct (Z.eqb_spec z (-1)); [lia|]. destruct (zlookup_total k z) as [cz Hcz]; [lia|].
    eapply wp_upd_ff; [exact Hcz|]. view_simpl. eexists. split_and!; [|by apply zlen_zinsert|].
    + unfold with_ff. cbn. f_equal. rewrite fmap_app, E2, last_or_mid, last_or_cons. done.
    + intros y. rewrite zlookup_zinsert by lia. destruct (decide (y = z)) as [->|]; [by rewrite decide_True, Hcz|].
      by rewrite decide_False by (cbn; congruence).
Qed.

Lemma link_left_spec l k fr sm lg :
  zlen k = zlen (hff H) → l = gfp <$> G1 → sm = first_or (-1) (gfp <$> G1 ++ G2) →
  wp (link_left q (last_or (-1) l) (with_ff H k fr sm lg)) (λ H',
    ∃ k', H' = with_ff H k' fr (first_or q l) lg ∧ zlen k' = zlen k ∧
    ∀ y, k' !z y = if decide (last l = Some y) then set_larger q <$> k !z y else k !z y).
Proof using Hc.
  intros Hk -> ->. unfold link_left. destruct (gfp <$> G1) as [|w l _] eqn:E1 using rev_ind.
  - cbn. exists k. done.
  - rewrite last_or_snoc. destruct (alloc_cells w) as (Hzq & c & Hz); [rewrite E1; list_in|].
    pose proof (zlookup_range _ _ _ Hz). destruct (Z.eqb_spec w (-1)); [lia|]. destruct (zlookup_total k w) as [cw Hcw]; [lia|].
    eapply wp_upd_ff; [exact Hcw|]. view_simpl. eexists. split_and!; [|by apply zlen_zinsert|].
    + unfold with_ff. cbn. f_equal. rewrite fmap_app, E1, first_or_app. by destruct l.
    + intros y. rewrite last_snoc, zlookup_zinsert by lia. destruct (decide (y = w)) as [->|]; [by rewrite decide_True, Hcw|].
      by rewrite decide_False by congruence.
Qed.

(** The last part of an allocation: [k] is the array of frequency nodes with the
    new one linked; the node [x] joins it. *)
Lemma alloc_finish {B} k sm lg (Q : B → Prop) (K : Theap → res B) e :
  zlen k = zlen (hff H) →
  (∀ y, k !z y = if decide (y = q) then Some (THfreq f e (first_or (-1) (gfp <$> G2)) (last_or (-1) (gfp <$> G1)))
     else if decide (head (gfp <$> G2) = Some y) then set_smaller q <$> hff H !z y
     else if decide (last (gfp <$> G1) = Some y) then set_larger q <$> hff H !z y else hff H !z y) →
  sm = first_or q (gfp <$> G1) → lg = last_or q (gfp <$> G2) →
  (∀ H', freq_core H' (G1 ++ Group q f [x] :: G2) fl fn ffn → same_rest H H' → wp (K H') Q) →
  wp (let* '(lfp, H) :=
        let* H := upd_node x (set_next (-1)) (with_ff H k (first_or (-1) ffn) sm lg) in Ok (q, H) in
      let* H := upd_ff lfp (set_elems x) H in
      let* H := upd_node x (set_fnode lfp) H in K H) Q.
Proof using Hc Hnx Hpx Hbig Hlo Hhi.
  intros Hk Hcells Hsm Hlg HK. pose proof (zlookup_range _ _ _ Hnx) as Hxr. destruct free_ff as (c & Hqc & _ & _).
  pose proof (zlookup_range _ _ _ Hqc) as Hqr.
  apply wp_bind. apply wp_bind. eapply wp_upd_node; [exact Hnx|]. cbn [wp].
  apply wp_bind. eapply wp_upd_ff. { view_simpl. rewrite Hcells, decide_True by done. done. }
  apply wp_bind. eapply wp_upd_node. { view_simpl. rewrite zlookup_zinsert, decide_True by done. done. }
  match goal with |- wp (K ?H1) _ => edestruct (core_new H H1) as [Hcore Hrest]; [exact Hc| | | | | | | | | | | | |exact Hbig|exact Hlo|exact Hhi|by apply HK] end.
  - intros y. view_simpl. rewrite zlookup_zinsert by lia. case_decide; [done|]. rewrite Hcells. by rewrite decide_False.
  - exact Hnx.
  - intros y. view_simpl. rewrite zlookup_zinsert by (rewrite zlen_zinsert; lia). case_decide; [unfold set_fnode, set_next; cbn; by rewrite Hpx|].
    rewrite zlookup_zinsert by done. by rewrite decide_False.
  - view_simpl. by rewrite !zlen_zinsert.
  - view_simpl. by rewrite zlen_zinsert.
  - done.
  - done.
  - done.
  - done.
  - done.
  - done.
  - done.
Qed.
End alloc.

(** ** Moving a node to another frequency *)

Lemma in_group_app G1 G2 y h : in_group (G1 ++ G2) y h ↔ in_group G1 y h ∨ in_group G2 y h.
Proof.
  unfold in_group. split.
  - intros (g & [Hg|Hg]%elem_of_app & Hy & Hh); [left|right]; by exists g.
  - intros [(g & Hg & Hy & Hh)|(g & Hg & Hy & Hh)]; exists g; split_and!; try done; list_in.
Qed.

Lemma in_group_cons g G y h : in_group (g :: G) y h ↔ y ∈ gnodes g ∧ gfreq g = h ∨ in_group G y h.
Proof.
  change (g :: G) with ([g] ++ G). rewrite in_group_app. apply or_iff_compat_r. split.
  - by intros (g' & ->%list_elem_of_singleton & ?).
  - intros [Hy Hh]. exists g. split_and!; try done. by left.
Qed.

Lemma in_group_nodes G y h : in_group G y h → y ∈ all_nodes G.
Proof. intros (g & Hg & Hy & _). apply elem_all_nodes. by exists g. Qed.

Definition freq_ok (H : Theap) (G : list group) (fn ffn : list Z) : Prop :=
  freq_core H G [] fn ffn ∧ Forall (λ g, gnodes g ≠ []) G.

(** The nodes of [G'] are those of [G], with [x] at frequency [f]. *)
Definition regrouped (x f : Z) (G G' : list group) : Prop :=
  ∀ y h, in_group G' y h ↔ if decide (y = x) then h = f else in_group G y h.

(** A node in no list may change. *)
Lemma core_flight H G x fl fn ffn nx nx' :
  freq_core H G (x :: fl) fn ffn → hfreq H !z x = Some nx →
  freq_core (with_nodes H (zinsert (hfreq H) x nx') (freef H)) G (x :: fl) fn ffn ∧
  (nid nx' = nid nx → same_rest H (with_nodes H (zinsert (hfreq H) x nx') (freef H))).
Proof.
  intros Hc Hnx. pose proof (core_nodes_NoDup _ _ _ _ _ Hc) as Hnd. pose proof (zlookup_range _ _ _ Hnx) as Hxr.
  pose proof Hc as [Hcn Hcf Hlh Hlf Hgs Hch Hcs Hcl Hso Hcfr Hcfrr Hcfn Hcffn].
  assert (∀ y, y ≠ x → zinsert (hfreq H) x nx' !z y = hfreq H !z y) as Hne by (intros y Hy; by rewrite zlookup_zinsert, decide_False by done).
  assert ((x ∉ all_nodes G) ∧ (x ∉ fn)) as [Hx1 Hx2].
  { apply NoDup_app in Hnd as (_ & Hd & Hnd). split; [intros Hx; apply (Hd x Hx); by left|].
    simpl in Hnd. apply NoDup_cons in Hnd as [Hnx2 _]. intros Hx. apply Hnx2. list_in. }
  split.
  - split; view_simpl; try done.
    + by rewrite zlen_zinsert.
    + intros g Hg. apply (group_frame H); [by apply Hgs|done| |done|done]. intros y Hy. view_simpl.
      rewrite !Hne; [done|]. intros ->. apply Hx1, elem_all_nodes. by exists g.
    + eapply chain_frame; [exact Hcfn|]. intros y Hy. unfold node_next. rewrite Hne; [done|]. by intros ->.
  - intros Hid. split; view_simpl; try done; [by rewrite zlen_zinsert|]. intros y. rewrite zlookup_zinsert by done.
    case_decide; [subst; rewrite Hnx; cbn; by rewrite Hid|done].
Qed.

(** A frequency node may change its frequency if the order stays. *)
Lemma core_refreq H G1 fp f l G2 fl fn ffn c f' :
  freq_core H (G1 ++ Group fp f l :: G2) fl fn ffn → hff H !z fp = Some c → sqrtu H ≤ f' →
  (∀ h, h ∈ G1 → gfreq h < f') → (∀ h, h ∈ G2 → f' < gfreq h) →
  let H' := with_ff H (zinsert (hff H) fp (set_ffreq f' c)) (freeff H) (smallest H) (largest H) in
  freq_core H' (G1 ++ Group fp f' l :: G2) fl fn ffn ∧ same_rest H H'.
Proof.
  intros Hc Hcf Hbig Hlo Hhi H'. pose proof (core_ffs_NoDup _ _ _ _ _ Hc) as Hndf. pose proof (zlookup_range _ _ _ Hcf) as Hfr.
  destruct Hc as [Hcn Hcfs Hlh Hlf Hgs Hch Hcs Hcl Hso Hcfr Hcfrr Hcfn Hcffn].
  rewrite fmap_app in Hndf. apply NoDup_app in Hndf as (Hndf & _). simpl in Hndf. destruct (head_last_mid _ _ _ Hndf) as (Hq1 & Hq2 & _).
  assert (∀ y, hff H' !z y = if decide (y = fp) then Some (set_ffreq f' c) else hff H !z y) as Hv by (intros y; by apply zlookup_zinsert).
  assert (∀ y, ff_larger H' y = ff_larger H y) as Hla by (intros y; unfold ff_larger; rewrite Hv; case_decide; [subst; by rewrite Hcf|done]).
  split.
  - split; try done.
    + change (sqrtu H') with (sqrtu H). rewrite <-Hcn, !all_nodes_app, !all_nodes_cons. done.
    + rewrite fmap_app in *. done.
    + unfold H'. view_simpl. by rewrite zlen_zinsert.
    + intros g Hg. apply elem_of_app in Hg. rewrite elem_of_cons in Hg.
      assert (g ∈ G1 ++ Group fp f l :: G2 → gfp g ≠ fp → group_ok H' g) as Hold.
      { intros Hin Hne. apply (group_frame H); [by apply Hgs|done|done| |]; unfold ff_freq, ff_elems; by rewrite Hv, decide_False. }
      destruct Hg as [Hg|[->|Hg]].
      * apply Hold; [list_in|]. intros E. apply Hq1. rewrite <-E. by apply list_elem_of_fmap_2.
      * destruct (Hgs (Group fp f l)) as [Hgq Hge Hgn Hgf Hgl]; [list_in|]. cbn [gfp gfreq gnodes] in *.
        split; cbn [gfp gfreq gnodes]; try done.
        -- unfold ff_freq. by rewrite Hv, decide_True.
        -- unfold ff_elems in *. rewrite Hv, decide_True by done. by rewrite Hcf in Hge.
      * apply Hold; [list_in|]. intros E. apply Hq2. rewrite <-E. by apply list_elem_of_fmap_2.
    + rewrite fmap_app in *. eapply dll_frame; [exact Hch|]. intros y _. split; [|apply Hla]. unfold ff_smaller. rewrite Hv.
      case_decide; [subst; by rewrite Hcf|done].
    + rewrite fmap_app in *. done.
    + rewrite fmap_app in *. done.
    + apply (sorted_insert G1 G2 (Group fp f' l)); [by eapply sorted_delete|done|done].
    + eapply chain_frame; [exact Hcffn|]. intros y _. apply Hla.
  - split; unfold H'; view_simpl; try done. by rewrite zlen_zinsert.
Qed.

(** The frequencies around a group. *)
Lemma sorted_around (G1 : list group) g G2 :
  StronglySorted Z.lt (gfreq <$> G1 ++ g :: G2) →
  (∀ h, h ∈ G1 → gfreq h < gfreq g) ∧ ∀ h, h ∈ G2 → gfreq g < gfreq h.
Proof.
  induction G1 as [|h G1 IH]; simpl; intros Hs; apply StronglySorted_inv in Hs as [Hs Hh].
  - split; [by intros h ?%not_elem_of_nil|]. intros h Hh2. rewrite Forall_fmap, Forall_forall in Hh. by apply Hh.
  - destruct (IH Hs) as [IH1 IH2]. split; [|done]. intros h' [->|Hh']%elem_of_cons; [|by apply IH1].
    rewrite fmap_app in Hh. apply Forall_app in Hh as [_ Hh]. by apply Forall_cons in Hh as [? _].
Qed.

Definition next_freq (G : list group) (f : Z) : bool := match G with [] => false | g :: _ => gfreq g =? f end.

Lemma has_freq_first H G1 G2 fl fn ffn f :
  freq_core H (G1 ++ G2) fl fn ffn → has_freq H (first_or (-1) (gfp <$> G2)) f = Ok (next_freq G2 f).
Proof.
  intros Hc. destruct G2 as [|g G2]; [done|]. change (first_or (-1) (gfp <$> g :: G2)) with (gfp g). unfold has_freq.
  destruct (core_ff _ _ _ _ _ g Hc) as (c & Hcf & Hcq & _); [list_in|]. pose proof (zlookup_range _ _ _ Hcf).
  destruct (Z.eqb_spec (gfp g) (-1)); [lia|]. rewrite (vget_ok _ _ _ Hcf). cbn [rbind]. by rewrite Hcq.
Qed.

Lemma has_freq_last H G1 G2 fl fn ffn f :
  freq_core H (G1 ++ G2) fl fn ffn → has_freq H (last_or (-1) (gfp <$> G1)) f = Ok (next_freq (reverse G1) f).
Proof.
  intros Hc. destruct G1 as [|g G1 _] using rev_ind; [done|]. rewrite fmap_app. simpl. rewrite last_or_snoc, reverse_snoc. unfold has_freq.
  destruct (core_ff _ _ _ _ _ g Hc) as (c & Hcf & Hcq & _); [list_in|]. pose proof (zlookup_range _ _ _ Hcf).
  destruct (Z.eqb_spec (gfp g) (-1)); [lia|]. rewrite (vget_ok _ _ _ Hcf). cbn [rbind]. by rewrite Hcq.
Qed.

(** The cell of a group and its neighbours. *)
Lemma group_cell H G1 g G2 fl fn ffn : freq_core H (G1 ++ g :: G2) fl fn ffn →
  ∃ c, hff H !z gfp g = Some c ∧ ffreq c = gfreq g ∧ flarger c = first_or (-1) (gfp <$> G2) ∧ fsmaller c = last_or (-1) (gfp <$> G1).
Proof.
  intros Hc. destruct (core_ff _ _ _ _ _ g Hc) as (c & Hcf & Hcq & _); [list_in|]. exists c.
  pose proof (fc_chain _ _ _ _ _ Hc) as Hch. rewrite fmap_app, fmap_cons in Hch. apply dll_at in Hch as [Hs Hl]. unfold ff_smaller, ff_larger in *.
  rewrite Hcf in Hs, Hl. cbn [fmap option_fmap option_map] in Hs, Hl. injection Hs as Hs. injection Hl as Hl. done.
Qed.

Lemma nonempty_app G1 g G2 : Forall (λ g, gnodes g ≠ []) (G1 ++ g :: G2) →
  Forall (λ g, gnodes g ≠ []) G1 ∧ Forall (λ g, gnodes g ≠ []) G2.
Proof. by intros [? [_ ?]%Forall_cons]%Forall_app. Qed.

(** Take node [x] out of its list: the common first part. *)
Lemma detach_wp H G1 fp f l x k G2 fn ffn (K : Theap → res Theap) Q :
  freq_core H (G1 ++ Group fp f (l ++ x :: k) :: G2) [] fn ffn →
  (∀ H', freq_core H' (G1 ++ Group fp f (l ++ k) :: G2) [x] fn ffn → same_rest H H' → node_prev H' x = Some (-1) → wp (K H') Q) →
  wp (let* H := unlink_node x fp H in let* H := upd_node x (set_prev (-1)) H in K H) Q.
Proof.
  intros Hc HK. assert (group_ok H (Group fp f (l ++ x :: k))) as Hg by (apply (fc_groups _ _ _ _ _ Hc); list_in).
  pose proof (core_nodes_NoDup _ _ _ _ _ Hc) as Hnd. rewrite all_nodes_app, all_nodes_cons, <-!app_assoc in Hnd.
  apply NoDup_app in Hnd as (_ & _ & Hnd). apply NoDup_app in Hnd as (Hnd & _). cbn [gnodes] in Hnd.
  apply wp_bind. eapply wp_mono; [apply (unlink_node_spec H fp f l x k Hg Hnd)|].
  { intros y Hy. apply (core_node_range _ _ _ _ _ Hc). rewrite all_nodes_app, all_nodes_cons. cbn [gnodes]. rewrite !(elem_of_app _ _ y) in *. tauto. }
  intros H1 Hun. pose proof (unlink_core _ _ _ _ _ _ _ _ _ _ _ _ Hc Hun) as Hc1.
  destruct (node_total H1 x) as [nx Hnx]; [apply (core_node_range _ _ _ _ _ Hc1); list_in|].
  apply wp_bind. eapply wp_upd_node; [exact Hnx|].
  destruct (core_flight _ _ _ _ _ _ nx (set_prev (-1) nx) Hc1 Hnx) as [Hc2 Hr2]. specialize (Hr2 eq_refl).
  apply HK; [exact Hc2|etrans; [apply Hun|done]|]. view_simpl.
  rewrite zlookup_zinsert by (by eapply zlookup_range). by rewrite decide_True.
Qed.

(** Dropping the old group at the end. *)
Lemma finish_move H G1 fp f l G2 x h fn ffn G :
  freq_core H (G1 ++ Group fp f l :: G2) [] fn ffn →
  Forall (λ g, gnodes g ≠ []) G1 → Forall (λ g, gnodes g ≠ []) G2 →
  regrouped x h G (G1 ++ Group fp f l :: G2) →
  wp (drop_if_empty fp H) (λ H', ∃ G' ffn', freq_ok H' G' fn ffn' ∧ same_rest H H' ∧ regrouped x h G G').
Proof.
  intros Hc Hne1 Hne2 Hre. eapply wp_mono; [by eapply drop_if_empty_spec|]. intros H' [Hr Hd]. destruct (decide (l = [])) as [->|Hl].
  - exists (G1 ++ G2), (fp :: ffn). split_and!; [split; [done|by apply Forall_app]|done|]. intros y h'. rewrite <-(Hre y h').
    rewrite !in_group_app, in_group_cons. cbn [gnodes]. pose proof (not_elem_of_nil y). tauto.
  - subst H'. exists (G1 ++ Group fp f l :: G2), ffn. split_and!; [split; [done|]|done|done]. apply Forall_app. split; [done|]. by constructor.
Qed.

Lemma node_facts H G1 fp f l x k G2 fl fn ffn :
  freq_core H (G1 ++ Group fp f (l ++ x :: k) :: G2) fl fn ffn →
  (∃ nx, hfreq H !z x = Some nx ∧ nprev nx = last_or (-1) l ∧ nnext nx = first_or (-1) k ∧ nfnode nx = fp) ∧
  (∀ h, ¬ in_group G1 x h) ∧ (∀ h, ¬ in_group G2 x h) ∧ (x ∉ l) ∧ (x ∉ k) ∧ (∀ y, y ∈ l ++ k → 0 ≤ y) ∧ sqrtu H ≤ f.
Proof.
  intros Hc. assert (group_ok H (Group fp f (l ++ x :: k))) as [_ _ Hdll Hgf Hbig] by (apply (fc_groups _ _ _ _ _ Hc); list_in).
  cbn [gfp gfreq gnodes] in *.
  assert (∀ y, y ∈ l ++ x :: k → 0 ≤ y < zlen (hfreq H)) as Hrange.
  { intros y Hy. apply (core_node_range _ _ _ _ _ Hc). rewrite all_nodes_app, all_nodes_cons. cbn [gnodes].
    rewrite !(elem_of_app _ _ y) in *. tauto. }
  pose proof (core_nodes_NoDup _ _ _ _ _ Hc) as Hnd. rewrite all_nodes_app, all_nodes_cons, <-!app_assoc in Hnd. cbn [gnodes] in Hnd.
  apply NoDup_app in Hnd as (_ & Hd1 & Hnd). apply NoDup_app in Hnd as (Hndl & Hd2 & _). destruct (head_last_mid _ _ _ Hndl) as (Hxl & Hxk & _).
  split_and!; try done.
  - destruct (node_total H x) as [nx Hnx]; [apply Hrange; list_in|]. exists nx. destruct (dll_at _ _ _ _ _ _ _ Hdll) as [HP HN].
    specialize (Hgf x ltac:(list_in)). unfold node_prev, node_next, node_fnode in *. rewrite Hnx in *. cbn in HP, HN, Hgf.
    injection HP as HP. injection HN as HN. injection Hgf as Hgf. done.
  - intros h Hx%in_group_nodes. apply (Hd1 x Hx). list_in.
  - intros h Hx%in_group_nodes. apply (Hd2 x); list_in.
  - intros y Hy. apply Hrange. rewrite elem_of_app in *. rewrite elem_of_cons. tauto.
Qed.

(** A new frequency node after [fp], for the node [x]. *)
Lemma alloc_after_wp H G1 fp f l G2 x q f' fn ffn (K : Theap → res Theap) Q :
  freq_core H (G1 ++ Group fp f l :: G2) [x] fn (q :: ffn) → node_prev H x = Some (-1) → f < f' →
  (∀ h, h ∈ G2 → f' < gfreq h) →
  (∀ H', freq_core H' (G1 ++ Group fp f l :: Group q f' [x] :: G2) [] fn ffn → same_rest H H' → wp (K H') Q) →
  wp (let* '(lfp, H) :=
        let lfp := freeff H in
        let* lf := vget (hff H) lfp in
        let H := set_freeff (flarger lf) H in
        let* H := upd_ff lfp (λ lf, THfreq f' (felems lf) (first_or (-1) (gfp <$> G2)) fp) H in
        let* H := link_right lfp (first_or (-1) (gfp <$> G2)) H in
        let* H := upd_ff fp (set_larger lfp) H in
        let* H := upd_node x (set_next (-1)) H in
        Ok (lfp, H) in
      let* H := upd_ff lfp (set_elems x) H in
      let* H := upd_node x (set_fnode lfp) H in K H) Q.
Proof.
  intros Hc Hpx Hlt Hhi HK. set (G0 := G1 ++ [Group fp f l]).
  assert (freq_core H (G0 ++ G2) [x] fn (q :: ffn)) as Hc0 by (unfold G0; by rewrite <-app_assoc).
  assert (sqrtu H ≤ f) as Hbig. { destruct (fc_groups _ _ _ _ _ Hc (Group fp f l)) as [_ _ _ _ ?]; [list_in|done]. }
  assert (∀ h, h ∈ G0 → gfreq h < f') as Hlo.
  { destruct (sorted_around _ _ _ (fc_sorted _ _ _ _ _ Hc)) as [Hlo _]. intros h [Hh|Hh]%elem_of_app.
    - specialize (Hlo h Hh). cbn in Hlo. lia.
    - apply list_elem_of_singleton in Hh as ->. done. }
  destruct (node_total H x) as [nx Hnx]; [apply (core_node_range _ _ _ _ _ Hc); list_in|].
  assert (nprev nx = -1) as Hp by (unfold node_prev in Hpx; rewrite Hnx in Hpx; by injection Hpx).
  destruct (free_ff _ _ _ _ _ _ _ _ Hc0) as (c & Hq & Hcl & Hfree). cbv zeta. rewrite Hfree, (vget_ok _ _ _ Hq). cbn [rbind]. rewrite Hcl.
  pose proof (zlookup_range _ _ _ Hq) as Hqr.
  destruct (alloc_cells _ _ _ _ _ _ _ _ Hc0 fp) as (Hfq & cf & Hcf); [unfold G0; rewrite fmap_app; cbn; list_in|].
  unfold upd_ff at 1. change (hff (set_freeff _ H)) with (hff H). rewrite (upd_ok _ _ _ _ Hq). cbn [rbind].
  set (k1 := zinsert (hff H) q _). assert (zlen k1 = zlen (hff H)) as Hk1 by apply zlen_zinsert.
  assert (last (gfp <$> G0) = Some fp) as HG0 by (unfold G0; rewrite fmap_app; apply last_snoc).
  cbn [freeff smallest largest set_freeff with_ff].
  change (with_ff (set_freeff ?a H) k1 ?b ?d ?e) with (with_ff H k1 a d e).
  destruct (wp_inv _ _ (link_right_spec H G0 G2 q x [] fn ffn Hc0 _ k1 (first_or (-1) ffn) (smallest H) (largest H)
    Hk1 eq_refl (fc_largest _ _ _ _ _ Hc0))) as (H2 & -> & k2 & -> & Hlen2 & Hk2).
  assert (k2 !z fp = Some cf) as Hf2.
  { rewrite Hk2. unfold k1. rewrite zlookup_zinsert, (decide_False (P := fp = q)) by done. rewrite decide_False; [done|].
    intros E. apply (alloc_disjoint _ _ _ _ _ _ _ _ Hc0 fp); [unfold G0; rewrite fmap_app; cbn; list_in|].
    destruct (gfp <$> G2); [done|]. injection E as ->. by left. }
  cbn [rbind]. unfold upd_ff at 1. change (hff (with_ff H k2 ?a ?b ?c)) with k2. rewrite (upd_ok _ _ _ _ Hf2). cbn [rbind].
  cbn [freeff smallest largest with_ff].
  change (with_ff (with_ff H ?a ?b ?c ?d) ?k ?b ?c ?d) with (with_ff H k b c d).
  pose proof (zlookup_range _ _ _ Hf2) as Hfr2.
  eapply (alloc_finish H G0 G2 q f' x nx [] fn ffn Hc0 Hnx Hp ltac:(lia) Hlo Hhi _ _ _ _ K (felems c)); [by rewrite zlen_zinsert, Hlen2| | |done|].
  - intros y. rewrite HG0. assert (last_or (-1) (gfp <$> G0) = fp) as -> by (unfold last_or; by rewrite HG0).
    assert (head (gfp <$> G2) ≠ Some q) as Hhq.
    { intros E. destruct (alloc_cells _ _ _ _ _ _ _ _ Hc0 q) as [? _]; [|done]. destruct (gfp <$> G2); [done|]. injection E as ->. list_in. }
    rewrite zlookup_zinsert by done. destruct (decide (y = fp)) as [->|].
    + rewrite (decide_False (P := fp = q)) by done. assert (head (gfp <$> G2) ≠ Some fp) as Hhf.
      { intros E. apply (alloc_disjoint _ _ _ _ _ _ _ _ Hc0 fp); [unfold G0; rewrite fmap_app; cbn; list_in|].
        destruct (gfp <$> G2); [done|]. injection E as ->. by left. }
      by rewrite (decide_False (P := head _ = _)), decide_True, Hcf by done.
    + rewrite (decide_False (P := Some fp = Some y)) by congruence. rewrite Hk2. unfold k1. rewrite zlookup_zinsert by done.
      destruct (decide (y = q)) as [->|]; [by rewrite decide_False|done].
  - rewrite (fc_smallest _ _ _ _ _ Hc0), fmap_app, first_or_app. unfold G0. rewrite fmap_app. by destruct (gfp <$> G1).
  - intros H' Hc' Hr'. apply HK; [|done]. unfold G0 in Hc'. by rewrite <-app_assoc in Hc'.
Qed.

(** Goals [regrouped x f G G'] for explicit groups. *)
Ltac regroup :=
  intros ?y ?h; case_decide; subst;
  rewrite ?in_group_app, ?in_group_cons, ?in_group_app, ?in_group_cons; cbn [gnodes gfreq app];
  rewrite ?elem_of_app, ?elem_of_cons, ?list_elem_of_singleton, ?elem_of_nil;
  [split; [|intros ->]; intuition (first [done | lia | exfalso; eauto])|tauto].

Lemma inc_frequent_spec H G fn q ffn x f :
  freq_ok H G fn (q :: ffn) → in_group G x f →
  wp (inc_frequent x (f + 1) H) (λ H', ∃ G' ffn', freq_ok H' G' fn ffn' ∧ same_rest H H' ∧ regrouped x (f + 1) G G').
Proof.
  intros [Hc Hne] (g & Hg & Hx & Hf). apply list_elem_of_split in Hg as (G1 & G2 & ->). destruct g as [fp f' nodes]. cbn [gnodes gfreq] in *. subst f'.
  apply list_elem_of_split in Hx as (l & k & ->). destruct (nonempty_app _ _ _ Hne) as [Hne1 Hne2].
  destruct (group_cell _ _ _ _ _ _ _ Hc) as (c & Hcf & Hcq & Hcl & Hcs). cbn [gfp gfreq] in *.
  destruct (node_facts _ _ _ _ _ _ _ _ _ _ _ Hc) as ((nx & Hnx & HP & HN & Hfn) & HxG1 & HxG2 & Hxl & Hxk & Hnn & Hbig).
  destruct (sorted_around _ _ _ (fc_sorted _ _ _ _ _ Hc)) as [Hlo Hhi]. cbn [gfreq] in Hlo, Hhi.
  assert (∀ H' nodes fl ffn, freq_core H' (G1 ++ Group fp f nodes :: G2) fl fn ffn →
    has_freq H' (first_or (-1) (gfp <$> G2)) (f + 1) = Ok (next_freq G2 (f + 1))) as Hhas.
  { intros H' nodes fl' ffn' Hc'. apply (has_freq_first H' (G1 ++ [Group fp f nodes]) G2 fl' fn ffn'). by rewrite <-app_assoc. }
  unfold inc_frequent. rewrite (vget_ok _ _ _ Hnx). cbn [rbind]. rewrite Hfn, (vget_ok _ _ _ Hcf). cbn [rbind]. rewrite Hcl, (Hhas _ _ _ _ Hc). cbn [rbind].
  assert (next_freq G2 (f + 1) = false → ∀ h, h ∈ G2 → f + 1 < gfreq h) as Hhi'.
  { intros Hnf h Hh. destruct G2 as [|g G2]; [by apply not_elem_of_nil in Hh|]. cbn in Hnf. apply Z.eqb_neq in Hnf.
    pose proof (Hhi g ltac:(by left)). apply elem_of_cons in Hh as [->|Hh]; [lia|].
    pose proof (fc_sorted _ _ _ _ _ Hc) as Hso. change (G1 ++ Group fp f (l ++ x :: k) :: g :: G2) with (G1 ++ [Group fp f (l ++ x :: k)] ++ g :: G2) in Hso.
    rewrite app_assoc in Hso. destruct (sorted_around _ _ _ Hso) as [_ Hg2]. specialize (Hg2 h Hh). lia. }
  destruct ((nprev nx =? -1) && (nnext nx =? -1) && negb (next_freq G2 (f + 1))) eqn:Hsimple.
  { apply andb_true_iff in Hsimple as [[Hp%Z.eqb_eq Hn%Z.eqb_eq]%andb_true_iff Hnf%negb_true_iff]. rewrite HP in Hp. rewrite HN in Hn.
    assert (l = []) as ->.
    { destruct l as [|w l _] using rev_ind; [done|]. rewrite last_or_snoc in Hp. specialize (Hnn w ltac:(list_in)). lia. }
    assert (k = []) as ->. { destruct k as [|w k]; [done|]. change (w = -1) in Hn. specialize (Hnn w ltac:(list_in)). lia. }
    eapply wp_upd_ff; [exact Hcf|]. destruct (core_refreq _ _ _ _ _ _ _ _ _ c (f + 1) Hc Hcf) as [Hc' Hr']; [lia| |by apply Hhi'|].
    { intros h Hh. specialize (Hlo h Hh). lia. }
    exists (G1 ++ Group fp (f + 1) [x] :: G2), (q :: ffn). split_and!; [split; [exact Hc'|]|exact Hr'|regroup].
    apply Forall_app. split; [done|]. by constructor. }
  eapply (detach_wp H G1 fp f l x k G2); [exact Hc|]. intros H1 Hc1 Hr1 Hp1.
  destruct (group_cell _ _ _ _ _ _ _ Hc1) as (c1 & Hcf1 & Hcq1 & Hcl1 & Hcs1). cbn [gfp gfreq] in *.
  rewrite (vget_ok _ _ _ Hcf1). cbn [rbind]. rewrite Hcl1, (Hhas _ _ _ _ Hc1). cbn [rbind].
  destruct (next_freq G2 (f + 1)) eqn:Hnf.
  - destruct G2 as [|[fp2 f2 l2] G3]; [done|]. cbn in Hnf. apply Z.eqb_eq in Hnf as ->.
    change (first_or (-1) (gfp <$> Group fp2 (f + 1) l2 :: G3)) with fp2. apply Forall_cons in Hne2 as [Hl2 Hne3]. cbn in Hl2.
    apply (attach_wp H1 (G1 ++ [Group fp f (l ++ k)]) fp2 (f + 1) l2 G3 x [] fn (q :: ffn)); [by rewrite <-app_assoc|done|done|].
    intros H2 Hc2 Hr2. rewrite <-app_assoc in Hc2. eapply wp_mono.
    { eapply (finish_move H2 G1 fp f (l ++ k) (Group fp2 (f + 1) (x :: l2) :: G3) x (f + 1)); [exact Hc2|done|by constructor|].
      instantiate (1 := G1 ++ Group fp f (l ++ x :: k) :: Group fp2 (f + 1) l2 :: G3).
      assert (x ∉ l2). { intros Hx. apply (HxG2 (f + 1)). exists (Group fp2 (f + 1) l2). split_and!; [by left|done..]. }
      assert (∀ h, ¬ in_group G3 x h). { intros h Hh. apply (HxG2 h). rewrite in_group_cons. by right. }
      regroup. }
    intros H3 (G' & ffn' & Hok & Hr3 & Hre). exists G', ffn'. split_and!; [done| |done]. by rewrite Hr1, Hr2.
  - eapply (alloc_after_wp H1 G1 fp f (l ++ k) G2 x q (f + 1) fn ffn); [exact Hc1|done|lia|by apply Hhi'|].
    intros H2 Hc2 Hr2. eapply wp_mono.
    { eapply (finish_move H2 G1 fp f (l ++ k) (Group q (f + 1) [x] :: G2) x (f + 1)); [exact Hc2|done|by constructor|].
      instantiate (1 := G1 ++ Group fp f (l ++ x :: k) :: G2). regroup. }
    intros H3 (G' & ffn' & Hok & Hr3 & Hre). exists G', ffn'. split_and!; [done| |done]. by rewrite Hr1, Hr2.
Qed.

(** A new frequency node before [fp], for the node [x]. *)
Lemma alloc_before_wp H G1 fp f l G2 x q f' fn ffn (K : Theap → res Theap) Q :
  freq_core H (G1 ++ Group fp f l :: G2) [x] fn (q :: ffn) → node_prev H x = Some (-1) → sqrtu H ≤ f' < f →
  (∀ h, h ∈ G1 → gfreq h < f') →
  (∀ H', freq_core H' (G1 ++ Group q f' [x] :: Group fp f l :: G2) [] fn ffn → same_rest H H' → wp (K H') Q) →
  wp (let* '(sfp, H) :=
        let sfp := freeff H in
        let* sf := vget (hff H) sfp in
        let H := set_freeff (flarger sf) H in
        let* H := upd_ff sfp (λ sf, THfreq f' (felems sf) fp (last_or (-1) (gfp <$> G1))) H in
        let* H := link_left sfp (last_or (-1) (gfp <$> G1)) H in
        let* H := upd_ff fp (set_smaller sfp) H in
        let* H := upd_node x (set_next (-1)) H in
        Ok (sfp, H) in
      let* H := upd_ff sfp (set_elems x) H in
      let* H := upd_node x (set_fnode sfp) H in K H) Q.
Proof.
  intros Hc Hpx Hlt Hlo HK. set (G0 := Group fp f l :: G2) in *.
  assert (∀ h, h ∈ G0 → f' < gfreq h) as Hhi.
  { destruct (sorted_around _ _ _ (fc_sorted _ _ _ _ _ Hc)) as [_ Hhi]. intros h [->|Hh]%elem_of_cons; [cbn; lia|].
    specialize (Hhi h Hh). cbn in Hhi. lia. }
  destruct (node_total H x) as [nx Hnx]; [apply (core_node_range _ _ _ _ _ Hc); list_in|].
  assert (nprev nx = -1) as Hp by (unfold node_prev in Hpx; rewrite Hnx in Hpx; by injection Hpx).
  destruct (free_ff _ _ _ _ _ _ _ _ Hc) as (c & Hq & Hcl & Hfree). cbv zeta. rewrite Hfree, (vget_ok _ _ _ Hq). cbn [rbind]. rewrite Hcl.
  pose proof (zlookup_range _ _ _ Hq) as Hqr.
  destruct (alloc_cells _ _ _ _ _ _ _ _ Hc fp) as (Hfq & cf & Hcf); [cbn; list_in|].
  unfold upd_ff at 1. change (hff (set_freeff _ H)) with (hff H). rewrite (upd_ok _ _ _ _ Hq). cbn [rbind].
  set (k1 := zinsert (hff H) q _). assert (zlen k1 = zlen (hff H)) as Hk1 by apply zlen_zinsert.
  cbn [freeff smallest largest set_freeff with_ff].
  change (with_ff (set_freeff ?a H) k1 ?b ?d ?e) with (with_ff H k1 a d e).
  destruct (wp_inv _ _ (link_left_spec H G1 G0 q x [] fn ffn Hc _ k1 (first_or (-1) ffn) (smallest H) (largest H)
    Hk1 eq_refl (fc_smallest _ _ _ _ _ Hc))) as (H2 & -> & k2 & -> & Hlen2 & Hk2).
  assert (last (gfp <$> G1) ≠ Some fp) as Hlf.
  { intros E. rewrite last_lookup in E. apply list_elem_of_lookup_2 in E.
    apply (alloc_disjoint _ _ _ _ _ _ _ _ Hc fp E). cbn. by left. }
  assert (k2 !z fp = Some cf) as Hf2.
  { rewrite Hk2. unfold k1. rewrite zlookup_zinsert, (decide_False (P := fp = q)) by done. by rewrite decide_False. }
  cbn [rbind]. unfold upd_ff at 1. change (hff (with_ff H k2 ?a ?b ?c)) with k2. rewrite (upd_ok _ _ _ _ Hf2). cbn [rbind].
  cbn [freeff smallest largest with_ff].
  change (with_ff (with_ff H ?a ?b ?c ?d) ?k ?b ?c ?d) with (with_ff H k b c d).
  pose proof (zlookup_range _ _ _ Hf2) as Hfr2.
  eapply (alloc_finish H G1 G0 q f' x nx [] fn ffn Hc Hnx Hp ltac:(lia) Hlo Hhi _ _ _ _ K (felems c)); [by rewrite zlen_zinsert, Hlen2| |done| |done].
  - intros y. change (first_or (-1) (gfp <$> G0)) with fp. change (head (gfp <$> G0)) with (Some fp).
    assert (last (gfp <$> G1) ≠ Some q) as Hlq.
    { intros E. rewrite last_lookup in E. apply list_elem_of_lookup_2 in E.
      destruct (alloc_cells _ _ _ _ _ _ _ _ Hc q) as [? _]; [list_in|done]. }
    rewrite zlookup_zinsert by done. destruct (decide (y = fp)) as [->|].
    + by rewrite (decide_False (P := fp = q)), decide_True, Hcf by done.
    + rewrite (decide_False (P := Some fp = Some y)) by congruence. rewrite Hk2. unfold k1. rewrite zlookup_zinsert by done.
      destruct (decide (y = q)) as [->|]; [by rewrite decide_False|done].
  - rewrite (fc_largest _ _ _ _ _ Hc), fmap_app. cbn. by rewrite last_or_mid, last_or_cons.
Qed.

Lemma dec_frequent_spec H G fn q ffn x f :
  freq_ok H G fn (q :: ffn) → in_group G x f → sqrtu H < f →
  wp (dec_frequent x (f - 1) H) (λ H', ∃ G' ffn', freq_ok H' G' fn ffn' ∧ same_rest H H' ∧ regrouped x (f - 1) G G').
Proof.
  intros [Hc Hne] (g & Hg & Hx & Hf) Hgt. apply list_elem_of_split in Hg as (G1 & G2 & ->). destruct g as [fp f' nodes]. cbn [gnodes gfreq] in *. subst f'.
  apply list_elem_of_split in Hx as (l & k & ->). destruct (nonempty_app _ _ _ Hne) as [Hne1 Hne2].
  destruct (group_cell _ _ _ _ _ _ _ Hc) as (c & Hcf & Hcq & Hcl & Hcs). cbn [gfp gfreq] in *.
  destruct (node_facts _ _ _ _ _ _ _ _ _ _ _ Hc) as ((nx & Hnx & HP & HN & Hfn) & HxG1 & HxG2 & Hxl & Hxk & Hnn & Hbig).
  destruct (sorted_around _ _ _ (fc_sorted _ _ _ _ _ Hc)) as [Hlo Hhi]. cbn [gfreq] in Hlo, Hhi.
  unfold dec_frequent. rewrite (vget_ok _ _ _ Hnx). cbn [rbind]. rewrite Hfn, (vget_ok _ _ _ Hcf). cbn [rbind].
  rewrite Hcs, (has_freq_last _ _ _ _ _ _ _ Hc). cbn [rbind].
  assert (next_freq (reverse G1) (f - 1) = false → ∀ h, h ∈ G1 → gfreq h < f - 1) as Hlo'.
  { intros Hnf h Hh. destruct G1 as [|g G1 _] using rev_ind; [by apply not_elem_of_nil in Hh|]. rewrite reverse_snoc in Hnf. cbn in Hnf.
    apply Z.eqb_neq in Hnf. pose proof (Hlo g ltac:(list_in)). apply elem_of_app in Hh as [Hh|Hh]; [|apply list_elem_of_singleton in Hh as ->; lia].
    pose proof (fc_sorted _ _ _ _ _ Hc) as Hso. rewrite <-app_assoc in Hso. cbn [app] in Hso.
    destruct (sorted_around _ _ _ Hso) as [Hg1 _]. specialize (Hg1 h Hh). lia. }
  destruct ((nprev nx =? -1) && (nnext nx =? -1) && negb (next_freq (reverse G1) (f - 1))) eqn:Hsimple.
  { apply andb_true_iff in Hsimple as [[Hp%Z.eqb_eq Hn%Z.eqb_eq]%andb_true_iff Hnf%negb_true_iff]. rewrite HP in Hp. rewrite HN in Hn.
    assert (l = []) as ->.
    { destruct l as [|w l _] using rev_ind; [done|]. rewrite last_or_snoc in Hp. specialize (Hnn w ltac:(list_in)). lia. }
    assert (k = []) as ->. { destruct k as [|w k]; [done|]. change (w = -1) in Hn. specialize (Hnn w ltac:(list_in)). lia. }
    eapply wp_upd_ff; [exact Hcf|]. destruct (core_refreq _ _ _ _ _ _ _ _ _ c (f - 1) Hc Hcf) as [Hc' Hr']; [lia|by apply Hlo'| |].
    { intros h Hh. specialize (Hhi h Hh). lia. }
    exists (G1 ++ Group fp (f - 1) [x] :: G2), (q :: ffn). split_and!; [split; [exact Hc'|]|exact Hr'|regroup].
    apply Forall_app. split; [done|]. by constructor. }
  eapply (detach_wp H G1 fp f l x k G2); [exact Hc|]. intros H1 Hc1 Hr1 Hp1.
  destruct (group_cell _ _ _ _ _ _ _ Hc1) as (c1 & Hcf1 & Hcq1 & Hcl1 & Hcs1). cbn [gfp gfreq] in *.
  rewrite (vget_ok _ _ _ Hcf1). cbn [rbind]. rewrite Hcs1, (has_freq_last _ _ _ _ _ _ _ Hc1). cbn [rbind].
  destruct (next_freq (reverse G1) (f - 1)) eqn:Hnf.
  - destruct G1 as [|[fp2 f2 l2] G3 _] using rev_ind; [done|]. rewrite reverse_snoc in Hnf. cbn in Hnf. apply Z.eqb_eq in Hnf as ->.
    rewrite fmap_app. cbn [fmap list_fmap gfp]. rewrite last_or_snoc. apply Forall_app in Hne1 as [Hne3 Hl2%Forall_inv]. cbn in Hl2.
    rewrite <-app_assoc in Hc1. cbn [app] in Hc1.
    apply (attach_wp H1 G3 fp2 (f - 1) l2 (Group fp f (l ++ k) :: G2) x [] fn (q :: ffn)); [done..|].
    intros H2 Hc2 Hr2. eapply wp_mono.
    { eapply (finish_move H2 (G3 ++ [Group fp2 (f - 1) (x :: l2)]) fp f (l ++ k) G2 x (f - 1)); [by rewrite <-app_assoc| |done|].
      { apply Forall_app. split; [done|]. by constructor. }
      instantiate (1 := (G3 ++ [Group fp2 (f - 1) l2]) ++ Group fp f (l ++ x :: k) :: G2).
      assert (x ∉ l2). { intros Hx. apply (HxG1 (f - 1)). exists (Group fp2 (f - 1) l2). split_and!; [list_in|done..]. }
      assert (∀ h, ¬ in_group G3 x h). { intros h Hh. apply (HxG1 h). rewrite in_group_app. by left. }
      rewrite <-!app_assoc. cbn [app]. regroup. }
    intros H3 (G' & ffn' & Hok & Hr3 & Hre). exists G', ffn'. split_and!; [done| |done]. by rewrite Hr1, Hr2.
  - eapply (alloc_before_wp H1 G1 fp f (l ++ k) G2 x q (f - 1) fn ffn); [exact Hc1|done|rewrite (sr_sqrtu _ _ Hr1); lia|by apply Hlo'|].
    intros H2 Hc2 Hr2. eapply wp_mono.
    { eapply (finish_move H2 (G1 ++ [Group q (f - 1) [x]]) fp f (l ++ k) G2 x (f - 1)); [by rewrite <-app_assoc| |done|].
      { apply Forall_app. split; [done|]. by constructor. }
      instantiate (1 := G1 ++ Group fp f (l ++ x :: k) :: G2). rewrite <-app_assoc. cbn [app]. regroup. }
    intros H3 (G' & ffn' & Hok & Hr3 & Hre). exists G', ffn'. split_and!; [done| |done]. by rewrite Hr1, Hr2.
Qed.

(** ** Leaving the frequent part *)

Definition ungrouped (x : Z) (G G' : list group) : Prop := ∀ y h, in_group G' y h ↔ y ≠ x ∧ in_group G y h.

(** A node in no list becomes unused. *)
Lemma core_release H G x fl fn ffn nx :
  freq_core H G (x :: fl) fn ffn → hfreq H !z x = Some nx →
  let H' := set_freef x (with_nodes H (zinsert (hfreq H) x (set_next (freef H) nx)) (freef H)) in
  freq_core H' G fl (x :: fn) ffn ∧ same_rest H H'.
Proof.
  intros Hc Hnx H'. destruct (core_flight _ _ _ _ _ _ nx (set_next (freef H) nx) Hc Hnx) as [Hc1 Hr1]. specialize (Hr1 eq_refl).
  split; [|etrans; [exact Hr1|by split]]. destruct Hc1 as [Hcn Hcf Hlh Hlf Hgs Hch Hcs Hcl Hso Hcfr Hcfrr Hcfn Hcffn].
  split; try done.
  - change (sqrtu H') with (sqrtu H). change (sqrtu (with_nodes H _ _)) with (sqrtu H) in Hcn. rewrite <-Hcn.
    apply Permutation_app_head. cbn. by rewrite Permutation_middle.
  - intros g Hg. by destruct (Hgs g Hg).
  - split; [|done]. unfold H'. view_simpl. rewrite zlookup_zinsert by (by eapply zlookup_range). rewrite decide_True by done. cbn.
    f_equal. apply (fc_freef _ _ _ _ _ Hc).
Qed.

(** Dropping the group of the node that left. *)
Lemma finish_leave H G1 fp f l G2 x fl fn ffn G :
  freq_core H (G1 ++ Group fp f l :: G2) fl fn ffn →
  Forall (λ g, gnodes g ≠ []) G1 → Forall (λ g, gnodes g ≠ []) G2 → ungrouped x G (G1 ++ Group fp f l :: G2) →
  wp (drop_if_empty fp H) (λ H', ∃ G' ffn', freq_core H' G' fl fn ffn' ∧ Forall (λ g, gnodes g ≠ []) G' ∧ same_rest H H' ∧ ungrouped x G G').
Proof.
  intros Hc Hne1 Hne2 Hre. eapply wp_mono; [by eapply drop_if_empty_spec|]. intros H' [Hr Hd]. destruct (decide (l = [])) as [->|Hl].
  - exists (G1 ++ G2), (fp :: ffn). split_and!; [done|by apply Forall_app|done|]. intros y h'. rewrite <-(Hre y h').
    rewrite !in_group_app, in_group_cons. cbn [gnodes]. pose proof (not_elem_of_nil y). tauto.
  - subst H'. exists (G1 ++ Group fp f l :: G2), ffn. split_and!; [done| |done|done]. apply Forall_app. split; [done|]. by constructor.
Qed.

Ltac ungroup x :=
  let y := fresh "y" in
  intros y ?h; cbn [app]; rewrite ?in_group_app, ?in_group_cons; cbn [gnodes gfreq app];
  rewrite ?elem_of_app, ?elem_of_cons; destruct (decide (y = x)) as [->|]; [|tauto]; split; [|by intros [? _]];
  intuition (exfalso; eauto).

(** The end of [leave_frequent] is [drop_if_empty] for the first group. *)
Lemma leave_drop fp H c :
  hff H !z fp = Some c → fsmaller c = -1 →
  (let* f := vget (hff H) fp in
   if negb (felems f =? -1) then Ok H else
   let H := set_smallest (flarger f) H in
   let* H := if flarger f =? -1 then Ok (set_largest (-1) H) else upd_ff (flarger f) (set_smaller (-1)) H in
   let* H := upd_ff fp (set_larger (freeff H)) H in
   Ok (set_freeff fp H)) = drop_if_empty fp H.
Proof.
  intros Hc Hs. unfold drop_if_empty. rewrite (vget_ok _ _ _ Hc). cbn [rbind]. rewrite Hs. cbn [Z.eqb Pos.eqb rbind].
  change (hff (set_smallest _ H)) with (hff H). rewrite (vget_ok _ _ _ Hc). cbn [rbind]. by rewrite Hs.
Qed.

Lemma leave_frequent_spec H G fn ffn x :
  freq_ok H G fn ffn → in_group G x (sqrtu H) →
  wp (leave_frequent x H) (λ H', ∃ G' ffn', freq_ok H' G' (x :: fn) ffn' ∧ same_rest H H' ∧ ungrouped x G G').
Proof.
  intros [Hc Hne] (g & Hg & Hx & Hf). apply list_elem_of_split in Hg as (G1 & G2 & ->). destruct g as [fp f nodes]. cbn [gnodes gfreq] in *. subst f.
  apply list_elem_of_split in Hx as (l & k & ->). destruct (nonempty_app _ _ _ Hne) as [Hne1 Hne2].
  assert (G1 = []) as ->.
  { destruct G1 as [|g G1]; [done|]. destruct (sorted_around _ _ _ (fc_sorted _ _ _ _ _ Hc)) as [Hlo _].
    specialize (Hlo g ltac:(by left)). cbn in Hlo. destruct (fc_groups _ _ _ _ _ Hc g) as [_ _ _ _ ?]; [by left|]. lia. }
  destruct (node_facts _ _ _ _ _ _ _ _ _ _ _ Hc) as ((nx & Hnx & HP & HN & Hfn) & HxG1 & HxG2 & Hxl & Hxk & Hnn & Hbig).
  unfold leave_frequent. rewrite (vget_ok _ _ _ Hnx). cbn [rbind]. rewrite Hfn.
  assert (group_ok H (Group fp (sqrtu H) (l ++ x :: k))) as Hg by (apply (fc_groups _ _ _ _ _ Hc); list_in).
  pose proof (core_nodes_NoDup _ _ _ _ _ Hc) as Hnd. cbn [app] in Hnd. rewrite all_nodes_cons, <-!app_assoc in Hnd.
  apply NoDup_app in Hnd as (Hnd & _). cbn [gnodes] in Hnd.
  apply wp_bind. eapply wp_mono; [apply (unlink_node_spec H fp _ l x k Hg Hnd)|].
  { intros y Hy. apply (core_node_range _ _ _ _ _ Hc). cbn [app]. rewrite all_nodes_cons. cbn [gnodes]. rewrite !(elem_of_app _ _ y) in *. tauto. }
  intros H1 Hun. pose proof (unlink_core _ _ _ _ _ _ _ _ _ _ _ _ Hc Hun) as Hc1.
  destruct (node_total H1 x) as [nx1 Hnx1]; [apply (core_node_range _ _ _ _ _ Hc1); list_in|].
  apply wp_bind. eapply wp_upd_node; [exact Hnx1|]. destruct (core_release _ _ _ _ _ _ _ Hc1 Hnx1) as [Hc2 Hr2].
  cbv zeta. set (H2 := set_freef x _) in *. destruct (group_cell _ _ _ _ _ _ _ Hc2) as (c2 & Hcf2 & Hcq2 & Hcl2 & Hcs2). cbn [gfp] in *.
  pose proof (leave_drop fp H2 c2 Hcf2 Hcs2) as Hdrop. cbv zeta in Hdrop. rewrite Hdrop. eapply wp_mono.
  { eapply (finish_leave H2 [] fp (sqrtu H) (l ++ k) G2 x); [exact Hc2|done|done|].
    instantiate (1 := Group fp (sqrtu H) (l ++ x :: k) :: G2). ungroup x. }
  intros H3 (G' & ffn' & Hok & Hne' & Hr3 & Hre). exists G', ffn'. split_and!; [done| |done]. etrans; [apply Hun|]. by rewrite Hr2.
Qed.

(** ** Taking a node of the largest frequency *)

(** The frequent branch of [extractMax]. *)
Definition take_largest (H : Theap) : res (Z * Theap) :=
  let fp := largest H in
  let* f := vget (hff H) fp in
  let hpos := felems f in
  let* p := vget (hfreq H) hpos in
  let* H := upd_ff fp (set_elems (nnext p)) H in
  let* H :=
    if nnext p =? -1 then
      let H := set_largest (fsmaller f) H in
      let* H := if fsmaller f =? -1 then Ok (set_smallest (-1) H)
                else upd_ff (fsmaller f) (set_larger (-1)) H in
      let* H := upd_ff fp (set_larger (freeff H)) H in
      Ok (set_freeff fp H)
    else upd_node (nnext p) (set_prev (-1)) H in
  let* H := upd_node hpos (set_next (freef H)) H in
  Ok (nid p, set_freef hpos H).

(** For the last group, whose list became empty. *)
Lemma drop_last fp H c :
  hff H !z fp = Some c → felems c = -1 → flarger c = -1 → fsmaller c ≠ fp →
  (let H := set_largest (fsmaller c) H in
   let* H := if fsmaller c =? -1 then Ok (set_smallest (-1) H) else upd_ff (fsmaller c) (set_larger (-1)) H in
   let* H := upd_ff fp (set_larger (freeff H)) H in
   Ok (set_freeff fp H)) = drop_if_empty fp H.
Proof.
  intros Hc He Hl Hs. unfold drop_if_empty. rewrite (vget_ok _ _ _ Hc). cbn [rbind]. rewrite He, Hl. cbn [Z.eqb Pos.eqb negb].
  pose proof (zlookup_range _ _ _ Hc) as Hr. destruct (Z.eqb_spec (fsmaller c) (-1)) as [E|].
  - cbn [rbind]. change (hff (set_smallest _ H)) with (hff H). rewrite (vget_ok _ _ _ Hc). cbn [rbind]. by rewrite Hl.
  - unfold upd_ff at 1 3. change (hff (set_largest _ H)) with (hff H). destruct (upd (hff H) (fsmaller c) (set_larger (-1))) as [k|] eqn:Hk; [|done].
    cbn [rbind]. unfold upd in Hk. destruct (vget (hff H) (fsmaller c)) as [cs|] eqn:Hcs; [|done]. cbn [rbind] in Hk.
    assert (k !z fp = Some c) as Hkc.
    { destruct (hff H !z fsmaller c) as [cs'|] eqn:Hcs'.
      2: { unfold vget in Hcs. by rewrite Hcs' in Hcs. }
      pose proof (zlookup_range _ _ _ Hcs') as Hsr. rewrite vset_ok in Hk by done. injection Hk as <-.
      rewrite zlookup_zinsert by done. by rewrite decide_False. }
    cbn [hff with_ff]. rewrite (vget_ok _ _ _ Hkc). cbn [rbind]. rewrite Hl. done.
Qed.

Lemma take_largest_spec H G fn ffn :
  freq_ok H G fn ffn → G ≠ [] →
  wp (take_largest H) (λ '(id, H'), ∃ x f G' ffn', in_group G x f ∧ (∀ y h, in_group G y h → h ≤ f) ∧ node_id H x = Some id ∧
    freq_ok H' G' (x :: fn) ffn' ∧ same_rest H H' ∧ ungrouped x G G').
Proof.
  intros [Hc Hne] HG. destruct G as [|[fp f nodes] G1 _] using rev_ind; [done|]. clear HG.
  apply Forall_app in Hne as [Hne1 Hne2%Forall_inv]. cbn in Hne2. destruct nodes as [|x k]; [done|].
  destruct (group_cell _ _ _ _ _ _ _ Hc) as (c & Hcf & Hcq & Hcl & Hcs). cbn [gfp gfreq] in *.
  destruct (node_facts _ _ _ _ [] x k _ _ _ _ Hc) as ((nx & Hnx & HP & HN & Hfn) & HxG1 & HxG2 & Hxl & Hxk & Hnn & Hbig).
  assert (group_ok H (Group fp f (x :: k))) as Hg by (apply (fc_groups _ _ _ _ _ Hc); list_in).
  pose proof (core_nodes_NoDup _ _ _ _ _ Hc) as Hnd. rewrite all_nodes_app, all_nodes_cons, <-!app_assoc in Hnd.
  apply NoDup_app in Hnd as (_ & _ & Hnd). apply NoDup_app in Hnd as (Hnd & _). cbn [gnodes] in Hnd.
  assert (largest H = fp) as Hlg by (rewrite (fc_largest _ _ _ _ _ Hc), fmap_app; apply last_or_snoc).
  assert (felems c = x) as Hel. { destruct Hg as [_ He _ _ _]. cbn in He. unfold ff_elems in He. rewrite Hcf in He. by injection He. }
  pose proof (zlookup_range _ _ _ Hcf) as Hfpr.
  assert (take_largest H = let* H := unlink_node x fp H in let* H := drop_if_empty fp H in
    let* H := upd_node x (set_next (freef H)) H in Ok (nid nx, set_freef x H)) as ->.
  { unfold take_largest, unlink_node. rewrite Hlg, (vget_ok _ _ _ Hcf). cbn [rbind]. rewrite Hel, (vget_ok _ _ _ Hnx). cbn [rbind]. rewrite HP.
    cbn [last_or last default Z.eqb Pos.eqb]. unfold upd_ff at 1 4. rewrite (upd_ok _ _ _ _ Hcf). cbn [rbind].
    change (hfreq (with_ff H _ _ _ _)) with (hfreq H). rewrite (vget_ok _ _ _ Hnx). cbn [rbind].
    set (H1 := with_ff H _ _ _ _). assert (hff H1 !z fp = Some (set_elems (nnext nx) c)) as Hcf1.
    { unfold H1. cbn [hff with_ff]. rewrite zlookup_zinsert by done. by rewrite decide_True. }
    destruct (Z.eqb_spec (nnext nx) (-1)) as [E|E].
    - cbn [rbind]. pose proof (drop_last fp H1 _ Hcf1) as Hdl. cbn [set_elems fsmaller felems flarger] in Hdl. cbv zeta in *.
      rewrite Hdl; [done|done|done|]. rewrite Hcs. pose proof (core_ffs_NoDup _ _ _ _ _ Hc) as Hndf. rewrite fmap_app, <-app_assoc in Hndf.
      apply NoDup_app in Hndf as (_ & Hd & _). intros E2. apply (Hd fp); [|by left]. destruct (gfp <$> G1) as [|w l _] using rev_ind.
      + change (-1 = fp) in E2. lia.
      + rewrite last_or_snoc in E2. subst. list_in.
    - rewrite HP. destruct (upd_node (nnext nx) _ H1) as [H2|] eqn:E2; [|done]. cbn [rbind]. unfold drop_if_empty.
      assert (hff H2 = hff H1) as ->. { unfold upd_node in E2. destruct (upd _ _ _) as [k2|]; [|done]. by injection E2 as <-. }
      rewrite (vget_ok _ _ _ Hcf1). cbn [rbind set_elems felems]. destruct (Z.eqb_spec (nnext nx) (-1)); [done|]. done. }
  apply wp_bind. eapply wp_mono; [apply (unlink_node_spec H fp f [] x k Hg Hnd)|].
  { intros y Hy. apply (core_node_range _ _ _ _ _ Hc). rewrite all_nodes_app, all_nodes_cons. cbn [gnodes].
    change ([] ++ x :: k) with (x :: k) in Hy. rewrite !(elem_of_app _ _ y) in *. tauto. }
  intros H1 Hun. pose proof (unlink_core _ _ _ _ [] _ _ _ _ _ _ _ Hc Hun) as Hc1. cbn [app] in Hc1.
  apply wp_bind. eapply wp_mono.
  { eapply (finish_leave H1 G1 fp f k [] x); [exact Hc1|done|done|]. instantiate (1 := G1 ++ [Group fp f (x :: k)]). ungroup x. }
  intros H2 (G' & ffn' & Hc2 & Hne' & Hr2 & Hun2).
  destruct (node_total H2 x) as [nx2 Hnx2]; [apply (core_node_range _ _ _ _ _ Hc2); list_in|].
  apply wp_bind. eapply wp_upd_node; [exact Hnx2|]. destruct (core_release _ _ _ _ _ _ _ Hc2 Hnx2) as [Hc3 Hr3]. cbn [wp].
  exists x, f, G', ffn'. split_and!; [| | |done| |done].
  - exists (Group fp f (x :: k)). split_and!; [list_in|by left|done].
  - destruct (sorted_around _ _ _ (fc_sorted _ _ _ _ _ Hc)) as [Hlo _]. intros y h (g & [Hg'|Hg']%elem_of_app & _ & <-).
    + specialize (Hlo g Hg'). cbn in Hlo. lia.
    + by apply list_elem_of_singleton in Hg' as ->.
  - unfold node_id. by rewrite Hnx.
  - etrans; [apply Hun|]. by rewrite Hr2.
Qed.

(** ** Entering the frequent part *)

(** The first unused node is taken. *)
Lemma core_take_free H G x fn ffn :
  freq_core H G [] (x :: fn) ffn → freq_core (set_freef (first_or (-1) fn) H) G [x] fn ffn.
Proof.
  intros [Hcn Hcf Hlh Hlf Hgs Hch Hcs Hcl Hso Hcfr Hcfrr [_ Hcfn] Hcffn]. split; try done. intros g Hg. by destruct (Hgs g Hg).
Qed.

(** Node [x] gets the number [id]; otherwise as in [same_rest]. *)
Record id_set (x id : Z) (H H' : Theap) : Prop := {
  is_sqrtu : sqrtu H' = sqrtu H;
  is_infreq : infreq H' = infreq H;
  is_hmax : hmax H' = hmax H;
  is_id : ∀ y, node_id H' y = if decide (y = x) then Some id else node_id H y
}.

Lemma id_set_same x id H H' H'' : id_set x id H H' → same_rest H' H'' → id_set x id H H''.
Proof. intros [] []. split; [congruence..|]. intros y. by rewrite sr_id0. Qed.

(** A new first frequency node, for the node [x]. *)
Lemma alloc_first_wp {B} H G x q f fn ffn (K : Theap → res B) Q :
  freq_core H G [x] fn (q :: ffn) → node_prev H x = Some (-1) → sqrtu H ≤ f → (∀ h, h ∈ G → f < gfreq h) →
  (∀ H', freq_core H' (Group q f [x] :: G) [] fn ffn → same_rest H H' → wp (K H') Q) →
  wp (let* '(fp, H) :=
        let fp := freeff H in
        let* f0 := vget (hff H) fp in
        let H := set_freeff (flarger f0) H in
        let* H := upd_ff fp (λ f1, THfreq f (felems f1) (smallest H) (-1)) H in
        let* H := if smallest H =? -1 then Ok H else upd_ff (smallest H) (set_smaller fp) H in
        let H := set_smallest fp H in
        let H := if largest H =? -1 then set_largest fp H else H in
        let* H := upd_node x (set_next (-1)) H in
        Ok (fp, H) in
      let* H := upd_ff fp (set_elems x) H in
      let* H := upd_node x (set_fnode fp) H in K H) Q.
Proof.
  intros Hc Hpx Hbig Hhi HK. destruct (node_total H x) as [nx Hnx]; [apply (core_node_range _ _ _ _ _ Hc); list_in|].
  assert (nprev nx = -1) as Hp by (unfold node_prev in Hpx; rewrite Hnx in Hpx; by injection Hpx).
  destruct (free_ff H [] G q x [] fn ffn Hc) as (c & Hq & Hcl & Hfree). cbv zeta. rewrite Hfree, (vget_ok _ _ _ Hq). cbn [rbind]. rewrite Hcl.
  pose proof (zlookup_range _ _ _ Hq) as Hqr.
  unfold upd_ff at 1. change (hff (set_freeff _ H)) with (hff H). rewrite (upd_ok _ _ _ _ Hq). cbn [rbind].
  set (k1 := zinsert (hff H) q _). assert (zlen k1 = zlen (hff H)) as Hk1 by apply zlen_zinsert.
  cbn [freeff smallest largest set_freeff with_ff].
  change (with_ff (set_freeff ?a H) k1 ?b ?d ?e) with (with_ff H k1 a d e).
  destruct (wp_inv _ _ (link_right_spec H [] G q x [] fn ffn Hc _ k1 (first_or (-1) ffn) (smallest H) (largest H)
    Hk1 eq_refl (fc_largest _ _ _ _ _ Hc))) as (H2 & Hlink & k2 & -> & Hlen2 & Hk2).
  pose proof (fc_smallest _ _ _ _ _ Hc) as Hsm. pose proof (fc_largest _ _ _ _ _ Hc) as Hlg.
  match goal with |- wp (rbind ?m ?k) _ => assert (m =
    let* H := (if smallest H =? -1 then Ok (with_ff H k1 (first_or (-1) ffn) (smallest H) (largest H))
      else upd_ff (smallest H) (set_smaller q) (with_ff H k1 (first_or (-1) ffn) (smallest H) (largest H))) in
    let* H := upd_node x (set_next (-1)) (let H := set_smallest q H in if largest H =? -1 then set_largest q H else H) in Ok (q, H)) as -> by done end.
  assert ((let* H := (if smallest H =? -1 then Ok (with_ff H k1 (first_or (-1) ffn) (smallest H) (largest H))
      else upd_ff (smallest H) (set_smaller q) (with_ff H k1 (first_or (-1) ffn) (smallest H) (largest H))) in
      Ok (let H := set_smallest q H in if largest H =? -1 then set_largest q H else H)) =
      Ok (with_ff H k2 (first_or (-1) ffn) q (last_or q (gfp <$> G)))) as Hfront.
  { unfold link_right in Hlink. rewrite Hsm. cbn [app] in *. assert (∀ y, y ∈ gfp <$> G → 0 ≤ y) as Hnn.
    { intros y Hy. apply (core_ff_range _ _ _ _ _ Hc). list_in. }
    destruct (gfp <$> G) as [|z l] eqn:EG.
    - cbn in Hlink |- *. injection Hlink as Hk. rewrite Hlg. cbn. by rewrite <-Hk.
    - change (first_or (-1) (z :: l)) with z in *. specialize (Hnn z ltac:(by left)) as Hz. destruct (Z.eqb_spec z (-1)); [lia|].
      rewrite Hsm in Hlink. rewrite Hlink. cbn [rbind]. f_equal. unfold set_smallest, set_largest. cbn [largest with_ff freeff hff].
      rewrite last_or_cons. assert (0 ≤ last_or z l) as Hll.
      { destruct l as [|w l _] using rev_ind; [done|]. rewrite last_or_snoc. apply Hnn. right. list_in. }
      destruct (Z.eqb_spec (last_or z l) (-1)); [lia|]. done. }
  destruct (if smallest H =? -1 then _ else _) as [H3|]; [|done]. cbn [rbind] in Hfront |- *. injection Hfront as Hfront. cbv zeta. change (largest (set_smallest q H3)) with (largest H3). rewrite Hfront.
  eapply (alloc_finish H [] G q f x nx [] fn ffn Hc Hnx Hp Hbig); [by intros h ?%not_elem_of_nil|done|by rewrite Hlen2| |done|done|done].
  intros y. rewrite Hk2. unfold k1. rewrite zlookup_zinsert by done. cbn [fmap list_fmap last].
  destruct (decide (y = q)) as [->|].
  - rewrite decide_False; [by rewrite <-Hsm|]. intros E. destruct (alloc_cells H [] G q x [] fn ffn Hc q) as [? _]; [|done]. cbn.
    destruct (gfp <$> G); [done|]. injection E as ->. by left.
  - by rewrite (decide_False (P := None = Some y)).
Qed.

Lemma enter_frequent_spec s id r G x fn q ffn f :
  freq_ok (Heap s) G (x :: fn) (q :: ffn) → recs s !z id = Some r → f = sqrtu (Heap s) →
  wp (enter_frequent id f s) (λ s', ∃ H' G' ffn', s' = with_Heap (with_recs s (zinsert (recs s) id (set_hpos x r))) H' ∧
    freq_ok H' G' fn ffn' ∧ id_set x id (Heap s) H' ∧ regrouped x f G G').
Proof.
  intros [Hc Hne] Hr ->. set (H := Heap s) in *. pose proof (fc_freef _ _ _ _ _ Hc) as Hfree. change (first_or (-1) (x :: fn)) with x in Hfree.
  destruct (fc_fn _ _ _ _ _ Hc) as [Hnext _]. unfold node_next in Hnext. destruct (hfreq H !z x) as [nx|] eqn:Hnx; [|done]. injection Hnext as Hnext.
  pose proof (zlookup_range _ _ _ Hnx) as Hxr. pose proof (core_nodes_NoDup _ _ _ _ _ Hc) as Hnd.
  assert (∀ h, ¬ in_group G x h) as HxG.
  { intros h Hx%in_group_nodes. apply NoDup_app in Hnd as (_ & Hd & _). apply (Hd x Hx). by left. }
  unfold enter_frequent. fold H. rewrite Hfree, (vget_ok _ _ _ Hnx). cbn [rbind]. unfold upd_rec. rewrite (upd_ok _ _ _ _ Hr). cbn [rbind].
  pose proof (core_take_free _ _ _ _ _ Hc) as Hc0. rewrite Hnext. set (H0 := set_freef (first_or (-1) fn) H) in *.
  unfold upd_node at 1. change (hfreq H0) with (hfreq H). rewrite (upd_ok _ _ _ _ Hnx). cbn [rbind].
  destruct (core_flight _ _ _ _ _ _ nx (set_id id (set_prev (-1) nx)) Hc0 Hnx) as [Hc1 _]. set (H1 := with_nodes _ _ _) in *.
  assert (node_prev H1 x = Some (-1)) as Hp1.
  { unfold H1. view_simpl. rewrite zlookup_zinsert by done. by rewrite decide_True. }
  assert (id_set x id H H1) as Hid1.
  { split; try done. unfold H1. view_simpl. intros y. rewrite zlookup_zinsert by done. by case_decide. }
  rewrite (fc_smallest _ _ _ _ _ Hc1), (has_freq_first H1 [] G _ _ _ _ Hc1). cbn [rbind].
  destruct (next_freq G (sqrtu H)) eqn:Hnf.
  - destruct G as [|[fp f l] G]; [done|]. cbn in Hnf. apply Z.eqb_eq in Hnf as ->. change (first_or (-1) (gfp <$> _ :: G)) with fp.
    apply Forall_cons in Hne as [Hl Hne]. cbn in Hl.
    apply (attach_wp H1 [] fp (sqrtu H) l G x [] fn (q :: ffn)); [done..|]. intros H2 Hc2 Hr2. cbn [wp].
    exists H2, (Group fp (sqrtu H) (x :: l) :: G), (q :: ffn). split_and!; [done|split; [done|by constructor]|by eapply id_set_same|].
    assert (x ∉ l). { intros Hx. apply (HxG (sqrtu H)). exists (Group fp (sqrtu H) l). split_and!; [by left|done..]. }
    assert (∀ h, ¬ in_group G x h). { intros h Hh. apply (HxG h). rewrite in_group_cons. by right. }
    regroup.
  - eapply (alloc_first_wp H1 G x q (sqrtu H) fn ffn); [exact Hc1|done|done| |].
    + intros h Hh. destruct G as [|g G]; [by apply not_elem_of_nil in Hh|]. cbn in Hnf. apply Z.eqb_neq in Hnf.
      destruct (fc_groups _ _ _ _ _ Hc g) as [_ _ _ _ Hbig]; [by left|]. apply elem_of_cons in Hh as [->|Hh]; [lia|].
      destruct (sorted_around [] g G (fc_sorted _ _ _ _ _ Hc)) as [_ Hhi]. specialize (Hhi h Hh). lia.
    + intros H2 Hc2 Hr2. cbn [wp]. exists H2, (Group q (sqrtu H) [x] :: G), ffn.
      split_and!; [done|split; [done|by constructor]|by eapply id_set_same|regroup].
Qed.
