(* ===== verification/RPrio.v ===== *)
(** * The priority structure

    [compress/heap.cc] as a whole, against its contract.  The abstract state is a
    finite map [F] from record numbers to frequencies.  The heap represents it
    when the records of frequency below [sqrtu] are exactly those in the array of
    their frequency, and the others those with a node in the group of their
    frequency.  The operations implement: count an occurrence, uncount one, add a
    record, take a record of the highest frequency. *)

From stdpp Require Import gmap.
From S2P Require Import Prelude Csr RArray RHash RHeap RBuckets Dll RFreq.

(** ** Representation *)

Definition located (s : store) (G : list group) (id : Z) (r : Trecord) : Prop :=
  if decide (rfreq r < sqrtu (Heap s)) then in_bucket s (rfreq r) (rhpos r) id
  else in_group G (rhpos r) (rfreq r) ∧ node_id (Heap s) (rhpos r) = Some id.

Record heap_rep (s : store) (F : gmap Z Z) (G : list group) (fn ffn : list Z) : Prop := {
  hr_buckets : buckets_ok s;
  hr_len : zlen (infreq (Heap s)) = sqrtu (Heap s);
  hr_sqrtu : 2 ≤ sqrtu (Heap s);
  hr_freq : freq_ok (Heap s) G fn ffn;
  hr_in_bucket : ∀ f i id, in_bucket s f i id → F !! id = Some f;
  hr_in_group : ∀ x f, in_group G x f → ∃ id r, node_id (Heap s) x = Some id ∧ F !! id = Some f ∧
    recs s !z id = Some r ∧ rhpos r = x;
  hr_rec : ∀ id f, F !! id = Some f → ∃ r, recs s !z id = Some r ∧ rfreq r = f ∧ located s G id r
}.

Definition heap_ok (s : store) (F : gmap Z Z) : Prop := ∃ G fn ffn, heap_rep s F G fn ffn.

(** Only positions in the heap change. *)
Record rest_same (s s' : store) : Prop := {
  rs_recs : hpos_only (recs s) (recs s');
  rs_dims : (rmaxsize (Rec s'), rsize (Rec s'), rminsize (Rec s')) = (rmaxsize (Rec s), rsize (Rec s), rminsize (Rec s));
  rs_hash : Hash s' = Hash s;
  rs_L : L s' = L s;
  rs_sqrtu : sqrtu (Heap s') = sqrtu (Heap s);
  rs_hmax : hmax (Heap s') = hmax (Heap s)
}.

#[export] Instance rest_same_preorder : PreOrder rest_same.
Proof.
  split; [by split|]. intros s1 s2 s3 [] []. split; [by etrans|congruence..].
Qed.

(** ** The infrequent part *)

Lemma elem_bucket s f j : j ∈ bucket s f ↔ ∃ i, bucket s f !z i = Some j.
Proof. split; [apply elem_zlookup|]. intros [i Hi]. by eapply zlookup_elem. Qed.

Lemma bucket_out s f : zlen (infreq (Heap s)) ≤ f → bucket s f = [].
Proof. intros Hf. unfold bucket. destruct (zlookup_None (infreq (Heap s)) f) as [_ ->]; [done|by right]. Qed.

Section rep.
Context (s : store) (F : gmap Z Z) (G : list group) (fn ffn : list Z) (Hr : heap_rep s F G fn ffn).

Lemma group_large x f : in_group G x f → sqrtu (Heap s) ≤ f.
Proof using Hr.
  intros (g & Hg & _ & <-). destruct (hr_freq _ _ _ _ _ Hr) as [Hc _]. by destruct (fc_groups _ _ _ _ _ Hc g Hg).
Qed.

Lemma rep_pos j f : F !! j = Some f → 1 ≤ f.
Proof using Hr.
  intros Hj. destruct (hr_rec _ _ _ _ _ Hr j f Hj) as (r & _ & <- & Hl). pose proof (hr_sqrtu _ _ _ _ _ Hr).
  unfold located in Hl. case_decide; [by destruct Hl|lia].
Qed.

Lemma rep_bucket f j : 1 ≤ f < sqrtu (Heap s) → j ∈ bucket s f ↔ F !! j = Some f.
Proof using Hr.
  intros Hf. rewrite elem_bucket. split.
  - intros [i Hi]. eapply (hr_in_bucket _ _ _ _ _ Hr), in_bucket_lookup. split; [lia|exact Hi].
  - intros Hj. destruct (hr_rec _ _ _ _ _ Hr j f Hj) as (r & _ & <- & Hl). unfold located in Hl. rewrite decide_True in Hl by lia.
    apply in_bucket_lookup in Hl as [_ Hl]. by eexists.
Qed.

Lemma rep_group f j : sqrtu (Heap s) ≤ f → F !! j = Some f →
  ∃ r, recs s !z j = Some r ∧ rfreq r = f ∧ in_group G (rhpos r) f ∧ node_id (Heap s) (rhpos r) = Some j.
Proof using Hr.
  intros Hf Hj. destruct (hr_rec _ _ _ _ _ Hr j f Hj) as (r & Hr' & <- & Hl). exists r. unfold located in Hl. rewrite decide_False in Hl by lia.
  done.
Qed.
End rep.

(** The frequent part of the heap. *)
Definition freq_part (H : Theap) := (hfreq H, freef H, hff H, freeff H, smallest H, largest H, sqrtu H).

Lemma freq_ok_part H H' G fn ffn : freq_part H' = freq_part H → freq_ok H G fn ffn → freq_ok H' G fn ffn.
Proof.
  destruct H, H'. cbn. intros [= -> -> -> -> -> -> ->] [Hc Hne]. split; [|done]. pose proof (fc_groups _ _ _ _ _ Hc) as Hg. destruct Hc. split; try done.
  intros g Hin. by destruct (Hg g Hin).
Qed.

Lemma node_id_part H H' x : freq_part H' = freq_part H → node_id H' x = node_id H x.
Proof. destruct H, H'. by intros [= -> -> -> -> -> -> ->]. Qed.

(** The arrays changed, the frequent part did not. *)
Lemma rebuild_infreq s s' F F' G fn ffn :
  heap_rep s F G fn ffn → freq_part (Heap s') = freq_part (Heap s) → zlen (infreq (Heap s')) = zlen (infreq (Heap s)) → buckets_ok s' →
  (∀ f j, 1 ≤ f < sqrtu (Heap s) → j ∈ bucket s' f ↔ F' !! j = Some f) → (∀ f j, F' !! j = Some f → 1 ≤ f) →
  (∀ f j, sqrtu (Heap s) ≤ f → F' !! j = Some f ↔ F !! j = Some f) →
  (∀ f j, sqrtu (Heap s) ≤ f → F !! j = Some f → recs s' !z j = recs s !z j) →
  heap_rep s' F' G fn ffn.
Proof.
  intros Hr Hpart Hlen Hb Hin Hpos Hbig Hrec. assert (sqrtu (Heap s') = sqrtu (Heap s)) as Hsq by (by injection Hpart).
  split; rewrite ?Hsq.
  - done.
  - rewrite Hlen. apply Hr.
  - apply Hr.
  - eapply freq_ok_part; [done|]. apply Hr.
  - intros f i id [Hf Hi]%in_bucket_lookup. destruct (decide (f < sqrtu (Heap s))).
    + apply Hin; [lia|]. apply elem_bucket. by eexists.
    + rewrite bucket_out in Hi by (rewrite Hlen, (hr_len _ _ _ _ _ Hr); lia). apply zlookup_range in Hi. change (zlen []) with 0 in Hi. lia.
  - intros x f Hx. pose proof (group_large _ _ _ _ _ Hr x f Hx) as Hf. destruct (hr_in_group _ _ _ _ _ Hr x f Hx) as (id & r & Hid & HF & Hr' & Hh).
    exists id, r. rewrite (node_id_part (Heap s)) by done. split_and!; [done| |by rewrite (Hrec f)|done]. by apply Hbig.
  - intros id f Hid. destruct (decide (f < sqrtu (Heap s))) as [Hlt|Hge].
    + specialize (Hpos f id Hid). assert (id ∈ bucket s' f) as [i Hi]%elem_bucket by (by apply Hin).
      assert (in_bucket s' f i id) as Hib by (by apply in_bucket_lookup). destruct (bo_rec _ Hb f i id Hib) as (r & Hr' & <- & <-).
      exists r. split_and!; [done..|]. unfold located. by rewrite Hsq, decide_True.
    + apply Hbig in Hid; [|lia]. destruct (rep_group _ _ _ _ _ Hr f id ltac:(lia) Hid) as (r & Hr' & Hf & Hg & Hn).
      exists r. split_and!; [by rewrite (Hrec f) by (done || lia)|done|]. unfold located. rewrite Hsq, decide_False by lia.
      rewrite (node_id_part (Heap s)) by done. by subst.
Qed.

(** Taking a record out of its array. *)
Lemma take_out_rep junk s F G fn ffn id f r f' :
  heap_rep s F G fn ffn → F !! id = Some f → f < sqrtu (Heap s) → recs s !z id = Some r →
  let s0 := with_recs s (zinsert (recs s) id (set_freq f' r)) in
  wp (take_out junk f (rhpos r) s0) (λ s', heap_rep s' (delete id F) G fn ffn ∧ rest_same s0 s').
Proof.
  intros Hh HF Hlt Hr s0. pose proof (zlookup_range _ _ _ Hr) as Hid. pose proof (rep_pos _ _ _ _ _ Hh _ _ HF) as Hpos.
  pose proof (hr_buckets _ _ _ _ _ Hh) as Hok.
  destruct (hr_rec _ _ _ _ _ Hh id f HF) as (r' & Hr' & Hf & Hl). assert (r' = r) as -> by congruence. unfold located in Hl.
  rewrite decide_True in Hl by lia. subst f. destruct Hl as (_ & A & HA & Hx).
  assert (recs s0 !z id = Some (set_freq f' r)) as Hr0 by (by apply zlookup_zinsert_eq).
  eapply wp_mono.
  { apply (take_out_ok junk id (rfreq r) (rhpos r) s0 A (set_freq f' r)); try done.
    - by apply (buckets_but_freq s id (set_freq f') r).
    - intros g i Hg. destruct (bo_rec _ Hok g i id Hg) as (r2 & ? & ? & ?). assert (r2 = r) by congruence. subst. done. }
  intros s1 ([Harr Hrec] & Hno & [Hsq Hinf Hrec1 Hh1 HL1] & Hperm & Hrest & i & y & ry & inf & Hy & Hry & Heq).
  assert (Heap s1 = with_infreq (Heap s) inf) as Hheap by (by rewrite Heq).
  split; [|by rewrite Heq in *; split].
  eapply (rebuild_infreq s s1 F); [done|by rewrite Hheap|done| | | | |].
  - split; [done|]. intros f i' j Hj. apply Hrec; [done|]. intros ->. by destruct (Hno f i').
  - intros f j Hf. rewrite lookup_delete_Some.
    assert (id ≠ j → j ∈ bucket s1 f ↔ j ∈ bucket s f) as Hmem.
    { intros Hne. destruct (decide (f = rfreq r)) as [->|]; [|by rewrite Hrest].
      change (bucket s0 (rfreq r)) with (bucket s (rfreq r)) in Hperm. rewrite Hperm, elem_of_cons. split; [by right|]. by intros [->|]. }
    rewrite <-(rep_bucket _ _ _ _ _ Hh) by done. split; [|intros [? ?]; by apply Hmem].
    intros Hj. assert (id ≠ j) as Hne; [|split; [done|by apply Hmem]].
    intros <-. apply elem_bucket in Hj as [i' Hj]. apply (Hno f i'), in_bucket_lookup. split; [lia|done].
  - intros f j [_ Hj]%lookup_delete_Some. by eapply rep_pos.
  - intros f j Hf. rewrite lookup_delete_Some. split; [by intros [_ ?]|]. intros Hj. split; [|done]. intros ->. simplify_eq. lia.
  - intros f j Hf Hj. assert (j ≠ id) by (intros ->; simplify_eq; lia).
    assert (j ≠ y). { intros ->. assert (F !! y = Some (rfreq r)); [|simplify_eq; lia]. eapply (hr_in_bucket _ _ _ _ _ Hh). exact Hy. }
    rewrite Heq. change (recs (with_Heap (with_recs s0 ?l) _)) with l. pose proof (zlookup_range _ _ _ Hry).
    rewrite zlookup_zinsert by done. rewrite decide_False by done. change (recs s0) with (zinsert (recs s) id (set_freq f' r)).
    rewrite zlookup_zinsert by done. by rewrite decide_False.
Qed.

(** Putting a record into the array of its frequency. *)
Lemma put_in_rep junk s F G fn ffn id r :
  heap_rep s F G fn ffn → F !! id = None → 1 ≤ rfreq r < sqrtu (Heap s) → recs s !z id = Some r → zlen (recs s) < 2 ^ 30 →
  wp (insert_infreq junk (rfreq r) id s) (λ s', heap_rep s' (<[id := rfreq r]> F) G fn ffn ∧ rest_same s s').
Proof.
  intros Hh HF Hf Hr Hn. assert (∀ g i, ¬ in_bucket s g i id) as Hno.
  { intros g i Hi%(hr_in_bucket _ _ _ _ _ Hh). congruence. }
  destruct (zlookup_total (infreq (Heap s)) (rfreq r)) as [A HA]; [rewrite (hr_len _ _ _ _ _ Hh); lia|].
  eapply wp_mono.
  { apply (put_in_ok junk id (rfreq r) s A r); try done; [|lia]. destruct (hr_buckets _ _ _ _ _ Hh) as [Harr Hrec].
    split; [done|]. intros f i j Hj _. by apply Hrec. }
  intros s1 (Hok & [Hsq Hinf Hrec1 Hh1 HL1] & Hto & Hrest & inf & Heq). pose proof (zlookup_range _ _ _ Hr) as Hid.
  split; [|by rewrite Heq in *; split]. eapply (rebuild_infreq s s1 F); [done|by rewrite Heq|done|done| | | |].
  - intros f j Hfr. rewrite lookup_insert_Some, <-(rep_bucket _ _ _ _ _ Hh f j Hfr). destruct (decide (f = rfreq r)) as [->|].
    + rewrite Hto, elem_of_app, list_elem_of_singleton. split; [intros [Hj| ->]; [right|by left]|intros [[-> _]|[_ ?]]; [by right|by left]]. split; [|done].
      intros ->. apply (rep_bucket _ _ _ _ _ Hh) in Hj; [|done]. congruence.
    + rewrite Hrest by done. split; [|by intros [[_ ?]|[_ ?]]]. intros Hj. right. split; [|done].
      intros ->. apply (rep_bucket _ _ _ _ _ Hh) in Hj; [|done]. congruence.
  - intros f j [[-> <-]|[_ Hj]]%lookup_insert_Some; [lia|]. by eapply rep_pos.
  - intros f j Hfr. rewrite lookup_insert_Some. split; [intros [[-> <-]|[_ ?]]; [lia|done]|]. intros Hj. right. split; [|done]. congruence.
  - intros f j Hfr Hj. rewrite Heq. change (recs (with_Heap (with_recs s ?l) _)) with l.
    rewrite zlookup_zinsert by done. rewrite decide_False by congruence. done.
Qed.

(** ** The frequent part *)

Lemma in_bucket_range s F G fn ffn f i id :
  heap_rep s F G fn ffn → in_bucket s f i id → f < sqrtu (Heap s).
Proof. intros Hh (_ & A & HA & _). apply zlookup_range in HA. rewrite (hr_len _ _ _ _ _ Hh) in HA. lia. Qed.

(** The frequent part changed, the arrays did not. *)
Lemma rebuild_freq s s' F F' G G' fn ffn fn' ffn' :
  heap_rep s F G fn ffn → infreq (Heap s') = infreq (Heap s) → sqrtu (Heap s') = sqrtu (Heap s) → freq_ok (Heap s') G' fn' ffn' →
  (∀ f j, f < sqrtu (Heap s) → F !! j = Some f → recs s' !z j = recs s !z j) →
  (∀ f j, f < sqrtu (Heap s) → F' !! j = Some f ↔ F !! j = Some f) →
  (∀ x f, in_group G' x f → ∃ id r, node_id (Heap s') x = Some id ∧ F' !! id = Some f ∧ recs s' !z id = Some r ∧ rhpos r = x) →
  (∀ id f, sqrtu (Heap s) ≤ f → F' !! id = Some f → ∃ r, recs s' !z id = Some r ∧ rfreq r = f ∧ in_group G' (rhpos r) f ∧
    node_id (Heap s') (rhpos r) = Some id) →
  heap_rep s' F' G' fn' ffn'.
Proof.
  intros Hh Hinf Hsq Hok Hrec HF Hg Hbig. assert (∀ f i id, in_bucket s' f i id ↔ in_bucket s f i id) as Hib.
  { intros f i id. unfold in_bucket. by rewrite Hinf. }
  split; rewrite ?Hsq, ?Hinf; try done; try apply Hh.
  - split.
    + intros f A Hf HA. rewrite Hinf in HA. by eapply (bo_arr _ (hr_buckets _ _ _ _ _ Hh)).
    + intros f i id Hi%Hib. rewrite (Hrec f); [by apply (bo_rec _ (hr_buckets _ _ _ _ _ Hh))|by eapply in_bucket_range|].
      by apply (hr_in_bucket _ _ _ _ _ Hh) in Hi.
  - intros f i id Hi%Hib. apply HF; [by eapply in_bucket_range|]. by apply (hr_in_bucket _ _ _ _ _ Hh) in Hi.
  - intros id f Hid. destruct (decide (f < sqrtu (Heap s))) as [Hlt|Hge].
    + apply HF in Hid; [|done]. destruct (hr_rec _ _ _ _ _ Hh id f Hid) as (r & Hr & Hf & Hl). exists r. rewrite (Hrec f) by done.
      split_and!; [done..|]. unfold located in *. rewrite decide_True in Hl by lia. rewrite Hsq, decide_True by lia. by apply Hib.
    + destruct (Hbig id f ltac:(lia) Hid) as (r & Hr & Hf & Hg' & Hn). exists r. split_and!; [done..|]. unfold located.
      rewrite Hsq, decide_False by lia. by subst.
Qed.

(** Two records do not share a node. *)
Lemma node_unique s F G fn ffn x f id r j g r' :
  heap_rep s F G fn ffn → recs s !z id = Some r → rhpos r = x → F !! id = Some f → sqrtu (Heap s) ≤ f →
  recs s !z j = Some r' → rhpos r' = x → F !! j = Some g → sqrtu (Heap s) ≤ g → j = id.
Proof.
  intros Hh Hr Hx HF Hf Hr' Hx' HF' Hg. destruct (rep_group _ _ _ _ _ Hh f id Hf HF) as (r1 & Hr1 & _ & _ & Hn1).
  destruct (rep_group _ _ _ _ _ Hh g j Hg HF') as (r2 & Hr2 & _ & _ & Hn2). simplify_eq. congruence.
Qed.

(** A node changes its group. *)
Lemma regroup_rep s F G fn ffn id f r f' H' G' fn' ffn' :
  heap_rep s F G fn ffn → F !! id = Some f → sqrtu (Heap s) ≤ f → sqrtu (Heap s) ≤ f' → recs s !z id = Some r →
  freq_ok H' G' fn' ffn' → same_rest (Heap s) H' → regrouped (rhpos r) f' G G' →
  let s0 := with_recs s (zinsert (recs s) id (set_freq f' r)) in
  heap_rep (with_Heap s0 H') (<[id := f']> F) G' fn' ffn' ∧ rest_same s0 (with_Heap s0 H').
Proof.
  intros Hh HF Hf Hf' Hr Hok [Hsq Hinf Hmax _ _ Hid] Hre s0. pose proof (zlookup_range _ _ _ Hr) as Hir.
  destruct (rep_group _ _ _ _ _ Hh f id Hf HF) as (r1 & Hr1 & _ & Hgx & Hnx). assert (r1 = r) as -> by congruence.
  assert (∀ j, recs (with_Heap s0 H') !z j = if decide (j = id) then Some (set_freq f' r) else recs s !z j) as Hrecs.
  { intros j. change (recs (with_Heap s0 H')) with (zinsert (recs s) id (set_freq f' r)). by apply zlookup_zinsert. }
  split; [|by split]. eapply (rebuild_freq s); [exact Hh|done|done|done| | | |].
  - intros g j Hg Hj. rewrite Hrecs, decide_False; [done|]. intros ->. simplify_eq. lia.
  - intros g j Hg. rewrite lookup_insert_Some. split; [intros [[-> <-]|[_ ?]]; [lia|done]|]. intros Hj. right. split; [|done].
    intros ->. simplify_eq. lia.
  - intros x g Hx. change (node_id (Heap (with_Heap s0 H')) x) with (node_id H' x). rewrite Hid. apply Hre in Hx. destruct (decide (x = rhpos r)) as [->|Hne].
    + subst g. exists id, (set_freq f' r). split_and!; [done|by rewrite lookup_insert_eq|by rewrite Hrecs, decide_True|done].
    + destruct (hr_in_group _ _ _ _ _ Hh x g Hx) as (j & rj & Hj & HFj & Hrj & Hhp). exists j, rj.
      assert (j ≠ id) by (intros ->; simplify_eq). by rewrite lookup_insert_ne, Hrecs, decide_False.
  - intros j g Hg. change (node_id (Heap (with_Heap s0 H'))) with (node_id H'). rewrite Hrecs. destruct (decide (j = id)) as [->|Hne].
    + rewrite lookup_insert_eq. intros [= <-]. exists (set_freq f' r). split_and!; [done..| |].
      * apply Hre. by rewrite decide_True.
      * by rewrite Hid.
    + rewrite lookup_insert_ne by done. intros Hj. destruct (rep_group _ _ _ _ _ Hh g j Hg Hj) as (rj & Hrj & Hfj & Hgj & Hnj).
      exists rj. split_and!; [done..| |by rewrite Hid]. apply Hre. rewrite decide_False; [done|]. intros E. apply Hne.
      rewrite E, Hnx in Hnj. congruence.
Qed.

(** A node leaves. *)
Lemma ungroup_rep s s0 F G fn ffn id f r H' G' fn' ffn' :
  heap_rep s F G fn ffn → F !! id = Some f → sqrtu (Heap s) ≤ f → recs s !z id = Some r →
  freq_ok H' G' fn' ffn' → infreq H' = infreq (Heap s) → sqrtu H' = sqrtu (Heap s) → (∀ y, node_id H' y = node_id (Heap s) y) →
  ungrouped (rhpos r) G G' → (∀ j, j ≠ id → recs s0 !z j = recs s !z j) →
  heap_rep (with_Heap s0 H') (delete id F) G' fn' ffn'.
Proof.
  intros Hh HF Hf Hr Hok Hinf Hsq Hid Hre Hrecs.
  destruct (rep_group _ _ _ _ _ Hh f id Hf HF) as (r1 & Hr1 & _ & Hgx & Hnx). assert (r1 = r) as -> by congruence.
  eapply (rebuild_freq s); [exact Hh|done|done|done| | | |].
  - intros g j Hg Hj. apply Hrecs. intros ->. simplify_eq. lia.
  - intros g j Hg. rewrite lookup_delete_Some. split; [by intros [_ ?]|]. intros Hj. split; [|done]. intros ->. simplify_eq. lia.
  - intros x g [Hne Hx]%Hre. destruct (hr_in_group _ _ _ _ _ Hh x g Hx) as (j & rj & Hj & HFj & Hrj & Hhp). exists j, rj.
    assert (j ≠ id) by (intros ->; simplify_eq). change (node_id (Heap (with_Heap s0 H'))) with (node_id H'). rewrite Hid.
    rewrite lookup_delete_ne by done. by rewrite <-(Hrecs j) in Hrj.
  - intros j g Hg [Hne Hj]%lookup_delete_Some. destruct (rep_group _ _ _ _ _ Hh g j Hg Hj) as (rj & Hrj & Hfj & Hgj & Hnj).
    exists rj. change (node_id (Heap (with_Heap s0 H'))) with (node_id H'). change (recs (with_Heap s0 H')) with (recs s0).
    split_and!; [by rewrite Hrecs|done| |by rewrite Hid]. apply Hre. split; [|done]. intros E. apply Hne. rewrite E, Hnx in Hnj. congruence.
Qed.

(** A node enters. *)
Lemma enter_rep s F G x fn ffn id r H' G' fn' ffn' :
  heap_rep s F G (x :: fn) ffn → F !! id = None → rfreq r = sqrtu (Heap s) → recs s !z id = Some r →
  freq_ok H' G' fn' ffn' → id_set x id (Heap s) H' → regrouped x (sqrtu (Heap s)) G G' →
  let s' := with_Heap (with_recs s (zinsert (recs s) id (set_hpos x r))) H' in
  heap_rep s' (<[id := sqrtu (Heap s)]> F) G' fn' ffn' ∧ rest_same s s'.
Proof.
  intros Hh HF Hf Hr Hok [Hsq Hinf Hmax Hid] Hre s'. pose proof (zlookup_range _ _ _ Hr) as Hir.
  assert (∀ j, recs s' !z j = if decide (j = id) then Some (set_hpos x r) else recs s !z j) as Hrecs.
  { intros j. change (recs s') with (zinsert (recs s) id (set_hpos x r)). by apply zlookup_zinsert. }
  assert (∀ h, ¬ in_group G x h) as HxG.
  { destruct (hr_freq _ _ _ _ _ Hh) as [Hc _]. pose proof (core_nodes_NoDup _ _ _ _ _ Hc) as Hnd.
    intros h Hx%in_group_nodes. apply NoDup_app in Hnd as (_ & Hd & _). apply (Hd x Hx). by left. }
  split; [|split; [by apply hpos_only_set|done..]]. eapply (rebuild_freq s); [exact Hh|done|done|done| | | |].
  - intros g j Hg Hj. rewrite Hrecs, decide_False; [done|]. intros ->. congruence.
  - intros g j Hg. rewrite lookup_insert_Some. split; [intros [[-> <-]|[_ ?]]; [lia|done]|]. intros Hj. right. split; [congruence|done].
  - intros y g Hy. change (node_id (Heap s') y) with (node_id H' y). rewrite Hid. apply Hre in Hy. destruct (decide (y = x)) as [->|Hne].
    + subst g. exists id, (set_hpos x r). split_and!; [done|by rewrite lookup_insert_eq|by rewrite Hrecs, decide_True|done].
    + destruct (hr_in_group _ _ _ _ _ Hh y g Hy) as (j & rj & Hj & HFj & Hrj & Hhp). exists j, rj.
      assert (j ≠ id) by congruence. by rewrite lookup_insert_ne, Hrecs, decide_False.
  - intros j g Hg. change (node_id (Heap s')) with (node_id H'). rewrite Hrecs. destruct (decide (j = id)) as [->|Hne].
    + rewrite lookup_insert_eq. intros [= <-]. exists (set_hpos x r). split_and!; [done|done| |].
      * apply Hre. by rewrite decide_True.
      * rewrite Hid. by rewrite decide_True.
    + rewrite lookup_insert_ne by done. intros Hj. destruct (rep_group _ _ _ _ _ Hh g j Hg Hj) as (rj & Hrj & Hfj & Hgj & Hnj).
      assert (rhpos rj ≠ x) by (intros E; apply (HxG g); by rewrite <-E).
      exists rj. split_and!; [done..| |by rewrite Hid, decide_False]. apply Hre. by rewrite decide_False.
Qed.

(** ** Room *)

Definition frequent (q : Z) (F : gmap Z Z) : gmap Z Z := filter (λ '(_, f), q ≤ f) F.

(** Fewer than [sqrtu] records are frequent. *)
Definition has_room (s : store) (F : gmap Z Z) : Prop :=
  Z.of_nat (size (frequent (sqrtu (Heap s)) F)) < sqrtu (Heap s).

Lemma groups_length G : Forall (λ g, gnodes g ≠ []) G → (length G ≤ length (all_nodes G))%nat.
Proof.
  induction 1 as [|g G Hg _ IH]; [done|]. rewrite all_nodes_cons, length_app. destruct (gnodes g); [done|]. simpl. lia.
Qed.

Lemma room s F G fn ffn : heap_rep s F G fn ffn → has_room s F → fn ≠ [] ∧ ffn ≠ [].
Proof.
  intros Hh Hroom. destruct (hr_freq _ _ _ _ _ Hh) as [Hc Hne]. pose proof (core_nodes_NoDup _ _ _ _ _ Hc) as Hnd. apply NoDup_app in Hnd as (Hnd & _).
  set (num := λ x, default 0 (node_id (Heap s) x)).
  assert (∀ x, x ∈ all_nodes G → ∃ f r, F !! num x = Some f ∧ sqrtu (Heap s) ≤ f ∧ recs s !z num x = Some r ∧ rhpos r = x) as Hnum.
  { intros x (g & Hg & Hx)%elem_all_nodes. assert (in_group G x (gfreq g)) as Hin by (by exists g).
    pose proof (group_large _ _ _ _ _ Hh x _ Hin). destruct (hr_in_group _ _ _ _ _ Hh x _ Hin) as (id & r & Hid & HF & Hr & Hp).
    exists (gfreq g), r. unfold num. by rewrite Hid. }
  assert (length (all_nodes G) ≤ size (frequent (sqrtu (Heap s)) F))%nat as Hsz.
  { rewrite <-size_dom, <-(length_fmap num). unfold size, set_size. simpl. apply submseteq_length, NoDup_submseteq.
    - apply NoDup_fmap_2_strong; [|done]. intros x y Hx Hy E. destruct (Hnum x Hx) as (? & r & _ & _ & Hr & Hpx).
      destruct (Hnum y Hy) as (? & r' & _ & _ & Hr' & Hpy). rewrite E in Hr. simplify_eq. done.
    - intros z (x & -> & Hx)%list_elem_of_fmap. apply elem_of_elements, elem_of_dom. destruct (Hnum x Hx) as (f & _ & HF & Hf & _).
      exists f. apply map_lookup_filter_Some. done. }
  pose proof (groups_length G Hne) as HG. unfold has_room in Hroom.
  pose proof (fc_nodes _ _ _ _ _ Hc) as Hn%Permutation_length. pose proof (fc_ffs _ _ _ _ _ Hc) as Hf%Permutation_length.
  rewrite !length_app, length_seqZ in Hn, Hf. rewrite length_fmap in Hf. simpl in Hn. split; intros ->; simpl in *; lia.
Qed.

(** ** The operations *)

(** A record in flight goes into the array of its frequency. *)
Lemma put_back junk s F id r f' s2 :
  recs s !z id = Some r → let s0 := with_recs s (zinsert (recs s) id (set_freq f' r)) in
  heap_ok s2 (delete id F) → rest_same s0 s2 → 1 ≤ f' < sqrtu (Heap s) → zlen (recs s) < 2 ^ 30 →
  wp (insert_infreq junk f' id s2) (λ s', heap_ok s' (<[id := f']> F) ∧ rest_same s0 s').
Proof.
  intros Hr s0 (G & fn & ffn & Hh2) Hs2 Hf' Hn. pose proof (zlookup_range _ _ _ Hr) as Hir.
  assert (recs s0 !z id = Some (set_freq f' r)) as Hr0 by (by apply zlookup_zinsert_eq).
  destruct (hpos_only_Some _ _ _ _ (rs_recs _ _ Hs2) Hr0) as [p Hr2]. assert (delete id F !! id = None) as HFd by apply lookup_delete_eq.
  rewrite <-(insert_delete_eq F). eapply wp_mono; [eapply (put_in_rep junk s2 _ G _ _ id (set_hpos p (set_freq f' r)) Hh2 HFd); [|exact Hr2|]|].
  - cbn. rewrite (rs_sqrtu _ _ Hs2). done.
  - rewrite (zlen_hpos_only _ _ (rs_recs _ _ Hs2)). change (recs s0) with (zinsert (recs s) id (set_freq f' r)). by rewrite zlen_zinsert.
  - intros s3 [Hh3 Hs3]. split; [by exists G, fn, ffn|by rewrite Hs2].
Qed.

(** Counting an occurrence.  [incFreq] returns whatever the frequency of the pair
    is: it moves between arrays, enters the frequent part, or changes its group; after
    it the heap represents the same frequencies with that of the pair one higher, and
    nothing but positions in the heap changed besides. *)
Lemma incFreq_spec junk s F id f r :
  heap_ok s F → F !! id = Some f → recs s !z id = Some r → has_room s F → zlen (recs s) < 2 ^ 30 →
  wp (incFreq junk id s) (λ s', heap_ok s' (<[id := f + 1]> F) ∧
    rest_same (with_recs s (zinsert (recs s) id (set_freq (f + 1) r))) s').
Proof.
  intros (G & fn & ffn & Hh) HF Hr Hroom Hn. destruct (room _ _ _ _ _ Hh Hroom) as [Hfn Hffn]. destruct fn as [|x fn]; [done|].
  destruct ffn as [|q ffn]; [done|]. destruct (hr_rec _ _ _ _ _ Hh id f HF) as (r' & Hr' & Hf & Hl). assert (r' = r) as -> by congruence.
  unfold incFreq. rewrite (vget_ok _ _ _ Hr). cbn [rbind]. unfold upd_rec. rewrite (upd_ok _ _ _ _ Hr). cbn [rbind]. rewrite Hf.
  set (s0 := with_recs s _). change (Heap s0) with (Heap s). pose proof (zlookup_range _ _ _ Hr) as Hir.
  destruct (Z.leb_spec (sqrtu (Heap s)) f) as [Hle|Hlt].
  - destruct (rep_group _ _ _ _ _ Hh f id Hle HF) as (r1 & Hr1 & _ & Hg & _). assert (r1 = r) as -> by congruence.
    apply wp_bind. eapply wp_mono; [eapply inc_frequent_spec; [apply (hr_freq _ _ _ _ _ Hh)|exact Hg]|].
    intros H' (G' & ffn' & Hok & Hr2 & Hre). cbn [wp].
    destruct (regroup_rep s F G _ _ id f r (f + 1) H' G' _ _ Hh HF Hle ltac:(lia) Hr Hok Hr2 Hre) as [Hh' Hs']. split; [|done].
    by exists G', (x :: fn), ffn'.
  - pose proof (take_out_rep junk s F G _ _ id f r (f + 1) Hh HF Hlt Hr) as Ht. cbv zeta in Ht. fold s0 in Ht. unfold take_out in Ht.
    change (Heap s0) with (Heap s) in Ht. destruct (vget (infreq (Heap s)) f) as [A|]; [|done]. cbn [rbind] in *.
    destruct (move f (rhpos r) (asize A - 1) s0) as [s1|]; [|done]. cbn [rbind] in *.
    destruct (delete_infreq junk f s1) as [s2|]; [|done]. destruct Ht as [Hh2 Hs2]. cbn [rbind].
    assert (recs s0 !z id = Some (set_freq (f + 1) r)) as Hr0 by (by apply zlookup_zinsert_eq).
    destruct (hpos_only_Some _ _ _ _ (rs_recs _ _ Hs2) Hr0) as [p Hr2]. rewrite (rs_sqrtu _ _ Hs2). change (Heap s0) with (Heap s).
    pose proof (rep_pos _ _ _ _ _ Hh _ _ HF) as Hpos. destruct (Z.ltb_spec (f + 1) (sqrtu (Heap s))) as [Hlt2|Hge].
    + apply (put_back junk s F id r (f + 1) s2); [done| |done|lia|done]. by exists G, (x :: fn), (q :: ffn).
    + assert (f + 1 = sqrtu (Heap s2)) as Heq by (rewrite (rs_sqrtu _ _ Hs2); change (Heap s0) with (Heap s); lia).
      eapply wp_mono; [eapply enter_frequent_spec; [apply (hr_freq _ _ _ _ _ Hh2)|exact Hr2|exact Heq]|].
      assert (delete id F !! id = None) as HFd by apply lookup_delete_eq.
      intros s3 (H3 & G3 & ffn3 & -> & Hok3 & Hid3 & Hre3). rewrite Heq in Hre3.
      destruct (enter_rep s2 _ G x fn _ id (set_hpos p (set_freq (f + 1) r)) H3 G3 _ _ Hh2 HFd Heq Hr2 Hok3 Hid3 Hre3) as [Hh3 Hs3]. split.
      * exists G3, fn, ffn3. rewrite <-Heq, insert_delete_eq in Hh3. done.
      * by rewrite Hs2.
Qed.

(** [decFreq] up to the point where the record is out of the heap. *)
Definition dec_take (junk id freq hpos : Z) (s : store) : res store :=
  if freq <? sqrtu (Heap s) then
    let* A := vget (infreq (Heap s)) freq in
    let* s := move freq hpos (asize A - 1) s in
    delete_infreq junk freq s
  else
    let* H := leave_frequent hpos (Heap s) in
    Ok (with_Heap s H).

Lemma dec_take_spec junk s F id f r f' :
  heap_ok s F → F !! id = Some f → recs s !z id = Some r → f ≤ sqrtu (Heap s) →
  let s0 := with_recs s (zinsert (recs s) id (set_freq f' r)) in
  wp (dec_take junk id f (rhpos r) s0) (λ s', heap_ok s' (delete id F) ∧ rest_same s0 s').
Proof.
  intros (G & fn & ffn & Hh) HF Hr Hle s0. unfold dec_take. change (Heap s0) with (Heap s). destruct (Z.ltb_spec f (sqrtu (Heap s))).
  - eapply wp_mono; [by apply (take_out_rep junk s F G fn ffn id f r f')|]. intros s' [Hh' Hs']. split; [by exists G, fn, ffn|done].
  - destruct (rep_group _ _ _ _ _ Hh f id ltac:(lia) HF) as (r1 & Hr1 & _ & Hg & _). assert (r1 = r) as -> by congruence.
    apply wp_bind. eapply wp_mono; [eapply leave_frequent_spec; [apply (hr_freq _ _ _ _ _ Hh)|]|].
    { replace (sqrtu (Heap s)) with f by lia. exact Hg. }
    intros H' (G' & ffn' & Hok & [Hsq Hinf Hmax _ _ Hid] & Hre). cbn [wp]. split; [|by split].
    exists G', (rhpos r :: fn), ffn'. eapply (ungroup_rep s); try done. intros j Hj.
    change (recs s0) with (zinsert (recs s) id (set_freq f' r)). pose proof (zlookup_range _ _ _ Hr). rewrite zlookup_zinsert by done. by rewrite decide_False.
Qed.

(** Uncounting an occurrence of a pair that occurs again.  [decFreq] returns
    whatever the frequency of the pair is; after it the heap represents the same
    frequencies with that of the pair one lower, and nothing but positions in the heap
    changed besides. *)
Lemma decFreq_spec junk s F id f r :
  heap_ok s F → F !! id = Some f → 1 < f → recs s !z id = Some r → has_room s F → zlen (recs s) < 2 ^ 30 →
  wp (decFreq junk id s) (λ s', heap_ok s' (<[id := f - 1]> F) ∧
    rest_same (with_recs s (zinsert (recs s) id (set_freq (f - 1) r))) s').
Proof.
  intros Hok HF Hf1 Hr Hroom Hn. pose proof Hok as (G & fn & ffn & Hh). destruct (room _ _ _ _ _ Hh Hroom) as [Hfn Hffn].
  destruct ffn as [|q ffn]; [done|]. destruct (hr_rec _ _ _ _ _ Hh id f HF) as (r' & Hr' & Hf & Hl). assert (r' = r) as -> by congruence.
  unfold decFreq. rewrite (vget_ok _ _ _ Hr). cbn [rbind]. unfold upd_rec. rewrite (upd_ok _ _ _ _ Hr). cbn [rbind]. rewrite Hf.
  set (s0 := with_recs s _). change (sqrtu (Heap s0)) with (sqrtu (Heap s)). destruct (Z.ltb_spec (sqrtu (Heap s)) f) as [Hlt|Hge].
  - destruct (rep_group _ _ _ _ _ Hh f id ltac:(lia) HF) as (r1 & Hr1 & _ & Hg & _). assert (r1 = r) as -> by congruence.
    apply wp_bind. eapply wp_mono; [eapply dec_frequent_spec; [apply (hr_freq _ _ _ _ _ Hh)|exact Hg|done]|].
    intros H' (G' & ffn' & Hok' & Hr2 & Hre). cbn [wp].
    destruct (regroup_rep s F G _ _ id f r (f - 1) H' G' _ _ Hh HF ltac:(lia) ltac:(lia) Hr Hok' Hr2 Hre) as [Hh' Hs']. split; [|done].
    by exists G', fn, ffn'.
  - apply wp_bind. eapply wp_mono; [by apply (dec_take_spec junk s F id f r (f - 1))|]. intros s2 [Hh2 Hs2].
    destruct (Z.ltb_spec 0 (f - 1)); [|lia]. apply (put_back junk s F id r (f - 1) s2); try done. pose proof (hr_sqrtu _ _ _ _ _ Hh). lia.
Qed.

(** The last occurrence: the record leaves the heap and is removed. *)
Lemma decFreq_last junk s F id r :
  heap_ok s F → F !! id = Some 1 → recs s !z id = Some r →
  ∃ s1, decFreq junk id s = removeRecord junk id s1 ∧ heap_ok s1 (delete id F) ∧
    rest_same (with_recs s (zinsert (recs s) id (set_freq 0 r))) s1.
Proof.
  intros Hok HF Hr. pose proof Hok as (G & fn & ffn & Hh). destruct (hr_rec _ _ _ _ _ Hh id 1 HF) as (r' & Hr' & Hf & Hl).
  assert (r' = r) as -> by congruence. pose proof (hr_sqrtu _ _ _ _ _ Hh) as Hsq.
  destruct (wp_inv _ _ (dec_take_spec junk s F id 1 r 0 Hok HF Hr ltac:(lia))) as (s1 & Ht & Hh1 & Hs1). exists s1. split_and!; [|done..].
  unfold decFreq. rewrite (vget_ok _ _ _ Hr). cbn [rbind]. unfold upd_rec. rewrite (upd_ok _ _ _ _ Hr). cbn [rbind]. rewrite Hf.
  change (sqrtu (Heap (with_recs s _))) with (sqrtu (Heap s)). destruct (Z.ltb_spec (sqrtu (Heap s)) 1); [lia|].
  unfold dec_take in Ht. change (sqrtu (Heap (with_recs s _))) with (sqrtu (Heap s)) in Ht. cbn [Z.sub Z.add Z.opp Z.pos_sub Pos.pred_double] in *.
  change (1 - 1) with 0. rewrite Ht. done.
Qed.

(** ** Extraction *)

(** [hmax]: no frequency is above it once it is below [sqrtu]. *)
Definition max_ok (s : store) (F : gmap Z Z) : Prop :=
  0 ≤ hmax (Heap s) ≤ sqrtu (Heap s) ∧
  (hmax (Heap s) < sqrtu (Heap s) → ∀ j g, F !! j = Some g → g ≤ hmax (Heap s)).

Lemma lower_max_spec H :
  zlen (infreq H) = sqrtu H → 0 ≤ hmax H < sqrtu H →
  wp (lower_max H) (λ m, 0 ≤ m ≤ hmax H ∧ (∀ f A, m < f ≤ hmax H → infreq H !z f = Some A → asize A = 0) ∧
    (m ≠ 0 → ∃ A, infreq H !z m = Some A ∧ asize A ≠ 0)).
Proof.
  intros Hlen Hmax. unfold lower_max.
  apply (wp_while_rel (λ m k, 0 ≤ m ≤ hmax H ∧ (∀ f A, m < f ≤ hmax H → infreq H !z f = Some A → asize A = 0) ∧ k = Z.to_nat m) (Z.to_nat (hmax H))).
  { split_and!; [lia..| |done]. intros f A Hf. lia. }
  { lia. }
  intros m k (Hm & Hab & ->). destruct (Z.eqb_spec m 0) as [->|Hm0]; cbn [rbind wp]; [split_and!; [done|lia|done|by intros []]|].
  destruct (zlookup_total (infreq H) m) as [A HA]; [lia|]. rewrite (vget_ok _ _ _ HA). cbn [rbind].
  destruct (Z.eqb_spec (asize A) 0) as [Hz|Hnz]; cbn [rbind wp].
  - exists (Z.to_nat (m - 1)). split; [|lia]. split_and!; [lia|lia| |done]. intros f B Hf HB.
    destruct (decide (f = m)) as [->|]; [congruence|]. apply (Hab f B); [lia|done].
  - split_and!; [lia|lia|done|]. intros _. by exists A.
Qed.

Record extracted (id : Z) (F : gmap Z Z) (s s' : store) : Prop := {
  ex_freq : ∃ f, F !! id = Some f ∧ (∀ j g, F !! j = Some g → g ≤ f) ∧ (hmax (Heap s') < sqrtu (Heap s) → hmax (Heap s') = f);
  ex_heap : heap_ok s' (delete id F);
  ex_same : (Rec s', Hash s', L s', sqrtu (Heap s')) = (Rec s, Hash s, L s, sqrtu (Heap s));
  ex_hmax : 0 ≤ hmax (Heap s') ≤ sqrtu (Heap s)
}.

Lemma extract_infrequent junk s F G fn ffn m A H :
  heap_rep s F G fn ffn → 1 ≤ m < sqrtu (Heap s) → infreq (Heap s) !z m = Some A → asize A ≠ 0 →
  freq_part H = freq_part (Heap s) → infreq H = infreq (Heap s) → (∀ j g, F !! j = Some g → g ≤ m) →
  ∃ id s', vget (pairs A) (asize A - 1) = Ok id ∧ delete_infreq junk m (with_Heap s (with_max H m)) = Ok s' ∧ extracted id F s s'.
Proof.
  intros Hh Hm HA Hnz Hpart Hinf Hmax. pose proof (hr_buckets _ _ _ _ _ Hh) as Hok.
  assert (sqrtu H = sqrtu (Heap s)) as Hsq by (by injection Hpart).
  destruct (extract_from junk s A m (with_max H m)) as (id & s' & Hid & Hdel & Hb & Hrest & Hrecs & Hok'); try done; [lia|].
  exists id, s'. split_and!; [done..|]. unfold delete_infreq in Hdel. destruct (upd _ _ _) as [inf|] eqn:Hupd; [|done]. injection Hdel as Heq.
  assert (zlen inf = zlen (infreq (Heap s))) as Hlen.
  { unfold upd in Hupd. cbn [infreq Heap with_Heap with_max] in Hupd. rewrite Hinf, (vget_ok _ _ _ HA) in Hupd. cbn [rbind] in Hupd.
    rewrite vset_ok in Hupd by (by eapply zlookup_range). injection Hupd as <-. apply zlen_zinsert. }
  assert (F !! id = Some m) as HF.
  { apply (rep_bucket _ _ _ _ _ Hh); [done|]. rewrite Hb. list_in. }
  split; [| | by rewrite <-Heq, <-Hsq|rewrite <-Heq; cbn; lia].
  { exists m. split_and!; [done..|]. by rewrite <-Heq. }
  exists G, fn, ffn. eapply (rebuild_infreq s s' F); try done; try (by rewrite <-Heq); [|by intros f j [_ ?]%lookup_delete_Some; eapply rep_pos|].
  - intros f j Hf. rewrite lookup_delete_Some, <-(rep_bucket _ _ _ _ _ Hh f j Hf). destruct (decide (f = m)) as [->|Hne].
    + rewrite Hb, elem_of_app, list_elem_of_singleton. split; [|by intros [? [?|?]]]. intros Hj. split; [|by left]. intros <-.
      apply elem_bucket in Hj as [i Hi]. assert (bucket s m !z i = Some id) as Hi1.
      { rewrite Hb, zlookup_app_l; [done|]. apply zlookup_range in Hi. lia. }
      assert (bucket s m !z zlen (bucket s' m) = Some id) as Hi2 by (rewrite Hb, zlookup_app_r, Z.sub_diag by lia; done).
      destruct (bo_rec _ Hok m i id) as (r1 & Hr1 & _ & Hp1); [apply in_bucket_lookup; split; [lia|done]|].
      destruct (bo_rec _ Hok m (zlen (bucket s' m)) id) as (r2 & Hr2 & _ & Hp2); [apply in_bucket_lookup; split; [lia|done]|].
      apply zlookup_range in Hi. simplify_eq. lia.
    + rewrite Hrest by done. split; [|by intros [_ ?]]. intros Hj. split; [|done]. intros <-.
      apply (rep_bucket _ _ _ _ _ Hh) in Hj; [|done]. congruence.
  - intros f j Hf. rewrite lookup_delete_Some. split; [by intros [_ ?]|]. intros Hj. split; [|done]. intros <-. simplify_eq. lia.
Qed.

Lemma largest_none s F G fn ffn : heap_rep s F G fn ffn → largest (Heap s) = -1 ↔ G = [].
Proof.
  intros Hh. destruct (hr_freq _ _ _ _ _ Hh) as [Hc _]. rewrite (fc_largest _ _ _ _ _ Hc). split; [|by intros ->].
  destruct G as [|g G _] using rev_ind; [done|]. rewrite fmap_app. cbn. rewrite last_or_snoc. intros E.
  destruct (core_ff _ _ _ _ _ g Hc) as (c & Hcf & _); [list_in|]. apply zlookup_range in Hcf. lia.
Qed.

Lemma no_groups s F fn ffn j g : heap_rep s F [] fn ffn → F !! j = Some g → g < sqrtu (Heap s).
Proof.
  intros Hh Hj. destruct (decide (g < sqrtu (Heap s))); [done|]. destruct (rep_group _ _ _ _ _ Hh g j ltac:(lia) Hj) as (r & _ & _ & (? & Hg & _) & _).
  by apply not_elem_of_nil in Hg.
Qed.

(** Extraction.  [extractMax] returns; it answers -1 exactly when the heap is
    empty, and otherwise takes out a pair of the highest frequency, leaving the other
    pairs, the records and the rest of the store alone. *)
Lemma extractMax_spec junk s F :
  heap_ok s F → max_ok s F →
  wp (extractMax junk s) (λ '(id, s'), if decide (F = ∅) then id = -1 else extracted id F s s').
Proof.
  intros (G & fn & ffn & Hh) [Hmax Hbound]. unfold extractMax.
  match goal with |- context [if ?b then with_max ?a ?m else ?d] => set (H0 := if b then with_max a m else d) end.
  assert (freq_part H0 = freq_part (Heap s) ∧ infreq H0 = infreq (Heap s) ∧ 0 ≤ hmax H0 ∧
    (if hmax H0 <? sqrtu H0 then ∀ j g, F !! j = Some g → g ≤ hmax H0 else hmax H0 = sqrtu (Heap s) ∧ G ≠ [])) as (Hpart & Hinf & Hge & Hcase).
  { unfold H0. pose proof (hr_sqrtu _ _ _ _ _ Hh). destruct (Z.eqb_spec (hmax (Heap s)) (sqrtu (Heap s))) as [He|Hne]; simpl.
    - destruct (Z.eqb_spec (largest (Heap s)) (-1)) as [Hl|Hl]; simpl.
      + apply (largest_none _ _ _ _ _ Hh) in Hl as ->. split_and!; try done; [lia|]. destruct (Z.ltb_spec (hmax (Heap s) - 1) (sqrtu (Heap s))); [|lia].
        intros j g Hj. pose proof (no_groups _ _ _ _ _ _ Hh Hj). lia.
      + split_and!; try done; [lia|]. destruct (Z.ltb_spec (hmax (Heap s)) (sqrtu (Heap s))); [lia|]. split; [done|].
        by rewrite <-(largest_none _ _ _ _ _ Hh).
    - split_and!; try done; [lia|]. destruct (Z.ltb_spec (hmax (Heap s)) (sqrtu (Heap s))); [|lia]. apply Hbound. lia. }
  assert (sqrtu H0 = sqrtu (Heap s)) as Hsq by (by injection Hpart).
  assert (∀ j g, F !! j = Some g → F ≠ ∅) as Hnonempty by (intros j g Hj ->; by rewrite lookup_empty in Hj).
  destruct (Z.ltb_spec (hmax H0) (sqrtu H0)) as [Hlt|Hge2].
  - apply wp_bind. eapply wp_mono; [apply lower_max_spec; [rewrite Hinf, Hsq; apply Hh|lia]|]. intros m (Hm & Hab & Hne).
    assert (∀ j g, F !! j = Some g → g ≤ m ∧ 1 ≤ g) as Hle.
    { intros j g Hj. pose proof (rep_pos _ _ _ _ _ Hh _ _ Hj) as Hg1. split; [|done]. specialize (Hcase j g Hj). destruct (decide (g ≤ m)); [done|].
      assert (j ∈ bucket s g) as Hin by (apply (rep_bucket _ _ _ _ _ Hh); [lia|done]).
      destruct (zlookup_total (infreq H0) g) as [A HA]; [rewrite Hinf, (hr_len _ _ _ _ _ Hh); lia|].
      specialize (Hab g A ltac:(lia) HA). unfold bucket in Hin. rewrite Hinf in HA. rewrite HA in Hin. unfold acontents in Hin.
      rewrite slice_nil in Hin by lia. by apply not_elem_of_nil in Hin. }
    destruct (Z.eqb_spec m 0) as [->|Hm0].
    + cbn [wp]. rewrite decide_True; [done|]. apply map_eq. intros j. rewrite lookup_empty. destruct (F !! j) as [g|] eqn:Hj; [|done].
      specialize (Hle j g Hj). lia.
    + destruct (Hne Hm0) as (A & HA & Hnz). change (infreq (with_max H0 m)) with (infreq H0). rewrite (vget_ok _ _ _ HA). cbn [rbind]. rewrite Hinf in HA.
      destruct (extract_infrequent junk s F G fn ffn m A H0 Hh ltac:(lia) HA Hnz Hpart Hinf) as (id & s' & -> & Hd & Hex); [apply Hle|].
      cbn [rbind]. rewrite Hd. cbn [rbind wp]. destruct (ex_freq _ _ _ _ Hex) as (f & Hf & _). rewrite decide_False; [done|by eapply Hnonempty].
  - destruct Hcase as [Hmx HG]. assert (freq_ok H0 G fn ffn) as Hok by (eapply freq_ok_part; [exact Hpart|apply Hh]).
    match goal with |- wp ?m _ => assert (m = let* '(id, H) := take_largest H0 in Ok (id, with_Heap s H)) as -> end.
    { unfold take_largest. cbv zeta. destruct (vget (hff H0) _) as [f|]; [|done]. cbn [rbind]. destruct (vget (hfreq H0) _) as [p|]; [|done]. cbn [rbind].
      destruct (upd_ff _ _ H0) as [H1|]; [|done]. cbn [rbind]. destruct (if nnext p =? -1 then _ else _) as [H2|]; [|done]. cbn [rbind].
      by destruct (upd_node _ _ H2). }
    apply wp_bind. eapply wp_mono; [by eapply take_largest_spec|].
    intros [id H'] (x & f & G' & ffn' & Hx & Hall & Hid & Hok' & [Hsq' Hinf' Hmax' _ _ Hid'] & Hun). cbn [wp].
    destruct (hr_in_group _ _ _ _ _ Hh x f Hx) as (j & r & Hj & HF & Hr & Hp). rewrite (node_id_part (Heap s)) in Hid by done.
    assert (j = id) as -> by congruence. rewrite decide_False by (by eapply Hnonempty). split.
    + exists f. split_and!; [done| |cbn; lia]. intros j g Hg. destruct (decide (sqrtu (Heap s) ≤ g)) as [Hb|Hb].
      * destruct (rep_group _ _ _ _ _ Hh g j Hb Hg) as (rj & _ & _ & Hgj & _). by eapply Hall.
      * pose proof (group_large _ _ _ _ _ Hh x f Hx). lia.
    + exists G', (x :: fn), ffn'. eapply (ungroup_rep s); [exact Hh|exact HF|by eapply group_large|exact Hr|done|congruence|congruence| |by subst|done].
      intros y. rewrite Hid'. by apply node_id_part.
    + cbn. congruence.
    + cbn. rewrite Hmax'. lia.
Qed.

(** ** Records *)

(** The heap depends on the frequencies and positions of its records only. *)
Lemma heap_rep_ext s s' F G fn ffn :
  heap_rep s F G fn ffn → Heap s' = Heap s →
  (∀ id f r, F !! id = Some f → recs s !z id = Some r → ∃ r', recs s' !z id = Some r' ∧ rfreq r' = rfreq r ∧ rhpos r' = rhpos r) →
  heap_rep s' F G fn ffn.
Proof.
  intros Hh HH Hs. assert (∀ f i id, in_bucket s' f i id ↔ in_bucket s f i id) as Hib by (intros; unfold in_bucket; by rewrite HH).
  split; rewrite ?HH; try apply Hh.
  - split.
    + intros f A Hf HA. rewrite HH in HA. by eapply (bo_arr _ (hr_buckets _ _ _ _ _ Hh)).
    + intros f i id Hi%Hib. destruct (bo_rec _ (hr_buckets _ _ _ _ _ Hh) f i id Hi) as (r & Hr & Hf & Hp).
      destruct (Hs id f r) as (r' & ? & ? & ?); [by eapply hr_in_bucket|done|]. exists r'. split_and!; congruence.
  - intros f i id Hi%Hib. by eapply hr_in_bucket.
  - intros x f Hx. destruct (hr_in_group _ _ _ _ _ Hh x f Hx) as (id & r & Hn & HF & Hr & Hp). destruct (Hs id f r HF Hr) as (r' & ? & ? & ?).
    exists id, r'. split_and!; congruence.
  - intros id f HF. destruct (hr_rec _ _ _ _ _ Hh id f HF) as (r & Hr & Hf & Hl). destruct (Hs id f r HF Hr) as (r' & Hr' & Hf' & Hp').
    exists r'. split_and!; [done|congruence|]. unfold located in *. rewrite Hf', Hp', HH. case_decide; [by apply Hib|done].
Qed.

Lemma heap_ok_ext s s' F :
  heap_ok s F → Heap s' = Heap s →
  (∀ id f r, F !! id = Some f → recs s !z id = Some r → ∃ r', recs s' !z id = Some r' ∧ rfreq r' = rfreq r ∧ rhpos r' = rhpos r) →
  heap_ok s' F.
Proof. intros (G & fn & ffn & Hh) HH Hs. exists G, fn, ffn. by eapply heap_rep_ext. Qed.

(** A new record. *)
Lemma insertHeap_spec junk s F id r :
  heap_ok s F → F !! id = None → recs s !z id = Some r → zlen (recs s) < 2 ^ 30 →
  wp (insertHeap junk id s) (λ s', heap_ok s' (<[id := 1]> F) ∧
    rest_same (with_recs s (zinsert (recs s) id (set_freq 1 r))) s').
Proof.
  intros Hok HF Hr Hn. pose proof (zlookup_range _ _ _ Hr) as Hir. set (s0 := with_recs s _).
  assert (recs s0 !z id = Some (set_freq 1 r)) as Hr0 by (by apply zlookup_zinsert_eq).
  assert (heap_ok s0 F) as (G & fn & ffn & Hh).
  { eapply heap_ok_ext; [exact Hok|done|]. intros j f rj Hj Hrj. exists rj. split; [|done]. change (recs s0) with (zinsert (recs s) id (set_freq 1 r)).
    rewrite zlookup_zinsert by done. by rewrite decide_False by congruence. }
  assert (insertHeap junk id s = insert_infreq junk 1 id s0) as ->.
  { unfold insertHeap, insert_infreq. change (Heap s0) with (Heap s). destruct (vget (infreq (Heap s)) 1) as [A|]; [|done]. cbn [rbind].
    destruct (insertArray junk A id) as [[A' pos]|]; [|done]. cbn [rbind]. destruct (vset (infreq (Heap s)) 1 A') as [inf|]; [|done]. cbn [rbind].
    unfold upd_rec. change (recs (with_Heap s ?h)) with (recs s). change (recs (with_Heap s0 ?h)) with (recs s0).
    rewrite (upd_ok _ _ _ _ Hr), (upd_ok _ _ _ _ Hr0). cbn [rbind]. change (recs (with_recs ?t ?l)) with l.
    rewrite (upd_ok _ id _ (set_hpos pos r)) by (by apply zlookup_zinsert_eq). cbn [rbind]. rewrite zinsert_zinsert.
    change (recs s0) with (zinsert (recs s) id (set_freq 1 r)). by rewrite zinsert_zinsert. }
  pose proof (hr_sqrtu _ _ _ _ _ Hh). eapply wp_mono; [apply (put_in_rep junk s0 F G fn ffn id (set_freq 1 r) Hh HF); [change (1 ≤ 1 < sqrtu (Heap s0)); lia|done|]|].
  - change (recs s0) with (zinsert (recs s) id (set_freq 1 r)). by rewrite zlen_zinsert.
  - intros s' [Hh' Hs']. split; [by exists G, fn, ffn|done].
Qed.

(** ** Renumbering *)

(** What [heapRepos] does to the heap, for the record [r]. *)
Definition repos_heap (id : Z) (r : Trecord) (H : Theap) : res Theap :=
  if rfreq r <? sqrtu H then
    let* A := vget (infreq H) (rfreq r) in
    let* p := vset (pairs A) (rhpos r) id in
    let* inf := vset (infreq H) (rfreq r) (TArray p (amaxsize A) (asize A) (aminsize A)) in
    Ok (with_infreq H inf)
  else upd_node (rhpos r) (set_id id) H.

Lemma heapRepos_eq id s r :
  recs s !z id = Some r → heapRepos id s = (let* H := repos_heap id r (Heap s) in Ok (with_Heap s H)).
Proof.
  intros Hr. unfold heapRepos, repos_heap. rewrite (vget_ok _ _ _ Hr). cbn [rbind]. destruct (rfreq r <? sqrtu (Heap s)); [|done].
  destruct (vget (infreq (Heap s)) (rfreq r)) as [A|]; [|done]. cbn [rbind]. destruct (vset (pairs A) _ _) as [p|]; [|done]. cbn [rbind].
  by destruct (vset (infreq (Heap s)) _ _).
Qed.

Section repos.
Context (s s' : store) (F : gmap Z Z) (G : list group) (fn ffn : list Z) (id last f : Z) (r : Trecord).
Context (Hh : heap_rep s F G fn ffn) (Hid : F !! id = None) (Hlast : F !! last = Some f) (Hr : recs s !z last = Some r) (Hf : rfreq r = f).
Context (Hrid : recs s' !z id = Some r) (Hrecs : ∀ j, j ≠ id → j ≠ last → is_Some (F !! j) → recs s' !z j = recs s !z j).

(** The frequencies after the record [last] became record [id]. *)
Lemma renamed_freqs g j : <[id:=f]> (delete last F) !! j = Some g ↔ (j = id ∧ g = f) ∨ (j ≠ id ∧ j ≠ last ∧ F !! j = Some g).
Proof using Hid Hlast.
  assert (id ≠ last) as Hne by congruence. rewrite lookup_insert_Some, lookup_delete_Some. split.
  - intros [[E1 E2]|(E1 & E2 & E3)]; [left|right]; by split_and!.
  - intros [[E1 E2]|(E1 & E2 & E3)]; [left|right]; by split_and!.
Qed.

(** An infrequent record: the array holds the new number. *)
Lemma repos_infreq A A' :
  f < sqrtu (Heap s) → infreq (Heap s) !z f = Some A → acontents A !z rhpos r = Some last → arr_ok A' → acontents A' = zinsert (acontents A) (rhpos r) id →
  Heap s' = with_infreq (Heap s) (zinsert (infreq (Heap s)) f A') → heap_rep s' (<[id := f]> (delete last F)) G fn ffn.
Proof using All.
  intros Hlt HA Hx HokA' HcA' HH. assert (id ≠ last) as Hne by congruence. pose proof (rep_pos _ _ _ _ _ Hh _ _ Hlast) as Hpos. pose proof (hr_sqrtu _ _ _ _ _ Hh) as Hsq2.
  pose proof (zlookup_range _ _ _ HA) as Hfr.
  assert (∀ g j, <[id:=f]> (delete last F) !! j = Some g ↔ (j = id ∧ g = f) ∨ (j ≠ id ∧ j ≠ last ∧ F !! j = Some g)) as HF' by (intros; apply renamed_freqs).
  assert (∀ g, bucket s' g = if decide (g = f) then zinsert (bucket s f) (rhpos r) id else bucket s g) as Hb.
  { intros g. unfold bucket. rewrite HH. cbn [infreq with_infreq]. rewrite zlookup_zinsert by done. case_decide; [subst g; by rewrite HA|done]. }
  assert (bucket s f !z rhpos r = Some last) as Hbl by (unfold bucket; by rewrite HA).
  assert (∀ g i j, bucket s g !z i = Some j → 1 ≤ g → j ≠ id ∧ (j = last → g = f ∧ i = rhpos r) ∧ F !! j = Some g) as Hold.
  { intros g i j Hj Hg. assert (in_bucket s g i j) as Hib by (by apply in_bucket_lookup). pose proof (hr_in_bucket _ _ _ _ _ Hh g i j Hib) as HFj.
    split_and!; [congruence| |done]. intros ->. destruct (bo_rec _ (hr_buckets _ _ _ _ _ Hh) g i last Hib) as (r2 & ? & ? & ?). simplify_eq. done. }
  assert (∀ g i j, 1 ≤ g → bucket s' g !z i = Some j ↔ (g = f ∧ i = rhpos r ∧ j = id) ∨ (j ≠ last ∧ bucket s g !z i = Some j)) as Hb'.
  { intros g i j Hg. rewrite Hb. pose proof (zlookup_range _ _ _ Hbl) as Hbr. case_decide as E; [subst g|].
    - rewrite zlookup_zinsert by done. case_decide as E2; [subst i|].
      + split; [intros [= <-]; by left|]. intros [(_ & _ & ->)|[Hn Hj]]; [done|]. congruence.
      + split; [|by intros [(_ & ? & _)|[_ ?]]]. intros Hj. right. split; [|done]. intros ->. by destruct (Hold f i last Hj Hg) as (_ & [] & _).
    - split; [|by intros [(? & _)|[_ ?]]]. intros Hj. right. split; [|done]. intros ->. by destruct (Hold g i last Hj Hg) as (_ & [] & _). }
  eapply (rebuild_infreq s s' F); [done|by rewrite HH|rewrite HH; cbn; by rewrite zlen_zinsert| | | | |].
  + split.
    * intros g B Hg HB. rewrite HH in HB. cbn [infreq with_infreq] in HB. rewrite zlookup_zinsert in HB by done. case_decide; [by simplify_eq|].
      by eapply (bo_arr _ (hr_buckets _ _ _ _ _ Hh)).
    * intros g i j [Hg Hj]%in_bucket_lookup. apply Hb' in Hj as [(-> & -> & ->)|[Hn Hj]]; [|..|done]; [by exists r|].
      destruct (Hold g i j Hj Hg) as (Hnid & _ & HFj). rewrite Hrecs by (done || by eexists).
      apply (bo_rec _ (hr_buckets _ _ _ _ _ Hh)). by apply in_bucket_lookup.
  + intros g j Hg. rewrite HF', elem_bucket. split.
    * intros [i [(-> & -> & ->)|[Hn Hj]]%Hb']; [by left| |lia]. right. destruct (Hold g i j Hj ltac:(lia)) as (? & _ & ?). done.
    * intros [[-> ->]|(Hn1 & Hn2 & HFj)].
      -- exists (rhpos r). apply Hb'; [lia|]. by left.
      -- apply (rep_bucket _ _ _ _ _ Hh) in HFj; [|done]. apply elem_bucket in HFj as [i Hi]. exists i. apply Hb'; [lia|]. by right.
  + intros g j [[-> ->]|(_ & _ & HFj)]%HF'; [done|]. by eapply rep_pos.
  + intros g j Hg. rewrite HF'. split; [intros [[_ ->]|(_ & _ & ?)]; [lia|done]|]. intros HFj. right. split_and!; [congruence| |done].
    intros ->. simplify_eq. lia.
  + intros g j Hg HFj. apply Hrecs; [congruence| |by eexists]. intros ->. simplify_eq. lia.
Qed.

(** A frequent record: its node holds the new number. *)
Lemma repos_freq nx :
  sqrtu (Heap s) ≤ f → in_group G (rhpos r) f → hfreq (Heap s) !z rhpos r = Some nx → nid nx = last → Heap s' = with_nodes (Heap s) (zinsert (hfreq (Heap s)) (rhpos r) (set_id id nx)) (freef (Heap s)) →
  heap_rep s' (<[id := f]> (delete last F)) G fn ffn.
Proof using All.
  intros Hge Hg Hnx Hn HH. set (H' := with_nodes _ _ _) in *. assert (id ≠ last) as Hne by congruence. pose proof (hr_sqrtu _ _ _ _ _ Hh) as Hsq2. pose proof (zlookup_range _ _ _ Hnx) as Hxr.
  assert (∀ g j, <[id:=f]> (delete last F) !! j = Some g ↔ (j = id ∧ g = f) ∨ (j ≠ id ∧ j ≠ last ∧ F !! j = Some g)) as HF' by (intros; apply renamed_freqs).
  assert (∀ y, node_id H' y = if decide (y = rhpos r) then Some id else node_id (Heap s) y) as Hid'.
  { intros y. unfold H'. view_simpl. rewrite zlookup_zinsert by done. by case_decide. }
  eapply (rebuild_freq s); [exact Hh|by rewrite HH|by rewrite HH| | | | |]; rewrite ?HH.
  + destruct (hr_freq _ _ _ _ _ Hh) as [Hc Hne']. split; [|done]. destruct Hc as [Hcn Hcf Hlh Hlf Hgs Hch Hcs Hcl Hso Hcfr Hcfrr Hcfn Hcffn].
    assert (∀ y, node_prev H' y = node_prev (Heap s) y ∧ node_next H' y = node_next (Heap s) y ∧ node_fnode H' y = node_fnode (Heap s) y) as Hsame.
    { intros y. unfold H'. view_simpl. rewrite zlookup_zinsert by done. case_decide; [subst; by rewrite Hnx|done]. }
    split; try done.
    * unfold H'. view_simpl. by rewrite zlen_zinsert.
    * intros g Hg'. apply (group_frame (Heap s)); [by apply Hgs|done|intros y _; apply Hsame|done|done].
    * eapply chain_frame; [exact Hcfn|]. intros y _. apply Hsame.
  + intros g j Hg' HFj. apply Hrecs; [congruence| |by eexists]. intros ->. simplify_eq. lia.
  + intros g j Hg'. rewrite HF'. split; [intros [[_ ->]|(_ & _ & ?)]; [lia|done]|]. intros HFj. right. split_and!; [congruence| |done].
    intros ->. simplify_eq. lia.
  + intros x g Hx. rewrite Hid'. destruct (hr_in_group _ _ _ _ _ Hh x g Hx) as (j & rj & Hj & HFj & Hrj & Hpj).
    destruct (decide (x = rhpos r)) as [->|Hxne].
    * assert (j = last) as ->. { unfold node_id in Hj. rewrite Hnx in Hj. cbn in Hj. congruence. } simplify_eq.
      exists id, r. split_and!; [done| |done|done]. apply HF'. left. done.
    * exists j, rj. assert (j ≠ last) by (intros ->; simplify_eq). split_and!; [done| | |done].
      -- apply HF'. right. split_and!; [congruence|done..].
      -- rewrite Hrecs; [done|congruence|done|by eexists].
  + intros j g Hg' [[-> ->]|(Hn1 & Hn2 & HFj)]%HF'.
    * exists r. split_and!; [done..|]. by rewrite Hid', decide_True.
    * destruct (rep_group _ _ _ _ _ Hh g j Hg' HFj) as (rj & Hrj & Hfj & Hgj & Hnj). exists rj. rewrite Hrecs by (done || by eexists).
      split_and!; [done..|]. rewrite Hid', decide_False; [done|]. intros E. rewrite E in Hnj. unfold node_id in Hnj. rewrite Hnx in Hnj. cbn in Hnj. congruence.
Qed.
End repos.

Lemma repos_heap_spec s F G fn ffn id last f r :
  heap_rep s F G fn ffn → F !! id = None → F !! last = Some f → recs s !z last = Some r →
  wp (repos_heap id r (Heap s)) (λ H', ∃ G', (∀ s', Heap s' = H' → recs s' !z id = Some r →
    (∀ j, j ≠ id → j ≠ last → is_Some (F !! j) → recs s' !z j = recs s !z j) →
    heap_rep s' (<[id := f]> (delete last F)) G' fn ffn) ∧ sqrtu H' = sqrtu (Heap s) ∧ hmax H' = hmax (Heap s)).
Proof.
  intros Hh Hid Hlast Hr. destruct (hr_rec _ _ _ _ _ Hh last f Hlast) as (r' & Hr' & Hf & Hl). assert (r' = r) as -> by congruence.
  assert (id ≠ last) as Hne by congruence. pose proof (rep_pos _ _ _ _ _ Hh _ _ Hlast) as Hpos. pose proof (hr_sqrtu _ _ _ _ _ Hh) as Hsq2.
  unfold repos_heap. rewrite Hf. unfold located in Hl. rewrite Hf in Hl. destruct (Z.ltb_spec f (sqrtu (Heap s))) as [Hlt|Hge].
  - rewrite decide_True in Hl by done. destruct Hl as (_ & A & HA & Hx). pose proof (bo_arr _ (hr_buckets _ _ _ _ _ Hh) f A Hpos HA) as HokA.
    pose proof (acontents_range _ _ _ HokA Hx) as Hp. rewrite (vget_ok _ _ _ HA). cbn [rbind]. rewrite vset_ok by (destruct HokA; lia). cbn [rbind].
    pose proof (zlookup_range _ _ _ HA) as Hfr. rewrite vset_ok by done. cbn [rbind wp].
    destruct (acontents_set A (rhpos r) id HokA Hp) as [HokA' HcA']. set (A' := TArray _ _ _ _) in *.
    exists G. split_and!; [|done..]. intros s' HH Hrid Hrecs.
    by apply (repos_infreq s s' F G fn ffn id last f r Hh Hid Hlast Hr Hf Hrid Hrecs A A').
  - rewrite decide_False in Hl by lia. destruct Hl as [Hg Hn]. unfold node_id in Hn. destruct (hfreq (Heap s) !z rhpos r) as [nx|] eqn:Hnx; [|done].
    injection Hn as Hn. eapply wp_upd_node; [exact Hnx|]. pose proof (zlookup_range _ _ _ Hnx) as Hxr.
    exists G. split_and!; [|done..]. intros s' HH Hrid Hrecs. set (H' := with_nodes _ _ _) in *.
    by apply (repos_freq s s' F G fn ffn id last f r Hh Hid Hlast Hr Hf Hrid Hrecs nx).
Qed.

(** ** The empty heap *)

Lemma chain_seqZ (N : Z → option Z) a n :
  (∀ i, a ≤ i < a + n → N i = Some (if i <? a + n - 1 then i + 1 else -1)) → chain N (seqZ a n).
Proof.
  destruct (decide (n ≤ 0)); [by rewrite seqZ_nil|]. remember (Z.to_nat n) as k eqn:Hk. revert a n Hk n0.
  induction k as [|k IH]; intros a n Hk Hn HN; [lia|]. rewrite seqZ_cons by lia. cbn [chain]. split.
  - rewrite HN by lia. f_equal. destruct (decide (n = 1)) as [->|].
    + destruct (Z.ltb_spec a (a + 1 - 1)); [lia|done].
    + destruct (Z.ltb_spec a (a + n - 1)); [|lia]. rewrite seqZ_cons by lia. cbn. lia.
  - destruct (decide (n = 1)) as [->|]; [done|]. apply IH; [lia|lia|]. intros i Hi. rewrite HN by lia. f_equal.
    destruct (Z.ltb_spec i (a + n - 1)), (Z.ltb_spec i (Z.succ a + Z.pred n - 1)); lia.
Qed.

Lemma zlookup_seqZ_fmap {A} (f : Z → A) n i : 0 ≤ i < n → (f <$> seqZ 0 n) !z i = Some (f i).
Proof.
  intros Hi. rewrite zlookup_fmap, zlookup_nonneg by lia. rewrite (proj2 (lookup_seqZ 0 n (Z.to_nat i) i)); [done|lia].
Qed.

Lemma createHeap_spec junk u minsize k s :
  0 ≤ u → 0 ≤ k ≤ 30 → minsize = 2 ^ k →
  wp (createHeap junk u minsize) (λ H, heap_ok (with_Heap s H) ∅ ∧ hmax H = sqrtu H ∧ u ≤ sqrtu H * sqrtu H).
Proof.
  intros Hu Hk Hmin. unfold createHeap. apply wp_bind. eapply wp_mono; [by apply sqrt_up_correct|]. intros q (Hq & Huq & _). cbn [wp].
  set (H := THeap _ _ _ _ _ _ _ _ _). split_and!; [|done|done]. exists [], (seqZ 0 q), (seqZ 0 q).
  assert (∀ f, 1 ≤ f → infreq H !z f = if decide (f < q) then Some (createArray minsize) else None) as Hinf.
  { intros f Hf. unfold H. cbn [infreq]. rewrite zlookup_cons_pos by lia. case_decide.
    - rewrite zlookup_nonneg by lia. apply lookup_replicate_2. lia.
    - apply zlookup_None. right. rewrite zlen_replicate. lia. }
  assert (∀ f i id, ¬ in_bucket (with_Heap s H) f i id) as Hno.
  { intros f i id (Hf & A & HA & Hi). cbn [Heap with_Heap] in HA. rewrite Hinf in HA by done. case_decide; [|done]. injection HA as <-.
    apply zlookup_range in Hi. change (zlen (acontents (createArray minsize))) with 0 in Hi. lia. }
  split.
  - split; [|by intros f i id ?%Hno]. intros f A Hf HA. cbn [Heap with_Heap] in HA. rewrite Hinf in HA by done. case_decide; [|done].
    injection HA as <-. by apply (arr_ok_create minsize k).
  - unfold H. cbn. rewrite zlen_cons, zlen_replicate. lia.
  - done.
  - split; [|done]. cbn [Heap with_Heap]. split; unfold H; view_simpl; try done; try (by rewrite zlen_fmap; unfold zlen; rewrite length_seqZ; lia).
    + intros g Hg. by apply not_elem_of_nil in Hg.
    + constructor.
    + rewrite seqZ_cons by lia. done.
    + rewrite seqZ_cons by lia. done.
    + apply chain_seqZ. intros i Hi. rewrite zlookup_seqZ_fmap by lia. cbn. by rewrite Z.add_0_l.
    + apply chain_seqZ. intros i Hi. rewrite zlookup_seqZ_fmap by lia. cbn. by rewrite Z.add_0_l.
  - by intros f i id ?%Hno.
  - intros x f (g & Hg & _). by apply not_elem_of_nil in Hg.
  - intros id f HF. by rewrite lookup_empty in HF.
Qed.
