(* ===== verification/RQueue.v ===== *)
(** * The priority structure as a bounded queue

    The contract of [compress/heap.cc]: a map from record numbers to frequencies, and
    the bound that no frequency exceeds.  The sum of the frequencies stays below the
    length of the text, for which the structure was created; a record is not counted
    beyond the frequency of the last record taken, since [extractMax] does not look
    above it.  The arrays of infrequent records, the groups of frequent ones and the
    free lists implement the contract. *)

From stdpp Require Import gmap.
From S2P Require Import Prelude Csr RArray RHash RHeap RBuckets Dll RFreq RPrio.

(** ** The sum of the frequencies *)

Definition freq_sum (F : gmap Z Z) : Z := map_fold (λ _ f n, f + n) 0 F.

Lemma freq_sum_insert F id f : F !! id = None → freq_sum (<[id := f]> F) = f + freq_sum F.
Proof. intros Hid. unfold freq_sum. apply map_fold_insert_L; [|done]. intros; lia. Qed.

Lemma freq_sum_delete F id f : F !! id = Some f → freq_sum (delete id F) = freq_sum F - f.
Proof. intros Hid. rewrite <-(insert_delete_id F id f Hid) at 2. rewrite freq_sum_insert by apply lookup_delete_eq. lia. Qed.

Lemma freq_sum_update F id f f' : F !! id = Some f → freq_sum (<[id := f']> F) = freq_sum F - f + f'.
Proof. intros Hid. rewrite <-insert_delete_eq, freq_sum_insert by apply lookup_delete_eq. rewrite (freq_sum_delete _ _ _ Hid). lia. Qed.

Lemma freq_sum_frequent q F : 0 ≤ q → map_Forall (λ _ f, 0 ≤ f) F → q * Z.of_nat (size (frequent q F)) ≤ freq_sum F.
Proof.
  intros Hq. induction F as [|id f F Hid IH] using map_ind; intros Hpos; [by rewrite Z.mul_0_r|]. apply map_Forall_insert in Hpos as [Hf Hpos]; [|done].
  specialize (IH Hpos). rewrite freq_sum_insert by done. unfold frequent in *. rewrite map_filter_insert. case_decide as E.
  - rewrite map_size_insert_None by (apply map_lookup_filter_None; by left). lia.
  - rewrite delete_id by done. lia.
Qed.

(** ** The contract *)

Inductive request :=
  | Enter (id : Z)
  | Count (id : Z)
  | Uncount (id : Z)
  | TakeMax.

(** The frequencies, and their bound. *)
Definition queue : Type := gmap Z Z * Z.

(** What a client may ask for; there are [N] records, and the text has length [len]. *)
Definition allowed (N len : Z) (q : queue) (c : request) : Prop :=
  match c with
  | Enter id => q.1 !! id = None ∧ 0 ≤ id < N ∧ 1 ≤ q.2 ∧ freq_sum q.1 + 1 < len
  | Count id => ∃ f, q.1 !! id = Some f ∧ f < q.2 ∧ freq_sum q.1 + 1 < len
  | Uncount id => ∃ f, q.1 !! id = Some f ∧ 1 < f
  | TakeMax => True
  end.

(** The answer, and the queue after it. *)
Definition answered (q : queue) (c : request) (out : Z) (q' : queue) : Prop :=
  match c with
  | Enter id => out = id ∧ q' = (<[id := 1]> q.1, q.2)
  | Count id => ∃ f, q.1 !! id = Some f ∧ out = id ∧ q' = (<[id := f + 1]> q.1, q.2)
  | Uncount id => ∃ f, q.1 !! id = Some f ∧ out = id ∧ q' = (<[id := f - 1]> q.1, q.2)
  | TakeMax =>
      (q.1 = ∅ ∧ out = -1 ∧ q' = q) ∨
      ∃ f, q.1 !! out = Some f ∧ (∀ j g, q.1 !! j = Some g → g ≤ f) ∧ q' = (delete out q.1, f)
  end.

Definition exec (junk : Z) (c : request) (s : store) : res (Z * store) :=
  match c with
  | Enter id => let* s := insertHeap junk id s in Ok (id, s)
  | Count id => let* s := incFreq junk id s in Ok (id, s)
  | Uncount id => let* s := decFreq junk id s in Ok (id, s)
  | TakeMax => extractMax junk s
  end.

Record queue_rep (N len : Z) (s : store) (q : queue) : Prop := {
  qr_heap : heap_ok s q.1;
  qr_recs : zlen (recs s) = N ∧ N < 2 ^ 30;
  qr_len : len ≤ sqrtu (Heap s) * sqrtu (Heap s);
  qr_sum : freq_sum q.1 < len;
  qr_bound : ∀ j f, q.1 !! j = Some f → f ≤ q.2;
  qr_hmax : 0 ≤ hmax (Heap s) ≤ sqrtu (Heap s);
  qr_max : hmax (Heap s) < sqrtu (Heap s) → q.2 ≤ hmax (Heap s)
}.

Lemma queue_room N len s q : queue_rep N len s q → has_room s q.1.
Proof.
  intros [(G & fn & ffn & Hh) _ Hlen Hsum _ _ _]. unfold has_room. pose proof (hr_sqrtu _ _ _ _ _ Hh).
  pose proof (freq_sum_frequent (sqrtu (Heap s)) q.1 ltac:(lia) ltac:(intros j f Hj; pose proof (rep_pos _ _ _ _ _ Hh j f Hj); lia)). nia.
Qed.

Lemma queue_record N len s q id f : queue_rep N len s q → q.1 !! id = Some f → ∃ r, recs s !z id = Some r.
Proof. intros [(G & fn & ffn & Hh) _ _ _ _ _ _] Hid. destruct (hr_rec _ _ _ _ _ Hh id f Hid) as (r & Hr & _). by exists r. Qed.

(** A change of one frequency. *)
Lemma queue_update N len s q id r f s' :
  queue_rep N len s q → recs s !z id = Some r → f ≤ q.2 → heap_ok s' (<[id := f]> q.1) → freq_sum (<[id := f]> q.1) < len →
  rest_same (with_recs s (zinsert (recs s) id (set_freq f r))) s' → queue_rep N len s' (<[id := f]> q.1, q.2).
Proof.
  intros [_ [Hn HN] Hlen _ Hb Hm Hmx] Hr Hf Hok Hsum [Hrecs _ _ _ Hsq Hhm]. cbn [Heap with_recs] in *. split; cbn [fst snd]; rewrite ?Hsq, ?Hhm; try done.
  - rewrite (zlen_hpos_only _ _ Hrecs). change (recs (with_recs s ?l)) with l. by rewrite zlen_zinsert.
  - intros j g [[<- <-]|[_ Hj]]%lookup_insert_Some; [done|by eapply Hb].
Qed.

(** A new structure is the empty queue. *)
Lemma createHeap_queue junk len minsize k s :
  1 ≤ len → 0 ≤ k ≤ 30 → minsize = 2 ^ k → zlen (recs s) < 2 ^ 30 →
  wp (createHeap junk len minsize) (λ H, queue_rep (zlen (recs s)) len (with_Heap s H) (∅, len)).
Proof.
  intros Hlen Hk Hmin Hn. eapply wp_mono; [by apply (createHeap_spec junk len minsize k s); [lia|..]|]. intros H (Hok & Hmax & Hsq). pose proof Hok as (G & fn & ffn & Hh).
  pose proof (hr_sqrtu _ _ _ _ _ Hh) as H2. cbn [Heap with_Heap] in H2. split; cbn [fst snd Heap with_Heap]; try done; try lia.
  unfold freq_sum. rewrite map_fold_empty. lia.
Qed.

(** C21: the priority structure refines the queue.  Whatever a client may ask for
    returns, with an answer of the queue, and the structure represents the queue after
    it: counting moves a record between the arrays, into the frequent part and between
    its groups, and [extractMax] finds a record of the highest frequency, or answers -1
    when there is none. *)
Theorem heap_refines_queue junk N len s q c :
  queue_rep N len s q → allowed N len q c →
  wp (exec junk c s) (λ '(out, s'), ∃ q', answered q c out q' ∧ ((c = TakeMax ∧ q.1 = ∅) ∨ queue_rep N len s' q')).
Proof.
  intros Hq Hc. pose proof (queue_room _ _ _ _ Hq) as Hroom. pose proof Hq as [Hok [Hn HN] Hlen Hsum Hb Hm Hmx]. destruct c as [id|id|id|]; cbn [exec allowed answered] in *.
  - destruct Hc as (Hid & Hr & H1 & Hs). destruct (zlookup_total (recs s) id) as [r Hrec]; [lia|]. apply wp_bind.
    eapply wp_mono; [by apply (insertHeap_spec junk s q.1 id r); [..|lia]|]. intros s' [Hok' Hrest]. cbn [wp]. eexists. split; [done|]. right.
    eapply queue_update; try done. rewrite freq_sum_insert by done. lia.
  - destruct Hc as (f & Hid & Hf & Hs). destruct (queue_record _ _ _ _ _ _ Hq Hid) as [r Hrec]. apply wp_bind.
    eapply wp_mono; [by apply (incFreq_spec junk s q.1 id f r); [..|lia]|]. intros s' [Hok' Hrest]. cbn [wp]. eexists. split; [by exists f|]. right.
    eapply queue_update; try done; [lia|]. rewrite (freq_sum_update _ _ _ _ Hid). lia.
  - destruct Hc as (f & Hid & Hf). destruct (queue_record _ _ _ _ _ _ Hq Hid) as [r Hrec]. apply wp_bind.
    eapply wp_mono; [by apply (decFreq_spec junk s q.1 id f r); [..|lia]|]. intros s' [Hok' Hrest]. cbn [wp]. eexists. split; [by exists f|]. right.
    pose proof (Hb _ _ Hid). eapply queue_update; try done; [lia|]. rewrite (freq_sum_update _ _ _ _ Hid). lia.
  - eapply wp_mono; [apply (extractMax_spec junk s q.1 Hok)|].
    { split; [done|]. intros Hlt j g Hj. specialize (Hmx Hlt). pose proof (Hb j g Hj). lia. }
    intros [out s']. case_decide as E; [intros ->; exists q; split; by left|]. intros [(f & Hf & Hmost & Hmax) Hok' [= HR HH HLs Hsq] Hm'].
    exists (delete out q.1, f). split; [right; by exists f|right]. split; cbn [fst snd]; rewrite ?Hsq; try done.
    + unfold recs in *. by rewrite HR.
    + rewrite (freq_sum_delete _ _ _ Hf). destruct Hok as (G & fn & ffn & Hh). pose proof (rep_pos _ _ _ _ _ Hh _ _ Hf). lia.
    + intros j g [_ Hj]%lookup_delete_Some. by eapply Hmost.
    + intros Hlt. by rewrite (Hmax Hlt).
Qed.

(** ** A client *)

Definition client_store : store := Store (TRarray [TRecord 5 6 0 0 0 0] 1 1 256) (THash [] 0 0) (THeap [] 0 [] 0 0 0 [] 0 0) [].

Lemma heap_refines_queue_witness :
  ∃ H, createHeap 9 100 256 = Ok H ∧
    wp (exec 9 (Enter 0) (with_Heap client_store H)) (λ '(out, s'), ∃ q', answered (∅, 100) (Enter 0) out q' ∧
      ((Enter 0 = TakeMax ∧ (∅, 100).1 = (∅ : gmap Z Z)) ∨ queue_rep 1 100 s' q')).
Proof.
  destruct (wp_inv _ _ (createHeap_queue 9 100 256 8 client_store ltac:(lia) ltac:(lia) eq_refl ltac:(by vm_compute))) as (H & HH & Hq). exists H. split; [exact HH|].
  apply (heap_refines_queue 9 1 100 _ (∅, 100) (Enter 0)); [exact Hq|]. split_and!; done || reflexivity.
Defined.
