(* ===== verification/RRepair.v ===== *)
(** * Re-Pair

    [compress.h]: the text is the rows of the graph, each closed by a separator
    of its own; the most frequent pair of adjacent symbols becomes a rule until
    no pair occurs twice.  Replaced symbols leave holes in the text: a hole holds
    [-p - 1] for the position [p] of the next (or previous) symbol. *)

From S2P Require Import Prelude Csr RArray RHash RHeap.

(** ** State *)

Record rep := Rep {
  inter : list Z;        (* the text with holes *)
  u : Z;                 (* its length *)
  c : Z;                 (* number of symbols *)
  n : Z;                 (* next symbol *)
  st : store
}.

Definition minsize : Z := 256.

Definition with_st (r : rep) (s : store) : rep := Rep (inter r) (u r) (c r) (n r) s.

(** ** Building the structures *)

(** [prepare]: one round. *)
Definition prepare_step (junk : Z) (inter : list Z) (i : Z) (s : store) : res store :=
  let* lhs := vget inter i in
  let* rhs := vget inter (i + 1) in
  let* id := searchHash (Hash s) (recs s) lhs rhs in
  let* '(id, s) :=
    if id =? -1 then
      let* '(id, s) := insertRecord junk lhs rhs s in
      let* s := upd_L s i (set_lnext (-1)) in
      Ok (id, s)
    else
      let* r := vget (recs s) id in
      let* s := upd_L s i (set_lnext (rcpos r)) in
      let* s := upd_L s (rcpos r) (set_lprev i) in
      let* s := incFreq junk id s in
      Ok (id, s) in
  let* s := upd_L s i (set_lprev (- id - 1)) in
  upd_rec s id (set_cpos i).

Definition prepare (junk alph : Z) (inter : list Z) : res rep :=
  let len := zlen inter in
  let* heap := createHeap junk len minsize in
  let* hash := createHash (256 * 256) in
  let s := Store (createRecords minsize) hash heap
    (replicate (Z.to_nat len) (TList junk junk)) in
  let* s := for_up 0 (len - 1) (prepare_step junk inter) s in
  let* s := purgeHeap junk s in
  Ok (Rep inter len len alph s).

(** ** Replacing one occurrence *)

(** Take position [pos], an occurrence of pair [id], out of its list. *)
Definition remove_occ (junk oid pos lhs rhs : Z) (s : store) : res store :=
  let* id := searchHash (Hash s) (recs s) lhs rhs in
  if id =? -1 then Ok s else
  let* s := if id =? oid then Ok s else decFreq junk id s in
  let* l := vget (L s) pos in
  if lprev l =? NullFreq then Ok s else
  let* s :=
    if lprev l <? 0 then upd_rec s id (set_cpos (lnext l))
    else upd_L s (lprev l) (set_lnext (lnext l)) in
  let* l := vget (L s) pos in
  if lnext l =? -1 then Ok s else upd_L s (lnext l) (set_lprev (lprev l)).

(** Add position [pos] as an occurrence of the pair [lhs, rhs]. *)
Definition add_occ (junk pos lhs rhs : Z) (s : store) : res store :=
  let* id := searchHash (Hash s) (recs s) lhs rhs in
  let* '(id, s) :=
    if id =? -1 then
      let* '(id, s) := insertRecord junk lhs rhs s in
      let* s := upd_L s pos (set_lnext (-1)) in
      Ok (id, s)
    else
      let* s := incFreq junk id s in
      let* r := vget (recs s) id in
      let* s := upd_L s pos (set_lnext (rcpos r)) in
      let* s := upd_L s (rcpos r) (set_lprev pos) in
      Ok (id, s) in
  let* s := upd_L s pos (set_lprev (- id - 1)) in
  upd_rec s id (set_cpos pos).

(** The positions of the second symbol of the pair at [cpos], of the symbol
    after it, and of the symbol before it. *)
Definition next_pos (inter : list Z) (cpos : Z) : res Z :=
  let* x := vget inter (cpos + 1) in
  Ok (if x <? 0 then - x - 1 else cpos + 1).

Definition after_pos (inter : list Z) (u sgte : Z) : res Z :=
  if sgte + 1 <? u then
    let* x := vget inter (sgte + 1) in
    Ok (if x <? 0 then - x - 1 else sgte + 1)
  else Ok (sgte + 1).

Definition before_pos (inter : list Z) (cpos : Z) : res Z :=
  let* x := vget inter (cpos - 1) in
  if x <? 0 then
    let ant := - x - 1 in
    Ok (if ant =? cpos then cpos - 2 else ant)
  else Ok (cpos - 1).

(** The text after the replacement at [cpos]. *)
Definition replace_text (inter : list Z) (u n cpos ssgte : Z) : res (list Z) :=
  let* inter := vset inter cpos n in
  let* inter := if ssgte =? u then Ok inter else vset inter (ssgte - 1) (- cpos - 1) in
  vset inter (cpos + 1) (- ssgte - 1).

Definition replace_occ (junk oid cpos : Z) (r : rep) : res rep :=
  let* sgte := next_pos (inter r) cpos in
  let* ssgte := after_pos (inter r) (u r) sgte in
  let s := st r in
  let* l := vget (L s) cpos in
  let* s := if lnext l =? -1 then Ok s else upd_L s (lnext l) (set_lprev (- oid - 1)) in
  let* l := vget (L s) cpos in
  let* s := upd_rec s oid (set_cpos (lnext l)) in
  let* s :=
    if ssgte =? u r then Ok s else
    let* lhs := vget (inter r) sgte in
    let* rhs := vget (inter r) ssgte in
    let* s := remove_occ junk oid sgte lhs rhs s in
    add_occ junk cpos (n r) rhs s in
  let* s :=
    if cpos =? 0 then Ok s else
    let* ant := before_pos (inter r) cpos in
    let* lhs := vget (inter r) ant in
    let* rhs := vget (inter r) cpos in
    let* s := remove_occ junk oid ant lhs rhs s in
    add_occ junk ant lhs (n r) s in
  let* inter := replace_text (inter r) (u r) (n r) cpos ssgte in
  Ok (Rep inter (u r) (c r - 1) (n r) s).

(** ** Compaction *)

(** [while (ni < c - 1)]: the texts and the lists move together. *)
Definition compact_step (ni : Z) (st : Z * list Z * store) : res (Z * list Z * store) :=
  let '(i, inter, s) := st in
  let* x := vget inter i in
  let* inter := vset inter ni x in
  let* l := vget (L s) i in
  let* s := upd_L s ni (λ _, l) in
  let* s :=
    if lprev l <? 0 then
      if lprev l =? NullFreq then Ok s else upd_rec s (- lprev l - 1) (set_cpos ni)
    else upd_L s (lprev l) (set_lnext ni) in
  let* l := vget (L s) ni in
  let* s := if lnext l =? -1 then Ok s else upd_L s (lnext l) (set_lprev ni) in
  let* y := vget inter (i + 1) in
  Ok (if y <? 0 then - y - 1 else i + 1, inter, s).

(** [if (c < factor * u)], compact; [factor] is 0.5. *)
Definition compact (r : rep) : res rep :=
  if 2 * f32 (c r) <? f32 (u r) then
    let* '(i, inter, s) := for_up 0 (c r - 1) compact_step (0, inter r, st r) in
    let ni := Z.max 0 (c r - 1) in
    let* x := vget inter i in
    let* inter := vset inter ni x in
    Ok (Rep (resize (Z.to_nat (c r)) 0 inter) (c r) (c r) (n r)
          (with_L s (take (Z.to_nat (c r)) (L s))))
  else Ok r.

(** ** The main loop *)

(** [while (cpos != -1) ..]: every round replaces an occurrence, so [c] bounds
    the number of rounds of a run that stays within the text. *)
Definition replace_all (junk oid cpos : Z) (r : rep) : res rep :=
  let* '(_, r) :=
    while (S (length (inter r))) (λ '(cpos, _), Ok (negb (cpos =? -1)))
      (λ '(cpos, r),
        let* r := replace_occ junk oid cpos r in
        let* orec := vget (recs (st r)) oid in
        Ok (rcpos orec, r)) (cpos, r) in
  Ok r.

(** One rule.  Result: none when the heap is empty. *)
Definition repair_turn (junk : Z) (r : rep) : res (option (Z * Z) * rep) :=
  let* '(oid, s) := extractMax junk (st r) in
  let r := with_st r s in
  if oid =? -1 then Ok (None, r) else
  let* orec := vget (recs s) oid in
  let* r := replace_all junk oid (rcpos orec) r in
  let* s := removeRecord junk oid (st r) in
  let r := Rep (inter r) (u r) (c r) (n r + 1) s in
  let* s := purgeHeap junk (st r) in
  let* r := compact (with_st r s) in
  Ok (Some (rleft orec, rright orec), r).

(** [while (n + 1 > 0)], at most [fuel] turns. *)
Fixpoint repair (fuel : nat) (junk : Z) (rule : list (Z * Z)) (r : rep) : res (list (Z * Z) * rep) :=
  match fuel with
  | O => Err OutOfFuel
  | S fuel' =>
      let* m := int32 (n r + 1) in
      if 0 <? m then
        let* '(p, r) := repair_turn junk r in
        match p with
        | None => Ok (rule, r)
        | Some p => repair fuel' junk (rule ++ [p]) r
        end
      else Ok (rule, r)
  end.

(** ** The output *)

Definition convert (ID vertex_cnt : Z) : Z := if vertex_cnt <? ID then ID - vertex_cnt else ID.

(** Split the text at the separators. *)
Definition read_back (inter : list Z) (u max_symbol alph : Z) : res (list Z * list Z) :=
  let* '(_, back_vlist, back_elist) :=
    while (S (length inter)) (λ '(i, _, _), Ok (i <? u))
      (λ '(i, back_vlist, back_elist),
        let* x := vget inter i in
        let '(back_vlist, back_elist) :=
          if x <? max_symbol then (back_vlist, back_elist ++ [x])
          else if x <? alph then (back_vlist ++ [zlen back_elist], back_elist)
          else (back_vlist, back_elist ++ [x - max_symbol]) in
        let i := i + 1 in
        if i <? u then
          let* y := vget inter i in
          Ok (if y <? 0 then - y - 1 else i, back_vlist, back_elist)
        else Ok (i, back_vlist, back_elist)) (0, [0], []) in
  Ok (back_vlist, back_elist).

Definition add_rule (max_symbol : Z) (out : list Z * list Z) (p : Z * Z) : list Z * list Z :=
  let '(back_vlist, back_elist) := out in
  let back_elist := back_elist ++ [convert p.1 max_symbol; convert p.2 max_symbol] in
  (back_vlist ++ [zlen back_elist], back_elist).

(** Result: offsets, edges, number of vertices, number of rules. *)
Definition compress_csr (fuel : nat) (junk : Z) (vlist elist : list Z) (max_symbol : Z)
    : res (list Z * list Z * Z * Z) :=
  let* inter0 := insert_spliter vlist elist [] max_symbol in
  let* alph := int32 (max_symbol * 2) in
  let* r := prepare junk alph inter0 in
  let* '(rule, r) := repair fuel junk [] r in
  let* out := read_back (inter r) (u r) max_symbol alph in
  let '(back_vlist, back_elist) := foldl (add_rule max_symbol) out rule in
  Ok (back_vlist, back_elist, zlen vlist - 1, zlen back_vlist - zlen vlist).
