(* ===== verification/RStore.v ===== *)
(** * Records and occurrence lists

    [compress/records.cc] and the lists of [compress.h].  The abstract state: the
    text as a map [T] from positions to the pair that starts there, and the map [M]
    from pairs to record numbers.  A pair of [M] has its occurrences in a doubly
    linked list through [L], whose first cell the record knows; the position of a
    pair that has no record is marked with [NullFreq]. *)

From stdpp Require Import gmap.
From S2P Require Import Prelude Csr RArray RHash RMap RHeap RBuckets Dll RFreq RPrio RRepair.

(** ** Counting *)

(** The number of occurrences of a pair. *)
Definition cnt (T : gmap Z pair) (p : pair) : Z := Z.of_nat (size (filter (λ '(_, q), q = p) T)).

Lemma cnt_nonneg T p : 0 ≤ cnt T p.
Proof. unfold cnt. lia. Qed.

Lemma cnt_insert T x q p : T !! x = None → cnt (<[x := q]> T) p = cnt T p + (if decide (q = p) then 1 else 0).
Proof.
  intros Hx. unfold cnt. rewrite map_filter_insert. case_decide as E; [rewrite decide_True by done|rewrite decide_False by done].
  - rewrite map_size_insert_None; [lia|]. apply map_lookup_filter_None. by left.
  - rewrite delete_id by done. lia.
Qed.

Lemma cnt_delete T x q p : T !! x = Some q → cnt (delete x T) p = cnt T p - (if decide (q = p) then 1 else 0).
Proof.
  intros Hx. rewrite <-(insert_delete_id T x q Hx) at 2. rewrite cnt_insert by apply lookup_delete_eq. lia.
Qed.

Lemma cnt_list T p l : NoDup l → (∀ x, x ∈ l ↔ T !! x = Some p) → cnt T p = zlen l.
Proof.
  intros Hnd Hl. unfold cnt, zlen. f_equal. rewrite <-size_dom. rewrite <-(size_list_to_set (C := gset Z) l Hnd). f_equal.
  apply set_eq. intros x. rewrite elem_of_dom, elem_of_list_to_set, Hl. unfold is_Some. split.
  - intros [q Hq]. apply map_lookup_filter_Some in Hq as [Hq E]. simpl in E. by subst.
  - intros Hx. exists p. by apply map_lookup_filter_Some.
Qed.

Lemma cnt_pos T x p : T !! x = Some p → 1 ≤ cnt T p.
Proof.
  intros Hx. unfold cnt. assert (size (filter (λ '(_, q), q = p) T) ≠ 0%nat); [|lia]. intros E. apply map_size_empty_inv in E.
  assert (filter (λ '(_, q), q = p) T !! x = Some p) as H by (by apply map_lookup_filter_Some). by rewrite E, lookup_empty in H.
Qed.

(** ** Representation *)

Definition l_prev (s : store) (p : Z) : option Z := lprev <$> L s !z p.
Definition l_next (s : store) (p : Z) : option Z := lnext <$> L s !z p.

Record rec_ok (R : Trarray) : Prop := {
  ro_size : 0 ≤ rsize R ≤ rmaxsize R;
  ro_buf : zlen (records R) = rmaxsize R;
  ro_max : rmaxsize R ≤ 2 ^ 20;
  ro_min : rminsize R = 256
}.

(** The occurrences [l] of pair [p] are linked from record [id]. *)
Record occ_list (s : store) (T : gmap Z pair) (id : Z) (p : pair) (l : list Z) : Prop := {
  ol_nodup : NoDup l;
  ol_mem : ∀ x, x ∈ l ↔ T !! x = Some p;
  ol_dll : dll (l_prev s) (l_next s) (- id - 1) l (-1);
  ol_head : ∃ r, recs s !z id = Some r ∧ rcpos r = first_or (-1) l
}.

(** [k] insertions are certain to find an empty cell; the list of record [x] need
    not be in order. *)
Record store_core (s : store) (T : gmap Z pair) (M : gmap pair Z) (k x : Z) : Prop := {
  sc_rec : rec_ok (Rec s);
  sc_hash : hash_rep (Hash s) (recs s) M;
  sc_cells : 2 ^ 17 ≤ zlen (table (Hash s)) ≤ 2 ^ 18 ∧ k ≤ empties (table (Hash s)) ∧ live (table (Hash s)) ≤ 2 ^ 17 - k;
  sc_ids : ∀ id, (∃ p, M !! p = Some id) ↔ 0 ≤ id < rsize (Rec s);
  sc_occ : ∀ p id, M !! p = Some id → id ≠ x → ∃ l, occ_list s T id p l;
  sc_dead : ∀ y p, T !! y = Some p → M !! p = None → L s !z y = Some (TList NullFreq (-1));
  sc_range : ∀ y p, T !! y = Some p → 0 ≤ y < zlen (L s)
}.

(** All records but [oid] are in the heap with the number of their occurrences. *)
Definition freq_map (T : gmap Z pair) (M : gmap pair Z) (oid : Z) (F : gmap Z Z) : Prop :=
  ∀ id f, F !! id = Some f ↔ id ≠ oid ∧ ∃ p, M !! p = Some id ∧ f = cnt T p.

Definition store_ok (s : store) (T : gmap Z pair) (M : gmap pair Z) (oid k : Z) : Prop :=
  store_core s T M k (-1) ∧ ∃ F, heap_ok s F ∧ freq_map T M oid F.

(** ** Frames *)

Definition rec_sim (r r' : Trecord) : Prop :=
  rleft r' = rleft r ∧ rright r' = rright r ∧ rcpos r' = rcpos r ∧ rkpos r' = rkpos r.

Lemma occ_ext s s' T id p l :
  occ_list s T id p l → L s' = L s → (∀ r, recs s !z id = Some r → ∃ r', recs s' !z id = Some r' ∧ rcpos r' = rcpos r) →
  occ_list s' T id p l.
Proof.
  intros [Hnd Hm Hd (r & Hr & Hh)] HL Hs. destruct (Hs r Hr) as (r' & Hr' & Hc). split; [done|done| |by exists r'; rewrite Hc].
  eapply dll_frame; [exact Hd|]. intros y _. unfold l_prev, l_next. by rewrite HL.
Qed.

(** Frequencies and positions in the heap do not matter. *)
Lemma core_ext s s' T M k x :
  store_core s T M k x → Hash s' = Hash s → L s' = L s →
  (rmaxsize (Rec s'), rsize (Rec s'), rminsize (Rec s')) = (rmaxsize (Rec s), rsize (Rec s), rminsize (Rec s)) →
  zlen (recs s') = zlen (recs s) → (∀ i r, recs s !z i = Some r → ∃ r', recs s' !z i = Some r' ∧ rec_sim r r') →
  store_core s' T M k x.
Proof.
  intros [[Hs Hb Hm Hmin] Hh Hc Hi Ho Hd Hr] HH HL [= Hmx Hsz Hmn] Hlen Hsim. split; rewrite ?HH, ?HL, ?Hsz; try done.
  - split; rewrite ?Hmx, ?Hsz, ?Hmn; try done. unfold recs in Hlen. lia.
  - eapply hash_rep_ext; [exact Hh|]. intros q id r _ Hrec. destruct (Hsim id r Hrec) as (r' & ? & ? & ? & _ & ?). by exists r'.
  - intros p id Hid Hx. destruct (Ho p id Hid Hx) as [l Hl]. exists l. eapply occ_ext; [done..|]. intros r Hrec.
    destruct (Hsim id r Hrec) as (r' & ? & _ & _ & ? & _). by exists r'.
Qed.

Lemma core_heap s s' T M k x id r f :
  store_core s T M k x → recs s !z id = Some r → rest_same (with_recs s (zinsert (recs s) id (set_freq f r))) s' → store_core s' T M k x.
Proof.
  intros Hc Hr [Hrecs Hdims Hhash HL _ _]. pose proof (zlookup_range _ _ _ Hr) as Hid.
  change (recs (with_recs s ?l)) with l in Hrecs. eapply core_ext; [exact Hc|done|done|done| |].
  - rewrite (zlen_hpos_only _ _ Hrecs). apply zlen_zinsert.
  - intros i ri Hi. assert (∃ ri', zinsert (recs s) id (set_freq f r) !z i = Some ri' ∧ rec_sim ri ri') as (ri' & Hri' & Hsim).
    { rewrite zlookup_zinsert by done. case_decide; [subst|by exists ri]. simplify_eq. by exists (set_freq f r). }
    destruct (hpos_only_Some _ _ _ _ Hrecs Hri') as [p Hp]. by exists (set_hpos p ri').
Qed.

Lemma heap_frame s s' F : heap_ok s F → Heap s' = Heap s → recs s' = recs s → heap_ok s' F.
Proof. intros Hok HH Hr. eapply heap_ok_ext; [done..|]. intros id f r _ Hid. exists r. by rewrite Hr. Qed.

(** Record numbers and the size of the record array. *)
Section ids.
Context (s : store) (T : gmap Z pair) (M : gmap pair Z) (k x : Z) (Hc : store_core s T M k x).

Lemma core_rsize : rsize (Rec s) ≤ live (table (Hash s)).
Proof using Hc.
  destruct (sc_rec _ _ _ _ _ Hc) as [Hsz _ _ _]. unfold live, zlen. rewrite <-(Z2Nat.id (rsize (Rec s))) by lia. apply inj_le.
  rewrite <-(length_seqZ 0 (rsize (Rec s))). apply submseteq_length, NoDup_submseteq; [apply NoDup_seqZ|].
  intros id Hid%elem_of_seqZ. destruct (proj2 (sc_ids _ _ _ _ _ Hc id)) as [[l r] Hp]; [lia|].
  destruct (rep_record _ _ _ (sc_hash _ _ _ _ _ Hc) l r id Hp) as (Hge & rec & _ & _ & _ & Hk). apply list_elem_of_filter.
  split; [done|]. by eapply zlookup_elem.
Qed.

Lemma core_small : rsize (Rec s) ≤ 2 ^ 17 - k ∧ zlen (recs s) ≤ 2 ^ 20.
Proof using Hc.
  pose proof core_rsize. destruct (sc_cells _ _ _ _ _ Hc) as (_ & _ & ?). destruct (sc_rec _ _ _ _ _ Hc). unfold recs. lia.
Qed.

Lemma core_record p id : M !! p = Some id → 0 ≤ id < rsize (Rec s) ∧ ∃ r, recs s !z id = Some r ∧ (rleft r, rright r) = p.
Proof using Hc.
  intros Hp. destruct p as [l r]. destruct (rep_record _ _ _ (sc_hash _ _ _ _ _ Hc) l r id Hp) as (_ & rec & Hr & <- & <- & _).
  split; [|by exists rec]. apply (sc_ids _ _ _ _ _ Hc). by exists (rleft rec, rright rec).
Qed.

Lemma core_search l r : 1 ≤ k → searchHash (Hash s) (recs s) l r = Ok (default (-1) (M !! (l, r))).
Proof using Hc.
  intros Hk. apply hash_search; [apply (sc_hash _ _ _ _ _ Hc)|]. apply empties_elem. destruct (sc_cells _ _ _ _ _ Hc) as (_ & ? & _). lia.
Qed.
End ids.

(** ** Lists *)

Lemma L_eq s s' y : l_prev s' y = l_prev s y → l_next s' y = l_next s y → L s' !z y = L s !z y.
Proof.
  unfold l_prev, l_next. destruct (L s !z y) as [[]|], (L s' !z y) as [[]|]; cbn; congruence.
Qed.

(** Changes to the lists and to the first position of one record. *)
Record relinked (s s' : store) (id : Z) (g : Trecord → Trecord) : Prop := {
  rl_len : zlen (L s') = zlen (L s);
  rl_recs : ∃ r, recs s !z id = Some r ∧ Rec s' = with_records (Rec s) (zinsert (recs s) id (g r));
  rl_hash : Hash s' = Hash s;
  rl_heap : Heap s' = Heap s
}.

Lemma relinked_sim s s' id g :
  relinked s s' id g → (∀ r, rec_sim (set_cpos (rcpos (g r)) r) (g r) ∧ rfreq (g r) = rfreq r ∧ rhpos (g r) = rhpos r) →
  (∀ i r, recs s !z i = Some r → ∃ r', recs s' !z i = Some r' ∧ rec_sim (set_cpos (rcpos r') r) r' ∧
    rfreq r' = rfreq r ∧ rhpos r' = rhpos r ∧ (i ≠ id → r' = r)).
Proof.
  intros [_ (r0 & Hr0 & HR) _ _] Hg i r Hi. pose proof (zlookup_range _ _ _ Hr0) as Hid.
  assert (recs s' = zinsert (recs s) id (g r0)) as Hrecs by (unfold recs at 1; by rewrite HR). rewrite Hrecs, zlookup_zinsert by done.
  case_decide as E; [subst i; simplify_eq|by exists r]. exists (g r0). destruct (Hg r0) as (? & ? & ?). done.
Qed.

(** The parts of the core that do not depend on the lists. *)
Lemma core_relink s s' T T' M k x x' id g :
  store_core s T M k x → relinked s s' id g →
  (∀ r, rec_sim (set_cpos (rcpos (g r)) r) (g r) ∧ rfreq (g r) = rfreq r ∧ rhpos (g r) = rhpos r) →
  (∀ p j, M !! p = Some j → j ≠ x' → ∃ l, occ_list s' T' j p l) →
  (∀ y p, T' !! y = Some p → M !! p = None → L s' !z y = Some (TList NullFreq (-1))) →
  (∀ y p, T' !! y = Some p → 0 ≤ y < zlen (L s)) →
  store_core s' T' M k x'.
Proof.
  intros [[Hs Hb Hm Hmin] Hh Hc Hi _ _ _] Hre Hg Ho Hd Hr. pose proof (relinked_sim _ _ _ _ Hre Hg) as Hsim.
  destruct Hre as [Hlen (r0 & Hr0 & HR) HH _]. split; rewrite ?HH, ?HR, ?Hlen; try done.
  - split; cbn; try done. rewrite zlen_zinsert. done.
  - eapply hash_rep_ext; [exact Hh|]. intros q j r _ Hj. destruct (Hsim j r Hj) as (r' & ? & (? & ? & _ & ?) & _). by exists r'.
Qed.

Lemma relinked_heap s s' id g F :
  relinked s s' id g → (∀ r, rec_sim (set_cpos (rcpos (g r)) r) (g r) ∧ rfreq (g r) = rfreq r ∧ rhpos (g r) = rhpos r) →
  heap_ok s F → heap_ok s' F.
Proof.
  intros Hre Hg Hok. eapply heap_ok_ext; [exact Hok|apply Hre|]. intros j f r _ Hj.
  destruct (relinked_sim _ _ _ _ Hre Hg j r Hj) as (r' & ? & _ & ? & ? & _). by exists r'.
Qed.

Lemma set_cpos_sim p r : rec_sim (set_cpos (rcpos (set_cpos p r)) r) (set_cpos p r) ∧ rfreq (set_cpos p r) = rfreq r ∧ rhpos (set_cpos p r) = rhpos r.
Proof. by destruct r. Qed.

(** Position [pos] becomes the first occurrence. *)
Record pushed (s : store) (pos id : Z) (l : list Z) (s' : store) : Prop := {
  pu_prev : ∀ y, l_prev s' y = if decide (y = pos) then Some (- id - 1) else if decide (head l = Some y) then Some pos else l_prev s y;
  pu_next : ∀ y, l_next s' y = if decide (y = pos) then Some (first_or (-1) l) else l_next s y;
  pu_rest : relinked s s' id (set_cpos pos)
}.

Lemma head_elem (l : list Z) y : head l = Some y → y ∈ l.
Proof. destruct l; [done|]. intros [= ->]. by left. Qed.

Lemma last_elem (l : list Z) y : last l = Some y → y ∈ l.
Proof. intros E. rewrite last_lookup in E. by eapply list_elem_of_lookup_2. Qed.

Lemma core_push s s' T M k p id pos l q :
  store_core s T M k id → M !! p = Some id → T !! pos = None → 0 ≤ pos < zlen (L s) →
  NoDup l → (∀ x, x ∈ l ↔ T !! x = Some p) → dll (l_prev s) (l_next s) q l (-1) → pushed s pos id l s' →
  store_core s' (<[pos := p]> T) M k (-1).
Proof.
  intros Hc Hp Hpos Hr Hnd Hm Hd [Hprev Hnext Hre]. eapply core_relink; [exact Hc|exact Hre|apply set_cpos_sim| | |].
  - intros p' j Hj _. destruct (decide (j = id)) as [->|Hne].
    + assert (p' = p) as -> by (by eapply (rep_inj _ _ _ (sc_hash _ _ _ _ _ Hc))). exists (pos :: l).
      assert (pos ∉ l) by (rewrite Hm; congruence). split.
      * by apply NoDup_cons.
      * intros y. rewrite elem_of_cons, Hm, lookup_insert_Some. split; [intros [->|Hy]; [by left|right; split; [congruence|done]]|].
        intros [[-> _]|[_ ?]]; [by left|by right].
      * eapply (dll_push (l_prev s) (l_next s)); [exact Hd|by apply NoDup_cons|by rewrite Hprev, decide_True|by rewrite Hnext, decide_True| |].
        -- intros y Hy. rewrite Hprev, decide_False; [done|]. by intros ->.
        -- intros y Hy. rewrite Hnext, decide_False; [done|]. by intros ->.
      * destruct (rl_recs _ _ _ _ Hre) as (r & Hr' & HR). exists (set_cpos pos r). split; [|done]. unfold recs. rewrite HR. cbn.
        rewrite zlookup_zinsert_eq; [done|]. by eapply zlookup_range.
    + destruct (sc_occ _ _ _ _ _ Hc p' j Hj Hne) as [l' [Hnd' Hm' Hd' (r & Hrj & Hh)]]. exists l'.
      assert (p' ≠ p) as Hpp by (intros ->; congruence). split; [done| | |].
      * intros y. rewrite Hm', lookup_insert_Some. split; [intros Hy; right; split; [congruence|done]|]. intros [[_ ?]|[_ ?]]; [congruence|done].
      * eapply dll_frame; [exact Hd'|]. intros y Hy%Hm'. rewrite Hprev, Hnext. rewrite !(decide_False (P := y = pos)) by congruence.
        split; [|done]. rewrite decide_False; [done|]. intros E%head_elem%Hm. congruence.
      * exists r. split; [|done]. destruct (relinked_sim _ _ _ _ Hre (set_cpos_sim pos) j r Hrj) as (r' & Hr' & _ & _ & _ & Heq). by rewrite <-Heq.
  - intros y p' Hy Hdead. rewrite lookup_insert_Some in Hy. destruct Hy as [[_ ->]|[Hne Hy]]; [congruence|].
    rewrite <-(sc_dead _ _ _ _ _ Hc y p' Hy Hdead). apply L_eq; rewrite ?Hprev, ?Hnext, !decide_False; try done; try congruence.
    intros E%head_elem%Hm. congruence.
  - intros y p'. rewrite lookup_insert_Some. intros [[-> _]|[_ Hy]]; [done|]. by eapply (sc_range _ _ _ _ _ Hc).
Qed.

(** Position [pos] is taken out of the list [l1 ++ pos :: l2]. *)
Record popped (s : store) (pos id : Z) (l1 l2 : list Z) (s' : store) : Prop := {
  po_prev : ∀ y, y ≠ pos → l_prev s' y = if decide (head l2 = Some y) then Some (last_or (- id - 1) l1) else l_prev s y;
  po_next : ∀ y, y ≠ pos → l_next s' y = if decide (last l1 = Some y) then Some (first_or (-1) l2) else l_next s y;
  po_rest : relinked s s' id (λ r, if decide (l1 = []) then set_cpos (first_or (-1) l2) r else r)
}.

Lemma core_pop s s' T M k p id pos l1 l2 :
  store_core s T M k (-1) → M !! p = Some id → occ_list s T id p (l1 ++ pos :: l2) → popped s pos id l1 l2 s' →
  store_core s' (delete pos T) M k (-1).
Proof.
  intros Hc Hp Hocc [Hprev Hnext Hre]. pose proof Hocc as [Hnd Hm Hd (r0 & Hr0 & Hh)]. destruct (head_last_mid _ _ _ Hnd) as (Hx1 & Hx2 & Hnd1 & Hnd2 & Hdis).
  assert (∀ r, let g := (λ r, if decide (l1 = []) then set_cpos (first_or (-1) l2) r else r) in
    rec_sim (set_cpos (rcpos (g r)) r) (g r) ∧ rfreq (g r) = rfreq r ∧ rhpos (g r) = rhpos r) as Hg.
  { intros r. destruct (decide (l1 = [])); by destruct r. }
  assert (∀ y, y ∈ l1 ++ l2 → y ≠ pos ∧ T !! y = Some p) as Hin.
  { intros y Hy. split; [intros ->; apply elem_of_app in Hy as [?|?]; done|]. apply Hm. rewrite elem_of_app in Hy. rewrite elem_of_app, elem_of_cons. tauto. }
  eapply core_relink; [exact Hc|exact Hre|exact Hg| | |].
  - intros p' j Hj _. destruct (decide (j = id)) as [->|Hne].
    + assert (p' = p) as -> by (by eapply (rep_inj _ _ _ (sc_hash _ _ _ _ _ Hc))). exists (l1 ++ l2). split.
      * apply NoDup_app. split_and!; done.
      * intros y. rewrite lookup_delete_Some. split; [intros Hy; destruct (Hin y Hy); by split|].
        intros [Hne Hy%Hm]. rewrite elem_of_app, elem_of_cons in Hy. rewrite elem_of_app. destruct Hy as [?|[->|?]]; [by left|done|by right].
      * eapply (dll_remove (l_prev s) (l_next s)); [exact Hd|done| |].
        -- intros y Hy. apply Hprev. by apply Hin.
        -- intros y Hy. apply Hnext. by apply Hin.
      * destruct (rl_recs _ _ _ _ Hre) as (r & Hr & HR). assert (r = r0) as -> by congruence. eexists. split.
        -- unfold recs. rewrite HR. cbn. apply zlookup_zinsert_eq. by eapply zlookup_range.
        -- case_decide as E; [subst; by destruct r0|]. rewrite Hh. by destruct l1.
    + destruct (sc_occ _ _ _ _ _ Hc p' j Hj) as [l' [Hnd' Hm' Hd' (r & Hrj & Hhj)]].
      { pose proof (core_record _ _ _ _ _ Hc p' j Hj) as [? _]. lia. }
      exists l'. assert (p' ≠ p) as Hpp by (intros ->; congruence). assert (T !! pos = Some p) as Hpos by (apply Hm; list_in). split; [done| | |].
      * intros y. rewrite Hm', lookup_delete_Some. split; [intros Hy; split; [congruence|done]|by intros [_ ?]].
      * eapply dll_frame; [exact Hd'|]. intros y Hy%Hm'. assert (y ≠ pos) by congruence. rewrite Hprev, Hnext by done. split.
        -- rewrite decide_False; [done|]. intros E%head_elem. destruct (Hin y) as [_ ?]; [list_in|congruence].
        -- rewrite decide_False; [done|]. intros E%last_elem. destruct (Hin y) as [_ ?]; [list_in|congruence].
      * exists r. split; [|done]. destruct (relinked_sim _ _ _ _ Hre Hg j r Hrj) as (r' & Hr' & _ & _ & _ & Heq). by rewrite <-Heq.
  - intros y p' [Hne Hy]%lookup_delete_Some Hdead. rewrite <-(sc_dead _ _ _ _ _ Hc y p' Hy Hdead).
    assert (p' ≠ p) by congruence. apply L_eq; [rewrite Hprev by done|rewrite Hnext by done]; (rewrite decide_False; [done|]); intros E.
    + apply head_elem in E. destruct (Hin y) as [_ ?]; [list_in|congruence].
    + apply last_elem in E. destruct (Hin y) as [_ ?]; [list_in|congruence].
  - intros y p' [_ Hy]%lookup_delete_Some. by eapply (sc_range _ _ _ _ _ Hc).
Qed.

(** ** A new record *)

Lemma kpos_only_Some l l' i r :
  kpos_only l l' → l !z i = Some r → ∃ k, l' !z i = Some (TRecord (rleft r) (rright r) (rfreq r) (rcpos r) (rhpos r) k).
Proof.
  intros Heq Hr. apply (f_equal (λ l, l !z i)) in Heq. rewrite !zlookup_fmap, Hr in Heq. destruct (l' !z i) as [r'|]; [|done].
  exists (rkpos r'). destruct r, r'; simplify_eq/=. done.
Qed.

Lemma zlen_kpos_only l l' : kpos_only l l' → zlen l' = zlen l.
Proof. intros Heq%(f_equal zlen). rewrite !zlen_fmap in Heq. done. Qed.

(** Room for one more record. *)
Definition grow_records (junk : Z) (R : Trarray) : res (list Trecord * Z) :=
  if rsize R =? rmaxsize R then
    if rmaxsize R =? 0 then Ok (replicate (Z.to_nat (rminsize R)) (junk_record junk), rminsize R)
    else
      let* m := grow (rmaxsize R) in
      Ok (realloc (junk_record junk) (records R) m, m)
  else Ok (records R, rmaxsize R).

Lemma zlookup_realloc {A} (junk : A) l n i : 0 ≤ i < n → i < zlen l → realloc junk l n !z i = l !z i.
Proof.
  intros Hi Hl. unfold realloc, zlen in *. rewrite !zlookup_nonneg by lia. apply lookup_resize; lia.
Qed.

Lemma grow_records_spec junk R :
  rec_ok R → rsize R < 2 ^ 17 →
  wp (grow_records junk R) (λ '(l, m), zlen l = m ∧ rsize R < m ≤ 2 ^ 20 ∧ ∀ i, 0 ≤ i < rsize R → l !z i = records R !z i).
Proof.
  intros [Hs Hb Hm Hmin] Hlt. unfold grow_records. destruct (Z.eqb_spec (rsize R) (rmaxsize R)) as [He|He].
  - destruct (Z.eqb_spec (rmaxsize R) 0) as [Hz|Hz].
    + cbn [wp]. rewrite Hmin, zlen_replicate. split_and!; [lia|lia|lia|]. intros i Hi. lia.
    + unfold grow. rewrite f32_small by lia. unfold int32, INT_MIN, INT_MAX.
      destruct (Z.leb_spec (- 2 ^ 31) (2 * rmaxsize R)), (Z.leb_spec (2 * rmaxsize R) (2 ^ 31 - 1)); try lia. cbn [andb rbind wp].
      rewrite zlen_realloc by lia. split_and!; [lia|lia|lia|]. intros i Hi. apply zlookup_realloc; lia.
  - cbn [wp]. split_and!; [done|lia|lia|done].
Qed.

Lemma insertRecord_spec junk lhs rhs s T M k F :
  store_core s T M k (-1) → heap_ok s F → (∀ j f, F !! j = Some f → 0 ≤ j < rsize (Rec s)) → M !! (lhs, rhs) = None → 1 ≤ k →
  wp (insertRecord junk lhs rhs s) (λ '(id, s'), id = rsize (Rec s) ∧ store_core s' T (<[(lhs, rhs) := id]> M) (k - 1) id ∧
    heap_ok s' (<[id := 1]> F) ∧ L s' = L s ∧ sqrtu (Heap s') = sqrtu (Heap s) ∧ hmax (Heap s') = hmax (Heap s)).
Proof.
  intros Hc Hheap HF HM Hk. pose proof (core_small _ _ _ _ _ Hc) as [Hrs _]. pose proof (sc_rec _ _ _ _ _ Hc) as Hrec.
  unfold insertRecord. change (rbind (if rsize (Rec s) =? _ then _ else _) ?k) with (rbind (grow_records junk (Rec s)) k).
  destruct (wp_inv _ _ (grow_records_spec junk (Rec s) Hrec ltac:(lia))) as ([l m] & -> & Hlen & Hm & Hold). cbn [rbind].
  set (id := rsize (Rec s)) in *. assert (0 ≤ id) as Hid by (destruct Hrec; lia).
  destruct (zlookup_total l id) as [r0 Hr0]; [lia|]. rewrite (upd_ok _ _ _ _ Hr0). cbn [rbind].
  set (r1 := TRecord lhs rhs (rfreq r0) (rcpos r0) (rhpos r0) (rkpos r0)). set (l1 := zinsert l id r1).
  assert (∀ i, 0 ≤ i < id → l1 !z i = recs s !z i) as Hl1.
  { intros i Hi. unfold l1. rewrite zlookup_zinsert_ne by lia. by apply Hold. }
  assert (∀ p j, M !! p = Some j → 0 ≤ j < id) as HMid. { intros p j Hj. apply (sc_ids _ _ _ _ _ Hc). by exists p. }
  assert (hash_rep (Hash s) l1 M) as Hh1.
  { eapply hash_rep_ext; [apply (sc_hash _ _ _ _ _ Hc)|]. intros p j r Hj Hr. exists r. by rewrite Hl1 by (by eapply HMid). }
  destruct (sc_cells _ _ _ _ _ Hc) as (Hz & He & Hlv).
  destruct (wp_inv _ _ (hash_insert _ _ _ Hh1 id r1 ltac:(lia) ltac:(by apply zlookup_zinsert_eq; lia) ltac:(intros p Hp%HMid; lia) HM))
    as ([H2 l2] & -> & Hh2 & Hk2 & Hc2). cbn [rbind]. change (rleft r1) with lhs in Hh2. change (rright r1) with rhs in Hh2.
  assert (zlen l2 = m) as Hlen2 by (rewrite (zlen_kpos_only _ _ Hk2); unfold l1; rewrite zlen_zinsert; done).
  set (s1 := Store (TRarray l2 m (id + 1) (rminsize (Rec s))) H2 (Heap s) (L s)).
  assert (∀ i r, 0 ≤ i < id → recs s !z i = Some r → ∃ k', recs s1 !z i = Some (TRecord (rleft r) (rright r) (rfreq r) (rcpos r) (rhpos r) k')) as Hsim.
  { intros i r Hi Hr. rewrite <-Hl1 in Hr by done. by apply (kpos_only_Some _ _ _ _ Hk2 Hr). }
  destruct (kpos_only_Some l1 l2 id r1 Hk2 ltac:(by apply zlookup_zinsert_eq; lia)) as [k2 Hr2]. change (l2 !z id) with (recs s1 !z id) in Hr2.
  assert (heap_ok s1 F) as Hheap1.
  { eapply heap_ok_ext; [exact Hheap|done|]. intros j f r Hj Hr. destruct (Hsim j r (HF j f Hj) Hr) as [k' Hk']. by eexists. }
  assert (store_core s1 T (<[(lhs, rhs) := id]> M) (k - 1) id) as Hc1.
  { split; try done.
    - split; cbn; [lia|done|lia|]. by destruct Hrec.
    - eapply cells_insert; [apply (hp_ok _ _ _ Hh1)|done|done|done].
    - cbn [s1 Rec rsize]. intros j. split.
      + intros [p [[_ <-]|[_ Hp%HMid]]%lookup_insert_Some]; lia.
      + intros Hj. destruct (decide (j = id)) as [->|]; [exists (lhs, rhs); by rewrite lookup_insert_eq|].
        destruct (proj2 (sc_ids _ _ _ _ _ Hc j)) as [p Hp]; [fold id; lia|]. exists p. rewrite lookup_insert_ne; [done|]. congruence.
    - intros p j [[<- <-]|[Hne Hj]]%lookup_insert_Some Hjx; [done|]. pose proof (HMid p j Hj) as Hjr.
      destruct (sc_occ _ _ _ _ _ Hc p j Hj ltac:(lia)) as [l' Hl']. exists l'. eapply occ_ext; [exact Hl'|done|]. intros r Hr.
      destruct (Hsim j r Hjr Hr) as [k' Hk']. by eexists.
    - intros y p Hy [Hp _]%lookup_insert_None. by apply (sc_dead _ _ _ _ _ Hc y p).
    - apply (sc_range _ _ _ _ _ Hc). }
  apply wp_bind. eapply wp_mono; [eapply (insertHeap_spec junk s1 F id _ Hheap1); [|exact Hr2|cbn; lia]|].
  { destruct (F !! id) as [f|] eqn:E; [|done]. specialize (HF id f E). lia. }
  intros s2 [Hheap2 Hrest]. cbn [wp]. split_and!; [done| |done|apply (rs_L _ _ Hrest)|apply (rs_sqrtu _ _ Hrest)|apply (rs_hmax _ _ Hrest)].
  eapply core_heap; [exact Hc1|exact Hr2|exact Hrest].
Qed.

(** ** Room in the heap *)

Fixpoint total (T : gmap Z pair) (ps : list pair) : Z :=
  match ps with
  | [] => 0
  | p :: ps' => cnt T p + total T ps'
  end.

Lemma total_insert T x q ps :
  T !! x = None → NoDup ps → total (<[x := q]> T) ps = total T ps + (if decide (q ∈ ps) then 1 else 0).
Proof.
  intros Hx. induction ps as [|p ps IH]; intros Hnd; cbn [total].
  - rewrite decide_False; [done|]. apply not_elem_of_nil.
  - apply NoDup_cons in Hnd as [Hp Hnd]. rewrite IH, cnt_insert by done. destruct (decide (q = p)) as [->|Hqp].
    + rewrite (decide_False (P := p ∈ ps)), decide_True by (done || by left). lia.
    + destruct (decide (q ∈ ps)); [rewrite decide_True by (by right); lia|]. rewrite decide_False; [lia|].
      intros [?|?]%elem_of_cons; done.
Qed.

Lemma total_bound T ps : NoDup ps → total T ps ≤ Z.of_nat (size T).
Proof.
  intros Hnd. induction T as [|x q T Hx IH] using map_ind.
  - rewrite map_size_empty. induction ps as [|p ps IH]; [done|]. apply NoDup_cons in Hnd as [_ Hnd]. specialize (IH Hnd). cbn [total].
    assert (cnt ∅ p = 0) by done. lia.
  - rewrite total_insert, map_size_insert_None by done. case_decide; lia.
Qed.

Lemma ids_pairs (M : gmap pair Z) (P : pair → Prop) ids :
  NoDup ids → (∀ id, id ∈ ids → ∃ p, M !! p = Some id ∧ P p) →
  ∃ ps, NoDup ps ∧ length ps = length ids ∧ (∀ p, p ∈ ps → P p ∧ ∃ id, M !! p = Some id ∧ id ∈ ids).
Proof.
  intros Hnd. induction Hnd as [|id ids Hid Hnd IH]; intros Hp.
  - exists []. split_and!; [constructor|done|]. intros p Hpp. by apply not_elem_of_nil in Hpp.
  - destruct IH as (ps & Hnd' & Hlen & Hps); [intros j Hj; apply Hp; by right|]. destruct (Hp id) as (p & HM & HP); [by left|].
    exists (p :: ps). split_and!; [|cbn; lia|].
    + apply NoDup_cons. split; [|done]. intros Hin. destruct (Hps p Hin) as (_ & j & Hj & Hjn). congruence.
    + intros q [->|Hq]%elem_of_cons; [split; [done|]; exists id; split; [done|by left]|]. destruct (Hps q Hq) as (? & j & ? & ?).
      split; [done|]. exists j. split; [done|by right].
Qed.

Lemma freq_map_room s T M oid F :
  freq_map T M oid F → 2 ≤ sqrtu (Heap s) → Z.of_nat (size T) < sqrtu (Heap s) * sqrtu (Heap s) → has_room s F.
Proof.
  intros Hf Hq Hsz. unfold has_room. set (q := sqrtu (Heap s)) in *.
  destruct (ids_pairs M (λ p, q ≤ cnt T p) (elements (dom (frequent q F)))) as (ps & Hnd & Hlen & Hps).
  - apply NoDup_elements.
  - intros id Hid. apply elem_of_elements, elem_of_dom in Hid as [f Hid]. unfold frequent in Hid. apply map_lookup_filter_Some in Hid as [Hid Hge].
    apply Hf in Hid as (_ & p & Hp & ->). by exists p.
  - rewrite <-size_dom. change (size (dom (frequent q F))) with (length (elements (dom (frequent q F)))). rewrite <-Hlen.
    pose proof (total_bound T ps Hnd) as Ht. assert (q * Z.of_nat (length ps) ≤ total T ps) as Hge.
    { clear -Hps. assert (∀ p, p ∈ ps → q ≤ cnt T p) as Hp by (intros p Hpp; by apply Hps). clear Hps.
      induction ps as [|p ps IH]; cbn [total length]; [lia|]. specialize (IH ltac:(intros; apply Hp; by right)). pose proof (Hp p ltac:(by left)). lia. }
    nia.
Qed.

(** ** Adding an occurrence *)

(** The update of the lists for a new first occurrence. *)
Lemma push_L s pos id r next :
  recs s !z id = Some r → 0 ≤ pos < zlen (L s) → next ≠ pos → (next = -1 ∨ 0 ≤ next < zlen (L s)) →
  wp (let* s := upd_L s pos (set_lnext next) in
      let* s := if next =? -1 then Ok s else upd_L s next (set_lprev pos) in
      let* s := upd_L s pos (set_lprev (- id - 1)) in
      upd_rec s id (set_cpos pos))
    (λ s', relinked s s' id (set_cpos pos) ∧
      (∀ y, l_prev s' y = if decide (y = pos) then Some (- id - 1) else if decide (next ≠ -1 ∧ y = next) then Some pos else l_prev s y) ∧
      (∀ y, l_next s' y = if decide (y = pos) then Some next else l_next s y)).
Proof.
  intros Hr Hpos Hne Hnext. destruct (zlookup_total (L s) pos Hpos) as [lp Hlp]. unfold upd_L at 1. rewrite (upd_ok _ _ _ _ Hlp). cbn [rbind].
  set (L1 := zinsert (L s) pos (set_lnext next lp)). assert (zlen L1 = zlen (L s)) as Hlen1 by apply zlen_zinsert.
  assert (∀ y, L1 !z y = if decide (y = pos) then Some (set_lnext next lp) else L s !z y) as HL1 by (intros; by apply zlookup_zinsert).
  assert (∃ L2, (if next =? -1 then Ok (with_L s L1) else upd_L (with_L s L1) next (set_lprev pos)) = Ok (with_L s L2) ∧ zlen L2 = zlen (L s) ∧
    (∀ y, L2 !z y = if decide (next ≠ -1 ∧ y = next) then set_lprev pos <$> L1 !z y else L1 !z y)) as (L2 & -> & Hlen2 & HL2).
  { destruct (Z.eqb_spec next (-1)) as [->|Hn1]; [exists L1; split_and!; [done..|]; intros y; rewrite decide_False; [done|by intros [? _]]|].
    destruct (zlookup_total L1 next) as [ln Hln]; [lia|]. unfold upd_L. cbn [L with_L]. rewrite (upd_ok _ _ _ _ Hln). cbn [rbind].
    eexists. split; [done|]. split; [by rewrite zlen_zinsert|]. intros y. rewrite zlookup_zinsert by lia.
    destruct (decide (y = next)) as [->|]; [by rewrite decide_True, Hln|]. rewrite decide_False; [done|by intros [_ ?]]. }
  cbn [rbind]. assert (L2 !z pos = Some (set_lnext next lp)) as HLp.
  { rewrite HL2, decide_False by (intros [_ ?]; congruence). by rewrite HL1, decide_True. }
  unfold upd_L. cbn [L with_L]. rewrite (upd_ok _ _ _ _ HLp). cbn [rbind]. unfold upd_rec. change (recs (with_L ?t ?l)) with (recs s).
  rewrite (upd_ok _ _ _ _ Hr). cbn [rbind wp]. set (s' := with_recs _ _).
  assert (∀ y, L s' !z y = if decide (y = pos) then Some (TList (- id - 1) next) else if decide (next ≠ -1 ∧ y = next) then set_lprev pos <$> L s !z y else L s !z y) as HL'.
  { intros y. change (L s') with (zinsert L2 pos (set_lprev (- id - 1) (set_lnext next lp))). rewrite zlookup_zinsert by lia. destruct (decide (y = pos)); [done|]. rewrite HL2, HL1. by rewrite (decide_False (P := y = pos)). }
  split_and!.
  - split; try done; [|by exists r]. change (L s') with (zinsert L2 pos (set_lprev (- id - 1) (set_lnext next lp))). by rewrite zlen_zinsert.
  - intros y. unfold l_prev. rewrite HL'. destruct (decide (y = pos)); [done|]. destruct (decide (next ≠ -1 ∧ y = next)) as [[? ->]|]; [|done]. destruct Hnext as [|Hn]; [done|].
    destruct (zlookup_total (L s) next Hn) as [ln ->]. done.
  - intros y. unfold l_next. rewrite HL'. destruct (decide (y = pos)); [done|]. destruct (decide (next ≠ -1 ∧ y = next)); [|done]. by destruct (L s !z y).
Qed.

(** What the operations on occurrences leave alone. *)
Record kept (s s' : store) : Prop := {
  kp_len : zlen (L s') = zlen (L s);
  kp_sqrtu : sqrtu (Heap s') = sqrtu (Heap s);
  kp_hmax : hmax (Heap s') = hmax (Heap s)
}.

#[export] Instance kept_preorder : PreOrder kept.
Proof. split; [by split|]. intros s1 s2 s3 [] []. split; congruence. Qed.

Lemma push_ok s T M k p id pos l q :
  store_core s T M k id → M !! p = Some id → T !! pos = None → 0 ≤ pos < zlen (L s) →
  NoDup l → (∀ x, x ∈ l ↔ T !! x = Some p) → dll (l_prev s) (l_next s) q l (-1) →
  wp (let* s := upd_L s pos (set_lnext (first_or (-1) l)) in
      let* s := if first_or (-1) l =? -1 then Ok s else upd_L s (first_or (-1) l) (set_lprev pos) in
      let* s := upd_L s pos (set_lprev (- id - 1)) in
      upd_rec s id (set_cpos pos))
    (λ s', store_core s' (<[pos := p]> T) M k (-1) ∧ (∀ F, heap_ok s F → heap_ok s' F) ∧ kept s s').
Proof.
  intros Hc Hp Hpos Hr Hnd Hm Hd. destruct (core_record _ _ _ _ _ Hc p id Hp) as (_ & r & Hrec & _).
  assert (∀ y, head l = Some y → 0 ≤ y < zlen (L s) ∧ y ≠ pos) as Hhead.
  { intros y Hy%head_elem%Hm. split; [by eapply (sc_range _ _ _ _ _ Hc)|congruence]. }
  eapply wp_mono; [eapply push_L; [exact Hrec|done| |]|].
  - destruct l as [|y l]; [cbn; lia|]. by destruct (Hhead y).
  - destruct l as [|y l]; [by left|]. right. by destruct (Hhead y).
  - intros s' (Hre & Hprev & Hnext). assert (pushed s pos id l s') as Hpu.
    { split; [|done|done]. intros y. rewrite Hprev. destruct (decide (y = pos)); [done|]. destruct l as [|z l].
      - rewrite decide_False; [done|by intros [? _]].
      - change (first_or (-1) (z :: l)) with z. destruct (Hhead z eq_refl) as [? _]. cbn [head]. destruct (decide (y = z)) as [->|].
        + rewrite !decide_True; [done|done|split; [lia|done]].
        + rewrite !decide_False; [done|congruence|by intros [_ ?]]. }
    split_and!; [by eapply core_push| |].
    + intros F HF. eapply relinked_heap; [exact Hre|apply set_cpos_sim|done].
    + split; [apply Hre|..]; by rewrite (rl_heap _ _ _ _ Hre).
Qed.

(** The maps after an occurrence is added. *)
Lemma freq_map_add T M oid F p id pos :
  freq_map T M oid F → (∀ p q i, M !! p = Some i → M !! q = Some i → p = q) → M !! p = Some id → id ≠ oid → T !! pos = None →
  freq_map (<[pos := p]> T) M oid (<[id := cnt T p + 1]> F).
Proof.
  intros HF Hinj Hp Hoid Hpos j f. rewrite lookup_insert_Some. split.
  - intros [[<- <-]|[Hne (Hj & q & Hq & ->)%HF]]; [split; [done|]; exists p; split; [done|]; by rewrite cnt_insert, decide_True by done|].
    split; [done|]. exists q. split; [done|]. rewrite cnt_insert, decide_False by (done || congruence). lia.
  - intros (Hj & q & Hq & ->). destruct (decide (id = j)) as [<-|Hne].
    + left. split; [done|]. assert (q = p) as -> by (by eapply Hinj). by rewrite cnt_insert, decide_True.
    + right. split; [done|]. apply HF. split; [done|]. exists q. split; [done|]. rewrite cnt_insert, decide_False by (done || congruence). lia.
Qed.

Lemma freq_map_new T M oid F p id :
  freq_map T M oid F → M !! p = None → (∀ q, M !! q ≠ Some id) → id ≠ oid → (∀ x, T !! x ≠ Some p) →
  freq_map T (<[p := id]> M) oid (<[id := 0]> F).
Proof.
  intros HF Hp Hid Hoid Hno j f. assert (cnt T p = 0) as Hz.
  { rewrite (cnt_list T p []); [done|constructor|]. intros x. split; [by intros ?%not_elem_of_nil|by intros ?%Hno]. }
  rewrite lookup_insert_Some. split.
  - intros [[<- <-]|[Hne (Hj & q & Hq & ->)%HF]]; (split; [done|]); [exists p; by rewrite lookup_insert_eq, Hz|].
    exists q. rewrite lookup_insert_ne by congruence. done.
  - intros (Hj & q & [[<- <-]|[Hne Hq]]%lookup_insert_Some & ->); [by left|]. right. split; [intros ->; by apply (Hid q)|].
    apply HF. split; [done|]. by exists q.
Qed.

(** The record of a pair that occurs, or a new one. *)
Definition with_pair (M : gmap pair Z) (p : pair) (id : Z) : gmap pair Z :=
  match M !! p with Some _ => M | None => <[p := id]> M end.

Section add.
Context (junk pos lhs rhs : Z) (s : store) (T : gmap Z pair) (M : gmap pair Z) (oid k : Z).
Context (Hok : store_ok s T M oid k) (Hk : 1 ≤ k) (Hpos : T !! pos = None) (Hr : 0 ≤ pos < zlen (L s)).
Context (Hoid : oid < rsize (Rec s)) (Hnoid : M !! (lhs, rhs) ≠ Some oid).
Context (Hnew : M !! (lhs, rhs) = None → ∀ x, T !! x ≠ Some (lhs, rhs)).
Context (Hsz : Z.of_nat (size T) < sqrtu (Heap s) * sqrtu (Heap s)).

Lemma store_room F : heap_ok s F → freq_map T M oid F → has_room s F.
Proof using Hsz.
  intros (G & fn & ffn & Hh) HF. eapply freq_map_room; [exact HF|apply Hh|done].
Qed.

Lemma add_occ_spec :
  wp (add_occ junk pos lhs rhs s) (λ s', store_ok s' (<[pos := (lhs, rhs)]> T) (with_pair M (lhs, rhs) (rsize (Rec s))) oid (k - 1) ∧ kept s s').
Proof using All.
  destruct Hok as [Hc (F & HF & Hfm)]. unfold add_occ, with_pair. rewrite (core_search _ _ _ _ _ Hc) by done. cbn [rbind].
  assert (∀ p q i, M !! p = Some i → M !! q = Some i → p = q) as Hinj by apply (rep_inj _ _ _ (sc_hash _ _ _ _ _ Hc)).
  destruct (M !! (lhs, rhs)) as [id|] eqn:E.
  - change (default (-1) (Some id)) with id. destruct (core_record _ _ _ _ _ Hc _ id E) as (Hid & r & Hrec & _). destruct (Z.eqb_spec id (-1)); [lia|]. assert (id ≠ oid) by congruence.
    assert (F !! id = Some (cnt T (lhs, rhs))) as HFid by (apply Hfm; split; [done|]; by exists (lhs, rhs)).
    pose proof (core_small _ _ _ _ _ Hc) as [_ Hsm].
    destruct (wp_inv _ _ (incFreq_spec junk s F id _ r HF HFid Hrec (store_room F HF Hfm) ltac:(lia))) as (s1 & -> & HF1 & Hrest). cbn [rbind].
    pose proof (core_heap _ _ _ _ _ _ _ _ _ Hc Hrec Hrest) as Hc1. pose proof (rs_L _ _ Hrest) as HL1. cbn in HL1.
    destruct (sc_occ _ _ _ _ _ Hc1 _ id E ltac:(lia)) as (l & [Hnd Hm Hd (r1 & Hr1 & Hh1)]). rewrite (vget_ok _ _ _ Hr1). cbn [rbind]. rewrite Hh1.
    assert (l ≠ []) as Hl.
    { intros ->. destruct HF as (G & fn & ffn & Hh). pose proof (rep_pos _ _ _ _ _ Hh _ _ HFid). pose proof (cnt_list T _ [] Hnd Hm) as Hz. change (zlen []) with 0 in Hz. lia. }
    assert (store_core s1 T M k id) as Hc1'. { destruct Hc1 as [? ? ? ? Ho ? ?]. split; try done. intros p j Hj _. destruct (core_record _ _ _ _ _ Hc p j Hj). apply Ho; [done|lia]. }
    pose proof (push_ok s1 T M k _ id pos l _ Hc1' E Hpos ltac:(by rewrite HL1) Hnd Hm Hd) as Hpush. destruct l as [|z l]; [done|].
    change (first_or (-1) (z :: l)) with z in *. assert (0 ≤ z) as Hz. { assert (T !! z = Some (lhs, rhs)) as Hzz by (apply Hm; by left). apply (sc_range _ _ _ _ _ Hc) in Hzz. lia. }
    destruct (Z.eqb_spec z (-1)); [lia|]. destruct (upd_L s1 pos (set_lnext z)) as [s2|]; [|done]. cbn [rbind] in *.
    destruct (upd_L s2 z (set_lprev pos)) as [s3|]; [|done]. cbn [rbind] in *. eapply wp_mono; [exact Hpush|].
    intros s' (Hc' & HF' & Hkp). split.
    + split; [|exists (<[id := cnt T (lhs, rhs) + 1]> F); split; [by apply HF'|by apply freq_map_add]].
      destruct Hc' as [? ? (? & ? & ?) ? ? ? ?]. split; try done. split_and!; lia.
    + etrans; [|exact Hkp]. split; [by rewrite HL1|apply Hrest..].
  - assert (∀ j f, F !! j = Some f → 0 ≤ j < rsize (Rec s)) as HFr.
    { intros j f (_ & p & Hp & _)%Hfm. apply (sc_ids _ _ _ _ _ Hc). by exists p. }
    change (default (-1) None =? -1) with true. cbn iota. destruct (wp_inv _ _ (insertRecord_spec junk lhs rhs s T M k F Hc HF HFr E Hk)) as ([id s1] & -> & -> & Hc1 & HF1 & HL1 & Hsq1 & Hmx1).
    cbn [rbind]. set (id := rsize (Rec s)) in *.
    assert (cnt T (lhs, rhs) = 0) as Hz. { rewrite (cnt_list T _ []); [done|constructor|]. intros x. split; [by intros ?%not_elem_of_nil|intros Hx]. by destruct (Hnew eq_refl x). }
    pose proof (push_ok s1 T _ (k - 1) (lhs, rhs) id pos [] 0 Hc1 ltac:(by rewrite lookup_insert_eq) Hpos ltac:(by rewrite HL1) ltac:(constructor)) as Hpush.
    cbn [first_or head default Z.eqb Pos.eqb] in Hpush. destruct (upd_L s1 pos (set_lnext (-1))) as [s2|]; [|destruct Hpush; [|done]]; cbn [rbind] in *.
    2: { intros x. split; [by intros ?%not_elem_of_nil|intros Hx]. by destruct (Hnew eq_refl x). }
    eapply wp_mono; [apply Hpush; [|done]|].
    { intros x. split; [by intros ?%not_elem_of_nil|intros Hx]. by destruct (Hnew eq_refl x). }
    intros s' (Hc' & HF' & Hkp). split.
    + split; [done|]. exists (<[id := 1]> F). split; [by apply HF'|]. rewrite <-(insert_insert_eq F id 1 0).
      replace 1 with (cnt T (lhs, rhs) + 1) by lia. apply freq_map_add; [|..|by rewrite lookup_insert_eq|unfold id; lia|done].
      * apply freq_map_new; [done|done| |unfold id; lia|by apply Hnew]. intros q Hq. assert (0 ≤ id < rsize (Rec s)); [|unfold id in *; lia].
        apply (sc_ids _ _ _ _ _ Hc). by exists q.
      * apply (rep_inj _ _ _ (sc_hash _ _ _ _ _ Hc1)).
    + etrans; [|exact Hkp]. split; [by rewrite HL1|done..].
Qed.
End add.

(** ** Preparation *)

(** The heap operations do not look at the lists. *)
Lemma upd_rec_L s l i f : upd_rec (with_L s l) i f = (let* s' := upd_rec s i f in Ok (with_L s' l)).
Proof. unfold upd_rec. change (recs (with_L s l)) with (recs s). by destruct (upd (recs s) i f). Qed.

Lemma incFreq_L junk id s l : incFreq junk id (with_L s l) = (let* s' := incFreq junk id s in Ok (with_L s' l)).
Proof.
  unfold incFreq. change (recs (with_L s l)) with (recs s). destruct (vget (recs s) id) as [r|]; [|done]. cbn [rbind].
  rewrite upd_rec_L. destruct (upd_rec s id _) as [s1|]; [|done]. cbn [rbind]. change (Heap (with_L s1 l)) with (Heap s1).
  destruct (sqrtu (Heap s1) <=? rfreq r).
  { by destruct (inc_frequent _ _ (Heap s1)). }
  destruct (vget (infreq (Heap s1)) (rfreq r)) as [A|]; [|done]. cbn [rbind]. unfold move at 1 2. change (Heap (with_L s1 l)) with (Heap s1).
  destruct (vget (infreq (Heap s1)) (rfreq r)) as [A'|]; [|done]. cbn [rbind]. destruct (vget (pairs A') _) as [j|]; [|done]. cbn [rbind].
  destruct (vset (pairs A') _ _) as [p|]; [|done]. cbn [rbind]. destruct (vset (infreq (Heap s1)) _ _) as [inf|]; [|done]. cbn [rbind].
  change (with_Heap (with_L s1 l) ?h) with (with_L (with_Heap s1 h) l). rewrite upd_rec_L. destruct (upd_rec (with_Heap s1 _) j _) as [s2|]; [|done]. cbn [rbind].
  unfold delete_infreq. change (Heap (with_L s2 l)) with (Heap s2). destruct (upd (infreq (Heap s2)) _ _) as [inf2|]; [|done]. cbn [rbind].
  change (with_Heap (with_L s2 l) ?h) with (with_L (with_Heap s2 h) l). set (s3 := with_Heap s2 _). change (Heap (with_L s3 l)) with (Heap s3).
  destruct (rfreq r + 1 <? sqrtu (Heap s3)).
  - unfold insert_infreq. change (Heap (with_L s3 l)) with (Heap s3). destruct (vget (infreq (Heap s3)) _) as [B|]; [|done]. cbn [rbind].
    destruct (insertArray junk B id) as [[B' pos]|]; [|done]. cbn [rbind]. destruct (vset (infreq (Heap s3)) _ _) as [inf3|]; [|done]. cbn [rbind].
    change (with_Heap (with_L s3 l) ?h) with (with_L (with_Heap s3 h) l). apply upd_rec_L.
  - unfold enter_frequent. change (Heap (with_L s3 l)) with (Heap s3). cbv zeta. destruct (vget (hfreq (Heap s3)) _) as [fr|]; [|done]. cbn [rbind].
    rewrite upd_rec_L. destruct (upd_rec s3 id _) as [s4|]; [|done]. cbn [rbind]. destruct (upd_node _ _ _) as [H4|]; [|done]. cbn [rbind].
    destruct (has_freq H4 _ _) as [b|]; [|done]. cbn [rbind]. destruct (if b then _ else _) as [[fp H5]|]; [|done]. cbn [rbind].
    destruct (upd_ff fp _ H5) as [H6|]; [|done]. cbn [rbind]. by destruct (upd_node _ _ H6).
Qed.

(** A round of [prepare] adds an occurrence. *)
Lemma prepare_step_add junk inter i lhs rhs s T M k :
  store_ok s T M (-1) k → 1 ≤ k → Z.of_nat (size T) < sqrtu (Heap s) * sqrtu (Heap s) →
  inter !z i = Some lhs → inter !z (i + 1) = Some rhs → prepare_step junk inter i s = add_occ junk i lhs rhs s.
Proof.
  intros [Hc (F & HF & Hfm)] Hk Hsz Hl Hr. unfold prepare_step, add_occ. rewrite (vget_ok _ _ _ Hl), (vget_ok _ _ _ Hr). cbn [rbind].
  rewrite (core_search _ _ _ _ _ Hc) by done. cbn [rbind]. destruct (M !! (lhs, rhs)) as [id|] eqn:E; [|done].
  change (default (-1) (Some id)) with id. destruct (core_record _ _ _ _ _ Hc _ id E) as (Hid & r & Hrec & _). destruct (Z.eqb_spec id (-1)); [lia|].
  assert (F !! id = Some (cnt T (lhs, rhs))) as HFid by (apply Hfm; split; [done|]; by exists (lhs, rhs)).
  pose proof (core_small _ _ _ _ _ Hc) as [_ Hsm]. assert (has_room s F) as Hroom.
  { pose proof HF as (G & fn & ffn & Hh). eapply freq_map_room; [exact Hfm|apply Hh|done]. }
  destruct (wp_inv _ _ (incFreq_spec junk s F id _ r HF HFid Hrec Hroom ltac:(lia))) as (s1 & Hinc & HF1 & Hrest).
  assert (L s1 = L s) as HL1 by apply (rs_L _ _ Hrest). pose proof (zlookup_range _ _ _ Hrec) as Hir.
  destruct (hpos_only_Some _ _ id (set_freq (cnt T (lhs, rhs) + 1) r) (rs_recs _ _ Hrest)) as [p Hr1]; [by apply zlookup_zinsert_eq|].
  rewrite (vget_ok _ _ _ Hrec), Hinc. cbn [rbind]. rewrite (vget_ok _ _ _ Hr1). cbn [rbind rcpos set_hpos set_freq].
  unfold upd_L at 1 4. rewrite HL1. destruct (upd (L s) i _) as [l1|]; [|done]. cbn [rbind]. unfold upd_L at 1 3. cbn [L with_L].
  destruct (upd l1 (rcpos r) _) as [l2|]; [|done]. cbn [rbind]. change (with_L (with_L ?t l1) l2) with (with_L t l2).
  rewrite incFreq_L, Hinc. done.
Qed.

(** ** Removing a record *)

Lemma deleteRecord_spec junk R :
  rec_ok R → 1 ≤ rsize R →
  rec_ok (deleteRecord junk R) ∧ rsize (deleteRecord junk R) = rsize R - 1 ∧
  ∀ i, 0 ≤ i < rsize R - 1 → records (deleteRecord junk R) !z i = records R !z i.
Proof.
  intros [Hs Hb Hm Hmin] H1. unfold deleteRecord. destruct (Z.eqb_spec (rsize R - 1) 0) as [He|He].
  - split_and!; [split; cbn; done || lia|done|]. intros i Hi. lia.
  - destruct (_ && _) eqn:E.
    + apply andb_true_iff in E as [E1%Z.ltb_lt E2%Z.leb_le]. rewrite !f32_small in E1, E2 by lia. unfold shrink. rewrite f32_small by lia.
      pose proof (Z.div_mod (rmaxsize R) 2 ltac:(lia)) as Hdiv. pose proof (Z.mod_pos_bound (rmaxsize R) 2 ltac:(lia)) as Hmod.
      split_and!; [split; cbn; rewrite ?zlen_realloc by lia; done || lia|done|]. intros i Hi. cbn. apply zlookup_realloc; lia.
    + split_and!; [split; cbn; done || lia|done|done].
Qed.

(** Change the previous field of the first cell of a list, if there is one. *)
Lemma set_first_prev s l v :
  (∀ y, head l = Some y → 0 ≤ y < zlen (L s)) →
  wp (if first_or (-1) l =? -1 then Ok s else upd_L s (first_or (-1) l) (set_lprev v)) (λ s', ∃ L', s' = with_L s L' ∧ zlen L' = zlen (L s) ∧
    (∀ y, l_prev s' y = if decide (head l = Some y) then Some v else l_prev s y) ∧ (∀ y, l_next s' y = l_next s y)).
Proof.
  intros Hr. destruct l as [|z l].
  - cbn. exists (L s). split_and!; [by destruct s|done|done|done].
  - change (first_or (-1) (z :: l)) with z. specialize (Hr z eq_refl). destruct (Z.eqb_spec z (-1)); [lia|].
    destruct (zlookup_total (L s) z Hr) as [lz Hlz]. unfold upd_L. rewrite (upd_ok _ _ _ _ Hlz). cbn [rbind wp]. eexists. split; [done|]. cbn [head].
    unfold l_prev, l_next. cbn [L with_L]. split_and!; [apply zlen_zinsert| |].
    + intros y. rewrite zlookup_zinsert by done. destruct (decide (y = z)) as [->|]; [by rewrite decide_True|]. by rewrite decide_False by congruence.
    + intros y. rewrite zlookup_zinsert by done. destruct (decide (y = z)) as [->|]; [by rewrite Hlz|done].
Qed.

(** The record [last] takes the number [id] of the pair [p], which is removed. *)
Definition renumbered (M : gmap pair Z) (p : pair) (id last : Z) (M' : gmap pair Z) : Prop :=
  ∀ q j, M' !! q = Some j ↔ q ≠ p ∧ ((M !! q = Some last ∧ j = id) ∨ (M !! q = Some j ∧ j ≠ last)).

Lemma occ_short s T id p l : occ_list s T id p l → cnt T p ≤ 1 → l = [] ∨ ∃ y, l = [y].
Proof.
  intros [Hnd Hm _ _] Hc. rewrite (cnt_list T p l Hnd Hm) in Hc. destruct l as [|y [|z l]]; [by left|right; by exists y|].
  rewrite !zlen_cons in Hc. pose proof (zlen_nonneg l). lia.
Qed.

(** The lists after the removal: those of other pairs, and the marks. *)
Lemma core_remove s s' T M M' k p pl id l ll :
  store_core s T M k (-1) → M !! p = Some id → occ_list s T id p l → cnt T p ≤ 1 →
  let last := rsize (Rec s) - 1 in
  M !! pl = Some last → occ_list s T last pl ll → renumbered M p id last M' →
  rec_ok (Rec s') → rsize (Rec s') = last → hash_rep (Hash s') (recs s') M' →
  (zlen (table (Hash s')), empties (table (Hash s'))) = (zlen (table (Hash s)), empties (table (Hash s))) →
  live (table (Hash s')) = live (table (Hash s)) - 1 →
  zlen (L s') = zlen (L s) → (∀ y, l_next s' y = l_next s y) →
  (∀ y, l_prev s' y = if decide (id ≠ last ∧ head ll = Some y) then Some (- id - 1)
     else if decide (head l = Some y) then Some NullFreq else l_prev s y) →
  (∀ j, 0 ≤ j < last → recs s' !z j = recs s !z (if decide (j = id) then last else j)) →
  store_core s' T M' k (-1).
Proof.
  intros Hc Hp Hl Hcnt last Hpl Hll HM' Hrec Hrs Hh [= Hz He] Hlv HLl Hnext Hprev Hrecs.
  pose proof (core_record _ _ _ _ _ Hc p id Hp) as [Hid _]. assert (∀ p q i, M !! p = Some i → M !! q = Some i → p = q) as Hinj by apply (rep_inj _ _ _ (sc_hash _ _ _ _ _ Hc)).
  split; rewrite ?Hz, ?He, ?Hlv, ?Hrs, ?HLl; try done.
  - destruct (sc_cells _ _ _ _ _ Hc) as (? & ? & ?). split_and!; lia.
  - intros j. split.
    + intros [q [Hne [[Hq ->]|[Hq Hj]]]%HM'].
      * pose proof (core_record _ _ _ _ _ Hc q last Hq) as [? _]. assert (id ≠ last) by (intros E; rewrite E in Hp; apply Hne; by eapply Hinj). unfold last in *. lia.
      * pose proof (core_record _ _ _ _ _ Hc q j Hq) as [? _]. unfold last in *. lia.
    + intros Hj. destruct (decide (j = id)) as [->|Hne].
      * exists pl. apply HM'. split; [|by left]. intros ->. rewrite Hpl in Hp. injection Hp as Hp. lia.
      * destruct (proj2 (sc_ids _ _ _ _ _ Hc j)) as [q Hq]; [unfold last in *; lia|]. exists q. apply HM'. split; [congruence|]. right. split; [done|lia].
  - intros q j [Hne HM]%HM' _. assert (∀ y, T !! y = Some q → ¬ head l = Some y) as Hnl.
    { intros y Hy E%head_elem. destruct Hl as [_ Hm _ _]. apply Hm in E. congruence. }
    destruct HM as [[Hq ->]|[Hq Hj]].
    + assert (q = pl) as -> by (by eapply Hinj). assert (id ≠ last) as Hil by (intros E; rewrite E in Hp; apply Hne; by eapply Hinj).
      exists ll. destruct Hll as [Hnd Hm Hd (r & Hr & Hhr)]. split; [done|done| |].
      * apply (dll_relink (l_prev s) (l_next s) _ _ (- last - 1) ll (-1) _ _ Hd Hnd).
        -- intros y Hy. rewrite Hprev. destruct (decide (head ll = Some y)); [by rewrite decide_True|]. rewrite decide_False by (by intros [_ ?]).
           rewrite decide_False; [done|]. apply Hnl. by apply Hm.
        -- intros y Hy. rewrite Hnext. destruct (decide (list.last ll = Some y)) as [E|]; [|done]. apply last_Some in E as [ll' ->]. rewrite dll_app in Hd. by destruct Hd as [_ (_ & ? & _)].
      * exists r. split; [|done]. rewrite Hrecs by (unfold last in *; lia). by rewrite decide_True.
    + pose proof (core_record _ _ _ _ _ Hc q j Hq) as [Hjr _]. assert (j ≠ id) as Hji by (intros ->; apply Hne; by eapply Hinj).
      destruct (sc_occ _ _ _ _ _ Hc q j Hq ltac:(lia)) as [lq [Hnd Hm Hd (r & Hr & Hhr)]]. exists lq. split; [done|done| |].
      * eapply dll_frame; [exact Hd|]. intros y Hy%Hm. split; [|apply Hnext]. rewrite Hprev, !decide_False; [done|by apply Hnl|].
        intros [_ E%head_elem]. destruct Hll as [_ Hml _ _]. apply Hml in E. congruence.
      * exists r. split; [|done]. rewrite Hrecs by (unfold last in *; lia). by rewrite decide_False.
  - intros y q Hy HM. destruct (decide (q = p)) as [->|Hqp].
    + destruct (occ_short _ _ _ _ _ Hl Hcnt) as [->|[z ->]].
      { apply (ol_mem _ _ _ _ _ Hl) in Hy. by apply not_elem_of_nil in Hy. }
      assert (y = z) as ->. { apply (ol_mem _ _ _ _ _ Hl) in Hy. by apply list_elem_of_singleton in Hy. }
      assert (l_prev s' z = Some NullFreq ∧ l_next s' z = Some (-1)) as [H1 H2].
      { rewrite Hprev, Hnext. destruct (ol_dll _ _ _ _ _ Hl) as (_ & Hn & _). split; [|done]. rewrite decide_False, decide_True; [done|done|].
        intros [Hil E%head_elem]. apply (ol_mem _ _ _ _ _ Hll) in E. assert (pl = p) by congruence. subst. congruence. }
      unfold l_prev, l_next in *. destruct (L s' !z z) as [[]|]; [|done]. cbn in *. by simplify_eq.
    + assert (M !! q = None) as Hq.
      { destruct (M !! q) as [j|] eqn:Ej; [|done]. exfalso. destruct (decide (j = last)) as [->|].
        - assert (M' !! q = Some id) as E by (apply HM'; split; [done|by left]). congruence.
        - assert (M' !! q = Some j) as E by (apply HM'; split; [done|by right]). congruence. }
      rewrite <-(sc_dead _ _ _ _ _ Hc y q Hy Hq). apply L_eq; [|apply Hnext]. rewrite Hprev, !decide_False; [done| |].
      * intros E%head_elem. apply (ol_mem _ _ _ _ _ Hl) in E. congruence.
      * intros [_ E%head_elem]. apply (ol_mem _ _ _ _ _ Hll) in E. congruence.
  - apply (sc_range _ _ _ _ _ Hc).
Qed.

Lemma renumber_last M p id : (∀ p q i, M !! p = Some i → M !! q = Some i → p = q) → M !! p = Some id → renumbered M p id id (delete p M).
Proof.
  intros Hinj Hp q j. rewrite lookup_delete_Some. split.
  - intros [Hne Hq]. split; [done|]. right. split; [done|]. intros ->. apply Hne. by eapply Hinj.
  - intros [Hne [[Hq ->]|[Hq _]]]; (split; [done|done]).
Qed.

Lemma renumber_other M p pl id last :
  (∀ p q i, M !! p = Some i → M !! q = Some i → p = q) → M !! p = Some id → M !! pl = Some last → id ≠ last →
  renumbered M p id last (<[pl := id]> (delete p M)).
Proof.
  intros Hinj Hp Hpl Hne q j. rewrite lookup_insert_Some, lookup_delete_Some. split.
  - intros [[<- <-]|(Hq1 & Hq2 & Hq)]; [split; [congruence|by left]|]. split; [done|]. right. split; [done|]. intros ->. apply Hq1. by eapply Hinj.
  - intros [Hq [[Hql ->]|[Hqj Hj]]]; [left; split; [by eapply Hinj|done]|]. right. split_and!; [congruence|done|done].
Qed.

(** The end of [removeRecord], when the pair has left the hash table ([H1]) and its
    occurrence list is cut off ([L2]). *)
Section removal.
Context (junk : Z) (s : store) (T : gmap Z pair) (M : gmap pair Z) (k lp rp id : Z) (H' : Theap) (pl : pair) (rl : Trecord) (l ll : list Z) (H1 : Thash) (L2 : list Tlist).
Local Abbreviation last := (rsize (Rec s) - 1).
Local Abbreviation s2 := (with_L (with_Hash s H1) L2).
Context (Hc : store_core s T M k (-1)) (Hp : M !! (lp, rp) = Some id) (Hcnt : cnt T (lp, rp) ≤ 1) (Hid : 0 ≤ id < rsize (Rec s)).
Context (Hl : occ_list s T id (lp, rp) l) (Hpl : M !! pl = Some last) (Hrl : recs s !z last = Some rl) (Hll : occ_list s T last pl ll) (Hhl : rcpos rl = first_or (-1) ll).
Context (Hh1 : hash_rep H1 (recs s) (delete (lp, rp) M)) (Hz1 : zlen (table H1) = zlen (table (Hash s))) (He1 : empties (table H1) = empties (table (Hash s))) (Hl1 : live (table H1) = live (table (Hash s)) - 1).
Context (HlenL2 : zlen L2 = zlen (L s)) (Hprev2 : ∀ y, l_prev s2 y = if decide (head l = Some y) then Some NullFreq else l_prev s y) (Hnext2 : ∀ y, l_next s2 y = l_next s y).

(** The record is the last one. *)
Lemma remove_last : id = last → H' = Heap s → let s' := with_Rec s2 (deleteRecord junk (Rec s)) in
  ∃ M', renumbered M (lp, rp) id last M' ∧ store_core s' T M' k (-1) ∧ Heap s' = H' ∧
    zlen (L s') = zlen (L s) ∧ rsize (Rec s') = last ∧
    (∀ j, 0 ≤ j < last → recs s' !z j = recs s !z (if decide (j = id) then last else j)).
Proof using All.
  intros E -> s'. pose proof (rep_inj _ _ _ (sc_hash _ _ _ _ _ Hc)) as Hinj. pose proof (sc_rec _ _ _ _ _ Hc) as Hrec.
  destruct (deleteRecord_spec junk (Rec s) Hrec ltac:(lia)) as (Hrec' & Hsz' & Hrecs').
  exists (delete (lp, rp) M).
  assert (renumbered M (lp, rp) id last (delete (lp, rp) M)) as HM' by (rewrite <-E; by apply renumber_last).
  assert (∀ j, 0 ≤ j < last → recs s' !z j = recs s !z (if decide (j = id) then last else j)) as Hrecs.
  { intros j Hj. rewrite decide_False by lia. by apply Hrecs'. }
  split_and!; [done| |done|done|done|done].
  eapply (core_remove s s' T M _ k (lp, rp) pl id l ll Hc Hp Hl Hcnt Hpl Hll HM' Hrec' Hsz'); [|cbn; congruence|done|done|exact Hnext2| |exact Hrecs].
  + eapply hash_rep_ext; [exact Hh1|]. intros q j rj [Hq1 Hq2]%lookup_delete_Some Hrj. exists rj. split; [|done].
    pose proof (core_record _ _ _ _ _ Hc q j Hq2) as [Hj _]. assert (j ≠ id) by (intros ->; apply Hq1; by eapply Hinj).
    rewrite Hrecs by (unfold last in *; lia). by rewrite decide_False.
  + intros y. change (l_prev s' y) with (l_prev s2 y). rewrite Hprev2. by rewrite (decide_False (P := _ ∧ _)) by (intros [? _]; done).
Qed.

(** The last record takes its place. *)
Lemma remove_other : id ≠ last → repos_heap id rl (Heap s) = Ok H' →
  wp (let* s0 := let* last0 := vget (recs s2) last in
       let* l0 := vset (recs s2) id last0 in
       let* H := hashRepos (Hash (with_recs s2 l0)) (recs (with_recs s2 l0)) id in
       let* s0 := heapRepos id (with_Hash (with_recs s2 l0) H) in
       let* r0 := vget (recs s0) id in
       if rcpos r0 =? -1 then Ok s0 else upd_L s0 (rcpos r0) (set_lprev (- id - 1)) in
      Ok (with_Rec s0 (deleteRecord junk (Rec s0)))) (λ s', ∃ M', renumbered M (lp, rp) id last M' ∧ store_core s' T M' k (-1) ∧ Heap s' = H' ∧
    zlen (L s') = zlen (L s) ∧ rsize (Rec s') = last ∧
    (∀ j, 0 ≤ j < last → recs s' !z j = recs s !z (if decide (j = id) then last else j))).
Proof using All.
  intros E Hrepos. pose proof (rep_inj _ _ _ (sc_hash _ _ _ _ _ Hc)) as Hinj. pose proof (sc_rec _ _ _ _ _ Hc) as Hrec. pose proof (ro_buf _ Hrec) as Hbuf. pose proof (ro_size _ Hrec) as Hrsz.
  assert (∀ y, head ll = Some y → 0 ≤ y < zlen (L s)) as Hrange. { intros y Hy%head_elem%(ol_mem _ _ _ _ _ Hll). by eapply (sc_range _ _ _ _ _ Hc). }
  change (recs s2) with (recs s). rewrite (vget_ok _ _ _ Hrl). cbn [rbind]. rewrite vset_ok by (unfold recs; lia). cbn [rbind].
  change (recs (with_recs s2 ?l)) with l. change (Hash (with_recs s2 _)) with H1.
  assert (delete (lp, rp) M !! pl = Some last) as Hpl1. { rewrite lookup_delete_ne; [done|]. congruence. }
  destruct (wp_inv _ _ (hash_repos H1 (recs s) _ pl last id rl Hh1 Hpl1 ltac:(intros q [Hq1 Hq2]%lookup_delete_Some; apply Hq1; by eapply Hinj) ltac:(unfold recs; lia) Hrl))
    as (H3 & -> & Hh3 & Hz3 & He3 & Hl3). cbn [rbind]. set (s3 := with_Hash (with_recs s2 (zinsert (recs s) id rl)) H3).
  assert (recs s3 !z id = Some rl) as Hr3 by (apply zlookup_zinsert_eq; unfold recs; lia).
  rewrite (heapRepos_eq id s3 rl Hr3). change (Heap s3) with (Heap s). rewrite Hrepos. cbn [rbind].
  change (recs (with_Heap s3 H')) with (recs s3). rewrite (vget_ok _ _ _ Hr3). cbn [rbind]. rewrite Hhl.
  destruct (wp_inv _ _ (set_first_prev (with_Heap s3 H') ll (- id - 1) ltac:(intros y Hy; change (zlen (L (with_Heap s3 H'))) with (zlen L2);
    rewrite HlenL2; by apply Hrange))) as (s4 & -> & L4 & -> & HlenL4 & Hprev4 & Hnext4). cbn [rbind wp].
  assert (rec_ok (with_records (Rec s) (zinsert (recs s) id rl))) as Hrec4 by (destruct Hrec; split; cbn; try done; by rewrite zlen_zinsert).
  change (Rec (with_L (with_Heap s3 H') L4)) with (with_records (Rec s) (zinsert (recs s) id rl)).
  destruct (deleteRecord_spec junk _ Hrec4 ltac:(cbn; lia)) as (Hrec' & Hsz' & Hrecs'). set (s' := with_Rec _ _).
  exists (<[pl := id]> (delete (lp, rp) M)). assert (renumbered M (lp, rp) id last (<[pl := id]> (delete (lp, rp) M))) as HM' by (by apply renumber_other).
  assert (∀ j, 0 ≤ j < last → recs s' !z j = recs s !z (if decide (j = id) then last else j)) as Hrecs.
  { intros j Hj. change (recs s') with (records (deleteRecord junk (with_records (Rec s) (zinsert (recs s) id rl)))). rewrite Hrecs' by done.
    cbn [records with_records]. rewrite zlookup_zinsert by (unfold recs; lia). case_decide; [by rewrite Hrl|done]. }
  assert (zlen (L s') = zlen (L s)) as HL' by (change (L s') with L4; rewrite HlenL4; done).
  split_and!; [done| |done|done|done|done].
  eapply (core_remove s s' T M _ k (lp, rp) pl id l ll Hc Hp Hl Hcnt Hpl Hll HM' Hrec' Hsz').
  + eapply hash_rep_ext; [exact Hh3|]. intros q j rj Hq Hrj. exists rj. split; [|done]. apply HM' in Hq as [_ Hq]. rewrite zlookup_zinsert in Hrj by (unfold recs; lia).
    assert (0 ≤ j < last) as Hj. { destruct Hq as [[_ ->]|[Hq ?]]; [unfold last in *; lia|]. pose proof (core_record _ _ _ _ _ Hc q j Hq) as [? _]. unfold last in *; lia. }
    rewrite Hrecs by done. case_decide; [by rewrite Hrl|done].
  + cbn. congruence.
  + cbn. lia.
  + done.
  + intros y. change (l_next s' y) with (l_next (with_L (with_Heap s3 H') L4) y). rewrite Hnext4. apply Hnext2.
  + intros y. change (l_prev s' y) with (l_prev (with_L (with_Heap s3 H') L4) y). rewrite Hprev4. destruct (decide (head ll = Some y)).
    * by rewrite decide_True.
    * rewrite (decide_False (P := _ ∧ _)) by (by intros [_ ?]). apply Hprev2.
  + exact Hrecs.
Qed.
End removal.

Lemma removeRecord_spec junk s T M k p id H' :
  store_core s T M k (-1) → M !! p = Some id → cnt T p ≤ 1 →
  let last := rsize (Rec s) - 1 in
  (id = last → H' = Heap s) → (id ≠ last → ∀ r, recs s !z last = Some r → repos_heap id r (Heap s) = Ok H') →
  wp (removeRecord junk id s) (λ s', ∃ M', renumbered M p id last M' ∧ store_core s' T M' k (-1) ∧ Heap s' = H' ∧
    zlen (L s') = zlen (L s) ∧ rsize (Rec s') = last ∧
    (∀ j, 0 ≤ j < last → recs s' !z j = recs s !z (if decide (j = id) then last else j))).
Proof.
  intros Hc Hp Hcnt last Heq Hne. destruct p as [lp rp]. destruct (core_record _ _ _ _ _ Hc _ id Hp) as (Hid & r & Hr & _).
  assert (∀ p q i, M !! p = Some i → M !! q = Some i → p = q) as Hinj by apply (rep_inj _ _ _ (sc_hash _ _ _ _ _ Hc)).
  destruct (sc_occ _ _ _ _ _ Hc _ id Hp ltac:(lia)) as [l Hl]. pose proof Hl as [Hnd Hm Hd (r' & Hr' & Hh)]. assert (r' = r) as -> by congruence.
  destruct (proj2 (sc_ids _ _ _ _ _ Hc last)) as [pl Hpl]; [unfold last; lia|]. destruct (core_record _ _ _ _ _ Hc _ last Hpl) as (_ & rl & Hrl & _).
  destruct (sc_occ _ _ _ _ _ Hc _ last Hpl ltac:(unfold last in *; lia)) as [ll Hll]. pose proof Hll as [_ Hml _ (rl' & Hrl' & Hhl)].
  assert (rl' = rl) as -> by congruence. pose proof (sc_rec _ _ _ _ _ Hc) as Hrec. pose proof (ro_buf _ Hrec) as Hbuf. pose proof (ro_size _ Hrec) as Hrsz.
  assert (∀ l q, (∀ x, x ∈ l ↔ T !! x = Some q) → ∀ y, head l = Some y → 0 ≤ y < zlen (L s)) as Hrange.
  { intros l0 q0 Hm0 y Hy%head_elem%Hm0. by eapply (sc_range _ _ _ _ _ Hc). }
  unfold removeRecord. destruct (wp_inv _ _ (hash_delete _ _ _ (sc_hash _ _ _ _ _ Hc) lp rp id Hp)) as (H1 & -> & Hh1 & Hz1 & He1 & Hl1). cbn [rbind].
  change (recs (with_Hash s H1)) with (recs s). rewrite (vget_ok _ _ _ Hr). cbn [rbind].
  pose proof (set_first_prev (with_Hash s H1) l NullFreq (Hrange l _ Hm)) as Hkill.
  match goal with |- wp (rbind ?m _) _ => assert (m = if first_or (-1) l =? -1 then Ok (with_Hash s H1) else upd_L (with_Hash s H1) (first_or (-1) l) (set_lprev NullFreq)) as -> end.
  { rewrite Hh. destruct l as [|y l]; [done|]. change (first_or (-1) (y :: l)) with y. destruct (y =? -1); [done|]. cbn [L with_Hash].
    destruct Hd as [Hdp _]. unfold l_prev in Hdp. destruct (L s !z y) as [ly|] eqn:Ely; [|done]. injection Hdp as Hdp.
    rewrite (vget_ok _ _ _ Ely). cbn [rbind]. rewrite Hdp, Z.eqb_refl. done. }
  destruct (wp_inv _ _ Hkill) as (s2 & -> & L2 & -> & HlenL2 & Hprev2 & Hnext2). cbn [rbind]. set (s2 := with_L (with_Hash s H1) L2) in *.
  change (rsize (Rec s2)) with (rsize (Rec s)). fold last. destruct (Z.eqb_spec id last) as [E|E].
  - cbn [rbind wp]. by apply (remove_last junk s T M k lp rp id H' pl rl l ll H1 L2); auto.
  - by apply (remove_other junk s T M k lp rp id H' pl rl l ll H1 L2); auto.
Qed.

(** ** Removing an occurrence *)

Definition unlink_occ (id pos : Z) (s : store) : res store :=
  let* l := vget (L s) pos in
  if lprev l =? NullFreq then Ok s else
  let* s :=
    if lprev l <? 0 then upd_rec s id (set_cpos (lnext l))
    else upd_L s (lprev l) (set_lnext (lnext l)) in
  let* l := vget (L s) pos in
  if lnext l =? -1 then Ok s else upd_L s (lnext l) (set_lprev (lprev l)).

Lemma unlink_occ_spec s T id p pos l1 l2 r :
  occ_list s T id p (l1 ++ pos :: l2) → 0 ≤ id < 2 ^ 20 → recs s !z id = Some r → (∀ y q, T !! y = Some q → 0 ≤ y < zlen (L s)) →
  wp (unlink_occ id pos s) (popped s pos id l1 l2).
Proof.
  intros [Hnd Hm Hd _] Hid Hr Hrange. destruct (head_last_mid _ _ _ Hnd) as (Hx1 & Hx2 & _ & _ & Hdis).
  assert (∀ y, y ∈ l1 ++ pos :: l2 → 0 ≤ y < zlen (L s)) as Hin by (intros y Hy%Hm; by eapply Hrange).
  destruct (dll_at _ _ _ _ _ _ _ Hd) as [HP HN]. unfold l_prev, l_next in HP, HN. destruct (L s !z pos) as [lp|] eqn:Hlp; [|done].
  injection HP as HP. injection HN as HN. unfold unlink_occ. rewrite (vget_ok _ _ _ Hlp). cbn [rbind]. rewrite HP, HN.
  pose proof (zlookup_range _ _ _ Hr) as Hir. unfold NullFreq, INT_MIN.
  assert (∃ s1, (if last_or (- id - 1) l1 <? 0 then upd_rec s id (set_cpos (first_or (-1) l2))
      else upd_L s (last_or (- id - 1) l1) (set_lnext (first_or (-1) l2))) = Ok s1 ∧ L s1 !z pos = Some lp ∧
    zlen (L s1) = zlen (L s) ∧ (∀ y, l_prev s1 y = l_prev s y) ∧
    (∀ y, l_next s1 y = if decide (last l1 = Some y) then Some (first_or (-1) l2) else l_next s y) ∧
    relinked s s1 id (λ r, if decide (l1 = []) then set_cpos (first_or (-1) l2) r else r)) as (s1 & Hs1 & Hlp1 & Hlen1 & Hp1 & Hn1 & Hre1).
  { destruct l1 as [|w l1 _] using rev_ind.
    - change (last_or (- id - 1) []) with (- id - 1). destruct (Z.ltb_spec (- id - 1) 0); [|lia]. unfold upd_rec. rewrite (upd_ok _ _ _ _ Hr). cbn [rbind].
      eexists. split; [done|]. split_and!; try done. split; try done. exists r. split; [done|]. by rewrite decide_True.
    - assert (0 ≤ w < zlen (L s)) as Hw by (apply Hin; list_in). rewrite last_or_snoc. destruct (Z.ltb_spec w 0); [lia|].
      destruct (zlookup_total (L s) w Hw) as [lw Hlw]. unfold upd_L. rewrite (upd_ok _ _ _ _ Hlw). cbn [rbind]. eexists. split; [done|].
      assert (pos ≠ w) by (intros ->; apply Hx1; list_in). rewrite last_snoc. unfold l_prev, l_next. cbn [L with_L]. split_and!.
      + rewrite zlookup_zinsert by done. by rewrite decide_False.
      + apply zlen_zinsert.
      + intros y. rewrite zlookup_zinsert by done. destruct (decide (y = w)) as [->|]; [by rewrite Hlw|done].
      + intros y. rewrite zlookup_zinsert by done. destruct (decide (y = w)) as [->|]; [by rewrite decide_True|]. by rewrite decide_False by congruence.
      + split; cbn [L with_L]; try done; [apply zlen_zinsert|]. exists r. split; [done|]. rewrite decide_False by (by destruct l1).
        unfold with_records. cbn [Rec with_L]. rewrite zinsert_id by done. unfold recs. by destruct (Rec s). }
  destruct (Z.eqb_spec (last_or (- id - 1) l1) (- 2 ^ 31)) as [E|_].
  { destruct l1 as [|w l1 _] using rev_ind; [change (- id - 1 = - 2 ^ 31) in E; lia|]. rewrite last_or_snoc in E.
    assert (0 ≤ w < zlen (L s)) by (apply Hin; list_in). lia. }
  rewrite Hs1. cbn [rbind]. rewrite (vget_ok _ _ _ Hlp1). cbn [rbind]. rewrite HN, HP.
  eapply wp_mono; [apply (set_first_prev s1 l2 (last_or (- id - 1) l1))|].
  { intros y Hy%head_elem. rewrite Hlen1. apply Hin. list_in. }
  intros s2 (L2 & -> & Hlen2 & Hp2 & Hn2). split.
  - intros y _. by rewrite Hp2, Hp1.
  - intros y _. by rewrite Hn2, Hn1.
  - destruct Hre1 as [? ? ? ?]. split; cbn; try done. lia.
Qed.

(** Removing a record that is out of the heap. *)
Lemma removeRecord_ok junk s T M k p id oid F :
  store_core s T M k (-1) → M !! p = Some id → cnt T p ≤ 1 → heap_ok s F → freq_map T (delete p M) oid F →
  let last := rsize (Rec s) - 1 in
  (id ≠ oid → oid ≠ last) →
  wp (removeRecord junk id s) (λ s', ∃ M', renumbered M p id last M' ∧
    store_ok s' T M' (if decide (id = oid) then -1 else oid) k ∧ kept s s').
Proof.
  intros Hc Hp Hcnt HF Hfm last Hlast. assert (∀ p q i, M !! p = Some i → M !! q = Some i → p = q) as Hinj by apply (rep_inj _ _ _ (sc_hash _ _ _ _ _ Hc)).
  destruct (core_record _ _ _ _ _ Hc p id Hp) as (Hid & _).
  assert (∀ j f, F !! j = Some f ↔ j ≠ oid ∧ j ≠ id ∧ ∃ q, M !! q = Some j ∧ f = cnt T q) as HF'.
  { intros j f. rewrite (Hfm j f). split.
    - intros (Hj & q & [Hq1 Hq2]%lookup_delete_Some & ->). split_and!; [done| |by exists q]. intros ->. apply Hq1. by eapply Hinj.
    - intros (Hj & Hji & q & Hq & ->). split; [done|]. exists q. rewrite lookup_delete_ne by congruence. done. }
  destruct (proj2 (sc_ids _ _ _ _ _ Hc last)) as [pl Hpl]; [unfold last; lia|].
  set (oid' := if decide (id = oid) then -1 else oid).
  destruct (decide (id = last)) as [E|E].
  - eapply wp_mono; [eapply (removeRecord_spec junk s T M k p id (Heap s) Hc Hp Hcnt); [done|by intros ?]|].
    intros s' (M' & HM' & Hc' & HH & HL & Hrs & Hrecs). fold last in HM', Hrs, Hrecs. exists M'. split_and!; [done| |split; [done|by rewrite HH..]]. split; [done|]. exists F. split.
    + eapply heap_ok_ext; [exact HF|done|]. intros j f r (_ & Hji & q & Hq & _)%HF' Hr. exists r. split; [|done].
      pose proof (core_record _ _ _ _ _ Hc q j Hq) as [? _]. rewrite Hrecs by (unfold last in *; lia). by rewrite decide_False.
    + intros j f. rewrite HF'. split.
      * intros (Hj & Hji & q & Hq & ->). pose proof (core_record _ _ _ _ _ Hc q j Hq) as [? _]. split; [unfold oid'; case_decide; lia|].
        exists q. split; [|done]. apply HM'. split; [intros ->; congruence|]. right. split; [done|lia].
      * intros (Hj & q & [Hne [[Hq ->]|[Hq Hjl]]]%HM' & ->).
        -- destruct Hne. rewrite E in Hp. by eapply Hinj.
        -- split_and!; [|lia|by exists q]. intros ->. unfold oid' in Hj. case_decide; [lia|done].
  - destruct (core_record _ _ _ _ _ Hc pl last Hpl) as (_ & rl & Hrl & _).
    assert (last ≠ oid) as Hlo. { destruct (decide (id = oid)) as [->|Hio]; [done|]. specialize (Hlast Hio). done. }
    assert (F !! last = Some (cnt T pl)) as HFl. { apply HF'. split_and!; [done|congruence|by exists pl]. }
    assert (F !! id = None) as HFid. { destruct (F !! id) as [f|] eqn:Ef; [|done]. apply HF' in Ef as (_ & ? & _). done. }
    destruct HF as (G & fn & ffn & Hh). destruct (wp_inv _ _ (repos_heap_spec s F G fn ffn id last _ rl Hh HFid HFl Hrl)) as (H' & HH' & G' & Hrep & Hsq & Hmx).
    eapply wp_mono; [eapply (removeRecord_spec junk s T M k p id H' Hc Hp Hcnt); [by intros ?|intros _ r Hr; fold last in Hr; congruence]|].
    intros s' (M' & HM' & Hc' & HH & HL & Hrs & Hrecs). fold last in HM', Hrs, Hrecs. exists M'. split_and!; [done| |split; [done|by rewrite HH..]]. split; [done|].
    exists (<[id := cnt T pl]> (delete last F)). split.
    + exists G', fn, ffn. apply Hrep; [done| |].
      * rewrite Hrecs by (unfold last in *; lia). by rewrite decide_True.
      * intros j Hj1 Hj2 [f (_ & _ & q & Hq & _)%HF']. pose proof (core_record _ _ _ _ _ Hc q j Hq) as [? _]. rewrite Hrecs by (unfold last in *; lia). by rewrite decide_False.
    + intros j f. rewrite lookup_insert_Some, lookup_delete_Some, HF'. split.
      * intros [[<- <-]|(Hj1 & Hj2 & Hj3 & _ & q & Hq & ->)].
        -- split; [unfold oid'; case_decide; lia|]. exists pl. split; [|done]. apply HM'. split; [congruence|by left].
        -- pose proof (core_record _ _ _ _ _ Hc q j Hq) as [? _]. split; [unfold oid'; case_decide; lia|]. exists q. split; [|done].
           apply HM'. split; [intros ->; congruence|]. right. split; [done|congruence].
      * intros (Hj & q & [Hne [[Hq ->]|[Hq Hjl]]]%HM' & ->).
        -- left. split; [done|]. f_equal. by eapply Hinj.
        -- assert (j ≠ id) as Hji by (intros ->; apply Hne; by eapply Hinj). right. split_and!; [congruence|congruence| |done|by exists q].
           intros ->. unfold oid' in Hj. case_decide; congruence.
Qed.

(** A position whose pair has no record may be forgotten. *)
Lemma cnt_delete_ne T x p q : T !! x = Some p → q ≠ p → cnt (delete x T) q = cnt T q.
Proof. intros Hx Hne. rewrite (cnt_delete _ _ _ _ Hx), decide_False by congruence. lia. Qed.

Lemma store_ok_dead s T M oid k pos p : store_ok s T M oid k → T !! pos = Some p → M !! p = None → store_ok s (delete pos T) M oid k.
Proof.
  intros [Hc (F & HF & Hfm)] Hpos Hp. split.
  - destruct Hc as [? ? ? ? Ho Hd Hr]. split; try done.
    + intros q j Hj Hx. destruct (Ho q j Hj Hx) as [l [Hnd Hm Hdl Hh]]. exists l. split; try done. intros y. rewrite Hm, lookup_delete_Some.
      split; [intros Hy; split; [congruence|done]|by intros [_ ?]].
    + intros y q [_ Hy]%lookup_delete_Some. by apply Hd.
    + intros y q [_ Hy]%lookup_delete_Some. by eapply Hr.
  - exists F. split; [done|]. intros j f. rewrite (Hfm j f). split; intros (Hj & q & Hq & ->); (split; [done|]); exists q; (split; [done|]);
      rewrite (cnt_delete_ne _ _ _ _ Hpos) by congruence; done.
Qed.

Definition dropped (M : gmap pair Z) (p : pair) (oid : Z) (M' : gmap pair Z) : Prop :=
  (∀ q, is_Some (M' !! q) ↔ is_Some (M !! q) ∧ q ≠ p) ∧ (∀ q, M' !! q = Some oid ↔ M !! q = Some oid).

Lemma renumbered_dropped M p id oid last M' :
  renumbered M p id last M' → M !! p = Some id → id ≠ oid → last ≠ oid → dropped M p oid M'.
Proof.
  intros HM Hp Hio Hlo. split.
  - intros q. split.
    + intros [j [Hne [[Hq _]|[Hq _]]]%HM]; (split; [by eexists|done]).
    + intros [[j Hj] Hne]. destruct (decide (j = last)) as [->|].
      * exists id. apply HM. split; [done|by left].
      * exists j. apply HM. split; [done|by right].
  - intros q. split.
    + intros [Hne [[_ ?]|[Hq _]]]%HM; [congruence|done].
    + intros Hq. apply HM. split; [intros ->; congruence|]. right. by split.
Qed.

Section remove.
Context (junk pos : Z) (p : pair) (s : store) (T : gmap Z pair) (M : gmap pair Z) (oid k : Z).
Context (Hok : store_ok s T M oid k) (Hk : 1 ≤ k) (Hpos : T !! pos = Some p).
Context (Hsz : Z.of_nat (size T) < sqrtu (Heap s) * sqrtu (Heap s)).
Context (Hlast : is_Some (M !! p) → M !! p ≠ Some oid → cnt T p = 1 → oid ≠ rsize (Rec s) - 1).

(** The last occurrence of a pair: its record goes. *)
Definition vanishes : Prop := is_Some (M !! p) ∧ M !! p ≠ Some oid ∧ cnt T p = 1.

#[export] Instance vanishes_dec : Decision vanishes.
Proof using. unfold vanishes. apply _. Defined.

Lemma unlink_ok s1 id F1 :
  store_core s1 T M k (-1) → M !! p = Some id → heap_ok s1 F1 → freq_map (delete pos T) M oid F1 →
  wp (unlink_occ id pos s1) (λ s', store_ok s' (delete pos T) M oid k ∧ kept s1 s').
Proof using Hpos.
  intros Hc Hp HF Hfm. destruct (core_record _ _ _ _ _ Hc p id Hp) as (Hid & r & Hr & _). pose proof (core_small _ _ _ _ _ Hc) as [_ Hsm].
  pose proof (zlookup_range _ _ _ Hr) as Hir. destruct (sc_occ _ _ _ _ _ Hc p id Hp ltac:(lia)) as [l Hl].
  assert (pos ∈ l) as Hin by (by apply (ol_mem _ _ _ _ _ Hl)). apply list_elem_of_split in Hin as (l1 & l2 & ->).
  eapply wp_mono; [eapply (unlink_occ_spec s1 T id p pos l1 l2 r Hl); [lia|done|apply (sc_range _ _ _ _ _ Hc)]|].
  intros s' Hpop. split.
  - split; [by eapply core_pop|]. exists F1. split; [|done]. eapply relinked_heap; [apply Hpop| |done]. intros r0. destruct (decide (l1 = [])); by destruct r0.
  - destruct Hpop as [_ _ [? _ _ HH]]. split; [done|by rewrite HH..].
Qed.

Lemma remove_occ_spec :
  wp (remove_occ junk oid pos p.1 p.2 s) (λ s', ∃ M', store_ok s' (delete pos T) M' oid k ∧ kept s s' ∧
    if decide vanishes then dropped M p oid M' else M' = M).
Proof using All.
  destruct Hok as [Hc (F & HF & Hfm)]. pose proof (core_small _ _ _ _ _ Hc) as [_ Hsm].
  assert (∀ p q i, M !! p = Some i → M !! q = Some i → p = q) as Hinj by apply (rep_inj _ _ _ (sc_hash _ _ _ _ _ Hc)).
  unfold remove_occ. rewrite (core_search _ _ _ _ _ Hc) by done. cbn [rbind]. rewrite <-surjective_pairing. destruct (M !! p) as [id|] eqn:E.
  2: { change (default (-1) None =? -1) with true. cbn [wp]. exists M. split_and!; [by eapply store_ok_dead|done|]. rewrite decide_False; [done|].
       intros [[? ?] _]. congruence. }
  change (default (-1) (Some id)) with id. destruct (core_record _ _ _ _ _ Hc p id E) as (Hid & r & Hr & _). destruct (Z.eqb_spec id (-1)); [lia|].
  change (wp (let* s0 := (if id =? oid then Ok s else decFreq junk id s) in unlink_occ id pos s0) (λ s', ∃ M', store_ok s' (delete pos T) M' oid k ∧ kept s s' ∧
    if decide vanishes then dropped M p oid M' else M' = M)).
  destruct (Z.eqb_spec id oid) as [->|Hio].
  - cbn [rbind]. eapply wp_mono; [apply (unlink_ok s oid F Hc E HF)|].
    + intros j f. rewrite (Hfm j f). split; intros (Hj & q & Hq & ->); (split; [done|]); exists q; (split; [done|]); rewrite (cnt_delete_ne _ _ _ _ Hpos) by congruence; done.
    + intros s' [Hs' Hkp]. exists M. split_and!; [done..|]. rewrite decide_False; [done|]. by intros (_ & ? & _).
  - assert (F !! id = Some (cnt T p)) as HFid by (apply Hfm; split; [done|]; by exists p). pose proof (cnt_pos T pos p Hpos) as Hcp.
    destruct (decide (cnt T p = 1)) as [H1|H1].
    + rewrite H1 in HFid. destruct (decFreq_last junk s F id r HF HFid Hr) as (s1 & -> & HF1 & Hrest). apply wp_bind.
      assert (rsize (Rec s1) = rsize (Rec s)) as Hrs by (pose proof (rs_dims _ _ Hrest) as [= _ ? _]; done).
      specialize (Hlast ltac:(by eexists) ltac:(congruence) H1).
      eapply wp_mono; [eapply (removeRecord_ok junk s1 T M k p id oid (delete id F)); [by eapply core_heap|done|lia|done| |]|].
      * intros j f. rewrite lookup_delete_Some, (Hfm j f). split.
        -- intros (Hj & Hjo & q & Hq & ->). split; [done|]. exists q. rewrite lookup_delete_ne by congruence. done.
        -- intros (Hjo & q & [Hq1 Hq2]%lookup_delete_Some & ->). split_and!; [|done|by exists q]. intros ->. apply Hq1. by eapply Hinj.
      * by rewrite Hrs.
      * rewrite Hrs. intros s2 (M' & HM' & Hs2 & Hkp). rewrite decide_False in Hs2 by done.
        assert (dropped M p oid M') as Hdr by (by eapply renumbered_dropped).
        assert (M' !! p = None) as Hp'. { destruct (M' !! p) as [j|] eqn:Ej; [|done]. destruct (proj1 Hdr p) as [[_ ?] _]; [by eexists|done]. }
        destruct Hs2 as [Hc2 HF2]. unfold unlink_occ. rewrite (vget_ok _ _ _ (sc_dead _ _ _ _ _ Hc2 pos p Hpos Hp')). cbn [rbind lprev]. rewrite Z.eqb_refl. cbn [wp].
        exists M'. split_and!; [by eapply store_ok_dead| |].
        -- etrans; [|exact Hkp]. split; [by rewrite (rs_L _ _ Hrest)|apply Hrest..].
        -- rewrite decide_True; [done|]. split_and!; [by eexists|congruence|done].
    + destruct (wp_inv _ _ (decFreq_spec junk s F id _ r HF HFid ltac:(lia) Hr (store_room s T M oid Hsz F HF Hfm) ltac:(lia))) as (s1 & -> & HF1 & Hrest). cbn [rbind].
      eapply wp_mono; [apply (unlink_ok s1 id _ (core_heap _ _ _ _ _ _ _ _ _ Hc Hr Hrest) E HF1)|].
      * intros j f. rewrite lookup_insert_Some, (Hfm j f). split.
        -- intros [[<- <-]|(Hj & Hjo & q & Hq & ->)]; (split; [done|]); [exists p; split; [done|]; by rewrite (cnt_delete _ _ _ _ Hpos), decide_True|].
           exists q. split; [done|]. rewrite (cnt_delete_ne _ _ _ _ Hpos) by congruence. done.
        -- intros (Hjo & q & Hq & ->). destruct (decide (id = j)) as [<-|Hj]; [left; split; [done|]; assert (q = p) as -> by (by eapply Hinj); by rewrite (cnt_delete _ _ _ _ Hpos), decide_True|].
           right. split_and!; [done..|]. exists q. split; [done|]. rewrite (cnt_delete_ne _ _ _ _ Hpos) by congruence. done.
      * intros s' [Hs' Hkp]. exists M. split_and!; [done| |rewrite decide_False; [done|by intros (_ & _ & ?)]].
        etrans; [|exact Hkp]. split; [by rewrite (rs_L _ _ Hrest)|apply Hrest..].
Qed.
End remove.
