(* ===== verification/RPurge.v ===== *)
(** * Purging

    [purgeHeap] of [compress/heap.cc]: the records of frequency 1 are removed.  The
    loop walks over the array of frequency 1 while [removeRecord] renumbers records
    of this very array. *)

From stdpp Require Import gmap.
From S2P Require Import Prelude Csr RArray RHash RMap RHeap RBuckets Dll RFreq RPrio RRepair RStore.

(** The heap with the array [B] for frequency 1. *)
Definition clear1 (H : Theap) (B : Tarray) : Theap := with_infreq H (zinsert (infreq H) 1 B).

Lemma zinsert_comm {A} (l : list A) i j x y : i ≠ j → 0 ≤ i → 0 ≤ j → zinsert (zinsert l i x) j y = zinsert (zinsert l j y) i x.
Proof. intros. unfold zinsert. apply list_insert_insert_ne. lia. Qed.

Lemma repos_clear id r H B :
  rfreq r ≠ 1 → 0 ≤ rfreq r → repos_heap id r (clear1 H B) = (let* H' := repos_heap id r H in Ok (clear1 H' B)).
Proof.
  intros Hr Hr0. unfold repos_heap. change (sqrtu (clear1 H B)) with (sqrtu H). destruct (rfreq r <? sqrtu H).
  - change (infreq (clear1 H B)) with (zinsert (infreq H) 1 B).
    assert (zinsert (infreq H) 1 B !z rfreq r = infreq H !z rfreq r) as Hsame by (apply zlookup_zinsert_ne; lia).
    unfold vget. rewrite Hsame. destruct (infreq H !z rfreq r) as [A|] eqn:HA; [|done]. cbn [rbind]. destruct (vset (pairs A) _ _) as [p|]; [|done]. cbn [rbind].
    pose proof (zlookup_range _ _ _ HA) as Hfr. rewrite !vset_ok by (rewrite ?zlen_zinsert; lia). cbn [rbind].
    unfold clear1, with_infreq. cbn. do 2 f_equal. apply zinsert_comm; lia.
  - unfold upd_node. change (hfreq (clear1 H B)) with (hfreq H). by destruct (upd (hfreq H) _ _).
Qed.

Lemma repos_in_1 id r H A B :
  rfreq r = 1 → 2 ≤ sqrtu H → infreq H !z 1 = Some A → 0 ≤ rhpos r < zlen (pairs A) →
  ∃ H', repos_heap id r H = Ok H' ∧ clear1 H' B = clear1 H B ∧
    infreq H' !z 1 = Some (TArray (zinsert (pairs A) (rhpos r) id) (amaxsize A) (asize A) (aminsize A)) ∧ hmax H' = hmax H ∧ sqrtu H' = sqrtu H.
Proof.
  intros Hr Hs HA Hp. unfold repos_heap. rewrite Hr. destruct (Z.ltb_spec 1 (sqrtu H)); [|lia]. rewrite (vget_ok _ _ _ HA). cbn [rbind].
  rewrite vset_ok by done. cbn [rbind]. pose proof (zlookup_range _ _ _ HA). rewrite vset_ok by done. cbn [rbind]. eexists. split; [done|].
  split_and!; try done.
  - unfold clear1, with_infreq. cbn. by rewrite zinsert_zinsert.
  - cbn [infreq with_infreq]. by apply zlookup_zinsert_eq.
Qed.

(** The state before round [i] of [n]; [B] is the array of frequency 1 in the end. *)
Record purge_array (s : store) (A : Tarray) (T : gmap Z pair) (M : gmap pair Z) (i n : Z) : Prop := {
  pa_size : asize A = n ∧ n ≤ amaxsize A ∧ zlen (pairs A) = amaxsize A;
  pa_in : ∀ y, i ≤ y < n → ∃ q id r, pairs A !z y = Some id ∧ M !! q = Some id ∧ cnt T q = 1 ∧ recs s !z id = Some r ∧ rhpos r = y;
  pa_out : ∀ q id, M !! q = Some id → cnt T q = 1 → ∃ r, recs s !z id = Some r ∧ rfreq r = 1 ∧ i ≤ rhpos r < n ∧ pairs A !z rhpos r = Some id
}.

Definition rare_free (T : gmap Z pair) (M : gmap pair Z) (F : gmap Z Z) : Prop :=
  ∀ j f, F !! j = Some f ↔ f ≠ 1 ∧ ∃ q, M !! q = Some j ∧ f = cnt T q.

Record purging (s : store) (T : gmap Z pair) (M : gmap pair Z) (k i n : Z) (B : Tarray) : Prop := {
  pg_core : store_core s T M k (-1);
  pg_sqrtu : 2 ≤ sqrtu (Heap s);
  pg_heap : ∃ F, heap_ok (with_Heap s (clear1 (Heap s) B)) F ∧ rare_free T M F;
  pg_array : ∃ A, infreq (Heap s) !z 1 = Some A ∧ destroyArray A = B ∧ purge_array s A T M i n
}.

(** The array of frequency 1 after record [last] took the number [id]. *)
Lemma purge_array_step s s' A A' T M M' q pl rl id last i n :
  (∀ p q i, M !! p = Some i → M !! q = Some i → p = q) → purge_array s A T M i n → 0 ≤ i < n →
  pairs A !z i = Some id → M !! q = Some id → M !! pl = Some last → recs s !z last = Some rl →
  renumbered M q id last M' → (∀ j, (∃ p, M' !! p = Some j) → recs s' !z j = recs s !z (if decide (j = id) then last else j)) →
  asize A' = asize A → amaxsize A' = amaxsize A → (pairs A' = if decide (id ≠ last ∧ cnt T pl = 1) then zinsert (pairs A) (rhpos rl) id else pairs A) →
  purge_array s' A' T M' (i + 1) n.
Proof.
  intros Hinj [(Hn & Hcap & Hbuf) Hin Hout] Hi Hid Hq Hpl Hrl HM' Hrecs Hsz Hmx Hpairs.
  assert (cnt T pl = 1 → i ≤ rhpos rl < n ∧ rfreq rl = 1 ∧ pairs A !z rhpos rl = Some last) as Hpos.
  { intros H1. destruct (Hout pl last Hpl H1) as (r & Hr & ? & ? & ?). by simplify_eq. }
  assert (∀ y, pairs A' !z y = if decide (id ≠ last ∧ cnt T pl = 1 ∧ y = rhpos rl) then Some id else pairs A !z y) as HA'.
  { intros y. rewrite Hpairs. destruct (decide (id ≠ last ∧ cnt T pl = 1)) as [[Hne H1]|Hno].
    - destruct (Hpos H1) as (? & _ & ?). rewrite zlookup_zinsert by (by eapply zlookup_range).
      destruct (decide (y = rhpos rl)); [by rewrite decide_True|]. rewrite decide_False; [done|]. tauto.
    - rewrite decide_False; [done|]. tauto. }
  split.
  - split_and!; [lia|lia|]. rewrite Hpairs. case_decide; rewrite ?zlen_zinsert; lia.
  - intros y Hy. destruct (Hin y ltac:(lia)) as (q' & j & r & Hj & Hq' & H1 & Hr & Hp). rewrite HA'.
    assert (j ≠ id) as Hji.
    { intros ->. destruct (Hin i ltac:(lia)) as (? & ? & r' & Hi' & _ & _ & Hr' & Hp'). simplify_eq. lia. }
    destruct (decide (j = last)) as [->|Hjl].
    + assert (q' = pl) as -> by (by eapply Hinj). simplify_eq. assert (M' !! pl = Some id) as HMpl by (apply HM'; split; [congruence|by left]).
      exists pl, id, rl. rewrite decide_True by done. split_and!; [done|done|done| |done]. rewrite Hrecs by (by exists pl). by rewrite decide_True.
    + assert (M' !! q' = Some j) as HMq by (apply HM'; split; [congruence|by right]). exists q', j, r. split_and!; [|done|done| |done].
      * rewrite decide_False; [done|]. intros (Hne & H1' & ->). destruct (Hpos H1') as (_ & _ & ?). congruence.
      * rewrite Hrecs by (by exists q'). by rewrite decide_False.
  - intros q' j [Hne HM]%HM' H1. destruct HM as [[Hq' ->]|[Hq' Hjl]].
    + assert (q' = pl) as -> by (by eapply Hinj). destruct (Hpos H1) as (Hr1 & Hf1 & Hp1).
      assert (id ≠ last) as Hil by (intros ->; apply Hne; by eapply Hinj). assert (rhpos rl ≠ i) by (intros E; rewrite E in Hp1; congruence).
      exists rl. rewrite Hrecs by (exists pl; apply HM'; split; [done|by left]). rewrite decide_True by done. split_and!; [done|done|lia|lia|].
      rewrite HA'. by rewrite decide_True.
    + assert (j ≠ id) as Hji by (intros ->; apply Hne; by eapply Hinj). destruct (Hout q' j Hq' H1) as (r & Hr & Hf & Hp & Hpj).
      assert (rhpos r ≠ i) by (intros E; rewrite E in Hpj; congruence). exists r. rewrite Hrecs by (exists q'; apply HM'; split; [done|by right]).
      rewrite decide_False by done. split_and!; [done|done|lia|lia|]. rewrite HA', decide_False; [done|]. intros (_ & H1' & E).
      destruct (Hpos H1') as (_ & _ & Hpl'). rewrite <-E in Hpl'. congruence.
Qed.

Section step.
Context (s : store) (T : gmap Z pair) (M : gmap pair Z) (k i n : Z) (B A : Tarray) (F : gmap Z Z) (q pl : pair) (id : Z) (rl : Trecord).
Context (Hc : store_core s T M k (-1)) (Hsq : 2 ≤ sqrtu (Heap s)) (HF : heap_ok (with_Heap s (clear1 (Heap s) B)) F) (HFm : rare_free T M F).
Context (HA : infreq (Heap s) !z 1 = Some A) (HB : destroyArray A = B) (Hpa : purge_array s A T M i n) (Hi : 0 ≤ i < n).
Context (Hq : M !! q = Some id) (Hcq : cnt T q = 1).
Local Abbreviation last := (rsize (Rec s) - 1).
Context (Hpl : M !! pl = Some last) (Hrl : recs s !z last = Some rl).

Let Hinj : ∀ p q i, M !! p = Some i → M !! q = Some i → p = q := rep_inj _ _ _ (sc_hash _ _ _ _ _ Hc).

Lemma freqs_other j f : F !! j = Some f → j ≠ id ∧ ∃ p, M !! p = Some j ∧ f = cnt T p ∧ cnt T p ≠ 1 ∧ p ≠ q.
Proof using Hcq HFm Hq Hinj.
  intros (Hf & p & Hp & Hfp)%HFm. assert (p ≠ q) as Hpq by congruence. split; [|exists p; split_and!; [done..| |done]; congruence].
  intros E. apply Hpq. apply (Hinj _ _ id); [by rewrite <-E|done].
Qed.

(** The representation when no frequent record moved. *)
Lemma purge_unmoved s' M' : (id = last ∨ cnt T pl = 1) → renumbered M q id last M' →
  (∀ j, (∃ p, M' !! p = Some j) → recs s' !z j = recs s !z (if decide (j = id) then last else j)) →
  heap_ok (with_Heap s' (clear1 (Heap s) B)) F ∧ rare_free T M' F.
Proof using All.
  assert (∀ j f, F !! j = Some f → j ≠ id) as Hnid by (intros j f Hj; by apply (freqs_other j f)).
  assert (∀ j f, F !! j = Some f → ∃ p, M !! p = Some j ∧ f = cnt T p ∧ cnt T p ≠ 1 ∧ p ≠ q) as HFM by (intros j f Hj; by apply (freqs_other j f)).
  intros Hcase HM' Hrecs. assert (∀ j f, F !! j = Some f → j ≠ last) as Hnl.
  { intros j f Hj ->. destruct (HFM _ _ Hj) as (p & Hp & _ & H1 & Hpq). assert (p = pl) as -> by (by eapply Hinj). destruct Hcase as [E|E]; [|done].
    apply Hpq. apply (Hinj _ _ id); congruence. }
  split.
  - eapply heap_ok_ext; [exact HF|done|]. intros j f r Hj Hr. destruct (HFM _ _ Hj) as (p & Hp & _ & _ & Hpq). exists r. split; [|done].
    change (recs (with_Heap s' _)) with (recs s'). rewrite Hrecs by (exists p; apply HM'; split; [done|right; split; [done|by eapply Hnl]]).
    rewrite decide_False by (by eapply Hnid). done.
  - intros j f. rewrite (HFm j f). split; intros (Hf & p & Hp & ->); (split; [done|]).
    + exists p. split; [|done]. apply HM'. split; [congruence|]. right. split; [done|]. eapply Hnl. apply HFm. split; [done|]. by exists p.
    + apply HM' in Hp as [Hpq [[Hp ->]|[Hp _]]]; [|by exists p]. assert (p = pl) as -> by (by eapply Hinj). destruct Hcase as [E|E]; [|done].
      exists pl. split; [by rewrite E|done].
Qed.

(** Renumbering a record of a higher frequency keeps the array of frequency 1. *)
Lemma repos_keeps_1 H' : rfreq rl ≠ 1 → repos_heap id rl (Heap s) = Ok H' → infreq H' !z 1 = Some A.
Proof using HA.
  intros Hne HH'. unfold repos_heap in HH'. destruct (rfreq rl <? sqrtu (Heap s)); [|by unfold upd_node in HH'; destruct (upd _ _ _); [injection HH' as <-|]].
  destruct (vget (infreq (Heap s)) (rfreq rl)) as [C|] eqn:EC; [|done]. cbn [rbind] in HH'. destruct (vset (pairs C) _ _) as [p|]; [|done]. cbn [rbind] in HH'.
  destruct (vset (infreq (Heap s)) _ _) as [inf|] eqn:Ei; [|done]. injection HH' as <-. cbn [infreq with_infreq].
  unfold vget in EC. destruct (infreq (Heap s) !z rfreq rl) as [C'|] eqn:EC'; [|done]. pose proof (zlookup_range _ _ _ EC'). rewrite vset_ok in Ei by done. injection Ei as <-.
  rewrite zlookup_zinsert_ne by lia. done.
Qed.

(** The frequencies when a frequent record moved. *)
Lemma purge_moved M' : id ≠ last → cnt T pl ≠ 1 → renumbered M q id last M' → rare_free T M' (<[id := cnt T pl]> (delete last F)).
Proof using All.
  intros E H1 HM' j f. rewrite lookup_insert_Some, lookup_delete_Some, (HFm j f). split.
  - intros [[<- <-]|(Hj1 & Hj2 & Hf & p & Hp & ->)]; (split; [done|]).
    + exists pl. split; [|done]. apply HM'. split; [congruence|by left].
    + exists p. split; [|done]. apply HM'. split; [congruence|]. right. split; [done|congruence].
  - intros (Hf & p & [Hpq [[Hp ->]|[Hp Hjl]]]%HM' & ->).
    + left. split; [done|]. f_equal. by eapply Hinj.
    + right. split_and!; [intros <-; apply Hpq; by eapply Hinj|congruence|done|by exists p].
Qed.

(** The heap and the array of frequency 1 after the renumbering. *)
Lemma purge_heap_step :
  ∃ H' A', (id = last → H' = Heap s) ∧ (id ≠ last → repos_heap id rl (Heap s) = Ok H') ∧
    infreq H' !z 1 = Some A' ∧ destroyArray A' = B ∧ asize A' = asize A ∧ amaxsize A' = amaxsize A ∧ sqrtu H' = sqrtu (Heap s) ∧ hmax H' = hmax (Heap s) ∧
    (pairs A' = if decide (id ≠ last ∧ cnt T pl = 1) then zinsert (pairs A) (rhpos rl) id else pairs A) ∧
    (∀ s' M', Heap s' = H' → renumbered M q id last M' →
      (∀ j, (∃ p, M' !! p = Some j) → recs s' !z j = recs s !z (if decide (j = id) then last else j)) →
      ∃ F', heap_ok (with_Heap s' (clear1 H' B)) F' ∧ rare_free T M' F').
Proof using All.
  pose proof Hpa as [(Hn & Hcap & Hbuf) _ Hout].
  assert (∀ j f, F !! j = Some f → j ≠ id) as Hnid.
  { intros j f Hj. by apply (freqs_other j f). }
  assert (∀ j f, F !! j = Some f → ∃ p, M !! p = Some j ∧ f = cnt T p ∧ cnt T p ≠ 1 ∧ p ≠ q) as HFM.
  { intros j f Hj. by apply (freqs_other j f). }
  destruct (decide (id = last)) as [E|E].
  { exists (Heap s), A. split_and!; try done. { rewrite decide_False by (by intros [? _]). done. }
    intros s' M' HH HM' Hrecs. exists F. apply purge_unmoved; [by left|done|done]. }
  destruct (decide (cnt T pl = 1)) as [H1|H1].
  - destruct (Hout pl _ Hpl H1) as (r & Hr & Hfr & Hpr & _). assert (r = rl) as -> by congruence.
    destruct (repos_in_1 id rl (Heap s) A B Hfr Hsq HA ltac:(lia)) as (H' & HH' & Hcl & HA' & Hmx & Hsq').
    eexists H', _. split_and!; [done|done|exact HA'| |done|done|done|done| |].
    + rewrite <-HB. unfold destroyArray. cbn [amaxsize aminsize]. destruct (Z.eqb_spec (amaxsize A) 0) as [Hz|]; [|done].
      lia.
    + by rewrite decide_True.
    + intros s' M' HH HM' Hrecs. exists F. rewrite Hcl. apply purge_unmoved; [by right|done|done].
  - assert (F !! last = Some (cnt T pl)) as HFl by (apply HFm; split; [done|]; by exists pl).
    assert (F !! id = None) as HFid. { destruct (F !! id) as [f|] eqn:Ef; [|done]. by destruct (Hnid id f Ef). }
    destruct HF as (G & fn & ffn & Hh). destruct (hr_rec _ _ _ _ _ Hh _ _ HFl) as (r & Hr & Hfr & _). assert (r = rl) as -> by (unfold recs in *; cbn in Hr; congruence).
    pose proof (cnt_nonneg T pl) as Hnn.
    destruct (wp_inv _ _ (repos_heap_spec _ F G fn ffn id _ _ rl Hh HFid HFl Hr)) as (H1' & HH1 & G' & Hrep & Hs1 & Hm1). cbn [Heap with_Heap] in HH1, Hs1, Hm1.
    rewrite repos_clear in HH1 by lia. destruct (repos_heap id rl (Heap s)) as [H'|] eqn:HH'; [|done]. cbn [rbind] in HH1. injection HH1 as <-.
    assert (infreq H' !z 1 = Some A) as HA' by (apply repos_keeps_1; [congruence|done]).
    exists H', A. split_and!; try done. { rewrite decide_False by (by intros [_ ?]). done. }
    intros s' M' HH HM' Hrecs. exists (<[id := cnt T pl]> (delete last F)). split.
    + exists G', fn, ffn. apply Hrep; [done| |].
      * change (recs (with_Heap s' _)) with (recs s'). rewrite Hrecs by (exists pl; apply HM'; split; [congruence|by left]). by rewrite decide_True.
      * intros j Hj1 Hj2 [f Hj]. destruct (HFM _ _ Hj) as (p & Hp & _ & _ & Hpq). change (recs (with_Heap s' _)) with (recs s').
        rewrite Hrecs by (exists p; apply HM'; split; [done|right; done]). by rewrite decide_False.
    + by apply purge_moved.
Qed.
End step.

Lemma purge_step junk s T M k i n B :
  purging s T M k i n B → 0 ≤ i < n →
  wp (let* A := vget (infreq (Heap s)) 1 in
      let* id := vget (pairs A) i in
      removeRecord junk id s) (λ s', ∃ q M', purging s' T M' k (i + 1) n B ∧ kept s s' ∧ cnt T q = 1 ∧
        ∀ q', is_Some (M' !! q') ↔ is_Some (M !! q') ∧ q' ≠ q).
Proof.
  intros [Hc Hsq (F & HF & HFm) (A & HA & HB & Hpa)] Hi. destruct (pa_in _ _ _ _ _ _ Hpa i ltac:(lia)) as (q & id & _ & Hid & Hq & Hcq & _).
  rewrite (vget_ok _ _ _ HA). cbn [rbind]. rewrite (vget_ok _ _ _ Hid). cbn [rbind].
  destruct (core_record _ _ _ _ _ Hc q id Hq) as (Hidr & _). set (last := rsize (Rec s) - 1).
  destruct (proj2 (sc_ids _ _ _ _ _ Hc last)) as [pl Hpl]; [unfold last; lia|]. destruct (core_record _ _ _ _ _ Hc pl last Hpl) as (_ & rl & Hrl & _).
  destruct (purge_heap_step s T M k i n B A F q pl id rl Hc Hsq HF HFm HA HB Hpa Hi Hq Hcq Hpl Hrl)
    as (H' & A' & Heq & Hne & HA' & HB' & Hsz & Hmx & Hsq' & Hhm & Hpairs & Hnew).
  eapply wp_mono; [apply (removeRecord_spec junk s T M k q id H' Hc Hq ltac:(lia) Heq); intros E r Hr; fold last in Hr; assert (r = rl) as -> by congruence; by apply Hne|].
  intros s' (M' & HM' & Hc' & HH & HL & Hrs & Hrecs). exists q, M'.
  assert (∀ j, (∃ p, M' !! p = Some j) → recs s' !z j = recs s !z (if decide (j = id) then last else j)) as Hrecs'.
  { intros j Hj. apply Hrecs. apply (sc_ids _ _ _ _ _ Hc') in Hj. by rewrite Hrs in Hj. }
  split_and!; [|by split; rewrite ?HH|done|].
  - split; rewrite ?HH; try done; [by rewrite Hsq'|by apply Hnew|]. exists A'. split_and!; [done|done|].
    eapply purge_array_step; [apply (rep_inj _ _ _ (sc_hash _ _ _ _ _ Hc))|exact Hpa|done|done|exact Hq|exact Hpl|exact Hrl|exact HM'|exact Hrecs'|done|done|done].
  - intros q'. split.
    + intros [j [Hne' [[Hj _]|[Hj _]]]%HM']; (split; [by eexists|done]).
    + intros [[j Hj] Hne']. destruct (decide (j = last)) as [->|]; [exists id|exists j]; apply HM'; (split; [done|]); [by left|by right].
Qed.

Lemma purge_start s T M k :
  store_ok s T M (-1) k → ∃ A, infreq (Heap s) !z 1 = Some A ∧ 0 ≤ asize A ∧ purging s T M k 0 (asize A) (destroyArray A).
Proof.
  intros [Hc (F & (G & fn & ffn & Hh) & Hfm)]. pose proof (hr_sqrtu _ _ _ _ _ Hh) as Hsq.
  destruct (zlookup_total (infreq (Heap s)) 1) as [A HA]; [rewrite (hr_len _ _ _ _ _ Hh); lia|].
  pose proof (bo_arr _ (hr_buckets _ _ _ _ _ Hh) 1 A ltac:(lia) HA) as HokA. pose proof HokA as [Hsz Hbuf _ _ _]. exists A. split_and!; [done|lia|].
  pose proof (zlookup_range _ _ _ HA) as Hr1. destruct (destroyArray_ok A HokA) as [HokB HcB].
  assert (∀ j f, F !! j = Some f ↔ ∃ q, M !! q = Some j ∧ f = cnt T q) as HF.
  { intros j f. rewrite (Hfm j f). split; [by intros (_ & ?)|]. intros (q & Hq & ->). split; [|by exists q].
    pose proof (core_record _ _ _ _ _ Hc q j Hq) as [? _]. lia. }
  split; [done|done| |].
  - exists (filter (λ '(_, f), f ≠ 1) F). assert (rare_free T M (filter (λ '(_, f), f ≠ 1) F)) as Hrf.
    { intros j f. rewrite map_lookup_filter_Some, (HF j f). cbn. tauto. }
    split; [|done]. exists G, fn, ffn. set (s' := with_Heap s _).
    assert (∀ g, bucket s' g = if decide (g = 1) then [] else bucket s g) as Hb.
    { intros g. unfold bucket. change (infreq (Heap s')) with (zinsert (infreq (Heap s)) 1 (destroyArray A)). rewrite zlookup_zinsert by done.
      by case_decide. }
    eapply (rebuild_infreq s s' F); [done|done|apply zlen_zinsert| | | | |done].
    + split.
      * intros f C Hf HC. change (infreq (Heap s')) with (zinsert (infreq (Heap s)) 1 (destroyArray A)) in HC. rewrite zlookup_zinsert in HC by done.
        case_decide; [by simplify_eq|]. by eapply (bo_arr _ (hr_buckets _ _ _ _ _ Hh)).
      * intros f y id [Hf Hy]%in_bucket_lookup. rewrite Hb in Hy. case_decide; [apply zlookup_range in Hy; change (zlen []) with 0 in Hy; lia|].
        apply (bo_rec _ (hr_buckets _ _ _ _ _ Hh)). by apply in_bucket_lookup.
    + intros f j Hf. rewrite Hb, map_lookup_filter_Some. case_decide as E.
      * split; [by intros ?%not_elem_of_nil|]. by intros [_ ?].
      * rewrite (rep_bucket _ _ _ _ _ Hh f j Hf). tauto.
    + intros f j [Hj _]%map_lookup_filter_Some. by eapply rep_pos.
    + intros f j Hf. rewrite map_lookup_filter_Some. split; [by intros [? _]|]. intros Hj. split; [done|]. cbn. lia.
  - exists A. split_and!; [done..|]. split; [split_and!; [done|lia|lia]| |].
    + intros y Hy. destruct (zlookup_total (acontents A) y) as [id Hid]; [unfold acontents; rewrite zlen_slice; lia|].
      assert (in_bucket s 1 y id) as Hib by (split; [lia|by exists A]).
      destruct (bo_rec _ (hr_buckets _ _ _ _ _ Hh) 1 y id Hib) as (r & Hr & _ & Hp). pose proof (hr_in_bucket _ _ _ _ _ Hh 1 y id Hib) as HFid.
      apply HF in HFid as (q & Hq & H1). exists q, id, r. rewrite acontents_lookup in Hid by (done || lia). done.
    + intros q id Hq H1. assert (F !! id = Some 1) as HFid by (apply HF; exists q; done). destruct (hr_rec _ _ _ _ _ Hh id 1 HFid) as (r & Hr & Hf & Hl).
      exists r. unfold located in Hl. rewrite decide_True, Hf in Hl by lia. destruct Hl as (_ & A' & HA' & Hy). assert (A' = A) as -> by congruence.
      pose proof (acontents_range _ _ _ HokA Hy). rewrite acontents_lookup in Hy by done. split_and!; [done|done|lia|lia|done].
Qed.

Lemma purgeHeap_spec junk s T M k :
  store_ok s T M (-1) k →
  wp (purgeHeap junk s) (λ s', ∃ M', store_ok s' T M' (-1) k ∧ kept s s' ∧ ∀ q, is_Some (M' !! q) ↔ is_Some (M !! q) ∧ cnt T q ≠ 1).
Proof.
  intros Hok. destruct (purge_start s T M k Hok) as (A & HA & Hn & Hp0). unfold purgeHeap. rewrite (vget_ok _ _ _ HA). cbn [rbind]. apply wp_bind.
  apply (wp_for_up (λ i s', ∃ M', purging s' T M' k i (asize A) (destroyArray A) ∧ kept s s' ∧
    (∀ q, is_Some (M' !! q) → is_Some (M !! q)) ∧ (∀ q, is_Some (M !! q) → cnt T q ≠ 1 → is_Some (M' !! q)))).
  - done.
  - exists M. split_and!; done.
  - intros i s1 Hi (M1 & Hp1 & Hk1 & H1 & H2). eapply wp_mono; [by apply (purge_step junk s1 T M1 k i (asize A) (destroyArray A))|].
    intros s2 (q & M2 & Hp2 & Hk2 & Hq & Hd). exists M2. split_and!; [done|by rewrite Hk1| |].
    + intros q' [Hq' _]%Hd. by apply H1.
    + intros q' Hq' Hne. apply Hd. split; [by apply H2|]. congruence.
  - intros s1 (M1 & [Hc1 Hsq1 (F & HF & HFm) (A1 & HA1 & HB1 & [_ _ Hout])] & Hk1 & H1 & H2). rewrite (upd_ok _ _ _ _ HA1), HB1. cbn [rbind wp].
    assert (∀ q id, M1 !! q = Some id → cnt T q ≠ 1) as Hno. { intros q id Hq Hcq. destruct (Hout q id Hq Hcq) as (r & _ & _ & ? & _). lia. }
    change (with_infreq (Heap s1) (zinsert (infreq (Heap s1)) 1 (destroyArray A))) with (clear1 (Heap s1) (destroyArray A)).
    exists M1. split_and!.
    + split; [eapply core_ext; [exact Hc1|done|done|done|done|]; intros j r Hr; by exists r|]. exists F. split; [done|]. intros j f. rewrite (HFm j f). split.
      * intros (_ & q & Hq & ->). pose proof (core_record _ _ _ _ _ Hc1 q j Hq) as [? _]. split; [lia|by exists q].
      * intros (_ & q & Hq & ->). split; [by eapply Hno|by exists q].
    + etrans; [exact Hk1|]. by split.
    + intros q. split; [|intros [? ?]; by apply H2]. intros [id Hid]. split; [apply H1; by eexists|by eapply Hno].
Qed.
