(* ===== verification/RText.v ===== *)
(** * The text with holes

    What [repair] and [compress_csr] do to the text, independent of how the
    occurrences are found.  A text is a sequence of blocks: a symbol and the
    holes after it.  The first hole points to the next block, the last one back
    to the symbol.  The results: the positions the code computes are those of
    the neighbouring blocks, a replacement merges two blocks into one,
    compaction removes the holes and nothing else, and the output stage splits
    the symbols at the separators. *)

From S2P Require Import Prelude Csr RArray RHash RHeap RRepair.

(** ** Blocks *)

(** A symbol and the number of holes after it. *)
Abbreviation block := (Z * Z)%type.

Fixpoint width (bs : list block) : Z :=
  match bs with
  | [] => 0
  | (_, h) :: bs' => 1 + h + width bs'
  end.

Definition symbols (bs : list block) : list Z := bs.*1.

(** The block [(x, h)] at position [p] of a text of length [u]. *)
Record block_at (t : list Z) (u p x h : Z) : Prop := {
  ba_holes : 0 ≤ h;
  ba_sym : t !z p = Some x;
  ba_pos : 0 ≤ x;
  ba_fwd : 1 ≤ h → t !z (p + 1) = Some (- (p + 1 + h) - 1);
  ba_bwd : 2 ≤ h → p + 1 + h ≠ u → t !z (p + h) = Some (- p - 1)
}.

(** The blocks [bs], from position [p] on. *)
Fixpoint blocks_at (t : list Z) (u p : Z) (bs : list block) : Prop :=
  match bs with
  | [] => True
  | (x, h) :: bs' => block_at t u p x h ∧ blocks_at t u (p + 1 + h) bs'
  end.

Record rep_text (t : list Z) (u : Z) (bs : list block) : Prop := {
  rt_len : zlen t = u;
  rt_width : width bs = u;
  rt_blocks : blocks_at t u 0 bs
}.

(** ** Lemmas *)

Lemma width_app b1 b2 : width (b1 ++ b2) = width b1 + width b2.
Proof. induction b1 as [|[x h] b1 IH]; simpl; lia. Qed.

Lemma blocks_at_app t u p b1 b2 :
  blocks_at t u p (b1 ++ b2) ↔ blocks_at t u p b1 ∧ blocks_at t u (p + width b1) b2.
Proof.
  revert p. induction b1 as [|[x h] b1 IH]; intros p; simpl.
  - rewrite Z.add_0_r. tauto.
  - rewrite IH. replace (p + 1 + h + width b1) with (p + (1 + h + width b1)) by lia. tauto.
Qed.

Lemma blocks_width_nonneg t u p bs : blocks_at t u p bs → 0 ≤ width bs.
Proof.
  revert p. induction bs as [|[x h] bs IH]; intros p; simpl; [done|].
  intros [[] Hbs]. specialize (IH _ Hbs). lia.
Qed.

(** Blocks are unchanged by writes outside them. *)
Lemma blocks_at_frame t t' u p bs :
  (∀ i, p ≤ i < p + width bs → t' !z i = t !z i) → blocks_at t u p bs → blocks_at t' u p bs.
Proof.
  revert p. induction bs as [|[x h] bs IH]; intros p Ht; simpl; [done|].
  intros [[Hh Hs Hp Hf Hb] Hbs]. pose proof (blocks_width_nonneg _ _ _ _ Hbs) as Hw. simpl in Ht. split.
  - split; try done.
    + rewrite Ht by lia. done.
    + intros Hh1. rewrite Ht by lia. by apply Hf.
    + intros Hh2 Hne. rewrite Ht by lia. by apply Hb.
  - apply (IH (p + 1 + h)); [|done]. intros i Hi. apply Ht. lia.
Qed.

(** ** Neighbours *)

Section neighbours.
Context (t : list Z) (u : Z) (pre post : list block) (a h1 b h2 : Z).
Context (Ht : rep_text t u (pre ++ (a, h1) :: (b, h2) :: post)).

Local Abbreviation cpos := (width pre).
Local Abbreviation sgte := (width pre + 1 + h1).
Local Abbreviation ssgte := (width pre + 1 + h1 + 1 + h2).

Lemma pair_blocks :
  blocks_at t u 0 pre ∧ block_at t u cpos a h1 ∧ block_at t u sgte b h2 ∧ blocks_at t u ssgte post ∧
  0 ≤ cpos ∧ 0 ≤ width post ∧ u = ssgte + width post ∧ zlen t = u.
Proof using Ht.
  destruct Ht as [Hlen Hw Hb]. apply blocks_at_app in Hb as (Hpre & Ha & Hbb & Hpost). rewrite Z.add_0_l in *.
  rewrite width_app in Hw. simpl in Hw.
  pose proof (blocks_width_nonneg _ _ _ _ Hpre). pose proof (blocks_width_nonneg _ _ _ _ Hpost).
  split_and!; try done; lia.
Qed.

Lemma next_pos_ok : next_pos t cpos = Ok sgte.
Proof using Ht.
  destruct pair_blocks as (Hpre & [Hh1 _ _ Hf _] & [Hh2 Hs2 Hp2 _ _] & _ & Hc & _ & Hu & Hlen).
  unfold next_pos. destruct (decide (h1 = 0)) as [Hz|].
  - rewrite Hz, Z.add_0_r in *. rewrite (vget_ok _ _ _ Hs2). simpl. by destruct (Z.ltb_spec b 0); [lia|].
  - rewrite (vget_ok _ _ _ (Hf ltac:(lia))). simpl. destruct (Z.ltb_spec (- (cpos + 1 + h1) - 1) 0); [|lia].
    f_equal. lia.
Qed.

Lemma after_pos_ok : after_pos t u sgte = Ok ssgte.
Proof using Ht.
  destruct pair_blocks as (Hpre & [Hh1 _ _ _ _] & [Hh2 Hs2 Hp2 Hf2 _] & Hpost & Hc & Hw & Hu & Hlen).
  unfold after_pos. destruct (Z.ltb_spec (sgte + 1) u) as [Hlt|Hge].
  - destruct (decide (h2 = 0)) as [Hz|].
    + rewrite Hz, Z.add_0_r in *. destruct post as [|[x h] post']; [simpl in *; lia|].
      destruct Hpost as [[_ Hs3 Hp3 _ _] _]. rewrite (vget_ok _ _ _ Hs3). simpl.
      by destruct (Z.ltb_spec x 0); [lia|].
    + rewrite (vget_ok _ _ _ (Hf2 ltac:(lia))). simpl. destruct (Z.ltb_spec (- (sgte + 1 + h2) - 1) 0); [|lia].
      f_equal. lia.
  - f_equal. lia.
Qed.

Lemma before_pos_ok pre' x h : pre = pre' ++ [(x, h)] → before_pos t cpos = Ok (width pre').
Proof using Ht.
  intros Hpre'. destruct pair_blocks as (Hpre & [Hh1 _ _ _ _] & [Hh2 _ _ _ _] & _ & Hc & Hw & Hu & Hlen).
  rewrite Hpre', blocks_at_app in Hpre. destruct Hpre as (_ & [Hh Hs Hp Hf Hb] & _). rewrite Z.add_0_l in *.
  assert (cpos = width pre' + 1 + h) as Hcp by (rewrite Hpre', width_app; simpl; lia).
  unfold before_pos. destruct (decide (h = 0)) as [Hz|].
  - replace (cpos - 1) with (width pre') by lia. rewrite (vget_ok _ _ _ Hs). simpl.
    by destruct (Z.ltb_spec x 0); [lia|].
  - destruct (decide (h = 1)) as [->|].
    + replace (cpos - 1) with (width pre' + 1) by lia. rewrite (vget_ok _ _ _ (Hf ltac:(lia))). simpl.
      destruct (Z.ltb_spec (- (width pre' + 1 + 1) - 1) 0); [|pose proof (zlookup_range _ _ _ Hs); lia].
      destruct (Z.eqb_spec (- (- (width pre' + 1 + 1) - 1) - 1) cpos); [|lia]. f_equal. lia.
    + replace (cpos - 1) with (width pre' + h) by lia. rewrite (vget_ok _ _ _ (Hb ltac:(lia) ltac:(lia))). simpl.
      pose proof (zlookup_range _ _ _ Hs). destruct (Z.ltb_spec (- width pre' - 1) 0); [|lia].
      destruct (Z.eqb_spec (- (- width pre' - 1) - 1) cpos); [lia|]. f_equal. lia.
Qed.

(** The replacement merges the two blocks. *)
Lemma replace_text_ok n :
  0 ≤ n →
  wp (replace_text t u n cpos ssgte) (λ t', rep_text t' u (pre ++ (n, h1 + 1 + h2) :: post)).
Proof using Ht.
  intros Hn. destruct pair_blocks as (Hpre & [Hh1 _ _ _ _] & [Hh2 _ _ _ _] & Hpost & Hc & Hw & Hu & Hlen).
  unfold replace_text. rewrite vset_ok by lia. cbn [rbind].
  set (t1 := zinsert t cpos n). assert (zlen t1 = u) as Hl1 by (unfold t1; rewrite zlen_zinsert; lia).
  assert (∃ t2, (if ssgte =? u then Ok t1 else vset t1 (ssgte - 1) (- cpos - 1)) = Ok t2 ∧ zlen t2 = u ∧
    (ssgte ≠ u → t2 !z (ssgte - 1) = Some (- cpos - 1)) ∧
    ∀ i, i ≠ ssgte - 1 → t2 !z i = t1 !z i) as (t2 & -> & Hl2 & Hback & Hsame).
  { destruct (Z.eqb_spec ssgte u); [by exists t1|]. rewrite vset_ok by lia. eexists. split; [done|].
    rewrite zlen_zinsert. split_and!; [done| |].
    - intros _. apply zlookup_zinsert_eq. lia.
    - intros i Hi. apply zlookup_zinsert_ne; lia. }
  cbn [rbind]. rewrite vset_ok by lia. cbn [wp]. set (t3 := zinsert t2 (cpos + 1) (- ssgte - 1)).
  assert (∀ i, i ≠ cpos + 1 → t3 !z i = t2 !z i) as Hsame3.
  { intros i Hi. apply zlookup_zinsert_ne; lia. }
  assert (t3 !z cpos = Some n) as Hsym.
  { rewrite Hsame3, Hsame by lia. apply zlookup_zinsert_eq. lia. }
  assert (∀ i, i < cpos ∨ ssgte ≤ i → t3 !z i = t !z i) as Hframe.
  { intros i Hi. rewrite Hsame3, Hsame by lia. apply zlookup_zinsert_ne; lia. }
  split.
  - unfold t3. rewrite zlen_zinsert. done.
  - rewrite width_app. simpl. lia.
  - apply blocks_at_app. rewrite Z.add_0_l. split; [|simpl; split].
    + eapply blocks_at_frame; [|exact Hpre]. intros i Hi. apply Hframe. lia.
    + split; [lia|done|done| |].
      * intros _. unfold t3. rewrite zlookup_zinsert_eq by lia. f_equal. lia.
      * intros Hh Hne. rewrite Hsame3 by lia. replace (cpos + (h1 + 1 + h2)) with (ssgte - 1) by lia.
        apply Hback. lia.
    + replace (cpos + 1 + (h1 + 1 + h2)) with ssgte by lia. eapply blocks_at_frame; [|exact Hpost].
      intros i Hi. apply Hframe. lia.
Qed.
End neighbours.

(** ** The output stage *)

(** A symbol of the text as an entry of the output: rule numbers follow the
    vertices. *)
Definition out_symbol (max_symbol x : Z) : Z := if x <? max_symbol then x else x - max_symbol.

(** Entries of rows are vertices or rules, never separators. *)
Definition row_symbol (max_symbol alph x : Z) : Prop := 0 ≤ x < max_symbol ∨ alph ≤ x.

(** One step over a block: where [read_back] goes next. *)
Lemma skip_block t u p x h bs :
  zlen t = u → blocks_at t u p ((x, h) :: bs) → u = p + 1 + h + width bs →
  p + 1 < u → ∃ y, t !z (p + 1) = Some y ∧ (if y <? 0 then - y - 1 else p + 1) = p + 1 + h.
Proof.
  intros Hlen [[Hh Hs Hp Hf _] Hbs] Hu Hlt. pose proof (blocks_width_nonneg _ _ _ _ Hbs).
  destruct (decide (h = 0)) as [->|].
  - destruct bs as [|[y h'] bs]; [simpl in Hu; lia|].
    destruct Hbs as [[Hh' Hs' Hp' _ _] Hbs']. rewrite Z.add_0_r in *. exists y. split; [done|].
    by destruct (Z.ltb_spec y 0); [lia|].
  - exists (- (p + 1 + h) - 1). split; [apply Hf; lia|].
    pose proof (zlookup_range _ _ _ Hs). destruct (Z.ltb_spec (- (p + 1 + h) - 1) 0); lia.
Qed.

(** What the output stage does with one symbol. *)
Definition out_step (max_symbol alph : Z) (out : list Z * list Z) (x : Z) : list Z * list Z :=
  let '(back_vlist, back_elist) := out in
  if x <? max_symbol then (back_vlist, back_elist ++ [x])
  else if x <? alph then (back_vlist ++ [zlen back_elist], back_elist)
  else (back_vlist, back_elist ++ [x - max_symbol]).

Lemma read_back_ok t u bs max_symbol alph :
  rep_text t u bs →
  read_back t u max_symbol alph = Ok (foldl (out_step max_symbol alph) ([0], []) (symbols bs)).
Proof.
  intros [Hlen Hw Hb]. apply wp_eq. unfold read_back. apply wp_bind.
  apply (wp_while_rel (λ '(i, vl, el) m, ∃ pre post, bs = pre ++ post ∧ i = width pre ∧
    (vl, el) = foldl (out_step max_symbol alph) ([0], []) (symbols pre) ∧ m = Z.to_nat (u - i)) (Z.to_nat u)).
  - exists [], bs. split_and!; try done. simpl. f_equal. lia.
  - unfold zlen in Hlen. lia.
  - intros [[i vl] el] m (pre & post & -> & -> & Hout & ->).
    apply blocks_at_app in Hb as [Hpre Hpost]. rewrite Z.add_0_l in Hpost. rewrite width_app in Hw.
    pose proof (blocks_width_nonneg _ _ _ _ Hpre). simpl.
    destruct post as [|[x h] post]; [simpl in Hw|].
    { destruct (Z.ltb_spec (width pre) u); [lia|]. simpl. by rewrite app_nil_r. }
    pose proof Hpost as [[Hh Hs _ _ _] Hpost']. pose proof (blocks_width_nonneg _ _ _ _ Hpost').
    simpl in Hw. destruct (Z.ltb_spec (width pre) u); [|lia].
    rewrite (vget_ok _ _ _ Hs). cbn [rbind].
    set (out' := if x <? max_symbol then _ else _).
    assert (out' = foldl (out_step max_symbol alph) ([0], []) (symbols (pre ++ [(x, h)]))) as Hout'.
    { unfold symbols. rewrite fmap_app, foldl_app. unfold symbols in Hout. rewrite <-Hout. done. }
    destruct out' as [vl' el']. assert (width (pre ++ [(x, h)]) = width pre + 1 + h) as Hw'.
    { rewrite width_app. simpl. lia. }
    destruct (Z.ltb_spec (width pre + 1) u) as [Hlt|Hge].
    + destruct (skip_block t u (width pre) x h post Hlen Hpost ltac:(lia) Hlt) as (y & Hy & Hny).
      rewrite (vget_ok _ _ _ Hy). cbn [rbind wp]. rewrite Hny. exists (Z.to_nat (u - (width pre + 1 + h))).
      split; [|lia]. exists (pre ++ [(x, h)]), post. rewrite <-app_assoc. split_and!; done.
    + cbn [wp]. exists (Z.to_nat (u - (width pre + 1))). split; [|lia].
      exists (pre ++ [(x, h)]), post. rewrite <-app_assoc. split_and!; try done; lia.
Qed.

Lemma out_row max_symbol alph vl el row :
  max_symbol ≤ alph → Forall (row_symbol max_symbol alph) row →
  foldl (out_step max_symbol alph) (vl, el) row = (vl, el ++ (out_symbol max_symbol <$> row)).
Proof.
  intros Hm Hrow. revert el. induction Hrow as [|x row Hx _ IH]; intros el; csimpl; [by rewrite app_nil_r|].
  unfold out_symbol at 1. destruct Hx as [Hx|Hx].
  - destruct (Z.ltb_spec x max_symbol); [|lia]. by rewrite IH, <-app_assoc.
  - destruct (Z.ltb_spec x max_symbol); [lia|]. destruct (Z.ltb_spec x alph); [lia|]. by rewrite IH, <-app_assoc.
Qed.

Lemma out_rows max_symbol alph s g g0 :
  max_symbol ≤ s → s + zlen g ≤ alph → Forall (Forall (row_symbol max_symbol alph)) g →
  foldl (out_step max_symbol alph) (offsets g0, concat g0) (with_splits s g) =
    (offsets (g0 ++ ((λ r : list Z, out_symbol max_symbol <$> r) <$> g)),
     concat (g0 ++ ((λ r : list Z, out_symbol max_symbol <$> r) <$> g))).
Proof.
  revert s g0. induction g as [|r g IH]; intros s g0 Hs Ha Hg; csimpl; [by rewrite app_nil_r|].
  rewrite zlen_cons in Ha. pose proof (zlen_nonneg g). apply Forall_cons in Hg as [Hr Hg].
  rewrite foldl_app, out_row by (done || lia). csimpl.
  destruct (Z.ltb_spec s max_symbol); [lia|]. destruct (Z.ltb_spec s alph); [|lia].
  set (r' := out_symbol max_symbol <$> r).
  assert (concat (g0 ++ [r']) = concat g0 ++ r') as Hc by (rewrite concat_app; simpl; by rewrite app_nil_r).
  rewrite <-Hc, <-offsets_snoc, IH by (done || lia). by rewrite <-app_assoc.
Qed.

(** The rules after the rows. *)
Definition out_rule (max_symbol : Z) (p : Z * Z) : list Z := [convert p.1 max_symbol; convert p.2 max_symbol].

Lemma add_rules max_symbol rule g :
  foldl (add_rule max_symbol) (offsets g, concat g) rule =
    (offsets (g ++ (out_rule max_symbol <$> rule)), concat (g ++ (out_rule max_symbol <$> rule))).
Proof.
  revert g. induction rule as [|p rule IH]; intros g; csimpl; [by rewrite app_nil_r|].
  assert (concat (g ++ [out_rule max_symbol p]) = concat g ++ out_rule max_symbol p) as Hc.
  { rewrite concat_app. simpl. done. }
  unfold out_rule in Hc. rewrite <-Hc, <-offsets_snoc, IH, <-app_assoc. done.
Qed.

(** ** Results *)

(** C16: one replacement.  At an occurrence of a pair the code finds the
    neighbours across the holes, and the new text holds the same symbols with
    the pair replaced by the new one. *)
Theorem replacement_correct t u pre post x h0 a h1 b h2 n :
  rep_text t u (pre ++ (x, h0) :: (a, h1) :: (b, h2) :: post) → 0 ≤ n →
  let cpos := width (pre ++ [(x, h0)]) in
  ∃ sgte ssgte, next_pos t cpos = Ok sgte ∧ after_pos t u sgte = Ok ssgte ∧
    before_pos t cpos = Ok (width pre) ∧
    t !z sgte = Some b ∧ (post ≠ [] → ∃ d, t !z ssgte = Some d ∧ head (symbols post) = Some d) ∧
    wp (replace_text t u n cpos ssgte) (λ t', ∃ bs,
      rep_text t' u bs ∧ symbols bs = symbols pre ++ x :: n :: symbols post).
Proof.
  intros Ht Hn cpos. assert (rep_text t u ((pre ++ [(x, h0)]) ++ (a, h1) :: (b, h2) :: post)) as Ht'.
  { by rewrite <-app_assoc. }
  eexists. eexists. split; [by eapply (next_pos_ok _ _ _ _ _ _ _ _ Ht')|]. split; [by eapply (after_pos_ok _ _ _ _ _ _ _ _ Ht')|].
  split; [by eapply (before_pos_ok _ _ _ _ _ _ _ _ Ht')|].
  destruct (pair_blocks _ _ _ _ _ _ _ _ Ht') as (_ & _ & Hb & Hpost & _). split_and!.
  - apply Hb.
  - intros Hne. destruct post as [|[d h] post]; [done|]. destruct Hpost as [[_ Hd _ _ _] _]. by exists d.
  - eapply wp_mono; [by apply (replace_text_ok _ _ _ _ _ _ _ _ Ht')|]. intros t' Ht2. eexists. split; [exact Ht2|].
    unfold symbols. rewrite !fmap_app, <-app_assoc. done.
Qed.

(** The output stage.  When the text holds the rows [g], each closed by its
    separator, the output is the CSR form of these rows followed by the rules,
    in the numbering of the output. *)
Theorem output_correct t u bs max_symbol alph g rule :
  rep_text t u bs → symbols bs = with_splits max_symbol g →
  max_symbol + zlen g ≤ alph → Forall (Forall (row_symbol max_symbol alph)) g →
  (let* out := read_back t u max_symbol alph in
   Ok (foldl (add_rule max_symbol) out rule)) =
  let g' := ((λ r : list Z, out_symbol max_symbol <$> r) <$> g) ++ (out_rule max_symbol <$> rule) in
  Ok (offsets g', concat g').
Proof.
  intros Ht Hs Ha Hg. rewrite (read_back_ok t u bs) by done. rewrite Hs. cbn [rbind].
  change ([0], []) with (offsets [], concat (@nil (list Z))).
  rewrite out_rows by (done || lia). by rewrite app_nil_l, add_rules.
Qed.

(** ** A text with a hole *)

Definition sample_text : list Z := [7; 0; 8; -5; 1; 5].

Lemma replacement_correct_witness :
  let cpos := width [(7, 0); (0, 0)] in
  ∃ sgte ssgte, next_pos sample_text cpos = Ok sgte ∧ after_pos sample_text 6 sgte = Ok ssgte ∧
    before_pos sample_text cpos = Ok (width [(7, 0)]) ∧
    sample_text !z sgte = Some 1 ∧
    ([(5, 0)] ≠ [] → ∃ d, sample_text !z ssgte = Some d ∧ head (symbols [(5, 0)]) = Some d) ∧
    wp (replace_text sample_text 6 9 cpos ssgte) (λ t', ∃ bs,
      rep_text t' 6 bs ∧ symbols bs = [7; 0; 9; 5]).
Proof.
  apply (replacement_correct sample_text 6 [(7, 0)] [(5, 0)] 0 0 8 1 1 0 9); [|done].
  repeat split; try done; try (by intros; lia); by intros.
Defined.

Lemma output_correct_witness :
  (let* out := read_back [8; -3; 4; 0; 1; 5] 6 4 8 in Ok (foldl (add_rule 4) out [(0, 1)])) =
  let g' := [[4]; [0; 1]; [0; 1]] in Ok (offsets g', concat g').
Proof.
  apply (output_correct [8; -3; 4; 0; 1; 5] 6 [(8, 1); (4, 0); (0, 0); (1, 0); (5, 0)] 4 8 [[8]; [0; 1]]).
  - repeat split; try done; try (by intros; lia); by intros.
  - reflexivity.
  - by vm_compute.
  - repeat apply Forall_cons_2; unfold row_symbol; try constructor; lia.
Defined.
