(* ===== verification/RTurn.v ===== *)
(** * One turn of Re-Pair

    The loop of [repair] in [compress.h] that replaces all occurrences of a pair.
    The text with holes gives the map from positions to pairs that the store
    represents; a replacement changes it at the pair and at its neighbours.  Records
    are renumbered on the way; counting shows that the record of the pair under
    replacement is never the last one, so that its number stays valid. *)

From stdpp Require Import gmap.
From S2P Require Import Prelude Csr RArray RHash RMap RHeap RBuckets Dll RFreq RPrio RRepair RStore RPurge RText.

(** ** The pairs of a text *)

Fixpoint tmap (p : Z) (bs : list block) : gmap Z pair :=
  match bs with
  | [] => ∅
  | (x, h) :: bs' =>
      match bs' with
      | [] => ∅
      | (y, _) :: _ => <[p := (x, y)]> (tmap (p + 1 + h) bs')
      end
  end.

Definition holes_ok (bs : list block) : Prop := Forall (λ b, 0 ≤ b.2) bs.

Lemma tmap_cons2 p x h y h' bs : tmap p ((x, h) :: (y, h') :: bs) = <[p := (x, y)]> (tmap (p + 1 + h) ((y, h') :: bs)).
Proof. done. Qed.

Lemma width_nonneg bs : holes_ok bs → 0 ≤ width bs.
Proof. induction 1 as [|[x h] bs Hh _ IH]; cbn in *; lia. Qed.

Lemma holes_app b1 b2 : holes_ok (b1 ++ b2) ↔ holes_ok b1 ∧ holes_ok b2.
Proof. apply Forall_app. Qed.

Lemma tmap_range p bs q pr : holes_ok bs → tmap p bs !! q = Some pr → p ≤ q < p + width bs.
Proof.
  intros Hb. revert p. induction Hb as [|[x h] bs Hh Hb IH]; intros p; [done|]. destruct bs as [|[y h'] bs]; [done|]. rewrite tmap_cons2, lookup_insert_Some.
  pose proof (width_nonneg _ Hb) as Hw. cbn in Hh. intros [[<- _]|[_ Hq]]; [cbn in *; lia|]. apply IH in Hq. cbn in *. lia.
Qed.

Lemma tmap_out p bs q : holes_ok bs → ¬ p ≤ q < p + width bs → tmap p bs !! q = None.
Proof. intros Hb Hq. destruct (tmap p bs !! q) as [pr|] eqn:E; [|done]. by apply tmap_range in E. Qed.

(** The pairs before position [width pre] depend on the symbol there only. *)
Lemma tmap_app p pre a h bs q :
  holes_ok (pre ++ (a, h) :: bs) →
  tmap p (pre ++ (a, h) :: bs) !! q = if decide (q < p + width pre) then tmap p (pre ++ [(a, 0)]) !! q else tmap (p + width pre) ((a, h) :: bs) !! q.
Proof.
  intros Hb. revert p. induction pre as [|[x h0] pre IH]; intros p.
  - cbn [app width]. rewrite Z.add_0_r. case_decide; [|done]. rewrite !tmap_out; [done|by constructor|lia|done|lia].
  - apply Forall_cons in Hb as [Hh0 Hb]. cbn in Hh0. cbn [width].
    assert (0 ≤ width pre) by (apply holes_app in Hb as [? _]; by apply width_nonneg).
    assert (∀ Y, ∃ y, ∀ k, tmap p (((x, h0) :: pre) ++ (a, k) :: Y) = <[p := (x, y)]> (tmap (p + 1 + h0) (pre ++ (a, k) :: Y)) ∧ (∀ Y', match pre ++ (a, k) :: Y' with [] => None | (z, _) :: _ => Some z end = Some y)) as Hex.
    { intros Y. destruct pre as [|[z h1] pre]; [exists a|exists z]; by intros k. }
    destruct (Hex bs) as (y & Hy). destruct (Hy h) as [-> _]. destruct (Hex []) as (y' & Hy'). destruct (Hy' 0) as [-> _].
    assert (y' = y) as ->. { destruct (Hy 0) as [_ H1]. destruct (Hy' 0) as [_ H2]. specialize (H1 []). specialize (H2 []). congruence. }
    rewrite !lookup_insert. case_decide as E; [subst q; by rewrite decide_True by lia|]. rewrite IH by done.
    replace (p + 1 + h0 + width pre) with (p + (1 + h0 + width pre)) by lia. done.
Qed.

Lemma tmap_at bs q x y : holes_ok bs → ∀ p, tmap p bs !! q = Some (x, y) → ∃ pre h h' post, bs = pre ++ (x, h) :: (y, h') :: post ∧ q = p + width pre.
Proof.
  induction 1 as [|[z h] bs Hh Hb IH]; intros p; [done|]. destruct bs as [|[w h'] bs]; [done|]. rewrite tmap_cons2, lookup_insert_Some.
  intros [[<- [= -> ->]]|[_ Hq]]; [exists [], h, h', bs; cbn; split; [done|lia]|].
  apply IH in Hq as (pre & h1 & h2 & post & Heq & ->). exists ((z, h) :: pre), h1, h2, post. rewrite Heq. cbn. split; [done|lia].
Qed.

Lemma tmap_pair p pre x h y h' post : holes_ok (pre ++ (x, h) :: (y, h') :: post) → tmap p (pre ++ (x, h) :: (y, h') :: post) !! (p + width pre) = Some (x, y).
Proof. intros Hb. rewrite tmap_app by done. rewrite decide_False by lia. rewrite tmap_cons2. apply lookup_insert_eq. Qed.

Lemma tmap_size p bs : holes_ok bs → Z.of_nat (size (tmap p bs)) = Z.max 0 (zlen bs - 1).
Proof.
  intros Hb. revert p. induction Hb as [|[x h] bs Hh Hb IH]; intros p; [done|]. destruct bs as [|[y h'] bs]; [done|]. rewrite tmap_cons2, map_size_insert_None.
  - rewrite Nat2Z.inj_succ, IH. rewrite !zlen_cons. pose proof (zlen_nonneg bs). lia.
  - apply tmap_out; [done|]. cbn in Hh. lia.
Qed.

(** The number of occurrences of a symbol bounds that of its pairs. *)
Definition occurs (x : Z) (l : list Z) : Z := zlen (filter (λ y, y = x) l).

Lemma occurs_cons x y l : occurs x (y :: l) = (if decide (y = x) then 1 else 0) + occurs x l.
Proof. unfold occurs. rewrite filter_cons. case_decide; rewrite ?zlen_cons; lia. Qed.

Lemma occurs_nonneg x l : 0 ≤ occurs x l.
Proof. apply zlen_nonneg. Qed.

Lemma occurs_app x l k : occurs x (l ++ k) = occurs x l + occurs x k.
Proof. unfold occurs. by rewrite filter_app, zlen_app. Qed.

Lemma tmap_cnt p bs x y : holes_ok bs → cnt (tmap p bs) (x, y) ≤ occurs x (symbols bs) ∧ cnt (tmap p bs) (x, y) ≤ occurs y (symbols (tail bs)).
Proof.
  intros Hb. revert p. induction Hb as [|[z h] bs Hh Hb IH]; intros p; [done|]. destruct bs as [|[w h'] bs].
  - cbn [tmap]. pose proof (occurs_nonneg x (symbols [(z, h)])). assert (cnt ∅ (x, y) = 0) by done. split; [lia|]. change (cnt ∅ (x, y) ≤ 0). lia.
  - rewrite tmap_cons2, cnt_insert by (apply tmap_out; [done|cbn in Hh; lia]). destruct (IH (p + 1 + h)) as [IH1 IH2]. cbn [tail symbols fmap list_fmap] in *.
    unfold symbols in *. cbn [fmap list_fmap fst] in *. rewrite !occurs_cons in *. pose proof (occurs_nonneg x (fst <$> bs)).
    destruct (decide ((z, w) = (x, y))) as [[= -> ->]|Hne]; [rewrite !decide_True in * by done|]; repeat case_decide; lia.
Qed.

(** ** Counting pairs up to the new symbol *)

Lemma cnt_le T T' p q : (∀ x, T !! x = Some p → T' !! x = Some q) → cnt T p ≤ cnt T' q.
Proof.
  intros Hs. unfold cnt. apply inj_le. rewrite <-!size_dom. apply subseteq_size. intros x. rewrite !elem_of_dom. intros [e He].
  apply map_lookup_filter_Some in He as [He E]. cbn in E. subst e. exists q. apply map_lookup_filter_Some. split; [by apply Hs|done].
Qed.

Lemma core_size s T M k x : store_core s T M k x → Z.of_nat (size M) = rsize (Rec s).
Proof.
  intros Hc. assert (0 ≤ rsize (Rec s)) as Hr by (destruct (sc_rec _ _ _ _ _ Hc); lia). apply Z.le_antisymm.
  - rewrite <-size_dom. change (size (dom M)) with (length (elements (dom M))). rewrite <-(length_fmap (λ p, default 0 (M !! p))).
    rewrite <-(Z2Nat.id (rsize (Rec s))) by done. apply inj_le. rewrite <-(length_seqZ 0 (rsize (Rec s))). apply submseteq_length, NoDup_submseteq.
    + apply NoDup_fmap_2_strong; [|apply NoDup_elements]. intros p q Hp Hq E. apply elem_of_elements, elem_of_dom in Hp as [i Hi]. apply elem_of_elements, elem_of_dom in Hq as [j Hj].
      rewrite Hi, Hj in E. cbn in E. subst j. by eapply (rep_inj _ _ _ (sc_hash _ _ _ _ _ Hc)).
    + intros i (p & -> & Hp)%list_elem_of_fmap. apply elem_of_elements, elem_of_dom in Hp as [i Hi]. rewrite Hi. cbn. apply elem_of_seqZ.
      pose proof (core_record _ _ _ _ _ Hc p i Hi) as [? _]. lia.
  - destruct (ids_pairs M (λ _, True) (seqZ 0 (rsize (Rec s)))) as (ps & Hnd & Hlen & Hps).
    + apply NoDup_seqZ.
    + intros id Hid%elem_of_seqZ. destruct (proj2 (sc_ids _ _ _ _ _ Hc id)) as [p Hp]; [lia|]. by exists p.
    + rewrite length_seqZ in Hlen. rewrite <-(Z2Nat.id (rsize (Rec s))) by done. apply inj_le. rewrite <-Hlen, <-size_dom.
      change (size (dom M)) with (length (elements (dom M))). apply submseteq_length, NoDup_submseteq; [done|].
      intros p Hp. destruct (Hps p Hp) as (_ & id & Hid & _). apply elem_of_elements, elem_of_dom. by eexists.
Qed.

Section turn.
Context (n b0 c0 : Z) (Hbn : b0 ≠ n) (Hcn : c0 ≠ n).
Local Abbreviation P := (b0, c0).

(** The pair before the turn. *)
Definition back (e : pair) : pair := (if decide (e.1 = n) then c0 else e.1, if decide (e.2 = n) then b0 else e.2).

Definition new_pair (e : pair) : Prop := e.1 = n ∨ e.2 = n.

#[export] Instance new_pair_dec e : Decision (new_pair e).
Proof using. unfold new_pair. apply _. Defined.

Lemma back_old e : ¬ new_pair e → back e = e.
Proof. intros He. unfold back, new_pair in *. destruct e as [x y]. cbn in *. rewrite !decide_False by tauto. done. Qed.

Lemma back_no_new e : ¬ new_pair (back e).
Proof using Hbn Hcn. unfold back, new_pair. cbn. repeat case_decide; intuition congruence. Qed.

Lemma back_left d : back (n, d) = back (c0, d).
Proof using Hcn. unfold back. cbn. rewrite (decide_True (P := n = n)) by done. f_equal. by destruct (decide (c0 = n)). Qed.

Lemma back_right a : back (a, n) = back (a, b0).
Proof using Hbn. unfold back. cbn. rewrite (decide_True (P := n = n)) by done. f_equal. by destruct (decide (b0 = n)). Qed.

(** The state of the turn against its start: the pairs with records are the
    frequent ones of the start and those with the new symbol that occur; the
    pairs, the replaced one apart, were there at the start. *)
Record turn_inv (T0 : gmap Z pair) (M0 : gmap pair Z) (T : gmap Z pair) (M : gmap pair Z) : Prop := {
  ti_dom : ∀ q, is_Some (M !! q) ↔ q = P ∨ ((is_Some (M0 !! q) ∨ new_pair q) ∧ 1 ≤ cnt T q);
  ti_cnt : ∀ q, q ≠ P → cnt (back <$> T) q = cnt T0 q
}.

Record turn_start (T0 : gmap Z pair) (M0 : gmap pair Z) (oid : Z) : Prop := {
  ts_oid : M0 !! P = Some oid;
  ts_cnt : ∀ q, is_Some (M0 !! q) ↔ 2 ≤ cnt T0 q;
  ts_old : ∀ x q, T0 !! x = Some q → ¬ new_pair q;
  ts_size : oid < Z.of_nat (size M0)
}.

(** A record is removed only if the last record is not that of the pair under
    replacement. *)
Lemma not_last s T0 M0 T M oid k x p :
  store_core s T M k x → turn_start T0 M0 oid → turn_inv T0 M0 T M →
  p ≠ P → is_Some (M !! p) → cnt T p = 1 → oid ≠ rsize (Rec s) - 1.
Proof using Hbn Hcn.
  intros Hc [Hoid Hcnt Hold Hsz] [Hdom Hback] Hp HMp H1. rewrite <-(core_size _ _ _ _ _ Hc).
  assert (∀ q, is_Some (M0 !! q) → ¬ new_pair q) as Hq0.
  { intros q Hq%Hcnt. destruct (decide (new_pair q)) as [Hn|]; [|done]. assert (cnt T0 q = 0); [|lia].
    rewrite (cnt_list T0 q []); [done|constructor|]. intros y. split; [by intros ?%not_elem_of_nil|]. intros Hy. by apply Hold in Hy. }
  assert (∀ q, is_Some (M0 !! q) → ∃ e, is_Some (M !! e) ∧ e ≠ p ∧ back e = q) as Hex.
  { intros q Hq. destruct (decide (q = P)) as [->|HqP]; [exists P; split_and!; [apply Hdom; by left|done|by apply back_old, Hq0]|].
    assert (¬ ∀ x, (back <$> T) !! x = Some q → T !! x = Some p) as Hno.
    { intros Hall. pose proof (cnt_le _ _ _ _ Hall) as Hle. rewrite Hback in Hle by done. apply Hcnt in Hq. lia. }
    assert (∃ x e, T !! x = Some e ∧ back e = q ∧ e ≠ p) as (y & e & Hy & He & Hep).
    { destruct (decide (map_Forall (λ _ e, back e = q → e = p) T)) as [Hall|Hall].
      - destruct Hno. intros y Hy. rewrite lookup_fmap in Hy. destruct (T !! y) as [e|] eqn:Ey; [|done]. injection Hy as Hy. f_equal. by apply (Hall y e).
      - apply (map_not_Forall _) in Hall as (y & e & Hy & He). exists y, e. split; [done|]. destruct (decide (back e = q)); [|tauto]. split; [done|]. tauto. }
    exists e. split_and!; [|done|done]. apply Hdom. right. split; [|by eapply cnt_pos]. destruct (decide (new_pair e)) as [|Hn]; [by right|].
    left. rewrite (back_old e Hn) in He. by subst. }
  assert (size M0 + 1 ≤ size M)%nat as Hle; [|lia].
  assert (size (dom M0) ≤ size (dom M ∖ {[p]}))%nat as Hle.
  { change (length (elements (dom M0)) ≤ length (elements (dom M ∖ {[p]})))%nat. rewrite <-(length_fmap back (elements (dom M ∖ {[p]}))).
    apply submseteq_length, NoDup_submseteq; [apply NoDup_elements|]. intros q Hq%elem_of_elements%elem_of_dom. destruct (Hex q Hq) as (e & He & Hep & <-).
    apply list_elem_of_fmap_2, elem_of_elements, elem_of_difference. split; [by apply elem_of_dom|]. by rewrite elem_of_singleton. }
  rewrite size_difference, size_singleton, !size_dom in Hle.
  - assert (0 < size M)%nat; [|lia]. rewrite <-size_dom. apply Nat.neq_0_lt_0. intros E. apply size_empty_inv in E. destruct HMp as [i Hi].
    assert (p ∈ dom M) as Hin by (apply elem_of_dom; by eexists). rewrite E in Hin. by apply elem_of_empty in Hin.
  - intros e ->%elem_of_singleton. by apply elem_of_dom.
Qed.

(** ** Replacing pairs one by one *)

Lemma cnt_swap T pos p pos' p' q :
  T !! pos = Some p → (T !! pos' = None ∨ pos' = pos) →
  cnt (<[pos' := p']> (delete pos T)) q = cnt T q - (if decide (p = q) then 1 else 0) + (if decide (p' = q) then 1 else 0).
Proof.
  intros Hpos Hpos'. rewrite cnt_insert; [by rewrite (cnt_delete _ _ _ _ Hpos)|]. apply lookup_delete_None. destruct Hpos' as [->| ->]; [by right|by left].
Qed.

Section swap.
Context (junk : Z) (s : store) (T0 T : gmap Z pair) (M0 M : gmap pair Z) (oid k pos pos' : Z) (p p' : pair).
Context (Hok : store_ok s T M oid k) (Hs : turn_start T0 M0 oid) (Hinv : turn_inv T0 M0 T M) (HP : M !! P = Some oid).
Context (Hpos : T !! pos = Some p) (Hpos' : T !! pos' = None ∨ pos' = pos) (Hr : 0 ≤ pos' < zlen (L s)) (Hnew : new_pair p') (Hback : back p = back p').
Context (Hk : 2 ≤ k) (Hsz : Z.of_nat (size T) < sqrtu (Heap s) * sqrtu (Heap s)).

(** An occurrence of [p] goes, and one of [p'] comes. *)
Lemma swap_spec :
  wp (let* s := remove_occ junk oid pos p.1 p.2 s in add_occ junk pos' p'.1 p'.2 s) (λ s', ∃ M',
    store_ok s' (<[pos' := p']> (delete pos T)) M' oid (k - 1) ∧ turn_inv T0 M0 (<[pos' := p']> (delete pos T)) M' ∧ M' !! P = Some oid ∧ kept s s').
Proof using All.
  pose proof (proj1 Hok) as Hc. assert (∀ p q i, M !! p = Some i → M !! q = Some i → p = q) as Hinj by apply (rep_inj _ _ _ (sc_hash _ _ _ _ _ Hc)).
  assert (¬ new_pair P) as HnP by (unfold new_pair; cbn; tauto). assert (p' ≠ P) as Hp'P by congruence.
  apply wp_bind. eapply wp_mono; [apply (remove_occ_spec junk pos p s T M oid k Hok ltac:(lia) Hpos Hsz)|].
  { intros HMp Hne H1. eapply not_last; [exact Hc|exact Hs|exact Hinv| |exact HMp|exact H1]. intros ->. by apply Hne. }
  intros s1 (M1 & Hok1 & Hkp1 & HM1). pose proof Hinv as [Hdom Hcnt].
  assert (M1 !! P = Some oid) as HP1. { destruct (decide (vanishes p T M oid)); [by apply HM1|by subst]. }
  assert (∀ q, is_Some (M1 !! q) ↔ is_Some (M !! q) ∧ ¬ (q = p ∧ vanishes p T M oid)) as Hdom1.
  { intros q. destruct (decide (vanishes p T M oid)) as [Hv|Hv]; [rewrite (proj1 HM1 q); tauto|]. rewrite HM1. tauto. }
  assert (∀ q, is_Some (M1 !! q) ↔ q = P ∨ ((is_Some (M0 !! q) ∨ new_pair q) ∧ 1 ≤ cnt (delete pos T) q)) as Hdom1'.
  { intros q. rewrite Hdom1, (cnt_delete _ _ _ q Hpos). pose proof (cnt_pos T pos p Hpos). destruct (decide (p = q)) as [<-|Hpq].
    - split.
      + intros [Hq Hv]. pose proof Hq as [->|[Hq2 Hq3]]%Hdom; [by left|]. destruct (decide (p = P)) as [->|HpP]; [by left|]. right. split; [done|].
        destruct (decide (cnt T p = 1)); [|lia]. destruct Hv. split; [done|]. unfold vanishes. split_and!; [done| |done]. intros E. apply HpP. by eapply Hinj.
      + intros [->|[Hq Hc1]]; [split; [by eexists|]; intros [_ (_ & ? & _)]; done|]. split; [apply Hdom; right; split; [done|lia]|]. intros [_ (_ & _ & ?)]. lia.
    - rewrite Z.sub_0_r, <-Hdom. split; [by intros [? _]|]. intros Hq. split; [done|]. intros [? _]. congruence. }
  pose proof (proj1 Hok1) as Hc1. destruct (core_record _ _ _ _ _ Hc1 P oid HP1) as [Hoid _].
  assert (delete pos T !! pos' = None) as Hfree by (apply lookup_delete_None; destruct Hpos' as [->| ->]; [by right|by left]).
  assert (Z.of_nat (size (delete pos T)) ≤ Z.of_nat (size T)) as Hsz1. { rewrite map_size_delete_Some by (by eexists). lia. }
  assert (M1 !! p' ≠ Some oid) as Hp'o. { intros E. apply Hp'P. by apply (rep_inj _ _ _ (sc_hash _ _ _ _ _ Hc1) _ _ oid). }
  assert (M1 !! p' = None → ∀ x, delete pos T !! x ≠ Some p') as Hfresh.
  { intros HN x Hx. assert (is_Some (M1 !! p')) as [? ?]; [|congruence]. apply Hdom1'. right. split; [by right|by eapply cnt_pos]. }
  rewrite (surjective_pairing p') in Hp'o, Hfresh.
  eapply wp_mono; [apply (add_occ_spec junk pos' p'.1 p'.2 s1 (delete pos T) M1 oid k Hok1 ltac:(lia) Hfree); try done|].
  - by rewrite (kp_len _ _ Hkp1).
  - lia.
  - rewrite (kp_sqrtu _ _ Hkp1). lia.
  - intros s2 [Hok2 Hkp2]. rewrite <-surjective_pairing in Hok2. eexists. split; [exact Hok2|]. split_and!.
    + split.
      * intros q. rewrite (cnt_swap T pos p pos' p' q Hpos Hpos'). unfold with_pair.
        assert (is_Some (match M1 !! p' with Some _ => M1 | None => <[p' := rsize (Rec s1)]> M1 end !! q) ↔ q = p' ∨ is_Some (M1 !! q)) as ->.
        { destruct (M1 !! p') as [i|] eqn:E; [split; [by right|intros [->|?]; [by eexists|done]]|]. rewrite lookup_insert_is_Some. split; [intros [->|[_ ?]]; tauto|].
          intros [->|?]; [by left|]. destruct (decide (p' = q)); [by left|right; done]. }
        rewrite Hdom1', (cnt_delete _ _ _ q Hpos). destruct (decide (p' = q)) as [<-|Hpq].
        -- split; [intros _; right; split; [by right|]|by left]. pose proof (cnt_nonneg (delete pos T) p') as Hnn. rewrite (cnt_delete _ _ _ _ Hpos) in Hnn. lia.
        -- rewrite Z.add_0_r. split; [intros [->|?]; [done|done]|by right].
      * intros q Hq. rewrite <-Hcnt by done. rewrite fmap_insert, fmap_delete. rewrite cnt_insert, (cnt_delete _ _ (back p)).
        -- rewrite Hback. lia.
        -- by rewrite lookup_fmap, Hpos.
        -- rewrite <-fmap_delete, lookup_fmap, Hfree. done.
    + unfold with_pair. destruct (M1 !! p') as [i|] eqn:E; [done|]. by rewrite lookup_insert_ne.
    + by rewrite Hkp1.
Qed.
End swap.

(** The occurrence under replacement leaves its list. *)
Definition pop_head (oid cpos : Z) (s : store) : res store :=
  let* l := vget (L s) cpos in
  let* s := if lnext l =? -1 then Ok s else upd_L s (lnext l) (set_lprev (- oid - 1)) in
  let* l := vget (L s) cpos in
  upd_rec s oid (set_cpos (lnext l)).

Lemma pop_head_spec s T M oid k cpos r :
  store_ok s T M oid k → M !! P = Some oid → recs s !z oid = Some r → rcpos r = cpos → cpos ≠ -1 →
  T !! cpos = Some P ∧ wp (pop_head oid cpos s) (λ s', store_ok s' (delete cpos T) M oid k ∧ kept s s').
Proof using Hbn Hcn.
  intros [Hc (F & HF & Hfm)] HP Hr Hcp Hne. destruct (core_record _ _ _ _ _ Hc P oid HP) as (Hoid & _).
  destruct (sc_occ _ _ _ _ _ Hc P oid HP ltac:(lia)) as [l Hl]. pose proof Hl as [Hnd Hm Hd (r' & Hr' & Hh)]. assert (r' = r) as -> by congruence.
  destruct l as [|y l]; [cbn in Hh; lia|]. change (first_or (-1) (y :: l)) with y in Hh. rewrite Hcp in Hh. subst y.
  assert (T !! cpos = Some P) as Hpos by (apply Hm; by left). split; [done|].
  destruct Hd as (HdP & HdN & Hd). unfold l_prev, l_next in HdP, HdN. destruct (L s !z cpos) as [lc|] eqn:Hlc; [|done]. injection HdP as HdP. injection HdN as HdN.
  unfold pop_head. rewrite (vget_ok _ _ _ Hlc). cbn [rbind]. rewrite HdN.
  assert (∀ y, y ∈ cpos :: l → 0 ≤ y < zlen (L s)) as Hrange by (intros y Hy%Hm; by eapply (sc_range _ _ _ _ _ Hc)). apply NoDup_cons in Hnd as [Hcl Hnd].
  apply wp_bind. eapply wp_mono; [apply (set_first_prev s l (- oid - 1)); intros y Hy%head_elem; apply Hrange; by right|].
  intros s1 (L1 & -> & Hlen1 & Hp1 & Hn1). assert (∃ lc', L1 !z cpos = Some lc' ∧ lnext lc' = first_or (-1) l) as (lc' & Hlc' & Hnc).
  { specialize (Hn1 cpos). unfold l_next in Hn1. cbn [L with_L] in Hn1. rewrite Hlc in Hn1. destruct (L1 !z cpos) as [lc'|]; [|done]. exists lc'. split; [done|]. injection Hn1 as ->. done. }
  cbn [L with_L]. rewrite (vget_ok _ _ _ Hlc'). cbn [rbind]. rewrite Hnc. unfold upd_rec. change (recs (with_L s L1)) with (recs s). rewrite (upd_ok _ _ _ _ Hr). cbn [rbind wp].
  set (s' := with_recs _ _).
  assert (popped s cpos oid [] l s') as Hpop.
  { split.
    - intros y _. exact (Hp1 y).
    - intros y _. rewrite decide_False by done. exact (Hn1 y).
    - split; try done. exists r. split; [done|]. by rewrite decide_True. }
  split; [split|].
  - eapply (core_pop s s' T M k P oid cpos [] l); done.
  - exists F. split; [eapply relinked_heap; [apply Hpop| |done]; intros r0; destruct (decide ([] = [])); by destruct r0|]. intros j f. rewrite (Hfm j f).
    split; intros (Hj & q & Hq & ->); (split; [done|]); exists q; (split; [done|]); rewrite (cnt_delete_ne _ _ _ _ Hpos) by congruence; done.
  - by split.
Qed.

Lemma turn_inv_pop T0 M0 T M cpos : turn_inv T0 M0 T M → T !! cpos = Some P → turn_inv T0 M0 (delete cpos T) M.
Proof using Hbn Hcn.
  intros [Hdom Hcnt] Hpos. split.
  - intros q. rewrite Hdom. destruct (decide (q = P)) as [->|Hq]; [split; by left|]. by rewrite (cnt_delete_ne _ _ _ _ Hpos).
  - intros q Hq. rewrite fmap_delete, (cnt_delete_ne _ _ P), Hcnt; [done|done| |done]. rewrite lookup_fmap, Hpos. cbn. f_equal. apply back_old. unfold new_pair. cbn. tauto.
Qed.
End turn.
