(* ===== verification/RReplace.v ===== *)
(** * Replacing all occurrences of a pair

    The inner loop of [repair] in [compress.h]: an occurrence is taken from the
    list of its record, the pairs with its neighbours are uncounted, those with the
    new symbol are counted, and the text is updated.  The loop ends when the pair
    no longer occurs; the text it leaves expands to the one it started with. *)

From stdpp Require Import gmap.
From S2P Require Import Prelude Csr RArray RHash RMap RHeap RBuckets Dll RFreq RPrio RRepair RStore RPurge RText RTurn.

(** ** The pairs around a replacement *)

Lemma tmap_pre p pre a h0 x q :
  holes_ok (pre ++ [(a, h0)]) →
  tmap p ((pre ++ [(a, h0)]) ++ [(x, 0)]) !! q = if decide (q = p + width pre) then Some (a, x) else tmap p (pre ++ [(a, h0)]) !! q.
Proof.
  intros Hh. pose proof Hh as [Hh1 Hh2]%holes_app. apply Forall_cons in Hh2 as [Hh0 _]. cbn in Hh0. rewrite <-app_assoc. cbn [app].
  assert (holes_ok (pre ++ [(a, h0); (x, 0)])) as Hh3 by (apply holes_app; split; [done|]; by repeat constructor).
  rewrite (tmap_app p pre a h0 [(x, 0)]), (tmap_app p pre a h0 []) by done.
  rewrite tmap_cons2. destruct (decide (q = p + width pre)) as [->|Hq]; [rewrite decide_False by lia; by rewrite lookup_insert_eq|].
  case_decide; [done|]. rewrite lookup_insert_ne by congruence. done.
Qed.

Section around.
Context (n b0 c0 h1 h2 : Z) (pre post : list block).
Local Abbreviation cpos := (width pre).
Local Abbreviation sgte := (width pre + 1 + h1).
Local Abbreviation bs := (pre ++ (b0, h1) :: (c0, h2) :: post).
Local Abbreviation bs' := (pre ++ (n, h1 + 1 + h2) :: post).
Context (Hh : holes_ok bs).

Lemma around_holes : holes_ok pre ∧ 0 ≤ h1 ∧ 0 ≤ h2 ∧ holes_ok post ∧ holes_ok bs' ∧ 0 ≤ cpos.
Proof using Hh.
  apply holes_app in Hh as [Hp Hb]. apply Forall_cons in Hb as [H1 Hb]. apply Forall_cons in Hb as [H2 Hb]. cbn in H1, H2.
  split_and!; try done; [|by apply width_nonneg]. apply holes_app. split; [done|]. constructor; [cbn; lia|done].
Qed.

(** The pairs after the right neighbour is done. *)
Definition right_map : gmap Z pair :=
  match post with
  | [] => delete cpos (tmap 0 bs)
  | (d, _) :: _ => <[cpos := (n, d)]> (delete sgte (delete cpos (tmap 0 bs)))
  end.

Lemma right_lookup q :
  right_map !! q = if decide (q < cpos) then tmap 0 (pre ++ [(b0, 0)]) !! q else tmap 0 bs' !! q.
Proof using Hh.
  destruct around_holes as (Hp & H1 & H2 & Hpost & Hbs' & Hc). rewrite (tmap_app 0 pre n) by done. rewrite Z.add_0_l.
  unfold right_map. destruct post as [|[d h3] post'].
  - destruct (decide (q < cpos)) as [Hlt|Hge].
    + rewrite lookup_delete_ne by lia. rewrite (tmap_app 0 pre b0) by done. rewrite decide_True by lia. done.
    + rewrite lookup_delete. case_decide; [done|]. rewrite (tmap_app 0 pre b0) by done. rewrite decide_False by lia.
      rewrite tmap_cons2, lookup_insert_ne by lia. done.
  - destruct (decide (q < cpos)) as [Hlt|Hge].
    + rewrite lookup_insert_ne, !lookup_delete_ne by lia. rewrite (tmap_app 0 pre b0) by done. rewrite decide_True by lia. done.
    + rewrite tmap_cons2, !lookup_insert. case_decide; [done|]. rewrite !lookup_delete. rewrite (tmap_app 0 pre b0) by done.
      rewrite (decide_False (P := q < 0 + cpos)) by lia. rewrite Z.add_0_l, !tmap_cons2, !lookup_insert. rewrite (decide_False (P := cpos = q)) by done.
      replace (cpos + 1 + (h1 + 1 + h2)) with (sgte + 1 + h2) by lia. case_decide; [subst; symmetry; apply tmap_out; [done|lia]|].
      by rewrite decide_False.
Qed.

Lemma left_none : pre = [] → right_map = tmap 0 bs'.
Proof using Hh.
  intros Hpre. destruct around_holes as (_ & _ & _ & _ & Hbs' & _). apply map_eq. intros q. rewrite right_lookup. case_decide as E; [|done].
  rewrite Hpre in E. change (width []) with 0 in E. rewrite (tmap_out 0 bs') by (done || lia). rewrite Hpre. apply tmap_out; [by repeat constructor|lia].
Qed.

Lemma left_some pre' a h0 : pre = pre' ++ [(a, h0)] →
  right_map !! width pre' = Some (a, b0) ∧ <[width pre' := (a, n)]> (delete (width pre') right_map) = tmap 0 bs'.
Proof using Hh.
  intros Hpre. destruct around_holes as (Hp & H1 & H2 & Hpost & Hbs' & Hc). assert (0 ≤ h0 ∧ cpos = width pre' + 1 + h0) as [Hh0 Hw].
  { rewrite Hpre in *. apply holes_app in Hp as [_ Hp]. apply Forall_cons in Hp as [Hp _]. cbn in Hp. rewrite width_app. cbn. lia. }
  rewrite Hpre in Hp. assert (∀ x q, tmap 0 (pre ++ [(x, 0)]) !! q = if decide (q = width pre') then Some (a, x) else tmap 0 pre !! q) as Hpr.
  { intros x q. rewrite Hpre. by rewrite tmap_pre. }
  split.
  - rewrite right_lookup, decide_True by lia. rewrite Hpr. by rewrite decide_True.
  - apply map_eq. intros q. rewrite lookup_insert, lookup_delete, right_lookup. rewrite (tmap_app 0 pre n) by done. rewrite !Hpr.
    destruct (decide (width pre' = q)) as [<-|]; [rewrite decide_True by lia; by rewrite decide_True|].
    destruct (decide (q = width pre')); [congruence|]. by destruct (decide (q < cpos)), (decide (q < 0 + cpos)); try lia.
Qed.
End around.

(** ** One occurrence *)

Section replace.
Context (n b0 c0 : Z) (Hbn : b0 ≠ n) (Hcn : c0 ≠ n) (Hn : 0 ≤ n).
Local Abbreviation P := (b0, c0).

(** The new symbol stands for the pair. *)
Definition unfold_new (l : list Z) : list Z := l ≫= λ x, if decide (x = n) then [b0; c0] else [x].

(** The state inside a turn, against the text [l0], pairs [T0] and records [M0] at
    its start. *)
Record in_turn (l0 : list Z) (T0 : gmap Z pair) (M0 : gmap pair Z) (oid : Z) (bs : list block) (M : gmap pair Z) (k : Z) (r : rep) : Prop := {
  it_text : rep_text (inter r) (u r) bs;
  it_c : c r = zlen bs;
  it_n : RRepair.n r = n;
  it_store : store_ok (st r) (tmap 0 bs) M oid k;
  it_inv : turn_inv n b0 c0 T0 M0 (tmap 0 bs) M;
  it_oid : M !! P = Some oid;
  it_len : zlen (L (st r)) = u r;
  it_room : zlen bs ≤ sqrtu (Heap (st r)) * sqrtu (Heap (st r));
  it_k : 2 * zlen bs ≤ k;
  it_exp : unfold_new (symbols bs) = l0;
  it_new : occurs n (symbols bs) + cnt (tmap 0 bs) P ≤ cnt T0 P
}.

Lemma text_holes t u bs : rep_text t u bs → holes_ok bs.
Proof.
  intros [_ _ Hb]. revert Hb. generalize 0 at 1. induction bs as [|[x h] bs IH]; intros p Hb; [constructor|]. destruct Hb as [[] Hb]. constructor; [done|by eapply IH].
Qed.

Lemma replaced_text pre h1 h2 post : 
  unfold_new (symbols (pre ++ (n, h1 + 1 + h2) :: post)) = unfold_new (symbols (pre ++ (b0, h1) :: (c0, h2) :: post)).
Proof using Hbn Hcn.
  unfold unfold_new, symbols. rewrite !fmap_app, !bind_app. f_equal. cbn [fmap list_fmap fst mbind list_bind]. rewrite decide_True by done.
  by rewrite !decide_False.
Qed.

(** The store after the right neighbour. *)
Lemma replace_right junk T0 M0 oid pre h1 h2 post M k s bs :
  bs = pre ++ (b0, h1) :: (c0, h2) :: post → holes_ok bs → turn_start n b0 c0 T0 M0 oid →
  store_ok s (delete (width pre) (tmap 0 bs)) M oid k → turn_inv n b0 c0 T0 M0 (delete (width pre) (tmap 0 bs)) M → M !! P = Some oid →
  width bs ≤ zlen (L s) → zlen bs ≤ sqrtu (Heap s) * sqrtu (Heap s) → 2 ≤ k →
  wp (match post with
      | [] => Ok s
      | (d, _) :: _ => let* s := remove_occ junk oid (width pre + 1 + h1) c0 d s in add_occ junk (width pre) n d s
      end)
    (λ s', ∃ M', store_ok s' (right_map n b0 c0 h1 h2 pre post) M' oid (k - 1) ∧ turn_inv n b0 c0 T0 M0 (right_map n b0 c0 h1 h2 pre post) M' ∧
      M' !! P = Some oid ∧ kept s s').
Proof using Hbn Hcn.
  intros -> Hh Hs Hok Hinv HP Hlen Hroom Hk. pose proof (around_holes n b0 c0 h1 h2 pre post Hh) as (Hp & Hh1 & Hh2 & Hpost & _ & Hc).
  pose proof (width_nonneg _ Hpost). rewrite width_app in Hlen. cbn [width] in Hlen. unfold right_map. destruct post as [|[d h3] post'].
  - cbn [wp]. exists M. split_and!; try done. destruct Hok as [[? ? (? & ? & ?) ? ? ? ?] ?]. split; [|done]. split; try done. split_and!; lia.
  - apply (swap_spec n b0 c0 Hbn Hcn junk s T0 _ M0 M oid k _ (width pre) (c0, d) (n, d)); try done.
    + rewrite lookup_delete_ne by lia. change ((b0, h1) :: ?l) with ([(b0, h1)] ++ l). rewrite app_assoc.
      replace (width pre + 1 + h1) with (0 + width (pre ++ [(b0, h1)])) by (rewrite width_app; cbn; lia). apply tmap_pair. by rewrite <-app_assoc.
    + left. apply lookup_delete_eq.
    + lia.
    + by left.
    + by rewrite back_left.
    + rewrite map_size_delete_Some by (eexists; rewrite <-(Z.add_0_l (width pre)); by apply tmap_pair). pose proof (tmap_size 0 _ Hh) as Hsz.
      rewrite zlen_app, !zlen_cons in *. pose proof (zlen_nonneg pre). pose proof (zlen_nonneg post'). lia.
Qed.

(** The store after the left neighbour. *)
Lemma replace_left junk T0 M0 oid pre h1 h2 post M k s :
  holes_ok (pre ++ (b0, h1) :: (c0, h2) :: post) → turn_start n b0 c0 T0 M0 oid →
  store_ok s (right_map n b0 c0 h1 h2 pre post) M oid k → turn_inv n b0 c0 T0 M0 (right_map n b0 c0 h1 h2 pre post) M → M !! P = Some oid →
  width (pre ++ (b0, h1) :: (c0, h2) :: post) ≤ zlen (L s) → zlen (pre ++ (b0, h1) :: (c0, h2) :: post) ≤ sqrtu (Heap s) * sqrtu (Heap s) → 2 ≤ k →
  wp (match last pre with
      | None => Ok s
      | Some (a, h0) => let* s := remove_occ junk oid (width pre - 1 - h0) a b0 s in add_occ junk (width pre - 1 - h0) a n s
      end)
    (λ s', ∃ M', store_ok s' (tmap 0 (pre ++ (n, h1 + 1 + h2) :: post)) M' oid (k - 1) ∧
      turn_inv n b0 c0 T0 M0 (tmap 0 (pre ++ (n, h1 + 1 + h2) :: post)) M' ∧ M' !! P = Some oid ∧ kept s s').
Proof using Hbn Hcn.
  intros Hh Hs Hok Hinv HP Hlen Hroom Hk. pose proof (around_holes n b0 c0 h1 h2 pre post Hh) as (Hp & Hh1 & Hh2 & Hpost & Hbs' & Hc).
  pose proof (width_nonneg _ Hpost). rewrite width_app in Hlen. cbn [width] in Hlen. destruct pre as [|[a h0] pre' _] using rev_ind.
  - cbn [last wp]. rewrite (left_none n b0 c0 h1 h2 [] post Hh eq_refl) in *. exists M. split_and!; try done.
    destruct Hok as [[? ? (? & ? & ?) ? ? ? ?] ?]. split; [|done]. split; try done. split_and!; lia.
  - rewrite last_snoc. destruct (left_some n b0 c0 h1 h2 _ post Hh pre' a h0 eq_refl) as [Hl Heq].
    assert (0 ≤ h0 ∧ 0 ≤ width pre') as [Hh0 Hw']. { apply holes_app in Hp as [Hp1 Hp]. apply Forall_cons in Hp as [Hp _]. split; [done|by apply width_nonneg]. }
    assert (width (pre' ++ [(a, h0)]) = width pre' + 1 + h0) as Hw by (rewrite width_app; cbn; lia).
    rewrite Hw in *. replace (width pre' + 1 + h0 - 1 - h0) with (width pre') by lia. rewrite <-Heq.
    apply (swap_spec n b0 c0 Hbn Hcn junk s T0 _ M0 M oid k _ (width pre') (a, b0) (a, n)); try done.
    + by right.
    + lia.
    + by right.
    + by rewrite back_right.
    + assert (size (right_map n b0 c0 h1 h2 (pre' ++ [(a, h0)]) post) = size (tmap 0 ((pre' ++ [(a, h0)]) ++ (n, h1 + 1 + h2) :: post))) as ->.
      { rewrite <-Heq. rewrite map_size_insert_None by apply lookup_delete_eq. rewrite map_size_delete_Some by (by eexists).
        assert (size (right_map n b0 c0 h1 h2 (pre' ++ [(a, h0)]) post) ≠ 0%nat); [|lia]. intros E%map_size_empty_inv. by rewrite E in Hl. }
      pose proof (tmap_size 0 _ Hbs') as Hsz. rewrite !zlen_app, !zlen_cons in *. pose proof (zlen_nonneg pre'). pose proof (zlen_nonneg post). change (zlen []) with 0 in *. lia.
Qed.

(** The steps of [replace_occ], with the positions of the neighbours known. *)
Lemma replace_occ_eq junk oid pre h1 h2 post r :
  rep_text (inter r) (u r) (pre ++ (b0, h1) :: (c0, h2) :: post) → RRepair.n r = n →
  replace_occ junk oid (width pre) r =
    let* s := pop_head oid (width pre) (st r) in
    let* s := match post with
      | [] => Ok s
      | (d, _) :: _ => let* s := remove_occ junk oid (width pre + 1 + h1) c0 d s in add_occ junk (width pre) n d s
      end in
    let* s := match last pre with
      | None => Ok s
      | Some (a, h0) => let* s := remove_occ junk oid (width pre - 1 - h0) a b0 s in add_occ junk (width pre - 1 - h0) a n s
      end in
    let* inter := replace_text (inter r) (u r) n (width pre) (width pre + 1 + h1 + 1 + h2) in
    Ok (Rep inter (u r) (c r - 1) n s).
Proof using.
  intros Ht Hrn. unfold replace_occ, pop_head. rewrite (next_pos_ok _ _ _ _ _ _ _ _ Ht). cbn [rbind]. rewrite (after_pos_ok _ _ _ _ _ _ _ _ Ht). cbn [rbind].
  rewrite Hrn. destruct (pair_blocks _ _ _ _ _ _ _ _ Ht) as (Hpre & Hb & Hc & Hpost & Hw & Hwp & Hu & Hlen).
  destruct (vget (L (st r)) (width pre)) as [l|]; [|done]. cbn [rbind]. destruct (if lnext l =? -1 then _ else _) as [s1|]; [|done]. cbn [rbind].
  destruct (vget (L s1) (width pre)) as [l1|]; [|done]. cbn [rbind]. destruct (upd_rec s1 oid _) as [s2|]; [|done]. cbn [rbind].
  assert ((if width pre + 1 + h1 + 1 + h2 =? u r then Ok s2 else
    let* lhs := vget (inter r) (width pre + 1 + h1) in
    let* rhs := vget (inter r) (width pre + 1 + h1 + 1 + h2) in
    let* s := remove_occ junk oid (width pre + 1 + h1) lhs rhs s2 in
    add_occ junk (width pre) n rhs s) = match post with
      | [] => Ok s2
      | (d, _) :: _ => let* s := remove_occ junk oid (width pre + 1 + h1) c0 d s2 in add_occ junk (width pre) n d s
      end) as ->.
  { destruct post as [|[d h3] post']; [cbn in Hu; by rewrite (proj2 (Z.eqb_eq _ _)) by lia|]. destruct Hpost as [[Hh3 Hd _ _ _] Hpost']. cbn in Hu.
    pose proof (blocks_width_nonneg _ _ _ _ Hpost'). destruct (Z.eqb_spec (width pre + 1 + h1 + 1 + h2) (u r)); [lia|].
    rewrite (vget_ok _ _ _ (ba_sym _ _ _ _ _ Hc)). cbn [rbind]. by rewrite (vget_ok _ _ _ Hd). }
  destruct (match post with [] => _ | _ => _ end) as [s3|]; [|done]. cbn [rbind]. f_equal.
  destruct pre as [|[a h0] pre' _] using rev_ind; [done|]. rewrite last_snoc.
  assert (width (pre' ++ [(a, h0)]) = width pre' + 1 + h0) as Hwe by (rewrite width_app; cbn; lia).
  rewrite Hwe in *. apply blocks_at_app in Hpre as [Hpre' [Ha _]]. pose proof (blocks_width_nonneg _ _ _ _ Hpre'). pose proof (ba_holes _ _ _ _ _ Ha).
  destruct (Z.eqb_spec (width pre' + 1 + h0) 0); [lia|]. pose proof (before_pos_ok _ _ _ _ _ _ _ _ Ht pre' a h0 eq_refl) as Hbp. rewrite Hwe in Hbp.
  rewrite Hbp. cbn [rbind]. rewrite Z.add_0_l in Ha. rewrite (vget_ok _ _ _ (ba_sym _ _ _ _ _ Ha)). cbn [rbind].
  rewrite (vget_ok _ _ _ (ba_sym _ _ _ _ _ Hb)). cbn [rbind]. replace (width pre' + 1 + h0 - 1 - h0) with (width pre') by lia. done.
Qed.

(** One occurrence less. *)
Lemma replaced_cnt pre h1 h2 post :
  holes_ok (pre ++ (b0, h1) :: (c0, h2) :: post) →
  cnt (tmap 0 (pre ++ (n, h1 + 1 + h2) :: post)) P ≤ cnt (tmap 0 (pre ++ (b0, h1) :: (c0, h2) :: post)) P - 1.
Proof using Hbn Hcn.
  intros Hh. pose proof (tmap_pair 0 pre b0 h1 c0 h2 post Hh) as Hat. rewrite Z.add_0_l in Hat.
  pose proof (cnt_delete _ _ _ P Hat) as Hd. rewrite decide_True in Hd by done. rewrite <-Hd. apply cnt_le. intros q Hq.
  assert (right_map n b0 c0 h1 h2 pre post !! q = Some P) as Hr.
  { destruct pre as [|[a h0] pre' _] using rev_ind; [by rewrite (left_none _ _ _ _ _ [] post Hh eq_refl)|].
    destruct (left_some n b0 c0 h1 h2 _ post Hh pre' a h0 eq_refl) as [_ Heq]. rewrite <-Heq in Hq.
    apply lookup_insert_Some in Hq as [[_ ?]|[_ Hq]]; [congruence|]. by apply lookup_delete_Some in Hq as [_ ?]. }
  unfold right_map in Hr. destruct post as [|[d h3] post']; [done|]. apply lookup_insert_Some in Hr as [[_ ?]|[_ Hr]]; [congruence|].
  by apply lookup_delete_Some in Hr as [_ ?].
Qed.

Lemma replace_occ_spec junk l0 T0 M0 oid bs M k r orec :
  in_turn l0 T0 M0 oid bs M k r → turn_start n b0 c0 T0 M0 oid → recs (st r) !z oid = Some orec → rcpos orec ≠ -1 →
  wp (replace_occ junk oid (rcpos orec) r) (λ r', ∃ bs' M', in_turn l0 T0 M0 oid bs' M' (k - 2) r' ∧
    cnt (tmap 0 bs') P < cnt (tmap 0 bs) P ∧ zlen bs' = zlen bs - 1 ∧ u r' = u r ∧ kept (st r) (st r')).
Proof using Hbn Hcn Hn.
  intros [Ht Hc Hrn Hok Hinv HP Hlen Hroom Hk Hexp Hnew] Hs Hor Hcp. pose proof (text_holes _ _ _ Ht) as Hh.
  destruct (pop_head_spec n b0 c0 Hbn Hcn _ _ _ _ _ (rcpos orec) orec Hok HP Hor eq_refl Hcp) as [Hat Hpop].
  destruct (tmap_at bs (rcpos orec) b0 c0 Hh 0 Hat) as (pre & h1 & h2 & post & -> & Hpos). rewrite Z.add_0_l in Hpos. rewrite Hpos in *.
  assert (zlen (pre ++ (b0, h1) :: (c0, h2) :: post) = zlen pre + 2 + zlen post) as Hz by (rewrite zlen_app, !zlen_cons; lia).
  pose proof (zlen_nonneg pre). pose proof (zlen_nonneg post). rewrite (replace_occ_eq _ _ _ _ _ _ _ Ht Hrn).
  apply wp_bind. eapply wp_mono; [exact Hpop|]. intros s1 [Hok1 Hkp1]. apply wp_bind.
  assert (turn_inv n b0 c0 T0 M0 (delete (width pre) (tmap 0 (pre ++ (b0, h1) :: (c0, h2) :: post))) M) as Hinv1 by (by apply turn_inv_pop).
  eapply wp_mono; [eapply (replace_right junk T0 M0 oid pre h1 h2 post M k s1 _ eq_refl Hh Hs Hok1 Hinv1 HP)|].
  { rewrite (kp_len _ _ Hkp1), Hlen, (rt_width _ _ _ Ht). done. }
  { by rewrite (kp_sqrtu _ _ Hkp1). }
  { lia. }
  intros s2 (M2 & Hok2 & Hinv2 & HP2 & Hkp2). apply wp_bind.
  eapply wp_mono; [eapply (replace_left junk T0 M0 oid pre h1 h2 post M2 _ s2 Hh Hs Hok2 Hinv2 HP2)|].
  { rewrite (kp_len _ _ Hkp2), (kp_len _ _ Hkp1), Hlen, (rt_width _ _ _ Ht). done. }
  { by rewrite (kp_sqrtu _ _ Hkp2), (kp_sqrtu _ _ Hkp1). }
  { lia. }
  intros s3 (M3 & Hok3 & Hinv3 & HP3 & Hkp3). apply wp_bind. eapply wp_mono; [by apply (replace_text_ok _ _ _ _ _ _ _ _ Ht n)|].
  intros t' Ht'. cbn [wp]. assert (kept (st r) s3) as Hkp by (by rewrite Hkp1, Hkp2).
  pose proof (replaced_cnt pre h1 h2 post Hh) as Hcnt.
  assert (zlen (pre ++ (n, h1 + 1 + h2) :: post) = zlen pre + 1 + zlen post) as Hz' by (rewrite zlen_app, zlen_cons; lia).
  exists (pre ++ (n, h1 + 1 + h2) :: post), M3. split_and!; [|lia|lia|done|done]. split; cbn [inter u c RRepair.n st]; try done.
  - lia.
  - replace (k - 2) with (k - 1 - 1) by lia. done.
  - by rewrite (kp_len _ _ Hkp).
  - rewrite (kp_sqrtu _ _ Hkp). lia.
  - lia.
  - by rewrite replaced_text.
  - revert Hnew. unfold symbols. rewrite !fmap_app, !occurs_app. cbn [fmap list_fmap fst]. rewrite !occurs_cons.
    rewrite (decide_True (P := n = n)) by done. rewrite (decide_False (P := b0 = n)), (decide_False (P := c0 = n)) by done. lia.
Qed.

(** ** All occurrences *)

Lemma no_occurrence s T M oid k orec :
  store_ok s T M oid k → M !! P = Some oid → recs s !z oid = Some orec → rcpos orec = -1 → cnt T P = 0.
Proof using.
  intros [Hc _] HP Hor Hcp. destruct (core_record _ _ _ _ _ Hc P oid HP) as (Hoid & _). destruct (sc_occ _ _ _ _ _ Hc P oid HP ltac:(lia)) as [l Hl].
  destruct Hl as [Hnd Hm _ (r & Hr & Hh)]. assert (r = orec) as -> by congruence. destruct l as [|y l]; [by apply (cnt_list T P [])|].
  assert (T !! y = Some P) as Hy by (apply Hm; by left). apply (sc_range _ _ _ _ _ Hc) in Hy. rewrite Hcp in Hh. cbn in Hh. lia.
Qed.

Lemma replace_all_spec junk l0 T0 M0 oid bs M k r orec :
  in_turn l0 T0 M0 oid bs M k r → turn_start n b0 c0 T0 M0 oid → recs (st r) !z oid = Some orec →
  wp (replace_all junk oid (rcpos orec) r) (λ r', ∃ bs' M' k', in_turn l0 T0 M0 oid bs' M' k' r' ∧ cnt (tmap 0 bs') P = 0 ∧
    u r' = u r ∧ kept (st r) (st r') ∧ 2 * zlen bs' + (k - 2 * zlen bs) = k' ∧ zlen bs' ≤ zlen bs ∧ (rcpos orec ≠ -1 → zlen bs' < zlen bs)).
Proof using Hbn Hcn Hn.
  intros Hin Hs Hor. unfold replace_all. apply wp_bind.
  apply (wp_while_rel (λ '(cpos, r') m, ∃ bs' M' k' orec', in_turn l0 T0 M0 oid bs' M' k' r' ∧ recs (st r') !z oid = Some orec' ∧ rcpos orec' = cpos ∧
    u r' = u r ∧ kept (st r) (st r') ∧ 2 * zlen bs' + (k - 2 * zlen bs) = k' ∧ zlen bs' ≤ zlen bs ∧ (zlen bs' = zlen bs → cpos = rcpos orec) ∧ m = Z.to_nat (cnt (tmap 0 bs') P)) (Z.to_nat (cnt (tmap 0 bs) P))).
  - exists bs, M, k, orec. split_and!; try done. lia.
  - destruct Hin as [Ht _ _ _ _ _ _ _ _ _ _]. pose proof (text_holes _ _ _ Ht) as Hh. destruct (tmap_cnt 0 bs b0 c0 Hh) as [Hle _]. 
    assert (occurs b0 (symbols bs) ≤ zlen bs). { unfold occurs, symbols, zlen. apply inj_le. rewrite <-(length_fmap fst bs). apply length_filter. }
    assert (zlen bs ≤ width bs). { clear -Hh. induction Hh as [|[x h] l Hh _ IH]; [done|]. rewrite zlen_cons. cbn in *. lia. }
    rewrite (rt_width _ _ _ Ht), <-(rt_len _ _ _ Ht) in *. unfold zlen at 2 in H0. lia.
  - intros [cpos r1] m (bs1 & M1 & k1 & or1 & Hin1 & Hr1 & <- & Hu1 & Hkp1 & Hk1 & Hle1 & Hst1 & ->). cbn [wp]. destruct (Z.eqb_spec (rcpos or1) (-1)) as [E|E]; cbn [negb].
    + cbn [wp rbind]. exists bs1, M1, k1. pose proof Hin1 as [_ _ _ Hok1 _ HP1 _ _ _ _ _]. split_and!; try done; [by eapply no_occurrence|].
      intros Hne. destruct (decide (zlen bs1 = zlen bs)) as [E'|]; [|lia]. specialize (Hst1 E'). congruence.
    + apply wp_bind. eapply wp_mono; [by apply (replace_occ_spec junk l0 T0 M0 oid bs1 M1 k1 r1 or1)|].
      intros r2 (bs2 & M2 & Hin2 & Hcnt2 & Hz2 & Hu2 & Hkp2). pose proof Hin2 as [_ _ _ [Hc2 _] _ HP2 _ _ _ _ _].
      destruct (core_record _ _ _ _ _ Hc2 P oid HP2) as (_ & or2 & Hr2 & _). rewrite (vget_ok _ _ _ Hr2). cbn [rbind wp].
      pose proof (cnt_nonneg (tmap 0 bs2) P). exists (Z.to_nat (cnt (tmap 0 bs2) P)). split; [|lia]. exists bs2, M2, (k1 - 2), or2.
      split_and!; try done; [congruence|by rewrite Hkp1|lia..].
Qed.
End replace.
