(* ===== verification/RCompact.v ===== *)
(** * Compaction

    The loop of [repair] in [compress.h] that moves the symbols of a text with many
    holes to the front.  A position moves together with its cell of the occurrence
    lists; the store represents the same pairs, at the new positions. *)

From stdpp Require Import gmap.
From S2P Require Import Prelude Csr RArray RHash RMap RHeap RBuckets Dll RFreq RPrio RRepair RStore RPurge RText RTurn RReplace.

(** ** Moving a position *)

Lemma dll_move P N P' N' p l x k t z :
  dll P N p (l ++ x :: k) t → NoDup (l ++ x :: k) → NoDup (l ++ z :: k) → P' z = Some (last_or p l) → N' z = Some (first_or t k) →
  (∀ y, y ∈ l ++ k → P' y = if decide (head k = Some y) then Some z else P y) →
  (∀ y, y ∈ l ++ k → N' y = if decide (last l = Some y) then Some z else N y) →
  dll P' N' p (l ++ z :: k) t.
Proof.
  intros Hd Hnd Hnd' HPz HNz HP HN.
  eapply (dll_insert (λ y, if decide (head k = Some y) then Some (last_or p l) else P y) (λ y, if decide (last l = Some y) then Some (first_or t k) else N y)); try done.
  - by eapply (dll_remove P N).
  - intros y Hy. rewrite HP by done. by case_decide.
  - intros y Hy. rewrite HN by done. by case_decide.
Qed.

(** The cell of position [i] is now at [z]. *)
Record moved (s : store) (i z id : Z) (l1 l2 : list Z) (s' : store) : Prop := {
  mv_prev : ∀ y, l_prev s' y = if decide (y = z) then Some (last_or (- id - 1) l1) else if decide (head l2 = Some y) then Some z else l_prev s y;
  mv_next : ∀ y, l_next s' y = if decide (y = z) then Some (first_or (-1) l2) else if decide (last l1 = Some y) then Some z else l_next s y;
  mv_rest : relinked s s' id (λ r, if decide (l1 = []) then set_cpos z r else r)
}.

Section move.
Context (s s' : store) (T : gmap Z pair) (M : gmap pair Z) (k i z : Z) (p : pair).
Context (Hc : store_core s T M k (-1)) (Hi : T !! i = Some p) (Hz : T !! z = None ∨ z = i) (Hr : 0 ≤ z < zlen (L s)).
Local Abbreviation T' := (<[z := p]> (delete i T)).

Lemma moved_free y q : y ≠ z → T' !! y = Some q → T !! y = Some q ∧ y ≠ i.
Proof using. intros Hy [[? _]|[_ [? ?]%lookup_delete_Some]]%lookup_insert_Some; [congruence|done]. Qed.

Lemma moved_other q y : q ≠ p → T' !! y = Some q ↔ T !! y = Some q.
Proof using Hi Hz.
  intros Hq. rewrite lookup_insert_Some, lookup_delete_Some. split; [intros [[_ ?]|(_ & _ & ?)]; [congruence|done]|].
  intros Hy. right. split_and!; [|congruence|done]. intros <-. destruct Hz; congruence.
Qed.

Lemma moved_cnt q : cnt T' q = cnt T q.
Proof using Hi Hz.
  rewrite (cnt_swap T i p z p q Hi Hz). lia.
Qed.

Lemma moved_nodup id l1 l2 : occ_list s T id p (l1 ++ i :: l2) → NoDup (l1 ++ z :: l2) ∧ (∀ y, y ∈ l1 ++ l2 → y ≠ z ∧ y ≠ i ∧ T !! y = Some p).
Proof using Hz Hr.
  intros [Hnd Hm _ _]. destruct (head_last_mid _ _ _ Hnd) as (Hx1 & Hx2 & Hnd1 & Hnd2 & Hdis).
  assert (∀ y, y ∈ l1 ++ l2 → y ≠ z ∧ y ≠ i ∧ T !! y = Some p) as Hin.
  { intros y Hy. assert (y ≠ i) as Hyi by (intros ->; apply elem_of_app in Hy as [?|?]; done).
    assert (T !! y = Some p) as HT. { apply Hm. rewrite elem_of_app in Hy. rewrite elem_of_app, elem_of_cons. tauto. }
    split_and!; [|done..]. intros ->. destruct Hz as [?| ->]; [congruence|done]. }
  split; [|done]. apply NoDup_app. split_and!; [done| |].
  - intros y Hy [->|?]%elem_of_cons; [|by eapply Hdis]. destruct (Hin z); [list_in|done].
  - apply NoDup_cons. split; [|done]. intros ?. destruct (Hin z); [list_in|done].
Qed.

Lemma core_move id l1 l2 : M !! p = Some id → occ_list s T id p (l1 ++ i :: l2) → moved s i z id l1 l2 s' → store_core s' T' M k (-1).
Proof using Hc Hi Hz Hr.
  intros Hp Hocc [Hprev Hnext Hre]. pose proof Hocc as [Hnd Hm Hd (r0 & Hr0 & Hh)]. destruct (moved_nodup id l1 l2 Hocc) as [Hnd' Hin].
  assert (∀ r, let g := (λ r, if decide (l1 = []) then set_cpos z r else r) in
    rec_sim (set_cpos (rcpos (g r)) r) (g r) ∧ rfreq (g r) = rfreq r ∧ rhpos (g r) = rhpos r) as Hg.
  { intros r. destruct (decide (l1 = [])); by destruct r. }
  assert (∀ y q, T !! y = Some q → q ≠ p → l_prev s' y = l_prev s y ∧ l_next s' y = l_next s y) as Hsame.
  { intros y q Hy Hq. assert (y ≠ z) as Hyz by (intros ->; destruct Hz; congruence). rewrite Hprev, Hnext, !(decide_False (P := y = z)) by done. split.
    - rewrite decide_False; [done|]. intros E%head_elem. destruct (Hin y) as (_ & _ & ?); [list_in|congruence].
    - rewrite decide_False; [done|]. intros E%last_elem. destruct (Hin y) as (_ & _ & ?); [list_in|congruence]. }
  eapply core_relink; [exact Hc|exact Hre|exact Hg| | |].
  - intros p' j Hj _. destruct (decide (j = id)) as [->|Hne].
    + assert (p' = p) as -> by (by eapply (rep_inj _ _ _ (sc_hash _ _ _ _ _ Hc))). exists (l1 ++ z :: l2). split; [done| | |].
      * intros y. destruct (decide (y = z)) as [->|Hyz]; [split; [intros _; by rewrite lookup_insert_eq|intros _; list_in]|]. rewrite lookup_insert_ne, lookup_delete_Some by done.
        rewrite <-Hm, !elem_of_app, !elem_of_cons. split; [|intuition congruence]. intros Hy. destruct (Hin y) as (_ & ? & ?); [rewrite elem_of_app; tauto|]. split; [congruence|tauto].
      * eapply (dll_move (l_prev s) (l_next s)); [exact Hd|done|done|by rewrite Hprev, decide_True|by rewrite Hnext, decide_True| |].
        -- intros y (? & _)%Hin. by rewrite Hprev, decide_False.
        -- intros y (? & _)%Hin. by rewrite Hnext, decide_False.
      * destruct (rl_recs _ _ _ _ Hre) as (r & Hr' & HR). assert (r = r0) as -> by congruence. eexists. split.
        -- unfold recs. rewrite HR. cbn. apply zlookup_zinsert_eq. by eapply zlookup_range.
        -- case_decide as E; [subst; by destruct r0|]. rewrite Hh. by destruct l1.
    + destruct (sc_occ _ _ _ _ _ Hc p' j Hj) as [l' [Hnd2 Hm' Hd' (r & Hrj & Hhj)]].
      { pose proof (core_record _ _ _ _ _ Hc p' j Hj) as [? _]. lia. }
      exists l'. assert (p' ≠ p) as Hpp by (intros ->; congruence). split; [done| | |].
      * intros y. rewrite Hm'. symmetry. by apply moved_other.
      * eapply dll_frame; [exact Hd'|]. intros y Hy%Hm'. by apply (Hsame y p').
      * exists r. split; [|done]. destruct (relinked_sim _ _ _ _ Hre Hg j r Hrj) as (r' & Hr' & _ & _ & _ & Heq). by rewrite <-Heq.
  - intros y p' Hy Hdead. assert (p' ≠ p) as Hpp by congruence. apply moved_other in Hy; [|done]. rewrite <-(sc_dead _ _ _ _ _ Hc y p' Hy Hdead).
    by apply L_eq; eapply Hsame.
  - intros y p' [[<- _]|[_ [_ Hy]%lookup_delete_Some]]%lookup_insert_Some; [done|]. by eapply (sc_range _ _ _ _ _ Hc).
Qed.
End move.

(** The part of [compact_step] on the lists. *)
Definition move_cell (i ni : Z) (s : store) : res store :=
  let* l := vget (L s) i in
  let* s := upd_L s ni (λ _, l) in
  let* s :=
    if lprev l <? 0 then
      if lprev l =? NullFreq then Ok s else upd_rec s (- lprev l - 1) (set_cpos ni)
    else upd_L s (lprev l) (set_lnext ni) in
  let* l := vget (L s) ni in
  if lnext l =? -1 then Ok s else upd_L s (lnext l) (set_lprev ni).

Lemma compact_step_eq ni i inter s :
  compact_step ni (i, inter, s) =
    let* x := vget inter i in
    let* inter := vset inter ni x in
    let* s := move_cell i ni s in
    let* y := vget inter (i + 1) in
    Ok (if y <? 0 then - y - 1 else i + 1, inter, s).
Proof.
  unfold compact_step, move_cell. destruct (vget inter i); [|done]. cbn [rbind]. destruct (vset inter ni _); [|done]. cbn [rbind].
  destruct (vget (L s) i) as [l|]; [|done]. cbn [rbind]. destruct (upd_L s ni _) as [s1|]; [|done]. cbn [rbind].
  destruct (if lprev l <? 0 then _ else _) as [s2|]; [|done]. cbn [rbind]. by destruct (vget (L s2) ni).
Qed.

(** Setting a cell. *)
Lemma set_cell s z lp : 0 ≤ z < zlen (L s) →
  ∃ s1, upd_L s z (λ _, lp) = Ok s1 ∧ s1 = with_L s (zinsert (L s) z lp) ∧
    (∀ y, l_prev s1 y = if decide (y = z) then Some (lprev lp) else l_prev s y) ∧ (∀ y, l_next s1 y = if decide (y = z) then Some (lnext lp) else l_next s y).
Proof.
  intros Hz. destruct (zlookup_total (L s) z Hz) as [l Hl]. unfold upd_L. rewrite (upd_ok _ _ _ _ Hl). cbn [rbind]. eexists. split; [done|]. split; [done|].
  unfold l_prev, l_next. cbn [L with_L]. split; intros y; rewrite zlookup_zinsert by done; by case_decide.
Qed.

Lemma relink_before s T id p i l1 l2 r z :
  occ_list s T id p (l1 ++ i :: l2) → 0 ≤ id → recs s !z id = Some r → zlen (recs s) ≤ 2 ^ 20 → (∀ y, y ∈ l1 ++ l2 → 0 ≤ y < zlen (L s) ∧ y ≠ z) →
  ∀ s1 lp, s1 = with_L s (zinsert (L s) z lp) → 0 ≤ z < zlen (L s) →
  wp (if last_or (- id - 1) l1 <? 0 then
        if last_or (- id - 1) l1 =? NullFreq then Ok s1 else upd_rec s1 (- last_or (- id - 1) l1 - 1) (set_cpos z)
      else upd_L s1 (last_or (- id - 1) l1) (set_lnext z))
    (λ s2, relinked s s2 id (λ r, if decide (l1 = []) then set_cpos z r else r) ∧ L s2 !z z = Some lp ∧
      (∀ y, l_prev s2 y = l_prev s1 y) ∧ (∀ y, l_next s2 y = if decide (last l1 = Some y) then Some z else l_next s1 y)).
Proof.
  intros Hocc Hid Hr Hsm Hin s1 lp -> Hz. pose proof (zlookup_range _ _ _ Hr) as Hir. destruct l1 as [|w l1 _] using rev_ind.
  - change (last_or (- id - 1) []) with (- id - 1). destruct (Z.ltb_spec (- id - 1) 0); [|lia]. unfold NullFreq, INT_MIN.
    destruct (Z.eqb_spec (- id - 1) (- 2 ^ 31)); [lia|]. replace (- (- id - 1) - 1) with id by lia. unfold upd_rec.
    change (recs (with_L s ?l)) with (recs s). rewrite (upd_ok _ _ _ _ Hr). cbn [rbind wp]. split_and!; [|by apply zlookup_zinsert_eq|done|done].
    split; try done; [apply zlen_zinsert|]. exists r. split; [done|]. by rewrite decide_True.
  - destruct (Hin w) as [Hw Hwz]; [list_in|]. rewrite last_or_snoc. destruct (Z.ltb_spec w 0); [lia|]. set (s1 := with_L s _).
    assert (zlen (L s1) = zlen (L s)) as Hlen1 by apply zlen_zinsert. destruct (zlookup_total (L s1) w) as [lw Hlw]; [lia|].
    unfold upd_L. rewrite (upd_ok _ _ _ _ Hlw). cbn [rbind wp]. rewrite last_snoc. split_and!.
    + split; try done; [cbn [L with_L]; by rewrite zlen_zinsert|]. exists r. split; [done|]. rewrite decide_False by (by destruct l1).
      cbn. rewrite zinsert_id by done. unfold recs. by destruct (Rec s).
    + cbn [L with_L]. rewrite zlookup_zinsert_ne by lia. by apply zlookup_zinsert_eq.
    + intros y. unfold l_prev. cbn [L with_L]. rewrite zlookup_zinsert by lia. case_decide; [subst; by rewrite Hlw|done].
    + intros y. unfold l_next. cbn [L with_L]. rewrite zlookup_zinsert by lia. case_decide; [subst; by rewrite decide_True|]. by rewrite decide_False by congruence.
Qed.

Lemma moved_freq T M oid F i p z : T !! i = Some p → T !! z = None ∨ z = i → freq_map T M oid F → freq_map (<[z := p]> (delete i T)) M oid F.
Proof. intros Hi Hz Hfm j f. rewrite (Hfm j f). split; intros (Hj & q & Hq & ->); (split; [done|]); exists q; by rewrite (moved_cnt T i z p Hi Hz). Qed.

Lemma move_cell_spec s T M oid k i z p :
  store_ok s T M oid k → T !! i = Some p → T !! z = None ∨ z = i → 0 ≤ z < zlen (L s) →
  wp (move_cell i z s) (λ s', store_ok s' (<[z := p]> (delete i T)) M oid k ∧ kept s s').
Proof.
  intros [Hc (F & HF & Hfm)] Hi Hz Hr. pose proof (sc_range _ _ _ _ _ Hc i p Hi) as Hir. destruct (zlookup_total (L s) i Hir) as [lp Hlp].
  pose proof (core_small _ _ _ _ _ Hc) as [_ Hsm]. unfold move_cell. rewrite (vget_ok _ _ _ Hlp). cbn [rbind]. destruct (set_cell s z lp Hr) as (s1 & -> & Hs1 & Hp1 & Hn1). cbn [rbind].
  destruct (M !! p) as [id|] eqn:Hp.
  - destruct (core_record _ _ _ _ _ Hc p id Hp) as (Hid & r & Hrec & _). destruct (sc_occ _ _ _ _ _ Hc p id Hp ltac:(lia)) as [l Hl].
    assert (i ∈ l) as Hin by (by apply (ol_mem _ _ _ _ _ Hl)). apply list_elem_of_split in Hin as (l1 & l2 & ->).
    destruct (moved_nodup s T i z p Hz Hr id l1 l2 Hl) as [_ Hfree]. assert (∀ y, y ∈ l1 ++ l2 → 0 ≤ y < zlen (L s) ∧ y ≠ z) as Hrange.
    { intros y (? & _ & Hy)%Hfree. split; [by eapply (sc_range _ _ _ _ _ Hc)|done]. }
    destruct (dll_at _ _ _ _ _ _ _ (ol_dll _ _ _ _ _ Hl)) as [HP HN]. unfold l_prev, l_next in HP, HN. rewrite Hlp in HP, HN. injection HP as HP. injection HN as HN. rewrite HP.
    apply wp_bind. eapply wp_mono; [by eapply (relink_before s T id p i l1 l2 r z Hl ltac:(lia) Hrec Hsm Hrange s1 lp)|]. intros s2 (Hre2 & Hlz & Hp2 & Hn2).
    rewrite (vget_ok _ _ _ Hlz). cbn [rbind]. rewrite HN. eapply wp_mono; [apply (set_first_prev s2 l2 z)|].
    { intros y Hy%head_elem. rewrite (rl_len _ _ _ _ Hre2). apply Hrange. list_in. }
    intros s3 (L3 & -> & Hlen3 & Hp3 & Hn3). assert (moved s i z id l1 l2 (with_L s2 L3)) as Hmv.
    { split.
      - intros y. rewrite Hp3, Hp2, Hp1, HP. destruct (decide (y = z)) as [->|]; [|done]. rewrite decide_False; [done|]. intros E%head_elem. destruct (Hrange z); [list_in|done].
      - intros y. rewrite Hn3, Hn2, Hn1, HN. destruct (decide (y = z)) as [->|]; [|done]. rewrite decide_False; [done|]. intros E%last_elem. destruct (Hrange z); [list_in|done].
      - destruct Hre2 as [? ? ? ?]. split; cbn; try done. lia. }
    split; [split|].
    + by eapply core_move.
    + exists F. split; [|by apply moved_freq]. eapply relinked_heap; [apply Hmv| |done]. intros r0. destruct (decide (l1 = [])); by destruct r0.
    + destruct Hmv as [_ _ [? _ _ HH]]. split; [done|by rewrite HH..].
  - assert (lp = TList NullFreq (-1)) as -> by (pose proof (sc_dead _ _ _ _ _ Hc i p Hi Hp); congruence). cbn [lprev lnext rbind]. rewrite Z.eqb_refl.
    change (NullFreq <? 0) with true. cbn [rbind]. rewrite Hs1. cbn [L with_L]. rewrite (vget_ok _ _ _ (zlookup_zinsert_eq _ _ _ Hr)). cbn [rbind lnext wp].
    split; [split|].
    + destruct Hc as [? ? ? ? Ho Hd Hrg]. split; try done; cbn [L with_L].
      * intros q j Hj Hx. destruct (Ho q j Hj Hx) as [l [Hnd Hm Hdl Hh]]. exists l. assert (q ≠ p) by congruence. split; [done| | |done].
        -- intros y. rewrite Hm. symmetry. by apply moved_other.
        -- eapply dll_frame; [exact Hdl|]. intros y Hy%Hm. rewrite <-Hs1, Hp1, Hn1. rewrite !decide_False; [done|..]; intros ->; destruct Hz; congruence.
      * intros y q Hy Hq. rewrite zlookup_zinsert by done. case_decide; [done|]. apply moved_free in Hy as [Hy _]; [|done]. by apply (Hd y q).
      * rewrite zlen_zinsert. intros y q [[<- _]|[_ [_ Hy]%lookup_delete_Some]]%lookup_insert_Some; [done|]. by eapply Hrg.
    + exists F. split; [by eapply heap_frame|by apply moved_freq].
    + split; [apply zlen_zinsert|done..].
Qed.

(** ** The pairs of symbols at given positions *)

Fixpoint pmap (l : list (Z * Z)) : gmap Z pair :=
  match l with
  | [] => ∅
  | (p, x) :: l' =>
      match l' with
      | [] => ∅
      | (_, y) :: _ => <[p := (x, y)]> (pmap l')
      end
  end.

Fixpoint places (p : Z) (bs : list block) : list (Z * Z) :=
  match bs with
  | [] => []
  | (x, h) :: bs' => (p, x) :: places (p + 1 + h) bs'
  end.

Lemma pmap_places p bs : pmap (places p bs) = tmap p bs.
Proof.
  revert p. induction bs as [|[x h] bs IH]; intros p; [done|]. destruct bs as [|[y h'] bs]; [done|]. rewrite tmap_cons2, <-IH. done.
Qed.

Lemma places_range p bs q : holes_ok bs → q ∈ (places p bs).*1 → p ≤ q < p + width bs.
Proof.
  intros Hh. revert p. induction Hh as [|[x h] bs Hh Hb IH]; intros p Hq; [by apply not_elem_of_nil in Hq|]. cbn in Hh. pose proof (width_nonneg _ Hb).
  cbn in Hq |- *. apply elem_of_cons in Hq as [->|Hq]; [lia|]. apply IH in Hq. lia.
Qed.

Lemma pmap_out l q : q ∉ l.*1 → pmap l !! q = None.
Proof.
  induction l as [|[p x] l IH]; intros Hq; [done|]. cbn [fmap list_fmap fst] in Hq. apply not_elem_of_cons in Hq as [Hp Hq]. destruct l as [|[p' y] l]; [done|].
  change (pmap ((p, x) :: (p', y) :: l)) with (<[p := (x, y)]> (pmap ((p', y) :: l))). rewrite lookup_insert_ne by done. by apply IH.
Qed.

Lemma pmap_cons_app p w (l : list (Z * Z)) x l2 : ∃ y, ∀ j, pmap (((p, w) :: l) ++ (j, x) :: l2) = <[p := (w, y)]> (pmap (l ++ (j, x) :: l2)).
Proof. destruct l as [|[p' y] l]; [exists x|exists y]; intros j; done. Qed.

(** A symbol that has a right neighbour moves. *)
Lemma pmap_move l1 i x p' y l2 z :
  (i ∉ l1.*1) → (z ∉ l1.*1) → (i ∉ ((p', y) :: l2).*1) → (z ∉ ((p', y) :: l2).*1) →
  pmap (l1 ++ (i, x) :: (p', y) :: l2) !! i = Some (x, y) ∧
  (pmap (l1 ++ (i, x) :: (p', y) :: l2) !! z = None ∨ z = i) ∧
  pmap (l1 ++ (z, x) :: (p', y) :: l2) = <[z := (x, y)]> (delete i (pmap (l1 ++ (i, x) :: (p', y) :: l2))).
Proof.
  intros Hi1 Hz1 Hi2 Hz2. assert (pmap ((p', y) :: l2) !! i = None) as Hi by (by apply pmap_out). induction l1 as [|[p w] l1 IH].
  - change (pmap ([] ++ (?j, x) :: (p', y) :: l2)) with (<[j := (x, y)]> (pmap ((p', y) :: l2))). rewrite lookup_insert_eq. split_and!; [done| |].
    + destruct (decide (z = i)); [by right|left]. rewrite lookup_insert_ne by done. by apply pmap_out.
    + by rewrite delete_insert_id.
  - cbn [fmap list_fmap fst] in Hi1, Hz1. apply not_elem_of_cons in Hi1 as [Hpi Hi1]. apply not_elem_of_cons in Hz1 as [Hpz Hz1].
    destruct (IH Hi1 Hz1) as (IH1 & IH2 & IH3). destruct (pmap_cons_app p w l1 x ((p', y) :: l2)) as [v Hv].
    rewrite (Hv i), (Hv z), IH3. split_and!.
    + by rewrite lookup_insert_ne.
    + by rewrite lookup_insert_ne.
    + rewrite delete_insert_ne by done. by rewrite insert_insert_ne.
Qed.

(** The last symbol may be anywhere. *)
Lemma pmap_move_last l1 i x z : pmap (l1 ++ [(z, x)]) = pmap (l1 ++ [(i, x)]).
Proof.
  induction l1 as [|[p w] l1 IH]; [done|]. destruct (pmap_cons_app p w l1 x []) as [v Hv]. by rewrite (Hv z), (Hv i), IH.
Qed.

(** ** The loop *)

Definition packed (l : list Z) : list block := (λ x, (x, 0)) <$> l.

Lemma width_packed l : width (packed l) = zlen l.
Proof. induction l as [|x l IH]; [done|]. rewrite zlen_cons. cbn. fold (packed l). lia. Qed.

Lemma holes_packed l : holes_ok (packed l).
Proof. induction l; constructor; done. Qed.

Lemma symbols_packed l : symbols (packed l) = l.
Proof. unfold symbols, packed. rewrite <-list_fmap_compose. apply list_fmap_id. Qed.

Lemma packed_snoc l x : packed (l ++ [x]) = packed l ++ [(x, 0)].
Proof. unfold packed. by rewrite fmap_app. Qed.

Lemma places_app p b1 b2 : places p (b1 ++ b2) = places p b1 ++ places (p + width b1) b2.
Proof.
  revert p. induction b1 as [|[x h] b1 IH]; intros p; [cbn; by rewrite Z.add_0_r|]. cbn. rewrite IH. replace (p + 1 + h + width b1) with (p + (1 + h + width b1)) by lia. done.
Qed.

Record compacting (t0 : list Z) (s0 : store) (u0 : Z) (bs : list block) (M : gmap pair Z) (oid k ni i : Z) (t : list Z) (s : store) : Prop := {
  cg_split : ∃ pre post, bs = pre ++ post ∧ zlen pre = ni ∧ i = width pre ∧ slice t 0 ni = symbols pre ∧ blocks_at t u0 i post ∧
    store_ok s (pmap (places 0 (packed (symbols pre)) ++ places i post)) M oid k;
  cg_len : zlen t = u0;
  cg_kept : kept s0 s
}.

Lemma zlen_width bs : holes_ok bs → zlen bs ≤ width bs.
Proof. induction 1 as [|[x h] l Hh _ IH]; [done|]. rewrite zlen_cons. cbn in *. lia. Qed.

Lemma zlen_symbols bs : zlen (symbols bs) = zlen bs.
Proof. apply zlen_fmap. Qed.

Lemma compact_step_spec t0 s0 u0 bs M oid k ni i t s :
  compacting t0 s0 u0 bs M oid k ni i t s → holes_ok bs → width bs = u0 → zlen (L s0) = u0 → 0 ≤ ni < zlen bs - 1 →
  wp (compact_step ni (i, t, s)) (λ '(i', t', s'), compacting t0 s0 u0 bs M oid k (ni + 1) i' t' s').
Proof.
  intros [(pre & post & -> & Hni & -> & Hsl & Hbl & Hok) Hlen Hkp] Hh Hw HL Hlt. rewrite zlen_app in Hlt. rewrite width_app in Hw.
  apply holes_app in Hh as [Hhp Hhq]. pose proof (zlen_width _ Hhp) as Hnw. destruct post as [|[x h] post]; [change (zlen []) with 0 in Hlt; lia|].
  destruct post as [|[y h'] post]; [change (zlen [(x, h)]) with 1 in Hlt; lia|].
  pose proof Hbl as [[Hh0 Hsx _ _ _] Hbl']. apply Forall_cons in Hhq as [_ Hhq]. pose proof (width_nonneg _ Hhq) as Hwq.
  assert (width pre + 1 < u0) as Hin. { apply Forall_cons in Hhq as [Hy Hz]. pose proof (width_nonneg _ Hz). cbn in Hw, Hy. lia. }
  rewrite compact_step_eq, (vget_ok _ _ _ Hsx). cbn [rbind]. pose proof (zlen_nonneg pre) as Hz0. rewrite vset_ok by lia. cbn [rbind].
  assert (places (width pre) ((x, h) :: (y, h') :: post) = (width pre, x) :: (width pre + 1 + h, y) :: places (width pre + 1 + h + 1 + h') post) as Hpl by done.
  rewrite Hpl in Hok. assert (∀ q, q ∈ (places 0 (packed (symbols pre))).*1 → 0 ≤ q < ni) as Hq1.
  { intros q Hq%places_range; [|apply holes_packed]. rewrite width_packed, zlen_symbols in Hq. lia. }
  assert (∀ q, q ∈ ((width pre + 1 + h, y) :: places (width pre + 1 + h + 1 + h') post).*1 → width pre + 1 + h ≤ q) as Hq2.
  { intros q Hq. change ((width pre + 1 + h, y) :: places (width pre + 1 + h + 1 + h') post) with (places (width pre + 1 + h) ((y, h') :: post)) in Hq.
    apply places_range in Hq; [lia|done]. }
  destruct (pmap_move (places 0 (packed (symbols pre))) (width pre) x (width pre + 1 + h) y (places (width pre + 1 + h + 1 + h') post) ni) as (H1 & H2 & H3).
  { intros ?%Hq1. lia. }
  { intros ?%Hq1. lia. }
  { intros ?%Hq2. lia. }
  { intros ?%Hq2. lia. }
  apply wp_bind. eapply wp_mono; [apply (move_cell_spec _ _ _ _ _ _ ni _ Hok H1 H2)|].
  { rewrite (kp_len _ _ Hkp). lia. }
  intros s' [Hok' Hkp']. rewrite <-H3 in Hok'. destruct (skip_block t u0 (width pre) x h ((y, h') :: post) Hlen Hbl ltac:(cbn in *; lia) Hin) as (v & Hv & Hsk).
  rewrite vget_ok with (x := v) by (rewrite zlookup_zinsert_ne by lia; done). cbn [rbind wp]. rewrite Hsk. split.
  - exists (pre ++ [(x, h)]), ((y, h') :: post). rewrite <-app_assoc. split_and!; [done| | | | |].
    + rewrite zlen_app. change (zlen [(x, h)]) with 1. lia.
    + rewrite width_app. cbn. lia.
    + rewrite slice_zinsert_snoc by lia. rewrite Hsl. unfold symbols. by rewrite fmap_app.
    + eapply blocks_at_frame; [|exact Hbl']. intros j Hj. apply zlookup_zinsert_ne; lia.
    + unfold symbols. rewrite fmap_app. cbn [fmap list_fmap fst]. fold (symbols pre). rewrite packed_snoc, places_app, width_packed, zlen_symbols, Hni, <-app_assoc. done.
  - by rewrite zlen_zinsert.
  - by rewrite Hkp.
Qed.

(** Cells behind the text are not used. *)
Lemma store_truncate s T M oid k m :
  store_ok s T M oid k → (∀ y q, T !! y = Some q → y < m) → m ≤ zlen (L s) → store_ok (with_L s (take (Z.to_nat m) (L s))) T M oid k.
Proof.
  intros [[? ? ? ? Ho Hd Hr] (F & HF & Hfm)] Hm Hl. split; [|exists F; split; [by eapply heap_frame|done]].
  assert (∀ y, 0 ≤ y < m → take (Z.to_nat m) (L s) !z y = L s !z y) as Heq.
  { intros y Hy. rewrite !zlookup_nonneg by lia. apply lookup_take_lt. lia. }
  split; try done; cbn [L with_L].
  - intros p id Hp Hx. destruct (Ho p id Hp Hx) as [l [Hnd Hmem Hdl Hh]]. exists l. split; try done. eapply dll_frame; [exact Hdl|].
    intros y Hy%Hmem. pose proof (Hr y p Hy). pose proof (Hm y p Hy). unfold l_prev, l_next. cbn [L with_L]. by rewrite Heq by lia.
  - intros y p Hy Hp. pose proof (Hr y p Hy). pose proof (Hm y p Hy). rewrite Heq by lia. by apply (Hd y p).
  - intros y p Hy. pose proof (Hr y p Hy). pose proof (Hm y p Hy). unfold zlen in *. rewrite length_take. lia.
Qed.

(** ** The compacted text *)

Lemma packed_text l : Forall (λ x, 0 ≤ x) l → rep_text l (zlen l) (packed l).
Proof.
  intros Hl. split; [done|apply width_packed|]. assert (∀ pre, blocks_at (pre ++ l) (zlen l) (zlen pre) (packed l)) as H; [|apply (H [])].
  generalize (zlen l) as m. induction Hl as [|x l Hx Hl IH]; intros m pre; [done|]. cbn [packed fmap list_fmap blocks_at]. split.
  - split; [done| |done|lia|lia]. rewrite zlookup_nonneg by apply zlen_nonneg. unfold zlen. rewrite Nat2Z.id. apply list_lookup_middle. done.
  - specialize (IH m (pre ++ [x])). rewrite <-app_assoc, zlen_app in IH. change (zlen [x]) with 1 in IH. by rewrite Z.add_0_r.
Qed.

Lemma text_nonneg t u bs : rep_text t u bs → Forall (λ x, 0 ≤ x) (symbols bs).
Proof.
  intros [_ _ Hb]. revert Hb. generalize 0 at 1. induction bs as [|[x h] bs IH]; intros p Hb; [constructor|]. destruct Hb as [[] Hb]. constructor; [done|by eapply IH].
Qed.

(** The numbers of occurrences do not depend on the holes. *)
Lemma tmap_cnt_symbols bs bs' q p p' : holes_ok bs → holes_ok bs' → symbols bs = symbols bs' → cnt (tmap p bs) q = cnt (tmap p' bs') q.
Proof.
  intros Hh. revert bs' p p'. induction Hh as [|[x h] bs Hx Hh IH]; intros bs' p p' Hh' E; [by destruct bs'|].
  destruct bs' as [|[x' h'] bs']; [done|]. cbn in E. injection E as <- E. apply Forall_cons in Hh' as [Hx' Hh']. cbn in Hx, Hx'.
  destruct bs as [|[y g] bs], bs' as [|[y' g'] bs']; try done. rewrite !tmap_cons2.
  rewrite !cnt_insert by (apply tmap_out; [done|lia]). rewrite (IH _ _ (p' + 1 + h') Hh' E). cbn in E. by injection E as <- _.
Qed.

Lemma final_pairs bs pre x h : bs = pre ++ [(x, h)] → pmap (places 0 (packed (symbols pre)) ++ places (width pre) [(x, h)]) = tmap 0 (packed (symbols bs)).
Proof.
  intros ->. rewrite <-pmap_places. unfold symbols. rewrite fmap_app. cbn [fmap list_fmap fst]. rewrite packed_snoc, places_app, width_packed, zlen_fmap.
  apply pmap_move_last.
Qed.

Lemma compact_spec r bs M oid k :
  rep_text (inter r) (u r) bs → c r = zlen bs → store_ok (st r) (tmap 0 bs) M oid k → zlen (L (st r)) = u r →
  wp (compact r) (λ r', ∃ bs', rep_text (inter r') (u r') bs' ∧ symbols bs' = symbols bs ∧ c r' = c r ∧ n r' = n r ∧
    store_ok (st r') (tmap 0 bs') M oid k ∧ zlen (L (st r')) = u r' ∧
    sqrtu (Heap (st r')) = sqrtu (Heap (st r)) ∧ hmax (Heap (st r')) = hmax (Heap (st r))).
Proof.
  intros Ht Hc Hok HL. unfold compact. destruct (Z.ltb_spec (2 * f32 (c r)) (f32 (u r))) as [Hlt|_]; [|cbn [wp]; by exists bs].
  pose proof (text_holes _ _ _ Ht) as Hh. pose proof Ht as [Hlen Hw Hbl]. pose proof (zlen_width _ Hh) as Hcw.
  destruct bs as [|[x h] pre _] using rev_ind.
  { cbn in Hw. rewrite Hc, <-Hw in Hlt. done. }
  rewrite zlen_app in Hc. change (zlen [(x, h)]) with 1 in Hc. pose proof (zlen_nonneg pre) as Hz. apply wp_bind.
  apply (wp_for_up (λ ni '(i, t, s), compacting (inter r) (st r) (u r) (pre ++ [(x, h)]) M oid k ni i t s)); [lia| | |].
  - split; [|done|done]. exists [], (pre ++ [(x, h)]). cbn [symbols packed fmap list_fmap places app]. rewrite pmap_places. split_and!; try done.
  - intros ni [[i t] s] Hni Hcg. apply compact_step_spec; try done. rewrite zlen_app. change (zlen [(x, h)]) with 1. lia.
  - intros [[i t] s] [(pre' & post & Heq & Hni & -> & Hsl & Hbl' & Hok') Hlen' Hkp]. assert (pre' = pre ∧ post = [(x, h)]) as [-> ->].
    { symmetry in Heq. apply app_inj_1 in Heq; [done|]. unfold zlen in *. lia. }
    rewrite Z.max_r by lia. rewrite (vget_ok _ _ _ (ba_sym _ _ _ _ _ (proj1 Hbl'))). cbn [rbind].
    assert (width (pre ++ [(x, h)]) = width pre + 1 + h) as Hwe by (rewrite width_app; cbn; lia). pose proof (ba_holes _ _ _ _ _ (proj1 Hbl')) as Hh0.
    apply holes_app in Hh as [Hhp _]. pose proof (zlen_width _ Hhp). rewrite vset_ok by lia. cbn [rbind wp inter u c n st].
    assert (resize (Z.to_nat (c r)) 0 (zinsert t (c r - 1) x) = symbols (pre ++ [(x, h)])) as ->.
    { rewrite resize_le by (unfold zinsert, zlen in *; rewrite length_insert; lia). pose proof (slice_zinsert_snoc t (c r - 1) x ltac:(lia)) as Hs.
      rewrite Hsl in Hs. unfold slice in Hs. rewrite drop_0 in Hs. replace (c r - 1 + 1 - 0) with (c r) in Hs by lia. rewrite Hs. unfold symbols. by rewrite fmap_app. }
    assert (zlen (symbols (pre ++ [(x, h)])) = c r) as Hcs by (rewrite zlen_symbols, zlen_app; change (zlen [(x, h)]) with 1; lia).
    exists (packed (symbols (pre ++ [(x, h)]))). rewrite symbols_packed. split_and!; try done.
    + rewrite <-Hcs. apply packed_text. by eapply text_nonneg.
    + rewrite (final_pairs _ pre x h eq_refl) in Hok'. apply store_truncate; [done| |rewrite (kp_len _ _ Hkp); lia].
      intros y q Hy%tmap_range; [|apply holes_packed]. rewrite width_packed in Hy. lia.
    + cbn [L with_L]. pose proof (kp_len _ _ Hkp). unfold zlen in *. rewrite length_take. lia.
    + apply (kp_sqrtu _ _ Hkp).
    + apply (kp_hmax _ _ Hkp).
Qed.
