(* ===== verification/RRounds.v ===== *)
(** * The rounds of Re-Pair

    The algorithm that [repair] of [compress.h] implements, on lists of symbols:
    while a pair of adjacent symbols occurs twice, a pair with the most occurrences
    becomes a rule and is replaced everywhere.  The code refines this algorithm: the
    text with holes, the hash table, the records, the occurrence lists and the
    priority structure together represent one list of symbols. *)

From stdpp Require Import gmap.
From S2P Require Import Prelude Csr RArray RHash RMap RHeap RBuckets Dll RFreq RPrio RRepair RStore RPurge RText RTurn RReplace RCompact.

(** ** The algorithm *)

(** The number of positions at which the pair [q] occurs. *)
Fixpoint adjacent (q : pair) (l : list Z) : Z :=
  match l with
  | [] => 0
  | x :: l' =>
      match l' with
      | [] => 0
      | y :: _ => (if decide ((x, y) = q) then 1 else 0) + adjacent q l'
      end
  end.

(** Replacing the pair [p] by the symbol [n]. *)
Record replaces (n : Z) (p : pair) (l l' : list Z) : Prop := {
  rp_old : ∀ x, x ∈ l → x < n;
  rp_most : 2 ≤ adjacent p l ∧ ∀ q, adjacent q l ≤ adjacent p l;
  rp_unfold : unfold_new n p.1 p.2 l' = l;
  rp_all : adjacent p l' = 0
}.

(** The rules that lead from [l] to a list without repeated pairs. *)
Inductive repaired (n : Z) (l : list Z) : list pair → list Z → Prop :=
  | repaired_done : (∀ q, adjacent q l ≤ 1) → repaired n l [] l
  | repaired_rule p l1 ps l' : replaces n p l l1 → repaired (n + 1) l1 ps l' → repaired n l (p :: ps) l'.

(** ** Representation *)

Record rep_ok (r : rep) (bs : list block) (M : gmap pair Z) (k : Z) : Prop := {
  ro_text : rep_text (inter r) (u r) bs;
  ro_c : c r = zlen bs;
  ro_new : Forall (λ x, x < n r) (symbols bs);
  ro_store : store_ok (st r) (tmap 0 bs) M (-1) k;
  ro_len : zlen (L (st r)) = u r;
  ro_room : zlen bs ≤ sqrtu (Heap (st r)) * sqrtu (Heap (st r));
  ro_k : 2 * zlen bs ≤ k;
  ro_cnt : ∀ q, is_Some (M !! q) ↔ 2 ≤ cnt (tmap 0 bs) q;
  ro_hmax : 0 ≤ hmax (Heap (st r)) ≤ sqrtu (Heap (st r));
  ro_bound : hmax (Heap (st r)) < sqrtu (Heap (st r)) → ∀ q, 2 ≤ cnt (tmap 0 bs) q → cnt (tmap 0 bs) q ≤ hmax (Heap (st r))
}.

Lemma cnt_adjacent p bs q : holes_ok bs → cnt (tmap p bs) q = adjacent q (symbols bs).
Proof.
  intros Hh. revert p. induction Hh as [|[x h] bs Hx Hh IH]; intros p; [done|]. destruct bs as [|[y g] bs]; [done|]. rewrite tmap_cons2, cnt_insert.
  - rewrite IH. cbn. lia.
  - apply tmap_out; [done|]. cbn in Hx. lia.
Qed.

Lemma tmap_symbols bs p q x y : holes_ok bs → tmap p bs !! q = Some (x, y) → x ∈ symbols bs ∧ y ∈ symbols bs.
Proof.
  intros Hh Hq. destruct (tmap_at bs q x y Hh p Hq) as (pre & h & h' & post & -> & _). unfold symbols. rewrite fmap_app. cbn. split; list_in.
Qed.

Lemma cnt_exists T q : 1 ≤ cnt T q → ∃ x, T !! x = Some q.
Proof.
  intros Hc. destruct (decide (map_Forall (λ _ e, e ≠ q) T)) as [Hall|Hall].
  - rewrite (cnt_list T q []) in Hc; [done|constructor|]. intros x. split; [by intros ?%not_elem_of_nil|]. intros Hx. by destruct (Hall x q Hx).
  - apply (map_not_Forall _) in Hall as (x & e & Hx & He). exists x. destruct (decide (e = q)); [by subst|tauto].
Qed.

Lemma unfold_old m b c l : (∀ x, x ∈ l → x < m) → unfold_new m b c l = l.
Proof.
  unfold unfold_new. induction l as [|x l IH]; intros Hl; [done|]. assert (x < m) by (apply Hl; by left). cbn. rewrite decide_False by lia. cbn. f_equal.
  apply IH. intros y Hy. apply Hl. by right.
Qed.

Lemma occurs_old m l : (∀ x, x ∈ l → x < m) → occurs m l = 0.
Proof.
  induction l as [|x l IH]; intros Hl; [done|]. assert (x < m) by (apply Hl; by left). rewrite occurs_cons, decide_False by lia. rewrite IH; [done|].
  intros y Hy. apply Hl. by right.
Qed.

(** ** The start of a turn *)

Section start.
Context (r : rep) (bs : list block) (M : gmap pair Z) (k : Z) (Hok : rep_ok r bs M k).
Local Abbreviation T := (tmap 0 bs).

(** What [extractMax] finds. *)
Record chosen (p : pair) (oid : Z) (s : store) : Prop := {
  ch_oid : M !! p = Some oid;
  ch_cnt : 2 ≤ cnt T p;
  ch_most : ∀ q, 2 ≤ cnt T q → cnt T q ≤ cnt T p;
  ch_store : store_ok s T M oid k;
  ch_L : L s = L (st r);
  ch_sqrtu : sqrtu (Heap s) = sqrtu (Heap (st r));
  ch_hmax : 0 ≤ hmax (Heap s) ≤ sqrtu (Heap s);
  ch_bound : hmax (Heap s) < sqrtu (Heap s) → hmax (Heap s) = cnt T p
}.

Lemma extract_start junk :
  wp (extractMax junk (st r)) (λ '(oid, s), if decide (M = ∅) then oid = -1 else ∃ p, chosen p oid s).
Proof using Hok.
  destruct Hok as [Ht Hc Hnew [Hcore (F & HF & Hfm)] HL Hroom Hk Hcnt Hmx Hbd].
  assert (∀ j f, F !! j = Some f → ∃ q, M !! q = Some j ∧ f = cnt T q ∧ 2 ≤ f) as HFm.
  { intros j f (_ & q & Hq & ->)%Hfm. exists q. split_and!; try done. apply Hcnt. by eexists. }
  assert (∀ q id, M !! q = Some id → F !! id = Some (cnt T q)) as HFq.
  { intros q id Hq. apply Hfm. split; [|by exists q]. pose proof (core_record _ _ _ _ _ Hcore q id Hq) as [? _]. lia. }
  eapply wp_mono; [apply (extractMax_spec junk (st r) F HF)|].
  { split; [done|]. intros Hlt j g (q & _ & -> & Hg)%HFm. by apply Hbd. }
  intros [oid s]. destruct (decide (M = ∅)) as [HM|HM].
  - rewrite decide_True; [done|]. apply map_eq. intros j. rewrite lookup_empty. destruct (F !! j) as [f|] eqn:E; [|done].
    apply HFm in E as (q & Hq & _). by rewrite HM in Hq.
  - rewrite decide_False; [|].
    2: { intros HFe. apply HM, map_eq. intros q. rewrite lookup_empty. destruct (M !! q) as [id|] eqn:E; [|done]. apply HFq in E. by rewrite HFe in E. }
    intros [(f & Hf & Hmost & Hmax) Hheap [= HR HH HLs Hsq] Hmx']. destruct (HFm _ _ Hf) as (p & Hp & -> & H2). exists p. split; rewrite ?Hsq; try done.
    + intros q Hq. pose proof Hq as [id Hid]%Hcnt. by eapply Hmost, HFq.
    + split.
      * eapply core_ext; [exact Hcore|done|done|by rewrite HR|unfold recs; by rewrite HR|]. intros i ri Hi. exists ri. unfold recs. rewrite HR. done.
      * exists (delete oid F). split; [done|]. intros j g. rewrite lookup_delete_Some, (Hfm j g). split.
        -- intros (Hj & _ & ?). split; [congruence|done].
        -- intros (Hj & q & Hq & ->). split_and!; [congruence| |by exists q]. pose proof (core_record _ _ _ _ _ Hcore q j Hq) as [? _]. lia.
Qed.

Lemma turn_begin p oid s :
  chosen p oid s → p.1 ≠ n r ∧ p.2 ≠ n r ∧ 0 ≤ n r ∧ turn_start (n r) p.1 p.2 T M oid ∧
  in_turn (n r) p.1 p.2 (symbols bs) T M oid bs M k (with_st r s).
Proof using Hok.
  intros [Hoid H2 Hmost Hst HLs Hsq Hmx Hbd]. destruct Hok as [Ht Hc Hnew [Hcore _] HL Hroom Hk Hcnt _ _]. pose proof (text_holes _ _ _ Ht) as Hh.
  rewrite Forall_forall in Hnew. assert (∀ x q, T !! x = Some q → ¬ new_pair (n r) q) as Hold.
  { intros x [q1 q2] [H1 H3]%tmap_symbols; [|done]. apply Hnew in H1, H3. intros [E|E]; cbn in E; lia. }
  destruct p as [b0 c0]. cbn [fst snd]. destruct (cnt_exists T (b0, c0) ltac:(lia)) as [x0 Hx0]. pose proof (tmap_symbols _ _ _ _ _ Hh Hx0) as [Hb Hc0].
  pose proof (text_nonneg _ _ _ Ht) as Hpos. rewrite Forall_forall in Hpos. pose proof (Hpos _ Hb). pose proof (Hnew _ Hb). pose proof (Hnew _ Hc0).
  assert (back (n r) b0 c0 <$> T = T) as Hback.
  { apply map_eq. intros x. rewrite lookup_fmap. destruct (T !! x) as [q|] eqn:E; [|done]. cbn. f_equal. eapply back_old, Hold, E. }
  split_and!; [lia|lia|lia| |].
  - split; try done. rewrite (core_size _ _ _ _ _ Hcore). destruct (core_record _ _ _ _ _ Hcore _ oid Hoid) as [? _]. lia.
  - split; cbn [inter u c n st with_st]; rewrite ?HLs, ?Hsq; try done.
    + split.
      * intros q. split.
        -- intros Hq. right. split; [by left|]. apply Hcnt in Hq. lia.
        -- intros [->|[[Hq|Hq] H3]]; [by eexists|done|]. destruct (cnt_exists T q H3) as [x Hx]. by apply Hold in Hx.
      * intros q _. by rewrite Hback.
    + by apply unfold_old.
    + rewrite occurs_old by done. lia.
Qed.
End start.

(** ** The end of a turn *)

Section finish.
Context (nn b0 c0 : Z) (Hbn : b0 ≠ nn) (Hcn : c0 ≠ nn) (Hn : 0 ≤ nn).
Local Abbreviation P := (b0, c0).
Context (l0 : list Z) (T0 : gmap Z pair) (M0 : gmap pair Z) (oid : Z) (bs : list block) (M : gmap pair Z) (k : Z) (r : rep).
Context (Hin : in_turn nn b0 c0 l0 T0 M0 oid bs M k r) (Hs : turn_start nn b0 c0 T0 M0 oid) (Hend : cnt (tmap 0 bs) P = 0).
Context (Hl0 : ∀ x, x ∈ l0 → x < nn).
Context (Hmost : ∀ q, 2 ≤ cnt T0 q → cnt T0 q ≤ cnt T0 P).
Context (Hmx : 0 ≤ hmax (Heap (st r)) ≤ sqrtu (Heap (st r))) (Hbd : hmax (Heap (st r)) < sqrtu (Heap (st r)) → hmax (Heap (st r)) = cnt T0 P).
Local Abbreviation T := (tmap 0 bs).

(** A pair without the new symbol does not occur more often than before. *)
Lemma old_cnt q : ¬ new_pair nn q → cnt T q ≤ cnt T0 q.
Proof using Hin Hend.
  intros Hq. destruct (decide (q = P)) as [->|HqP]; [rewrite Hend; apply cnt_nonneg|]. rewrite <-(ti_cnt _ _ _ _ _ _ _ (it_inv _ _ _ _ _ _ _ _ _ _ _ Hin) q HqP).
  apply cnt_le. intros x Hx. rewrite lookup_fmap, Hx. cbn. f_equal. by apply back_old.
Qed.

(** A pair with the new symbol occurs at most as often as the replaced pair did. *)
Lemma new_cnt q : new_pair nn q → cnt T q ≤ cnt T0 P.
Proof using Hin Hend.
  intros Hq. destruct Hin as [Ht _ _ _ _ _ _ _ _ _ Hocc]. pose proof (text_holes _ _ _ Ht) as Hh. destruct q as [x y]. destruct (tmap_cnt 0 bs x y Hh) as [H1 H2].
  assert (occurs nn (symbols (tail bs)) ≤ occurs nn (symbols bs)). { destruct bs as [|[z h] bs']; [done|]. cbn [tail symbols fmap list_fmap fst]. unfold symbols. cbn. rewrite occurs_cons. case_decide; lia. }
  destruct Hq as [E|E]; cbn in E; subst; lia.
Qed.

Lemma final_cnt q : is_Some (M !! q) ∧ q ≠ P ∧ cnt T q ≠ 1 ↔ 2 ≤ cnt T q.
Proof using Hin Hs Hend.
  destruct (it_inv _ _ _ _ _ _ _ _ _ _ _ Hin) as [Hdom _]. rewrite Hdom. split.
  - intros ([->|[_ ?]] & ? & ?); [done|lia].
  - intros H2. assert (q ≠ P) by (intros ->; lia). split_and!; [|done|lia]. right. split; [|lia]. destruct (decide (new_pair nn q)) as [|Hq]; [by right|left].
    apply (ts_cnt _ _ _ _ _ _ Hs). pose proof (old_cnt q Hq). lia.
Qed.

Lemma final_new x : x ∈ symbols bs → x < nn + 1.
Proof using Hin Hl0.
  intros Hx. destruct (decide (x = nn)); [lia|]. assert (x < nn); [|lia]. apply Hl0. rewrite <-(it_exp _ _ _ _ _ _ _ _ _ _ _ Hin). unfold unfold_new.
  apply list_elem_of_bind. exists x. rewrite decide_False by done. split; [by left|done].
Qed.

Lemma turn_end junk :
  wp (let* s := removeRecord junk oid (st r) in
      let r := Rep (inter r) (u r) (c r) (n r + 1) s in
      let* s := purgeHeap junk (st r) in
      compact (with_st r s)) (λ r', ∃ bs' M', rep_ok r' bs' M' k ∧ n r' = nn + 1 ∧ symbols bs' = symbols bs).
Proof using Hin Hs Hend Hl0 Hmost Hmx Hbd.
  pose proof Hin as [Ht Hc Hrn [Hcore (F & HF & Hfm)] Hinv HP HL Hroom Hk Hexp Hnew]. pose proof (text_holes _ _ _ Ht) as Hh.
  assert (∀ p q i, M !! p = Some i → M !! q = Some i → p = q) as Hinj by apply (rep_inj _ _ _ (sc_hash _ _ _ _ _ Hcore)).
  apply wp_bind. eapply wp_mono; [eapply (removeRecord_ok junk (st r) T M k P oid oid F Hcore HP ltac:(lia) HF)|].
  { intros j f. rewrite (Hfm j f). split; intros (Hj & q & Hq & ->); (split; [done|]); exists q; (split; [|done]).
    - rewrite lookup_delete_ne; [done|]. congruence.
    - by apply lookup_delete_Some in Hq as [_ ?]. }
  { done. }
  intros s1 (M1 & HM1 & Hok1 & Hkp1). rewrite decide_True in Hok1 by done. cbn [st]. apply wp_bind. eapply wp_mono; [by apply purgeHeap_spec|].
  intros s2 (M2 & Hok2 & Hkp2 & Hdom2). assert (kept (st r) s2) as Hkp by (by rewrite Hkp1).
  set (r2 := with_st _ s2). eapply wp_mono; [apply (compact_spec r2 bs M2 (-1) k Ht Hc Hok2)|].
  { cbn. by rewrite (kp_len _ _ Hkp). }
  intros r' (bs' & Ht' & Hsy & Hc' & Hn' & Hok' & HL' & Hsq' & Hmx'). cbn [r2 with_st st n c] in *. pose proof (text_holes _ _ _ Ht') as Hh'.
  assert (zlen bs' = zlen bs) as Hz. { rewrite <-(zlen_symbols bs'), Hsy. apply zlen_symbols. }
  assert (∀ q, cnt (tmap 0 bs') q = cnt T q) as Hcnt' by (intros q; by apply tmap_cnt_symbols).
  rewrite (kp_sqrtu _ _ Hkp) in Hsq'. rewrite (kp_hmax _ _ Hkp) in Hmx'.
  exists bs', M2. split_and!; [|congruence|done]. split; rewrite ?Hsy, ?Hsq', ?Hmx', ?Hz, ?Hn'; try done.
  - by rewrite Hc'.
  - apply Forall_forall. intros x Hx%final_new. lia.
  - intros q. rewrite Hcnt', <-final_cnt, Hdom2. assert (is_Some (M1 !! q) ↔ is_Some (M !! q) ∧ q ≠ P) as ->; [|tauto]. split.
    + intros [j [Hne [[Hq _]|[Hq _]]]%HM1]; (split; [by eexists|done]).
    + intros [[j Hj] Hne]. destruct (decide (j = rsize (Rec (st r)) - 1)) as [->|].
      * exists oid. apply HM1. split; [done|by left].
      * exists j. apply HM1. split; [done|by right].
  - intros Hlt q. rewrite !Hcnt'. intros H2. rewrite (Hbd Hlt). destruct (decide (new_pair nn q)) as [Hq|Hq]; [by apply new_cnt|].
    pose proof (old_cnt q Hq). specialize (Hmost q). lia.
Qed.
End finish.

(** ** A turn *)

Lemma most_frequent bs p : holes_ok bs → 2 ≤ cnt (tmap 0 bs) p → (∀ q, 2 ≤ cnt (tmap 0 bs) q → cnt (tmap 0 bs) q ≤ cnt (tmap 0 bs) p) →
  2 ≤ adjacent p (symbols bs) ∧ ∀ q, adjacent q (symbols bs) ≤ adjacent p (symbols bs).
Proof.
  intros Hh H2 Hm. rewrite <-!(cnt_adjacent 0) by done. split; [done|]. intros q. rewrite <-(cnt_adjacent 0) by done. specialize (Hm q). lia.
Qed.

Lemma repair_turn_spec junk r bs M k :
  rep_ok r bs M k →
  wp (repair_turn junk r) (λ '(p, r'),
    match p with
    | None => (∀ q, adjacent q (symbols bs) ≤ 1) ∧ rep_text (inter r') (u r') bs
    | Some p => ∃ bs' M' k', rep_ok r' bs' M' k' ∧ n r' = n r + 1 ∧ replaces (n r) p (symbols bs) (symbols bs') ∧ zlen bs' < zlen bs
    end).
Proof.
  intros Hok. pose proof (ro_text _ _ _ _ Hok) as Ht. pose proof (text_holes _ _ _ Ht) as Hh. unfold repair_turn. apply wp_bind.
  eapply wp_mono; [by apply (extract_start r bs M k Hok)|]. intros [oid s]. cbn beta iota. destruct (decide (M = ∅)) as [HM|_].
  - intros ->. cbn. split; [|done]. intros q. rewrite <-(cnt_adjacent 0) by done. destruct (decide (2 ≤ cnt (tmap 0 bs) q)) as [[? Hq]%(ro_cnt _ _ _ _ Hok)|]; [|lia].
    by rewrite HM in Hq.
  - intros [[b0 c0] Hch]. destruct (turn_begin r bs M k Hok _ _ _ Hch) as (Hbn & Hcn & Hn & Hs & Hin). cbn [fst snd] in *.
    pose proof Hch as [Hoid H2 Hmost Hst _ _ Hmx Hbd]. pose proof Hst as [Hcore _]. destruct (core_record _ _ _ _ _ Hcore _ oid Hoid) as (Hid & orec & Hor & Hpair).
    destruct (Z.eqb_spec oid (-1)) as [E|_]; [lia|]. rewrite (vget_ok _ _ _ Hor). cbn [rbind]. injection Hpair as -> ->.
    apply wp_bind. eapply wp_mono; [by apply (replace_all_spec (n r) b0 c0 Hbn Hcn Hn junk _ _ _ _ _ _ _ _ orec Hin Hs)|].
    intros r1 (bs1 & M1 & k1 & Hin1 & Hend & Hu & Hkp & Hk1 & Hle & Hlt). change (st (with_st r s)) with s in Hkp.
    assert (zlen bs1 < zlen bs) as Hdec. { apply Hlt. intros E. assert (cnt (tmap 0 bs) (b0, c0) = 0); [|lia]. eapply (no_occurrence b0 c0); done. }
    pose proof (turn_end (n r) b0 c0 (symbols bs) (tmap 0 bs) M oid bs1 M1 k1 r1 Hin1 Hs Hend) as Hte.
    destruct (wp_inv _ _ (Hte ltac:(by apply Forall_forall, (ro_new _ _ _ _ Hok)) Hmost ltac:(by rewrite (kp_hmax _ _ Hkp), (kp_sqrtu _ _ Hkp))
      ltac:(by rewrite (kp_hmax _ _ Hkp), (kp_sqrtu _ _ Hkp)) junk)) as (r2 & Hr2 & bs2 & M2 & Hok2 & Hn2 & Hsy2).
    destruct (removeRecord junk oid (st r1)) as [s1|]; [|done]. cbn [rbind st] in *. destruct (purgeHeap junk s1) as [s2|]; [|done]. cbn [rbind] in *. rewrite Hr2. cbn [rbind wp].
    exists bs2, M2, k1. split_and!; [done|done| |rewrite <-(zlen_symbols bs2), Hsy2, zlen_symbols; done].
    pose proof (text_holes _ _ _ (it_text _ _ _ _ _ _ _ _ _ _ _ Hin1)) as Hh1. split; cbn [fst snd].
    + by apply Forall_forall, (ro_new _ _ _ _ Hok).
    + by apply most_frequent.
    + rewrite Hsy2. apply (it_exp _ _ _ _ _ _ _ _ _ _ _ Hin1).
    + by rewrite Hsy2, <-(cnt_adjacent 0).
Qed.

(** ** All turns *)

(** The loop refines the algorithm, and needs at most one turn per symbol. *)
Lemma repair_spec fuel junk rule r bs M k :
  rep_ok r bs M k → n r + zlen bs < 2 ^ 31 - 1 → 0 ≤ n r → zlen bs < Z.of_nat fuel →
  wp (repair fuel junk rule r) (λ '(rule', r'), ∃ ps bs', rule' = rule ++ ps ∧ repaired (n r) (symbols bs) ps (symbols bs') ∧ rep_text (inter r') (u r') bs').
Proof.
  revert rule r bs M k. induction fuel as [|fuel IH]; intros rule r bs M k Hok Hn H0 Hf; [pose proof (zlen_nonneg bs); lia|]. pose proof (zlen_nonneg bs).
  cbn [repair]. rewrite int32_ok by (unfold INT_MIN, INT_MAX; lia). cbn [rbind]. destruct (Z.ltb_spec 0 (n r + 1)); [|lia].
  apply wp_bind. eapply wp_mono; [by apply (repair_turn_spec junk r bs M k)|]. intros [[p|] r1].
  - intros (bs1 & M1 & k1 & Hok1 & Hn1 & Hrep & Hlt). eapply wp_mono; [apply (IH (rule ++ [p]) r1 bs1 M1 k1 Hok1); lia|].
    intros [rule' r'] (ps & bs' & -> & Hps & Ht). exists (p :: ps), bs'. rewrite <-app_assoc. split_and!; [done| |done]. rewrite Hn1 in Hps. by eapply repaired_rule.
  - intros [Hq Ht]. cbn [wp]. exists [], bs. rewrite app_nil_r. split_and!; [done|by constructor|done].
Qed.
