(* ===== verification/RLossless.v ===== *)
(** * Re-Pair is lossless

    [prepare] and [compress_csr] of [compress.h].  The preparation counts the pairs
    of the text; with the rounds of [repair] and the output stage this gives the whole
    compressor.  Separators occur once, so no rule contains one, and a row of the
    output expands to the row of the input. *)

From stdpp Require Import gmap.
From S2P Require Import Prelude Csr Grammar RArray RHash RMap RHeap RBuckets Dll RFreq RPrio RRepair RStore RPurge RText RTurn RReplace RCompact RRounds.

(** ** Preparation *)

Lemma empty_store junk H E len :
  heap_ok (with_Heap (Store (createRecords minsize) E H (replicate (Z.to_nat len) (TList junk junk))) H) ∅ → createHash (256 * 256) = Ok E →
  store_ok (Store (createRecords minsize) E H (replicate (Z.to_nat len) (TList junk junk))) ∅ ∅ (-1) (2 ^ 17).
Proof.
  intros HH HE. destruct (createHash_ok (256 * 256) 16 [] ltac:(lia) ltac:(by left)) as (E' & HE' & Htab & _ & Hused & Hlive & Htb). assert (E' = E) as -> by congruence.
  change (2 ^ (16 + 1)) with (2 ^ 17) in Htb. split.
  - split; cbn [Rec Hash Heap L recs createRecords records rsize]; try done.
    + split; [split; [done|lia]|]. intros l r id. rewrite lookup_empty. split; [|done]. intros (k & Hid & Hk & _). rewrite Htb in Hk.
      apply zlookup_elem, elem_of_replicate in Hk as [-> _]. lia.
    + rewrite Hlive, Htb, empties_empty, zlen_replicate. lia.
    + intros id. split; [by intros [p ?]|lia].
  - exists ∅. split; [exact HH|]. intros id f. rewrite lookup_empty. split; [done|]. by intros (_ & q & ? & _).
Qed.

(** The pairs of a longer text. *)
Lemma tmap_packed_snoc l x y : tmap 0 (packed (l ++ [x; y])) = <[zlen l := (x, y)]> (tmap 0 (packed (l ++ [x]))).
Proof.
  apply map_eq. intros q. change [x; y] with ([x] ++ [y]). rewrite app_assoc, !packed_snoc, tmap_pre by (rewrite <-packed_snoc; apply holes_packed).
  rewrite Z.add_0_l, width_packed, lookup_insert. destruct (decide (q = zlen l)), (decide (zlen l = q)); congruence.
Qed.

Record preparing (t : list Z) (s0 : store) (i : Z) (s : store) : Prop := {
  pp_store : ∃ M, store_ok s (tmap 0 (packed (slice t 0 (i + 1)))) M (-1) (2 ^ 17 - i) ∧ ∀ q, is_Some (M !! q) ↔ 1 ≤ cnt (tmap 0 (packed (slice t 0 (i + 1)))) q;
  pp_kept : kept s0 s
}.

Lemma prepare_step_spec junk t s0 i s :
  preparing t s0 i s → 0 ≤ i < zlen t - 1 → zlen t < 2 ^ 17 → zlen (L s0) = zlen t → zlen t ≤ sqrtu (Heap s0) * sqrtu (Heap s0) →
  wp (prepare_step junk t i s) (preparing t s0 (i + 1)).
Proof.
  intros [(M & Hok & HM) Hkp] Hi Hlen HL Hroom. destruct (zlookup_total t i ltac:(lia)) as [x Hx]. destruct (zlookup_total t (i + 1) ltac:(lia)) as [y Hy].
  assert (slice t 0 (i + 1) = slice t 0 i ++ [x]) as Hs1 by (apply slice_snoc; (lia || done)).
  assert (slice t 0 (i + 1 + 1) = slice t 0 i ++ [x; y]) as Hs2.
  { rewrite (slice_snoc _ 0 (i + 1) y) by (lia || done). rewrite Hs1, <-app_assoc. done. }
  assert (zlen (slice t 0 i) = i) as Hzi by (rewrite zlen_slice; lia). rewrite Hs1 in Hok, HM.
  set (T := tmap 0 (packed (slice t 0 i ++ [x]))) in *. assert (holes_ok (packed (slice t 0 i ++ [x]))) as Hh by apply holes_packed.
  assert (Z.of_nat (size T) = i) as Hsz. { unfold T. rewrite tmap_size by done. unfold packed. rewrite zlen_fmap, zlen_app, Hzi. change (zlen [x]) with 1. lia. }
  assert (T !! i = None) as Hfree.
  { unfold T. rewrite packed_snoc in *. rewrite tmap_app by done. rewrite width_packed, Hzi. by rewrite decide_False by lia. }
  rewrite (prepare_step_add junk t i x y s T M (2 ^ 17 - i) Hok); [|lia|rewrite (kp_sqrtu _ _ Hkp); lia|done|done]. pose proof Hok as [Hc _].
  eapply wp_mono; [apply (add_occ_spec junk i x y s T M (-1) (2 ^ 17 - i) Hok)|].
  - lia.
  - done.
  - rewrite (kp_len _ _ Hkp). lia.
  - destruct (sc_rec _ _ _ _ _ Hc). lia.
  - intros E. destruct (core_record _ _ _ _ _ Hc _ _ E). lia.
  - intros E z Hz%cnt_pos. apply HM in Hz as [? ?]. congruence.
  - rewrite (kp_sqrtu _ _ Hkp). lia.
  - intros s' [Hok' Hkp']. split; [|by rewrite Hkp]. rewrite Hs2, tmap_packed_snoc, Hzi. fold T. eexists. split; [by replace (2 ^ 17 - (i + 1)) with (2 ^ 17 - i - 1) by lia|].
    intros q. rewrite cnt_insert by done. pose proof (cnt_nonneg T q). unfold with_pair. destruct (M !! (x, y)) as [id|] eqn:E.
    + rewrite HM. case_decide as Eq; [rewrite <-Eq|lia]. split; [lia|]. intros _. apply HM. by eexists.
    + rewrite lookup_insert_is_Some', HM. case_decide; [split; [lia|by left]|]. split; [intros [?|?]; [done|lia]|right; lia].
Qed.

(** All pairs of the text are counted. *)
Lemma prepare_loop junk t s0 :
  store_ok s0 ∅ ∅ (-1) (2 ^ 17) → zlen t < 2 ^ 17 → zlen (L s0) = zlen t → zlen t ≤ sqrtu (Heap s0) * sqrtu (Heap s0) →
  wp (for_up 0 (zlen t - 1) (prepare_step junk t) s0) (λ s, kept s0 s ∧ ∃ M, store_ok s (tmap 0 (packed t)) M (-1) (2 ^ 17 - zlen t) ∧
    ∀ q, is_Some (M !! q) ↔ 1 ≤ cnt (tmap 0 (packed t)) q).
Proof.
  intros Hok Hlen HL Hroom. assert (∀ q, is_Some ((∅ : gmap pair Z) !! q) ↔ 1 ≤ cnt ∅ q) as H0. { intros q. rewrite lookup_empty. assert (cnt ∅ q = 0) as -> by done. split; [by intros [? ?]|lia]. }
  assert (∀ s T M k k', store_ok s T M (-1) k → k' ≤ k → store_ok s T M (-1) k') as Hless.
  { intros s T M k k' [[? ? (? & ? & ?) ? ? ? ?] ?] Hk. split; [|done]. split; try done. split_and!; lia. }
  destruct t as [|x t].
  { rewrite for_up_nil by done. cbn [wp]. split; [done|]. exists ∅. split; [by apply (Hless _ _ _ (2 ^ 17))|done]. }
  set (t' := x :: t) in *. assert (1 ≤ zlen t') as H1 by (unfold t'; rewrite zlen_cons; pose proof (zlen_nonneg t); lia).
  apply (wp_for_up (preparing t' s0)); [lia| | |].
  - split; [|done]. exists ∅. rewrite (slice_snoc _ 0 0 x) by (lia || done). cbn [slice app packed fmap list_fmap tmap]. split; [|done]. by apply (Hless _ _ _ (2 ^ 17)).
  - intros i s Hi Hp. by apply prepare_step_spec.
  - intros s [(M & HokM & HM) Hkp]. rewrite Z.sub_add, slice_full in HokM, HM. split; [done|]. exists M. split; [|done]. eapply Hless; [exact HokM|lia].
Qed.

Lemma prepare_spec junk alph t :
  Forall (λ x, 0 ≤ x < alph) t → 3 * zlen t ≤ 2 ^ 17 →
  wp (prepare junk alph t) (λ r, ∃ M k, rep_ok r (packed t) M k ∧ n r = alph).
Proof.
  intros Ht Hlen. pose proof (zlen_nonneg t) as Hz. unfold prepare. destruct (createHash_ok (256 * 256) 16 [] ltac:(lia) ltac:(by left)) as (E & HE & _).
  set (mk := λ H, Store (createRecords minsize) E H (replicate (Z.to_nat (zlen t)) (TList junk junk))).
  apply wp_bind. eapply wp_mono; [apply (createHeap_spec junk (zlen t) minsize 8 (mk (THeap [] 0 [] 0 0 0 [] 0 0)) Hz ltac:(lia) eq_refl)|].
  intros H (HH & Hmax & Hroom). rewrite HE. cbn [rbind]. change (Store _ E H _) with (mk H). pose proof (empty_store junk H E (zlen t) HH HE) as Hok0.
  assert (zlen (L (mk H)) = zlen t) as HL0 by (cbn; rewrite zlen_replicate; lia). apply wp_bind.
  eapply wp_mono; [apply (prepare_loop junk t (mk H) Hok0)|]; [lia|done|done|]. intros s1 (Hkp1 & M1 & Hok1 & HM1). apply wp_bind. eapply wp_mono; [by apply purgeHeap_spec|].
  intros s2 (M2 & Hok2 & Hkp2 & HM2). assert (kept (mk H) s2) as Hkp by (by rewrite Hkp1). cbn [wp]. exists M2, (2 ^ 17 - zlen t). split; [|done].
  pose proof (kp_sqrtu _ _ Hkp) as Hsq. pose proof (kp_hmax _ _ Hkp) as Hmx. cbn [mk Heap] in Hsq, Hmx.
  assert (zlen (packed t) = zlen t) as Hzp by apply zlen_fmap. assert (0 ≤ sqrtu H) as Hsq0. { destruct HH as (G & fn & ffn & Hh). pose proof (hr_sqrtu _ _ _ _ _ Hh) as H2. cbn in H2. lia. }
  split; cbn [inter u c n st]; rewrite ?symbols_packed, ?Hzp, ?Hsq, ?Hmx; try done.
  - apply packed_text. eapply Forall_impl; [done|]. cbn. lia.
  - eapply Forall_impl; [done|]. cbn. lia.
  - by rewrite (kp_len _ _ Hkp).
  - lia.
  - intros q. rewrite HM2, HM1. lia.
  - lia.
  - lia.
Qed.

(** ** Rows under the algorithm *)

Lemma adjacent_occurs x y l : adjacent (x, y) l ≤ occurs x l ∧ adjacent (x, y) l ≤ occurs y l.
Proof.
  destruct (tmap_cnt 0 (packed l) x y (holes_packed l)) as [H1 H2]. rewrite cnt_adjacent, symbols_packed in H1, H2 by apply holes_packed. split; [done|].
  destruct l as [|z l]; [done|]. change (symbols (tail (packed (z :: l)))) with (symbols (packed l)) in H2. rewrite symbols_packed in H2. rewrite occurs_cons. case_decide; lia.
Qed.

Lemma occurs_none x l : x ∉ l → occurs x l = 0.
Proof.
  induction l as [|y l IH]; intros Hx; [done|]. apply not_elem_of_cons in Hx as [Hy Hx]. rewrite occurs_cons, decide_False, IH by congruence. done.
Qed.

(** A symbol of a row: not a separator of the text with [m] vertices, below [n]. *)
Definition row_ok (m n x : Z) : Prop := row_symbol m (2 * m) x ∧ x < n.

(** A separator occurs once. *)
Lemma occurs_separator m n s g x :
  m ≤ s → s + zlen g ≤ 2 * m → Forall (Forall (row_ok m n)) g → m ≤ x < 2 * m → occurs x (with_splits s g) ≤ 1 ∧ (x < s → occurs x (with_splits s g) = 0).
Proof.
  revert s. induction g as [|r g IH]; intros s Hs Hg Hok Hx; [split; [by apply Z.le_0_1|done]|]. apply Forall_cons in Hok as [Hr Hok]. rewrite zlen_cons in Hg. pose proof (zlen_nonneg g).
  destruct (IH (s + 1) ltac:(lia) ltac:(lia) Hok Hx) as [IH1 IH2]. cbn [with_splits]. rewrite occurs_app, occurs_cons, occurs_none.
  - case_decide; [rewrite IH2 by lia; lia|]. split; [lia|]. intros Hlt. rewrite IH2 by lia. done.
  - rewrite Forall_forall in Hr. intros [[?|?] _]%Hr; lia.
Qed.

Lemma splits_nonneg m n g s x : Forall (Forall (row_ok m n)) g → 0 ≤ m → 0 ≤ s → x ∈ with_splits s g → 0 ≤ x.
Proof.
  intros Hg Hm. revert s. induction Hg as [|r g Hr _ IH]; intros s Hs Hin; [by apply not_elem_of_nil in Hin|]. cbn in Hin. rewrite elem_of_app, elem_of_cons in Hin.
  destruct Hin as [Hin|[->|Hin]]; [|done|by apply (IH (s + 1)); [lia|]]. rewrite Forall_forall in Hr. apply Hr in Hin as [[?|?] _]; lia.
Qed.

Section unfold.
Context (n b c : Z).
Local Abbreviation unf := (unfold_new n b c).

Lemma unfold_cons x l : unf (x :: l) = (if decide (x = n) then [b; c] else [x]) ++ unf l.
Proof. done. Qed.

Lemma unfold_nil l : unf l = [] → l = [].
Proof. destruct l as [|x l]; [done|]. rewrite unfold_cons. by case_decide. Qed.

(** A symbol that is not part of the rule stays where it is. *)
Lemma unfold_split l s r k : unf l = r ++ s :: k → s ≠ b → s ≠ c → ∃ r' k', l = r' ++ s :: k' ∧ unf r' = r ∧ unf k' = k.
Proof.
  intros E Hb Hc. revert r E. induction l as [|x l IH]; intros r E; [by destruct r|]. rewrite unfold_cons in E. case_decide as En.
  - subst x. destruct r as [|y [|z r]]; cbn [app] in E; [congruence|congruence|]. injection E as <- <- E.
    destruct (IH r E) as (r' & k' & -> & <- & <-). exists (n :: r'), k'. split_and!; [done| |done]. rewrite unfold_cons. by rewrite decide_True.
  - destruct r as [|y r]; cbn [app] in E; injection E as -> E; [by exists [], l|]. destruct (IH r E) as (r' & k' & -> & <- & <-). exists (y :: r'), k'. split_and!; [done| |done].
    rewrite unfold_cons. by rewrite decide_False.
Qed.

Lemma unfold_splits l s g : unf l = with_splits s g → (∀ x, s ≤ x < s + zlen g → x ≠ b ∧ x ≠ c) → ∃ g', l = with_splits s g' ∧ Forall2 (λ r' r, unf r' = r) g' g.
Proof.
  revert l s. induction g as [|r g IH]; intros l s E Hs.
  - exists []. split; [by apply unfold_nil|constructor].
  - rewrite zlen_cons in Hs. pose proof (zlen_nonneg g). destruct (Hs s ltac:(lia)) as [Hb Hc]. destruct (unfold_split l s r _ E Hb Hc) as (r' & k' & -> & Hr & Hk).
    destruct (IH k' (s + 1) Hk) as (g' & -> & Hg'); [intros x Hx; apply Hs; lia|]. exists (r' :: g'). split; [done|by constructor].
Qed.

Lemma unfold_row_ok m r' r : 2 * m ≤ n → unf r' = r → Forall (row_ok m n) r → Forall (row_ok m (n + 1)) r'.
Proof.
  intros Hm <-. induction r' as [|x r' IH]; intros Hr; [constructor|]. rewrite unfold_cons in Hr. apply Forall_app in Hr as [Hx Hr]. constructor; [|by apply IH].
  case_decide; [subst; split; [by right|lia]|]. apply Forall_cons in Hx as [[? ?] _]. split; [done|lia].
Qed.
End unfold.

(** One step of the algorithm on the rows. *)
Lemma replaces_rows m n p g l' :
  Forall (Forall (row_ok m n)) g → zlen g ≤ m → 2 * m ≤ n → replaces n p (with_splits m g) l' →
  row_ok m n p.1 ∧ row_ok m n p.2 ∧ ∃ g', l' = with_splits m g' ∧ Forall2 (λ r' r, unfold_new n p.1 p.2 r' = r) g' g ∧ Forall (Forall (row_ok m (n + 1))) g'.
Proof.
  intros Hg Hm Hn [Hold [Hmost _] Hunf _]. destruct p as [b c]. cbn [fst snd] in *. pose proof (adjacent_occurs b c (with_splits m g)) as [Hb Hc].
  assert (∀ x, 2 ≤ occurs x (with_splits m g) → row_ok m n x) as Hrow.
  { intros x Hx. destruct (decide (m ≤ x < 2 * m)) as [Hs|Hs].
    - destruct (occurs_separator m n m g x ltac:(lia) ltac:(lia) Hg Hs). lia.
    - assert (x ∈ with_splits m g) as Hin. { destruct (decide (x ∈ with_splits m g)) as [|Hno]; [done|]. apply occurs_none in Hno. lia. }
      split; [|by apply Hold]. assert (0 ≤ x); [|unfold row_symbol; lia]. pose proof (zlen_nonneg g). eapply (splits_nonneg m n g m); (done || lia). }
  assert (row_ok m n b) as Hbr by (apply Hrow; lia). assert (row_ok m n c) as Hcr by (apply Hrow; lia). split_and!; [done..|].
  destruct (unfold_splits n b c l' m g Hunf) as (g' & -> & Hg').
  { intros x Hx. destruct Hbr as [[?|?] _], Hcr as [[?|?] _]; lia. }
  exists g'. split_and!; [done..|]. clear -Hg Hg' Hn. induction Hg' as [|r' r g' g Hr _ IH]; [constructor|]. apply Forall_cons in Hg as [Hrr Hg]. constructor; [by eapply unfold_row_ok|by apply IH].
Qed.

(** ** Expansion of the output *)

Lemma out_convert m n x : row_ok m n x → 0 ≤ m → convert x m = out_symbol m x.
Proof. intros [[?|?] _] Hm; unfold convert, out_symbol; destruct (Z.ltb_spec m x), (Z.ltb_spec x m); lia. Qed.

Section expand.
Context (G : list (list Z)) (m : Z) (Hm : 0 ≤ m).
Local Abbreviation out := (out_symbol m).

(** The row [r'] expands to whatever [r] expands to. *)
Definition same_expansion (r' r : list Z) : Prop := ∀ e k, derives G m (out <$> r) e k → ∃ k', derives G m (out <$> r') e k'.

Lemma fold_expansion n b c r' :
  2 * m ≤ n → G !z (n - m) = Some [out b; out c] → same_expansion r' (unfold_new n b c r').
Proof using Hm.
  intros Hn HG. induction r' as [|x r' IH]; intros e k Hd; [by exists k|]. rewrite unfold_cons, fmap_app in Hd.
  apply derives_app_inv in Hd as (e1 & e2 & k1 & k2 & -> & -> & H1 & H2). destruct (IH e2 k2 H2) as [k' H']. rewrite fmap_cons.
  change (out x :: (out <$> r')) with ([out x] ++ (out <$> r')). case_decide as E.
  - subst x. exists (S k1 + k')%nat. apply derives_app; [|done]. assert (out n = n - m) as -> by (unfold out_symbol; destruct (Z.ltb_spec n m); lia).
    eapply derives_single_rule; [lia|exact HG|exact H1].
  - exists (k1 + k')%nat. by apply derives_app.
Qed.

End expand.

(** [G] holds the rules [ps], from symbol [n] on. *)
Definition holds_rules (G : list (list Z)) (m n : Z) (ps : list pair) : Prop := ∀ j p, ps !z j = Some p → G !z (n - m + j) = Some (out_rule m p).

Lemma holds_rules_cons G m n p ps : holds_rules G m n (p :: ps) → G !z (n - m) = Some (out_rule m p) ∧ holds_rules G m (n + 1) ps.
Proof.
  intros HG. split; [rewrite <-(Z.add_0_r (n - m)); by apply HG|]. intros j q Hj. replace (n + 1 - m + j) with (n - m + (j + 1)) by lia. apply HG.
  pose proof (zlookup_range _ _ _ Hj). rewrite zlookup_cons_pos by lia. by replace (j + 1 - 1) with j by lia.
Qed.

(** The rows expand to at most [B] symbols. *)
Definition bounded (G : list (list Z)) (m B : Z) (g : list (list Z)) : Prop := Forall (λ r, ∃ e k, derives G m (out_symbol m <$> r) e k ∧ zlen e ≤ B) g.

(** What the rounds make of the rows [g]. *)
Record rows_after (m n : Z) (g : list (list Z)) (ps : list pair) (g' : list (list Z)) : Prop := {
  ra_len : zlen g' = zlen g;
  ra_rows : Forall (Forall (row_ok m (n + zlen ps))) g';
  ra_rules : ∀ j p, ps !z j = Some p → row_ok m (n + j) p.1 ∧ row_ok m (n + j) p.2;
  ra_exp : ∀ G, holds_rules G m n ps → Forall2 (same_expansion G m) g' g;
  ra_sizes : ∀ G B, holds_rules G m n ps → bounded G m B g → ∃ es, zlen es = zlen ps ∧
    ∀ j e, es !z j = Some e → zlen e ≤ B ∧ ∃ k, derives G m [n - m + j] e k
}.

Lemma rows_after_nil m n g : Forall (Forall (row_ok m n)) g → rows_after m n g [] g.
Proof.
  intros Hg. split; [done|by change (zlen []) with 0; rewrite Z.add_0_r|intros j p Hj%zlookup_range; change (zlen []) with 0 in Hj; lia| |].
  - intros G _. clear. induction g as [|r g IH]; constructor; [|done]. intros e k ?. by exists k.
  - intros G B _ _. exists []. split; [done|]. intros j e Hj%zlookup_range. change (zlen []) with 0 in Hj. lia.
Qed.

(** The new symbol occurs. *)
Lemma replaces_new n p l l' : replaces n p l l' → n ∈ l'.
Proof.
  intros [Hold [H2 _] Hunf Hall]. destruct (decide (n ∈ l')) as [|Hn]; [done|]. assert (unfold_new n p.1 p.2 l' = l') as E; [|rewrite E in Hunf; subst; lia].
  clear -Hn. induction l' as [|x l IH]; [done|]. apply not_elem_of_cons in Hn as [Hx Hn]. rewrite unfold_cons, decide_False, IH by (done || congruence). done.
Qed.

Lemma elem_with_splits x s g : x ∈ with_splits s g → s ≤ x < s + zlen g ∨ ∃ r, r ∈ g ∧ x ∈ r.
Proof.
  revert s. induction g as [|r g IH]; intros s Hx; [by apply not_elem_of_nil in Hx|]. rewrite zlen_cons. pose proof (zlen_nonneg g). cbn in Hx.
  rewrite elem_of_app, elem_of_cons in Hx. destruct Hx as [Hx|[->|Hx]]; [right; exists r; split; [by left|done]|left; lia|].
  destruct (IH _ Hx) as [?|(r' & ? & ?)]; [left; lia|]. right. exists r'. split; [by right|done].
Qed.

(** The expansion of a symbol of a row is not longer than that of the row. *)
Lemma bounded_symbol G m B g r x : bounded G m B g → r ∈ g → x ∈ r → ∃ e k, derives G m [out_symbol m x] e k ∧ zlen e ≤ B.
Proof.
  intros Hb Hr Hx. unfold bounded in Hb. rewrite Forall_forall in Hb. destruct (Hb r Hr) as (e & k & Hd & He). apply list_elem_of_split in Hx as (r1 & r2 & ->).
  rewrite fmap_app, fmap_cons in Hd. apply derives_app_inv in Hd as (e1 & e2 & k1 & k2 & -> & _ & _ & Hd). apply (derives_app_inv _ _ [out_symbol m x]) in Hd as (e3 & e4 & k3 & k4 & -> & _ & Hd & _).
  exists e3, k3. split; [done|]. rewrite !zlen_app in He. pose proof (zlen_nonneg e1). pose proof (zlen_nonneg e4). lia.
Qed.

Section rows_after_cons.
Context (m n : Z) (p : pair) (g g1 : list (list Z)) (ps : list pair) (g' : list (list Z)).
Context (Hm : 0 ≤ m) (Hn : 2 * m ≤ n) (Hz : zlen g ≤ m) (Hb : row_ok m n p.1) (Hc : row_ok m n p.2).
Context (Hg1 : Forall2 (λ r' r, unfold_new n p.1 p.2 r' = r) g1 g) (Hnew : n ∈ with_splits m g1).

Lemma rule_expansion G : G !z (n - m) = Some (out_rule m p) → Forall2 (same_expansion G m) g1 g.
Proof using Hm Hn Hb Hc Hg1.
  intros HG. unfold out_rule in HG. rewrite !(out_convert m n) in HG by done. eapply Forall2_impl; [exact Hg1|]. intros r' r <-. by apply fold_expansion.
Qed.

Lemma bounded_step G B : G !z (n - m) = Some (out_rule m p) → bounded G m B g → bounded G m B g1.
Proof using Hm Hn Hb Hc Hg1.
  intros HG Hbd. pose proof (rule_expansion G HG) as He. clear Hg1 Hnew Hz. induction He as [|r1 r g1' g0 Hr _ IH]; [constructor|]. apply Forall_cons in Hbd as [(e & k & Hd & Hle) Hbd].
  constructor; [|by apply IH]. destruct (Hr e k Hd) as [k' Hd']. by exists e, k'.
Qed.

Lemma rows_after_cons : rows_after m (n + 1) g1 ps g' → rows_after m n g (p :: ps) g'.
Proof using All.
  intros [Hlen Hrows Hrules Hexp Hsz]. assert (zlen g1 = zlen g) as Hz1 by (unfold zlen in *; by rewrite (Forall2_length _ _ _ Hg1)). split.
  - lia.
  - replace (n + zlen (p :: ps)) with (n + 1 + zlen ps) by (rewrite zlen_cons; lia). done.
  - intros j q Hj. pose proof (zlookup_range _ _ _ Hj). destruct (decide (j = 0)) as [->|]; [injection Hj as <-; by rewrite Z.add_0_r|].
    rewrite zlookup_cons_pos in Hj by lia. replace (n + j) with (n + 1 + (j - 1)) by lia. by apply Hrules.
  - intros G [HGp HG]%holds_rules_cons. pose proof (Hexp G HG) as H1. pose proof (rule_expansion G HGp) as H2. clear -H1 H2. revert g H2.
    induction H1 as [|r' r1 g' g1 Hr _ IH]; intros g H2; inversion H2 as [|? r ? g0 Hu H3]; subst; constructor; [|by apply IH].
    intros e k Hd. destruct (Hu e k Hd) as [k1 Hk1]. by apply (Hr e k1).
  - intros G B [HGp HG]%holds_rules_cons Hbd. pose proof (bounded_step G B HGp Hbd) as Hbd1. destruct (Hsz G B HG Hbd1) as (es & Hes & Hd).
    destruct (elem_with_splits _ _ _ Hnew) as [?|(r & Hr & Hx)]; [lia|]. destruct (bounded_symbol G m B g1 r n Hbd1 Hr Hx) as (e & k & Hde & He).
    exists (e :: es). rewrite !zlen_cons. split; [lia|]. intros j e' Hj. pose proof (zlookup_range _ _ _ Hj). destruct (decide (j = 0)) as [->|].
    + injection Hj as <-. split; [done|]. exists k. rewrite Z.add_0_r. unfold out_symbol in Hde. destruct (Z.ltb_spec n m); [|done]. by replace (n - m) with n by lia.
    + rewrite zlookup_cons_pos in Hj by lia. replace (n - m + j) with (n + 1 - m + (j - 1)) by lia. by apply Hd.
Qed.
End rows_after_cons.

Lemma repaired_rows m n l ps l' g :
  repaired n l ps l' → l = with_splits m g → 0 ≤ m → Forall (Forall (row_ok m n)) g → zlen g ≤ m → 2 * m ≤ n →
  ∃ g', l' = with_splits m g' ∧ rows_after m n g ps g'.
Proof.
  intros Hr. revert g. induction Hr as [n l _|n l p l1 ps l' Hp _ IH]; intros g -> Hm Hg Hz Hn.
  - exists g. split; [done|by apply rows_after_nil].
  - destruct (replaces_rows m n p g l1 Hg Hz Hn Hp) as (Hb & Hc & g1 & -> & Hg1 & Hok1).
    assert (zlen g1 = zlen g) as Hz1 by (unfold zlen in *; by rewrite (Forall2_length _ _ _ Hg1)).
    destruct (IH g1 eq_refl Hm Hok1 ltac:(lia) ltac:(lia)) as (g' & -> & Hg'). exists g'. split; [done|].
    eapply rows_after_cons; try done. by eapply replaces_new.
Qed.

(** ** The compressor *)

(** The graph that the output encodes. *)
Definition out_graph (m : Z) (g : list (list Z)) (ps : list pair) : list (list Z) :=
  ((λ r : list Z, out_symbol m <$> r) <$> g) ++ (out_rule m <$> ps).

(** Rows the compressor handles as a part of a graph with [m] vertices: the targets are
    vertices, the text, one symbol per edge and one separator per row, leaves room in
    the hash table, and the symbols fit in an [int]. *)
Record serial_part (m : Z) (g : list (list Z)) : Prop := {
  sp_range : Forall (Forall (λ x, 0 ≤ x < m)) g;
  sp_rows : zlen g ≤ m;
  sp_size : 3 * (zlen g + zlen (concat g)) ≤ 2 ^ 17;
  sp_int : 2 * m + zlen g + zlen (concat g) < 2 ^ 31 - 1
}.

(** Graphs the compressor handles. *)
Record serial_input (g : list (list Z)) : Prop := {
  si_range : Forall (Forall (λ x, 0 ≤ x < zlen g)) g;
  si_size : 3 * (zlen g + zlen (concat g)) ≤ 2 ^ 17
}.

Lemma serial_input_part g : serial_input g → serial_part (zlen g) g.
Proof. intros [? Hs]. pose proof (zlen_nonneg g). pose proof (zlen_nonneg (concat g)). split; (done || lia). Qed.

Lemma zlen_with_splits s g : zlen (with_splits s g) = zlen g + zlen (concat g).
Proof. revert s. induction g as [|r g IH]; intros s; [done|]. cbn [with_splits concat]. rewrite !zlen_app, !zlen_cons, IH. lia. Qed.

Section part.
Context (m : Z) (g : list (list Z)) (Hg : serial_part m g).

Lemma part_nonneg : 0 ≤ m.
Proof using Hg. pose proof (sp_rows _ _ Hg). pose proof (zlen_nonneg g). lia. Qed.

Lemma input_rows : Forall (Forall (row_ok m (2 * m))) g.
Proof using Hg.
  eapply Forall_impl; [exact (sp_range _ _ Hg)|]. intros r Hrr. eapply Forall_impl; [exact Hrr|]. cbn. intros x Hx. split; [by left|lia].
Qed.

Lemma input_symbols : Forall (λ x, 0 ≤ x < 2 * m) (with_splits m g).
Proof using Hg.
  assert (∀ s h, Forall (Forall (row_ok m (2 * m))) h → 0 ≤ s → s + zlen h ≤ 2 * m → Forall (λ x, 0 ≤ x < 2 * m) (with_splits s h)) as H.
  { intros s h Hh. revert s. induction Hh as [|r h Hr _ IH]; intros s H0 Hs; [constructor|]. rewrite zlen_cons in Hs. pose proof (zlen_nonneg h). cbn. apply Forall_app. split.
    - eapply Forall_impl; [done|]. intros x [[?|?] ?]; lia.
    - constructor; [lia|]. apply IH; lia. }
  pose proof (sp_rows _ _ Hg). apply H; [apply input_rows|apply part_nonneg|lia].
Qed.

(** The run on rows in CSR form; entries that no row refers to do not matter. *)
Lemma compress_part_run fuel junk vlist elist :
  0 < zlen vlist → csr_okb vlist elist (zlen vlist - 1) = true → csr_rows vlist elist (zlen vlist - 1) = g → zlen g + zlen (concat g) < Z.of_nat fuel →
  ∃ ps g', let G := out_graph m g' ps in
    compress_csr fuel junk vlist elist m = Ok (offsets G, concat G, zlen g, zlen ps) ∧
    repaired (2 * m) (with_splits m g) ps (with_splits m g') ∧ rows_after m (2 * m) g ps g'.
Proof using Hg.
  intros Hvl Hcsr Hrg Hf. pose proof part_nonneg as Hm. pose proof (zlen_nonneg g). pose proof (zlen_nonneg (concat g)) as Hc. destruct Hg as [Hgr Hgm Hgs Hgi].
  assert (zlen vlist = zlen g + 1) as Hz by (rewrite <-Hrg, zlen_csr_rows by lia; lia).
  unfold compress_csr. rewrite insert_spliter_spec by done. rewrite Hrg. cbn [rbind app]. rewrite int32_small by (unfold INT_MAX; lia). cbn [rbind]. replace (m * 2) with (2 * m) by lia.
  destruct (wp_inv _ _ (prepare_spec junk _ _ input_symbols ltac:(rewrite zlen_with_splits; lia))) as (r & -> & M & k & Hok & Hn). cbn [rbind].
  assert (zlen (packed (with_splits m g)) = zlen g + zlen (concat g)) as Hzp by (unfold packed; rewrite zlen_fmap; apply zlen_with_splits).
  destruct (wp_inv _ _ (repair_spec fuel junk [] r _ M k Hok ltac:(rewrite Hn, Hzp; lia) ltac:(lia) ltac:(lia))) as ([rule r'] & -> & ps & bs' & -> & Hrep & Ht). cbn [rbind app].
  rewrite symbols_packed, Hn in Hrep. destruct (repaired_rows _ _ _ _ _ _ Hrep eq_refl Hm input_rows ltac:(lia) ltac:(lia)) as (g' & Hl' & Hra). pose proof (ra_len _ _ _ _ _ Hra) as Hz'.
  rewrite (read_back_ok _ _ bs') by done. rewrite Hl' in *. cbn [rbind]. change ([0], []) with (offsets [], concat (@nil (list Z))).
  assert (Forall (Forall (row_symbol m (2 * m))) g') as Hrows.
  { eapply Forall_impl; [exact (ra_rows _ _ _ _ _ Hra)|]. intros row Hrow. eapply Forall_impl; [exact Hrow|]. by intros x [? _]. }
  rewrite out_rows by (done || lia). rewrite app_nil_l, add_rules. fold (out_graph m g' ps). exists ps, g'. cbv zeta. split_and!; [|done|done].
  do 2 f_equal; [f_equal; lia|]. unfold offsets at 1. rewrite zlen_offsets_from. unfold out_graph. rewrite zlen_app, !zlen_fmap. lia.
Qed.

(** The rows of the input expand to themselves. *)
Lemma input_row row : row ∈ g → out_symbol m <$> row = row ∧ ∀ G, derives G m row row 0.
Proof using Hg.
  intros Hrow. pose proof (sp_range _ _ Hg) as Hrange. rewrite Forall_forall in Hrange. specialize (Hrange row Hrow). split.
  - clear -Hrange. induction Hrange as [|x row Hx _ IH]; [done|]. rewrite fmap_cons, IH. f_equal. unfold out_symbol. destruct (Z.ltb_spec x m); lia.
  - intros G. apply derives_vertices. eapply Forall_impl; [done|]. cbn. lia.
Qed.

(** A row of the output expands to its row of the input, with the rules of any graph
    [R] that holds them. *)
Lemma out_expands ps g' R :
  let G := out_graph m g' ps in rows_after m (2 * m) g ps g' → holds_rules R m (2 * m) ps →
  ∀ v row, g !z v = Some row → ∃ k, derives R m (csr_row (offsets G) (concat G) v) row k.
Proof using Hg.
  intros G Hra Hrules v row Hv. pose proof (ra_len _ _ _ _ _ Hra) as Hz. pose proof (ra_exp _ _ _ _ _ Hra R Hrules) as Hexp.
  pose proof (zlookup_range _ _ _ Hv) as Hr. destruct (zlookup_total g' v ltac:(lia)) as [row' Hv'].
  assert (G !z v = Some (out_symbol m <$> row')) as HGv.
  { unfold G, out_graph. rewrite zlookup_app_l by (rewrite zlen_fmap; lia). by rewrite zlookup_fmap, Hv'. }
  rewrite (csr_row_offsets _ _ _ HGv). assert (same_expansion R m row' row) as Hse.
  { rewrite zlookup_nonneg in Hv, Hv' by lia. eapply Forall2_lookup_lr; [exact Hexp|exact Hv'|exact Hv]. }
  apply (Hse row 0%nat). destruct (input_row row ltac:(by eapply zlookup_elem)) as [E Hd]. rewrite E. apply Hd.
Qed.
End part.

(** The run on a whole graph. *)
Lemma compress_csr_run fuel junk g :
  serial_input g → zlen g + zlen (concat g) < Z.of_nat fuel →
  ∃ ps g', let m := zlen g in let G := out_graph m g' ps in
    compress_csr fuel junk (offsets g) (concat g) m = Ok (offsets G, concat G, m, zlen ps) ∧
    repaired (2 * m) (with_splits m g) ps (with_splits m g') ∧ rows_after m (2 * m) g ps g' ∧ holds_rules G m (2 * m) ps.
Proof.
  intros Hg Hf. assert (zlen (offsets g) - 1 = zlen g) as Hz by (unfold offsets; rewrite zlen_offsets_from; lia). pose proof (zlen_nonneg g).
  destruct (compress_part_run (zlen g) g (serial_input_part g Hg) fuel junk (offsets g) (concat g)) as (ps & g' & Hrun & Hrep & Hra); rewrite ?Hz; [lia|apply csr_okb_offsets|apply csr_rows_offsets|done|].
  exists ps, g'. cbv zeta. split_and!; [done..|]. pose proof (ra_len _ _ _ _ _ Hra). intros j p Hj. unfold out_graph. pose proof (zlookup_range _ _ _ Hj).
  rewrite zlookup_app_r by (rewrite zlen_fmap; lia). rewrite zlookup_fmap, zlen_fmap. replace (2 * zlen g - zlen g + j - zlen g') with j by lia. by rewrite Hj.
Qed.

(** C4: serial Re-Pair is lossless.  For every graph whose targets are vertices and
    whose text fits the hash table, the compressor returns, with as many turns as
    there are symbols at most, and without leaving an array; it gives a CSR graph in
    which every vertex expands to its input row, in the same order. *)
Theorem compress_csr_lossless fuel junk g :
  serial_input g → zlen g + zlen (concat g) < Z.of_nat fuel →
  ∃ vlist elist m, compress_csr fuel junk (offsets g) (concat g) (zlen g) = Ok (vlist, elist, zlen g, m) ∧
    csr_okb vlist elist (zlen g + m) = true ∧
    ∀ v row, g !z v = Some row →
      ∃ k, derives (csr_rows vlist elist (zlen g + m)) (zlen g) (csr_row vlist elist v) row k.
Proof.
  intros Hg Hf. destruct (compress_csr_run fuel junk g Hg Hf) as (ps & g' & Hrun & _ & Hra & Hrules). set (G := out_graph (zlen g) g' ps) in *.
  assert (zlen g + zlen ps = zlen G) as HG by (unfold G, out_graph; rewrite zlen_app, !zlen_fmap, (ra_len _ _ _ _ _ Hra); lia).
  exists (offsets G), (concat G), (zlen ps). rewrite HG. split_and!; [done|apply csr_okb_offsets|]. intros v row Hv. rewrite csr_rows_offsets. by apply (out_expands _ _ (serial_input_part g Hg)).
Qed.

(** C5: serial Re-Pair refines the algorithm.  The output encodes the rules and the
    rows that replacing a most frequent pair leads to, turn by turn, until no pair of
    adjacent symbols occurs twice: the lists, the hash table, the records, the priority
    structure and the holes of the text are an implementation of it. *)
Theorem compress_csr_refines fuel junk g :
  serial_input g → zlen g + zlen (concat g) < Z.of_nat fuel →
  ∃ ps g', repaired (2 * zlen g) (with_splits (zlen g) g) ps (with_splits (zlen g) g') ∧
    let G := ((λ r : list Z, out_symbol (zlen g) <$> r) <$> g') ++ (out_rule (zlen g) <$> ps) in
    compress_csr fuel junk (offsets g) (concat g) (zlen g) = Ok (offsets G, concat G, zlen g, zlen ps).
Proof.
  intros Hg Hf. destruct (compress_csr_run fuel junk g Hg Hf) as (ps & g' & Hrun & Hrep & _ & _). by exists ps, g'.
Qed.

(** ** A graph *)

Definition serial_sample : list (list Z) := [[1; 2; 3]; [0; 1; 2; 3]; [1; 2]; []].

Lemma serial_sample_ok : serial_input serial_sample.
Proof. split; [|by vm_compute]. repeat apply Forall_cons_2; try constructor; change (zlen serial_sample) with 4; lia. Qed.

Lemma compress_csr_lossless_witness :
  ∃ vlist elist m, compress_csr 20 7 (offsets serial_sample) (concat serial_sample) 4 = Ok (vlist, elist, 4, m) ∧
    csr_okb vlist elist (4 + m) = true ∧
    ∀ v row, serial_sample !z v = Some row →
      ∃ k, derives (csr_rows vlist elist (4 + m)) 4 (csr_row vlist elist v) row k.
Proof. apply (compress_csr_lossless 20 7 serial_sample); [apply serial_sample_ok|reflexivity]. Defined.

Lemma compress_csr_refines_witness :
  ∃ ps g', repaired 8 (with_splits 4 serial_sample) ps (with_splits 4 g') ∧
    let G := ((λ r : list Z, out_symbol 4 <$> r) <$> g') ++ (out_rule 4 <$> ps) in
    compress_csr 20 7 (offsets serial_sample) (concat serial_sample) 4 = Ok (offsets G, concat G, 4, zlen ps).
Proof. apply (compress_csr_refines 20 7 serial_sample); [apply serial_sample_ok|reflexivity]. Defined.
