(* ===== verification/Merge.v ===== *)
(** * Merging compressed parts

    [merge.h]: parts of one graph that were compressed separately share the
    numbering of the [vertex_cnt] vertices; each numbers its own rules from
    [vertex_cnt] on.  Merging concatenates the vertex rows and the rule rows and
    shifts the rule numbers.  The counter of the loop over the parts is declared
    without a value: its first value [i0] is an argument. *)

From S2P Require Import Prelude Csr.

(** ** Operations *)

(** The edges [start .. end_) of a part go to one row. *)
Definition push_row (elist : list Z) (vertex_cnt rule_offset row start end_ : Z) (graph : list (list Z))
    : res (list (list Z)) :=
  for_up start end_ (λ j graph,
    let* dst := vget elist j in
    if vertex_cnt <=? dst then
      let* d := int32 (dst + rule_offset) in
      vpush graph row d
    else vpush graph row dst) graph.

(** [count] rows of a part, from row [base] on, go to the rows from [offset] on. *)
Definition push_rows (vlist elist : list Z) (vertex_cnt rule_offset base offset count : Z)
    (graph : list (list Z)) : res (list (list Z)) :=
  for_up 0 count (λ r graph,
    let* start := vget vlist (r + base) in
    let* end_ := vget vlist (r + 1 + base) in
    push_row elist vertex_cnt rule_offset (r + offset) start end_ graph) graph.

Definition merge_part (vlist_map elist_map : list (list Z)) (vertex_map rule_map : list Z) (vertex_cnt i : Z)
    (st : list (list Z) * Z * Z) : res (list (list Z) * Z * Z) :=
  let '(graph, vertex_offset, rule_offset) := st in
  let* vlist := vget vlist_map i in
  let* elist := vget elist_map i in
  let* vertices := vget vertex_map i in
  let* graph := push_rows vlist elist vertex_cnt rule_offset 0 vertex_offset vertices graph in
  let* rules := vget rule_map i in
  let* graph := push_rows vlist elist vertex_cnt rule_offset vertices (vertex_cnt + rule_offset) rules graph in
  let* vertex_offset := int32 (vertex_offset + vertices) in
  let* rule_offset := int32 (rule_offset + rules) in
  Ok (graph, vertex_offset, rule_offset).

Definition merge_ (i0 : Z) (vlist_map elist_map : list (list Z)) (vertex_map rule_map : list Z)
    : res (list Z * list Z * Z * Z) :=
  let part_num := zlen vlist_map in
  let* '(vertex_cnt, rule_cnt) :=
    for_up 0 part_num (λ i '(vertex_cnt, rule_cnt),
      let* v := vget vertex_map i in
      let* vertex_cnt := int32 (vertex_cnt + v) in
      let* r := vget rule_map i in
      let* rule_cnt := int32 (rule_cnt + r) in
      Ok (vertex_cnt, rule_cnt)) (0, 0) in
  let* total := int32 (vertex_cnt + rule_cnt) in
  let* '(graph, _, _) :=
    for_up i0 part_num (merge_part vlist_map elist_map vertex_map rule_map vertex_cnt)
      (replicate (Z.to_nat total) [], 0, 0) in
  let* '(re_vlist, re_elist, _) :=
    for_up 0 total (λ i '(re_vlist, re_elist, esize),
      let* row := vget graph i in
      let* re_elist := for_up 0 (zlen row) (λ j re_elist,
        let* x := vget row j in Ok (re_elist ++ [x])) re_elist in
      let* esize := int32 (esize + zlen row) in
      Ok (re_vlist ++ [esize], re_elist, esize)) ([0], [], 0) in
  Ok (re_vlist, re_elist, vertex_cnt, rule_cnt).

(** ** Specification *)

Record part := Part { pvlist : list Z; pelist : list Z; pvertices : Z; prules : Z }.

Definition shift (vertex_cnt off d : Z) : Z := if vertex_cnt <=? d then d + off else d.

Definition shifted_rows (vlist elist : list Z) (vertex_cnt off base count : Z) : list (list Z) :=
  (λ r, shift vertex_cnt off <$> csr_row vlist elist (r + base)) <$> seqZ 0 count.

(** The vertex rows and the rule rows of all parts; [off] rules come before. *)
Fixpoint vertex_rows (vertex_cnt off : Z) (ps : list part) : list (list Z) :=
  match ps with
  | [] => []
  | p :: ps' => shifted_rows (pvlist p) (pelist p) vertex_cnt off 0 (pvertices p) ++
                vertex_rows vertex_cnt (off + prules p) ps'
  end.

Fixpoint rule_rows (vertex_cnt off : Z) (ps : list part) : list (list Z) :=
  match ps with
  | [] => []
  | p :: ps' => shifted_rows (pvlist p) (pelist p) vertex_cnt off (pvertices p) (prules p) ++
                rule_rows vertex_cnt (off + prules p) ps'
  end.

Definition total (f : part → Z) (ps : list part) : Z := foldr (λ p s, f p + s) 0 ps.

(** Part [p] fits a graph with [vertex_cnt] vertices and [rule_cnt] rules. *)
Record part_ok (vertex_cnt rule_cnt : Z) (p : part) : Prop := {
  po_csr : csr_okb (pvlist p) (pelist p) (pvertices p + prules p) = true;
  po_vertices : 0 ≤ pvertices p;
  po_rules : 0 ≤ prules p;
  po_elist : Forall (λ d, 0 ≤ d < vertex_cnt + prules p) (pelist p)
}.

(** ** Lemmas *)

Lemma vpush_mid (A B : list (list Z)) r x i :
  i = zlen A → vpush (A ++ r :: B) i x = Ok (A ++ (r ++ [x]) :: B).
Proof.
  intros ->. rewrite (vpush_ok _ _ r) by (rewrite zlookup_app_r, Z.sub_diag by lia; done). f_equal.
  unfold zinsert, zlen. rewrite Nat2Z.id. by rewrite insert_app_r_alt, Nat.sub_diag by lia.
Qed.

Lemma push_row_spec elist vc off row a b (A B : list (list Z)) r :
  row = zlen A → 0 ≤ a ≤ b → b ≤ zlen elist → 0 ≤ off → Forall (λ d, 0 ≤ d ∧ d + off ≤ INT_MAX) elist →
  push_row elist vc off row a b (A ++ r :: B) = Ok (A ++ (r ++ (shift vc off <$> slice elist a b)) :: B).
Proof.
  intros Hrow Hab Hb Hoff Hel. apply wp_eq. unfold push_row.
  apply (wp_for_up (λ j g, g = A ++ (r ++ (shift vc off <$> slice elist a j)) :: B)); [lia| | |done].
  - by rewrite slice_nil, app_nil_r by lia.
  - intros j g Hj ->. destruct (zlookup_total elist j) as [d Hd]; [lia|].
    rewrite Forall_forall in Hel. destruct (Hel d (zlookup_elem _ _ _ Hd)) as [Hd0 Hdm].
    rewrite (vget_ok _ _ _ Hd). cbn [rbind]. rewrite (slice_snoc elist a j d), fmap_app, app_assoc by (done || lia).
    destruct (Z.leb_spec vc d) as [Hle|Hgt].
    + rewrite int32_small by lia. cbn [rbind]. rewrite vpush_mid by done. cbn [wp].
      unfold shift at 3. simpl. by destruct (Z.leb_spec vc d); [|lia].
    + rewrite vpush_mid by done. cbn [wp]. unfold shift at 3. simpl. by destruct (Z.leb_spec vc d); [lia|].
Qed.

Lemma shifted_rows_S vlist elist vc off base i :
  0 ≤ i → shifted_rows vlist elist vc off base (i + 1) =
    shifted_rows vlist elist vc off base i ++ [shift vc off <$> csr_row vlist elist (i + base)].
Proof.
  intros Hi. unfold shifted_rows. rewrite seqZ_app, fmap_app by lia. by change (seqZ (0 + i) 1) with [i].
Qed.

Lemma zlen_shifted_rows vlist elist vc off base n : 0 ≤ n → zlen (shifted_rows vlist elist vc off base n) = n.
Proof. intros Hn. unfold shifted_rows. rewrite zlen_fmap, zlen_seqZ; done. Qed.

Lemma push_rows_spec vlist elist vc off base offset count n (A B : list (list Z)) :
  offset = zlen A → 0 ≤ base → 0 ≤ count → base + count ≤ n → csr_okb vlist elist n = true →
  0 ≤ off → Forall (λ d, 0 ≤ d ∧ d + off ≤ INT_MAX) elist →
  push_rows vlist elist vc off base offset count (A ++ replicate (Z.to_nat count) [] ++ B) =
  Ok (A ++ shifted_rows vlist elist vc off base count ++ B).
Proof.
  intros Hofs Hbase Hcount Hn Hok Hoff Hel. apply wp_eq. unfold push_rows.
  apply (wp_for_up (λ i g, g = (A ++ shifted_rows vlist elist vc off base i) ++ replicate (Z.to_nat (count - i)) [] ++ B)); [lia| | |].
  - rewrite Z.sub_0_r. unfold shifted_rows. simpl. by rewrite app_nil_r.
  - intros i g Hi ->. destruct (csr_okb_spec _ _ _ (i + base) Hok) as (a & b & Ha & Hb & ? & ?); [lia|].
    replace (i + base + 1) with (i + 1 + base) in Hb by lia. rewrite (vget_ok _ _ _ Ha), (vget_ok _ _ _ Hb). cbn [rbind].
    replace (Z.to_nat (count - i)) with (S (Z.to_nat (count - (i + 1)))) by lia. cbn [replicate app].
    rewrite push_row_spec; [|by rewrite zlen_app, zlen_shifted_rows; lia|done..]. cbn [wp app].
    rewrite shifted_rows_S by lia. replace (i + 1 + base) with (i + base + 1) in Hb by lia.
    rewrite (csr_row_slice vlist elist (i + base) a b) by done. by rewrite <-!app_assoc.
  - intros g ->. rewrite Z.sub_diag. simpl. by rewrite <-!app_assoc.
Qed.

Lemma total_app f ps qs : total f (ps ++ qs) = total f ps + total f qs.
Proof. unfold total. induction ps; simpl; lia. Qed.

Lemma total_nonneg f ps : (∀ p, p ∈ ps → 0 ≤ f p) → 0 ≤ total f ps.
Proof.
  unfold total. induction ps as [|p ps IH]; intros H; simpl; [done|].
  pose proof (H p ltac:(constructor)). pose proof (IH ltac:(intros; apply H; by constructor)). lia.
Qed.

Lemma vertex_rows_app vc off ps qs :
  vertex_rows vc off (ps ++ qs) = vertex_rows vc off ps ++ vertex_rows vc (off + total prules ps) qs.
Proof.
  revert off. induction ps as [|p ps IH]; intros off; simpl; [by rewrite Z.add_0_r|].
  rewrite IH, <-app_assoc. do 3 f_equal. unfold total. simpl. lia.
Qed.

Lemma rule_rows_app vc off ps qs :
  rule_rows vc off (ps ++ qs) = rule_rows vc off ps ++ rule_rows vc (off + total prules ps) qs.
Proof.
  revert off. induction ps as [|p ps IH]; intros off; simpl; [by rewrite Z.add_0_r|].
  rewrite IH, <-app_assoc. do 3 f_equal. unfold total. simpl. lia.
Qed.

(** Empty rows still to be filled. *)
Definition blank (n : Z) : list (list Z) := replicate (Z.to_nat n) [].

Lemma blank_add n m : 0 ≤ n → 0 ≤ m → blank (n + m) = blank n ++ blank m.
Proof. intros. unfold blank. by rewrite Z2Nat.inj_add, replicate_add by lia. Qed.

Lemma zlen_blank n : 0 ≤ n → zlen (blank n) = n.
Proof. intros. unfold blank. rewrite zlen_replicate. lia. Qed.

Section merging.
Context (ps : list part).
Abbreviation vc := (total pvertices ps).
Abbreviation rc := (total prules ps).
Context (Hps : Forall (part_ok vc rc) ps) (Hmax : vc + rc ≤ INT_MAX).

(** [skip]: the parts before the first one that is merged. *)
Lemma totals_split skip pre p post :
  ps = skip ++ pre ++ p :: post →
  0 ≤ total pvertices pre ∧ 0 ≤ pvertices p ∧ total pvertices pre + pvertices p ≤ vc ∧
  0 ≤ total prules pre ∧ 0 ≤ prules p ∧ total prules pre + prules p ≤ rc.
Proof using Hps.
  intros Heq. rewrite Forall_forall in Hps.
  assert (∀ q, q ∈ ps → 0 ≤ pvertices q ∧ 0 ≤ prules q) as Hq by (intros q Hq; destruct (Hps q Hq); done).
  assert (vc = total pvertices skip + (total pvertices pre + (pvertices p + total pvertices post))) as Hv by (rewrite Heq, !total_app; done).
  assert (rc = total prules skip + (total prules pre + (prules p + total prules post))) as Hr by (rewrite Heq, !total_app; done).
  rewrite Hv, Hr.
  assert (∀ q, q ∈ skip ++ pre ++ p :: post → q ∈ ps) as Hin by (by rewrite Heq).
  assert (∀ q, q ∈ skip → q ∈ ps) by (intros q ?; apply Hin; rewrite !elem_of_app; by left).
  assert (∀ q, q ∈ pre → q ∈ ps) by (intros q ?; apply Hin; rewrite !elem_of_app; by right; left).
  assert (∀ q, q ∈ post → q ∈ ps) by (intros q ?; apply Hin; rewrite !elem_of_app, elem_of_cons; by right; right; right).
  assert (p ∈ ps) as Hp by (apply Hin; rewrite !elem_of_app, elem_of_cons; by right; right; left).
  destruct (Hq p Hp). pose proof (total_nonneg pvertices skip ltac:(intros; apply Hq; auto)).
  pose proof (total_nonneg prules skip ltac:(intros; apply Hq; auto)). pose proof (total_nonneg pvertices pre ltac:(intros; apply Hq; auto)).
  pose proof (total_nonneg prules pre ltac:(intros; apply Hq; auto)).
  pose proof (total_nonneg pvertices post ltac:(intros; apply Hq; auto)).
  pose proof (total_nonneg prules post ltac:(intros; apply Hq; auto)). lia.
Qed.

Lemma zlen_vertex_rows off qs : (∀ p, p ∈ qs → 0 ≤ pvertices p) → zlen (vertex_rows vc off qs) = total pvertices qs.
Proof.
  revert off. induction qs as [|p qs IH]; intros off Hq; simpl; [done|].
  rewrite zlen_app, IH, zlen_shifted_rows; [done|apply Hq; constructor|]. intros; apply Hq; by constructor.
Qed.

Lemma zlen_rule_rows off qs : (∀ p, p ∈ qs → 0 ≤ prules p) → zlen (rule_rows vc off qs) = total prules qs.
Proof.
  revert off. induction qs as [|p qs IH]; intros off Hq; simpl; [done|].
  rewrite zlen_app, IH, zlen_shifted_rows; [done|apply Hq; constructor|]. intros; apply Hq; by constructor.
Qed.

(** The graph after the parts [pre]: the rows still missing are empty. *)
Definition merged_upto (pre : list part) : list (list Z) :=
  vertex_rows vc 0 pre ++ blank (vc - total pvertices pre) ++
  rule_rows vc 0 pre ++ blank (rc - total prules pre).

Lemma merge_part_spec skip pre p post :
  ps = skip ++ pre ++ p :: post →
  merge_part (pvlist <$> ps) (pelist <$> ps) (pvertices <$> ps) (prules <$> ps) vc (zlen (skip ++ pre))
    (merged_upto pre, total pvertices pre, total prules pre) =
  Ok (merged_upto (pre ++ [p]), total pvertices (pre ++ [p]), total prules (pre ++ [p])).
Proof using Hps Hmax.
  intros Heq. destruct (totals_split skip pre p post Heq) as (Hv0 & Hv1 & Hv2 & Hr0 & Hr1 & Hr2).
  assert (∀ q, q ∈ pre → q ∈ ps) as Hpre by (intros q ?; rewrite Heq, !elem_of_app; by right; left).
  assert (ps !z zlen (skip ++ pre) = Some p) as Hlk by (rewrite Heq, app_assoc, zlookup_app_r, Z.sub_diag by lia; done).
  assert (p ∈ ps) as Hp by (by eapply zlookup_elem).
  pose proof Hps as Hps'. rewrite Forall_forall in Hps'. destruct (Hps' p Hp) as [Hcsr _ _ Hel].
  assert (Forall (λ d, 0 ≤ d ∧ d + total prules pre ≤ INT_MAX) (pelist p)) as Hel'.
  { eapply Forall_impl; [exact Hel|]. simpl. lia. }
  assert (∀ {B} (f : part → B), vget (f <$> ps) (zlen (skip ++ pre)) = Ok (f p)) as Hget.
  { intros B f. apply vget_ok. by rewrite zlookup_fmap, Hlk. }
  unfold merge_part. rewrite !Hget. cbn [rbind]. unfold merged_upto at 1.
  replace (vc - total pvertices pre) with (pvertices p + (vc - (total pvertices pre + pvertices p))) by lia.
  rewrite blank_add, <-app_assoc by lia. unfold blank at 1.
  rewrite (push_rows_spec _ _ _ _ _ _ _ (pvertices p + prules p)); try done; try lia.
  2: { rewrite zlen_vertex_rows; [done|]. intros q Hq. apply Hps'. auto. }
  cbn [rbind]. set (V := vertex_rows vc 0 pre). set (V1 := shifted_rows _ _ _ _ _ _).
  replace (rc - total prules pre) with (prules p + (rc - (total prules pre + prules p))) by lia.
  rewrite (blank_add (prules p)) by lia. unfold blank at 2. rewrite !app_assoc. rewrite <-(app_assoc _ (replicate _ _)).
  rewrite (push_rows_spec _ _ _ _ _ _ _ (pvertices p + prules p)); try done; try lia.
  2: { rewrite !zlen_app. unfold V, V1. rewrite zlen_vertex_rows by (intros q Hq; apply Hps'; auto).
       rewrite zlen_rule_rows by (intros q Hq; apply Hps'; auto). rewrite zlen_shifted_rows, zlen_blank by lia. lia. }
  cbn [rbind]. rewrite !int32_small by lia. cbn [rbind]. rewrite !total_app. f_equal.
  unfold total at 5 7. simpl. rewrite !Z.add_0_r. do 2 f_equal. unfold merged_upto, V, V1.
  rewrite vertex_rows_app, rule_rows_app, !total_app. simpl. rewrite !app_nil_r, !Z.add_0_l.
  unfold total at 6 10. simpl. rewrite !Z.add_0_r, <-!app_assoc. done.
Qed.
End merging.

(** Writing a graph as CSR. *)
Lemma write_csr graph n :
  zlen graph = n → zlen (concat graph) ≤ INT_MAX →
  for_up 0 n (λ i '(re_vlist, re_elist, esize),
    let* row := vget graph i in
    let* re_elist := for_up 0 (zlen row) (λ j re_elist,
      let* x := vget row j in Ok (re_elist ++ [x])) re_elist in
    let* esize := int32 (esize + zlen row) in
    Ok (re_vlist ++ [esize], re_elist, esize)) ([0], [], 0) =
  Ok (offsets graph, concat graph, zlen (concat graph)).
Proof.
  intros <- Hmax. apply wp_eq. pose proof (zlen_nonneg graph).
  apply (wp_for_up (λ i '(vl, el, es), let g := take (Z.to_nat i) graph in
    vl = offsets g ∧ el = concat g ∧ es = zlen el)); [done|done| |].
  - intros i [[vl el] es] Hi (-> & -> & ->). destruct (zlookup_total graph i Hi) as [row Hrow].
    rewrite (vget_ok _ _ _ Hrow). cbn [rbind]. rewrite for_up_copy, slice_full by (pose proof (zlen_nonneg row); lia). cbn [rbind].
    assert (take (Z.to_nat (i + 1)) graph = take (Z.to_nat i) graph ++ [row]) as Htk.
    { replace (Z.to_nat (i + 1)) with (S (Z.to_nat i)) by lia. by rewrite (take_S_r _ _ _ (zlookup_Some_nat _ _ _ Hrow)). }
    assert (zlen (concat (take (Z.to_nat i) graph)) + zlen row ≤ INT_MAX).
    { rewrite <-(take_drop (Z.to_nat (i + 1)) graph), concat_app, zlen_app, Htk, concat_app, zlen_app in Hmax. simpl in Hmax.
      rewrite app_nil_r in Hmax. pose proof (zlen_nonneg (concat (drop (Z.to_nat (i + 1)) graph))). lia. }
    pose proof (zlen_nonneg (concat (take (Z.to_nat i) graph))). pose proof (zlen_nonneg row).
    rewrite int32_small by lia. cbn [rbind wp]. rewrite Htk, offsets_snoc, !concat_app. simpl.
    rewrite app_nil_r, !zlen_app. done.
  - intros [[vl el] es] (-> & -> & ->). rewrite !take_ge by (unfold zlen; lia). done.
Qed.

Lemma merge_counts ps :
  Forall (λ p, 0 ≤ pvertices p ∧ 0 ≤ prules p) ps → total pvertices ps + total prules ps ≤ INT_MAX →
  for_up 0 (zlen (pvlist <$> ps)) (λ i '(vertex_cnt, rule_cnt),
    let* v := vget (pvertices <$> ps) i in
    let* vertex_cnt := int32 (vertex_cnt + v) in
    let* r := vget (prules <$> ps) i in
    let* rule_cnt := int32 (rule_cnt + r) in
    Ok (vertex_cnt, rule_cnt)) (0, 0) = Ok (total pvertices ps, total prules ps).
Proof.
  intros Hps Hmax. rewrite zlen_fmap. apply wp_eq. pose proof (zlen_nonneg ps). rewrite Forall_forall in Hps.
  assert (∀ qs, (∀ q, q ∈ qs → q ∈ ps) → 0 ≤ total pvertices qs ∧ 0 ≤ total prules qs) as Hnn.
  { intros qs Hqs. split; apply total_nonneg; intros p Hp; by apply Hps, Hqs. }
  apply (wp_for_up (λ i '(v, r), v = total pvertices (take (Z.to_nat i) ps) ∧ r = total prules (take (Z.to_nat i) ps))); [done|done| |].
  - intros i [v r] Hi [-> ->]. destruct (zlookup_total ps i Hi) as [p Hp].
    rewrite (vget_ok _ i (pvertices p)), (vget_ok _ i (prules p)) by (by rewrite zlookup_fmap, Hp). cbn [rbind].
    pose proof (zlookup_Some_nat _ _ _ Hp) as Hp'. pose proof (take_drop_middle ps _ _ Hp') as Hmid.
    set (pre := take (Z.to_nat i) ps) in *. set (post := drop (S (Z.to_nat i)) ps) in *.
    destruct (Hnn pre) as [Hv0 Hr0]. { intros q Hq. rewrite <-Hmid. apply elem_of_app. by left. }
    destruct (Hnn post) as [Hv1 Hr1]. { intros q Hq. rewrite <-Hmid. apply elem_of_app. right. by constructor. }
    destruct (Hps p) as [Hpv Hpr]; [by eapply zlookup_elem|].
    rewrite <-Hmid, !total_app in Hmax. change (total pvertices (p :: post)) with (pvertices p + total pvertices post) in Hmax.
    change (total prules (p :: post)) with (prules p + total prules post) in Hmax.
    rewrite !int32_small by lia. cbn [rbind wp].
    replace (Z.to_nat (i + 1)) with (S (Z.to_nat i)) by lia. rewrite (take_S_r _ _ _ Hp'), !total_app.
    fold pre. change (total pvertices [p]) with (pvertices p + 0). change (total prules [p]) with (prules p + 0). lia.
  - intros [v r] [-> ->]. unfold zlen. rewrite Nat2Z.id, take_ge by done. done.
Qed.

Definition merged (ps : list part) : list (list Z) :=
  vertex_rows (total pvertices ps) 0 ps ++ rule_rows (total pvertices ps) 0 ps.

(** The parts from the first one that is merged on. *)
Definition merged_from (i0 : Z) (ps : list part) : list (list Z) := merged_upto ps (drop (Z.to_nat i0) ps).

Lemma merged_from_0 ps : merged_from 0 ps = merged ps.
Proof. unfold merged_from, merged_upto, merged. rewrite drop_0, !Z.sub_diag. unfold blank. simpl. by rewrite app_nil_r. Qed.

Section merging_all.
Context (ps : list part) (Hps : Forall (part_ok (total pvertices ps) (total prules ps)) ps).
Context (Hmax : total pvertices ps + total prules ps ≤ INT_MAX).

Lemma parts_nonneg : Forall (λ p, 0 ≤ pvertices p ∧ 0 ≤ prules p) ps.
Proof using Hps. eapply Forall_impl; [exact Hps|]. by intros p []. Qed.

Lemma totals_nonneg : 0 ≤ total pvertices ps ∧ 0 ≤ total prules ps.
Proof using Hps. pose proof parts_nonneg as Hnn. rewrite Forall_forall in Hnn. split; apply total_nonneg; intros p Hp; by apply Hnn. Qed.

Lemma totals_from k : 0 ≤ total pvertices (drop k ps) ≤ total pvertices ps ∧ 0 ≤ total prules (drop k ps) ≤ total prules ps.
Proof using Hps.
  pose proof parts_nonneg as Hnn. rewrite Forall_forall in Hnn.
  assert (∀ f : part → Z, (∀ p, p ∈ ps → 0 ≤ f p) → 0 ≤ total f (drop k ps) ≤ total f ps) as Hf; [|split; apply Hf; intros p Hp; by apply Hnn].
  intros f Hf. rewrite <-(take_drop k ps) at 3. rewrite total_app.
  assert (0 ≤ total f (take k ps)) by (apply total_nonneg; intros p Hp; apply Hf; rewrite <-(take_drop k ps); apply elem_of_app; by left).
  assert (0 ≤ total f (drop k ps)) by (apply total_nonneg; intros p Hp; apply Hf; rewrite <-(take_drop k ps); apply elem_of_app; by right). lia.
Qed.

Lemma zlen_merged_from i0 : zlen (merged_from i0 ps) = total pvertices ps + total prules ps.
Proof using Hps.
  pose proof parts_nonneg as Hnn. rewrite Forall_forall in Hnn. pose proof (totals_from (Z.to_nat i0)) as [Hv Hr]. unfold merged_from, merged_upto.
  assert (∀ p, p ∈ drop (Z.to_nat i0) ps → p ∈ ps) as Hd by (intros p Hp; rewrite <-(take_drop (Z.to_nat i0) ps); apply elem_of_app; by right).
  rewrite !zlen_app, zlen_vertex_rows, zlen_rule_rows, !zlen_blank by (lia || (intros p Hp; by apply Hnn, Hd)). lia.
Qed.

(** The rounds of the part loop. *)
Lemma merge_parts_ok i0 :
  0 ≤ i0 →
  for_up i0 (zlen ps) (merge_part (pvlist <$> ps) (pelist <$> ps) (pvertices <$> ps) (prules <$> ps) (total pvertices ps))
    (merged_upto ps [], 0, 0) =
  Ok (merged_from i0 ps, total pvertices (drop (Z.to_nat i0) ps), total prules (drop (Z.to_nat i0) ps)).
Proof using Hps Hmax.
  intros Hi0. unfold merged_from. destruct (decide (zlen ps ≤ i0)) as [Hge|Hlt].
  { rewrite for_up_nil, drop_ge by (unfold zlen in *; lia). done. }
  apply wp_eq. set (skip := take (Z.to_nat i0) ps). set (qs := drop (Z.to_nat i0) ps).
  assert (ps = skip ++ qs) as Hsplit by (symmetry; apply take_drop). assert (zlen skip = i0) as Hskip by (apply zlen_take; lia).
  assert (zlen ps = i0 + zlen qs) as Hlen by (rewrite Hsplit at 1; rewrite zlen_app; lia).
  apply (wp_for_up (λ i st, let pre := take (Z.to_nat (i - i0)) qs in
    st = (merged_upto ps pre, total pvertices pre, total prules pre))); [lia|by rewrite Z.sub_diag| |].
  - intros i st Hi ->. cbv zeta. destruct (zlookup_total qs (i - i0) ltac:(lia)) as [p Hp]. pose proof (zlookup_Some_nat _ _ _ Hp) as Hp'.
    pose proof (take_drop_middle qs _ _ Hp') as Hmid.
    replace i with (zlen (skip ++ take (Z.to_nat (i - i0)) qs)) at 1 by (rewrite zlen_app, zlen_take by lia; lia).
    rewrite (merge_part_spec ps Hps Hmax skip _ p (drop (S (Z.to_nat (i - i0))) qs)) by (by rewrite Hmid). cbn [wp].
    replace (Z.to_nat (i + 1 - i0)) with (S (Z.to_nat (i - i0))) by lia. by rewrite (take_S_r _ _ _ Hp').
  - intros st ->. rewrite take_ge by (unfold zlen in *; lia). done.
Qed.

(** The result, for every first value of the counter that is not negative. *)
Lemma merge_ok i0 :
  0 ≤ i0 → zlen (concat (merged_from i0 ps)) ≤ INT_MAX →
  merge_ i0 (pvlist <$> ps) (pelist <$> ps) (pvertices <$> ps) (prules <$> ps) =
  Ok (offsets (merged_from i0 ps), concat (merged_from i0 ps), total pvertices ps, total prules ps).
Proof using Hps Hmax.
  intros Hi0 Hedges. destruct totals_nonneg as [Hv0 Hr0]. unfold merge_. rewrite merge_counts by (done || apply parts_nonneg). cbn [rbind].
  rewrite int32_small by lia. cbn [rbind]. rewrite zlen_fmap.
  assert (replicate (Z.to_nat (total pvertices ps + total prules ps)) [] = merged_upto ps []) as ->.
  { unfold merged_upto, blank. cbn. by rewrite !Z.sub_0_r, Z2Nat.inj_add, replicate_add by lia. }
  rewrite merge_parts_ok by done. cbn [rbind]. by rewrite write_csr by (done || apply zlen_merged_from).
Qed.

(** A negative one is an index outside the parts. *)
Lemma merge_negative i0 :
  i0 < 0 → merge_ i0 (pvlist <$> ps) (pelist <$> ps) (pvertices <$> ps) (prules <$> ps) = Err OutOfBounds.
Proof using Hps Hmax.
  intros Hi0. destruct totals_nonneg as [Hv0 Hr0]. unfold merge_. rewrite merge_counts by (done || apply parts_nonneg). cbn [rbind].
  rewrite int32_small by lia. cbn [rbind]. rewrite zlen_fmap, for_up_cons by (pose proof (zlen_nonneg ps); lia).
  unfold merge_part, vget. by rewrite (proj2 (zlookup_None (pvlist <$> ps) i0)) by (by left).
Qed.
End merging_all.
