(* ===== verification/MergeLossless.v ===== *)
(** * Merging loses nothing

    [merge.h] against the meaning of its input.  A part decompresses to some rows of
    the graph when its vertex rows expand to them with its own rules, which it numbers
    from [vertex_cnt] on.  Merging parts gives a graph that decompresses to the rows of
    all parts, and that the filter accepts. *)

From S2P Require Import Prelude Csr Grammar Filter Merge.

(** ** What a part stands for *)

(** The rules of a part, at the numbers by which it refers to them. *)
Definition rules_of (n : Z) (p : part) : list (list Z) :=
  replicate (Z.to_nat n) [] ++ ((λ j, csr_row (pvlist p) (pelist p) (j + pvertices p)) <$> seqZ 0 (prules p)).

(** Part [p] decompresses to the rows [g]; its rules expand to [es]. *)
Record decompresses (n : Z) (p : part) (g es : list (list Z)) : Prop := {
  dc_csr : csr_okb (pvlist p) (pelist p) (pvertices p + prules p) = true;
  dc_vertices : pvertices p = zlen g;
  dc_rules : prules p = zlen es;
  dc_elist : Forall (λ d, 0 ≤ d < n + prules p) (pelist p);
  dc_rows : ∀ v row, g !z v = Some row → ∃ k, derives (rules_of n p) n (csr_row (pvlist p) (pelist p) v) row k;
  dc_expand : ∀ j e, es !z j = Some e → ∃ k, derives (rules_of n p) n (csr_row (pvlist p) (pelist p) (j + pvertices p)) e k;
  dc_used : ∀ j, 0 ≤ j < prules p → csr_row (pvlist p) (pelist p) (j + pvertices p) ≠ [] ∧
    ∃ v, 0 ≤ v < pvertices p + prules p ∧ n + j ∈ csr_row (pvlist p) (pelist p) v
}.

Lemma rules_of_lookup n p x row :
  0 ≤ n → n ≤ x → rules_of n p !z x = Some row → 0 ≤ x - n < prules p ∧ row = csr_row (pvlist p) (pelist p) (x - n + pvertices p).
Proof.
  intros Hn Hx Hrow. unfold rules_of in Hrow. rewrite zlookup_app_r in Hrow by (rewrite zlen_replicate; lia). rewrite zlen_replicate, Z2Nat.id in Hrow by lia.
  rewrite zlookup_fmap in Hrow. destruct (seqZ 0 (prules p) !z (x - n)) as [j|] eqn:E; [|done]. injection Hrow as <-.
  rewrite zlookup_nonneg in E by lia. apply lookup_seqZ in E as [-> ?]. split; [lia|]. f_equal. lia.
Qed.

Lemma parts_rules n ps gs ess : Forall3 (decompresses n) ps gs ess → 0 ≤ total prules ps.
Proof.
  induction 1 as [|p g es ps gs ess Hp _ IH]; [done|]. change (total prules (p :: ps)) with (prules p + total prules ps). rewrite (dc_rules _ _ _ _ Hp).
  pose proof (zlen_nonneg es). lia.
Qed.

(** ** The merged rules *)

Section merged.
Context (n : Z) (G : list (list Z)) (Hn : 0 ≤ n).

(** [G] holds the rules of the parts [ps], from number [n + off] on. *)
Definition holds_parts (off : Z) (ps : list part) : Prop := ∀ x, 0 ≤ x < total prules ps → G !z (n + off + x) = rule_rows n off ps !z x.

Lemma holds_parts_cons off p ps : 0 ≤ prules p → 0 ≤ total prules ps → holds_parts off (p :: ps) →
  (∀ j, 0 ≤ j < prules p → G !z (n + off + j) = Some (shift n off <$> csr_row (pvlist p) (pelist p) (j + pvertices p))) ∧ holds_parts (off + prules p) ps.
Proof using.
  intros Hp Hps HG. change (total prules (p :: ps)) with (prules p + total prules ps) in *. unfold holds_parts in HG. cbn [rule_rows] in HG. split.
  - intros j Hj. rewrite HG by (change (total prules (p :: ps)) with (prules p + total prules ps); lia). rewrite zlookup_app_l by (rewrite zlen_shifted_rows; lia).
    unfold shifted_rows. rewrite zlookup_fmap, zlookup_nonneg by lia. rewrite (proj2 (lookup_seqZ 0 (prules p) (Z.to_nat j) j)) by lia. done.
  - intros x Hx. replace (n + (off + prules p) + x) with (n + off + (prules p + x)) by lia.
    rewrite HG by (change (total prules (p :: ps)) with (prules p + total prules ps); lia). rewrite zlookup_app_r by (rewrite zlen_shifted_rows; lia).
    rewrite zlen_shifted_rows by done. f_equal. lia.
Qed.

Lemma shift_expansion off p xs l k :
  0 ≤ off → (∀ j, 0 ≤ j < prules p → G !z (n + off + j) = Some (shift n off <$> csr_row (pvlist p) (pelist p) (j + pvertices p))) →
  derives (rules_of n p) n xs l k → derives G n (shift n off <$> xs) l k.
Proof using Hn.
  intros Hoff HG Hd. apply (derives_rename (rules_of n p) G n (λ _, True)); try done.
  - intros x Hx. unfold shift. destruct (Z.leb_spec n x); lia.
  - intros x Hx. unfold shift. destruct (Z.leb_spec n x); lia.
  - intros x row Hx _ Hrow. destruct (rules_of_lookup n p x row Hn Hx Hrow) as [Hj ->]. split; [by apply Forall_forall|]. unfold shift at 1. destruct (Z.leb_spec n x); [|lia].
    replace (x + off) with (n + off + (x - n)) by lia. by apply HG.
  - by apply Forall_forall.
Qed.

Lemma shifted_expand off p base count rows :
  0 ≤ off → count = zlen rows →
  (∀ j, 0 ≤ j < prules p → G !z (n + off + j) = Some (shift n off <$> csr_row (pvlist p) (pelist p) (j + pvertices p))) →
  (∀ j e, rows !z j = Some e → ∃ k, derives (rules_of n p) n (csr_row (pvlist p) (pelist p) (j + base)) e k) →
  Forall2 (λ row e, ∃ k, derives G n row e k) (shifted_rows (pvlist p) (pelist p) n off base count) rows.
Proof using Hn.
  intros Hoff -> HG Hd. apply Forall2_same_length_lookup_2.
  - unfold shifted_rows. rewrite length_fmap, length_seqZ. unfold zlen. lia.
  - intros i row e Hrow He. unfold shifted_rows in Hrow. rewrite list_lookup_fmap in Hrow. destruct (seqZ 0 (zlen rows) !! i) as [j|] eqn:E; [|done]. injection Hrow as <-.
    apply lookup_seqZ in E as [-> Hi]. rewrite Z.add_0_l. destruct (Hd (Z.of_nat i) e) as [k Hk]; [rewrite zlookup_nonneg, Nat2Z.id by lia; done|]. exists k.
    by eapply shift_expansion.
Qed.

Lemma merged_expand off ps gs ess :
  0 ≤ off → Forall3 (decompresses n) ps gs ess → holds_parts off ps →
  Forall2 (λ row e, ∃ k, derives G n row e k) (vertex_rows n off ps) (concat gs) ∧
  Forall2 (λ row e, ∃ k, derives G n row e k) (rule_rows n off ps) (concat ess).
Proof using Hn.
  intros Hoff HF. revert off Hoff. induction HF as [|p g es ps gs ess Hp HF IH]; intros off Hoff HG; [split; constructor|].
  pose proof (dc_rules _ _ _ _ Hp) as Hr. pose proof (zlen_nonneg es). destruct (holds_parts_cons off p ps ltac:(lia) (parts_rules _ _ _ _ HF) HG) as [HGp HGs].
  destruct (IH (off + prules p) ltac:(lia) HGs) as [IH1 IH2]. cbn [vertex_rows rule_rows concat]. split; apply Forall2_app; try done.
  - apply shifted_expand; try done; [apply (dc_vertices _ _ _ _ Hp)|]. intros j e He. rewrite Z.add_0_r. by apply (dc_rows _ _ _ _ Hp).
  - apply shifted_expand; try done. by apply (dc_expand _ _ _ _ Hp).
Qed.
End merged.

(** ** The merged graph *)

Lemma shift_range n off r d : 0 ≤ off → 0 ≤ d < n + r → 0 ≤ shift n off d < n + (off + r).
Proof. intros Hoff Hd. unfold shift. destruct (Z.leb_spec n d); lia. Qed.

Lemma elem_shifted_rows vl el n off base count row : row ∈ shifted_rows vl el n off base count ↔ ∃ j, 0 ≤ j < count ∧ row = shift n off <$> csr_row vl el (j + base).
Proof.
  unfold shifted_rows. rewrite list_elem_of_fmap. split; intros (j & H1 & H2); exists j.
  - apply elem_of_seqZ in H2. split; [lia|done].
  - split; [done|]. apply elem_of_seqZ. lia.
Qed.

(** Every rule is used and not empty, and every entry is in range. *)
Lemma merged_rules n off ps gs ess :
  0 ≤ off → Forall3 (decompresses n) ps gs ess →
  (∀ x, 0 ≤ x < total prules ps → ∃ row, row ∈ vertex_rows n off ps ++ rule_rows n off ps ∧ n + off + x ∈ row) ∧
  (∀ row, row ∈ rule_rows n off ps → row ≠ []) ∧
  (∀ row d, row ∈ vertex_rows n off ps ++ rule_rows n off ps → d ∈ row → 0 ≤ d < n + (off + total prules ps)).
Proof.
  intros Hoff HF. revert off Hoff. induction HF as [|p g es ps gs ess Hp HF IH]; intros off Hoff.
  - change (total prules []) with 0. split_and!; [lia|by intros row ?%not_elem_of_nil|by intros row d ?%not_elem_of_nil].
  - change (total prules (p :: ps)) with (prules p + total prules ps). pose proof (parts_rules _ _ _ _ HF) as Ht. pose proof (dc_rules _ _ _ _ Hp) as Hr. pose proof (zlen_nonneg es).
    destruct (IH (off + prules p) ltac:(lia)) as (IH1 & IH2 & IH3). cbn [vertex_rows rule_rows]. pose proof (dc_vertices _ _ _ _ Hp) as Hv. pose proof (zlen_nonneg g).
    assert (∀ row, row ∈ shifted_rows (pvlist p) (pelist p) n off 0 (pvertices p) ++ shifted_rows (pvlist p) (pelist p) n off (pvertices p) (prules p) ↔
      ∃ v, 0 ≤ v < pvertices p + prules p ∧ row = shift n off <$> csr_row (pvlist p) (pelist p) v) as Hrows.
    { intros row. rewrite elem_of_app, !elem_shifted_rows. split.
      - intros [(j & ? & ->)|(j & ? & ->)]; eexists; (split; [|done]); lia.
      - intros (v & ? & ->). destruct (decide (v < pvertices p)); [left; exists v|right; exists (v - pvertices p)]; (split; [lia|]); do 2 f_equal; lia. }
    split_and!.
    + intros x Hx. destruct (decide (x < prules p)).
      * destruct (dc_used _ _ _ _ Hp x ltac:(lia)) as [_ (v & Hvr & Hin)]. exists (shift n off <$> csr_row (pvlist p) (pelist p) v). split.
        -- assert (shift n off <$> csr_row (pvlist p) (pelist p) v ∈ shifted_rows (pvlist p) (pelist p) n off 0 (pvertices p) ++ shifted_rows (pvlist p) (pelist p) n off (pvertices p) (prules p)) as Hin2
             by (apply Hrows; by exists v). rewrite !elem_of_app in *. tauto.
        -- apply list_elem_of_fmap. exists (n + x). split; [|done]. unfold shift. destruct (Z.leb_spec n (n + x)); lia.
      * destruct (IH1 (x - prules p) ltac:(lia)) as (row & Hrow & Hin). exists row. split; [rewrite !elem_of_app in *; tauto|]. by replace (n + off + x) with (n + (off + prules p) + (x - prules p)) by lia.
    + intros row [(j & Hj & ->)%elem_shifted_rows|Hrow]%elem_of_app; [|by apply IH2]. intros E%fmap_nil_inv. by destruct (dc_used _ _ _ _ Hp j Hj).
    + intros row d Hrow Hd. assert ((∃ v, 0 ≤ v < pvertices p + prules p ∧ row = shift n off <$> csr_row (pvlist p) (pelist p) v) ∨ row ∈ vertex_rows n (off + prules p) ps ++ rule_rows n (off + prules p) ps) as [(v & Hvr & ->)|Hrest].
      { rewrite <-Hrows. rewrite !elem_of_app in *. tauto. }
      * apply list_elem_of_fmap in Hd as (d' & -> & Hd'). destruct (shift_range n off (prules p) d' Hoff); [|lia].
        pose proof (dc_elist _ _ _ _ Hp) as Hel. rewrite Forall_forall in Hel. apply Hel. destruct (csr_okb_spec _ _ _ v (dc_csr _ _ _ _ Hp) ltac:(lia)) as (a & b & Ha & Hb & _).
        rewrite (csr_row_slice _ _ _ a b Ha Hb) in Hd'. by eapply elem_of_slice.
      * pose proof (IH3 row d Hrest Hd). lia.
Qed.

Lemma Forall3_left {A B C} (P : A → B → C → Prop) (Q : A → Prop) l k k' : (∀ x y z, P x y z → Q x) → Forall3 P l k k' → Forall Q l.
Proof. intros HPQ. induction 1; constructor; eauto. Qed.

Lemma concat_shorter (l k : list (list Z)) : Forall2 (λ x y, zlen x ≤ zlen y) l k → zlen (concat l) ≤ zlen (concat k).
Proof. induction 1; [done|]. cbn. rewrite !zlen_app. lia. Qed.

(** Rules are not empty, so no row is longer than its expansion. *)
Lemma merged_shorter n qs gs ess :
  0 ≤ n → Forall3 (decompresses n) qs gs ess →
  zlen (concat (vertex_rows n 0 qs ++ rule_rows n 0 qs)) ≤ zlen (concat (concat gs ++ concat ess)).
Proof.
  intros Hn HF. set (G := replicate (Z.to_nat n) [] ++ rule_rows n 0 qs).
  assert (∀ x, n ≤ x → G !z x = rule_rows n 0 qs !z (x - n)) as HG.
  { intros x Hx. unfold G. rewrite zlookup_app_r, zlen_replicate by (rewrite zlen_replicate; lia). f_equal. lia. }
  destruct (merged_expand n G Hn 0 qs gs ess ltac:(lia) HF) as [H1 H2].
  { intros x Hx. rewrite HG by lia. f_equal. lia. }
  apply concat_shorter. eapply Forall2_impl; [exact (Forall2_app H1 H2)|]. intros row e [k Hd].
  destruct (merged_rules n 0 qs gs ess ltac:(lia) HF) as (_ & Hne & _). apply derives_length in Hd; [unfold zlen; lia|].
  intros x r Hx Hr. rewrite HG in Hr by done. apply Hne. by eapply zlookup_elem.
Qed.

Lemma Forall3_drop {A B C} (P : A → B → C → Prop) l k k' i : Forall3 P l k k' → Forall3 P (drop i l) (drop i k) (drop i k').
Proof. intros H. revert i. induction H; intros [|i]; cbn; try constructor; auto. Qed.

Section parts.
Context (ps : list part) (gs ess : list (list (list Z))).
Local Abbreviation n := (total pvertices ps).
Local Abbreviation rc := (total prules ps).
Context (HF : Forall3 (decompresses n) ps gs ess).

Lemma parts_counts : Forall (λ p, 0 ≤ pvertices p ∧ 0 ≤ prules p) ps.
Proof using HF.
  eapply Forall3_left; [|exact HF]. intros p g es Hp. rewrite (dc_vertices _ _ _ _ Hp), (dc_rules _ _ _ _ Hp). split; apply zlen_nonneg.
Qed.

Lemma parts_ok : Forall (part_ok n rc) ps.
Proof using HF.
  eapply Forall3_left; [|exact HF]. intros p g es [Hcsr Hv Hr Hel _ _ _]. pose proof (zlen_nonneg g). pose proof (zlen_nonneg es). split; (done || lia).
Qed.

Lemma merged_vertices : 0 ≤ n.
Proof using HF. apply total_nonneg. intros p Hp. pose proof parts_counts as Hc. rewrite Forall_forall in Hc. by apply Hc. Qed.

Lemma zlen_merged : zlen (vertex_rows n 0 ps) = n ∧ zlen (rule_rows n 0 ps) = rc.
Proof using HF. pose proof parts_counts as Hc. rewrite Forall_forall in Hc. split; [apply zlen_vertex_rows|apply zlen_rule_rows]; intros p Hp; by apply Hc. Qed.

Lemma merged_holds : holds_parts n (merged ps) 0 ps.
Proof using HF.
  intros x Hx. destruct zlen_merged as [Hv _]. unfold merged. rewrite zlookup_app_r by lia. f_equal. lia.
Qed.

(** Every row of the merged graph expands to its row of the parts. *)
Lemma merged_rows v l : (concat gs ++ concat ess) !z v = Some l → ∃ k, derives (merged ps) n (csr_row (offsets (merged ps)) (concat (merged ps)) v) l k.
Proof using HF.
  intros Hl. destruct (merged_expand n (merged ps) merged_vertices 0 ps gs ess ltac:(lia) HF merged_holds) as [H1 H2].
  pose proof (Forall2_app H1 H2) as H. fold (merged ps) in H. pose proof (zlookup_range _ _ _ Hl) as Hr. rewrite zlookup_nonneg in Hl by lia.
  destruct (Forall2_lookup_r _ _ _ _ _ H Hl) as (row & Hrow & Hd). assert (merged ps !z v = Some row) as Hz by (by rewrite zlookup_nonneg by lia).
  by rewrite (csr_row_offsets _ _ _ Hz).
Qed.

Lemma merged_filter_input :
  n + rc ≤ INT_MAX → zlen (concat (concat gs ++ concat ess)) ≤ INT_MAX →
  filter_input (offsets (merged ps)) (concat (merged ps)) n rc (concat gs ++ concat ess).
Proof using HF.
  intros Hmax Hsize. destruct zlen_merged as [Hv Hr]. assert (zlen (merged ps) = n + rc) as Hlen by (unfold merged; rewrite zlen_app; lia).
  pose proof merged_vertices. pose proof (parts_rules _ _ _ _ HF) as Hrc.
  destruct (merged_rules n 0 ps gs ess ltac:(lia) HF) as (Hused & Hne & Hrange). fold (merged ps) in Hused, Hrange.
  split; try done.
  - rewrite <-Hlen. apply csr_okb_offsets.
  - apply Forall_forall. intros d (row & Hd & Hrow)%elem_of_concat. specialize (Hrange row d Hrow Hd). lia.
  - destruct (merged_expand n (merged ps) ltac:(lia) 0 ps gs ess ltac:(lia) HF merged_holds) as [H1%Forall2_length H2%Forall2_length].
    rewrite zlen_app. unfold zlen in *. lia.
  - rewrite <-Hlen, csr_rows_offsets. apply merged_rows.
  - intros r Hrr. destruct (zlookup_total (merged ps) r ltac:(lia)) as [row Hrow]. split.
    + rewrite (csr_row_offsets _ _ _ Hrow). apply Hne. unfold merged in Hrow. rewrite zlookup_app_r in Hrow by lia. by eapply zlookup_elem.
    + destruct (Hused (r - n) ltac:(lia)) as (row' & (v & Hv')%list_elem_of_lookup & Hin). assert (merged ps !z Z.of_nat v = Some row') as Hz by (rewrite zlookup_nonneg, Nat2Z.id by lia; done).
      exists (Z.of_nat v). split; [pose proof (zlookup_range _ _ _ Hz); lia|]. rewrite (csr_row_offsets _ _ _ Hz). by replace (n + 0 + (r - n)) with r in Hin by lia.
Qed.

(** ** Any first value of the counter *)

Section from.
Context (i0 : Z) (Hi0 : 0 ≤ i0).
Local Abbreviation qs := (drop (Z.to_nat i0) ps).
Local Abbreviation G := (merged_from i0 ps).

Lemma from_split : 0 ≤ total pvertices qs ≤ n ∧ 0 ≤ total prules qs ≤ rc ∧
  zlen (vertex_rows n 0 qs) = total pvertices qs ∧ zlen (rule_rows n 0 qs) = total prules qs.
Proof using HF.
  destruct (totals_from ps parts_ok (Z.to_nat i0)) as [Hv Hr]. pose proof parts_counts as Hc. rewrite Forall_forall in Hc.
  assert (∀ p, p ∈ qs → p ∈ ps) as Hd by (intros p Hp; rewrite <-(take_drop (Z.to_nat i0) ps); apply elem_of_app; by right).
  split_and!; try lia; [apply zlen_vertex_rows|apply zlen_rule_rows]; intros p Hp; by apply Hc, Hd.
Qed.

Lemma from_size : zlen (concat G) ≤ zlen (concat (concat gs ++ concat ess)).
Proof using HF.
  assert (∀ m, concat (blank m) = []) as Hb by (intros m; unfold blank; induction (Z.to_nat m); done).
  pose proof (merged_shorter n qs _ _ merged_vertices (Forall3_drop _ _ _ _ (Z.to_nat i0) HF)) as Hs. unfold merged_from, merged_upto.
  rewrite !concat_app, !Hb, !app_nil_l, app_nil_r, <-concat_app. etrans; [exact Hs|].
  assert (∀ l : list (list (list Z)), zlen (concat (concat (drop (Z.to_nat i0) l))) ≤ zlen (concat (concat l))) as Hdrop.
  { intros l. rewrite <-(take_drop (Z.to_nat i0) l) at 2. rewrite !concat_app, zlen_app. pose proof (zlen_nonneg (concat (concat (take (Z.to_nat i0) l)))). lia. }
  rewrite !concat_app, !zlen_app. pose proof (Hdrop gs). pose proof (Hdrop ess). lia.
Qed.

(** The vertex rows of the merged parts come first, the other ones are empty. *)
Lemma from_rows v : 0 ≤ v < n → ∃ row k, G !z v = Some row ∧ derives G n row (default [] (concat (drop (Z.to_nat i0) gs) !z v)) k.
Proof using HF.
  intros Hv. destruct from_split as (Htv & Htr & Hlv & Hlr).
  destruct (merged_expand n G merged_vertices 0 qs _ _ ltac:(lia) (Forall3_drop _ _ _ _ (Z.to_nat i0) HF)) as [Hd _].
  { intros x Hx. unfold merged_from, merged_upto. rewrite zlookup_app_r, zlookup_app_r, zlookup_app_l by (rewrite ?zlen_blank; lia).
    f_equal. rewrite zlen_blank by lia. lia. }
  pose proof (zlen_Forall2 _ _ _ Hd) as Hlen. unfold merged_from, merged_upto at 1. destruct (decide (v < total pvertices qs)).
  - rewrite zlookup_app_l by lia. destruct (zlookup_total (vertex_rows n 0 qs) v ltac:(lia)) as [row Hrow].
    destruct (zlookup_total (concat (drop (Z.to_nat i0) gs)) v ltac:(lia)) as [e He]. rewrite He. cbn [default].
    rewrite zlookup_nonneg in Hrow, He by lia. destruct (Forall2_lookup_lr _ _ _ _ _ _ Hd Hrow He) as [k Hk].
    exists row, k. rewrite zlookup_nonneg by lia. done.
  - rewrite (proj2 (zlookup_None (concat _) v)) by (right; lia). exists [], 0%nat. split; [|constructor].
    rewrite zlookup_app_r, zlookup_app_l by (rewrite ?zlen_blank; lia). unfold blank. apply zlookup_replicate. lia.
Qed.
End from.

Lemma merge_lossless_ok :
  n + rc ≤ INT_MAX → zlen (concat (concat gs ++ concat ess)) ≤ INT_MAX →
  ∃ vlist elist, merge_ 0 (pvlist <$> ps) (pelist <$> ps) (pvertices <$> ps) (prules <$> ps) = Ok (vlist, elist, n, rc) ∧
    filter_input vlist elist n rc (concat gs ++ concat ess).
Proof using HF.
  intros Hmax Hsize. exists (offsets (merged ps)), (concat (merged ps)). split; [|by apply merged_filter_input].
  rewrite <-merged_from_0. apply merge_ok; [apply parts_ok|done|done|]. pose proof (from_size 0). lia.
Qed.
End parts.

(** ** Results *)

(** C9: what merging does for every first value [i0] of the counter of its part loop,
    which the code does not initialise.  Take parts that decompress to some rows each, with
    rules that are used and not empty, and whose expansions together fit in an [int].  If
    [i0] is negative the parts are read out of bounds.  Otherwise [merge_] returns, without
    an error, a graph whose rows expand to the rows of the parts from [i0] on, in order, and
    to nothing after them.  So merging loses nothing if [i0] is 0: then the result
    decompresses to the rows of all parts, and meets the preconditions of the filter. *)
Theorem merge_lossless i0 ps gs ess :
  Forall3 (decompresses (total pvertices ps)) ps gs ess →
  total pvertices ps + total prules ps ≤ INT_MAX → zlen (concat (concat gs ++ concat ess)) ≤ INT_MAX →
  (i0 < 0 → merge_ i0 (pvlist <$> ps) (pelist <$> ps) (pvertices <$> ps) (prules <$> ps) = Err OutOfBounds) ∧
  (0 ≤ i0 → ∃ vlist elist, merge_ i0 (pvlist <$> ps) (pelist <$> ps) (pvertices <$> ps) (prules <$> ps) =
      Ok (vlist, elist, total pvertices ps, total prules ps) ∧
    csr_okb vlist elist (total pvertices ps + total prules ps) = true ∧
    (∀ v, 0 ≤ v < total pvertices ps → ∃ k,
      derives (csr_rows vlist elist (total pvertices ps + total prules ps)) (total pvertices ps) (csr_row vlist elist v)
        (default [] (concat (drop (Z.to_nat i0) gs) !z v)) k) ∧
    (i0 = 0 → filter_input vlist elist (total pvertices ps) (total prules ps) (concat gs ++ concat ess))).
Proof.
  intros HF Hmax Hsize. pose proof (parts_ok ps gs ess HF) as Hok. split; [by apply merge_negative|]. intros Hi0.
  pose proof (zlen_merged_from ps Hok i0) as Hlen. pose proof (from_size ps gs ess HF i0) as Hs.
  exists (offsets (merged_from i0 ps)), (concat (merged_from i0 ps)). split_and!.
  - apply merge_ok; (done || lia).
  - rewrite <-Hlen. apply csr_okb_offsets.
  - intros v Hv. destruct (from_rows ps gs ess HF i0 v Hv) as (row & k & Hrow & Hd). exists k.
    by rewrite <-Hlen, csr_rows_offsets, (csr_row_offsets _ _ _ Hrow).
  - intros ->. rewrite merged_from_0. by apply (merged_filter_input ps gs ess HF).
Qed.

(** ** Two parts *)

(** Three vertices in two parts; each part has one rule, number 3 in both. *)
Definition two_parts : list part := [Part [0; 1; 3; 5] [3; 3; 0; 0; 1] 2 1; Part [0; 2; 4] [3; 3; 1; 2] 1 1].

(** Expansions that evaluation finds. *)
Lemma decompresses_expand fuel n p g es :
  csr_okb (pvlist p) (pelist p) (pvertices p + prules p) = true → pvertices p = zlen g → prules p = zlen es → Forall (λ d, 0 ≤ d < n + prules p) (pelist p) →
  (λ v, fst <$> expand fuel (rules_of n p) n (csr_row (pvlist p) (pelist p) v)) <$> seqZ 0 (zlen (g ++ es)) = Some <$> (g ++ es) →
  (∀ j, 0 ≤ j < prules p → csr_row (pvlist p) (pelist p) (j + pvertices p) ≠ [] ∧ ∃ v, 0 ≤ v < pvertices p + prules p ∧ n + j ∈ csr_row (pvlist p) (pelist p) v) →
  decompresses n p g es.
Proof.
  intros Hok Hv Hr Hel Hex Hused. pose proof (expand_rows_sound _ _ _ _ _ _ Hex) as Hd. pose proof (zlen_nonneg g). split; try done.
  - intros v row Hrow. apply Hd. rewrite zlookup_app_l; [done|]. apply zlookup_range in Hrow. lia.
  - intros j e He. apply Hd. pose proof (zlookup_range _ _ _ He). rewrite Hv, zlookup_app_r by lia. by replace (j + zlen g - zlen g) with j by lia.
Qed.

Lemma two_parts_decompress : Forall3 (decompresses 3) two_parts [[[0; 1]; [0; 1; 0]]; [[1; 2; 1; 2]]] [[[0; 1]]; [[1; 2]]].
Proof.
  apply Forall3_cons; [|apply Forall3_cons; [|apply Forall3_nil]]; apply (decompresses_expand 10); try (vm_compute; done); try (by vm_compute; repeat constructor).
  all: intros j Hj; cbn in Hj; assert (j = 0) as -> by lia; (split; [done|]); exists 0; (split; [cbn; lia|]); by apply (zlookup_elem _ 0).
Qed.

(** With the counter at 1 the rows of the first part are missing. *)
Lemma merge_lossless_witness :
  ∃ vlist elist, merge_ 1 (pvlist <$> two_parts) (pelist <$> two_parts) (pvertices <$> two_parts) (prules <$> two_parts) =
      Ok (vlist, elist, 3, 2) ∧
    csr_okb vlist elist (3 + 2) = true ∧
    (∀ v, 0 ≤ v < 3 → ∃ k, derives (csr_rows vlist elist (3 + 2)) 3 (csr_row vlist elist v) (default [] ([[1; 2; 1; 2]] !z v)) k) ∧
    (1 = 0 → filter_input vlist elist 3 2 (concat [[[0; 1]; [0; 1; 0]]; [[1; 2; 1; 2]]] ++ concat [[[0; 1]]; [[1; 2]]])).
Proof. apply (merge_lossless 1 two_parts [[[0; 1]; [0; 1; 0]]; [[1; 2; 1; 2]]] [[[0; 1]]; [[1; 2]]]); [apply two_parts_decompress|by vm_compute..]. Defined.
