(* ===== verification/RPipeline.v ===== *)
(** * The serial pipeline

    What the script for Re-Pair calls one after the other: [compress_csr] of
    [compress.h], [filter_csr] of [filter.h] and [check_csr] of [check.h].  The output
    of the compressor meets the preconditions of the filter: every rule is used, and
    no expansion is longer than the graph; the output of the filter passes the
    check. *)

From stdpp Require Import gmap.
From S2P Require Import Prelude Csr Grammar Check Filter Merge MergeLossless RHash RMap RRepair RText RTurn RReplace RRounds RLossless.

(** ** Use of the rules *)

Definition in_rules (x : Z) (ps : list pair) : Prop := ∃ p, p ∈ ps ∧ (x = p.1 ∨ x = p.2).

Lemma repaired_used n l ps l' x : repaired n l ps l' → x ∈ l → x ∈ l' ∨ in_rules x ps.
Proof.
  induction 1 as [n l _|n l p l1 ps l' Hp _ IH]; intros Hx; [by left|]. rewrite <-(rp_unfold _ _ _ _ Hp) in Hx.
  assert (x ∈ l1 ∨ x = p.1 ∨ x = p.2) as [Hx1|Hx1].
  { unfold unfold_new in Hx. apply list_elem_of_bind in Hx as (y & Hxy & Hy). case_decide; [|apply list_elem_of_singleton in Hxy; subst; by left].
    apply elem_of_cons in Hxy as [->| ->%list_elem_of_singleton]; tauto. }
  - destruct (IH Hx1) as [?|(q & Hq & ?)]; [by left|]. right. exists q. split; [by right|done].
  - right. exists p. split; [by left|done].
Qed.

(** Every new symbol occurs in a row or in a rule. *)
Lemma repaired_rule_used n l ps l' j : repaired n l ps l' → 0 ≤ j < zlen ps → n + j ∈ l' ∨ in_rules (n + j) ps.
Proof.
  intros Hr. revert j. induction Hr as [n l _|n l p l1 ps l' Hp Hr IH]; intros j Hj; [change (zlen []) with 0 in Hj; lia|]. rewrite zlen_cons in Hj.
  assert (n + j ∈ l' ∨ in_rules (n + j) ps) as [?|(q & ? & ?)]; [|by left|right; exists q; split; [by right|done]].
  destruct (decide (j = 0)) as [->|].
  - rewrite Z.add_0_r. eapply repaired_used; [exact Hr|by eapply replaces_new].
  - replace (n + j) with (n + 1 + (j - 1)) by lia. apply IH. lia.
Qed.

Lemma zlen_unfold n b c l : zlen (unfold_new n b c l) = zlen l + occurs n l.
Proof.
  induction l as [|x l IH]; [done|]. rewrite unfold_cons, zlen_app, occurs_cons, zlen_cons, IH. case_decide; [change (zlen [b; c]) with 2|change (zlen [x]) with 1]; lia.
Qed.

Lemma occurs_elem x l : x ∈ l → 1 ≤ occurs x l.
Proof.
  intros (l1 & l2 & ->)%list_elem_of_split. rewrite occurs_app, occurs_cons, decide_True by done. pose proof (occurs_nonneg x l1). pose proof (occurs_nonneg x l2). lia.
Qed.

(** There are fewer rules than symbols. *)
Lemma repaired_count n l ps l' : repaired n l ps l' → zlen ps ≤ zlen l.
Proof.
  induction 1 as [n l _|n l p l1 ps l' Hp _ IH]; [apply zlen_nonneg|]. pose proof (occurs_elem _ _ (replaces_new _ _ _ _ Hp)).
  rewrite <-(rp_unfold _ _ _ _ Hp), zlen_unfold, zlen_cons. lia.
Qed.

(** ** The output as a part *)

Section output.
Context (m : Z) (g : list (list Z)) (ps : list pair) (g' : list (list Z)).
Local Abbreviation G := (out_graph m g' ps).
Context (Hg : serial_part m g) (Hrep : repaired (2 * m) (with_splits m g) ps (with_splits m g')).
Context (Hra : rows_after m (2 * m) g ps g').

Lemma out_length : zlen G = zlen g + zlen ps.
Proof using Hra. unfold out_graph. rewrite zlen_app, !zlen_fmap, (ra_len _ _ _ _ _ Hra). done. Qed.

Lemma out_in_range x n : row_ok m n x → n ≤ 2 * m + zlen ps → 0 ≤ out_symbol m x < m + zlen ps.
Proof using Hg.
  pose proof (part_nonneg _ _ Hg). intros [[?|?] ?] Hn. all: unfold out_symbol; destruct (Z.ltb_spec x m); pose proof (zlen_nonneg ps); lia.
Qed.

Lemma out_entries : Forall (λ x, 0 ≤ x < m + zlen ps) (concat G).
Proof using Hg Hra.
  apply Forall_concat. unfold out_graph. apply Forall_app. split; apply Forall_fmap.
  - eapply Forall_impl; [exact (ra_rows _ _ _ _ _ Hra)|]. intros r Hr. cbn. apply Forall_fmap. eapply Forall_impl; [exact Hr|]. intros x Hx. cbn. by eapply out_in_range.
  - apply Forall_forall. intros p (j & Hz)%elem_zlookup. cbn.
    pose proof (zlookup_range _ _ _ Hz). pose proof (part_nonneg _ _ Hg). destruct (ra_rules _ _ _ _ _ Hra _ _ Hz) as [Hb Hc]. unfold out_rule.
    rewrite !(out_convert m (2 * m + j)) by done. repeat apply Forall_cons_2; [..|constructor]; eapply out_in_range; (done || lia).
Qed.

Lemma out_rule_row j p : ps !z j = Some p → G !z (zlen g + j) = Some (out_rule m p).
Proof using Hra.
  intros Hj. pose proof (zlookup_range _ _ _ Hj). pose proof (ra_len _ _ _ _ _ Hra). unfold out_graph. rewrite zlookup_app_r by (rewrite zlen_fmap; lia).
  rewrite zlookup_fmap, zlen_fmap. replace (zlen g + j - zlen g') with j by lia. by rewrite Hj.
Qed.

(** A symbol that occurs in the rows or the rules occurs in the output. *)
Lemma out_used x : 2 * m ≤ x → x ∈ with_splits m g' ∨ in_rules x ps → ∃ v, 0 ≤ v < zlen g + zlen ps ∧ x - m ∈ csr_row (offsets G) (concat G) v.
Proof using Hg Hra.
  pose proof (part_nonneg _ _ Hg). intros Hx Hin. assert (out_symbol m x = x - m) as Ho by (unfold out_symbol; destruct (Z.ltb_spec x m); lia).
  pose proof (zlen_nonneg ps). pose proof (zlen_nonneg g). pose proof (sp_rows _ _ Hg). pose proof (ra_len _ _ _ _ _ Hra) as Hl. destruct Hin as [Hin|(p & (j & Hz)%elem_zlookup & Hp)].
  - apply elem_with_splits in Hin as [?|(r & (v & Hz)%elem_zlookup & Hr)]; [lia|].
    pose proof (zlookup_range _ _ _ Hz). exists v. split; [lia|]. assert (G !z v = Some (out_symbol m <$> r)) as HGv.
    { unfold out_graph. rewrite zlookup_app_l by (rewrite zlen_fmap; lia). by rewrite zlookup_fmap, Hz. }
    rewrite (csr_row_offsets _ _ _ HGv), <-Ho. by apply list_elem_of_fmap_2.
  - pose proof (zlookup_range _ _ _ Hz). exists (zlen g + j). split; [lia|].
    rewrite (csr_row_offsets _ _ _ (out_rule_row _ _ Hz)). destruct (ra_rules _ _ _ _ _ Hra _ _ Hz) as [Hb Hc]. unfold out_rule.
    rewrite !(out_convert m (2 * m + j)) by done. rewrite <-Ho. destruct Hp as [-> | ->]; [by left|right; by left].
Qed.

Lemma out_rule_used j : 0 ≤ j < zlen ps → ∃ v, 0 ≤ v < zlen g + zlen ps ∧ m + j ∈ csr_row (offsets G) (concat G) v.
Proof using Hg Hra Hrep.
  intros Hj. destruct (out_used (2 * m + j)) as (v & Hv & Hin); [lia|by eapply repaired_rule_used|]. exists v. split; [done|]. by replace (2 * m + j - m) with (m + j) in Hin by lia.
Qed.

(** Rules refer to vertices and to earlier rules. *)
Lemma out_ordered j p x : ps !z j = Some p → x ∈ out_rule m p → x < m + j.
Proof using Hg Hra.
  intros Hp Hx. destruct (ra_rules _ _ _ _ _ Hra _ _ Hp) as [Hb Hc]. pose proof (part_nonneg _ _ Hg). pose proof (zlookup_range _ _ _ Hp). unfold out_rule in Hx. rewrite !(out_convert m (2 * m + j)) in Hx by done.
  assert (∀ y, row_ok m (2 * m + j) y → out_symbol m y < m + j) as Ho. { intros y [[?|?] ?]; unfold out_symbol; destruct (Z.ltb_spec y m); lia. }
  apply elem_of_cons in Hx as [->| ->%list_elem_of_singleton]; by apply Ho.
Qed.

Local Abbreviation P := (Part (offsets G) (concat G) (zlen g) (zlen ps)).

Lemma out_rules_of : holds_rules (rules_of m P) m (2 * m) ps.
Proof using Hg Hra.
  intros j p Hj. pose proof (zlookup_range _ _ _ Hj). pose proof (part_nonneg _ _ Hg). unfold rules_of. rewrite zlookup_app_r by (rewrite zlen_replicate; lia).
  rewrite zlen_replicate, zlookup_fmap. replace (2 * m - m + j - Z.of_nat (Z.to_nat m)) with j by lia. rewrite zlookup_seqZ by (cbn; lia). cbn [fmap option_fmap option_map pvlist pelist pvertices].
  by rewrite (csr_row_offsets _ _ (out_rule m p)) by (replace (0 + j + zlen g) with (zlen g + j) by lia; by apply out_rule_row).
Qed.

(** No expansion of a rule is longer than the longest row. *)
Lemma out_sizes R B :
  Forall (λ r, zlen r ≤ B) g → holds_rules R m (2 * m) ps → ∃ es, zlen es = zlen ps ∧ ∀ j e, es !z j = Some e → zlen e ≤ B ∧ ∃ k, derives R m [m + j] e k.
Proof using Hg Hra.
  intros HB Hrules. destruct (ra_sizes _ _ _ _ _ Hra R B Hrules) as (es & Hes & Hd).
  - apply Forall_forall. intros r Hr. destruct (input_row m g Hg r Hr) as [E He]. exists r, 0%nat. rewrite E. split; [done|]. rewrite Forall_forall in HB. by apply HB.
  - exists es. split; [done|]. intros j e Hj. replace (m + j) with (2 * m - m + j) by lia. by apply Hd.
Qed.

(** The output decompresses to the rows of the input. *)
Lemma out_decompresses B : Forall (λ r, zlen r ≤ B) g → ∃ es, decompresses m P g es ∧ Forall (λ e, zlen e ≤ B) es.
Proof using All.
  intros HB. destruct (out_sizes _ B HB out_rules_of) as (es & Hes & Hd). exists es. pose proof (part_nonneg _ _ Hg). split.
  - split; cbn [pvlist pelist pvertices prules]; try done.
    + rewrite <-out_length. apply csr_okb_offsets.
    + apply out_entries.
    + intros v row Hv. apply (out_expands m g Hg); [done|apply out_rules_of|done].
    + intros j e Hj. destruct (Hd j e Hj) as [_ [k Hk]]. pose proof (zlookup_range _ _ _ Hj). apply derives_rule_inv in Hk as (row & k' & Hrow & Hk & _); [|lia].
      apply rules_of_lookup in Hrow as [_ ->]; [|lia..]. exists k'. cbn in Hk. by replace (m + j - m + zlen g) with (j + zlen g) in Hk by lia.
    + intros j Hj. split; [|by apply out_rule_used]. destruct (zlookup_total ps j Hj) as [p Hp]. rewrite Z.add_comm. by rewrite (csr_row_offsets _ _ _ (out_rule_row _ _ Hp)).
  - apply Forall_forall. intros e (j & Hj)%elem_zlookup. by apply (Hd j e Hj).
Qed.
End output.

(** ** The output as the input of the filter *)

Lemma total_size (es : list (list Z)) B : Forall (λ e, zlen e ≤ B) es → zlen (concat es) ≤ B * zlen es.
Proof. induction 1; [cbn; by rewrite Z.mul_0_r|]. cbn. rewrite zlen_app, zlen_cons. lia. Qed.

Lemma zlen_row_le (g : list (list Z)) : Forall (λ r, zlen r ≤ zlen (concat g)) g.
Proof.
  apply Forall_forall. intros r (g1 & g2 & ->)%list_elem_of_split. rewrite concat_app. cbn. rewrite !zlen_app. pose proof (zlen_nonneg (concat g1)). pose proof (zlen_nonneg (concat g2)). lia.
Qed.

(** One part that is the whole graph. *)
Lemma decompresses_filter_input p g es :
  decompresses (pvertices p) p g es → pvertices p + prules p ≤ INT_MAX → zlen (concat (g ++ es)) ≤ INT_MAX →
  filter_input (pvlist p) (pelist p) (pvertices p) (prules p) (g ++ es).
Proof.
  intros [Hcsr Hv Hr Hel Hrows Hex Hused] Hint Hsize. pose proof (zlen_nonneg g). pose proof (zlen_nonneg es). set (N := pvertices p) in *. set (R := prules p) in *.
  assert (∀ xs l k, derives (rules_of N p) N xs l k → derives (csr_rows (pvlist p) (pelist p) (N + R)) N xs l k) as Hd.
  { intros xs l k Hk. rewrite <-(list_fmap_id xs). apply (derives_rename (rules_of N p) _ N (λ _, True) id); try done; [|by apply Forall_forall].
    intros x row Hx _ Hrow. rewrite list_fmap_id. split; [by apply Forall_forall|]. destruct (rules_of_lookup N p x row ltac:(lia) Hx Hrow) as [Hj ->]. fold N. fold R in Hj.
    unfold id. rewrite zlookup_csr_rows by lia. do 2 f_equal. lia. }
  split; try done; try lia.
  - rewrite zlen_app. lia.
  - intros v l Hl. pose proof (zlookup_range _ _ _ Hl) as Hvr. destruct (decide (v < zlen g)).
    + rewrite zlookup_app_l in Hl by lia. destruct (Hrows v l Hl) as [k Hk]. eauto.
    + rewrite zlookup_app_r in Hl by lia. destruct (Hex _ _ Hl) as [k Hk]. replace (v - zlen g + N) with v in Hk by lia. eauto.
  - intros r Hrr. destruct (Hused (r - N) ltac:(lia)) as [H1 H2]. replace (r - N + N) with r in H1 by lia. by replace (N + (r - N)) with r in H2 by lia.
Qed.

Lemma out_filter_input g ps g' :
  serial_input g → repaired (2 * zlen g) (with_splits (zlen g) g) ps (with_splits (zlen g) g') → rows_after (zlen g) (2 * zlen g) g ps g' →
  let G := out_graph (zlen g) g' ps in ∃ es, filter_input (offsets G) (concat G) (zlen g) (zlen ps) (g ++ es).
Proof.
  intros Hg Hrep Hra G. destruct (out_decompresses _ g ps g' (serial_input_part g Hg) Hrep Hra _ (zlen_row_le g)) as (es & Hd & Hes). exists es.
  pose proof (zlen_nonneg g). pose proof (zlen_nonneg ps). pose proof (si_size _ Hg) as Hsz. pose proof (zlen_nonneg (concat g)).
  pose proof (repaired_count _ _ _ _ Hrep) as Hcnt. rewrite zlen_with_splits in Hcnt.
  apply (decompresses_filter_input (Part _ _ _ _) _ _ Hd); cbn [pvertices prules]; [unfold INT_MAX; lia|].
  rewrite concat_app, zlen_app. pose proof (total_size es (zlen (concat g)) Hes) as Ht. rewrite <-(dc_rules _ _ _ _ Hd) in Ht. cbn [prules] in Ht.
  assert (zlen (concat g) * zlen ps ≤ 43690 * 43690) by (apply Z.mul_le_mono_nonneg; lia). unfold INT_MAX. lia.
Qed.

(** ** Results *)

(** C19: bounds of the output.  There are at most as many rules as symbols of the
    text; every entry is the number of a vertex or of a rule, every rule has two
    entries, which are vertices or earlier rules, and every rule is used. *)
Theorem compress_csr_bounds fuel junk g :
  serial_input g → zlen g + zlen (concat g) < Z.of_nat fuel →
  ∃ vlist elist R, compress_csr fuel junk (offsets g) (concat g) (zlen g) = Ok (vlist, elist, zlen g, R) ∧
    0 ≤ R ≤ zlen g + zlen (concat g) ∧ Forall (λ x, 0 ≤ x < zlen g + R) elist ∧
    ∀ r, zlen g ≤ r < zlen g + R → zlen (csr_row vlist elist r) = 2 ∧
      (∀ x, x ∈ csr_row vlist elist r → x < r) ∧ ∃ v, 0 ≤ v < zlen g + R ∧ r ∈ csr_row vlist elist v.
Proof.
  intros Hg Hf. destruct (compress_csr_run fuel junk g Hg Hf) as (ps & g' & Hrun & Hrep & Hra & _). set (G := out_graph (zlen g) g' ps) in *.
  exists (offsets G), (concat G), (zlen ps). pose proof (repaired_count _ _ _ _ Hrep) as Hc. rewrite zlen_with_splits in Hc. pose proof (zlen_nonneg ps).
  pose proof (serial_input_part g Hg) as Hpart. split_and!; [done|done|done|by apply (out_entries _ g)|]. intros r Hr. destruct (zlookup_total ps (r - zlen g)) as [p Hp]; [lia|].
  pose proof (out_rule_row _ g ps g' Hra _ _ Hp) as Hrow. replace (zlen g + (r - zlen g)) with r in Hrow by lia. fold G in Hrow. rewrite (csr_row_offsets _ _ _ Hrow).
  split_and!; [done| |].
  - intros x Hx. pose proof (out_ordered _ g ps g' Hpart Hra _ _ x Hp Hx). lia.
  - destruct (out_rule_used _ g ps g' Hpart Hrep Hra (r - zlen g)) as (v & Hv & Hin); [lia|]. exists v. split; [done|]. by replace (zlen g + (r - zlen g)) with r in Hin by lia.
Qed.

Lemma compress_csr_bounds_witness :
  ∃ vlist elist R, compress_csr 20 7 (offsets serial_sample) (concat serial_sample) 4 = Ok (vlist, elist, 4, R) ∧
    0 ≤ R ≤ 4 + 9 ∧ Forall (λ x, 0 ≤ x < 4 + R) elist ∧
    ∀ r, 4 ≤ r < 4 + R → zlen (csr_row vlist elist r) = 2 ∧
      (∀ x, x ∈ csr_row vlist elist r → x < r) ∧ ∃ v, 0 ≤ v < 4 + R ∧ r ∈ csr_row vlist elist v.
Proof. apply (compress_csr_bounds 20 7 serial_sample); [apply serial_sample_ok|reflexivity]. Defined.

(** C6: the serial pipeline.  For every graph the compressor handles, compressing,
    filtering with any threshold and checking the result against the graph return,
    and the check answers [true]. *)
Theorem compress_filter_check fuel junk threshold g :
  serial_input g → zlen g + zlen (concat g) < Z.of_nat fuel →
  ∃ vlist elist R vlist' elist' R',
    compress_csr fuel junk (offsets g) (concat g) (zlen g) = Ok (vlist, elist, zlen g, R) ∧
    filter_csr vlist elist (zlen g) R threshold = Ok (vlist', elist', zlen g, R') ∧ R' ≤ R ∧
    ∃ N : nat, ∀ fuel', (N ≤ fuel')%nat → check_csr fuel' (offsets g) (concat g) vlist' elist' (zlen g) R' = Ok true.
Proof.
  intros Hg Hf. destruct (compress_csr_run fuel junk g Hg Hf) as (ps & g' & Hrun & Hrep & Hra & _).
  destruct (out_filter_input g ps g' Hg Hrep Hra) as (es & Hin). pose proof (zlen_nonneg g) as Hm.
  destruct (filter_csr_ok _ _ _ _ threshold _ Hin) as (vl & el & R' & Hfil & HR & Hok & Hd).
  exists (offsets (out_graph (zlen g) g' ps)), (concat (out_graph (zlen g) g' ps)), (zlen ps), vl, el, R'. split_and!; [done|done|lia|].
  apply lossless_passes; [lia|done|]. intros v row Hv. pose proof (zlookup_range _ _ _ Hv). apply Hd; [lia|]. by rewrite zlookup_app_l by lia.
Qed.

Lemma compress_filter_check_witness :
  ∃ vlist elist R vlist' elist' R',
    compress_csr 20 7 (offsets serial_sample) (concat serial_sample) 4 = Ok (vlist, elist, 4, R) ∧
    filter_csr vlist elist 4 R 0 = Ok (vlist', elist', 4, R') ∧ R' ≤ R ∧
    ∃ N : nat, ∀ fuel', (N ≤ fuel')%nat → check_csr fuel' (offsets serial_sample) (concat serial_sample) vlist' elist' 4 R' = Ok true.
Proof. apply (compress_filter_check 20 7 0 serial_sample); [apply serial_sample_ok|reflexivity]. Defined.
