(* ===== verification/Laconic.v ===== *)
(** * Laconic, serial

    [Laconic_serial_compression.py]: a graph that is too large for one run of Re-Pair is
    read and compressed part by part; the parts are merged and filtered.  This file
    composes the models of [compress_csr], [merge_] and [filter_csr] as the script
    does.

    A [.npy] file is the list of its 64-bit words: 128 bytes of header, then the
    array. *)

From S2P Require Import Prelude Csr Grammar Check Filter Merge MergeLossless RMap RRepair RText RTurn RRounds RLossless RPipeline.

(** ** Reading arrays *)

(** [file.seek(8 * pos)], [np.fromfile(file, count)]: fewer elements at the end of the
    file, and all of them when [count] is negative. *)
Definition fromfile (file : list Z) (pos count : Z) : res (list Z) :=
  if pos <? 0 then Err OutOfBounds else
  let rest := drop (Z.to_nat pos) file in
  Ok (if count <? 0 then rest else take (Z.to_nat count) rest).

(** [elements[n]] of a numpy array: negative indices count from the end. *)
Definition py_get (elements : list Z) (n : Z) : res Z :=
  vget elements (if n <? 0 then zlen elements + n else n).

Definition read_nth_int64_element (file : list Z) (n : Z) : res Z :=
  let* elements := fromfile file 16 (n + 1) in
  py_get elements n.

Definition npy_get_num_int64_elements (file : list Z) : Z := zlen file - 16.

Definition read_range_from_npy (file : list Z) (start_index end_index : Z) : res (list Z) :=
  fromfile file (16 + start_index) (end_index - start_index + 1).

(** ** Operations *)

(** The arrays of part [i]; offsets are subtracted as [int64]. *)
Definition read_part (v_file e_file : list Z) (vertex_cnt tile i : Z) : res (list Z * list Z) :=
  let start := i * tile in
  let end_ := (i + 1) * tile in
  let end_ := if vertex_cnt <? end_ then vertex_cnt else end_ in
  let* v_start := read_nth_int64_element v_file start in
  let* v_end := read_nth_int64_element v_file end_ in
  let* vlist := read_range_from_npy v_file start end_ in
  let part_vlist := (λ x, wraps 64 (x - v_start)) <$> vlist in
  let* part_elist := read_range_from_npy e_file v_start v_end in
  Ok (part_vlist, part_elist).

(** [int(vertex_cnt / part_num) + 1]; the quotient of two integers below 2^53 rounds to
    an integer only when it is one.  The bindings narrow the arrays to 32 bits. *)
Definition Laconic_serial (fuel : nat) (junk : Z) (v_file e_file : list Z) (part_num : Z)
    : res (list (list Z) * list (list Z) * list Z * list Z) :=
  let vertex_cnt := npy_get_num_int64_elements v_file - 1 in
  if part_num =? 0 then Err ZeroDiv else
  let tile := Z.quot vertex_cnt part_num + 1 in
  for_up 0 part_num (λ i '(c_vlist, c_elist, c_vertex_cnt, c_rule_cnt),
    let* '(part_vlist, part_elist) := read_part v_file e_file vertex_cnt tile i in
    let* '(compressed_vlist, compressed_elist, new_vertex_cnt, new_rule_cnt) :=
      compress_csr fuel junk (np_narrow part_vlist) (np_narrow part_elist) vertex_cnt in
    Ok (c_vlist ++ [compressed_vlist], c_elist ++ [compressed_elist],
        c_vertex_cnt ++ [new_vertex_cnt], c_rule_cnt ++ [new_rule_cnt])) ([], [], [], []).

(** One dataset.  [i0] is the first value of the counter of [merge_]. *)
Definition laconic_main (fuel : nat) (junk i0 : Z) (v_file e_file : list Z) (part_num : Z)
    : res (list Z * list Z * Z * Z) :=
  let* '(compressed_vlist, compressed_elist, vertex_map, rule_map) :=
    Laconic_serial fuel junk v_file e_file part_num in
  let* '(compressed_vlist, compressed_elist, new_vertex_cnt, new_rule_cnt) :=
    merge_ i0 compressed_vlist compressed_elist vertex_map rule_map in
  filter_csr compressed_vlist compressed_elist new_vertex_cnt new_rule_cnt 0.

(** ** Arrays in files *)

Section files.
Context (header data : list Z) (Hh : zlen header = 16).

Lemma npy_num : npy_get_num_int64_elements (header ++ data) = zlen data.
Proof using Hh. unfold npy_get_num_int64_elements. rewrite zlen_app. lia. Qed.

Lemma fromfile_data pos count : 0 ≤ pos → 0 ≤ count → fromfile (header ++ data) (16 + pos) count = Ok (take (Z.to_nat count) (drop (Z.to_nat pos) data)).
Proof using Hh.
  intros Hp Hc. unfold fromfile. destruct (Z.ltb_spec (16 + pos) 0); [lia|]. destruct (Z.ltb_spec count 0); [lia|]. unfold zlen in Hh.
  rewrite drop_app_ge by lia. do 3 f_equal. lia.
Qed.

Lemma read_nth_data n x : data !z n = Some x → read_nth_int64_element (header ++ data) n = Ok x.
Proof using Hh.
  intros Hx. pose proof (zlookup_range _ _ _ Hx). unfold read_nth_int64_element. rewrite (fromfile_data 0) by lia. cbn [rbind]. unfold py_get.
  destruct (Z.ltb_spec n 0); [lia|]. apply vget_ok. rewrite zlookup_nonneg in * by lia. rewrite drop_0, lookup_take_lt by lia. done.
Qed.

Lemma read_nth_end n : zlen data ≤ n → read_nth_int64_element (header ++ data) n = Err OutOfBounds.
Proof using Hh.
  intros Hn. pose proof (zlen_nonneg data). unfold read_nth_int64_element. rewrite (fromfile_data 0) by lia. cbn [rbind]. unfold py_get. destruct (Z.ltb_spec n 0); [lia|].
  unfold vget. rewrite zlookup_nonneg by lia. rewrite lookup_ge_None_2; [done|]. rewrite length_take, length_drop. unfold zlen in Hn. lia.
Qed.

Lemma read_range_data s e : 0 ≤ s ≤ e + 1 → read_range_from_npy (header ++ data) s e = Ok (take (Z.to_nat (e - s + 1)) (drop (Z.to_nat s) data)).
Proof using Hh. intros Hse. unfold read_range_from_npy. apply fromfile_data; lia. Qed.
End files.

(** ** The parts of a graph *)

Lemma offsets_from_sub t s g : (λ x, x - t) <$> offsets_from (s + t) g = offsets_from s g.
Proof.
  revert s. induction g as [|r g IH]; intros s; cbn; f_equal; [lia..|]. replace (s + t + zlen r) with (s + zlen r + t) by lia. apply IH.
Qed.

Lemma offsets_from_drop s g1 g2 : drop (length g1) (offsets_from s (g1 ++ g2)) = offsets_from (s + zlen (concat g1)) g2.
Proof.
  revert s. induction g1 as [|r g1 IH]; intros s; [cbn; by rewrite drop_0, Z.add_0_r|]. cbn [length app offsets_from drop concat]. rewrite IH, zlen_app. f_equal. lia.
Qed.

Lemma offsets_from_take s g1 g2 : take (S (length g1)) (offsets_from s (g1 ++ g2)) = offsets_from s g1.
Proof. revert s. induction g1 as [|r g1 IH]; intros s; [by destruct g2|]. cbn [length app offsets_from]. cbn [take]. f_equal. apply IH. Qed.

(** The slices of the two arrays that belong to the rows [h]. *)
Lemma vlist_slice g1 h g2 : take (S (length h)) (drop (length g1) (offsets (g1 ++ h ++ g2))) = offsets_from (zlen (concat g1)) h.
Proof. unfold offsets. by rewrite offsets_from_drop, offsets_from_take, Z.add_0_l. Qed.

Lemma elist_slice (g1 h g2 : list (list Z)) : take (S (length (concat h))) (drop (length (concat g1)) (concat (g1 ++ h ++ g2))) = concat h ++ take 1 (concat g2).
Proof. rewrite !concat_app, drop_app_length. rewrite take_app_ge by lia. do 2 f_equal. lia. Qed.

Lemma rebase a h : 0 ≤ zlen (concat h) ≤ INT_MAX → (λ x, wraps 64 (x - a)) <$> offsets_from a h = offsets h.
Proof.
  intros Hs. unfold offsets. rewrite <-(offsets_from_sub a 0 h), Z.add_0_l. apply list_fmap_ext. intros j x Hx%list_elem_of_lookup_2.
  assert (x - a ∈ offsets h) as Hin by (unfold offsets; rewrite <-(offsets_from_sub a 0 h), Z.add_0_l; by apply (list_elem_of_fmap_2 (λ x, x - a))).
  apply offsets_bound in Hin. unfold wraps. unfold INT_MAX in Hs. rewrite Z.mod_small by lia. lia.
Qed.

(** Entries after the last row do not matter. *)
Lemma csr_extra vlist elist rest n : csr_okb vlist elist n = true → csr_okb vlist (elist ++ rest) n = true ∧ csr_rows vlist (elist ++ rest) n = csr_rows vlist elist n.
Proof.
  intros Hok. split.
  - apply csr_okb_intro. intros v Hv. destruct (csr_okb_spec _ _ _ v Hok Hv) as (a & b & Ha & Hb & ? & ?). exists a, b. rewrite zlen_app. pose proof (zlen_nonneg rest). split_and!; (done || lia).
  - unfold csr_rows. apply list_fmap_ext. intros i v [-> Hv]%lookup_seqZ. destruct (csr_okb_spec _ _ _ (0 + Z.of_nat i) Hok ltac:(lia)) as (a & b & Ha & Hb & ? & ?).
    rewrite !(csr_row_slice _ _ _ a b) by done. apply slice_app_l; lia.
Qed.

(** The rows of part [i]. *)
Definition part_rows (g : list (list Z)) (tile i : Z) : list (list Z) := slice g (i * tile) (Z.min ((i + 1) * tile) (zlen g)).

Section read_part.
Context (vheader eheader : list Z) (g : list (list Z)) (tile : Z).
Context (Hvh : zlen vheader = 16) (Heh : zlen eheader = 16) (Htile : 0 < tile) (Hsmall : zlen (concat g) ≤ INT_MAX).

Lemma read_part_ok i : 0 ≤ i → i * tile ≤ zlen g →
  ∃ rest, read_part (vheader ++ offsets g) (eheader ++ concat g) (zlen g) tile i = Ok (offsets (part_rows g tile i), concat (part_rows g tile i) ++ rest) ∧
    ∀ x, x ∈ rest → x ∈ concat g.
Proof using All.
  intros Hi Hs. unfold read_part, part_rows. set (s := i * tile) in *. assert ((if zlen g <? (i + 1) * tile then zlen g else (i + 1) * tile) = Z.min ((i + 1) * tile) (zlen g)) as ->.
  { destruct (Z.ltb_spec (zlen g) ((i + 1) * tile)); lia. }
  set (e := Z.min _ _). assert (0 ≤ s ≤ e ∧ e ≤ zlen g) as [Hse He] by (unfold s, e in *; nia).
  set (g1 := take (Z.to_nat s) g). set (h := slice g s e). set (g2 := drop (Z.to_nat e) g).
  assert (g = g1 ++ h ++ g2) as Hg.
  { unfold g1, h, g2, slice. rewrite <-(take_drop (Z.to_nat s) g) at 1. f_equal. rewrite <-(take_drop (Z.to_nat (e - s)) (drop (Z.to_nat s) g)) at 1. f_equal. rewrite drop_drop. f_equal. lia. }
  assert (length g1 = Z.to_nat s) as Hg1 by (unfold g1; rewrite length_take; unfold zlen in *; lia). assert (length h = Z.to_nat (e - s)) as Hlh by (pose proof (zlen_slice g s e); unfold h, zlen in *; lia).
  assert (offsets g !z s = Some (zlen (concat g1))) as Ha by (unfold offsets, g1; rewrite zlookup_offsets_from by lia; done).
  assert (offsets g !z e = Some (zlen (concat g1) + zlen (concat h))) as Hb.
  { unfold offsets. rewrite zlookup_offsets_from by lia. rewrite Hg at 1. rewrite take_app_ge by lia. rewrite take_app_le by lia. rewrite Hg1, take_ge by lia. rewrite concat_app, zlen_app. done. }
  rewrite (read_nth_data _ _ Hvh _ _ Ha), (read_nth_data _ _ Hvh _ _ Hb). cbn [rbind]. rewrite read_range_data by (done || lia). cbn [rbind].
  pose proof (zlen_nonneg (concat h)) as Hh0. pose proof (zlen_nonneg (concat g1)) as Hg10. rewrite read_range_data by (done || lia). cbn [rbind].
  exists (take 1 (concat g2)). split.
  - replace (Z.to_nat (e - s + 1)) with (S (length h)) by lia. rewrite <-Hg1. replace (Z.to_nat (_ - _ + 1)) with (S (length (concat h))) by (unfold zlen; lia).
    replace (Z.to_nat (zlen (concat g1))) with (length (concat g1)) by (unfold zlen; lia). rewrite Hg, vlist_slice, elist_slice, rebase; [done|].
    rewrite Hg, !concat_app, !zlen_app in Hsmall. pose proof (zlen_nonneg (concat g2)). lia.
  - intros x Hx%elem_of_take. destruct Hx as (j & Hx & _). rewrite Hg, !concat_app, !elem_of_app. right. right. by eapply list_elem_of_lookup_2.
Qed.
End read_part.

(** Compressing a part. *)
Lemma compress_part_ok fuel junk m h D vlist elist :
  serial_part m h → Forall (λ r, zlen r ≤ D) h → zlen h + zlen (concat h) < Z.of_nat fuel →
  0 < zlen vlist → csr_okb vlist elist (zlen vlist - 1) = true → csr_rows vlist elist (zlen vlist - 1) = h →
  ∃ p es, compress_csr fuel junk vlist elist m = Ok (pvlist p, pelist p, pvertices p, prules p) ∧
    decompresses m p h es ∧ Forall (λ e, zlen e ≤ D) es ∧ prules p ≤ zlen h + zlen (concat h).
Proof.
  intros Hp HD Hf Hv Hok Hrows. destruct (compress_part_run m h Hp fuel junk vlist elist Hv Hok Hrows Hf) as (ps & h' & Hrun & Hrep & Hra).
  destruct (out_decompresses m h ps h' Hp Hrep Hra D HD) as (es & Hd & Hes). exists (Part (offsets (out_graph m h' ps)) (concat (out_graph m h' ps)) (zlen h) (zlen ps)), es.
  split_and!; [done..|]. cbn [prules]. pose proof (repaired_count _ _ _ _ Hrep) as Hc. by rewrite zlen_with_splits in Hc.
Qed.

(** ** All parts *)

(** Graphs the script handles: the targets are vertices, every part starts within the
    graph and fits the compressor, and the expansions of all rules fit in an [int];
    [D] bounds the out-degree. *)
Record laconic_input (part_num D : Z) (g : list (list Z)) : Prop := {
  li_range : Forall (Forall (λ x, 0 ≤ x < zlen g)) g;
  li_num : 0 < part_num;
  li_start : (part_num - 1) * (zlen g / part_num + 1) ≤ zlen g;
  li_text : ∀ i, 0 ≤ i < part_num → let h := part_rows g (zlen g / part_num + 1) i in 3 * (zlen h + zlen (concat h)) ≤ 2 ^ 17;
  li_degree : Forall (λ r, zlen r ≤ D) g;
  li_size : 2 * zlen g + zlen (concat g) + 2 ^ 17 + D * (zlen g + zlen (concat g)) ≤ INT_MAX
}.

Section parts.
Context (part_num D : Z) (g : list (list Z)) (Hin : laconic_input part_num D g).
Local Abbreviation V := (zlen g).
Local Abbreviation tile := (V / part_num + 1).

Lemma tile_pos : 0 < tile.
Proof using Hin. pose proof (zlen_nonneg g). pose proof (li_num _ _ _ Hin). assert (0 ≤ V / part_num) by (by apply Z.div_pos). lia. Qed.

Lemma parts_all : V < part_num * tile.
Proof using Hin. pose proof (li_num _ _ _ Hin). pose proof (Z.mul_succ_div_gt V part_num ltac:(lia)). lia. Qed.

(** The first parts are a prefix of the graph. *)
Lemma parts_prefix i : 0 ≤ i → concat (part_rows g tile <$> seqZ 0 i) = slice g 0 (Z.min (i * tile) V).
Proof using Hin.
  pose proof tile_pos. pose proof (zlen_nonneg g). intros Hi. pattern i. apply natlike_ind; [by rewrite slice_nil by lia| |done].
  intros j Hj IH. replace (Z.succ j) with (j + 1) by lia. rewrite seqZ_app, fmap_app, concat_app, IH by lia. change (seqZ (0 + j) 1) with [j]. cbn [fmap list_fmap concat]. rewrite app_nil_r. unfold part_rows.
  destruct (decide (j * tile ≤ V)).
  - rewrite Z.min_l by lia. apply slice_app; nia.
  - rewrite (Z.min_r (j * tile)), (Z.min_r ((j + 1) * tile)) by nia. rewrite (slice_nil _ (j * tile)) by lia. apply app_nil_r.
Qed.

Lemma degrees_nonneg : 0 ≤ D * (V + zlen (concat g)).
Proof using Hin.
  pose proof (li_degree _ _ _ Hin) as Hd. pose proof (zlen_nonneg g). pose proof (zlen_nonneg (concat g)). destruct g as [|r g0]; [change (0 ≤ D * 0); lia|].
  apply Forall_cons in Hd as [Hr0 _]. pose proof (zlen_nonneg r). nia.
Qed.

Lemma edges_small : zlen (concat g) ≤ INT_MAX ∧ Forall (λ x, 0 ≤ x ≤ INT_MAX) (concat g).
Proof using Hin.
  destruct Hin as [Hr Hn Hs Ht Hd Hsz]. pose proof (zlen_nonneg g). pose proof (zlen_nonneg (concat g)).
  pose proof degrees_nonneg.
  split; [lia|]. apply Forall_concat_rows. eapply Forall_impl; [exact Hr|]. intros r Hrr. eapply Forall_impl; [exact Hrr|]. cbn. lia.
Qed.

Lemma part_fits i : 0 ≤ i < part_num → serial_part V (part_rows g tile i) ∧ Forall (λ r, zlen r ≤ D) (part_rows g tile i).
Proof using Hin.
  intros Hi. destruct Hin as [Hr Hn Hs Ht Hd Hsz]. pose proof tile_pos. pose proof (zlen_nonneg g). pose proof (Ht i Hi) as Hti. cbv zeta in Hti.
  assert (∀ P, Forall P g → Forall P (part_rows g tile i)) as Hsub. { intros P HP. rewrite Forall_forall in *. intros r Hr'%elem_of_slice. by apply HP. }
  assert (0 ≤ i * tile ≤ V) by nia. assert (zlen (part_rows g tile i) ≤ V). { unfold part_rows. rewrite zlen_slice by nia. nia. }
  pose proof degrees_nonneg.
  pose proof (zlen_nonneg (concat g)). split; [|by apply Hsub]. split; [by apply Hsub|done|done|]. unfold INT_MAX in Hsz. pose proof (zlen_nonneg (part_rows g tile i)). pose proof (zlen_nonneg (concat (part_rows g tile i))). lia.
Qed.

(** What the loop has gathered after [i] parts. *)
Record gathered (i : Z) (ps : list part) (ess : list (list (list Z))) : Prop := {
  ga_parts : Forall3 (decompresses V) ps (part_rows g tile <$> seqZ 0 i) ess;
  ga_size : Forall (λ e, zlen e ≤ D) (concat ess);
  ga_rules : total prules ps ≤ zlen (slice g 0 (Z.min (i * tile) V)) + zlen (concat (slice g 0 (Z.min (i * tile) V)))
}.

Lemma gathered_snoc i ps ess p es :
  0 ≤ i → gathered i ps ess → decompresses V p (part_rows g tile i) es → Forall (λ e, zlen e ≤ D) es →
  prules p ≤ zlen (part_rows g tile i) + zlen (concat (part_rows g tile i)) → gathered (i + 1) (ps ++ [p]) (ess ++ [es]).
Proof using Hin.
  intros Hi [Hps Hsz Hr] Hp He Hc. split.
  - rewrite seqZ_app, fmap_app by lia. apply Forall3_app; [done|]. change (seqZ (0 + i) 1) with [i]. by apply Forall3_cons, Forall3_nil.
  - rewrite concat_app. cbn. rewrite app_nil_r. by apply Forall_app.
  - rewrite <-parts_prefix in Hr |- * by lia. rewrite seqZ_app, fmap_app, concat_app by lia. change (seqZ (0 + i) 1) with [i]. cbn [fmap list_fmap concat]. rewrite app_nil_r.
    rewrite concat_app, !zlen_app, total_app. change (total prules [p]) with (prules p + 0). lia.
Qed.

Lemma parts_total ps ess : Forall3 (decompresses V) ps (part_rows g tile <$> seqZ 0 part_num) ess →
  total pvertices ps = V ∧ total prules ps = zlen (concat ess).
Proof using Hin.
  pose proof (zlen_nonneg g). pose proof (li_num _ _ _ Hin). pose proof parts_all.
  assert (concat (part_rows g tile <$> seqZ 0 part_num) = g) as Hg by (rewrite parts_prefix, Z.min_r, slice_full by lia; done).
  intros Hps. rewrite <-Hg at 1. clear -Hps. induction Hps as [|p h es ps hs ess Hp _ [IH1 IH2]]; [done|].
  change (total pvertices (p :: ps)) with (pvertices p + total pvertices ps). change (total prules (p :: ps)) with (prules p + total prules ps).
  cbn [concat]. by rewrite !zlen_app, IH1, IH2, (dc_vertices _ _ _ _ Hp), (dc_rules _ _ _ _ Hp).
Qed.

(** All rows and the expansions of all rules fit in an [int]. *)
Lemma parts_fit ps ess : gathered part_num ps ess →
  V + total prules ps ≤ INT_MAX ∧ zlen (concat (concat (part_rows g tile <$> seqZ 0 part_num) ++ concat ess)) ≤ INT_MAX.
Proof using Hin.
  intros [Hps Hes Hrc]. destruct (parts_total ps ess Hps) as [Hv Hr]. pose proof (zlen_nonneg g). pose proof (li_num _ _ _ Hin). pose proof parts_all. pose proof degrees_nonneg.
  rewrite Z.min_r, slice_full in Hrc by lia. pose proof (total_size _ _ Hes) as Hts. pose proof (li_size _ _ _ Hin) as Hsz.
  pose proof (zlen_nonneg (concat ess)). pose proof (zlen_nonneg (concat g)). split; [lia|].
  rewrite parts_prefix, Z.min_r, slice_full, concat_app, zlen_app by lia.
  assert (zlen (concat (concat ess)) ≤ D * (V + zlen (concat g))); [|lia]. destruct (Z.le_gt_cases 0 D); nia.
Qed.

Context (fuel : nat) (junk : Z) (Hfuel : 2 ^ 17 < 3 * Z.of_nat fuel).
Context (vheader eheader : list Z) (Hvh : zlen vheader = 16) (Heh : zlen eheader = 16).

(** One round of the loop. *)
Lemma part_compresses i : 0 ≤ i < part_num →
  ∃ vl el p es, read_part (vheader ++ offsets g) (eheader ++ concat g) V tile i = Ok (vl, el) ∧
    compress_csr fuel junk (np_narrow vl) (np_narrow el) V = Ok (pvlist p, pelist p, pvertices p, prules p) ∧
    decompresses V p (part_rows g tile i) es ∧ Forall (λ e, zlen e ≤ D) es ∧ prules p ≤ zlen (part_rows g tile i) + zlen (concat (part_rows g tile i)).
Proof using All.
  intros Hi. pose proof tile_pos as Htp. destruct edges_small as [Hes Hel]. pose proof (li_start _ _ _ Hin) as Hs. destruct (part_fits i Hi) as [Hp HD].
  destruct (read_part_ok vheader eheader g tile Hvh Heh Htp Hes i) as (rest & Hread & Hrest); [lia|nia|]. set (h := part_rows g tile i) in *.
  exists (offsets h), (concat h ++ rest). assert (∀ x, x ∈ concat h → x ∈ concat g) as Hsub.
  { intros x (r & Hx & Hr%elem_of_slice)%elem_of_concat. apply elem_of_concat. eauto. }
  pose proof (li_text _ _ _ Hin i Hi) as Ht. fold h in Ht. cbv zeta in Ht. pose proof (zlen_nonneg h). rewrite !np_narrow_id.
  - destruct (csr_extra (offsets h) (concat h) rest (zlen h) (csr_okb_offsets h)) as [Hok Hrows]. assert (zlen (offsets h) - 1 = zlen h) as Hz by (unfold offsets; rewrite zlen_offsets_from; lia).
    destruct (compress_part_ok fuel junk V h D (offsets h) (concat h ++ rest) Hp HD) as (p & es & Hrun & Hd & Hes' & Hc); rewrite ?Hz; [lia|lia|done|by rewrite Hrows, csr_rows_offsets|].
    exists p, es. done.
  - rewrite Forall_forall in Hel. apply Forall_forall. intros x [?|?]%elem_of_app; apply Hel; auto.
  - apply Forall_forall. intros x Hx%offsets_bound. unfold INT_MAX. pose proof (zlen_nonneg (concat h)). lia.
Qed.

(** All rounds. *)
Lemma laconic_parts :
  ∃ ps ess, Laconic_serial fuel junk (vheader ++ offsets g) (eheader ++ concat g) part_num = Ok (pvlist <$> ps, pelist <$> ps, pvertices <$> ps, prules <$> ps) ∧
    gathered part_num ps ess.
Proof using All.
  pose proof (li_num _ _ _ Hin) as Hn. pose proof (zlen_nonneg g). unfold Laconic_serial. rewrite npy_num by done.
  assert (zlen (offsets g) - 1 = V) as -> by (unfold offsets; rewrite zlen_offsets_from; lia). destruct (Z.eqb_spec part_num 0); [lia|]. rewrite Z.quot_div_nonneg by lia.
  match goal with |- context [for_up 0 part_num ?f ?s] => cut (wp (for_up 0 part_num f s) (λ '(a, b, c, d), ∃ ps ess, (a, b, c, d) = (pvlist <$> ps, pelist <$> ps, pvertices <$> ps, prules <$> ps) ∧ gathered part_num ps ess)) end.
  { intros (([[a b] c] & d) & -> & ps & ess & Heq & Hga)%wp_inv. exists ps, ess. by rewrite Heq. }
  apply (wp_for_up (λ i '(a, b, c, d), ∃ ps ess, (a, b, c, d) = (pvlist <$> ps, pelist <$> ps, pvertices <$> ps, prules <$> ps) ∧ gathered i ps ess)); [lia| | |done].
  - exists [], []. split; [done|]. split; [constructor|constructor|]. rewrite slice_nil by lia. done.
  - intros i [[[a b] c] d] Hi (ps & ess & Heq & Hga). injection Heq as -> -> -> ->. destruct (part_compresses i Hi) as (vl & el & p & es & -> & Hrun & Hd & He & Hc). cbn [rbind]. rewrite Hrun. cbn [rbind wp].
    exists (ps ++ [p]), (ess ++ [es]). rewrite !fmap_app. split; [done|]. apply gathered_snoc; (done || lia).
Qed.

(** A negative counter. *)
Lemma laconic_negative i0 : i0 < 0 → laconic_main fuel junk i0 (vheader ++ offsets g) (eheader ++ concat g) part_num = Err OutOfBounds.
Proof using All.
  intros Hi0. destruct laconic_parts as (ps & ess & Hrun & Hga). destruct (parts_total ps ess (ga_parts _ _ _ Hga)) as [Hv _]. destruct (parts_fit ps ess Hga) as [Hfit _].
  pose proof (ga_parts _ _ _ Hga) as HF. rewrite <-Hv in HF, Hfit. unfold laconic_main. rewrite Hrun. cbn [rbind].
  by rewrite (merge_negative ps (parts_ok ps _ _ HF) Hfit i0 Hi0).
Qed.

(** The result of the script. *)
Lemma laconic_run :
  ∃ vl el R, laconic_main fuel junk 0 (vheader ++ offsets g) (eheader ++ concat g) part_num = Ok (vl, el, V, R) ∧
    0 ≤ R ∧ csr_okb vl el (V + R) = true ∧
    ∀ v row, g !z v = Some row → ∃ k, derives (csr_rows vl el (V + R)) V (csr_row vl el v) row k.
Proof using All.
  destruct laconic_parts as (ps & ess & Hrun & Hga). destruct (parts_fit ps ess Hga) as [Hfit1 Hfit2]. pose proof (ga_parts _ _ _ Hga) as Hps. destruct (parts_total ps ess Hps) as [Hv _].
  pose proof (zlen_nonneg g). pose proof (li_num _ _ _ Hin). pose proof parts_all.
  assert (concat (part_rows g tile <$> seqZ 0 part_num) = g) as Hg by (rewrite parts_prefix, Z.min_r, slice_full by lia; done).
  destruct (merge_lossless_ok ps (part_rows g tile <$> seqZ 0 part_num) ess) as (vl & el & Hm & Hfi); rewrite ?Hv; [done..|].
  rewrite Hv, Hg in Hfi. rewrite Hv in Hm. destruct (filter_csr_ok _ _ _ _ 0 _ Hfi) as (vl' & el' & R & Hf & HR & Hok & Hd). exists vl', el', R. unfold laconic_main. rewrite Hrun. cbn [rbind]. rewrite Hm. cbn [rbind].
  split_and!; [done|lia|done|]. intros v row Hrow. pose proof (zlookup_range _ _ _ Hrow). apply Hd; [lia|]. by rewrite zlookup_app_l by lia.
Qed.
End parts.

(** ** Too many parts *)

(** The parts have [vertex_cnt / part_num + 1] rows; when the last one would start after
    the end of the graph, the script reads an offset that is not in the file. *)
Lemma laconic_parts_end fuel junk i0 vheader e_file part_num g :
  zlen vheader = 16 → 0 < part_num → zlen g < (part_num - 1) * (zlen g / part_num + 1) →
  ∃ e, laconic_main fuel junk i0 (vheader ++ offsets g) e_file part_num = Err e.
Proof.
  intros Hv Hn Hlast. pose proof (zlen_nonneg g). assert (zlen (offsets g) = zlen g + 1) as Hz by (unfold offsets; rewrite zlen_offsets_from; lia).
  unfold laconic_main. destruct (Laconic_serial _ _ _ _ _) as [r|e] eqn:E; [|by exists e]. exfalso. unfold Laconic_serial in E.
  destruct (Z.eqb_spec part_num 0); [lia|]. rewrite npy_num, Hz, Z.add_simpl_r, Z.quot_div_nonneg in E by (done || lia).
  apply (for_up_round _ _ _ _ _ (part_num - 1)) in E as (([[a b] c] & d) & s & Hs); [|lia]. unfold read_part in Hs. rewrite read_nth_end in Hs by (done || lia). done.
Qed.

(** ** Results *)


(** The rows of [serial_sample] in two parts of three vertices and one vertex. *)
Lemma laconic_sample : laconic_input 2 4 serial_sample.
Proof.
  split; try (vm_compute; done).
  - apply serial_sample_ok.
  - intros i Hi. assert (i = 0 ∨ i = 1) as [-> | ->] by lia; by vm_compute.
  - repeat apply Forall_cons_2; try constructor; by vm_compute.
Qed.

