(* ===== verification/Scripts.v ===== *)
(** * Scripts around the compressor

    [Re-Pair.py] compresses a whole graph and saves the result; [gen_csr.py] writes the
    renumbered graph as the text an encoder reads.  A directory of a dataset is present
    or not; [np.save] raises an exception when the directory of its file is missing. *)

From Stdlib Require Import Ascii String.
From stdpp Require Import strings.
From S2P Require Import Prelude TextIO Csr Grammar Check Filter RMap RRepair RText RTurn RRounds RLossless RPipeline.
#[local] Open Scope Z_scope.
#[local] Open Scope list_scope.

(** ** Re-Pair.py *)

(** A file of the dataset with an array. *)
Record npy := Npy { directory : string; name : string; array : list Z }.

(** The directories that exist, and the files that were saved. *)
Record disk := Disk { directories : gset string; files : list npy }.

(** [os.path.exists] of a directory, and [os.mkdir]. *)
Definition mkdir_if_missing (d : string) (s : disk) : disk :=
  if decide (d ∈ directories s) then s else Disk ({[ d ]} ∪ directories s) (files s).

(** [None]: the exception. *)
Definition np_save (d f : string) (a : list Z) (s : disk) : option disk :=
  if decide (d ∈ directories s) then Some (Disk (directories s) (files s ++ [Npy d f a])) else None.

(** The loop body of [main]: the disk, and what [filter_csr] returned when it was
    reached.  The filtered graph is not saved. *)
Definition repair_main (fuel : nat) (junk : Z) (vlist elist : list Z) (s : disk)
    : res (disk * option (list Z * list Z * Z * Z)) :=
  let* '(compressed_vlist, compressed_elist, vertex_cnt, rule_cnt) :=
    compress_csr fuel junk (np_narrow vlist) (np_narrow elist) (zlen vlist - 1) in
  let s := mkdir_if_missing "rule_compressed" s in
  match np_save "Re-Pair_compressed" "compressed_vlist.npy" compressed_vlist s with
  | None => Ok (s, None)
  | Some s =>
      match np_save "Re-Pair_compressed" "compressed_elist.npy" compressed_elist s with
      | None => Ok (s, None)
      | Some s =>
          let* result := filter_csr compressed_vlist compressed_elist vertex_cnt rule_cnt 0 in
          Ok (s, Some result)
      end
  end.

(** ** gen_csr.py *)

Definition header : text := list_ascii_of_string "AdjacencyGraph".

(** One number per line; no line end after the last edge. *)
Definition gen_csr (vlist elist : list Z) : text :=
  header ++ [newline] ++ show (zlen vlist) ++ [newline] ++ show (zlen elist) ++ [newline] ++
  concat ((λ v, show v ++ [newline]) <$> vlist) ++
  concat ((λ '(i, e), if i =? zlen elist - 1 then show e else show e ++ [newline]) <$> zip (seqZ 0 (zlen elist)) elist).

Example gen_csr_ex : gen_csr [0; 2; 2] [1; 10] = list_ascii_of_string
"AdjacencyGraph
3
2
0
2
2
1
10".
Proof. reflexivity. Qed.

(** ** Results *)

Lemma separated_lines (l : list Z) (toks : list (Z * text)) :
  separated toks → separated (((λ x, (x, [newline])) <$> l) ++ toks).
Proof.
  intros Ht. induction l as [|x l IH]; [done|]. rewrite fmap_cons. cbn [app separated]. split_and!; [by constructor|by left|done].
Qed.

Lemma numbers_text_app l1 l2 : numbers_text (l1 ++ l2) = numbers_text l1 ++ numbers_text l2.
Proof. unfold numbers_text. by rewrite fmap_app, concat_app. Qed.

(** The edges: all but the last one with a line end. *)
Lemma edges_text elist :
  ∃ toks, concat ((λ '(i, e), if i =? zlen elist - 1 then show e else show e ++ [newline]) <$> zip (seqZ 0 (zlen elist)) elist) = numbers_text toks ∧
    toks.*1 = elist ∧ separated toks.
Proof.
  destruct elist as [|x elist _] using rev_ind; [by exists []|].
  exists (((λ x, (x, [newline])) <$> elist) ++ [(x, [])]).
  assert (zlen (elist ++ [x]) = zlen elist + 1) as Hl by (rewrite zlen_app; done). rewrite Hl.
  rewrite seqZ_app by (pose proof (zlen_nonneg elist); lia). rewrite zip_with_app by (unfold zlen; rewrite length_seqZ; lia).
  split_and!.
  - rewrite fmap_app, concat_app, numbers_text_app. f_equal.
    + unfold numbers_text. rewrite <-list_fmap_compose. f_equal. apply list_eq. intros i. rewrite !list_lookup_fmap.
      destruct (elist !! i) as [e|] eqn:He.
      * assert (i < length elist)%nat by (by eapply lookup_lt_Some).
        assert (zip (seqZ 0 (zlen elist)) elist !! i = Some (Z.of_nat i, e)) as ->.
        { apply lookup_zip_Some. split; [|done]. rewrite lookup_seqZ. unfold zlen. lia. }
        simpl. rewrite (proj2 (Z.eqb_neq _ _)) by (unfold zlen; lia). done.
      * simpl. rewrite (proj2 (lookup_ge_None _ _)); [done|]. apply lookup_ge_None in He. rewrite length_zip, length_seqZ. unfold zlen. lia.
    + unfold numbers_text. simpl. rewrite (proj2 (Z.eqb_eq _ _)) by lia. by rewrite !app_nil_r.
  - rewrite fmap_app, <-list_fmap_compose. f_equal. apply list_fmap_id.
  - apply separated_lines. split_and!; [done|by right|done].
Qed.

Definition int64 : itype := IType 64 true.
Abbreviation is_int64 := (λ z, - 2 ^ 63 ≤ z < 2 ^ 63).

(** The text for the encoder determines the graph: two graphs with the same text have
    the same offsets and the same edges. *)
Theorem gen_csr_injective vlist elist vlist' elist' :
  Forall is_int64 (zlen vlist :: zlen elist :: vlist ++ elist) → Forall is_int64 (zlen vlist' :: zlen elist' :: vlist' ++ elist') →
  gen_csr vlist elist = gen_csr vlist' elist' → vlist = vlist' ∧ elist = elist'.
Proof.
  assert (∀ v e, ∃ s, gen_csr v e = header ++ [newline] ++ s ∧ holds s (zlen v :: zlen e :: v ++ e)) as Hholds.
  { intros v e. destruct (edges_text e) as (toks & He & Htoks & Hsep). unfold gen_csr. rewrite He.
    eexists. split; [done|]. exists [], (((λ x, (x, [newline])) <$> (zlen v :: zlen e :: v)) ++ toks). split_and!.
    - rewrite app_nil_l, numbers_text_app, !fmap_cons. unfold numbers_text. cbn [fmap list_fmap concat]. rewrite <-list_fmap_compose.
      by rewrite <-!app_assoc.
    - rewrite fmap_app, Htoks, <-list_fmap_compose. change (zlen v :: zlen e :: v ++ e) with ((zlen v :: zlen e :: v) ++ e).
      f_equal. apply list_fmap_id.
    - done.
    - by apply separated_lines. }
  intros Hi Hi' Heq. destruct (Hholds vlist elist) as (s & Hs & Hh). destruct (Hholds vlist' elist') as (s' & Hs' & Hh').
  rewrite Hs, Hs' in Heq. apply app_inv_head in Heq. injection Heq as <-.
  assert (∀ l, Forall is_int64 l → holds s l → read_numbers int64 s = l) as Hread.
  { intros l Hl Hsl. apply read_numbers_show; [done| |done]. eapply Forall_impl; [exact Hl|].
    intros z Hz. cbn beta in Hz. change (- 2 ^ 63 ≤ z ≤ 2 ^ 63 - 1). lia. }
  pose proof (Hread _ Hi Hh) as H1. rewrite (Hread _ Hi' Hh') in H1. injection H1 as Hv He Happ.
  symmetry in Happ. apply app_inj_1 in Happ; [done|]. unfold zlen in *. lia.
Qed.

Lemma gen_csr_injective_witness : [0; 2; 2] = [0; 2; 2] ∧ [1; 10] = [1; 10].
Proof. apply gen_csr_injective; [by repeat constructor..|reflexivity]. Defined.

(** The arrays are saved as they are compressed. *)
Lemma np_save_ok d f a s : d ∈ directories s → np_save d f a s = Some (Disk (directories s) (files s ++ [Npy d f a])).
Proof. intros Hd. unfold np_save. by rewrite decide_True. Qed.

Lemma mkdir_directories d s : directories (mkdir_if_missing d s) = {[ d ]} ∪ directories s.
Proof. unfold mkdir_if_missing. case_decide; [set_solver|done]. Qed.

Lemma mkdir_files d s : files (mkdir_if_missing d s) = files s.
Proof. unfold mkdir_if_missing. by case_decide. Qed.

Lemma serial_narrow g : serial_input g → np_narrow (offsets g) = offsets g ∧ np_narrow (concat g) = concat g.
Proof.
  intros [Hr Hs]. pose proof (zlen_nonneg g). pose proof (zlen_nonneg (concat g)). split; apply np_narrow_id; apply Forall_forall; intros x Hx.
  - apply offsets_bound in Hx. unfold INT_MAX. lia.
  - apply elem_of_concat in Hx as (r & Hx & Hin). rewrite Forall_forall in Hr. specialize (Hr r Hin). rewrite Forall_forall in Hr.
    specialize (Hr x Hx). unfold INT_MAX. lia.
Qed.

(** C40: when the directory [Re-Pair_compressed] exists, the script saves the compressed
    graph, and the arrays in the files expand to the rows of the input; when it does not
    exist the script creates another directory and saves nothing. *)
Theorem repair_main_correct fuel junk g s :
  serial_input g → zlen g + zlen (concat g) < Z.of_nat fuel →
  ∃ vlist elist R, compress_csr fuel junk (offsets g) (concat g) (zlen g) = Ok (vlist, elist, zlen g, R) ∧
    (∀ v row, g !z v = Some row →
      ∃ k, derives (csr_rows vlist elist (zlen g + R)) (zlen g) (csr_row vlist elist v) row k) ∧
    ("Re-Pair_compressed"%string ∈ directories s → ∃ s' result,
      repair_main fuel junk (offsets g) (concat g) s = Ok (s', Some result) ∧
      files s' = files s ++ [Npy "Re-Pair_compressed" "compressed_vlist.npy" vlist; Npy "Re-Pair_compressed" "compressed_elist.npy" elist]) ∧
    ("Re-Pair_compressed"%string ∉ directories s → ∃ s',
      repair_main fuel junk (offsets g) (concat g) s = Ok (s', None) ∧ files s' = files s ∧
      "rule_compressed"%string ∈ directories s').
Proof.
  intros Hg Hf. destruct (compress_csr_run fuel junk g Hg Hf) as (ps & g' & Hrun & Hrep & Hra & Hrules).
  destruct (out_filter_input g ps g' Hg Hrep Hra) as (es & Hin). destruct (filter_csr_ok _ _ _ _ 0 _ Hin) as (vl & el & R' & Hfil & _).
  destruct (serial_narrow g Hg) as [Hn1 Hn2]. assert (zlen (offsets g) - 1 = zlen g) as Hz by (unfold offsets; rewrite zlen_offsets_from; lia).
  set (G := out_graph (zlen g) g' ps) in *.
  assert (zlen g + zlen ps = zlen G) as HG by (unfold G, out_graph; rewrite zlen_app, !zlen_fmap, (ra_len _ _ _ _ _ Hra); lia).
  exists (offsets G), (concat G), (zlen ps). split; [done|]. split; [|split].
  - intros v row Hv. rewrite HG, csr_rows_offsets. by apply (out_expands _ _ (serial_input_part g Hg)).
  - intros Hd. unfold repair_main. rewrite Hn1, Hn2, Hz, Hrun. cbn [rbind].
    rewrite np_save_ok by (rewrite mkdir_directories; set_solver). rewrite np_save_ok by (cbn; rewrite mkdir_directories; set_solver).
    rewrite Hfil. eexists _, _. split; [done|]. cbn. rewrite mkdir_files. by rewrite <-app_assoc.
  - intros Hd. unfold repair_main. rewrite Hn1, Hn2, Hz, Hrun. cbn [rbind]. unfold np_save.
    rewrite decide_False by (rewrite mkdir_directories; set_solver). eexists. split; [done|]. rewrite mkdir_files, mkdir_directories. set_solver.
Qed.

Lemma repair_main_correct_witness :
  ∃ vlist elist R, compress_csr 20 7 (offsets serial_sample) (concat serial_sample) (zlen serial_sample) = Ok (vlist, elist, zlen serial_sample, R) ∧
    (∀ v row, serial_sample !z v = Some row →
      ∃ k, derives (csr_rows vlist elist (zlen serial_sample + R)) (zlen serial_sample) (csr_row vlist elist v) row k) ∧
    ("Re-Pair_compressed"%string ∈ directories (Disk ∅ []) → ∃ s' result,
      repair_main 20 7 (offsets serial_sample) (concat serial_sample) (Disk ∅ []) = Ok (s', Some result) ∧
      files s' = [] ++ [Npy "Re-Pair_compressed" "compressed_vlist.npy" vlist; Npy "Re-Pair_compressed" "compressed_elist.npy" elist]) ∧
    ("Re-Pair_compressed"%string ∉ directories (Disk ∅ []) → ∃ s',
      repair_main 20 7 (offsets serial_sample) (concat serial_sample) (Disk ∅ []) = Ok (s', None) ∧ files s' = [] ∧
      "rule_compressed"%string ∈ directories s').
Proof. apply (repair_main_correct 20 7 serial_sample (Disk ∅ [])); [apply serial_sample_ok|reflexivity]. Defined.
