(* ===== verification/Util.v ===== *)
(** * Edge lists and threads

    [coo_convert] of [util.h] groups an edge list by source with several
    threads. *)

From S2P Require Import Prelude Csr.

(** ** Any order of the threads *)

(** The targets of the edges that leave [v]. *)
Definition group (v : Z) (E : list (Z * Z)) : list Z := snd <$> filter (λ e, e.1 = v) E.

Lemma group_app v E F : group v (E ++ F) = group v E ++ group v F.
Proof. unfold group. by rewrite filter_app, fmap_app. Qed.

Lemma group_one v s d : group v [(s, d)] = if decide (s = v) then [d] else [].
Proof. unfold group. rewrite filter_cons, filter_nil. simpl. by case_decide. Qed.

#[global] Instance group_perm v : Proper ((≡ₚ) ==> (≡ₚ)) (group v).
Proof. intros E F H. unfold group. by rewrite H. Qed.

Section coo.
Context (src dst : list Z) (n nt : Z).
Context (Hlen : zlen src = zlen dst) (Hn : 0 ≤ n) (Hnt : 0 < nt).
Context (Hsmall : zlen src + nt < 2 ^ 32) (Hsrc : Forall (λ s, 0 ≤ s < n) src).

Abbreviation E := (zip src dst).
Definition bs : Z := (zlen src + nt - 1) / nt.

Lemma bs_bounds : 0 ≤ bs ∧ zlen src ≤ nt * bs < zlen src + nt.
Proof using Hnt.
  pose proof (zlen_nonneg src). unfold bs. pose proof (Z.div_mod (zlen src + nt - 1) nt ltac:(lia)).
  pose proof (Z.mod_pos_bound (zlen src + nt - 1) nt Hnt). split; [apply Z.div_pos; lia|lia].
Qed.

(** The edges of thread [t]. *)
Definition block (t : Z) : list (Z * Z) := slice E (t * bs) (Z.min ((t + 1) * bs) (zlen src)).

Lemma blocks_prefix i : 0 ≤ i ≤ nt → concat (block <$> seqZ 0 i) = slice E 0 (Z.min (i * bs) (zlen src)).
Proof using Hnt Hlen.
  intros [Hi Hle]. revert Hle. pattern i. apply natlike_ind; [| |done]; clear i Hi.
  - intros _. by rewrite slice_nil by lia.
  - intros i Hi IH Hle. unfold Z.succ in *. rewrite seqZ_app, fmap_app, concat_app, IH by lia. change (seqZ (0 + i) 1) with [i].
    simpl. rewrite app_nil_r. unfold block. pose proof bs_bounds as [? ?]. pose proof (zlen_nonneg src).
    destruct (Z.le_gt_cases (i * bs) (zlen src)) as [Hin|Hout].
    + rewrite (Z.min_l (i * bs)) by done. apply slice_app; [nia|]. apply Z.min_glb; nia.
    + rewrite !Z.min_r by nia. rewrite (slice_nil _ (i * bs)) by lia. by rewrite app_nil_r.
Qed.

Lemma blocks_all order : order ≡ₚ seqZ 0 nt → concat (block <$> order) ≡ₚ E.
Proof using Hnt Hlen.
  intros Hp. assert (∀ l, concat (block <$> l) = l ≫= block) as Hb.
  { intros l. induction l as [|t l IH]; [done|]. rewrite fmap_cons. simpl. by rewrite IH. }
  rewrite Hb, Hp, <-Hb.
  rewrite blocks_prefix by lia. pose proof bs_bounds. rewrite Z.min_r by lia. by rewrite <-(zlen_zip src dst Hlen), slice_full.
Qed.

Lemma coo_block_spec t :
  0 ≤ t < nt → wp (coo_block src dst n bs t) (λ g, zlen g = n ∧ ∀ v, 0 ≤ v < n → g !z v = Some (group v (block t))).
Proof using Hlen Hn Hnt Hsmall Hsrc.
  intros Ht. pose proof bs_bounds as [? ?]. unfold coo_block, block. pose proof (zlen_nonneg src).
  rewrite (wrapu_small 32 (t + 1)), (wrapu_small 32 (t * bs)), (wrapu_small 32) by (split; nia).
  set (b := Z.min _ _). destruct (Z.le_gt_cases (t * bs) b) as [Hle|Hgt].
  - eapply (wp_for_up (λ e g, zlen g = n ∧ ∀ v, 0 ≤ v < n → g !z v = Some (group v (slice E (t * bs) e)))); [done| | |done].
    + split; [rewrite zlen_replicate; lia|]. intros v Hv. rewrite slice_nil by lia. by rewrite zlookup_replicate by lia.
    + intros e g He [Hg Hrows]. destruct (zlookup_total src e) as [s Hs]; [lia|]. destruct (zlookup_total dst e) as [d Hd]; [lia|].
      rewrite (vget_ok _ _ _ Hs), (vget_ok _ _ _ Hd). cbn [rbind].
      assert (0 ≤ s < n) as Hsr by (rewrite Forall_forall in Hsrc; apply Hsrc; by eapply zlookup_elem).
      rewrite (slice_snoc E (t * bs) e (s, d)) by (by apply zlookup_zip || nia). unfold vpush.
      rewrite (vget_ok _ _ _ (Hrows s Hsr)). cbn [rbind]. rewrite vset_ok by lia. cbn [wp]. split; [by rewrite zlen_zinsert|].
      intros v Hv. rewrite group_app, group_one. case_decide as Hsv; [subst; by rewrite zlookup_zinsert_eq by lia|].
      rewrite zlookup_zinsert_ne by lia. by rewrite app_nil_r, Hrows.
  - rewrite for_up_nil by lia. split; [rewrite zlen_replicate; lia|]. intros v Hv. rewrite slice_nil by lia. by rewrite zlookup_replicate by lia.
Qed.
End coo.

(** C22: whatever the number of threads and the order in which they take the
    lock, [coo_convert] returns adjacency lists in which the row of [v] is a
    permutation of the targets of the edges that leave [v]. *)
Theorem coo_convert_any_order order src dst n nt :
  zlen src = zlen dst → 0 ≤ n → 0 < nt → zlen src + nt < 2 ^ 32 → Forall (λ s, 0 ≤ s < n) src →
  order ≡ₚ seqZ 0 nt →
  wp (coo_convert order nt (replicate (Z.to_nat n) []) src dst n) (λ g, zlen g = n ∧
    ∀ v, 0 ≤ v < n → ∃ r, g !z v = Some r ∧ r ≡ₚ group v (zip src dst)).
Proof.
  intros Hlen Hn Hnt Hsmall Hsrc Hord. unfold coo_convert. rewrite Hlen, Z.eqb_refl, <-Hlen. cbn [negb].
  fold (bs src nt). pose proof (bs_bounds src nt Hnt) as [? ?]. pose proof (zlen_nonneg src).
  rewrite (wrapu_small 32 (bs src nt)) by nia.
  eapply (wp_for_each (λ pre g, zlen g = n ∧ ∀ v, 0 ≤ v < n → g !z v = Some (group v (concat (block src dst nt <$> pre))))).
  - split; [rewrite zlen_replicate; lia|]. intros v Hv. by rewrite zlookup_replicate by lia.
  - intros pre t post g Hpre [Hg Hrows]. assert (0 ≤ t < nt) as Ht.
    { assert (t ∈ order) as Hin by (rewrite Hpre; apply elem_of_app; right; by left). rewrite Hord, elem_of_seqZ in Hin. lia. }
    apply wp_bind. eapply wp_mono; [by apply coo_block_spec|]. intros loc [Hl Hlocal].
    eapply (wp_for_up (λ i g', zlen g' = n ∧ (∀ v, 0 ≤ v < i → g' !z v = Some (group v (concat (block src dst nt <$> pre ++ [t])))) ∧
      ∀ v, i ≤ v < n → g' !z v = g !z v)); [done|split_and!; [done|lia|done]| |by intros g' (? & ? & _)].
    intros i g' Hi (Hg' & Hdone & Hrest). rewrite (vget_ok _ _ _ (eq_trans (Hrest i ltac:(lia)) (Hrows i Hi))), (vget_ok _ _ _ (Hlocal i Hi)).
    cbn [rbind]. rewrite vset_ok by lia. cbn [wp]. split_and!; [by rewrite zlen_zinsert| |].
    + intros v Hv. destruct (decide (v = i)) as [->|]; [|rewrite zlookup_zinsert_ne by lia; apply Hdone; lia].
      rewrite zlookup_zinsert_eq, <-group_app, fmap_app, concat_app by lia. simpl. by rewrite app_nil_r.
    + intros v Hv. rewrite zlookup_zinsert_ne by lia. apply Hrest. lia.
  - intros g [Hg Hrows]. split; [done|]. intros v Hv. eexists. split; [by apply Hrows|]. by rewrite blocks_all.
Qed.

Lemma coo_convert_any_order_witness :
  wp (coo_convert [1; 0] 2 (replicate (Z.to_nat 3) []) [0; 2; 0] [1; 1; 2] 3) (λ g, zlen g = 3 ∧
    ∀ v, 0 ≤ v < 3 → ∃ r, g !z v = Some r ∧ r ≡ₚ group v (zip [0; 2; 0] [1; 1; 2])).
Proof. apply coo_convert_any_order; try (reflexivity || lia); [repeat constructor; lia|]. apply Permutation_swap. Defined.
