(* ===== verification/Numpy.v ===== *)
(** * Arrays of the bindings

    [vector2numpy1D] and [numpy2vector1D] of [util.h] copy between vectors and numpy
    arrays.  A numpy array is a view of a memory block: element [i] is at position
    [start + i * stride]. *)

From S2P Require Import Prelude.

(** ** Operations *)

Record ndarray := NdArray { memory : list Z; first : Z; stride : Z; size : Z }.

(** The elements as Python sees them. *)
Definition elements (a : ndarray) : res (list Z) := mapr (λ i, vget (memory a) (first a + i * stride a)) (seqZ 0 (size a)).

(** [py::array_t<T>(size)] is a new block, here with the values [junk]. *)
Definition vector2numpy1D (junk : Z) (vec : list Z) : res ndarray :=
  let result := replicate (Z.to_nat (zlen vec)) junk in
  let* result := for_up 0 (zlen vec) (λ i result, let* x := vget vec i in vset result i x) result in
  Ok (NdArray result 0 1 (zlen vec)).

(** [std::copy] from the pointer of the buffer: the strides are not used. *)
Definition numpy2vector1D (input : ndarray) (output : list Z) : res (list Z) :=
  let output := resize (Z.to_nat (size input)) 0 output in
  for_up 0 (size input) (λ i output, let* x := vget (memory input) (first input + i) in vset output i x) output.

(** ** Lemmas *)

Lemma copy_cells (mem out : list Z) s n :
  0 ≤ s → 0 ≤ n → s + n ≤ zlen mem → zlen out = n →
  for_up 0 n (λ i out, let* x := vget mem (s + i) in vset out i x) out = Ok (slice mem s (s + n)).
Proof.
  intros Hs Hn Hm Ho. apply wp_eq. apply (wp_for_up (λ i o, o = slice mem s (s + i) ++ slice out i n)); [lia| | |].
  - rewrite slice_nil by lia. cbn [app]. by rewrite <-Ho, slice_full.
  - intros i o Hi ->. destruct (zlookup_total mem (s + i) ltac:(lia)) as [x Hx]. destruct (zlookup_total out i ltac:(lia)) as [y Hy]. rewrite (vget_ok _ _ _ Hx). cbn [rbind].
    assert (zlen (slice mem s (s + i)) = i) as Hz by (rewrite zlen_slice; lia). rewrite (slice_cons out i n y) by (done || lia). rewrite vset_ok; [|rewrite zlen_app, zlen_cons, Hz; pose proof (zlen_nonneg (slice out (i + 1) n)); lia].
    cbn [wp]. replace (s + (i + 1)) with (s + i + 1) by lia. rewrite (slice_snoc mem s (s + i) x), <-app_assoc by (done || lia). cbn [app]. unfold zinsert. unfold zlen in Hz. rewrite insert_app_r_alt by lia. by replace (Z.to_nat i - length (slice mem s (s + i)))%nat with O by lia.
  - intros o ->. rewrite (slice_nil out) by lia. apply app_nil_r.
Qed.

Lemma elements_contiguous a : stride a = 1 → 0 ≤ first a → 0 ≤ size a → first a + size a ≤ zlen (memory a) → elements a = Ok (slice (memory a) (first a) (first a + size a)).
Proof.
  intros Hst Hf Hs Hm. unfold elements. rewrite Hst. assert (∀ k, 0 ≤ k ≤ size a → mapr (λ i, vget (memory a) (first a + i * 1)) (seqZ (size a - k) k) = Ok (slice (memory a) (first a + (size a - k)) (first a + size a))) as H.
  - intros k Hk. assert (0 ≤ k) as Hk0 by lia. revert Hk. pattern k. apply natlike_ind; [|intros j Hj IH Hk|done].
    + intros _. cbn. by rewrite slice_nil by lia.
    + replace (Z.succ j) with (1 + j) by lia. rewrite seqZ_app by lia. change (seqZ (size a - (1 + j)) 1) with [size a - (1 + j)]. cbn [app mapr].
      destruct (zlookup_total (memory a) (first a + (size a - (1 + j))) ltac:(lia)) as [x Hx]. rewrite Z.mul_1_r, (vget_ok _ _ _ Hx). cbn [rbind]. replace (size a - (1 + j) + 1) with (size a - j) by lia. rewrite IH by lia. cbn [rbind].
      rewrite (slice_cons _ (first a + (size a - (1 + j))) _ x) by (done || lia). do 3 f_equal. lia.
  - rewrite <-(Z.sub_diag (size a)). rewrite H by lia. by rewrite Z.sub_diag, Z.add_0_r.
Qed.

(** ** Results *)

(** Copies between vectors and arrays.  A contiguous array becomes the vector of its
    elements, whatever the vector held before; a vector becomes an array with its
    elements; one after the other they are the identity. *)
Theorem numpy_roundtrip junk vec out a :
  stride a = 1 → 0 ≤ first a → 0 ≤ size a → first a + size a ≤ zlen (memory a) →
  numpy2vector1D a out = elements a ∧
  ∃ b, vector2numpy1D junk vec = Ok b ∧ elements b = Ok vec ∧ numpy2vector1D b out = Ok vec.
Proof.
  assert (∀ a, stride a = 1 → 0 ≤ first a → 0 ≤ size a → first a + size a ≤ zlen (memory a) → numpy2vector1D a out = elements a) as Hcopy.
  { intros a' Hst Hf Hs Hm. rewrite elements_contiguous by done. unfold numpy2vector1D. apply copy_cells; try done. unfold zlen. rewrite length_resize. lia. }
  intros Hst Hf Hs Hm. split; [by apply Hcopy|]. pose proof (zlen_nonneg vec). exists (NdArray vec 0 1 (zlen vec)).
  assert (elements (NdArray vec 0 1 (zlen vec)) = Ok vec) as He by (rewrite elements_contiguous by (done || (cbn; lia)); cbn [memory first size]; by rewrite Z.add_0_l, slice_full). split_and!; [|done|].
  - unfold vector2numpy1D. rewrite (copy_cells vec _ 0); [cbn [rbind]; by rewrite Z.add_0_l, slice_full|lia|done|lia|rewrite zlen_replicate; lia].
  - rewrite Hcopy; (done || (cbn; lia)).
Qed.

Lemma numpy_roundtrip_witness :
  numpy2vector1D (NdArray [4; 5; 6; 7] 1 1 2) [9] = elements (NdArray [4; 5; 6; 7] 1 1 2) ∧
  ∃ b, vector2numpy1D 0 [1; 2; 3] = Ok b ∧ elements b = Ok [1; 2; 3] ∧ numpy2vector1D b [9] = Ok [1; 2; 3].
Proof. apply (numpy_roundtrip 0 [1; 2; 3] [9] (NdArray [4; 5; 6; 7] 1 1 2)); by vm_compute. Defined.

(** Every second element of an array: the vector gets the first elements of the block
    instead. *)
Lemma numpy_strided :
  elements (NdArray [0; 10; 20; 30] 0 2 2) = Ok [0; 20] ∧ numpy2vector1D (NdArray [0; 10; 20; 30] 0 2 2) [] = Ok [0; 10].
Proof. by vm_compute. Qed.
