(* ===== verification/ParUtil.v ===== *)
(** * The helpers of the parallel program

    [Laconic_parallel/core/util.h] repeats the serial [util.h] with [int] in
    place of [int64_t] for [VertexT]; vertex numbers and offsets are taken to fit. *)

From S2P Require Import Prelude Csr Numpy.

Definition coo_convert := Csr.coo_convert.
Definition csr_convert := Csr.csr_convert.
Definition csr_convert_idx := Csr.csr_convert_idx.
Definition insert_spliter := Csr.insert_spliter.
Definition genNewIdForRule := Csr.genNewIdForRule.
Definition genNewGraphCOO := Csr.genNewGraphCOO.
Definition genNewGraphCSR := Csr.genNewGraphCSR.
Definition vector2numpy1D := Numpy.vector2numpy1D.
Definition numpy2vector1D := Numpy.numpy2vector1D.
