(* ===== verification/Splice.v ===== *)
(** * Subgraphs of a CSR graph

    [splice.h]: the part of a weighted CSR graph given by a set of active rows,
    with or without renumbering of rows and columns, and
    [get_part_graph_info.h]: the sizes of such a part.  Weights are copied,
    never computed with, so they have an arbitrary type. *)

From S2P Require Import Prelude Csr.

Section splice.
Context {F : Type}.
Implicit Types (weight : list F) (index : list bool) (vlist elist : list Z).

(** ** Operations *)

(** Append edges [start .. end_) with their weights; [esize] counts them. *)
Definition copy_edges elist weight (start end_ : Z) (st : list Z * list F * Z)
    : res (list Z * list F * Z) :=
  for_up start end_ (λ eid '(back_elist, back_weight, esize),
    let* dst := vget elist eid in
    let* w := vget weight eid in
    Ok (back_elist ++ [dst], back_weight ++ [w], esize + 1)) st.

Definition splice_csr vlist elist weight index : res (list Z * list Z * list F) :=
  let* '(back_vlist, back_elist, back_weight, _) :=
    for_up 0 (zlen vlist - 1) (λ vid '(back_vlist, back_elist, back_weight, esize),
      let* b := vget index vid in
      if negb b then Ok (back_vlist ++ [esize], back_elist, back_weight, esize) else
      let* start := vget vlist vid in
      let* end_ := vget vlist (vid + 1) in
      let* '(back_elist, back_weight, esize) :=
        copy_edges elist weight start end_ (back_elist, back_weight, esize) in
      Ok (back_vlist ++ [esize], back_elist, back_weight, esize)) ([0], [], [], 0) in
  Ok (back_vlist, back_elist, back_weight).

Definition splice_csr_condense_row vlist elist weight index
    : res (list Z * list Z * list F * list Z) :=
  let* '(back_vlist, back_elist, back_weight, esize, active_vertex) :=
    for_up 0 (zlen vlist - 1) (λ vid '(back_vlist, back_elist, back_weight, esize, active_vertex),
      let* b := vget index vid in
      if b : bool then
        let active_vertex := active_vertex ++ [vid] in
        let* start := vget vlist vid in
        let* end_ := vget vlist (vid + 1) in
        let* '(back_elist, back_weight, esize) :=
          copy_edges elist weight start end_ (back_elist, back_weight, esize) in
        Ok (back_vlist ++ [esize], back_elist, back_weight, esize, active_vertex)
      else Ok (back_vlist, back_elist, back_weight, esize, active_vertex)) ([0], [], [], 0, []) in
  Ok (back_vlist, back_elist, back_weight, active_vertex).

(** The columns seen so far: their new numbers, and the columns in the order of
    the new numbers. *)
Record columns := Columns { col_map : gmap Z Z; maxID : Z; active : list Z }.

Definition no_columns : columns := Columns ∅ 0 [].

(** [if (col_map.find(dst) == col_map.end()) ..]. *)
Definition see_column (dst : Z) (c : columns) : columns :=
  match col_map c !! dst with
  | None => Columns (<[dst := maxID c]> (col_map c)) (maxID c + 1) (active c ++ [dst])
  | Some _ => c
  end.

(** [col_map[dst]]; a missing key would be added with value 0. *)
Definition column_id (c : columns) (dst : Z) : Z := default 0 (col_map c !! dst).

Definition condense_edges elist weight (start end_ : Z) (st : list Z * list F * Z * columns)
    : res (list Z * list F * Z * columns) :=
  for_up start end_ (λ eid '(back_elist, back_weight, esize, c),
    let* dst := vget elist eid in
    let c := see_column dst c in
    let* w := vget weight eid in
    Ok (back_elist ++ [column_id c dst], back_weight ++ [w], esize + 1, c)) st.

Definition splice_csr_condense_col vlist elist weight index
    : res (list Z * list Z * list F * list Z) :=
  let* '(back_vlist, back_elist, back_weight, _, c) :=
    for_up 0 (zlen vlist - 1) (λ vid '(back_vlist, back_elist, back_weight, esize, c),
      let* b := vget index vid in
      if b : bool then
        let* start := vget vlist vid in
        let* end_ := vget vlist (vid + 1) in
        let* '(back_elist, back_weight, esize, c) :=
          condense_edges elist weight start end_ (back_elist, back_weight, esize, c) in
        Ok (back_vlist ++ [esize], back_elist, back_weight, esize, c)
      else Ok (back_vlist ++ [esize], back_elist, back_weight, esize, c))
      ([0], [], [], 0, no_columns) in
  Ok (back_vlist, back_elist, back_weight, active c).

Definition splice_csr_condense_row_and_col vlist elist weight index
    : res (list Z * list Z * list F * list Z * list Z) :=
  let* '(back_vlist, back_elist, back_weight, _, active_vertex, c) :=
    for_up 0 (zlen vlist - 1) (λ vid '(back_vlist, back_elist, back_weight, esize, active_vertex, c),
      let* b := vget index vid in
      if b : bool then
        let active_vertex := active_vertex ++ [vid] in
        let* start := vget vlist vid in
        let* end_ := vget vlist (vid + 1) in
        let* '(back_elist, back_weight, esize, c) :=
          condense_edges elist weight start end_ (back_elist, back_weight, esize, c) in
        Ok (back_vlist ++ [esize], back_elist, back_weight, esize, active_vertex, c)
      else Ok (back_vlist, back_elist, back_weight, esize, active_vertex, c))
      ([0], [], [], 0, [], no_columns) in
  Ok (back_vlist, back_elist, back_weight, active_vertex, active c).
End splice.

(** ** Sizes *)

Definition get_active_row_and_col (vlist elist : list Z) (index : list bool) : res (Z * Z) :=
  let* '(active_row, active_col, _) :=
    for_up 0 (zlen vlist - 1) (λ vid '(active_row, active_col, col_set),
      let* b := vget index vid in
      if b : bool then
        let* start := vget vlist vid in
        let* end_ := vget vlist (vid + 1) in
        let* '(active_col, col_set) :=
          for_up start end_ (λ eid '(active_col, col_set),
            let* dst := vget elist eid in
            if decide (dst ∈ col_set) then Ok (active_col, col_set)
            else Ok (active_col + 1, {[dst]} ∪ col_set)) (active_col, col_set) in
        Ok (active_row + 1, active_col, col_set)
      else Ok (active_row, active_col, col_set)) (0, 0, ∅ : gset Z) in
  Ok (active_row, active_col).

(** The sum is a reduction; its order does not matter for integers. *)
Definition get_out_degree (vlist elist row_map : list Z) : res Z :=
  for_up 0 (zlen row_map) (λ row degree,
    let* vid := vget row_map row in
    let* start := vget vlist vid in
    let* end_ := vget vlist (vid + 1) in
    Ok (degree + (end_ - start))) 0.

(** ** Specification *)

(** The active rows. *)
Definition active_ids (index : list bool) (n : Z) : list Z :=
  filter (λ v, index !z v = Some true) (seqZ 0 n).

(** The cells [vlist[v] .. vlist[v+1]) of a vector. *)
Definition cells {A} (vlist : list Z) (l : list A) (v : Z) : list A :=
  match vlist !z v, vlist !z (v + 1) with
  | Some a, Some b => slice l a b
  | _, _ => []
  end.

Definition part {A} (vlist : list Z) (l : list A) (vs : list Z) : list (list A) :=
  cells vlist l <$> vs.

(** All rows, those that are not active empty. *)
Definition masked {A} (vlist : list Z) (l : list A) (index : list bool) (n : Z) : list (list A) :=
  (λ v, if decide (index !z v = Some true) then cells vlist l v else []) <$> seqZ 0 n.

Lemma active_ids_S index i b :
  0 ≤ i → index !z i = Some b → active_ids index (i + 1) = active_ids index i ++ if b then [i] else [].
Proof.
  intros Hi Hb. unfold active_ids. rewrite seqZ_app, filter_app by lia.
  change (seqZ (0 + i) 1) with [i]. rewrite filter_cons, filter_nil, Hb. by destruct b.
Qed.

Lemma masked_S {A} vlist (l : list A) index i b :
  0 ≤ i → index !z i = Some b →
  masked vlist l index (i + 1) = masked vlist l index i ++ [if b then cells vlist l i else []].
Proof.
  intros Hi Hb. unfold masked. rewrite seqZ_app, fmap_app by lia.
  change (seqZ (0 + i) 1) with [i]. simpl. rewrite Hb. by destruct b.
Qed.

Lemma concat_masked {A} vlist (l : list A) index n :
  0 ≤ n → n ≤ zlen index → concat (masked vlist l index n) = concat (part vlist l (active_ids index n)).
Proof.
  intros Hn. pattern n. apply natlike_ind; [done| |done]. clear n Hn. intros n Hn IH Hle. unfold Z.succ in *.
  destruct (zlookup_total index n) as [b Hb]; [lia|].
  rewrite (masked_S _ _ _ _ b), (active_ids_S _ _ b) by done. unfold part. rewrite fmap_app, !concat_app, IH by lia.
  by destruct b.
Qed.

Lemma active_ids_range index n v : v ∈ active_ids index n → 0 ≤ v < n ∧ index !z v = Some true.
Proof. unfold active_ids. rewrite list_elem_of_filter, elem_of_seqZ. intros [H1 H2]. split; [lia|done]. Qed.

(** The graph, its weights and the set of rows fit together. *)
Record part_input {F} (vlist elist : list Z) (weight : list F) (index : list bool) (n : Z) : Prop := {
  pi_len : zlen vlist = n + 1;
  pi_pos : 0 ≤ n;
  pi_csr : csr_okb vlist elist n = true;
  pi_weight : zlen weight = zlen elist;
  pi_index : zlen index = n
}.

Section splice_spec.
Context {F : Type} (vlist elist : list Z) (weight : list F) (index : list bool) (n : Z).
Context (Hin : part_input vlist elist weight index n).

Lemma copy_edges_spec a b be bw esize :
  0 ≤ a ≤ b → b ≤ zlen elist →
  copy_edges elist weight a b (be, bw, esize) =
  Ok (be ++ slice elist a b, bw ++ slice weight a b, esize + (b - a)).
Proof using Hin.
  intros Hab Hb. destruct Hin as [_ _ _ Hw _]. apply wp_eq. unfold copy_edges.
  apply (wp_for_up (λ i '(be', bw', es), be' = be ++ slice elist a i ∧ bw' = bw ++ slice weight a i ∧
    es = esize + (i - a))); [lia| | |].
  - rewrite !slice_nil, !app_nil_r by lia. split_and!; [done..|lia].
  - intros i [[be' bw'] es] Hi (-> & -> & ->). destruct (zlookup_total elist i) as [d Hd]; [lia|].
    destruct (zlookup_total weight i) as [w Hwi]; [lia|]. wp_run.
    rewrite (slice_snoc elist a i d), (slice_snoc weight a i w), !app_assoc by (done || lia).
    split_and!; [done..|lia].
  - by intros [[be' bw'] es] (-> & -> & ->).
Qed.

Lemma cells_slice {A} (l : list A) v a b :
  vlist !z v = Some a → vlist !z (v + 1) = Some b → cells vlist l v = slice l a b.
Proof. unfold cells. by intros -> ->. Qed.

Lemma zlen_cells {A} (l : list A) v :
  0 ≤ v < n → zlen l = zlen elist → ∃ a b, vlist !z v = Some a ∧ vlist !z (v + 1) = Some b ∧
    0 ≤ a ≤ b ∧ b ≤ zlen elist ∧ cells vlist l v = slice l a b ∧ zlen (cells vlist l v) = b - a.
Proof using Hin.
  intros Hv Hl. destruct (csr_okb_spec _ _ _ v (pi_csr _ _ _ _ _ Hin) Hv) as (a & b & Ha & Hb & ? & ?).
  exists a, b. rewrite (cells_slice l v a b) by done. rewrite zlen_slice by lia. done.
Qed.
End splice_spec.

Section splice_claims.
Context {F : Type}.

(** [splice_csr] keeps the active rows, with their weights, and empties the
    others. *)
Theorem splice_csr_correct (vlist elist : list Z) (weight : list F) index n :
  part_input vlist elist weight index n →
  splice_csr vlist elist weight index =
  Ok (offsets (masked vlist elist index n), concat (masked vlist elist index n),
      concat (masked vlist weight index n)).
Proof.
  intros Hin. pose proof Hin as [Hlen Hn Hcsr Hw Hix]. unfold splice_csr. apply wp_eq, wp_bind.
  replace (zlen vlist - 1) with n by lia.
  apply (wp_for_up (λ i '(bv, be, bw, es), bv = offsets (masked vlist elist index i) ∧
    be = concat (masked vlist elist index i) ∧ bw = concat (masked vlist weight index i) ∧ es = zlen be)); [done|done| |].
  - intros i [[[bv be] bw] es] Hi (-> & -> & -> & ->). destruct (zlookup_total index i) as [b Hb]; [lia|].
    destruct (zlen_cells vlist elist weight index n Hin elist i Hi eq_refl) as (a & e & Ha & He & ? & ? & Hc & Hcl).
    rewrite !(masked_S _ _ _ _ b), offsets_snoc, !concat_app by (done || lia). simpl. rewrite !app_nil_r.
    rewrite (vget_ok _ _ _ Hb). destruct b; cbn [rbind negb]; wp_run.
    + rewrite (copy_edges_spec vlist elist weight index n Hin) by lia. simpl.
      rewrite Hc, (cells_slice vlist weight i a e), zlen_app, zlen_slice by (done || lia).
      split_and!; try done.
    + by rewrite !app_nil_r.
  - by intros [[[bv be] bw] es] (-> & -> & -> & ->).
Qed.
End splice_claims.

(** *** Renumbered columns *)

(** The elements of a list, each where it occurs first. *)
Fixpoint first_seen (l : list Z) : list Z :=
  match l with
  | [] => []
  | x :: l' => x :: filter (λ y, y ≠ x) (first_seen l')
  end.

Lemma first_seen_snoc l d : first_seen (l ++ [d]) = if decide (d ∈ l) then first_seen l else first_seen l ++ [d].
Proof.
  induction l as [|x l IH]; [done|]. cbn [app first_seen]. rewrite IH. destruct (decide (d ∈ l)) as [Hd|Hd].
  - rewrite decide_True by (by right). done.
  - rewrite filter_app, filter_cons, filter_nil. destruct (decide (d = x)) as [->|Hne].
    + rewrite (decide_True (P := x ∈ x :: l)), decide_False by (by left || tauto). by rewrite app_nil_r.
    + rewrite decide_True, decide_False by (done || rewrite elem_of_cons; tauto). done.
Qed.

(** The new numbers are the positions in [active]. *)
Record columns_ok (c : columns) : Prop := {
  co_max : maxID c = zlen (active c);
  co_map : ∀ d k, col_map c !! d = Some k ↔ active c !z k = Some d
}.

(** [be] is [orig] with the columns renumbered; every active column is used. *)
Record condensed (c : columns) (be orig : list Z) : Prop := {
  cd_ok : columns_ok c;
  cd_names : Forall2 (λ k d, active c !z k = Some d) be orig;
  cd_used : ∀ d, d ∈ active c ↔ d ∈ orig;
  cd_order : active c = first_seen orig
}.

Lemma condensed_nil : condensed no_columns [] [].
Proof.
  split; [split; [done|]|constructor|done|done]. intros d k. simpl. rewrite lookup_empty. split; [done|].
  intros Hk%zlookup_range. change (zlen []) with 0 in Hk. lia.
Qed.

Lemma columns_NoDup c : columns_ok c → NoDup (active c).
Proof.
  intros [_ Hmap]. apply NoDup_alt. intros i j d Hi Hj. rewrite <-!zlookup_of_nat, <-!Hmap in Hi, Hj.
  assert (Z.of_nat i = Z.of_nat j) by congruence. lia.
Qed.

Lemma see_column_spec c dst :
  columns_ok c →
  columns_ok (see_column dst c) ∧ (∀ k d, active c !z k = Some d → active (see_column dst c) !z k = Some d) ∧
  active (see_column dst c) !z column_id (see_column dst c) dst = Some dst ∧
  (∀ d, d ∈ active (see_column dst c) ↔ d ∈ active c ∨ d = dst).
Proof.
  intros Hok. pose proof Hok as [Hmax Hmap]. unfold see_column, column_id.
  destruct (col_map c !! dst) as [k|] eqn:Hd.
  - split_and!; try done.
    + rewrite Hd. by apply Hmap.
    + intros d. split; [by left|]. intros [?| ->]; [done|]. apply Hmap in Hd. by eapply zlookup_elem.
  - assert (∀ k d, active c !z k = Some d → (active c ++ [dst]) !z k = Some d) as Hext.
    { intros k d Hk. rewrite zlookup_app_l; [done|]. apply zlookup_range in Hk. lia. }
    assert ((active c ++ [dst]) !z maxID c = Some dst) as Hnew by (rewrite zlookup_app_r, Hmax, Z.sub_diag; done || lia).
    split_and!; simpl.
    + split; simpl; [zlen_simpl; lia|]. intros d k. rewrite lookup_insert. case_decide as Hdd.
      * subst d. split; [by intros [= <-]|]. intros Hk. f_equal. destruct (decide (k < zlen (active c))).
        { rewrite zlookup_app_l, <-Hmap in Hk by done. congruence. }
        apply zlookup_range in Hk. rewrite zlen_app in Hk. change (zlen [dst]) with 1 in Hk. lia.
      * rewrite Hmap. split; [apply Hext|]. intros Hk. destruct (decide (k < zlen (active c))).
        { by rewrite zlookup_app_l in Hk. }
        rewrite zlookup_app_r in Hk by lia. apply zlookup_elem, list_elem_of_singleton in Hk. congruence.
    + done.
    + by rewrite lookup_insert_eq.
    + intros d. by rewrite elem_of_app, list_elem_of_singleton.
Qed.

Lemma condensed_see c be orig dst :
  condensed c be orig →
  condensed (see_column dst c) (be ++ [column_id (see_column dst c) dst]) (orig ++ [dst]).
Proof.
  intros [Hok Hn Hu Ho]. destruct (see_column_spec c dst Hok) as (Hok' & Hext & Hnew & Hel). split; [done| | |].
  - apply Forall2_app; [|by repeat constructor]. eapply Forall2_impl; [exact Hn|]. auto.
  - intros d. rewrite Hel, elem_of_app, list_elem_of_singleton, Hu. done.
  - rewrite first_seen_snoc, <-Ho. unfold see_column. destruct (col_map c !! dst) as [k|] eqn:Hd.
    + apply (co_map _ Hok), zlookup_elem in Hd. by rewrite decide_True by (by apply Hu).
    + rewrite decide_False; [done|]. intros [k Hk]%Hu%elem_zlookup. apply (co_map _ Hok) in Hk. congruence.
Qed.

Lemma condense_edges_spec {F} elist (weight : list F) a b be bw esize c orig :
  0 ≤ a ≤ b → b ≤ zlen elist → zlen weight = zlen elist → condensed c be orig →
  wp (condense_edges elist weight a b (be, bw, esize, c)) (λ '(be', bw', es, c'),
    condensed c' be' (orig ++ slice elist a b) ∧ bw' = bw ++ slice weight a b ∧ es = esize + (b - a)).
Proof.
  intros Hab Hb Hw Hc. unfold condense_edges.
  apply (wp_for_up (λ i '(be', bw', es, c'), condensed c' be' (orig ++ slice elist a i) ∧
    bw' = bw ++ slice weight a i ∧ es = esize + (i - a))); [lia| | |].
  - rewrite !slice_nil, !app_nil_r by lia. split_and!; [done..|lia].
  - intros i [[[be' bw'] es] c'] Hi (Hc' & -> & ->). destruct (zlookup_total elist i) as [d Hd]; [lia|].
    destruct (zlookup_total weight i) as [w Hwi]; [lia|]. wp_run.
    rewrite (slice_snoc elist a i d), (slice_snoc weight a i w), !app_assoc by (done || lia).
    split_and!; [by apply condensed_see|done|lia].
  - by intros [[[be' bw'] es] c'].
Qed.

Section condense_claims.
Context {F : Type}.

Lemma condense_spec (vlist elist : list Z) (weight : list F) index n :
  part_input vlist elist weight index n →
  wp (splice_csr_condense_row_and_col vlist elist weight index) (λ '(bv, be, bw, rows, cols),
    let g := part vlist elist (active_ids index n) in
    rows = active_ids index n ∧ bv = offsets g ∧ bw = concat (part vlist weight (active_ids index n)) ∧
    ∃ c, cols = active c ∧ condensed c be (concat g)).
Proof.
  intros Hin. pose proof Hin as [Hlen Hn Hcsr Hw Hix]. unfold splice_csr_condense_row_and_col. apply wp_bind.
  replace (zlen vlist - 1) with n by lia.
  apply (wp_for_up (λ i '(bv, be, bw, es, rows, c), rows = active_ids index i ∧
    bv = offsets (part vlist elist rows) ∧ condensed c be (concat (part vlist elist rows)) ∧
    bw = concat (part vlist weight rows) ∧ es = zlen be)); [done| | |].
  - split_and!; try done. apply condensed_nil.
  - intros i [[[[[bv be] bw] es] rows] c] Hi (-> & -> & Hc & -> & ->). destruct (zlookup_total index i) as [b Hb]; [lia|].
    destruct (zlen_cells vlist elist weight index n Hin elist i Hi eq_refl) as (a & e & Ha & He & ? & ? & Hce & Hcl).
    rewrite !(active_ids_S _ _ b) by (done || lia). rewrite (vget_ok _ _ _ Hb).
    destruct b; cbn [rbind]; wp_run; [|by rewrite !app_nil_r].
    eapply wp_mono; [by apply condense_edges_spec; try done; lia|]. intros [[[be' bw'] es] c'] (Hc' & -> & ->).
    cbn [wp]. unfold part in *. rewrite !fmap_app.
    change (cells vlist elist <$> [i]) with [cells vlist elist i]. rewrite offsets_snoc, !concat_app. simpl. rewrite !app_nil_r, Hce.
    rewrite (cells_slice vlist weight i a e) by done. pose proof (zlen_Forall2 _ _ _ (cd_names _ _ _ Hc')) as Hl'.
    pose proof (zlen_Forall2 _ _ _ (cd_names _ _ _ Hc)) as Hl. rewrite zlen_app, zlen_slice in * by lia.
    split_and!; try done; [f_equal; f_equal; lia|lia].
  - intros [[[[[bv be] bw] es] rows] c] (-> & -> & Hc & -> & ->). simpl. split_and!; try done. by exists c.
Qed.

(** C23: condensing rows and columns: the result is the CSR form of the active
    rows, in order, with every column replaced by its position in the list of
    active columns; that list holds the columns of the active rows, without
    duplicates, in the order in which they occur first. *)
Theorem splice_condense_correct (vlist elist : list Z) (weight : list F) index n :
  part_input vlist elist weight index n →
  wp (splice_csr_condense_row_and_col vlist elist weight index) (λ '(bv, be, bw, rows, cols),
    let g := part vlist elist (active_ids index n) in
    rows = active_ids index n ∧ bv = offsets g ∧ Forall2 (λ k d, cols !z k = Some d) be (concat g) ∧
    bw = concat (part vlist weight (active_ids index n)) ∧
    cols = first_seen (concat g) ∧ NoDup cols ∧ ∀ d, d ∈ cols ↔ d ∈ concat g).
Proof.
  intros Hin. eapply wp_mono; [by eapply condense_spec|]. intros [[[[bv be] bw] rows] cols].
  intros (-> & -> & -> & c & -> & [Hok Hnames Hused Hord]). split_and!; try done. by apply columns_NoDup.
Qed.

(** The count of distinct columns. *)
Lemma active_size c be orig : condensed c be orig → zlen (active c) = Z.of_nat (size (list_to_set orig : gset Z)).
Proof.
  intros [Hok _ Hu _]. assert ((list_to_set orig : gset Z) = list_to_set (active c)) as ->.
  { apply set_eq. intros d. by rewrite !elem_of_list_to_set, Hu. }
  rewrite size_list_to_set by (by apply columns_NoDup). done.
Qed.

Lemma union_in (cs : gset Z) d : d ∈ cs → cs ∪ {[d]} = cs.
Proof. intros Hd. clear -Hd. set_solver. Qed.

Lemma size_add (cs : gset Z) d : d ∉ cs → size (cs ∪ {[d]}) = S (size cs).
Proof. intros Hd. rewrite size_union by set_solver. rewrite size_singleton. lia. Qed.

Lemma get_active_row_and_col_spec (vlist elist : list Z) (weight : list F) index n :
  part_input vlist elist weight index n →
  get_active_row_and_col vlist elist index = Ok (zlen (active_ids index n),
    Z.of_nat (size (list_to_set (concat (part vlist elist (active_ids index n))) : gset Z))).
Proof.
  intros Hin. pose proof Hin as [Hlen Hn Hcsr Hw Hix]. unfold get_active_row_and_col. apply wp_eq, wp_bind.
  replace (zlen vlist - 1) with n by lia.
  apply (wp_for_up (λ i '(row, col, cs), row = zlen (active_ids index i) ∧
    cs = list_to_set (concat (part vlist elist (active_ids index i))) ∧ col = Z.of_nat (size cs))); [done|done| |].
  - intros i [[row col] cs] Hi (-> & -> & ->). destruct (zlookup_total index i) as [b Hb]; [lia|].
    destruct (zlen_cells vlist elist weight index n Hin elist i Hi eq_refl) as (a & e & Ha & He & ? & ? & Hce & Hcl).
    rewrite (active_ids_S _ _ b) by (done || lia). rewrite (vget_ok _ _ _ Hb).
    destruct b; cbn [rbind]; wp_run; [|by rewrite !app_nil_r].
    set (cs0 := list_to_set _ : gset Z).
    apply (wp_for_up (λ j '(col, cs), cs = cs0 ∪ list_to_set (slice elist a j) ∧ col = Z.of_nat (size cs))); [lia| | |].
    + rewrite slice_nil, list_to_set_nil by lia. by rewrite (right_id_L ∅ (∪)).
    + intros j [col cs] Hj [-> ->]. destruct (zlookup_total elist j) as [d Hd]; [lia|]. wp_run.
      rewrite (slice_snoc elist a j d), list_to_set_app_L by (done || lia). simpl.
      rewrite (right_id_L ∅ (∪)), (assoc_L (∪) cs0 _ {[d]}). set (cs1 := cs0 ∪ list_to_set (slice elist a j)) in *. case_decide; cbn [wp].
      * by rewrite union_in.
      * split; [by rewrite (comm_L (∪))|]. rewrite (comm_L (∪) {[d]}), size_add by done. lia.
    + intros [col cs] [-> ->]. cbn [wp]. unfold part. rewrite fmap_app.
      change (cells vlist elist <$> [i]) with [cells vlist elist i]. rewrite concat_app. simpl.
      rewrite app_nil_r, list_to_set_app_L, Hce. split_and!; [zlen_simpl; lia|done..].
  - by intros [[row col] cs] (-> & -> & ->).
Qed.

Lemma get_out_degree_spec (vlist elist : list Z) (weight : list F) index n rows :
  part_input vlist elist weight index n → (∀ v, v ∈ rows → 0 ≤ v < n) →
  get_out_degree vlist elist rows = Ok (zlen (concat (part vlist elist rows))).
Proof.
  intros Hin Hrows. unfold get_out_degree. apply wp_eq.
  apply (wp_for_up (λ i d, d = zlen (concat (part vlist elist (slice rows 0 i))))).
  - apply zlen_nonneg.
  - by rewrite slice_nil by lia.
  - intros i d Hi ->. destruct (zlookup_total rows i Hi) as [v Hv].
    destruct (zlen_cells vlist elist weight index n Hin elist v) as (a & e & Ha & He & ? & ? & Hce & Hcl);
      [by apply Hrows; eapply zlookup_elem|done|].
    wp_run. rewrite (slice_snoc rows 0 i v) by (done || lia). unfold part. rewrite fmap_app, concat_app, zlen_app.
    simpl. rewrite app_nil_r. lia.
  - intros d ->. by rewrite slice_full.
Qed.

(** C24: the sizes that [get_active_row_and_col] and [get_out_degree] report are
    those of the graph that [splice_csr_condense_row_and_col] builds: its
    active rows, its active columns and its edges. *)
Theorem part_sizes_correct (vlist elist : list Z) (weight : list F) index n :
  part_input vlist elist weight index n →
  wp (splice_csr_condense_row_and_col vlist elist weight index) (λ '(_, be, _, rows, cols),
    get_active_row_and_col vlist elist index = Ok (zlen rows, zlen cols) ∧
    get_out_degree vlist elist rows = Ok (zlen be)).
Proof.
  intros Hin. eapply wp_mono; [by eapply condense_spec|]. intros [[[[bv be] bw] rows] cols].
  intros (-> & -> & -> & c & -> & Hc). rewrite (get_active_row_and_col_spec _ _ weight _ n) by done.
  rewrite (active_size _ _ _ Hc). split; [done|].
  rewrite (get_out_degree_spec vlist elist weight index n), (zlen_Forall2 _ _ _ (cd_names _ _ _ Hc)); try done.
  intros v Hv. by destruct (active_ids_range _ _ _ Hv).
Qed.
End condense_claims.

(** ** A small graph *)

Definition small_vlist : list Z := [0; 2; 3; 5].
Definition small_elist : list Z := [1; 2; 0; 2; 0].
Definition small_weight : list Z := [10; 11; 12; 13; 14].
Definition small_index : list bool := [true; false; true].

Lemma small_part_input : part_input small_vlist small_elist small_weight small_index 3.
Proof. by split. Qed.

Lemma splice_csr_correct_witness :
  splice_csr small_vlist small_elist small_weight small_index = Ok ([0; 2; 2; 4], [1; 2; 2; 0], [10; 11; 13; 14]).
Proof. rewrite (splice_csr_correct _ _ _ _ 3 small_part_input). reflexivity. Defined.

Lemma splice_condense_correct_witness :
  wp (splice_csr_condense_row_and_col small_vlist small_elist small_weight small_index) (λ '(bv, be, bw, rows, cols),
    let g := part small_vlist small_elist (active_ids small_index 3) in
    rows = active_ids small_index 3 ∧ bv = offsets g ∧ Forall2 (λ k d, cols !z k = Some d) be (concat g) ∧
    bw = concat (part small_vlist small_weight (active_ids small_index 3)) ∧
    cols = first_seen (concat g) ∧ NoDup cols ∧ ∀ d, d ∈ cols ↔ d ∈ concat g).
Proof. apply (splice_condense_correct _ _ _ _ 3 small_part_input). Defined.

Lemma part_sizes_correct_witness :
  wp (splice_csr_condense_row_and_col small_vlist small_elist small_weight small_index) (λ '(_, be, _, rows, cols),
    get_active_row_and_col small_vlist small_elist small_index = Ok (zlen rows, zlen cols) ∧
    get_out_degree small_vlist small_elist rows = Ok (zlen be)).
Proof. apply (part_sizes_correct _ _ _ _ 3 small_part_input). Defined.
