(* ===== verification/SelfLoop.v ===== *)
(** * Self loops

    [add_self_loop.h]: add the edge from every vertex to itself, keeping rows
    sorted.  The CSR version reads [elist_ptr[eid]] before it tests
    [eid == end]; the COO version reads the cells behind its arrays, so what is
    readable there is an argument. *)

From S2P Require Import Prelude Csr Convert.

(** ** Operations *)

(** [for (eid = start; eid < end && elist_ptr[eid] < vid; ++eid)]. *)
Definition copy_smaller (elist_ptr : list Z) (vid start end_ : Z) (elist : list Z) : res (Z * list Z) :=
  while (S (Z.to_nat (end_ - start)))
    (λ '(eid, _), if eid <? end_ then let* x := vget elist_ptr eid in Ok (x <? vid) else Ok false)
    (λ '(eid, elist), let* x := vget elist_ptr eid in Ok (eid + 1, elist ++ [x])) (start, elist).

(** [vlist_buf.size - 1] wraps around for an empty array, and the first access is then
    out of bounds. *)
Definition add_self_loop_csr (vlist_ptr elist_ptr : list Z) : res (list Z * list Z) :=
  if zlen vlist_ptr =? 0 then Err OutOfBounds else
  let vertex_cnt := zlen vlist_ptr - 1 in
  for_up 0 vertex_cnt (λ vid '(vlist, elist),
    let* start := vget vlist_ptr vid in
    let* end_ := vget vlist_ptr (vid + 1) in
    let* '(eid, elist) := copy_smaller elist_ptr vid start end_ elist in
    let* x := vget elist_ptr eid in
    let elist := if negb (x =? vid) || (eid =? end_) then elist ++ [vid] else elist in
    let* elist := for_up eid end_ (λ eid elist,
      let* x := vget elist_ptr eid in Ok (elist ++ [x])) elist in
    Ok (vlist ++ [zlen elist], elist)) ([0], []).

(** The COO version: position, edge read last, output. *)
Record cursor := Cursor { eid : Z; src_id : Z; dst_id : Z; src : list Z; dst : list Z }.

(** Output the edge, move on, read the next one. *)
Definition take_edge (src_ptr dst_ptr : list Z) (c : cursor) : res cursor :=
  let* s := vget src_ptr (eid c + 1) in
  let* d := vget dst_ptr (eid c + 1) in
  Ok (Cursor (eid c + 1) s d (src c ++ [src_id c]) (dst c ++ [dst_id c])).

Definition coo_round (src_ptr dst_ptr : list Z) (vid : Z) (c : cursor) : res cursor :=
  let fuel := S (length src_ptr) in
  let* s := vget src_ptr (eid c) in
  let* d := vget dst_ptr (eid c) in
  let c := Cursor (eid c) s d (src c) (dst c) in
  let* c := while fuel (λ c, Ok ((src_id c =? vid) && (dst_id c <? vid))) (take_edge src_ptr dst_ptr) c in
  let* c :=
    if (src_id c =? vid) && (dst_id c =? vid) then take_edge src_ptr dst_ptr c
    else Ok (Cursor (eid c) (src_id c) (dst_id c) (src c ++ [vid]) (dst c ++ [vid])) in
  while fuel (λ c, Ok (src_id c =? vid)) (take_edge src_ptr dst_ptr) c.

(** [vid == vertex_cnt] leaves the loop, so there are at most [vertex_cnt]
    rounds for a graph that has vertices.  [behind_src] and [behind_dst] are the cells
    readable behind the arrays [np_src] and [np_dst]: none, as far as the language says. *)
Definition add_self_loop_coo (behind_src behind_dst np_src np_dst : list Z) (vertex_cnt : Z) : res (list Z * list Z) :=
  let src_ptr := np_src ++ behind_src in
  let dst_ptr := np_dst ++ behind_dst in
  let edge_cnt := zlen np_src in
  let* '(vid, c, _) :=
    while (S (Z.to_nat vertex_cnt)) (λ '(_, c, stop), Ok ((eid c <? edge_cnt) && negb stop))
      (λ '(vid, c, _),
        let* c := coo_round src_ptr dst_ptr vid c in
        Ok (vid + 1, c, vid + 1 =? vertex_cnt)) (0, Cursor 0 0 0 [] [], false) in
  for_up vid vertex_cnt (λ vid '(src, dst), Ok (src ++ [vid], dst ++ [vid])) (src c, dst c).

(** ** Specification *)

(** Row [r] of vertex [v] with the self loop. *)
Fixpoint add_loop (v : Z) (r : list Z) : list Z :=
  match r with
  | [] => [v]
  | x :: r' => if x <? v then x :: add_loop v r' else if x =? v then r else v :: r
  end.

(** The rows of a graph, numbered from [v], with their self loops. *)
Fixpoint add_loops (v : Z) (g : list (list Z)) : list (list Z) :=
  match g with
  | [] => []
  | r :: g' => add_loop v r :: add_loops (v + 1) g'
  end.

Lemma add_loop_elem v r x : x ∈ add_loop v r ↔ x = v ∨ x ∈ r.
Proof.
  induction r as [|y r IH]; simpl.
  - rewrite list_elem_of_singleton, elem_of_nil. tauto.
  - destruct (Z.ltb_spec y v); [rewrite !elem_of_cons, IH; tauto|].
    destruct (Z.eqb_spec y v) as [->|]; rewrite !elem_of_cons; tauto.
Qed.

Lemma add_loop_sorted v r : StronglySorted Z.lt r → StronglySorted Z.lt (add_loop v r).
Proof.
  induction 1 as [|y r Hr IH Hy]; simpl; [by repeat constructor|].
  destruct (Z.ltb_spec y v).
  - constructor; [done|]. apply Forall_forall. intros x [->|Hx]%add_loop_elem; [done|].
    rewrite Forall_forall in Hy. auto.
  - destruct (Z.eqb_spec y v) as [->|]; [by constructor|]. constructor; [by constructor|].
    constructor; [lia|]. eapply Forall_impl; [exact Hy|]. simpl. lia.
Qed.

Lemma add_loop_split v r (j : nat) :
  Forall (λ x, x < v) (take j r) → (∀ x, r !! j = Some x → v ≤ x) →
  add_loop v r = take j r ++ (if decide (r !! j = Some v) then [] else [v]) ++ drop j r.
Proof.
  revert j. induction r as [|y r IH]; intros j Hlt Hge; simpl.
  - by destruct j.
  - destruct j as [|j]; simpl in *.
    + specialize (Hge y eq_refl). destruct (Z.ltb_spec y v); [lia|]. destruct (Z.eqb_spec y v) as [->|].
      * by rewrite decide_True.
      * rewrite decide_False by congruence. done.
    + apply Forall_cons in Hlt as [Hy Hlt]. destruct (Z.ltb_spec y v); [|lia]. f_equal. by apply IH.
Qed.

Lemma add_loops_app v g1 g2 : add_loops v (g1 ++ g2) = add_loops v g1 ++ add_loops (v + zlen g1) g2.
Proof.
  revert v. induction g1 as [|r g1 IH]; intros v; simpl.
  - by rewrite zlen_nil, Z.add_0_r.
  - rewrite IH, zlen_cons. do 3 f_equal. lia.
Qed.

Lemma add_loops_lookup v g i r : g !z i = Some r → add_loops v g !z i = Some (add_loop (v + i) r).
Proof.
  intros Hi. pose proof (zlookup_range _ _ _ Hi). rewrite zlookup_nonneg in * by lia. replace (v + i) with (v + Z.of_nat (Z.to_nat i)) by lia.
  revert v Hi. generalize (Z.to_nat i). clear. induction g as [|r' g IH]; intros [|k] v Hi; try done.
  - injection Hi as ->. by rewrite Z.add_0_r.
  - etrans; [by apply (IH k (v + 1))|]. do 2 f_equal. lia.
Qed.

Lemma zlen_0_inv {A} (l : list A) : zlen l = 0 → l = [].
Proof. destruct l; [done|]. unfold zlen. simpl. lia. Qed.

Lemma zlen_add_loops v g : zlen (add_loops v g) = zlen g.
Proof. revert v. induction g; intros v; simpl; zlen_simpl; [done|]. rewrite IHg. done. Qed.

(** *** CSR *)

(** The unguarded read of row [v] stays in the array. *)
Definition read_okb (vlist elist : list Z) (v : Z) : bool :=
  existsb (λ x, v <=? x) (csr_row vlist elist v) ||
  match vlist !z (v + 1) with Some b => b <? zlen elist | None => false end.

Lemma copy_smaller_spec elist vid a b acc :
  0 ≤ a ≤ b → b ≤ zlen elist →
  wp (copy_smaller elist vid a b acc) (λ '(e, acc'), a ≤ e ≤ b ∧ acc' = acc ++ slice elist a e ∧
    Forall (λ x, x < vid) (slice elist a e) ∧ (e < b → ∃ x, elist !z e = Some x ∧ vid ≤ x)).
Proof.
  intros Hab Hb. unfold copy_smaller.
  apply (wp_while_rel (λ '(e, acc') m, a ≤ e ≤ b ∧ acc' = acc ++ slice elist a e ∧
    Forall (λ x, x < vid) (slice elist a e) ∧ m = Z.to_nat (b - e)) (Z.to_nat (b - a))); [|lia|].
  - rewrite slice_nil, app_nil_r by lia. split_and!; done || lia.
  - intros [e acc'] m (He & -> & Hlt & ->). destruct (Z.ltb_spec e b) as [Heb|]; [|by split_and!; done || lia].
    destruct (zlookup_total elist e) as [x Hx]; [lia|]. wp_run. destruct (Z.ltb_spec x vid).
    + wp_run. exists (Z.to_nat (b - (e + 1))). split; [|lia].
      rewrite (slice_snoc elist a e x), app_assoc by (done || lia). split_and!; try done; try lia.
      apply Forall_app. split; [done|by repeat constructor].
    + split_and!; try done; try lia. intros _. by exists x.
Qed.

Lemma lookup_slice_end (l : list Z) a b e :
  0 ≤ a ≤ e → e ≤ b → b ≤ zlen l → slice l a b !! Z.to_nat (e - a) = if decide (e < b) then l !z e else None.
Proof.
  intros Ha He Hb. rewrite <-zlookup_nonneg by lia. case_decide.
  - rewrite zlookup_slice by lia. f_equal. lia.
  - apply zlookup_None. right. rewrite zlen_slice; lia.
Qed.

Lemma take_slice (l : list Z) a b e :
  0 ≤ a ≤ e → e ≤ b → b ≤ zlen l → take (Z.to_nat (e - a)) (slice l a b) = slice l a e.
Proof. intros Ha He Hb. unfold slice. rewrite take_take. f_equal. lia. Qed.

Lemma drop_slice (l : list Z) a b e :
  0 ≤ a ≤ e → e ≤ b → b ≤ zlen l → drop (Z.to_nat (e - a)) (slice l a b) = slice l e b.
Proof.
  intros Ha He Hb. unfold slice. rewrite skipn_firstn_comm, drop_drop.
  f_equal; [lia|]. f_equal. lia.
Qed.

(** A loop whose rounds either go on or stop with one error. *)
Lemma for_up_guard {A} (st : Z → A) (g : Z → bool) err lo hi (f : Z → A → res A) :
  lo ≤ hi → (∀ i, lo ≤ i < hi → f i (st i) = if g i then Ok (st (i + 1)) else Err err) →
  for_up lo hi f (st lo) = if forallb g (seqZ lo (hi - lo)) then Ok (st hi) else Err err.
Proof.
  intros Hle Hf. remember (Z.to_nat (hi - lo)) as k eqn:Hk. revert lo Hle Hf Hk. induction k as [|k IH]; intros lo Hle Hf Hk.
  - assert (lo = hi) as -> by lia. by rewrite for_up_nil, Z.sub_diag by lia.
  - rewrite for_up_cons, Hf, seqZ_cons by lia. simpl. destruct (g lo); [|done]. simpl.
    rewrite IH; [|lia|intros; apply Hf; lia|lia]. replace (hi - (lo + 1)) with (Z.pred (hi - lo)) by lia. done.
Qed.

Definition loop_rows (vlist elist : list Z) (n : Z) : list (list Z) :=
  (λ v, add_loop v (csr_row vlist elist v)) <$> seqZ 0 n.

Lemma loop_rows_S vlist elist i :
  0 ≤ i → loop_rows vlist elist (i + 1) = loop_rows vlist elist i ++ [add_loop i (csr_row vlist elist i)].
Proof.
  intros Hi. unfold loop_rows. rewrite seqZ_app, fmap_app by lia. by change (seqZ (0 + i) 1) with [i].
Qed.

(** C25: [add_self_loop_csr] on a CSR graph whose last offset is the number of
    edges: if in every row some successor is not smaller than the vertex, or
    the row does not end at the end of the array, the result has every self loop
    exactly once: a sorted row stays sorted and gains only its own vertex.
    Otherwise the call reads past the end of the edge array. *)
Theorem add_self_loop_csr_correct vlist elist n :
  csr_okb vlist elist n = true → 0 ≤ n → zlen vlist = n + 1 →
  add_self_loop_csr vlist elist =
    (if forallb (read_okb vlist elist) (seqZ 0 n)
     then Ok (offsets (loop_rows vlist elist n), concat (loop_rows vlist elist n)) else Err OutOfBounds) ∧
  ∀ v, 0 ≤ v < n → ∃ r, loop_rows vlist elist n !z v = Some r ∧
    (∀ x, x ∈ r ↔ x = v ∨ x ∈ csr_row vlist elist v) ∧
    (StronglySorted Z.lt (csr_row vlist elist v) → StronglySorted Z.lt r).
Proof.
  intros Hok Hn Hlen. split.
  2: { intros v Hv. exists (add_loop v (csr_row vlist elist v)). split_and!.
    - unfold loop_rows. rewrite zlookup_fmap, zlookup_seqZ by lia. done.
    - intros x. apply add_loop_elem.
    - apply add_loop_sorted. }
  unfold add_self_loop_csr. destruct (Z.eqb_spec (zlen vlist) 0); [lia|]. replace (zlen vlist - 1) with n by lia. cbv zeta.
  pose proof (for_up_guard (λ i, (offsets (loop_rows vlist elist i), concat (loop_rows vlist elist i)))
    (read_okb vlist elist) OutOfBounds 0 n) as Hg. rewrite Z.sub_0_r in Hg. apply Hg; [done|]. clear Hg.
  intros i Hi. cbn beta. destruct (csr_okb_spec _ _ _ i Hok Hi) as (a & b & Ha & Hb & Hab & Hbl).
  rewrite (vget_ok _ _ _ Ha), (vget_ok _ _ _ Hb). cbn [rbind].
  destruct (wp_inv _ _ (copy_smaller_spec elist i a b (concat (loop_rows vlist elist i)) Hab Hbl))
    as ([e acc] & -> & He & -> & Hlt & Hge). cbn [rbind].
  pose proof (csr_row_slice vlist elist i a b Ha Hb) as Hrow.
  unfold read_okb. rewrite Hb, loop_rows_S, offsets_snoc, concat_app by lia. simpl. rewrite app_nil_r, Hrow.
  set (r := slice elist a b).
  pose proof (lookup_slice_end elist a b e ltac:(lia) ltac:(lia) Hbl) as Hlk.
  pose proof (take_slice elist a b e ltac:(lia) ltac:(lia) Hbl) as Htk.
  pose proof (drop_slice elist a b e ltac:(lia) ltac:(lia) Hbl) as Hdr. fold r in Hlk, Htk, Hdr.
  rewrite (add_loop_split i r (Z.to_nat (e - a))), Hlk, Htk, Hdr.
  2: by rewrite Htk.
  2: { rewrite Hlk. case_decide; [|done]. intros x Hx. destruct Hge as (y & Hy & ?); [done|]. by simplify_eq. }
  destruct (decide (e < b)) as [Hlt'|].
  - destruct Hge as (x & Hx & Hxi); [done|]. rewrite (vget_ok _ _ _ Hx), Hx. cbn [rbind].
    assert (existsb (λ x, i <=? x) r = true) as ->.
    { apply existsb_exists. exists x. split; [|lia]. apply list_elem_of_In. unfold r.
      apply zlookup_elem with (e - a). rewrite zlookup_slice by lia. rewrite <-Hx. f_equal. lia. }
    simpl. destruct (Z.eqb_spec e b); [lia|]. rewrite orb_false_r.
    destruct (Z.eqb_spec x i) as [->|]; simpl; rewrite for_up_copy by lia; simpl.
    + rewrite decide_True by done. simpl. by rewrite !app_assoc.
    + rewrite decide_False by congruence. by rewrite !app_assoc.
  - assert (e = b) as -> by lia.
    assert (existsb (λ x, i <=? x) r = false) as ->.
    { apply not_true_is_false. rewrite existsb_exists. intros (x & Hx%list_elem_of_In & ?).
      rewrite Forall_forall in Hlt. specialize (Hlt x Hx). lia. }
    simpl. destruct (Z.ltb_spec b (zlen elist)) as [Hbl'|].
    + destruct (zlookup_total elist b) as [x Hx]; [lia|]. rewrite (vget_ok _ _ _ Hx). cbn [rbind].
      rewrite Z.eqb_refl, orb_true_r, for_up_nil, (slice_nil elist b b) by lia. simpl. by rewrite app_assoc.
    + unfold vget. destruct (zlookup_None elist b) as [_ ->]; [done|by right].
Qed.

Lemma add_self_loop_csr_correct_witness :
  add_self_loop_csr [0; 2; 3; 4] [1; 2; 0; 2] = Ok ([0; 3; 5; 6], [0; 1; 2; 0; 1; 2]).
Proof. rewrite (proj1 (add_self_loop_csr_correct [0; 2; 3; 4] [1; 2; 0; 2] 3 eq_refl ltac:(lia) eq_refl)). reflexivity. Defined.

(** *** COO *)

(** The edges [o .. o + zlen r) of the arrays are row [r] of vertex [v], and the
    next cells are readable and belong to another source. *)
Record row_at (src_ptr dst_ptr : list Z) (v o : Z) (r : list Z) : Prop := {
  ra_pos : 0 ≤ o;
  ra_row : ∀ j d, r !z j = Some d → src_ptr !z (o + j) = Some v ∧ dst_ptr !z (o + j) = Some d;
  ra_end : ∃ s d, src_ptr !z (o + zlen r) = Some s ∧ s ≠ v ∧ dst_ptr !z (o + zlen r) = Some d
}.

Section round.
Context (src_ptr dst_ptr : list Z) (v o : Z) (r : list Z) (S0 D0 : list Z).
Context (Hrow : row_at src_ptr dst_ptr v o r).

(** Cursor after [j] edges of the row; [l] was output for them. *)
Definition at_edge (j : Z) (l : list Z) (c : cursor) : Prop :=
  0 ≤ j ≤ zlen r ∧ eid c = o + j ∧ src_ptr !z eid c = Some (src_id c) ∧ dst_ptr !z eid c = Some (dst_id c) ∧
  src c = S0 ++ replicate (length l) v ∧ dst c = D0 ++ l.

Lemma at_edge_src j l c : at_edge j l c → if decide (j < zlen r) then src_id c = v ∧ r !z j = Some (dst_id c) else src_id c ≠ v.
Proof using Hrow.
  intros (Hj & He & Hs & Hd & _). destruct Hrow as [Ho Hr (s & d & Hse & Hne & Hde)]. rewrite He in *. case_decide.
  - destruct (zlookup_total r j) as [x Hx]; [lia|]. destruct (Hr j x Hx). split; congruence.
  - assert (j = zlen r) as -> by lia. congruence.
Qed.

Lemma replicate_snoc (l : list Z) x : replicate (length l) v ++ [v] = replicate (length (l ++ [x])) v.
Proof. rewrite length_app. simpl. rewrite Nat.add_1_r, <-replicate_S_end. done. Qed.

Lemma take_edge_spec j l c :
  at_edge j l c → j < zlen r →
  wp (take_edge src_ptr dst_ptr c) (at_edge (j + 1) (l ++ [dst_id c])).
Proof using Hrow.
  intros Hc Hj. pose proof (at_edge_src j l c Hc) as Hsrc. rewrite decide_True in Hsrc by done. destruct Hsrc as [Hs Hd].
  destruct Hc as (Hj0 & He & _ & _ & HS & HD).
  assert (∃ s d, src_ptr !z (o + (j + 1)) = Some s ∧ dst_ptr !z (o + (j + 1)) = Some d) as (s & d & Hs1 & Hd1).
  { destruct Hrow as [Ho Hr (s & d & Hse & _ & Hde)]. destruct (decide (j + 1 < zlen r)).
    - destruct (zlookup_total r (j + 1)) as [x Hx]; [lia|]. destruct (Hr _ _ Hx). eauto.
    - assert (j + 1 = zlen r) as -> by lia. eauto. }
  unfold take_edge. rewrite He, <-Z.add_assoc. rewrite (vget_ok _ _ _ Hs1), (vget_ok _ _ _ Hd1). simpl.
  unfold at_edge. simpl. rewrite Hs, HS, HD, <-!app_assoc, (replicate_snoc l (dst_id c)). split_and!; done || lia.
Qed.

Lemma coo_round_spec c :
  eid c = o → src c = S0 → dst c = D0 →
  wp (coo_round src_ptr dst_ptr v c) (at_edge (zlen r) (add_loop v r)).
Proof using Hrow.
  intros He HS HD. pose proof (zlen_nonneg r) as Hlr.
  assert (∃ s d, src_ptr !z o = Some s ∧ dst_ptr !z o = Some d) as (s & d & Hs & Hd).
  { destruct Hrow as [Ho Hr (s & d & Hse & _ & Hde)]. destruct (decide (0 < zlen r)).
    - destruct (zlookup_total r 0) as [x Hx]; [lia|]. destruct (Hr _ _ Hx) as [H1 H2]. rewrite Z.add_0_r in *. eauto.
    - replace (zlen r) with 0 in * by lia. rewrite Z.add_0_r in *. eauto. }
  assert (zlen r < Z.of_nat (S (length src_ptr))) as Hfuel.
  { destruct Hrow as [Ho _ (s' & d' & Hse & _)]. apply zlookup_range in Hse. unfold zlen in *. lia. }
  unfold coo_round. rewrite He, (vget_ok _ _ _ Hs), (vget_ok _ _ _ Hd). cbn [rbind]. apply wp_bind.
  apply (wp_while_rel (λ c m, ∃ j, at_edge j (slice r 0 j) c ∧ Forall (λ x, x < v) (slice r 0 j) ∧
    m = Z.to_nat (zlen r - j)) (Z.to_nat (zlen r))); [|lia|].
  { exists 0. rewrite slice_nil by lia. unfold at_edge. simpl. rewrite HS, HD, !app_nil_r, Z.add_0_r. split_and!; done || lia. }
  intros c1 m (j & Hc & Hlt & ->). cbn [wp]. pose proof (at_edge_src _ _ _ Hc) as Hsrc. pose proof (proj1 Hc) as Hj.
  destruct (_ && _) eqn:Hcond.
  { apply andb_true_iff in Hcond as [Hc1%Z.eqb_eq Hc2%Z.ltb_lt]. destruct (decide (j < zlen r)); [|done]. destruct Hsrc as [_ Hrj].
    eapply wp_mono; [by apply take_edge_spec|]. intros c2 Hc'. exists (Z.to_nat (zlen r - (j + 1))). split; [|lia].
    exists (j + 1). rewrite (slice_snoc r 0 j (dst_id c1)) by (done || lia). split_and!; try done.
    apply Forall_app. split; [done|by repeat constructor]. }
  assert (∀ x, r !! Z.to_nat j = Some x → v ≤ x) as Hge.
  { intros x Hx. rewrite <-zlookup_nonneg in Hx by lia. pose proof (zlookup_range _ _ _ Hx). rewrite decide_True in Hsrc by lia.
    destruct Hsrc as [Hs1 Hrj]. rewrite Hs1, Z.eqb_refl in Hcond. simplify_eq. simpl in Hcond. lia. }
  pose proof (add_loop_split v r (Z.to_nat j)) as Hal.
  assert (take (Z.to_nat j) r = slice r 0 j) as Htk by (unfold slice; by rewrite Z.sub_0_r, drop_0).
  rewrite Htk in Hal. specialize (Hal Hlt Hge).
  apply wp_bind. apply (wp_mono _ (λ c, ∃ k l, at_edge k l c ∧ add_loop v r = l ++ drop (Z.to_nat k) r)).
  { rewrite <-zlookup_nonneg in Hal by lia. destruct ((src_id c1 =? v) && (dst_id c1 =? v)) eqn:Hc2.
    - apply andb_true_iff in Hc2 as [Hs1%Z.eqb_eq Hd1%Z.eqb_eq]. destruct (decide (j < zlen r)); [|done]. destruct Hsrc as [_ Hrj].
      eapply wp_mono; [by apply take_edge_spec|]. intros c2 Hc'. exists (j + 1), (slice r 0 j ++ [dst_id c1]). split; [done|].
      rewrite Hal, decide_True by congruence. rewrite <-app_assoc. f_equal. simpl.
      rewrite (drop_S r (dst_id c1) (Z.to_nat j)) by (by apply zlookup_Some_nat). do 2 f_equal. lia.
    - cbn [wp]. exists j, (slice r 0 j ++ [v]). destruct Hc as (? & ? & ? & ? & HS' & HD'). split.
      + unfold at_edge. simpl. rewrite HS', HD', <-!app_assoc, (replicate_snoc _ v). done.
      + rewrite Hal, decide_False, <-app_assoc; [done|]. intros Hrj. pose proof (zlookup_range _ _ _ Hrj).
        rewrite decide_True in Hsrc by lia. destruct Hsrc as [Hs1 Hrj']. assert (dst_id c1 = v) as Hd1 by congruence.
        rewrite Hs1, Hd1, !Z.eqb_refl in Hc2. done. }
  intros c2 (k & l & Hc2 & Hall).
  apply (wp_while_rel (λ c m, ∃ k l, at_edge k l c ∧ add_loop v r = l ++ drop (Z.to_nat k) r ∧
    m = Z.to_nat (zlen r - k)) (Z.to_nat (zlen r - k))); [by exists k, l|destruct Hc2; lia|].
  clear -Hrow. intros c m (k & l & Hc & Hall & ->). cbn [wp]. pose proof (at_edge_src _ _ _ Hc) as Hsrc.
  pose proof (proj1 Hc) as Hk. destruct (Z.eqb_spec (src_id c) v) as [Hs|]; case_decide; try done; [| tauto |].
  - destruct Hsrc as [_ Hrk]. eapply wp_mono; [by apply take_edge_spec|]. intros c2 Hc'.
    exists (Z.to_nat (zlen r - (k + 1))). split; [|lia]. exists (k + 1), (l ++ [dst_id c]). split_and!; try done.
    rewrite Hall, <-app_assoc. f_equal. simpl.
    rewrite (drop_S r (dst_id c) (Z.to_nat k)) by (by apply zlookup_Some_nat). do 2 f_equal. lia.
  - assert (k = zlen r) as -> by lia. rewrite drop_ge, app_nil_r in Hall by (unfold zlen; lia). by rewrite Hall.
Qed.
End round.

(** The last row with edges, when the cells behind the arrays are not readable: no cell
    from [o] on has a source other than [v]. *)
Section last_row.
Context (src_ptr dst_ptr : list Z) (v o n : Z).
Context (Honly : ∀ i s d, o ≤ i → src_ptr !z i = Some s → dst_ptr !z i = Some d → s = v ∧ i < n).
Context (Hn : n ≤ zlen src_ptr).

Definition in_last_row (c : cursor) (m : nat) : Prop := o ≤ eid c < n ∧ src_id c = v ∧ m = Z.to_nat (n - eid c).

Lemma take_edge_last c m :
  in_last_row c m → wpe OutOfBounds (take_edge src_ptr dst_ptr c) (λ c', ∃ m', in_last_row c' m' ∧ (m' < m)%nat).
Proof using Honly.
  intros (He & _ & ->). unfold take_edge, vget. destruct (src_ptr !z (eid c + 1)) as [s|] eqn:Hs; [|done]. cbn [rbind].
  destruct (dst_ptr !z (eid c + 1)) as [d|] eqn:Hd; [|done]. cbn [rbind wpe].
  destruct (Honly (eid c + 1) s d) as [-> Hlt]; [lia|done..|]. exists (Z.to_nat (n - (eid c + 1))). unfold in_last_row. simpl. split; [|lia].
  split_and!; (done || lia).
Qed.

(** The round of this row does not return. *)
Lemma coo_round_last c : eid c = o → 0 ≤ o → coo_round src_ptr dst_ptr v c = Err OutOfBounds.
Proof using Honly Hn.
  intros He Ho. apply wpe_err. unfold coo_round. rewrite He. unfold vget at 1. destruct (src_ptr !z o) as [s|] eqn:Hs; [|done]. cbn [rbind].
  unfold vget at 1. destruct (dst_ptr !z o) as [d|] eqn:Hd; [|done]. cbn [rbind]. destruct (Honly o s d) as [-> Hlt]; [lia|done..|].
  assert (∀ c m, in_last_row c m → (m < S (length src_ptr))%nat) as Hfuel by (intros c' m (? & _ & ->); unfold zlen in *; lia).
  assert (in_last_row (Cursor o v d (src c) (dst c)) (Z.to_nat (n - o))) as Hstart by (unfold in_last_row; simpl; split_and!; (done || lia)).
  apply wpe_bind. eapply (wpe_while _ in_last_row); [exact Hstart|by eapply Hfuel|].
  intros c1 m Hc1. cbn [wpe]. destruct (_ && _); [by apply take_edge_last|]. apply wpe_bind.
  apply (wpe_mono _ _ (λ c, ∃ m, in_last_row c m)).
  { destruct (_ && _); [|by exists m]. eapply wpe_mono; [by apply take_edge_last|]. intros c2 (m' & ? & _). by exists m'. }
  intros c2 [m2 Hc2]. eapply (wpe_while _ in_last_row m2); [done|by eapply Hfuel|].
  intros c3 m3 Hc3. cbn [wpe]. rewrite (proj2 (Z.eqb_eq _ _)) by (by destruct Hc3 as (_ & ? & _)). by apply take_edge_last.
Qed.
End last_row.

(** The cells of row [r] between the rows [g1] and [g2], and the cells behind it. *)
Section row_cells.
Context (g1 : list (list Z)) (r : list Z) (g2 : list (list Z)) (behind_src behind_dst : list Z).
Local Abbreviation g := (g1 ++ r :: g2).
Local Abbreviation o := (zlen (concat g1)).
Local Abbreviation rest_src := (src_from (0 + zlen g1 + 1) g2 ++ behind_src).
Local Abbreviation rest_dst := (concat g2 ++ behind_dst).

Lemma row_src j : 0 ≤ j → (src_from 0 g ++ behind_src) !z (o + j) = if decide (j < zlen r) then Some (zlen g1) else rest_src !z (j - zlen r).
Proof.
  intros Hj. rewrite src_from_app. cbn [src_from]. rewrite <-!app_assoc. pose proof (zlen_src_from 0 g1) as Hl1.
  rewrite zlookup_app_r by lia. replace (o + j - zlen (src_from 0 g1)) with j by lia.
  assert (zlen (replicate (length r) (0 + zlen g1)) = zlen r) as Hlr by (rewrite zlen_replicate; done). case_decide.
  - rewrite zlookup_app_l by lia. apply zlookup_replicate. unfold zlen in *. lia.
  - rewrite zlookup_app_r by lia. by rewrite Hlr.
Qed.

Lemma row_dst j : 0 ≤ j → (concat g ++ behind_dst) !z (o + j) = if decide (j < zlen r) then r !z j else rest_dst !z (j - zlen r).
Proof.
  intros Hj. rewrite concat_app. cbn [concat]. rewrite <-!app_assoc. rewrite zlookup_app_r by lia. replace (o + j - o) with j by lia. case_decide.
  - by apply zlookup_app_l.
  - apply zlookup_app_r. lia.
Qed.

(** The round of the row ends when the cells behind it have another source. *)
Lemma row_at_coo s d :
  rest_src !z 0 = Some s → s ≠ zlen g1 → rest_dst !z 0 = Some d →
  row_at (src_from 0 g ++ behind_src) (concat g ++ behind_dst) (zlen g1) o r.
Proof.
  intros Hs Hne Hd. pose proof (zlen_nonneg r). split; [apply zlen_nonneg| |].
  - intros j x Hj. pose proof (zlookup_range _ _ _ Hj). rewrite row_src, row_dst, !decide_True by lia. done.
  - exists s, d. rewrite row_src, row_dst, !decide_False by lia. by rewrite Z.sub_diag.
Qed.

(** The sources of the following rows. *)
Lemma rest_head : concat g2 ≠ [] → ∃ s d, rest_src !z 0 = Some s ∧ s ≠ zlen g1 ∧ rest_dst !z 0 = Some d.
Proof.
  intros Hne. pose proof (zlen_src_from (0 + zlen g1 + 1) g2) as Hl. destruct (concat g2) as [|d l]; [done|]. rewrite zlen_cons in Hl.
  destruct (src_from (0 + zlen g1 + 1) g2) as [|s l'] eqn:Hsrc; [rewrite zlen_nil in Hl; pose proof (zlen_nonneg l); lia|].
  exists s, d. split_and!; [done| |done]. assert (s ∈ src_from (0 + zlen g1 + 1) g2) as Hin%src_from_range; [|lia]. rewrite Hsrc. constructor.
Qed.

(** After the last edge the cells behind the arrays follow. *)
Lemma rest_behind : concat g2 = [] → rest_src = behind_src ∧ rest_dst = behind_dst.
Proof.
  intros Hnil. pose proof (zlen_src_from (0 + zlen g1 + 1) g2) as Hl. rewrite Hnil in *. by rewrite (zlen_0_inv _ Hl).
Qed.

Lemma last_source : concat g2 = [] → r ≠ [] → last (src_from 0 g) = Some (zlen g1).
Proof.
  intros Hnil Hr. pose proof (zlen_src_from (0 + zlen g1 + 1) g2) as Hl. rewrite Hnil in Hl. rewrite src_from_app. cbn [src_from].
  rewrite (zlen_0_inv _ Hl), app_nil_r, last_app. destruct r as [|x r']; [done|]. cbn [length]. rewrite replicate_S_end, last_snoc. done.
Qed.
End row_cells.

(** Vertices after the last edge. *)
Lemma loops_of_empty v g :
  concat g = [] → concat (add_loops v g) = seqZ v (zlen g) ∧ src_from v (add_loops v g) = seqZ v (zlen g).
Proof.
  revert v. induction g as [|r g IH]; intros v Hg; [done|]. simpl in Hg. apply app_eq_nil in Hg as [-> Hg].
  destruct (IH (v + 1) Hg) as [IH1 IH2]. cbn [add_loops add_loop concat src_from length replicate app].
  rewrite IH1, IH2, (seqZ_cons v), zlen_cons by (pose proof (zlen_nonneg g); rewrite zlen_cons; lia).
  unfold Z.succ. by replace (Z.pred (zlen g + 1)) with (zlen g) by lia.
Qed.

Lemma push_range (l l' : list Z) lo hi :
  lo ≤ hi → for_up lo hi (λ vid '(src, dst), Ok (src ++ [vid], dst ++ [vid])) (l, l') =
  Ok (l ++ seqZ lo (hi - lo), l' ++ seqZ lo (hi - lo)).
Proof.
  intros Hle. apply wp_eq. apply (wp_for_up (λ i '(a, b), a = l ++ seqZ lo (i - lo) ∧ b = l' ++ seqZ lo (i - lo))); [done| | |].
  - rewrite Z.sub_diag. by rewrite !app_nil_r.
  - intros i [a b] Hi [-> ->]. simpl. replace (i + 1 - lo) with (i - lo + 1) by lia.
    rewrite seqZ_app by lia. replace (lo + (i - lo)) with i by lia. change (seqZ i 1) with [i]. by rewrite !app_assoc.
  - by intros [a b] [-> ->].
Qed.

(** The rounds before row [r]. *)
Definition coo_inv (g g1 g2 : list (list Z)) (vid : Z) (c : cursor) (stop : bool) : Prop :=
  g = g1 ++ g2 ∧ vid = zlen g1 ∧ eid c = zlen (concat g1) ∧
  src c = src_from 0 (add_loops 0 g1) ∧ dst c = concat (add_loops 0 g1) ∧ (stop = true → g2 = []).

Lemma coo_inv_next g1 r g2 c c' src_ptr dst_ptr :
  coo_inv (g1 ++ r :: g2) g1 (r :: g2) (zlen g1) c false →
  at_edge src_ptr dst_ptr (zlen g1) (zlen (concat g1)) r (src c) (dst c) (zlen r) (add_loop (zlen g1) r) c' →
  coo_inv (g1 ++ r :: g2) (g1 ++ [r]) g2 (zlen g1 + 1) c' (zlen g1 + 1 =? zlen (g1 ++ r :: g2)).
Proof.
  intros (_ & _ & He & HS & HD & _) (_ & He' & _ & _ & HS' & HD'). unfold coo_inv.
  rewrite add_loops_app, src_from_app, !concat_app, zlen_add_loops. simpl.
  rewrite !app_nil_r, <-app_assoc, zlen_app, He', HS', HD', HS, HD. split_and!; try done; [by rewrite zlen_app|].
  rewrite Z.eqb_eq. rewrite zlen_app, !zlen_cons. intros Heq. apply length_zero_iff_nil. unfold zlen in *. lia.
Qed.

(** Nothing is readable behind one of the arrays: the loop leaves it. *)
Lemma coo_past_end behind_src behind_dst g :
  concat g ≠ [] → behind_src = [] ∨ behind_dst = [] →
  add_self_loop_coo behind_src behind_dst (src_from 0 g) (concat g) (zlen g) = Err OutOfBounds.
Proof.
  intros Hne Hbehind. apply wpe_err. unfold add_self_loop_coo. cbv zeta. apply wpe_bind.
  apply (wpe_while _ (λ '(vid, c, stop) m, ∃ g1 g2, coo_inv g g1 g2 vid c stop ∧ concat g2 ≠ [] ∧ m = length g2) (length g)).
  - exists [], g. done.
  - unfold zlen. lia.
  - intros [[vid c] stop] m (g1 & g2 & Hinv & Hg2 & ->). pose proof Hinv as (-> & -> & He & HS & HD & Hstop). cbn [wpe].
    destruct stop; [by rewrite Hstop in Hg2|].
    assert ((eid c <? zlen (src_from 0 (g1 ++ g2))) = true) as ->.
    { rewrite zlen_src_from, He, concat_app, zlen_app. destruct (concat g2) as [|x l]; [done|]. rewrite zlen_cons. pose proof (zlen_nonneg l). lia. }
    cbn [negb andb]. destruct g2 as [|r g2]; [done|]. apply wpe_bind. destruct (decide (concat g2 = [])) as [Hlast|Hmore].
    + rewrite (coo_round_last _ _ (zlen g1) (zlen (concat g1)) (zlen (concat g1) + zlen r)); [done| | |done|apply zlen_nonneg].
      * intros i s d Hi Hs Hd. replace i with (zlen (concat g1) + (i - zlen (concat g1))) in Hs, Hd by lia. rewrite row_src in Hs by lia. rewrite row_dst in Hd by lia.
        destruct (rest_behind g1 g2 behind_src behind_dst Hlast) as [Hrs Hrd]. rewrite Hrs in Hs. rewrite Hrd in Hd. case_decide; [split; [congruence|lia]|].
        exfalso. destruct Hbehind as [-> | ->]; [pose proof (zlookup_range _ _ _ Hs) as Hx|pose proof (zlookup_range _ _ _ Hd) as Hx]; change (zlen []) with 0 in Hx; lia.
      * rewrite zlen_app, zlen_src_from, concat_app, zlen_app. cbn [concat]. rewrite zlen_app. pose proof (zlen_nonneg behind_src). pose proof (zlen_nonneg (concat g2)). lia.
    + destruct (rest_head g1 g2 behind_src behind_dst Hmore) as (s & d & Hs & Hsne & Hd). apply wpe_wp. eapply wp_mono.
      { apply (coo_round_spec _ _ (zlen g1) (zlen (concat g1)) r (src c) (dst c)); try done. by eapply row_at_coo. }
      intros c' Hc'. cbn [wpe]. exists (length g2). split; [|simpl; lia]. exists (g1 ++ [r]), g2. split; [by eapply coo_inv_next|done].
Qed.

(** Without edges nothing is read; otherwise the cell behind the sources ends the last row. *)
Lemma coo_behind behind_src behind_dst g :
  (concat g ≠ [] → ∃ x y, behind_src !z 0 = Some x ∧ behind_dst !z 0 = Some y ∧ last (src_from 0 g) ≠ Some x) →
  add_self_loop_coo behind_src behind_dst (src_from 0 g) (concat g) (zlen g) = Ok (src_from 0 (add_loops 0 g), concat (add_loops 0 g)).
Proof.
  intros Hbehind. apply wp_eq. unfold add_self_loop_coo. cbv zeta. apply wp_bind.
  apply (wp_while_rel (λ '(vid, c, stop) m, ∃ g1 g2, coo_inv g g1 g2 vid c stop ∧ m = length g2) (length g)).
  - exists [], g. done.
  - unfold zlen. lia.
  - intros [[vid c] stop] m (g1 & g2 & Hinv & ->). pose proof Hinv as (-> & -> & He & HS & HD & Hstop). cbn [wp].
    assert (zlen (src_from 0 (g1 ++ g2)) = zlen (concat g1) + zlen (concat g2)) as Hlen by (by rewrite zlen_src_from, concat_app, zlen_app).
    rewrite Hlen, He. destruct (_ && _) eqn:Hcond.
    + apply andb_true_iff in Hcond as [Hlt%Z.ltb_lt Hns]. destruct stop; [done|].
      assert (concat g2 ≠ []) as Hg2 by (intros E; rewrite E, zlen_nil in Hlt; lia). destruct g2 as [|r g2]; [done|].
      apply wp_bind. eapply wp_mono.
      { apply (coo_round_spec _ _ (zlen g1) (zlen (concat g1)) r (src c) (dst c)); try done.
        destruct (decide (concat g2 = [])) as [Hlast|Hmore].
        - destruct Hbehind as (x & y & Hx & Hy & Hne). { rewrite concat_app. intros [_ ?]%app_eq_nil. done. }
          destruct (rest_behind g1 g2 behind_src behind_dst Hlast) as [Hrs Hrd]. apply (row_at_coo _ _ _ _ _ x y); rewrite ?Hrs, ?Hrd; [done| |done].
          intros ->. apply Hne. apply last_source; [done|]. intros ->. cbn in Hg2. done.
        - destruct (rest_head g1 g2 behind_src behind_dst Hmore) as (s & d & Hs & Hsne & Hd). by eapply row_at_coo. }
      intros c' Hc'. cbn [wp]. exists (length g2). split; [|simpl; lia]. exists (g1 ++ [r]), g2. split; [by eapply coo_inv_next|done].
    + assert (concat g2 = []) as Hg2.
      { apply andb_false_iff in Hcond as [Hge|Hs]; [|by rewrite Hstop by (by destruct stop)].
        apply Z.ltb_ge in Hge. destruct (concat g2) as [|d l]; [done|]. rewrite zlen_cons in Hge. pose proof (zlen_nonneg l). lia. }
      rewrite push_range by (rewrite zlen_app; pose proof (zlen_nonneg g2); lia). cbn [wp].
      destruct (loops_of_empty (zlen g1) g2 Hg2) as [HC HSr]. rewrite zlen_app. replace (zlen g1 + zlen g2 - zlen g1) with (zlen g2) by lia.
      rewrite HS, HD, add_loops_app, src_from_app, concat_app, zlen_add_loops, !Z.add_0_l, HC, HSr. done.
Qed.

(** C26: [add_self_loop_coo] on the edge list of a graph [g] reads the cells behind its
    arrays.  If [g] has an edge and nothing is readable behind one of them, as C++ has it,
    the call reads out of bounds, for every such graph.  If [g] has no edge, or if the cells
    behind the arrays happen to be readable and the one behind the sources is not the last
    source of [g], the call returns the edge list of [g] with the self loops: every row
    holds its own vertex, and a sorted row stays sorted. *)
Theorem add_self_loop_coo_correct behind_src behind_dst g :
  let run := add_self_loop_coo behind_src behind_dst (src_from 0 g) (concat g) (zlen g) in
  (concat g ≠ [] → behind_src = [] ∨ behind_dst = [] → run = Err OutOfBounds) ∧
  ((concat g ≠ [] → ∃ x y, behind_src !z 0 = Some x ∧ behind_dst !z 0 = Some y ∧ last (src_from 0 g) ≠ Some x) →
    run = Ok (src_from 0 (add_loops 0 g), concat (add_loops 0 g))) ∧
  ∀ v r, g !z v = Some r → add_loops 0 g !z v = Some (add_loop v r) ∧
    (∀ x, x ∈ add_loop v r ↔ x = v ∨ x ∈ r) ∧ (StronglySorted Z.lt r → StronglySorted Z.lt (add_loop v r)).
Proof.
  split_and!; [by apply coo_past_end|by apply coo_behind|]. intros v r Hr. split_and!.
  - pose proof (add_loops_lookup 0 g v r Hr) as Hl. by rewrite Z.add_0_l in Hl.
  - intros x. apply add_loop_elem.
  - apply add_loop_sorted.
Qed.

(** A two-edge cycle, as it is and with something behind the arrays. *)
Lemma add_self_loop_coo_correct_witness :
  add_self_loop_coo [] [] [0; 1] [1; 0] 2 = Err OutOfBounds ∧
  add_self_loop_coo [7] [5] [0; 1] [1; 0] 2 = Ok ([0; 0; 1; 1], [0; 1; 0; 1]).
Proof.
  split.
  - apply (add_self_loop_coo_correct [] [] [[1]; [0]]); [done|by left].
  - apply (add_self_loop_coo_correct [7] [5] [[1]; [0]]). intros _. exists 7, 5. done.
Defined.
