(* ===== verification/GenMask.v ===== *)
(** * Evaluation orders and masks

    [gen_mask.h]: rules are evaluated level by level; an order gives each edge,
    or each vertex and rule, its level, a mask lists per level what belongs to
    it.  [INIT] marks what has no level yet.  The [int] counters of edges into a
    rule and of levels are unbounded here: they count entries of the arrays.  The
    products in the size and the indices of a mask are [int]s that can overflow. *)

From stdpp Require Import strings.
From S2P Require Import Prelude Csr.

Definition INIT : Z := 100000.

(** ** Operations *)

Definition incr (l : list Z) (i : Z) : res (list Z) :=
  let* x := vget l i in vset l i (x + 1).
Definition decr (l : list Z) (i : Z) : res (list Z) :=
  let* x := vget l i in vset l i (x - 1).

(** *** Edges *)

(** First two passes: count the edges into each rule, then give level 0 to the
    edges of the vertices. *)
Definition edge_degrees (dst : list Z) (vertex_cnt rule_cnt : Z) : res (list Z) :=
  for_up 0 (zlen dst) (λ i in_degree,
    let* dstID := vget dst i in
    if vertex_cnt <=? dstID then incr in_degree (dstID - vertex_cnt) else Ok in_degree)
    (replicate (Z.to_nat rule_cnt) 0).

Definition edge_level0 (src dst : list Z) (vertex_cnt : Z) (in_degree : list Z)
    : res (list Z * Z * list Z) :=
  for_up 0 (zlen src) (λ i '(order, process_cnt, in_degree),
    let* srcID := vget src i in
    let* dstID := vget dst i in
    if srcID <? vertex_cnt then
      let* order := vset order i 0 in
      let* in_degree :=
        if vertex_cnt <=? dstID then decr in_degree (dstID - vertex_cnt) else Ok in_degree in
      Ok (order, process_cnt + 1, in_degree)
    else Ok (order, process_cnt, in_degree)) (replicate (length src) INIT, 0, in_degree).

(** One round of the [while] loop. *)
Definition edge_round (src dst : list Z) (vertex_cnt rule_cnt : Z) (st : list Z * Z * list Z * Z)
    : res (list Z * Z * list Z * Z) :=
  let '(order, process_cnt, in_degree, step) := st in
  let* '(order, process_cnt, tmp_degree) :=
    for_up 0 (zlen src) (λ i '(order, process_cnt, tmp_degree),
      let* srcID := vget src i in
      let* dstID := vget dst i in
      if vertex_cnt <=? srcID then
        let* d := vget in_degree (srcID - vertex_cnt) in
        let* o := vget order i in
        if (d =? 0) && (o =? INIT) then
          let* order := vset order i step in
          let* tmp_degree :=
            if vertex_cnt <=? dstID then
              let* d := vget in_degree (dstID - vertex_cnt) in
              if 0 <? d then incr tmp_degree (dstID - vertex_cnt) else Ok tmp_degree
            else Ok tmp_degree in
          Ok (order, process_cnt + 1, tmp_degree)
        else Ok (order, process_cnt, tmp_degree)
      else Ok (order, process_cnt, tmp_degree))
      (order, process_cnt, replicate (Z.to_nat rule_cnt) 0) in
  let* in_degree :=
    for_up 0 rule_cnt (λ i in_degree,
      let* t := vget tmp_degree i in
      let* d := vget in_degree i in
      vset in_degree i (d - t)) in_degree in
  Ok (order, process_cnt, in_degree, step + 1).

(** A round that handles no edge changes nothing but [step], and then the loop
    never ends: [fuel] of one more than the number of edges is enough otherwise. *)
Definition gen_edge_order (src dst : list Z) (vertex_cnt rule_cnt : Z) : res (list Z * Z) :=
  if negb (zlen src =? zlen dst) then Err AssertFail else
  let edge_cnt := zlen src in
  let* in_degree := edge_degrees dst vertex_cnt rule_cnt in
  let* '(order, process_cnt, in_degree) := edge_level0 src dst vertex_cnt in_degree in
  let* '(order, _, _, step) :=
    while (S (length src)) (λ '(_, process_cnt, _, _), Ok (process_cnt <? edge_cnt))
      (edge_round src dst vertex_cnt rule_cnt) (order, process_cnt, in_degree, 1) in
  Ok (order, step).

(** *** Masks *)

(** [mask_ptr[d * size + s] = depth_ptr[s] == d], row by row.  The number of nodes or
    edges is narrowed to [int]; numpy rejects a negative size; [s] is a [size_t]. *)
Definition fill_mask (depth : list Z) (m_depth size : Z) : res (list bool) :=
  let size := i32 size in
  let* total := int32 (size * m_depth) in
  if (size <? 0) || (total <? 0) then Err OutOfBounds else
  for_up 0 m_depth (λ d mask,
    for_up 0 size (λ s mask,
      let* x := vget depth s in
      let* base := int32 (d * size) in
      vset mask (base + s) (x =? d)) mask) (replicate (Z.to_nat total) false).

Definition gen_mask_edge (src dst : list Z) (vertex_cnt rule_cnt : Z) : res (list bool * Z) :=
  let* '(depth, m_depth) := gen_edge_order src dst vertex_cnt rule_cnt in
  let* mask := fill_mask depth m_depth (zlen src) in
  Ok (mask, m_depth).

(** *** Vertices and rules *)

Record wstate := WState { worder : list Z; wdegree : list Z; wout : list Z }.

(** The edge to [dst] is evaluated: the last one gives [dst] its level. *)
Definition visit (vertex_cnt step dst : Z) (st : wstate) : res wstate :=
  let* o := vget (worder st) dst in
  if (o =? INIT) && (vertex_cnt <=? dst) then
    let* in_degree := decr (wdegree st) (dst - vertex_cnt) in
    let* d := vget in_degree (dst - vertex_cnt) in
    if d =? 0 then
      let* order := vset (worder st) dst step in
      Ok (WState order in_degree (wout st ++ [dst]))
    else Ok (WState (worder st) in_degree (wout st))
  else Ok st.

Definition visit_row (vlist elist : list Z) (vertex_cnt step src : Z) (st : wstate) : res wstate :=
  let* start := vget vlist src in
  let* end_ := vget vlist (src + 1) in
  for_up start end_ (λ eid st, let* dst := vget elist eid in visit vertex_cnt step dst st) st.

(** [while (!in_worklist.size() == 0)]: [!n == 0] is [n != 0].  Every round
    takes rows that no earlier round took. *)
Definition propagate (vlist elist : list Z) (vertex_cnt rule_cnt : Z) (order in_degree worklist : list Z)
    : res (list Z * Z) :=
  let* '(st, _, step) :=
    while (S (S (Z.to_nat (vertex_cnt + rule_cnt)))) (λ '(_, in_worklist, _), Ok (negb (zlen in_worklist =? 0)))
      (λ '(st, in_worklist, step),
        let* st := for_each in_worklist (visit_row vlist elist vertex_cnt step) st in
        Ok (WState (worder st) (wdegree st) [], wout st, step + 1))
      (WState order in_degree [], worklist, 1) in
  Ok (worder st, step).

(** Count the edges into each rule. *)
Definition count_edges (elist : list Z) (vertex_cnt lo hi : Z) (in_degree : list Z) : res (list Z) :=
  for_up lo hi (λ eid in_degree,
    let* dst := vget elist eid in
    if vertex_cnt <=? dst then incr in_degree (dst - vertex_cnt) else Ok in_degree) in_degree.

Definition gen_vertex_order_csc (vlist elist : list Z) (vertex_cnt rule_cnt : Z) : res (list Z * Z) :=
  let order := replicate (Z.to_nat (vertex_cnt + rule_cnt)) INIT in
  let* in_degree :=
    for_up 0 rule_cnt (λ src in_degree,
      let* start := vget vlist (src + vertex_cnt) in
      let* end_ := vget vlist (src + vertex_cnt + 1) in
      count_edges elist vertex_cnt start end_ in_degree) (replicate (Z.to_nat rule_cnt) 0) in
  let* '(order, worklist) :=
    for_up 0 rule_cnt (λ src '(order, worklist),
      let* d := vget in_degree src in
      if d =? 0 then
        let* order := vset order (src + vertex_cnt) 0 in
        Ok (order, worklist ++ [src + vertex_cnt])
      else Ok (order, worklist)) (order, []) in
  let* '(order, step) := propagate vlist elist vertex_cnt rule_cnt order in_degree worklist in
  let* order := for_up 0 vertex_cnt (λ src order, vset order src (step - 1)) order in
  Ok (order, step).

Definition gen_vertex_order_csr (vlist elist : list Z) (vertex_cnt rule_cnt : Z) : res (list Z * Z) :=
  let order := replicate (Z.to_nat (vertex_cnt + rule_cnt)) INIT in
  let* in_degree := count_edges elist vertex_cnt 0 (zlen elist) (replicate (Z.to_nat rule_cnt) 0) in
  let* '(order, worklist) :=
    for_up 0 vertex_cnt (λ src '(order, worklist),
      let* order := vset order src 0 in
      Ok (order, worklist ++ [src])) (order, []) in
  let* '(order, step) := propagate vlist elist vertex_cnt rule_cnt order in_degree worklist in
  Ok (order, step - 1).

(** [NDEBUG] removes the assertion. *)
Definition gen_mask_vertex (NDEBUG : bool) (vlist elist : list Z) (vertex_cnt rule_cnt : Z) (graph_type : string)
    : res (list bool * Z) :=
  let assertion := negb (String.eqb graph_type "csc") && negb (String.eqb graph_type "csr") in
  if negb NDEBUG && negb assertion then Err AssertFail else
  if String.eqb graph_type "csc" then
    let* '(depth, m_depth) := gen_vertex_order_csc vlist elist vertex_cnt rule_cnt in
    let* mask := fill_mask depth m_depth (vertex_cnt + rule_cnt) in
    Ok (mask, m_depth)
  else if String.eqb graph_type "csr" then
    let* '(depth, m_depth) := gen_vertex_order_csr vlist elist vertex_cnt rule_cnt in
    let* mask := fill_mask depth m_depth (vertex_cnt + rule_cnt) in
    Ok (mask, m_depth)
  else Err NoReturn.

(** ** The order is topological *)

Section propagation.
Context (vlist elist : list Z) (vc rc : Z) (nodes order0 : list Z).
Abbreviation row := (csr_row vlist elist).

(** The edges that leave a list of nodes. *)
Definition edges (ns : list Z) : list Z := ns ≫= row.

Context (Hcsr : csr_okb vlist elist (vc + rc) = true) (Hvc : 0 ≤ vc) (Hrc : 0 ≤ rc).
Context (Hel : Forall (λ d, 0 ≤ d < vc + rc) elist).
Context (Hnodup : NoDup nodes) (Hnodes : ∀ v, v ∈ nodes → 0 ≤ v < vc + rc).
Context (Hrules : ∀ v, vc ≤ v < vc + rc → v ∈ nodes).

(** [taken]: the nodes whose edges were visited; [part]: the visited edges of
    the current one; [wl]: the nodes of this round still to take. *)
Record winv (step : Z) (taken part wl : list Z) (st : wstate) : Prop := {
  w_order_len : zlen (worder st) = vc + rc;
  w_degree_len : zlen (wdegree st) = rc;
  w_nodup : NoDup (taken ++ wl ++ wout st);
  w_nodes : ∀ v, v ∈ taken ++ wl ++ wout st → v ∈ nodes;
  w_degree : ∀ r, 0 ≤ r < rc →
    wdegree st !z r = Some (Z.of_nat (cnt (vc + r) (edges nodes)) - Z.of_nat (cnt (vc + r) (edges taken ++ part)));
  w_last : ∀ x, vc ≤ x < vc + rc → (0 < cnt x (edges taken ++ part))%nat →
    cnt x (edges taken ++ part) = cnt x (edges nodes) → x ∈ taken ++ wl ++ wout st;
  w_all : ∀ x, vc ≤ x → x ∈ taken ++ wl ++ wout st → cnt x (edges taken ++ part) = cnt x (edges nodes);
  w_past : ∀ v, v ∈ taken ++ wl → ∃ o, worder st !z v = Some o ∧ 0 ≤ o < step;
  w_now : ∀ v, v ∈ wout st → worder st !z v = Some step;
  w_init : ∀ v, 0 ≤ v < vc + rc → v ∉ taken ++ wl ++ wout st → worder st !z v = Some INIT;
  w_topo : ∀ x v, vc ≤ x → x ∈ taken ++ wl ++ wout st → v ∈ nodes → x ∈ row v →
    v ∈ taken ++ wl ∧ ∃ o o', worder st !z v = Some o ∧ worder st !z x = Some o' ∧ o < o';
  w_vertex : ∀ v, v < vc → worder st !z v = order0 !z v
}.

Lemma edges_app a b : edges (a ++ b) = edges a ++ edges b.
Proof. apply bind_app. Qed.

Lemma edges_split taken cur l :
  NoDup (taken ++ cur :: l) → (∀ v, v ∈ taken ++ cur :: l → v ∈ nodes) →
  ∃ rest, nodes ≡ₚ taken ++ cur :: rest ∧ ∀ x, cnt x (edges nodes) = (cnt x (edges taken) + cnt x (row cur) + cnt x (edges rest))%nat.
Proof using.
  intros Hnd Hin. assert (taken ++ [cur] ⊆+ nodes) as [rest Hrest]%submseteq_Permutation.
  { apply NoDup_submseteq.
    - rewrite cons_middle, app_assoc in Hnd. by apply NoDup_app in Hnd as [? _].
    - intros v Hv. apply Hin. rewrite cons_middle, app_assoc. apply elem_of_app. by left. }
  exists rest. rewrite <-app_assoc in Hrest. simpl in Hrest. split; [done|]. intros x.
  assert (edges nodes ≡ₚ edges (taken ++ cur :: rest)) as -> by (unfold edges; by rewrite Hrest).
  rewrite edges_app. change (edges (cur :: rest)) with (row cur ++ edges rest). rewrite !cnt_app. lia.
Qed.

Lemma cnt_snoc x l y : cnt x (l ++ [y]) = (cnt x l + if decide (x = y) then 1 else 0)%nat.
Proof. rewrite cnt_app, cnt_cons, cnt_nil. lia. Qed.

(** A visited edge that is not the last one into its target. *)
Lemma winv_skip step taken part wl dst st deg' :
  winv step taken part wl st → zlen deg' = rc →
  (∀ r, 0 ≤ r < rc → deg' !z r = Some (Z.of_nat (cnt (vc + r) (edges nodes)) -
     Z.of_nat (cnt (vc + r) (edges taken ++ part ++ [dst])))) →
  (vc ≤ dst → dst ∉ taken ++ wl ++ wout st) →
  (vc ≤ dst → cnt dst (edges taken ++ part ++ [dst]) ≠ cnt dst (edges nodes)) →
  winv step taken (part ++ [dst]) wl (WState (worder st) deg' (wout st)).
Proof using.
  intros [Hol Hdl Hnd Hns Hdeg Hlast Hall Hpast Hnow Hinit Htopo Hvert] Hdl' Hdeg' Hfresh Hnot. rewrite app_assoc in Hnot.
  split; try done; cbn [worder wdegree wout].
  - intros x Hx. rewrite app_assoc, cnt_snoc. destruct (decide (x = dst)) as [->|]; [|rewrite Nat.add_0_r; by apply Hlast].
    intros _ Heq. destruct Hnot; [lia|]. by rewrite cnt_snoc, decide_True by done.
  - intros x Hx Hin. rewrite app_assoc, cnt_snoc. destruct (decide (x = dst)) as [->|]; [by destruct Hfresh|].
    rewrite Nat.add_0_r. by apply Hall.
Qed.

(** The last edge into a rule: the rule gets its level. *)
Lemma winv_push step taken part wl cur dst st deg' :
  winv step taken part (cur :: wl) st → zlen deg' = rc → vc ≤ dst < vc + rc →
  (∀ r, 0 ≤ r < rc → deg' !z r = Some (Z.of_nat (cnt (vc + r) (edges nodes)) -
     Z.of_nat (cnt (vc + r) (edges taken ++ part ++ [dst])))) →
  dst ∉ taken ++ (cur :: wl) ++ wout st →
  cnt dst (edges taken ++ part ++ [dst]) = cnt dst (edges nodes) →
  (∀ v, v ∈ nodes → dst ∈ row v → v ∈ taken ∨ v = cur) →
  winv step taken (part ++ [dst]) (cur :: wl) (WState (zinsert (worder st) dst step) deg' (wout st ++ [dst])).
Proof using Hvc Hrules.
  intros [Hol Hdl Hnd Hns Hdeg Hlast Hall Hpast Hnow Hinit Htopo Hvert] Hdl' Hdst Hdeg' Hfresh Hfull Hsrc.
  assert (∀ v, v ∈ taken ++ (cur :: wl) ++ wout st ++ [dst] ↔ v ∈ taken ++ (cur :: wl) ++ wout st ∨ v = dst) as Hin.
  { intros v. rewrite !(assoc_L (++)), elem_of_app, list_elem_of_singleton. done. }
  assert (∀ v, v ∈ taken ++ (cur :: wl) → v ∈ taken ++ (cur :: wl) ++ wout st) as Hsub.
  { intros v Hv. rewrite app_assoc. apply elem_of_app. by left. }
  assert (∀ v, v ≠ dst → zinsert (worder st) dst step !z v = worder st !z v) as Hkeep.
  { intros v Hv. apply zlookup_zinsert_ne; [congruence|lia]. }
  assert (zinsert (worder st) dst step !z dst = Some step) as Hset by (apply zlookup_zinsert_eq; lia).
  assert (∀ v, v ∈ taken ++ cur :: wl → ∃ o, zinsert (worder st) dst step !z v = Some o ∧ 0 ≤ o < step) as Hpast'.
  { intros v Hv. rewrite Hkeep; [by apply Hpast|]. intros ->. by apply Hfresh, Hsub. }
  split; cbn [worder wdegree wout]; try done.
  - by rewrite zlen_zinsert.
  - rewrite !(assoc_L (++)). apply NoDup_app. split_and!; [by rewrite <-(assoc_L (++))| |apply NoDup_singleton].
    intros v Hv ->%list_elem_of_singleton. apply Hfresh. by rewrite (assoc_L (++)).
  - intros v [Hv| ->]%Hin; [by apply Hns|]. apply Hrules. lia.
  - intros x Hx Hpos Heq. apply Hin. destruct (decide (x = dst)) as [->|]; [by right|]. left.
    rewrite app_assoc, cnt_snoc, decide_False, Nat.add_0_r in Hpos, Heq by done. by apply Hlast.
  - intros x Hx [Hx'| ->]%Hin; [|done]. assert (x ≠ dst) by (intros ->; done).
    rewrite app_assoc, cnt_snoc, decide_False, Nat.add_0_r by done. by apply Hall.
  - intros v [Hv| ->%list_elem_of_singleton]%elem_of_app; [|done]. rewrite Hkeep; [by apply Hnow|]. intros ->.
    apply Hfresh. rewrite app_assoc. apply elem_of_app. by right.
  - intros v Hv Hnot. assert (v ≠ dst) by (intros ->; apply Hnot, Hin; by right). rewrite Hkeep by done.
    apply Hinit; [done|]. intros Hv'. apply Hnot, Hin. by left.
  - intros x v Hx [Hx'| ->]%Hin Hv Hxv.
    + destruct (Htopo x v Hx Hx' Hv Hxv) as (Hvt & o & o' & Ho & Ho' & Hlt). split; [done|].
      exists o, o'. rewrite !Hkeep; [done|intros ->; done|]. intros ->. by apply Hfresh, Hsub.
    + assert (v ∈ taken ++ cur :: wl) as Hvt.
      { destruct (Hsrc v Hv Hxv) as [?| ->]; apply elem_of_app; [by left|right; constructor]. }
      split; [done|]. destruct (Hpast' v Hvt) as (o & Ho & ?). exists o, step. split_and!; done || lia.
  - intros v Hv. rewrite Hkeep by lia. by apply Hvert.
Qed.

(** Visiting an edge keeps the invariant. *)
Lemma visit_ok step taken part wl cur dst post st :
  winv step taken part (cur :: wl) st → row cur = part ++ dst :: post → 0 ≤ dst < vc + rc →
  wp (visit vc step dst st) (winv step taken (part ++ [dst]) (cur :: wl)).
Proof using Hvc Hrc Hrules.
  intros Hinv Hrow Hdst. pose proof Hinv as [Hol Hdl Hnd Hns Hdeg Hlast Hall Hpast Hnow Hinit Htopo Hvert].
  destruct (edges_split taken cur (wl ++ wout st) Hnd Hns) as (rest & Hperm & Hcnt).
  assert (∀ x, cnt x (edges nodes) = (cnt x (edges taken ++ part) + (if decide (x = dst) then 1 else 0) +
    (cnt x post + cnt x (edges rest)))%nat) as Htot.
  { intros x. rewrite Hcnt, Hrow, !cnt_app, cnt_cons. lia. }
  assert (∀ x, cnt x (edges taken ++ part ++ [dst]) = (cnt x (edges taken ++ part) + (if decide (x = dst) then 1 else 0))%nat) as Hnext.
  { intros x. rewrite app_assoc, cnt_app, cnt_cons, cnt_nil. lia. }
  assert (vc ≤ dst → dst ∉ taken ++ (cur :: wl) ++ wout st) as Hfresh.
  { intros Hge Hin. specialize (Hall dst Hge Hin). specialize (Htot dst). rewrite decide_True in Htot by done. lia. }
  destruct (zlookup_total (worder st) dst) as [o Ho]; [lia|]. unfold visit. rewrite (vget_ok _ _ _ Ho). cbn [rbind].
  destruct (Z.leb_spec vc dst) as [Hge|Hlt].
  - specialize (Hfresh Hge). assert (o = INIT) as -> by (specialize (Hinit dst ltac:(lia) Hfresh); congruence).
    rewrite Z.eqb_refl. simpl. pose proof (Hdeg (dst - vc) ltac:(lia)) as Hd. replace (vc + (dst - vc)) with dst in Hd by lia.
    unfold decr. rewrite (vget_ok _ _ _ Hd). cbn [rbind]. rewrite vset_ok by lia. cbn [rbind].
    pose proof (Htot dst) as Htd. rewrite decide_True in Htd by done. set (deg' := zinsert _ _ _).
    rewrite (vget_ok deg' (dst - vc) _ (zlookup_zinsert_eq _ (dst - vc) _ ltac:(rewrite Hdl; lia))). cbn [rbind].
    assert (∀ r, 0 ≤ r < rc → deg' !z r = Some (Z.of_nat (cnt (vc + r) (edges nodes)) -
      Z.of_nat (cnt (vc + r) (edges taken ++ part ++ [dst])))) as Hdeg'.
    { intros r Hr. rewrite Hnext. unfold deg'. destruct (decide (r = dst - vc)) as [->|].
      - rewrite zlookup_zinsert_eq by lia. replace (vc + (dst - vc)) with dst by lia. rewrite decide_True by done. f_equal. lia.
      - rewrite zlookup_zinsert_ne, Hdeg by lia. rewrite decide_False by lia. f_equal. lia. }
    destruct (Z.eqb_spec (Z.of_nat (cnt dst (edges nodes)) - Z.of_nat (cnt dst (edges taken ++ part)) - 1) 0) as [Hz|Hnz].
    + rewrite vset_ok by lia. cbn [rbind wp]. apply (winv_push step taken part wl cur dst st deg'); try done.
      * unfold deg'. by rewrite zlen_zinsert.
      * lia.
      * rewrite Hnext, decide_True by done. lia.
      * intros v Hv Hdv. rewrite Hperm in Hv. apply elem_of_app in Hv as [?|[->|Hv]%elem_of_cons]; [by left|by right|].
        assert (cnt dst (edges rest) = 0%nat) as Hz0%cnt_zero by lia. destruct Hz0. unfold edges. apply list_elem_of_bind.
        by exists v.
    + cbn [wp]. apply (winv_skip step taken part (cur :: wl) dst st deg'); try done.
      * unfold deg'. by rewrite zlen_zinsert.
      * intros _. rewrite Hnext, decide_True by done. lia.
  - rewrite andb_false_r. cbn [wp]. destruct st as [ord deg out].
    apply (winv_skip step taken part (cur :: wl) dst (WState ord deg out) deg); try done; try lia.
    intros r Hr. rewrite Hnext, decide_False, Nat.add_0_r by lia. by apply Hdeg.
Qed.

(** A whole row; the node counts as taken afterwards. *)
Lemma visit_row_ok step taken wl cur st :
  winv step taken [] (cur :: wl) st →
  wp (visit_row vlist elist vc step cur st) (winv step (taken ++ [cur]) [] wl).
Proof using Hcsr Hvc Hrc Hel Hrules Hnodes.
  intros Hinv. assert (0 ≤ cur < vc + rc) as Hcur.
  { apply Hnodes, (w_nodes _ _ _ _ _ Hinv), elem_of_app. right. constructor. }
  destruct (csr_okb_spec _ _ _ cur Hcsr Hcur) as (a & b & Ha & Hb & Hab & Hbl).
  pose proof (csr_row_slice vlist elist cur a b Ha Hb) as Hrow.
  unfold visit_row. rewrite (vget_ok _ _ _ Ha), (vget_ok _ _ _ Hb). cbn [rbind].
  apply (wp_for_up (λ e st, winv step taken (slice elist a e) (cur :: wl) st)); [lia| | |].
  - by rewrite slice_nil by lia.
  - intros e st' He Hst. destruct (zlookup_total elist e) as [d Hd]; [lia|]. rewrite (vget_ok _ _ _ Hd). cbn [rbind].
    rewrite (slice_snoc elist a e d) by (done || lia). apply (visit_ok _ _ _ _ _ _ (slice elist (e + 1) b)); [done| |].
    + rewrite Hrow, <-(slice_cons elist e b d), slice_app by (done || lia). done.
    + rewrite Forall_forall in Hel. apply Hel. by eapply zlookup_elem.
  - intros st' [Hol Hdl Hnd Hns Hdeg Hlast Hall Hpast Hnow Hinit Htopo Hvert].
    assert (edges (taken ++ [cur]) ++ [] = edges taken ++ slice elist a b) as He.
    { rewrite app_nil_r, edges_app. unfold edges at 2. simpl. by rewrite app_nil_r, Hrow. }
    split; rewrite ?He, <-?app_assoc; try done.
Qed.

(** The nodes of one round. *)
Lemma round_ok step taken wl st :
  winv step taken [] wl st →
  wp (for_each wl (visit_row vlist elist vc step) st) (winv step (taken ++ wl) [] []).
Proof using Hcsr Hvc Hrc Hel Hrules Hnodes.
  revert taken st. induction wl as [|cur wl IH]; intros taken st Hinv; simpl; [by rewrite app_nil_r|].
  apply wp_bind. eapply wp_mono; [by apply visit_row_ok|]. intros st' Hst'.
  rewrite cons_middle, app_assoc. by apply IH.
Qed.

(** The next round takes the nodes that got their level in this one. *)
Lemma next_round step taken st :
  0 ≤ step → winv step taken [] [] st → winv (step + 1) taken [] (wout st) (WState (worder st) (wdegree st) []).
Proof using.
  intros Hstep [Hol Hdl Hnd Hns Hdeg Hlast Hall Hpast Hnow Hinit Htopo Hvert]. simpl in *. rewrite app_nil_r in Hpast.
  assert (∀ v, v ∈ taken ++ wout st → ∃ o, worder st !z v = Some o ∧ 0 ≤ o < step + 1) as Hp.
  { intros v [Hv|Hv]%elem_of_app; [destruct (Hpast v Hv) as (o & ? & ?); exists o; split; [done|lia]|].
    exists step. split; [by apply Hnow|lia]. }
  split; cbn [worder wdegree wout]; rewrite ?(app_nil_r (wout st)); try done.
  - by intros v ?%not_elem_of_nil.
  - intros x v Hx Hin Hv Hxv. destruct (Htopo x v Hx Hin Hv Hxv) as [Hvt Hord]. rewrite app_nil_r in Hvt. split; [|done].
    apply elem_of_app. by left.
Qed.

(** [propagate] returns, and what it returns is a topological order of the
    nodes it reached. *)
Lemma propagate_ok order in_degree worklist :
  winv 1 [] [] worklist (WState order in_degree []) →
  wp (propagate vlist elist vc rc order in_degree worklist) (λ '(order, step),
    1 ≤ step ∧ ∃ st taken, worder st = order ∧ wout st = [] ∧ winv step taken [] [] st ∧ (∀ v, v ∈ worklist → v ∈ taken) ∧
    (∀ v, v ∈ taken → ∃ o, order !z v = Some o ∧ 0 ≤ o < step - 1)).
Proof using All.
  intros Hinit. unfold propagate. apply wp_bind.
  apply (wp_while_rel (λ '(st, wl, step) m, ∃ taken, winv step taken [] wl st ∧ wout st = [] ∧ 1 ≤ step ∧
    m = Z.to_nat (vc + rc - zlen taken) ∧ (∀ v, v ∈ worklist → v ∈ taken ++ wl) ∧
    (∀ v, v ∈ taken → ∃ o, worder st !z v = Some o ∧ 0 ≤ o < step - 1)) (Z.to_nat (vc + rc))).
  - exists []. split_and!; try done. rewrite zlen_nil. f_equal. lia. by intros v ?%not_elem_of_nil.
  - lia.
  - intros [[st wl] step] m (taken & Hinv & Hout & Hstep & -> & Hwl & Hlev). cbn [wp].
    destruct (Z.eqb_spec (zlen wl) 0) as [Hz|Hnz]; cbn [negb].
    + assert (wl = []) as -> by (apply length_zero_iff_nil; unfold zlen in Hz; lia). cbn [rbind wp]. split; [done|].
      exists st, taken. split_and!; try done. intros v Hv. specialize (Hwl v Hv). by rewrite app_nil_r in Hwl.
    + apply wp_bind. eapply wp_mono; [by apply round_ok|]. intros st' Hst'. cbn [wp].
      exists (Z.to_nat (vc + rc - zlen (taken ++ wl))). split.
      * exists (taken ++ wl). split_and!; try done; [apply next_round; [lia|done]|lia| |].
        -- intros v Hv. apply elem_of_app. left. by apply Hwl.
        -- intros v Hv. destruct (w_past _ _ _ _ _ Hst' v) as (o & ? & ?); [by rewrite app_nil_r|].
           exists o. simpl. split; [done|lia].
      * assert (zlen (taken ++ wl) ≤ vc + rc) as Hle.
        { pose proof (w_nodup _ _ _ _ _ Hst') as Hnd. rewrite app_assoc in Hnd. apply NoDup_app in Hnd as [Hnd _].
          rewrite app_nil_r in Hnd. rewrite <-(Z.max_l (vc + rc) 0) by lia. apply NoDup_range; [done|].
          intros v Hv. apply Hnodes, (w_nodes _ _ _ _ _ Hst'). rewrite app_assoc. apply elem_of_app. left. by rewrite app_nil_r. }
        rewrite zlen_app in *. pose proof (zlen_nonneg wl). lia.
Qed.
End propagation.

(** The order of a CSR graph: levels of the vertices and rules. *)
Record topological (vlist elist : list Z) (vc rc : Z) (order : list Z) (depth : Z) : Prop := {
  tp_len : zlen order = vc + rc;
  tp_vertex : ∀ v, 0 ≤ v < vc → order !z v = Some 0;
  tp_level : ∀ v o, order !z v = Some o → o ≠ INIT → 0 ≤ o < depth;
  tp_edge : ∀ v x o', 0 ≤ v < vc + rc → vc ≤ x → x ∈ csr_row vlist elist v → order !z x = Some o' → o' ≠ INIT →
    ∃ o, order !z v = Some o ∧ o < o';
  tp_unreached : ∀ x, vc ≤ x → order !z x = Some INIT →
    (∀ v, 0 ≤ v < vc + rc → x ∉ csr_row vlist elist v) ∨
    ∃ v, 0 ≤ v < vc + rc ∧ x ∈ csr_row vlist elist v ∧ order !z v = Some INIT
}.

Lemma edges_concat vlist elist ns : edges vlist elist ns = concat (csr_row vlist elist <$> ns).
Proof. induction ns as [|v ns IH]; [done|]. rewrite fmap_cons. simpl. rewrite <-IH. done. Qed.

Lemma count_edges_spec elist vc rc lo hi deg :
  0 ≤ lo ≤ hi → hi ≤ zlen elist → Forall (λ d, 0 ≤ d < vc + rc) elist → zlen deg = rc →
  wp (count_edges elist vc lo hi deg) (λ deg', zlen deg' = rc ∧
    ∀ r d, deg !z r = Some d → deg' !z r = Some (d + Z.of_nat (cnt (vc + r) (slice elist lo hi)))).
Proof.
  intros Hlo Hhi Hel Hlen. unfold count_edges. rewrite Forall_forall in Hel.
  apply (wp_for_up (λ i deg', zlen deg' = rc ∧
    ∀ r d, deg !z r = Some d → deg' !z r = Some (d + Z.of_nat (cnt (vc + r) (slice elist lo i))))); [lia| | |done].
  - split; [done|]. intros r d Hd. by rewrite slice_nil, cnt_nil, Z.add_0_r by lia.
  - intros i deg' Hi [Hl' Hd']. destruct (zlookup_total elist i) as [x Hx]; [lia|]. specialize (Hel x (zlookup_elem _ _ _ Hx)).
    rewrite (vget_ok _ _ _ Hx), (slice_snoc elist lo i x) by (done || lia). cbn [rbind].
    destruct (Z.leb_spec vc x).
    + destruct (zlookup_total deg (x - vc)) as [d Hd]; [lia|]. pose proof (Hd' _ _ Hd) as Hdx. unfold incr.
      rewrite (vget_ok _ _ _ Hdx). cbn [rbind]. rewrite vset_ok by lia. cbn [wp]. split; [by rewrite zlen_zinsert|].
      intros r e He. rewrite cnt_snoc. pose proof (zlookup_range _ _ _ He). destruct (decide (r = x - vc)) as [->|].
      * rewrite zlookup_zinsert_eq, decide_True by lia. assert (e = d) as -> by congruence. f_equal. lia.
      * rewrite zlookup_zinsert_ne, decide_False, Nat.add_0_r by lia. by apply Hd'.
    + cbn [wp]. split; [done|]. intros r e He. pose proof (zlookup_range _ _ _ He).
      rewrite cnt_snoc, decide_False, Nat.add_0_r by lia. by apply Hd'.
Qed.

Lemma first_level vc rc :
  0 ≤ vc → 0 ≤ rc →
  for_up 0 vc (λ src '(order, worklist),
    let* order := vset order src 0 in
    Ok (order, worklist ++ [src])) (replicate (Z.to_nat (vc + rc)) INIT, []) =
  Ok (replicate (Z.to_nat vc) 0 ++ replicate (Z.to_nat rc) INIT, seqZ 0 vc).
Proof.
  intros Hvc Hrc. apply wp_eq.
  apply (wp_for_up (λ i '(order, wl), order = replicate (Z.to_nat i) 0 ++ replicate (Z.to_nat (vc - i + rc)) INIT ∧
    wl = seqZ 0 i)); [done| | |].
  - split; [|done]. simpl. by rewrite Z.sub_0_r.
  - intros i [order wl] Hi [-> ->]. rewrite vset_ok by (rewrite zlen_app, !zlen_replicate; lia). cbn [rbind wp]. split.
    + replace (Z.to_nat (vc - i + rc)) with (S (Z.to_nat (vc - (i + 1) + rc))) by lia. unfold zinsert. simpl.
      rewrite insert_app_r_alt, length_replicate, Nat.sub_diag by (rewrite length_replicate; lia). simpl.
      replace (Z.to_nat (i + 1)) with (S (Z.to_nat i)) by lia. by rewrite replicate_S_end, <-app_assoc.
    + by rewrite seqZ_app by lia.
  - intros [order wl] [-> ->]. do 3 f_equal. lia.
Qed.

(** All edges into [x] leave taken nodes. *)
Lemma users_taken vlist elist nodes taken x :
  NoDup nodes → NoDup taken → (∀ v, v ∈ taken → v ∈ nodes) →
  (∀ v, v ∈ nodes → x ∈ csr_row vlist elist v → v ∈ taken) →
  cnt x (edges vlist elist taken) = cnt x (edges vlist elist nodes).
Proof.
  intros Hn Ht Hsub Hall. destruct (submseteq_Permutation taken nodes) as [rest Hrest]; [by apply NoDup_submseteq|].
  assert (edges vlist elist nodes ≡ₚ edges vlist elist (taken ++ rest)) as -> by (unfold edges; by rewrite Hrest).
  rewrite edges_app, cnt_app. enough (cnt x (edges vlist elist rest) = 0%nat) by lia. apply cnt_zero. intros Hx.
  unfold edges in Hx. apply list_elem_of_bind in Hx as (v & Hxv & Hv).
  rewrite Hrest in Hn. apply NoDup_app in Hn as (_ & Hdis & _). apply (Hdis v); [|done]. apply Hall; [|done].
  rewrite Hrest. apply elem_of_app. by right.
Qed.

(** The levels the propagation starts from. *)
Abbreviation levels0 vc rc := (replicate (Z.to_nat vc) 0 ++ replicate (Z.to_nat rc) INIT).

Lemma levels0_vertex vc rc v : 0 ≤ rc → 0 ≤ v < vc → levels0 vc rc !z v = Some 0.
Proof. intros Hrc Hv. rewrite zlookup_app_l by (rewrite zlen_replicate; lia). apply zlookup_replicate. lia. Qed.

Lemma levels0_rule vc rc v : 0 ≤ vc ≤ v → v < vc + rc → levels0 vc rc !z v = Some INIT.
Proof. intros Hvc Hv. rewrite zlookup_app_r, zlen_replicate by (rewrite zlen_replicate; lia). apply zlookup_replicate. lia. Qed.

(** The invariant holds when the vertices are the first round. *)
Lemma winv_start vlist elist vc rc deg :
  0 ≤ vc → 0 ≤ rc → zlen deg = rc →
  (∀ r, 0 ≤ r < rc → deg !z r = Some (Z.of_nat (cnt (vc + r) (edges vlist elist (seqZ 0 (vc + rc)))))) →
  winv vlist elist vc rc (seqZ 0 (vc + rc)) (levels0 vc rc) 1 [] [] (seqZ 0 vc) (WState (levels0 vc rc) deg []).
Proof.
  intros Hvc Hrc Hdl Hdeg. split; cbn [worder wdegree wout]; try done.
  - rewrite zlen_app, !zlen_replicate. lia.
  - simpl. rewrite app_nil_r. apply NoDup_seqZ.
  - intros v. simpl. rewrite app_nil_r, !elem_of_seqZ. lia.
  - intros r Hr. rewrite Hdeg by done. simpl. rewrite cnt_nil. f_equal. lia.
  - simpl. intros x _ Hpos. rewrite cnt_nil in Hpos. lia.
  - intros x Hx. simpl. rewrite app_nil_r, elem_of_seqZ. lia.
  - intros v Hv%elem_of_seqZ. exists 0. split; [apply levels0_vertex; lia|lia].
  - by intros v ?%not_elem_of_nil.
  - intros v Hv Hnot. simpl in Hnot. rewrite app_nil_r, elem_of_seqZ in Hnot. apply levels0_rule; lia.
  - intros x v Hx Hin. simpl in Hin. rewrite app_nil_r, elem_of_seqZ in Hin. lia.
Qed.

(** When no node is left to take, the levels are a topological order. *)
Lemma winv_topological vlist elist vc rc step taken st :
  0 ≤ vc → 0 ≤ rc → step - 1 ≤ INIT → wout st = [] →
  winv vlist elist vc rc (seqZ 0 (vc + rc)) (levels0 vc rc) step taken [] [] st →
  (∀ v, v ∈ taken → ∃ o, worder st !z v = Some o ∧ 0 ≤ o < step - 1) →
  topological vlist elist vc rc (worder st) (step - 1).
Proof.
  intros Hvc Hrc Hdepth Hout [Hol _ Hnd Hns _ Hlast _ _ _ Hinit Htopo Hvert] Hlev.
  rewrite Hout in *. simpl in Hnd, Hns, Hlast, Hinit, Htopo. rewrite ?app_nil_r in *.
  assert (∀ v o, worder st !z v = Some o → (o ≠ INIT ↔ v ∈ taken)) as Hreach.
  { intros v o Ho. pose proof (zlookup_range _ _ _ Ho). split.
    - intros Hne. destruct (decide (v ∈ taken)) as [|Hnt]; [done|]. rewrite Hinit in Ho; [congruence|lia|by rewrite ?app_nil_r].
    - intros Hv. destruct (Hlev v Hv) as (o' & Ho' & ?). assert (o = o') by congruence. lia. }
  split.
  - done.
  - intros v Hv. rewrite Hvert by lia. by apply levels0_vertex.
  - intros v o Ho Hne. apply (Hreach v o Ho) in Hne. destruct (Hlev v Hne) as (o' & Ho' & ?).
    assert (o = o') by congruence. lia.
  - intros v x o' Hv Hx Hxv Ho' Hne. apply (Hreach x o' Ho') in Hne.
    destruct (Htopo x v Hx) as (_ & o & o2 & Ho & Ho2 & Hlt); [by rewrite ?app_nil_r|apply elem_of_seqZ; lia|done|].
    exists o. split; [done|]. assert (o2 = o') by congruence. lia.
  - intros x Hx Hox. pose proof (zlookup_range _ _ _ Hox) as Hxr.
    assert (x ∉ taken) as Hxt by (intros Hin; by apply (Hreach x INIT Hox) in Hin).
    destruct (decide (Exists (λ v, x ∈ csr_row vlist elist v ∧ v ∉ taken) (seqZ 0 (vc + rc)))) as [Hex|Hno].
    + right. apply Exists_exists in Hex as (v & Hv%elem_of_seqZ & Hxv & Hvt). exists v. split_and!; [lia|lia|done|].
      apply Hinit; [lia|]. by rewrite ?app_nil_r.
    + left. intros v Hv Hxv. apply Hxt.
      assert (cnt x (edges vlist elist taken) = cnt x (edges vlist elist (seqZ 0 (vc + rc)))) as Hc.
      { apply users_taken; [apply NoDup_seqZ|done|intros u Hu; apply Hns; by rewrite ?app_nil_r|]. intros u Hu Hxu.
        destruct (decide (u ∈ taken)) as [|Hut]; [done|]. destruct Hno. apply Exists_exists. by exists u. }
      specialize (Hlast x ltac:(lia)). rewrite ?app_nil_r in Hlast. apply Hlast; [|done]. rewrite Hc. apply cnt_elem.
      unfold edges. apply list_elem_of_bind. exists v. split; [done|]. apply elem_of_seqZ. lia.
Qed.

Lemma gen_vertex_order_csr_spec vlist elist vc rc :
  csr_okb vlist elist (vc + rc) = true → 0 ≤ vc → 0 ≤ rc → Forall (λ d, 0 ≤ d < vc + rc) elist →
  vlist !z 0 = Some 0 → vlist !z (vc + rc) = Some (zlen elist) →
  wp (gen_vertex_order_csr vlist elist vc rc) (λ '(order, depth),
    zlen order = vc + rc ∧ 0 ≤ depth ∧ (depth ≤ INIT → topological vlist elist vc rc order depth)).
Proof.
  intros Hcsr Hvc Hrc Hel H0 Hn. unfold gen_vertex_order_csr. apply wp_bind.
  eapply wp_mono. { apply (count_edges_spec elist vc rc); [pose proof (zlen_nonneg elist); lia|done|done|]. rewrite zlen_replicate. lia. }
  intros deg [Hdl Hdeg]. rewrite first_level by done. cbn [rbind]. apply wp_bind.
  assert (edges vlist elist (seqZ 0 (vc + rc)) = elist) as Hedges.
  { rewrite edges_concat. fold (csr_rows vlist elist (vc + rc)).
    rewrite (concat_csr_rows vlist elist (vc + rc) Hcsr ltac:(lia) H0 (zlen elist) Hn). apply slice_full. }
  eapply wp_mono.
  { apply (propagate_ok vlist elist vc rc (seqZ 0 (vc + rc)) (levels0 vc rc)); try done.
    - apply NoDup_seqZ.
    - intros v Hv%elem_of_seqZ. lia.
    - intros v Hv. apply elem_of_seqZ. lia.
    - apply winv_start; try done. intros r Hr. rewrite (Hdeg r 0), slice_full, Hedges by (apply zlookup_replicate; lia). f_equal. }
  intros [order step] (Hstep & st & taken & <- & Hout & Hinv & _ & Hlev). cbn [wp].
  split; [by destruct Hinv|]. split; [lia|]. intros Hdepth. by apply (winv_topological _ _ _ _ _ taken).
Qed.

(** C27: [gen_vertex_order_csr] ends on every CSR graph, cyclic ones included.
    If it used fewer levels than the mark [INIT], the levels are a topological
    order: vertices have level 0, every rule with a level lies above all rows
    that use it, and a rule gets no level only if no row uses it or some row
    that uses it got none. *)
Theorem gen_vertex_order_csr_correct vlist elist vc rc :
  csr_okb vlist elist (vc + rc) = true → 0 ≤ vc → 0 ≤ rc → Forall (λ d, 0 ≤ d < vc + rc) elist →
  vlist !z 0 = Some 0 → vlist !z (vc + rc) = Some (zlen elist) →
  wp (gen_vertex_order_csr vlist elist vc rc) (λ '(order, depth),
    depth ≤ INIT → topological vlist elist vc rc order depth).
Proof.
  intros. eapply wp_mono; [by apply gen_vertex_order_csr_spec|]. by intros [order depth] (_ & _ & ?).
Qed.

(** Two vertices; rule 3 uses rule 2, both vertices use rule 3. *)
Lemma gen_vertex_order_csr_correct_witness :
  wp (gen_vertex_order_csr [0; 2; 4; 6; 8] [3; 1; 0; 3; 0; 1; 2; 1] 2 2) (λ '(order, depth),
    depth ≤ INIT → topological [0; 2; 4; 6; 8] [3; 1; 0; 3; 0; 1; 2; 1] 2 2 order depth).
Proof. apply gen_vertex_order_csr_correct; try done. repeat constructor; done. Defined.

(** ** Masks *)

Definition level_mask (depth : list Z) (d : Z) : list bool := (λ o, o =? d) <$> depth.

Definition level_masks (depth : list Z) (m : Z) : list bool := concat (level_mask depth <$> seqZ 0 m).

(** Writing the first cell that was not written yet. *)
Lemma vset_next {A} (l : list A) (k : nat) x y i :
  i = zlen l → (0 < k)%nat → vset (l ++ replicate k y) i x = Ok ((l ++ [x]) ++ replicate (pred k) y).
Proof.
  intros -> Hk. destruct k as [|k]; [lia|].
  rewrite vset_ok by (rewrite zlen_app, zlen_replicate; pose proof (zlen_nonneg l); lia). unfold zinsert, zlen.
  rewrite Nat2Z.id, insert_app_r_alt, Nat.sub_diag by lia. simpl. by rewrite <-app_assoc.
Qed.

Lemma zlen_level_masks depth m : 0 ≤ m → zlen (level_masks depth m) = m * zlen depth.
Proof.
  intros Hm. unfold level_masks. pattern m. apply natlike_ind; [done| |done]. clear m Hm. intros m Hm IH.
  unfold Z.succ. rewrite seqZ_app, fmap_app, concat_app, zlen_app, IH by lia. change (seqZ (0 + m) 1) with [m].
  simpl. rewrite app_nil_r. unfold level_mask. rewrite zlen_fmap. lia.
Qed.

Section fill.
Context (depth : list Z) (m : Z) (Hm : 0 ≤ m) (Hsz : zlen depth ≤ INT_MAX).

Lemma mask_size : 0 ≤ zlen depth ∧ i32 (zlen depth) = zlen depth.
Proof using Hsz. pose proof (zlen_nonneg depth). split; [done|]. apply i32_small. lia. Qed.

Lemma fill_mask_ok : zlen depth * m ≤ INT_MAX → fill_mask depth m (zlen depth) = Ok (level_masks depth m).
Proof using Hm Hsz.
  intros Hmax. destruct mask_size as [Hd0 Hi]. apply wp_eq. unfold fill_mask. rewrite Hi. cbv zeta.
  rewrite int32_small by nia. cbn [rbind]. rewrite (proj2 (Z.ltb_ge _ _)), (proj2 (Z.ltb_ge (zlen depth * m) _)) by nia. cbn [orb].
  apply (wp_for_up (λ d mask, mask = level_masks depth d ++ replicate (Z.to_nat ((m - d) * zlen depth)) false)); [done| | |].
  - unfold level_masks. simpl. by replace ((m - 0) * zlen depth) with (zlen depth * m) by lia.
  - intros d mask Hd ->.
    apply (wp_for_up (λ s mask, mask = (level_masks depth d ++ slice (level_mask depth d) 0 s) ++
      replicate (Z.to_nat ((m - d) * zlen depth - s)) false)); [done| | |].
    + rewrite slice_nil, app_nil_r by lia. by rewrite Z.sub_0_r.
    + intros s mask Hs ->. destruct (zlookup_total depth s Hs) as [x Hx]. rewrite (vget_ok _ _ _ Hx). cbn [rbind].
      assert (level_mask depth d !z s = Some (x =? d)) as Hls by (unfold level_mask; by rewrite zlookup_fmap, Hx).
      assert (zlen (level_mask depth d) = zlen depth) as Hll by (apply zlen_fmap). rewrite int32_small by nia. cbn [rbind].
      rewrite vset_next; [|rewrite zlen_app, zlen_level_masks, zlen_slice by lia; lia|nia]. cbn [wp].
      rewrite (slice_snoc (level_mask depth d) 0 s (x =? d)) by (done || lia). rewrite !app_assoc. do 2 f_equal. lia.
    + intros mask ->. assert (zlen (level_mask depth d) = zlen depth) as Hll by (apply zlen_fmap).
      rewrite <-Hll at 1. rewrite slice_full. f_equal; [|do 2 f_equal; lia].
      unfold level_masks. rewrite seqZ_app, fmap_app, concat_app by lia. change (seqZ (0 + d) 1) with [d]. simpl.
      by rewrite app_nil_r.
  - intros mask ->. rewrite Z.sub_diag. simpl. by rewrite app_nil_r.
Qed.

Lemma fill_mask_overflow : INT_MAX < zlen depth * m → fill_mask depth m (zlen depth) = Err Overflow.
Proof using Hsz.
  intros Hmax. destruct mask_size as [Hd0 Hi]. unfold fill_mask, int32. rewrite Hi. cbv zeta.
  by rewrite (proj2 (Z.leb_gt _ INT_MAX)), andb_false_r by done.
Qed.
End fill.

(** The assertion of [gen_mask_vertex] rejects exactly the two graph types it supports. *)
Lemma gen_mask_vertex_asserts vlist elist vc rc graph_type r :
  gen_mask_vertex false vlist elist vc rc graph_type ≠ Ok r.
Proof.
  unfold gen_mask_vertex. destruct (String.eqb graph_type "csc") eqn:H1, (String.eqb graph_type "csr") eqn:H2; done.
Qed.

(** The cell of level [d] and node [s]. *)
Lemma level_masks_lookup depth m d s o :
  0 ≤ d < m → depth !z s = Some o → level_masks depth m !z (d * zlen depth + s) = Some (o =? d).
Proof.
  intros Hd Ho. pose proof (zlookup_range _ _ _ Ho) as Hs. unfold level_masks.
  replace m with (d + (1 + (m - d - 1))) by lia. rewrite !seqZ_app, !fmap_app, !concat_app by lia.
  fold (level_masks depth d). rewrite zlookup_app_r by (rewrite zlen_level_masks; lia). rewrite zlen_level_masks by lia.
  change (seqZ (0 + d) 1) with [d]. simpl. rewrite app_nil_r, zlookup_app_l.
  - replace (d * zlen depth + s - d * zlen depth) with s by lia. unfold level_mask. by rewrite zlookup_fmap, Ho.
  - unfold level_mask. rewrite zlen_fmap. lia.
Qed.

(** C28: [gen_mask_vertex] for graphs of type "csr" with at most [INT_MAX] nodes.  With
    assertions it returns for no type.  Without them, cell [d, s] of the mask it returns says
    whether node [s] has level [d] in the order of [gen_vertex_order_csr], which ends, as
    long as the number of levels times the number of nodes fits in an [int]; otherwise the
    product overflows. *)
Theorem gen_mask_vertex_correct vlist elist vc rc :
  csr_okb vlist elist (vc + rc) = true → 0 ≤ vc → 0 ≤ rc → vc + rc ≤ INT_MAX → Forall (λ d, 0 ≤ d < vc + rc) elist →
  vlist !z 0 = Some 0 → vlist !z (vc + rc) = Some (zlen elist) →
  (∀ graph_type r, gen_mask_vertex false vlist elist vc rc graph_type ≠ Ok r) ∧
  ∃ order depth, gen_vertex_order_csr vlist elist vc rc = Ok (order, depth) ∧
    (INT_MAX < (vc + rc) * depth → gen_mask_vertex true vlist elist vc rc "csr" = Err Overflow) ∧
    ((vc + rc) * depth ≤ INT_MAX → ∃ mask, gen_mask_vertex true vlist elist vc rc "csr" = Ok (mask, depth) ∧
      zlen mask = depth * (vc + rc) ∧
      ∀ d s o, 0 ≤ d < depth → order !z s = Some o → mask !z (d * (vc + rc) + s) = Some (o =? d)).
Proof.
  intros Hcsr Hvc Hrc Hmax Hel H0 Hn. split; [intros graph_type r; apply gen_mask_vertex_asserts|].
  destruct (wp_inv _ _ (gen_vertex_order_csr_spec _ _ _ _ Hcsr Hvc Hrc Hel H0 Hn)) as ([order depth] & Hord & Hlen & Hd & _).
  exists order, depth. split; [done|]. unfold gen_mask_vertex. simpl. rewrite Hord. cbn [rbind]. rewrite <-Hlen in *. split.
  - intros Hov. by rewrite fill_mask_overflow.
  - intros Hfit. exists (level_masks order depth). rewrite fill_mask_ok by done. cbn [rbind].
    split_and!; [done|by apply zlen_level_masks|]. intros d s o Hdd Ho. by apply level_masks_lookup.
Qed.

Lemma gen_mask_vertex_correct_witness :
  (∀ graph_type r, gen_mask_vertex false [0; 2; 4; 6; 8] [3; 1; 0; 3; 0; 1; 2; 1] 2 2 graph_type ≠ Ok r) ∧
  ∃ order depth, gen_vertex_order_csr [0; 2; 4; 6; 8] [3; 1; 0; 3; 0; 1; 2; 1] 2 2 = Ok (order, depth) ∧
    (INT_MAX < (2 + 2) * depth → gen_mask_vertex true [0; 2; 4; 6; 8] [3; 1; 0; 3; 0; 1; 2; 1] 2 2 "csr" = Err Overflow) ∧
    ((2 + 2) * depth ≤ INT_MAX → ∃ mask, gen_mask_vertex true [0; 2; 4; 6; 8] [3; 1; 0; 3; 0; 1; 2; 1] 2 2 "csr" = Ok (mask, depth) ∧
      zlen mask = depth * (2 + 2) ∧
      ∀ d s o, 0 ≤ d < depth → order !z s = Some o → mask !z (d * (2 + 2) + s) = Some (o =? d)).
Proof. apply gen_mask_vertex_correct; try done. repeat constructor; done. Defined.
