(* ===== verification/DepthFilter.v ===== *)
(** * Filtering rules by depth

    [depth_filter.h]: from the deepest level up to [max_depth], the rules of a
    level whose total length is below [min_edge] are inlined into their parents
    and dropped.  The counters are sums of row lengths and are not wrapped. *)

From S2P Require Import Prelude Csr Grammar Filter GenMask.

(** ** Operations *)

(** Graph and transpose. *)
Definition mergeRule (rule_id vertex_cnt : Z) (st : list (list Z) * list (list Z))
    : res (list (list Z) * list (list Z)) :=
  let ID := rule_id + vertex_cnt in
  let '(graph, graphT) := st in
  let* parents := vget graphT ID in
  let* graph := for_up 0 (zlen parents) (λ i graph,
    let* node := vget parents i in
    inline_row graph node ID ID) graph in
  let* children := vget graph ID in
  let* graphT := for_up 0 (zlen children) (λ i graphT,
    let* child_id := vget children i in
    inline_row graphT child_id ID ID) graphT in
  Ok (graph, graphT).

(** [degree[i - vertex_cnt] = graph[i].size()]. *)
Definition degrees (graph : list (list Z)) (vertex_cnt rule_cnt : Z) : res (list Z) :=
  mapr (λ i, let* row := vget graph i in Ok (zlen row)) (seqZ vertex_cnt rule_cnt).

(** [depth_count[depth_ptr[i + vertex_cnt]] += flag[i] ? 0 : degree[i]]. *)
Definition add_counts (depth degree : list Z) (flag : list bool) (vertex_cnt rule_cnt : Z) (depth_count : list Z)
    : res (list Z) :=
  for_up 0 rule_cnt (λ i depth_count,
    let* d := vget depth (i + vertex_cnt) in
    let* x := vget depth_count d in
    let* b := vget flag i in
    let* y := vget degree i in
    vset depth_count d (x + if b : bool then 0 else y)) depth_count.

Record dstate := DState {
  m_depth : Z;
  dgraph : list (list Z);
  dgraphT : list (list Z);
  dflag : list bool;
  depth_count : list Z
}.

(** Merge the rules of level [m_depth]. *)
Definition merge_level (depth : list Z) (vertex_cnt rule_cnt m_depth : Z)
    (st : list (list Z) * list (list Z) * list bool) : res (list (list Z) * list (list Z) * list bool) :=
  for_up 0 rule_cnt (λ r '(graph, graphT, flag),
    let* d := vget depth (r + vertex_cnt) in
    if d =? m_depth then
      let* '(graph, graphT) := mergeRule r vertex_cnt (graph, graphT) in
      let* flag := vset flag r true in
      Ok (graph, graphT, flag)
    else Ok (graph, graphT, flag)) st.

(** One round of the [while] loop. *)
Definition depth_round (depth : list Z) (min_edge vertex_cnt rule_cnt : Z) (st : dstate) : res dstate :=
  let m := m_depth st in
  let* x := vget (depth_count st) m in
  if min_edge <=? x then Ok (DState (m - 1) (dgraph st) (dgraphT st) (dflag st) (depth_count st)) else
  let* '(graph, graphT, flag) := merge_level depth vertex_cnt rule_cnt m (dgraph st, dgraphT st, dflag st) in
  let m := m - 1 in
  let* degree := degrees graph vertex_cnt rule_cnt in
  let* depth_count := for_up 0 (m + 1) (λ i depth_count, vset depth_count i 0) (depth_count st) in
  let* depth_count := add_counts depth degree flag vertex_cnt rule_cnt depth_count in
  Ok (DState m graph graphT flag depth_count).

(** Every round lowers [m_depth]. *)
Definition depth_filter (graph graphT : list (list Z)) (flag : list bool) (depth : list Z)
    (m_depth0 max_depth min_edge vertex_cnt rule_cnt : Z) : res dstate :=
  let* degree := degrees graph vertex_cnt rule_cnt in
  let* depth_count := add_counts depth degree (replicate (Z.to_nat rule_cnt) false) vertex_cnt rule_cnt
    (replicate (Z.to_nat (m_depth0 + 1)) 0) in
  while (S (Z.to_nat (m_depth0 - max_depth + 1))) (λ st, Ok (max_depth <=? m_depth st))
    (depth_round depth min_edge vertex_cnt rule_cnt) (DState m_depth0 graph graphT flag depth_count).

Definition depth_filter_csr (vlist elist : list Z) (vertex_cnt rule_cnt max_depth min_edge : Z)
    : res (list Z * list Z * Z * Z) :=
  let total := Z.to_nat (vertex_cnt + rule_cnt) in
  let* graph := csr_convert (replicate total []) vlist elist (vertex_cnt + rule_cnt) in
  let* graphT := csr_convert_idx (replicate total []) vlist elist (vertex_cnt + rule_cnt) in
  let* '(depth, m_depth) := gen_vertex_order_csr vlist elist vertex_cnt rule_cnt in
  let flag := replicate (Z.to_nat rule_cnt) false in
  let* st := depth_filter graph graphT flag depth m_depth max_depth min_edge vertex_cnt rule_cnt in
  renumber vertex_cnt rule_cnt (dgraph st) (dflag st).

(** ** Merging one rule *)

Section depth.
Context (N R : Z) (ex : list (list Z)).
Context (HN : 0 ≤ N) (HR : 0 ≤ R) (Hex : zlen ex = N + R).
Local Abbreviation T := (N + R).

(** [M]: the rules merged so far. *)
Record dinv (M : gset Z) (g gT : list (list Z)) : Prop := {
  di_range : in_range N R g;
  di_rangeT : in_range N R gT;
  di_cnt : ∀ v x, v ∉ M → x ∉ M → cnt v (rowof gT x) = cnt x (rowof g v);
  di_out : ∀ v x, v ∉ M → x ∈ M → x ∉ rowof g v;
  di_in : ∀ v x, v ∈ M → x ∉ M → v ∉ rowof gT x;
  di_ne : nonempty_rules N R g;
  di_ex : expands_to N ex g
}.

Section merge.
Context (M : gset Z) (g0 gT0 : list (list Z)) (ID : Z).
Context (Hinv : dinv M g0 gT0) (HID : N ≤ ID < T) (HnM : ID ∉ M).
Local Abbreviation rhs := (rowof g0 ID).
Local Abbreviation P := (rowof gT0 ID).

Lemma self_notin_rhs : ID ∉ rhs.
Proof using HN Hex Hinv HID.
  destruct (ex_lookup N R ex Hex ID) as [l Hl]; [lia|].
  destruct (di_ex _ _ _ Hinv _ _ Hl) as [k Hd]. destruct (di_range _ _ _ Hinv) as [Hlen _].
  apply (derives_no_self g0 N ID rhs l k); [lia|apply lookup_rowof; lia|done].
Qed.

Lemma parent_range node : node ∈ P → 0 ≤ node < T ∧ node ≠ ID ∧ node ∉ M.
Proof using HN Hex Hinv HID HnM.
  intros Hin. split; [|split].
  - by apply (proj2 (di_rangeT _ _ _ Hinv) ID).
  - intros ->. apply self_notin_rhs. apply cnt_elem. rewrite <-(di_cnt _ _ _ Hinv) by done. by apply cnt_elem.
  - intros HM. by apply (di_in _ _ _ Hinv node ID).
Qed.

Lemma child_range c : c ∈ rhs → 0 ≤ c < T ∧ c ≠ ID ∧ c ∉ M.
Proof using HN Hex Hinv HID HnM.
  intros Hin. split; [|split].
  - by apply (proj2 (di_range _ _ _ Hinv) ID).
  - intros ->. by apply self_notin_rhs.
  - intros HM. by apply (di_out _ _ _ Hinv ID c).
Qed.

Lemma cnt_self_P : cnt ID P = 0%nat.
Proof using HN Hex Hinv HID HnM. apply cnt_zero. intros Hin. by destruct (parent_range _ Hin) as (_ & ? & _). Qed.

(** The graph after the parents [pre]. *)
Record parents_inlined (pre : list Z) (g : list (list Z)) : Prop := {
  pi_ex : expands_to N ex g;
  pi_ne : nonempty_rules N R g;
  pi_range : in_range N R g;
  pi_rhs : rowof g ID = rhs;
  pi_cnt : ∀ v x, (cnt x (rowof g v) + (if decide (x = ID) then cnt v pre else 0) =
    cnt x (rowof g0 v) + cnt v pre * cnt x rhs)%nat
}.

Lemma parent_step pre node post g :
  P = pre ++ node :: post → parents_inlined pre g →
  wp (inline_row g node ID ID) (parents_inlined (pre ++ [node])).
Proof using HN Hex Hinv HID HnM.
  intros HP [Hexp Hne Hrng Hrow Hcnt].
  destruct (parent_range node) as (Hnode & Hneq & HM); [rewrite HP, elem_of_app, elem_of_cons; auto|].
  assert (ID ∈ rowof g node) as Hin.
  { apply cnt_elem. specialize (Hcnt node ID). rewrite decide_True in Hcnt by done.
    rewrite (proj2 (cnt_zero ID rhs) self_notin_rhs) in Hcnt.
    rewrite <-(di_cnt _ _ _ Hinv node ID HM HnM), HP, cnt_app, cnt_cons, decide_True in Hcnt by done. lia. }
  destruct (inline_parent N R ex HN Hex g ID node) as (row' & -> & Hexp' & Hne' & Hrng' & _ & Hcnt'); try done.
  destruct Hrng as [Hlen _]. rewrite Hrow in Hcnt'. cbn [wp]. split; try done.
  - rewrite rowof_zinsert, decide_False by (done || lia). done.
  - intros v x. rewrite rowof_zinsert, cnt_app, cnt_cons, cnt_nil by lia. specialize (Hcnt v x). specialize (Hcnt' x).
    destruct (decide (v = node)) as [->|], (decide (x = ID)); lia.
Qed.

(** The transpose after the children [pre]. *)
Record children_inlined (pre : list Z) (gT : list (list Z)) : Prop := {
  ci_range : in_range N R gT;
  ci_P : rowof gT ID = P;
  ci_cnt : ∀ x v, (cnt v (rowof gT x) + (if decide (v = ID) then cnt x pre else 0) =
    cnt v (rowof gT0 x) + cnt x pre * cnt v P)%nat
}.

Lemma child_step pre c post gT :
  rhs = pre ++ c :: post → children_inlined pre gT →
  wp (inline_row gT c ID ID) (children_inlined (pre ++ [c])).
Proof using HN Hex Hinv HID HnM.
  intros Hrhs [Hrng HP Hcnt].
  destruct (child_range c) as (Hc & HcID & HcM); [rewrite Hrhs, elem_of_app, elem_of_cons; auto|].
  assert (ID ∈ rowof gT c) as Hin.
  { apply cnt_elem. specialize (Hcnt c ID). rewrite decide_True, cnt_self_P in Hcnt by done.
    rewrite (di_cnt _ _ _ Hinv ID c HnM HcM), Hrhs, cnt_app, cnt_cons, decide_True in Hcnt by done. lia. }
  destruct (inline_child N R HN (ID - N) ltac:(lia) gT c) as (row' & Hok & Hrng' & _ & Hcnt');
    rewrite ?Z.sub_add in *; try done.
  rewrite Hok. destruct Hrng as [Hlen _]. rewrite HP in Hcnt'. cbn [wp]. split; try done.
  - rewrite rowof_zinsert, decide_False by (done || lia). done.
  - intros x v. rewrite rowof_zinsert, cnt_app, cnt_cons, cnt_nil by lia. specialize (Hcnt x v). specialize (Hcnt' v).
    destruct (decide (x = c)) as [->|], (decide (v = ID)); lia.
Qed.

(** Both loops done. *)
Lemma merge_done g gT : parents_inlined P g → children_inlined rhs gT → dinv (M ∪ {[ID]}) g gT.
Proof using HN Hex Hinv HID HnM.
  intros [Hexp Hne Hrng Hrow Hcnt1] [HrngT HP Hcnt2]. pose proof cnt_self_P as HIDP.
  pose proof (proj2 (cnt_zero ID rhs) self_notin_rhs) as HIDr.
  assert (∀ v x, v ∈ M → x ∉ M → cnt v (rowof gT0 x) = 0%nat) as Hz by (intros; apply cnt_zero; by apply (di_in _ _ _ Hinv)).
  assert (∀ v x, v ∉ M → x ∈ M → cnt x (rowof g0 v) = 0%nat) as Ho by (intros; apply cnt_zero; by apply (di_out _ _ _ Hinv)).
  assert (∀ v, v ∉ (M ∪ {[ID]}) ↔ (v ∉ M) ∧ v ≠ ID) as Hnot by (intros v; rewrite not_elem_of_union, not_elem_of_singleton; done).
  assert (∀ v, v ∈ (M ∪ {[ID]}) ↔ v ∈ M ∨ v = ID) as Hyes by (intros v; rewrite elem_of_union, elem_of_singleton; done).
  split; try done.
  - intros v x [Hv HvID]%Hnot [Hx HxID]%Hnot. specialize (Hcnt1 v x). specialize (Hcnt2 x v).
    rewrite decide_False in Hcnt1 by done. rewrite decide_False in Hcnt2 by done. rewrite (di_cnt _ _ _ Hinv v x) in Hcnt2 by done. lia.
  - intros v x [Hv HvID]%Hnot [Hx| ->]%Hyes; apply cnt_zero.
    + specialize (Hcnt1 v x). rewrite decide_False, Ho, Ho in Hcnt1 by (done || (intros ->; done)). lia.
    + specialize (Hcnt1 v ID). rewrite decide_True, <-(di_cnt _ _ _ Hinv v ID) in Hcnt1 by done. lia.
  - intros v x [Hv| ->]%Hyes [Hx HxID]%Hnot; apply cnt_zero.
    + specialize (Hcnt2 x v). rewrite decide_False, Hz, Hz in Hcnt2 by (done || (intros ->; done)). lia.
    + specialize (Hcnt2 x ID). rewrite decide_True, (di_cnt _ _ _ Hinv ID x) in Hcnt2 by done. lia.
Qed.

Lemma mergeRule_spec :
  wp (mergeRule (ID - N) N (g0, gT0)) (λ '(g, gT), dinv (M ∪ {[ID]}) g gT).
Proof using HN Hex Hinv HID HnM.
  pose proof Hinv as [[Hlen Hrng] [HlenT HrngT] _ _ _ Hne Hexp]. unfold mergeRule. rewrite Z.sub_add.
  rewrite (vget_ok gT0 ID P) by (apply lookup_rowof; lia). cbn [rbind]. apply wp_bind.
  apply (wp_for_up (λ j g, parents_inlined (slice P 0 j) g)).
  - apply zlen_nonneg.
  - rewrite slice_nil by lia. split; try done. intros v x. rewrite cnt_nil. destruct (decide _); lia.
  - intros j g Hj Hg. destruct (zlookup_total P j Hj) as [node Hnode]. rewrite (vget_ok _ _ _ Hnode). cbn [rbind].
    rewrite (slice_snoc P 0 j node) by (done || lia). apply (parent_step _ _ (slice P (j + 1) (zlen P))); [|done].
    by rewrite <-(slice_cons P j (zlen P) node), slice_app, slice_full by (done || lia).
  - intros g. rewrite slice_full. intros Hg. pose proof Hg as [_ _ [Hlg _] Hrhs _].
    rewrite (vget_ok g ID rhs) by (rewrite <-Hrhs; apply lookup_rowof; lia). cbn [rbind]. apply wp_bind.
    apply (wp_for_up (λ j gT, children_inlined (slice rhs 0 j) gT)).
    + apply zlen_nonneg.
    + rewrite slice_nil by lia. split; try done. intros x v. rewrite cnt_nil. destruct (decide _); lia.
    + intros j gT Hj HgT. destruct (zlookup_total rhs j Hj) as [c Hc]. rewrite (vget_ok _ _ _ Hc). cbn [rbind].
      rewrite (slice_snoc rhs 0 j c) by (done || lia). apply (child_step _ _ (slice rhs (j + 1) (zlen rhs))); [|done].
      by rewrite <-(slice_cons rhs j (zlen rhs) c), slice_app, slice_full by (done || lia).
    + intros gT. rewrite slice_full. intros HgT. cbn [wp]. by apply merge_done.
Qed.
End merge.

(** ** The loop over the levels *)

Context (depth : list Z) (D : Z).
Context (Hdepth : ∀ r, 0 ≤ r < R → ∃ d, depth !z (r + N) = Some d ∧ 0 ≤ d < D).

(** The flags are the merged rules; all of them lie at or above [m] in depth,
    those of level [m] before rule [r]. *)
Record linv (m r : Z) (g gT : list (list Z)) (flag : list bool) (M : gset Z) : Prop := {
  li_dinv : dinv M g gT;
  li_len : zlen flag = R;
  li_flag : ∀ i, 0 ≤ i < R → flag !z i = Some (bool_decide (i + N ∈ M));
  li_M : ∀ x, x ∈ M → N ≤ x < T ∧ ∃ d, depth !z x = Some d ∧ (m < d ∨ d = m ∧ x < r + N)
}.

Lemma merge_level_spec m g gT flag M :
  linv m 0 g gT flag M →
  wp (merge_level depth N R m (g, gT, flag)) (λ '(g, gT, flag), ∃ M, linv m R g gT flag M).
Proof using HN HR Hex Hdepth.
  intros Hl. unfold merge_level.
  apply (wp_for_up (λ r '(g, gT, flag), ∃ M, linv m r g gT flag M)); [done|by exists M| |by intros [[? ?] ?]].
  clear g gT flag M Hl. intros r [[g gT] flag] Hr (M & [Hd Hlen Hfl HM]).
  destruct (Hdepth r Hr) as (d & Hdr & Hd0). rewrite (vget_ok _ _ _ Hdr). cbn [rbind].
  destruct (Z.eqb_spec d m) as [->|Hne].
  - assert (r + N ∉ M) as Hnot.
    { intros Hin. destruct (HM _ Hin) as (_ & d & Hd' & Hcase). assert (d = m) by congruence. lia. }
    pose proof (mergeRule_spec M g gT (r + N) Hd ltac:(lia) Hnot) as Hmerge. rewrite Z.add_simpl_r in Hmerge.
    apply wp_bind. eapply wp_mono; [exact Hmerge|]. intros [g' gT'] Hd'. rewrite vset_ok by lia. cbn [rbind wp].
    exists (M ∪ {[r + N]}). split; [done|by rewrite zlen_zinsert| |].
    + intros i Hi. destruct (decide (i = r)) as [->|].
      * rewrite zlookup_zinsert_eq by lia. rewrite bool_decide_eq_true_2; [done|]. apply elem_of_union_r, elem_of_singleton. done.
      * rewrite zlookup_zinsert_ne, Hfl by lia. f_equal. apply bool_decide_ext. rewrite elem_of_union, elem_of_singleton.
        split; [tauto|]. intros [?|?]; [done|lia].
    + intros x [Hx|Hx%elem_of_singleton]%elem_of_union.
      * destruct (HM x Hx) as (Hxr & d & Hxd & Hcase). split; [done|]. exists d. split; [done|lia].
      * subst x. split; [lia|]. exists m. split; [done|lia].
  - cbn [wp]. exists M. split; try done. intros x Hx. destruct (HM x Hx) as (Hxr & d' & Hxd & Hcase).
    split; [done|]. exists d'. split; [done|lia].
Qed.

Lemma degrees_ok g : in_range N R g → ∃ deg, degrees g N R = Ok deg ∧ zlen deg = R.
Proof using HN HR.
  intros [Hlen _]. exists ((λ i, zlen (rowof g i)) <$> seqZ N R). split; [|by rewrite zlen_fmap, zlen_seqZ].
  unfold degrees. apply mapr_ok. intros i Hi%elem_of_seqZ.
  by rewrite (vget_ok _ _ _ (lookup_rowof g i ltac:(lia))).
Qed.

Lemma add_counts_ok degree flag dc :
  zlen degree = R → zlen flag = R → zlen dc = D + 1 →
  wp (add_counts depth degree flag N R dc) (λ dc', zlen dc' = D + 1).
Proof using HR Hdepth.
  intros Hdeg Hfl Hdc. unfold add_counts. apply (wp_for_up (λ _ dc, zlen dc = D + 1)); [done|done| |done].
  intros i dc' Hi Hl. destruct (Hdepth i Hi) as (d & Hd & Hd0). rewrite (vget_ok _ _ _ Hd). cbn [rbind].
  destruct (zlookup_total dc' d) as [x Hx]; [lia|]. destruct (zlookup_total flag i) as [b Hb]; [lia|].
  destruct (zlookup_total degree i) as [y Hy]; [lia|]. wp_run. by rewrite zlen_zinsert.
Qed.

Lemma depth_round_ok min_edge st M :
  0 ≤ m_depth st ≤ D → zlen (depth_count st) = D + 1 →
  linv (m_depth st) 0 (dgraph st) (dgraphT st) (dflag st) M →
  wp (depth_round depth min_edge N R st) (λ st', m_depth st' = m_depth st - 1 ∧ zlen (depth_count st') = D + 1 ∧
    ∃ M, linv (m_depth st') 0 (dgraph st') (dgraphT st') (dflag st') M).
Proof using HN HR Hex Hdepth.
  intros Hm Hdc Hl. unfold depth_round. destruct (zlookup_total (depth_count st) (m_depth st)) as [x Hx]; [lia|].
  rewrite (vget_ok _ _ _ Hx). cbn [rbind].
  assert (∀ r g gT flag M, 0 ≤ r → linv (m_depth st) r g gT flag M → linv (m_depth st - 1) 0 g gT flag M) as Hlow.
  { intros r g gT flag M' Hr [Hd Hlen Hfl HM]. split; try done. intros y Hy. destruct (HM y Hy) as (Hyr & d & Hyd & Hcase).
    split; [done|]. exists d. split; [done|lia]. }
  destruct (Z.leb_spec min_edge x).
  - cbn [wp]. split_and!; [done|done|]. exists M. by apply (Hlow 0).
  - apply wp_bind. eapply wp_mono; [by apply (merge_level_spec _ _ _ _ M)|]. intros [[g gT] flag] (M' & Hl').
    destruct (degrees_ok g) as (deg & -> & Hdeg); [by apply (di_range _ _ _ (li_dinv _ _ _ _ _ _ Hl'))|]. cbn [rbind].
    apply wp_bind. apply (wp_for_up (λ _ dc, zlen dc = D + 1)); [lia|done| |].
    + intros i dc Hi Hl0. rewrite vset_ok by lia. cbn [wp]. by rewrite zlen_zinsert.
    + intros dc Hl0. apply wp_bind. eapply wp_mono; [apply add_counts_ok; [done| |done]; by destruct Hl'|].
      intros dc' Hdc'. cbn [wp]. split_and!; [done|done|]. exists M'. by apply (Hlow R).
Qed.

Lemma depth_filter_ok max_depth min_edge g gT :
  0 ≤ max_depth → 0 ≤ D → dinv ∅ g gT →
  wp (depth_filter g gT (replicate (Z.to_nat R) false) depth D max_depth min_edge N R) (λ st,
    ∃ m M, linv m 0 (dgraph st) (dgraphT st) (dflag st) M).
Proof using HN HR Hex Hdepth.
  intros Hmax HD Hd. unfold depth_filter.
  destruct (degrees_ok g) as (deg & -> & Hdeg); [by eapply di_range|]. cbn [rbind]. apply wp_bind.
  eapply wp_mono. { apply add_counts_ok; [done|rewrite zlen_replicate; lia|rewrite zlen_replicate; lia]. }
  intros dc Hdc.
  apply (wp_while_rel (λ st k, m_depth st ≤ D ∧ zlen (depth_count st) = D + 1 ∧ k = Z.to_nat (m_depth st - max_depth + 1) ∧
    ∃ M, linv (m_depth st) 0 (dgraph st) (dgraphT st) (dflag st) M) (Z.to_nat (D - max_depth + 1))); [|lia|].
  - simpl. split_and!; try done. exists ∅. split; try done.
    + rewrite zlen_replicate. lia.
    + intros i Hi. rewrite zlookup_replicate by lia. rewrite bool_decide_eq_false_2; [done|]. apply not_elem_of_empty.
  - intros st k (Hm & Hl & -> & M & Hlin). cbn [wp]. destruct (Z.leb_spec max_depth (m_depth st)); [|by eauto].
    eapply wp_mono; [apply (depth_round_ok min_edge st M); [lia|done|done]|]. intros st' (Hm' & Hdc' & M' & Hlin').
    exists (Z.to_nat (m_depth st' - max_depth + 1)). split; [|lia]. split_and!; [lia|done|done|]. by exists M'.
Qed.
End depth.

(** ** Every rule has a level *)

(** A rule that occurs in a row takes fewer derivation steps than the row. *)
Lemma derives_smaller g n x row l k :
  derives g n row l k → n ≤ x → x ∈ row → ∃ rx lx kx, g !z x = Some rx ∧ derives g n rx lx kx ∧ (kx < k)%nat.
Proof.
  intros Hd Hx [a [b ->]]%list_elem_of_split. apply derives_app_inv in Hd as (l1 & l2 & k1 & k2 & _ & -> & _ & Hd).
  apply (derives_app_inv g n [x]) in Hd as (l3 & l4 & k3 & k4 & _ & -> & Hd & _).
  apply derives_rule_inv in Hd as (rx & kx & Hrx & Hdx & ->); [|done]. exists rx, l3, kx. split_and!; [done|done|lia].
Qed.

Lemma all_levels vlist elist N R ex order depth :
  filter_input vlist elist N R ex → topological vlist elist N R order depth →
  ∀ r, 0 ≤ r < R → ∃ d, order !z (r + N) = Some d ∧ 0 ≤ d < depth.
Proof.
  intros Hin Htop. destruct Hin. destruct Htop.
  set (g := csr_rows vlist elist (N + R)).
  assert (∀ v, 0 ≤ v < N + R → g !z v = Some (csr_row vlist elist v)) as Hg by (intros; by apply zlookup_csr_rows).
  assert (∃ K, ∀ v, 0 ≤ v < N + R → ∃ l k, derives g N (csr_row vlist elist v) l k ∧ (k < K)%nat) as [K HK].
  { assert (∀ n, 0 ≤ n → n ≤ N + R → ∃ K, ∀ v, 0 ≤ v < n → ∃ l k, derives g N (csr_row vlist elist v) l k ∧ (k < K)%nat) as Hn.
    { intros n Hn. pattern n. apply natlike_ind; [|..|done]; clear n Hn.
      - intros _. exists 0%nat. lia.
      - intros n Hn IH Hle. unfold Z.succ in *. destruct IH as [K HK]; [lia|].
        destruct (zlookup_total ex n) as [l Hl]; [lia|]. destruct (fin_derives n l Hl) as [k Hd].
        exists (Nat.max K (S k)). intros v Hv. destruct (decide (v = n)) as [->|].
        + exists l, k. split; [done|lia].
        + destruct (HK v) as (l' & k' & ? & ?); [lia|]. exists l', k'. split; [done|lia]. }
    apply Hn; lia. }
  assert (∀ (m : nat) x l k, N ≤ x < N + R → derives g N (csr_row vlist elist x) l k → (K - k < m)%nat →
    order !z x ≠ Some INIT) as Hmain.
  { induction m as [|m IH]; intros x l k Hx Hd Hm Hox; [lia|].
    destruct (tp_unreached x) as [Hno|(v & Hv & Hxv & Hov)]; [lia|done| |].
    - destruct (fin_rules x Hx) as (_ & v & Hv & Hxv). by apply (Hno v).
    - assert (N ≤ v) as HvN. { destruct (decide (v < N)); [|lia]. rewrite tp_vertex in Hov by lia. done. }
      destruct (HK v Hv) as (lv & kv & Hdv & Hkv).
      destruct (derives_smaller g N x _ lv kv Hdv ltac:(lia) Hxv) as (rx & lx & kx & Hrx & Hdx & Hlt).
      rewrite Hg in Hrx by lia. injection Hrx as <-. destruct (derives_det _ _ _ _ _ _ _ Hd Hdx) as [_ ->].
      apply (IH v lv kv); [lia|done|lia|done]. }
  intros r Hr. destruct (zlookup_total order (r + N)) as [d Hd]; [lia|]. exists d. split; [done|].
  apply (tp_level (r + N)); [done|]. intros ->. destruct (HK (r + N)) as (l & k & Hdk & _); [lia|].
  apply (Hmain (S K) (r + N) l k); [lia|done|lia|done].
Qed.

(** C29: depth filtering is lossless.  On every well-formed compressed graph with
    fewer levels than [INIT], for every [max_depth] from 0 on and every
    [min_edge], the run returns a CSR graph of the same vertices and at most as
    many rules in which every vertex expands to the successors it expanded to
    before. *)
Theorem depth_filter_csr_lossless vlist elist N R ex max_depth min_edge :
  filter_input vlist elist N R ex → vlist !z 0 = Some 0 → vlist !z (N + R) = Some (zlen elist) →
  (∀ order depth, gen_vertex_order_csr vlist elist N R = Ok (order, depth) → depth ≤ INIT) → 0 ≤ max_depth →
  ∃ vl el R', depth_filter_csr vlist elist N R max_depth min_edge = Ok (vl, el, N, R') ∧
    0 ≤ R' ≤ R ∧ csr_okb vl el (N + R') = true ∧
    ∀ v l, 0 ≤ v < N → ex !z v = Some l →
      ∃ k, derives (csr_rows vl el (N + R')) N (csr_row vl el v) l k.
Proof.
  intros Hin H0 Hn Hlev Hmax. pose proof Hin as []. unfold depth_filter_csr.
  rewrite csr_convert_rows by (done || lia). cbn [rbind].
  destruct (wp_inv _ _ (input_transpose vlist elist N R ex Hin)) as (gT & -> & HgT & Htr & Hused). cbn [rbind].
  destruct (wp_inv _ _ (gen_vertex_order_csr_spec vlist elist N R fin_csr fin_N fin_R fin_elist H0 Hn))
    as ([order depth] & Hord & Hlen & Hd0 & Htop). specialize (Htop (Hlev _ _ Hord)). rewrite Hord. cbn [rbind].
  pose proof (all_levels _ _ _ _ _ _ _ Hin Htop) as Hdepth.
  assert (dinv N R ex ∅ (csr_rows vlist elist (N + R)) gT) as Hd.
  { split; try done; [by eapply input_range|by eapply input_nonempty|by eapply input_expands]. }
  destruct (wp_inv _ _ (depth_filter_ok N R ex fin_N fin_R fin_ex order depth Hdepth max_depth min_edge _ _ Hmax Hd0 Hd))
    as (st & -> & m & M & [[[Hlg Hrng] _ _ Hout _ Hne Hexp] Hfl Hflag HM]). cbn [rbind].
  apply (renumber_lossless N R (dgraph st) (dflag st) ex); try done.
  - apply Forall_forall. intros row [v Hv]%elem_zlookup. apply Forall_forall. intros x Hx.
    apply (Hrng v). by rewrite (rowof_lookup _ _ _ Hv).
  - etrans; [|exact fin_size]. apply zlen_concat_le; [lia|]. intros v r l Hr Hl. rewrite <-(rowof_lookup _ _ _ Hr).
    by apply (row_bound N R ex fin_N (dgraph st)).
  - intros v row Hrow Hv. apply Forall_forall. intros x Hx. rewrite <-(rowof_lookup _ _ _ Hrow) in Hx.
    pose proof (Hrng v x Hx) as Hxr. split; [done|]. intros HxN. pose proof (Hflag (x - N) ltac:(lia)) as Hfx.
    rewrite Z.sub_add in Hfx. rewrite Hfx. f_equal. apply bool_decide_eq_false_2. intros HxM.
    apply (Hout v x); [|done|done]. intros HvM. destruct (HM v HvM) as [Hvr _]. specialize (Hv ltac:(lia)).
    rewrite Hflag, Z.sub_add, bool_decide_eq_true_2 in Hv by (done || lia). done.
Qed.

Lemma depth_filter_csr_lossless_witness :
  ∃ vl el R', depth_filter_csr sample_vlist sample_elist 3 2 1 3 = Ok (vl, el, 3, R') ∧
    0 ≤ R' ≤ 2 ∧ csr_okb vl el (3 + R') = true ∧
    ∀ v l, 0 ≤ v < 3 → sample_expansions !z v = Some l →
      ∃ k, derives (csr_rows vl el (3 + R')) 3 (csr_row vl el v) l k.
Proof.
  apply (depth_filter_csr_lossless _ _ _ _ _ 1 3 sample_filter_input); try done.
  intros order depth H. vm_compute in H. injection H as <- <-. by vm_compute.
Defined.

(** A rule that no row uses has no level, and the filter then writes outside
    the counters: on a graph with one vertex and one unused rule it fails. *)
Theorem depth_filter_unused_rule :
  depth_filter_csr [0; 1; 3] [0; 0; 0] 1 1 1 0 = Err OutOfBounds.
Proof. reflexivity. Qed.
