(* ===== verification/Norm.v ===== *)
(** * Degree normalisation

    [norm.h]: the weight of an edge is the product of the inverse square roots of
    the degrees of its ends; in a compressed graph the factor of a rule is 1.
    [float] is binary32 of [SpecFloat] with rounding to nearest even;
    [sqrt] is the overload for [float].  Loops marked [omp parallel for] are run
    in order here, for reference: [NormThreads] has them as they are, with threads, and
    shows that one thread gives the same.  Output buffers start with arbitrary
    contents. *)

From Stdlib Require Import SpecFloat.
From S2P Require Import Prelude Csr Convert.

(** ** Binary32 *)

Abbreviation float32 := spec_float.
Definition fmul (x y : float32) : float32 := SFmul 24 128 x y.
Definition fone : float32 := S754_finite false 8388608 (-23).
(** [1e-6]. *)
Definition feps : float32 := S754_finite false 8796093 (-43).
Definition finc (x : float32) : float32 := SFadd 24 128 x fone.
Definition finv_sqrt (x : float32) : float32 := SFdiv 24 128 fone (SFsqrt 24 128 x).
Definition fvalid (x : float32) : Prop := valid_binary 24 128 x = true.

(** ** Operations *)

Definition get_norm_degree (dst_ptr : list Z) (in_degree0 : list float32) (vertex_cnt : Z) : res (list float32) :=
  let* in_degree := for_up 0 vertex_cnt (λ vid in_degree, vset in_degree vid feps) in_degree0 in
  let* in_degree := for_up 0 (zlen dst_ptr) (λ eid in_degree,
    let* d := vget dst_ptr eid in
    let* x := vget in_degree d in
    vset in_degree d (finc x)) in_degree in
  for_up 0 vertex_cnt (λ vid in_degree,
    let* x := vget in_degree vid in
    vset in_degree vid (finv_sqrt x)) in_degree.

(** The product of the weights of the ends of an edge. *)
Definition edge_product (in_degree : list float32) (src dst : Z) : res float32 :=
  let* ws := vget in_degree src in
  let* wd := vget in_degree dst in
  Ok (fmul ws wd).

Definition gcn_norm_coo (src_ptr dst_ptr : list Z) (in_degree edge_weight0 : list float32) : res (list float32) :=
  for_up 0 (zlen src_ptr) (λ i edge_weight,
    let* s := vget src_ptr i in
    let* d := vget dst_ptr i in
    let* w := edge_product in_degree s d in
    vset edge_weight i w) edge_weight0.

Definition gcn_norm_csr (vlist_ptr elist_ptr : list Z) (in_degree edge_weight0 : list float32) (vertex_cnt : Z)
    : res (list float32) :=
  for_up 0 vertex_cnt (λ vid edge_weight,
    let* start := vget vlist_ptr vid in
    let* end_ := vget vlist_ptr (vid + 1) in
    for_up start end_ (λ eid edge_weight,
      let* dst := vget elist_ptr eid in
      let* w := edge_product in_degree vid dst in
      vset edge_weight eid w) edge_weight) edge_weight0.

(** The four cases for the ends of an edge of a compressed graph. *)
Definition edge_factor (in_degree : list float32) (vertex_cnt src dst : Z) : res float32 :=
  if src <? vertex_cnt then
    let* ws := vget in_degree src in
    if dst <? vertex_cnt then
      let* wd := vget in_degree dst in
      Ok (fmul ws wd)
    else Ok ws
  else if dst <? vertex_cnt then vget in_degree dst
  else Ok fone.

Definition gcn_norm_coo_compress (src_ptr dst_ptr : list Z) (in_degree edge_weight0 : list float32) (vertex_cnt : Z)
    : res (list float32) :=
  for_up 0 (zlen src_ptr) (λ eid edge_weight,
    let* src_node := vget src_ptr eid in
    let* dst_node := vget dst_ptr eid in
    let* w := edge_factor in_degree vertex_cnt src_node dst_node in
    vset edge_weight eid w) edge_weight0.

Definition gcn_norm_csr_compress (vlist_ptr elist_ptr : list Z) (in_degree edge_weight0 : list float32)
    (vertex_cnt rule_cnt : Z) : res (list float32) :=
  for_up 0 (vertex_cnt + rule_cnt) (λ vid edge_weight,
    let* start := vget vlist_ptr vid in
    let* end_ := vget vlist_ptr (vid + 1) in
    for_up start end_ (λ eid edge_weight,
      let* dst := vget elist_ptr eid in
      let* w := edge_factor in_degree vertex_cnt vid dst in
      vset edge_weight eid w) edge_weight) edge_weight0.

(** ** Multiplication by 1 *)

Lemma shr_even (m : positive) : SpecFloat.iter_pos shr_1 23 (Build_shr_record (Zpos (8388608 * m)) false false) = Build_shr_record (Zpos m) false false.
Proof. reflexivity. Qed.

Lemma digits_shift (m : positive) : Zpos (digits2_pos (8388608 * m)) = Zpos (digits2_pos m) + 23.
Proof. change (8388608 * m)%positive with (Nat.iter 23 xO m). cbn [Nat.iter digits2_pos nat_rect]. lia. Qed.

Lemma round_shifted s m e :
  bounded 24 128 m e = true → binary_round_aux 24 128 s (Zpos (8388608 * m)) (e - 23) loc_Exact = S754_finite s m e.
Proof.
  intros Hb. unfold bounded in Hb. apply andb_true_iff in Hb as [Hc%Z.eqb_eq He]. unfold binary_round_aux, shr_fexp.
  cbn [shr_record_of_loc]. cbn [Zdigits2]. rewrite digits_shift.
  replace (Zpos (digits2_pos m) + 23 + (e - 23)) with (Zpos (digits2_pos m) + e) by lia. rewrite Hc.
  replace (e - (e - 23)) with 23 by lia. unfold shr. rewrite shr_even. cbn [shr_m loc_of_shr_record round_nearest_even Zdigits2].
  replace (e - 23 + 23) with e by lia. rewrite Hc, Z.sub_diag. cbn [shr_m]. by rewrite He.
Qed.

Lemma fmul_one_r x : fvalid x → fmul x fone = x.
Proof.
  unfold fvalid, fmul, fone. destruct x as [s|s| |s m e]; simpl; intros Hv; rewrite ?xorb_false_r; try done.
  rewrite Pos.mul_comm. by apply round_shifted.
Qed.

Lemma fmul_one_l x : fvalid x → fmul fone x = x.
Proof.
  unfold fvalid, fmul, fone. destruct x as [s|s| |s m e]; intros Hv; try done.
  cbn [SFmul]. rewrite xorb_false_l. replace (-23 + e) with (e - 23) by lia. by apply round_shifted.
Qed.

(** ** The weights of a CSR graph *)

(** [f] gives the weight of an edge from its ends. *)
Section weights.
Context (vlist elist : list Z) (f : Z → Z → res float32) (h : Z → Z → float32) (n : Z).
Context (Hcsr : csr_okb vlist elist n = true) (Hn : 0 ≤ n).
Context (Hf : ∀ v d, 0 ≤ v < n → d ∈ elist → f v d = Ok (h v d)).

(** The CSR versions fill the buffer row by row. *)
Definition fill_row (v a b : Z) (edge_weight : list float32) : res (list float32) :=
  for_up a b (λ eid edge_weight,
    let* dst := vget elist eid in
    let* w := f v dst in
    vset edge_weight eid w) edge_weight.

Definition fill_rows (edge_weight0 : list float32) : res (list float32) :=
  for_up 0 n (λ vid edge_weight,
    let* start := vget vlist vid in
    let* end_ := vget vlist (vid + 1) in
    fill_row vid start end_ edge_weight) edge_weight0.

Lemma fill_row_spec v a b w0 :
  0 ≤ v < n → 0 ≤ a ≤ b → b ≤ zlen elist → zlen w0 = zlen elist →
  wp (fill_row v a b w0) (λ w, zlen w = zlen elist ∧ (∀ e, e < a ∨ b ≤ e → w !z e = w0 !z e) ∧
    ∀ e d, a ≤ e < b → elist !z e = Some d → w !z e = Some (h v d)).
Proof using Hf.
  intros Hv Hab Hb Hw. unfold fill_row.
  apply (wp_for_up (λ k w, zlen w = zlen elist ∧ (∀ e, e < a ∨ k ≤ e → w !z e = w0 !z e) ∧
    ∀ e d, a ≤ e < k → elist !z e = Some d → w !z e = Some (h v d))); [lia| | |done].
  - split_and!; [done..|lia].
  - intros k w Hk (Hl & Hold & Hnew). destruct (zlookup_total elist k) as [d Hd]; [lia|]. rewrite (vget_ok _ _ _ Hd). cbn [rbind].
    rewrite Hf by (done || by eapply zlookup_elem). cbn [rbind]. rewrite vset_ok by lia. cbn [wp].
    split_and!; [by rewrite zlen_zinsert| |].
    + intros e He. rewrite zlookup_zinsert_ne by lia. apply Hold. lia.
    + intros e d' He Hd'. destruct (decide (e = k)) as [->|Hne].
      * rewrite zlookup_zinsert_eq by lia. by simplify_eq.
      * rewrite zlookup_zinsert_ne by lia. apply Hnew; [lia|done].
Qed.

(** The weight of the edges of row [v] comes from [h v]. *)
Definition weighted (w : list float32) (v : Z) : Prop := ∀ a b e d,
  vlist !z v = Some a → vlist !z (v + 1) = Some b → a ≤ e < b → elist !z e = Some d → w !z e = Some (h v d).

Lemma fill_rows_spec w0 :
  zlen w0 = zlen elist → wp (fill_rows w0) (λ w, zlen w = zlen elist ∧ ∀ v, 0 ≤ v < n → weighted w v).
Proof using Hcsr Hn Hf.
  intros Hw. unfold fill_rows.
  eapply (wp_for_up (λ i w, zlen w = zlen elist ∧ (∀ v, 0 ≤ v < i → weighted w v) ∧
    ∀ v c, 0 ≤ v < i → vlist !z (v + 1) = Some c → ∃ a, vlist !z i = Some a ∧ c ≤ a)); [done| | |].
  - split_and!; [done|lia..].
  - intros i w Hi (Hl & Hws & Hmono). destruct (csr_okb_spec _ _ _ i Hcsr Hi) as (a & b & Ha & Hb & ? & ?).
    rewrite (vget_ok _ _ _ Ha), (vget_ok _ _ _ Hb). cbn [rbind].
    eapply wp_mono; [by apply fill_row_spec|]. intros w' (Hl' & Hold & Hnew). split_and!; [done| |].
    + intros v Hv a' b' e d Ha' Hb' He Hd. destruct (decide (v = i)) as [->|Hne].
      * simplify_eq. by apply Hnew.
      * destruct (Hmono v b') as (a2 & Ha2 & Hle); [lia|done|]. simplify_eq. rewrite Hold by lia. eapply Hws; eauto; lia.
    + intros v c Hv Hc. exists b. split; [done|]. destruct (decide (v = i)) as [->|Hne]; [by simplify_eq|].
      destruct (Hmono v c) as (a2 & Ha2 & Hle); [lia|done|]. simplify_eq. lia.
  - intros w (Hl & Hws & _). done.
Qed.
End weights.

(** ** Compressed graphs *)

Definition weight_of (in_degree : list float32) (v : Z) : float32 := default fone (in_degree !z v).

Definition factor (in_degree : list float32) (n src dst : Z) : float32 :=
  fmul (if src <? n then weight_of in_degree src else fone) (if dst <? n then weight_of in_degree dst else fone).

(** The weights of the vertices: one binary32 number each. *)
Definition degrees_ok (in_degree : list float32) (n : Z) : Prop :=
  zlen in_degree = n ∧ Forall fvalid in_degree.

Lemma weight_valid in_degree n v : degrees_ok in_degree n → fvalid (weight_of in_degree v).
Proof.
  intros [_ Hv]. unfold weight_of. destruct (in_degree !z v) as [x|] eqn:Hx; [|done]. rewrite Forall_forall in Hv.
  apply Hv. by eapply zlookup_elem.
Qed.

Lemma vget_weight in_degree v : 0 ≤ v < zlen in_degree → vget in_degree v = Ok (weight_of in_degree v).
Proof. intros Hv. destruct (zlookup_total in_degree v) as [x Hx]; [lia|]. unfold weight_of. rewrite Hx. by apply vget_ok. Qed.

Lemma edge_factor_ok in_degree n src dst :
  degrees_ok in_degree n → 0 ≤ src → 0 ≤ dst → edge_factor in_degree n src dst = Ok (factor in_degree n src dst).
Proof.
  intros Hd Hs Hdst. pose proof Hd as [Hlen _]. unfold edge_factor, factor.
  pose proof (weight_valid in_degree n) as Hval.
  destruct (Z.ltb_spec src n), (Z.ltb_spec dst n); rewrite ?vget_weight by lia; cbn [rbind].
  - done.
  - by rewrite fmul_one_r by (by apply Hval).
  - by rewrite fmul_one_l by (by apply Hval).
  - done.
Qed.

(** A path from [v] through rules to [d]; [xs] are the weights of its edges. *)
Inductive path (vlist elist : list Z) (w : list float32) (n : Z) : Z → list float32 → Z → Prop :=
| path_last v e d x a b :
    vlist !z v = Some a → vlist !z (v + 1) = Some b → a ≤ e < b → elist !z e = Some d → w !z e = Some x →
    d < n → path vlist elist w n v [x] d
| path_step v e r x xs d a b :
    vlist !z v = Some a → vlist !z (v + 1) = Some b → a ≤ e < b → elist !z e = Some r → w !z e = Some x →
    n ≤ r → path vlist elist w n r xs d → path vlist elist w n v (x :: xs) d.

(** The product from left to right. *)
Definition product (xs : list float32) : float32 :=
  match xs with [] => fone | x :: xs => foldl fmul x xs end.

Lemma path_in_range vlist elist w n v xs d : path vlist elist w n v xs d → 0 ≤ v < zlen vlist - 1.
Proof. destruct 1 as [? ? ? ? ? ? H1 H2|? ? ? ? ? ? ? ? H1 H2]; apply zlookup_range in H1; apply zlookup_range in H2; lia. Qed.

Lemma path_end vlist elist w n v xs d : path vlist elist w n v xs d → d ∈ elist ∧ d < n.
Proof. induction 1; [|done]. split; [by eapply zlookup_elem|done]. Qed.

Section paths.
Context (vlist elist : list Z) (W w : list float32) (n m : Z).
Context (HW : degrees_ok W n) (Hm : zlen vlist = m + 1).
Context (Hw : ∀ v, 0 ≤ v < m → weighted vlist elist (factor W n) w v).

Lemma path_range v xs d : path vlist elist w n v xs d → 0 ≤ v < m.
Proof using Hm. intros Hp%path_in_range. lia. Qed.

(** After a rule only the factor of the last vertex is left. *)
Lemma path_from_rule x v xs d : n ≤ v → fvalid x → path vlist elist w n v xs d → foldl fmul x xs = fmul x (weight_of W d).
Proof using HW Hm Hw.
  intros Hv Hx Hp. revert Hv. induction Hp as [v e d y a b Ha Hb He Hd Hy Hdn|v e r y ys d a b Ha Hb He Hr Hy Hrn Hp IH]; intros Hv.
  - assert (path vlist elist w n v [y] d) as Hr%path_range by by econstructor.
    pose proof (Hw v Hr _ _ _ _ Ha Hb He Hd) as E. rewrite Hy in E. injection E as ->. simpl. f_equal. unfold factor.
    rewrite (proj2 (Z.ltb_ge v n)), (proj2 (Z.ltb_lt d n)) by lia. apply fmul_one_l. by eapply weight_valid.
  - assert (path vlist elist w n v (y :: ys) d) as Hrg%path_range by by econstructor.
    pose proof (Hw v Hrg _ _ _ _ Ha Hb He Hr) as E. rewrite Hy in E. injection E as ->. simpl. rewrite <- IH by lia. f_equal.
    unfold factor. rewrite (proj2 (Z.ltb_ge v n)), (proj2 (Z.ltb_ge r n)) by lia. rewrite (fmul_one_l fone) by done. by apply fmul_one_r.
Qed.

Lemma path_product v xs d : v < n → path vlist elist w n v xs d → product xs = fmul (weight_of W v) (weight_of W d).
Proof using HW Hm Hw.
  intros Hv Hp. pose proof (path_range _ _ _ Hp) as Hrg. pose proof (weight_valid W n v HW) as Hval.
  destruct Hp as [v e d y a b Ha Hb He Hd Hy Hdn|v e r y ys d a b Ha Hb He Hr Hy Hrn Hp].
  - pose proof (Hw v Hrg _ _ _ _ Ha Hb He Hd) as E. rewrite Hy in E. injection E as ->. simpl. unfold factor.
    by rewrite !(proj2 (Z.ltb_lt _ n)) by lia.
  - pose proof (Hw v Hrg _ _ _ _ Ha Hb He Hr) as E. rewrite Hy in E. injection E as ->. cbn [product].
    assert (factor W n v r = weight_of W v) as ->.
    { unfold factor. rewrite (proj2 (Z.ltb_lt v n)), (proj2 (Z.ltb_ge r n)) by lia. by apply fmul_one_r. }
    by apply (path_from_rule _ r).
Qed.
End paths.

(** The loop of [gcn_norm_csr_compress] run in order. *)
Lemma compress_paths vlist elist W w0 n r :
  0 ≤ n → 0 ≤ r → zlen vlist = n + r + 1 → csr_okb vlist elist (n + r) = true → Forall (λ d, 0 ≤ d) elist →
  zlen w0 = zlen elist → zlen W = n → Forall fvalid W →
  wp (gcn_norm_csr_compress vlist elist W w0 n r) (λ w,
    ∀ v xs d, v < n → path vlist elist w n v xs d →
      edge_product W v d = Ok (product xs)).
Proof.
  intros Hn Hr Hlen Hcsr Hnn Hw0 HW Hval. rewrite Forall_forall in Hnn.
  eapply wp_mono.
  { apply (fill_rows_spec vlist elist (edge_factor W n) (factor W n) (n + r)); [done|lia| |exact Hw0].
    intros v d Hv Hd. apply edge_factor_ok; [done|lia|by apply Hnn]. }
  intros w [_ Hws] v xs d Hv Hp.
  rewrite (path_product vlist elist W w n (n + r) (conj HW Hval) Hlen Hws v xs d Hv Hp).
  pose proof (path_in_range _ _ _ _ _ _ _ Hp). unfold edge_product.
  destruct (path_end _ _ _ _ _ _ _ Hp) as [Hd%Hnn ?]. by rewrite !vget_weight by lia.
Qed.

(** ** Degrees *)

Lemma cnt_app_one x l y : cnt x (l ++ [y]) = (cnt x l + if decide (x = y) then 1 else 0)%nat.
Proof. rewrite cnt_app, cnt_cons, cnt_nil. lia. Qed.

(** C32: [get_norm_degree] gives every vertex the binary32 inverse square root of [1e-6]
    incremented once for every edge into the vertex. *)
Theorem get_norm_degree_correct dst junk n :
  0 ≤ n → zlen junk = n → Forall (λ d, 0 ≤ d < n) dst →
  wp (get_norm_degree dst junk n) (λ deg, zlen deg = n ∧
    ∀ v, 0 ≤ v < n → deg !z v = Some (finv_sqrt (Nat.iter (cnt v dst) finc feps))).
Proof.
  intros Hn Hl Hdst. unfold get_norm_degree. apply wp_bind.
  eapply (wp_for_up (λ i deg, zlen deg = n ∧ ∀ v, 0 ≤ v < i → deg !z v = Some feps)); [done|split; [done|lia]| |].
  { intros i deg Hi [Hd He]. rewrite vset_ok by lia. split; [by rewrite zlen_zinsert|]. intros v Hv.
    destruct (decide (v = i)) as [->|?]; [by rewrite zlookup_zinsert_eq by lia|]. rewrite zlookup_zinsert_ne by lia. apply He. lia. }
  intros deg1 [Hl1 H1]. apply wp_bind.
  eapply (wp_for_up (λ i deg, zlen deg = n ∧ ∀ v, 0 ≤ v < n → deg !z v = Some (Nat.iter (cnt v (slice dst 0 i)) finc feps))); [unfold zlen; lia| | |].
  { split; [done|]. intros v Hv. rewrite slice_nil by lia. by apply H1. }
  { intros i deg Hi [Hd He]. destruct (zlookup_total dst i) as [d Hdi]; [lia|].
    rewrite Forall_forall in Hdst. pose proof (Hdst d ltac:(by eapply zlookup_elem)) as Hdr.
    rewrite (vget_ok _ _ _ Hdi). cbn [rbind]. rewrite (vget_ok _ _ _ (He d Hdr)). cbn [rbind]. rewrite vset_ok by lia. cbn [wp].
    split; [by rewrite zlen_zinsert|]. intros v Hv. rewrite (slice_snoc dst 0 i d), cnt_app_one by (done || lia).
    case_decide as E; [subst; rewrite zlookup_zinsert_eq by lia; by rewrite Nat.add_1_r|]. rewrite zlookup_zinsert_ne by lia. by rewrite Nat.add_0_r, He. }
  intros deg2 [Hl2 H2]. rewrite slice_full in H2.
  eapply (wp_for_up (λ i deg, zlen deg = n ∧ (∀ v, 0 ≤ v < i → deg !z v = Some (finv_sqrt (Nat.iter (cnt v dst) finc feps))) ∧
    ∀ v, i ≤ v < n → deg !z v = deg2 !z v)); [done|split_and!; [done|lia|done]| |].
  { intros i deg Hi (Hd & He & Ho). rewrite (vget_ok _ _ _ (eq_trans (Ho i ltac:(lia)) (H2 i Hi))). cbn [rbind]. rewrite vset_ok by lia.
    split_and!; [by rewrite zlen_zinsert| |].
    - intros v Hv. destruct (decide (v = i)) as [->|?]; [by rewrite zlookup_zinsert_eq by lia|]. rewrite zlookup_zinsert_ne by lia. apply He. lia.
    - intros v Hv. rewrite zlookup_zinsert_ne by lia. apply Ho. lia. }
  intros deg (Hd & He & _). done.
Qed.

Lemma get_norm_degree_correct_witness :
  wp (get_norm_degree [1; 0; 1] [fone; fone] 2) (λ deg, zlen deg = 2 ∧
    ∀ v, 0 ≤ v < 2 → deg !z v = Some (finv_sqrt (Nat.iter (cnt v [1; 0; 1]) finc feps))).
Proof. apply get_norm_degree_correct; [lia|reflexivity|repeat constructor; lia]. Defined.
