(* ===== verification/NormThreads.v ===== *)
(** * The parallel loops of degree normalisation

    The loops of [norm.h] marked [omp parallel for].  Only their loop variable is
    private to a thread: [start], [end], [eid] and [dst] (in the COO version
    [src_node] and [dst_node]) are declared outside and shared.  Here every access to
    a shared variable or to the output is a step, and [chunks] says which rounds each
    thread runs.  With one thread the loops compute what [Norm] says; with two they
    need not. *)

From Stdlib Require Import SpecFloat.
From S2P Require Import Prelude Csr Convert Threads Norm.
#[local] Open Scope prog_scope.

(** ** Shared variables *)

Inductive var := Start | End | Eid | Dst | SrcNode | DstNode.

#[global] Instance var_eq_dec : EqDecision var.
Proof. solve_decision. Defined.

Record nmem := NMem { vars : var → Z; weights : list float32 }.

Definition read (x : var) : prog nmem Z := act (λ m, Ok (m, vars m x)).
Definition write (x : var) (v : Z) : prog nmem () :=
  act (λ m, Ok (NMem (λ y, if decide (y = x) then v else vars m y) (weights m), tt)).
(** [edge_weight_ptr[e] = w]. *)
Definition store (e : Z) (w : float32) : prog nmem () :=
  act (λ m, let* ws := vset (weights m) e w in Ok (NMem (vars m) ws, tt)).
(** A computation on the inputs, which no thread changes. *)
Definition pure {A} (r : res A) : prog nmem A := act (λ m, let* a := r in Ok (m, a)).

(** ** The loops *)

(** The cases for the ends of an edge: a test and the weight. *)
Definition product_cases (in_degree : list float32) : list ((Z → Z → bool) * (Z → Z → res float32)) :=
  [(λ _ _, true, edge_product in_degree)].

Definition factor_cases (in_degree : list float32) (n : Z) : list ((Z → Z → bool) * (Z → Z → res float32)) :=
  [ (λ s d, (s <? n) && (d <? n), edge_product in_degree);
    (λ s d, (s <? n) && (n <=? d), λ s _, vget in_degree s);
    (λ s d, (n <=? s) && (d <? n), λ _ d, vget in_degree d);
    (λ s d, (n <=? s) && (n <=? d), λ _ _, Ok fone) ].

Abbreviation cases := (list ((Z → Z → bool) * (Z → Z → res float32))).

Section loops.
Context (vlist_ptr elist_ptr : list Z) (cs : cases).

(** [if (test) edge_weight_ptr[eid] = weight;] in the CSR versions. *)
Definition csr_case (vid : Z) (c : (Z → Z → bool) * (Z → Z → res float32)) : prog nmem () :=
  do* d := read Dst in
  if c.1 vid d then
    do* d := read Dst in
    do* w := pure (c.2 vid d) in
    do* e := read Eid in
    store e w
  else Ret tt.

(** A round of the inner loop. *)
Definition csr_edge (vid : Z) : prog nmem () :=
  do* e := read Eid in
  do* d := pure (vget elist_ptr e) in
  do* _ := write Dst d in
  do* _ := pfor_each cs (λ c _, csr_case vid c) tt in
  do* e := read Eid in
  write Eid (e + 1).

(** One round of [gcn_norm_csr] or [gcn_norm_csr_compress]. *)
Definition csr_round (vid : Z) : prog nmem () :=
  do* s := pure (vget vlist_ptr vid) in
  do* _ := write Start s in
  do* t := pure (vget vlist_ptr (vid + 1)) in
  do* _ := write End t in
  do* s := read Start in
  do* _ := write Eid s in
  pwhile (S (length elist_ptr)) (λ _, do* e := read Eid in do* t := read End in Ret (e <? t))
    (λ _, csr_edge vid) tt.

(** The same statement in the COO version, and a round of [gcn_norm_coo_compress]. *)
Definition coo_case (eid : Z) (c : (Z → Z → bool) * (Z → Z → res float32)) : prog nmem () :=
  do* s := read SrcNode in
  do* d := read DstNode in
  if c.1 s d then
    do* s := read SrcNode in
    do* d := read DstNode in
    do* w := pure (c.2 s d) in
    store eid w
  else Ret tt.

Definition coo_round (src_ptr dst_ptr : list Z) (eid : Z) : prog nmem () :=
  do* s := pure (vget src_ptr eid) in
  do* _ := write SrcNode s in
  do* d := pure (vget dst_ptr eid) in
  do* _ := write DstNode d in
  pfor_each cs (λ c _, coo_case eid c) tt.
End loops.

(** A thread runs its rounds one after the other. *)
Definition rounds (round : Z → prog nmem ()) (chunk : list Z) : prog nmem () :=
  pfor_each chunk (λ i _, round i) tt.

(** [#pragma omp parallel for]. *)
Definition omp_for (fuel : nat) (schedule : nat → nat) (chunks : list (list Z)) (round : Z → prog nmem ()) (m : nmem)
    : res (list float32) :=
  let* m := par fuel schedule (rounds round <$> chunks) m in
  Ok (weights m).

Definition gcn_norm_csr_omp (fuel : nat) (schedule : nat → nat) (chunks : list (list Z)) (vars0 : var → Z)
    (vlist_ptr elist_ptr : list Z) (in_degree edge_weight0 : list float32) : res (list float32) :=
  omp_for fuel schedule chunks (csr_round vlist_ptr elist_ptr (product_cases in_degree)) (NMem vars0 edge_weight0).

Definition gcn_norm_csr_compress_omp (fuel : nat) (schedule : nat → nat) (chunks : list (list Z)) (vars0 : var → Z)
    (vlist_ptr elist_ptr : list Z) (in_degree edge_weight0 : list float32) (vertex_cnt : Z) : res (list float32) :=
  omp_for fuel schedule chunks (csr_round vlist_ptr elist_ptr (factor_cases in_degree vertex_cnt)) (NMem vars0 edge_weight0).

Definition gcn_norm_coo_compress_omp (fuel : nat) (schedule : nat → nat) (chunks : list (list Z)) (vars0 : var → Z)
    (src_ptr dst_ptr : list Z) (in_degree edge_weight0 : list float32) (vertex_cnt : Z) : res (list float32) :=
  omp_for fuel schedule chunks (coo_round (factor_cases in_degree vertex_cnt) src_ptr dst_ptr) (NMem vars0 edge_weight0).

(** ** One thread *)

#[local] Arguments run : simpl never.
#[local] Arguments pbind : simpl never.
#[local] Arguments read : simpl never.
#[local] Arguments write : simpl never.
#[local] Arguments pure : simpl never.
#[local] Arguments store : simpl never.

Lemma run_read x m : run (read x) m = Ok (m, vars m x).
Proof. done. Qed.

Lemma run_write x v m : run (write x v) m = Ok (NMem (λ y, if decide (y = x) then v else vars m y) (weights m), tt).
Proof. done. Qed.

Lemma run_pure {A} (r : res A) a m : r = Ok a → run (pure r) m = Ok (m, a).
Proof. intros ->. done. Qed.

Lemma run_store e w m ws : vset (weights m) e w = Ok ws → run (store e w) m = Ok (NMem (vars m) ws, tt).
Proof. intros Hs. unfold store. rewrite run_act. by rewrite Hs. Qed.

(** Run the next access. *)
Ltac run_next := first
  [ erewrite run_bind_ok by apply run_read
  | erewrite run_bind_ok by apply run_write
  | erewrite run_bind_ok by (apply run_pure; eassumption) ]; cbn [vars weights decide var_eq_dec].

Section one_thread.
Context (cs : cases) (f : Z → Z → res float32).

(** One case applies, and it gives the weight [f] does. *)
Context (Hcs : ∀ s d w, f s d = Ok w → ∃ pre c post,
  cs = pre ++ c :: post ∧ c.1 s d = true ∧ c.2 s d = Ok w ∧ Forall (λ c', c'.1 s d = false) (pre ++ post)).

Lemma run_skip (next : (Z → Z → bool) * (Z → Z → res float32) → prog nmem ()) (l : cases) m :
  (∀ c, c ∈ l → run (next c) m = Ok (m, tt)) → run (pfor_each l (λ c _, next c) tt) m = Ok (m, tt).
Proof using.
  induction l as [|c l IH]; intros Hl; [done|]. cbn [pfor_each]. rewrite (run_bind_ok _ _ _ m tt) by (apply Hl; by left).
  apply IH. intros c' Hc'. apply Hl. by right.
Qed.

Lemma run_pfor_app {M X} (l1 l2 : list X) (body : X → () → prog M ()) m m' :
  run (pfor_each l1 body tt) m = Ok (m', tt) → run (pfor_each (l1 ++ l2) body tt) m = run (pfor_each l2 body tt) m'.
Proof using.
  revert m. induction l1 as [|x l1 IH]; intros m Hr; cbn [pfor_each app] in *; [by injection Hr as <-|].
  rewrite run_bind in Hr |- *. destruct (run (body x tt) m) as [[m1 []]|]; [|done]. cbn in *. by apply IH.
Qed.

(** The statements for the cases, when nobody else changes the shared variables. *)
Lemma run_cases (next : (Z → Z → bool) * (Z → Z → res float32) → prog nmem ()) s d w m m' :
  f s d = Ok w →
  (∀ c, c.1 s d = false → run (next c) m = Ok (m, tt) ∧ run (next c) m' = Ok (m', tt)) →
  (∀ c, c.1 s d = true → c.2 s d = Ok w → run (next c) m = Ok (m', tt)) →
  run (pfor_each cs (λ c _, next c) tt) m = Ok (m', tt).
Proof using Hcs.
  intros Hw Hskip Hdo. destruct (Hcs s d w Hw) as (pre & c & post & -> & Ht & Hc & Hoth). rewrite Forall_app, !Forall_forall in Hoth.
  destruct Hoth as [Hpre Hpost].
  rewrite (run_pfor_app _ _ _ _ m) by (apply run_skip; intros c' Hc'; by apply Hskip, Hpre).
  cbn [pfor_each]. rewrite (run_bind_ok _ _ _ m' tt) by (by apply Hdo). apply run_skip. intros c' Hc'. by apply Hskip, Hpost.
Qed.

Lemma run_csr_edge elist vid vs ws d w ws' :
  vget elist (vs Eid) = Ok d → f vid d = Ok w → vset ws (vs Eid) w = Ok ws' →
  ∃ vs', run (csr_edge elist cs vid) (NMem vs ws) = Ok (NMem vs' ws', tt) ∧ vs' Eid = vs Eid + 1 ∧ vs' End = vs End.
Proof using Hcs.
  intros Hd Hw Hs. unfold csr_edge. do 3 run_next.
  pose (vs1 := λ y, if decide (y = Dst) then d else vs y). fold vs1.
  rewrite (run_bind_ok _ _ _ (NMem vs1 ws') tt).
  2: { apply (run_cases _ vid d w); [done| |].
    - intros c Hc. split; unfold csr_case; run_next; change (vs1 Dst) with d; by rewrite Hc.
    - intros c Hc Hcw. unfold csr_case. run_next. change (vs1 Dst) with d. rewrite Hc. do 3 run_next. by apply run_store. }
  run_next. rewrite run_write. eexists. split; [done|]. done.
Qed.

Lemma run_csr_edges elist vid fuel ws ws' vs :
  (Z.to_nat (vs End - vs Eid) < fuel)%nat →
  for_up (vs Eid) (vs End) (λ eid ws, let* dst := vget elist eid in let* w := f vid dst in vset ws eid w) ws = Ok ws' →
  ∃ vs', run (pwhile fuel (λ _, do* e := read Eid in do* t := read End in Ret (e <? t))
    (λ _, csr_edge elist cs vid) tt) (NMem vs ws) = Ok (NMem vs' ws', tt) ∧ vs' End ≤ vs' Eid.
Proof using Hcs.
  remember (Z.to_nat (vs End - vs Eid)) as n eqn:Hn. revert fuel ws vs Hn. induction n as [|n IH]; intros [|fuel] ws vs Hn Hfuel Hloop; try lia.
  all: cbn [pwhile]; erewrite run_bind_ok by (by repeat run_next); cbn.
  - rewrite for_up_nil in Hloop by lia. injection Hloop as <-. exists vs. rewrite (proj2 (Z.ltb_ge _ _)) by lia. split; [done|lia].
  - rewrite for_up_cons in Hloop by lia. rewrite (proj2 (Z.ltb_lt _ _)) by lia.
    destruct (vget elist _) as [d|] eqn:Hd; [|done]. cbn in Hloop. destruct (f vid d) as [w|] eqn:Hw; [|done]. cbn in Hloop.
    destruct (vset ws _ w) as [ws1|] eqn:Hs; [|done]. cbn in Hloop.
    destruct (run_csr_edge elist vid vs ws d w ws1 Hd Hw Hs) as (vs1 & Hrun & He & Ht).
    erewrite run_bind_ok by exact Hrun. apply IH; [lia|lia|]. by rewrite He, Ht.
Qed.

Definition fill_edges (elist : list Z) (vid : Z) (a b : Z) (ws : list float32) : res (list float32) :=
  for_up a b (λ eid ws, let* dst := vget elist eid in let* w := f vid dst in vset ws eid w) ws.

Lemma fill_edges_length elist vid a b ws ws' : fill_edges elist vid a b ws = Ok ws' → b - a ≤ zlen elist.
Proof using.
  intros Hf. destruct (decide (a < b)) as [Hab|]; [|pose proof (zlen_nonneg elist); lia].
  assert (∀ i, a ≤ i < b → 0 ≤ i < zlen elist) as Hr.
  { intros i Hi. destruct (for_up_round _ _ _ _ _ i Hf Hi) as (s1 & s2 & Hs). destruct (vget elist i) as [d|] eqn:Hd; [|done].
    by eapply zlookup_range, vget_inv. }
  pose proof (Hr a ltac:(lia)). pose proof (Hr (b - 1) ltac:(lia)). lia.
Qed.

Lemma run_csr_round vlist elist vid vs ws ws' a b :
  vget vlist vid = Ok a → vget vlist (vid + 1) = Ok b → fill_edges elist vid a b ws = Ok ws' →
  ∃ vs', run (csr_round vlist elist cs vid) (NMem vs ws) = Ok (NMem vs' ws', tt) ∧ vs' End ≤ vs' Eid.
Proof using Hcs.
  intros Ha Hb Hf. unfold csr_round. do 6 run_next. apply run_csr_edges; [|done].
  change (Z.to_nat (b - a) < S (length elist))%nat. pose proof (fill_edges_length _ _ _ _ _ _ Hf). unfold zlen in *. lia.
Qed.

Lemma run_csr_rounds vlist elist n k ws ws' vs :
  0 ≤ k → for_up k n (λ vid ws, let* a := vget vlist vid in let* b := vget vlist (vid + 1) in fill_edges elist vid a b ws) ws = Ok ws' →
  ∃ vs', run (rounds (csr_round vlist elist cs) (seqZ k (n - k))) (NMem vs ws) = Ok (NMem vs' ws', tt).
Proof using Hcs.
  intros Hk. remember (Z.to_nat (n - k)) as j eqn:Hj. revert k ws vs Hk Hj. induction j as [|j IH]; intros k ws vs Hk Hj Hf.
  - rewrite for_up_nil in Hf by lia. injection Hf as <-. exists vs. by rewrite seqZ_nil by lia.
  - rewrite for_up_cons in Hf by lia. rewrite seqZ_cons by lia. unfold rounds. cbn [pfor_each].
    destruct (vget vlist k) as [a|] eqn:Ha; [|done]. cbn in Hf. destruct (vget vlist (k + 1)) as [b|] eqn:Hb; [|done]. cbn in Hf.
    destruct (fill_edges _ _ _ _ _) as [ws1|] eqn:Hfe; [|done]. cbn in Hf.
    destruct (run_csr_round vlist elist k vs ws ws1 a b Ha Hb Hfe) as (vs1 & Hrun & _). erewrite run_bind_ok by exact Hrun.
    replace (Z.pred (n - k)) with (n - Z.succ k) by lia. apply IH; [lia|lia|done].
Qed.

Lemma run_coo_round src dst eid vs ws ws' s d w :
  vget src eid = Ok s → vget dst eid = Ok d → f s d = Ok w → vset ws eid w = Ok ws' →
  ∃ vs', run (coo_round cs src dst eid) (NMem vs ws) = Ok (NMem vs' ws', tt).
Proof using Hcs.
  intros Hs Hd Hw Hws. unfold coo_round. do 4 run_next. match goal with |- context [NMem ?g ws] => set (vs1 := g) end.
  exists vs1. apply (run_cases _ s d w); [done| |].
  - intros c Hc. split; unfold coo_case; do 2 run_next; change (vs1 SrcNode) with s; change (vs1 DstNode) with d; by rewrite Hc.
  - intros c Hc Hcw. unfold coo_case. do 2 run_next. change (vs1 SrcNode) with s. change (vs1 DstNode) with d. rewrite Hc.
    do 3 run_next. by apply run_store.
Qed.

Lemma run_coo_rounds src dst n k ws ws' vs :
  0 ≤ k → for_up k n (λ eid ws, let* s := vget src eid in let* d := vget dst eid in let* w := f s d in vset ws eid w) ws = Ok ws' →
  ∃ vs', run (rounds (coo_round cs src dst) (seqZ k (n - k))) (NMem vs ws) = Ok (NMem vs' ws', tt).
Proof using Hcs.
  intros Hk. remember (Z.to_nat (n - k)) as j eqn:Hj. revert k ws vs Hk Hj. induction j as [|j IH]; intros k ws vs Hk Hj Hf.
  - rewrite for_up_nil in Hf by lia. injection Hf as <-. exists vs. by rewrite seqZ_nil by lia.
  - rewrite for_up_cons in Hf by lia. rewrite seqZ_cons by lia. unfold rounds. cbn [pfor_each].
    destruct (vget src k) as [s|] eqn:Hs; [|done]. cbn in Hf. destruct (vget dst k) as [d|] eqn:Hd; [|done]. cbn in Hf.
    destruct (f s d) as [w|] eqn:Hw; [|done]. cbn in Hf. destruct (vset ws k w) as [ws1|] eqn:Hws; [|done]. cbn in Hf.
    destruct (run_coo_round src dst k vs ws ws1 s d w Hs Hd Hw Hws) as [vs1 Hrun]. erewrite run_bind_ok by exact Hrun.
    replace (Z.pred (n - k)) with (n - Z.succ k) by lia. apply IH; [lia|lia|done].
Qed.
End one_thread.

Lemma omp_for_single (round : Z → prog nmem ()) chunk m vs ws :
  run (rounds round chunk) m = Ok (NMem vs ws, tt) →
  ∃ N, ∀ fuel schedule, (N ≤ fuel)%nat → omp_for fuel schedule [chunk] round m = Ok ws.
Proof.
  intros Hr. exists (steps (rounds round chunk) m). intros fuel schedule Hf. unfold omp_for. cbn [fmap list_fmap].
  by rewrite (par_single _ _ _ _ _ Hr Hf).
Qed.

Lemma product_decides in_degree s d w : edge_product in_degree s d = Ok w → ∃ pre c post,
  product_cases in_degree = pre ++ c :: post ∧ c.1 s d = true ∧ c.2 s d = Ok w ∧ Forall (λ c', c'.1 s d = false) (pre ++ post).
Proof. intros Hw. by exists [], (λ _ _, true, edge_product in_degree), []. Qed.

Lemma factor_decides in_degree n s d w : edge_factor in_degree n s d = Ok w → ∃ pre c post,
  factor_cases in_degree n = pre ++ c :: post ∧ c.1 s d = true ∧ c.2 s d = Ok w ∧ Forall (λ c', c'.1 s d = false) (pre ++ post).
Proof.
  unfold edge_factor, factor_cases.
  destruct (Z.ltb_spec s n) as [Hs|Hs], (Z.ltb_spec d n) as [Hd|Hd]; intros Hw.
  1: eexists [], _, [_; _; _]. 2: eexists [_], _, [_; _]. 3: eexists [_; _], _, [_]. 4: eexists [_; _; _], _, [].
  all: split; [reflexivity|]; cbn; rewrite ?Forall_cons, ?Forall_nil; cbn;
    destruct (Z.ltb_spec s n), (Z.ltb_spec d n), (Z.leb_spec n s), (Z.leb_spec n d); try lia; split_and!; try done.
  by destruct (vget in_degree s).
Qed.

(** With one thread the loops compute what they do in order. *)
Theorem gcn_norm_one_thread vlist elist src dst in_degree edge_weight0 vertex_cnt rule_cnt vars0 w :
  (gcn_norm_csr vlist elist in_degree edge_weight0 vertex_cnt = Ok w →
    ∃ N, ∀ fuel schedule, (N ≤ fuel)%nat →
      gcn_norm_csr_omp fuel schedule [seqZ 0 vertex_cnt] vars0 vlist elist in_degree edge_weight0 = Ok w) ∧
  (gcn_norm_csr_compress vlist elist in_degree edge_weight0 vertex_cnt rule_cnt = Ok w →
    ∃ N, ∀ fuel schedule, (N ≤ fuel)%nat →
      gcn_norm_csr_compress_omp fuel schedule [seqZ 0 (vertex_cnt + rule_cnt)] vars0 vlist elist in_degree edge_weight0 vertex_cnt = Ok w) ∧
  (gcn_norm_coo_compress src dst in_degree edge_weight0 vertex_cnt = Ok w →
    ∃ N, ∀ fuel schedule, (N ≤ fuel)%nat →
      gcn_norm_coo_compress_omp fuel schedule [seqZ 0 (zlen src)] vars0 src dst in_degree edge_weight0 vertex_cnt = Ok w).
Proof.
  split_and!; intros Hw.
  - destruct (run_csr_rounds _ _ (product_decides in_degree) vlist elist vertex_cnt 0 edge_weight0 w vars0) as [vs Hr]; [done..|].
    rewrite Z.sub_0_r in Hr. by eapply omp_for_single.
  - destruct (run_csr_rounds _ _ (factor_decides in_degree vertex_cnt) vlist elist (vertex_cnt + rule_cnt) 0 edge_weight0 w vars0) as [vs Hr]; [done..|].
    rewrite Z.sub_0_r in Hr. by eapply omp_for_single.
  - destruct (run_coo_rounds _ _ (factor_decides in_degree vertex_cnt) src dst (zlen src) 0 edge_weight0 w vars0) as [vs Hr]; [done..|].
    rewrite Z.sub_0_r in Hr. by eapply omp_for_single.
Qed.

(** C30: with one thread, whatever the schedule and the contents of fresh variables, and
    with the weights that [gcn_norm_csr_compress] gives to a compressed graph, the product
    of the weights along a path from a vertex through rules to a vertex is, bit for bit, the
    weight of the edge between the two in the original graph: the binary32 product of the
    factors of its ends. *)
Theorem gcn_norm_compress_paths vlist elist W w0 vars0 n r :
  0 ≤ n → 0 ≤ r → zlen vlist = n + r + 1 → csr_okb vlist elist (n + r) = true → Forall (λ d, 0 ≤ d) elist →
  zlen w0 = zlen elist → zlen W = n → Forall fvalid W →
  ∃ N w, (∀ fuel schedule, (N ≤ fuel)%nat →
      gcn_norm_csr_compress_omp fuel schedule [seqZ 0 (n + r)] vars0 vlist elist W w0 n = Ok w) ∧
    ∀ v xs d, v < n → path vlist elist w n v xs d → edge_product W v d = Ok (product xs).
Proof.
  intros Hn Hr Hlen Hcsr Hnn Hw0 HW Hval.
  destruct (wp_inv _ _ (compress_paths vlist elist W w0 n r Hn Hr Hlen Hcsr Hnn Hw0 HW Hval)) as (w & Hw & Hp).
  destruct (run_csr_rounds _ _ (factor_decides W n) vlist elist (n + r) 0 w0 w vars0) as [vs Hrun]; [done..|]. rewrite Z.sub_0_r in Hrun.
  destruct (omp_for_single _ _ _ _ _ Hrun) as [N HN]. by exists N, w.
Qed.

(** Vertices 0 and 1 with the edges 0 -> 1 (through the rule 2) and 1 -> 0. *)
Lemma gcn_norm_compress_paths_witness :
  ∃ N w, (∀ fuel schedule, (N ≤ fuel)%nat →
      gcn_norm_csr_compress_omp fuel schedule [seqZ 0 (2 + 1)] (λ _, 9) [0; 1; 2; 3] [2; 0; 1] [feps; fone] [fone; fone; fone] 2 = Ok w) ∧
    ∀ v xs d, v < 2 → path [0; 1; 2; 3] [2; 0; 1] w 2 v xs d → edge_product [feps; fone] v d = Ok (product xs).
Proof. apply gcn_norm_compress_paths; try (reflexivity || lia); repeat constructor; lia. Defined.

(** ** Two threads *)

(** Position [e] of the edge list belongs to row [v]. *)
Definition in_row (vlist : list Z) (v e : Z) : Prop := ∃ a b, vlist !z v = Some a ∧ vlist !z (v + 1) = Some b ∧ a ≤ e < b.

Section two_threads.
Context (vlist elist : list Z) (cs : cases) (f : Z → Z → res float32) (h : Z → Z → float32) (n : Z).
Context (Hcs : ∀ s d w, f s d = Ok w → ∃ pre c post,
  cs = pre ++ c :: post ∧ c.1 s d = true ∧ c.2 s d = Ok w ∧ Forall (λ c', c'.1 s d = false) (pre ++ post)).
Context (Hcsr : csr_okb vlist elist n = true) (Hf : ∀ v d, 0 ≤ v < n → d ∈ elist → f v d = Ok (h v d)).
Abbreviation round := (csr_round vlist elist cs).

(** Rows do not overlap. *)
Lemma rows_ordered u v b a : 0 ≤ u < v → v < n → vlist !z (u + 1) = Some b → vlist !z v = Some a → b ≤ a.
Proof using Hcsr.
  intros Huv Hv Hb Ha. remember (Z.to_nat (v - (u + 1))) as k eqn:Hk. revert v a Huv Hv Hk Ha.
  induction k as [|k IH]; intros v a Huv Hv Hk Ha; [replace v with (u + 1) in Ha by lia; simplify_eq; lia|].
  destruct (csr_okb_spec _ _ _ (v - 1) Hcsr ltac:(lia)) as (a' & b' & Ha' & Hb' & ? & _). replace (v - 1 + 1) with v in Hb' by lia. simplify_eq.
  pose proof (IH (v - 1) a' ltac:(lia) ltac:(lia) ltac:(lia) Ha'). lia.
Qed.

Lemma in_row_inj u v e : 0 ≤ u < n → 0 ≤ v < n → in_row vlist u e → in_row vlist v e → u = v.
Proof using Hcsr.
  intros Hu Hv (a & b & Ha & Hb & He) (a' & b' & Ha' & Hb' & He'). destruct (Z.lt_trichotomy u v) as [Hlt|[?|Hlt]]; [|done|].
  - pose proof (rows_ordered u v b a' ltac:(lia) ltac:(lia) Hb Ha'). lia.
  - pose proof (rows_ordered v u b' a ltac:(lia) ltac:(lia) Hb' Ha). lia.
Qed.

(** What a thread that is not interrupted leaves behind: the weights of its rows. *)
Lemma run_chunk chunk vs ws :
  Forall (λ v, 0 ≤ v < n) chunk → zlen ws = zlen elist →
  ∃ vs' ws', run (rounds round chunk) (NMem vs ws) = Ok (NMem vs' ws', tt) ∧ zlen ws' = zlen elist ∧
    (∀ v, v ∈ chunk → weighted vlist elist h ws' v) ∧
    (∀ e, (∀ v, v ∈ chunk → ¬ in_row vlist v e) → ws' !z e = ws !z e) ∧
    (chunk ≠ [] → vs' End ≤ vs' Eid).
Proof using Hcs Hcsr Hf.
  revert vs ws. induction chunk as [|u chunk IH]; intros vs ws Hin Hlen.
  { exists vs, ws. split_and!; try done. by intros v ?%not_elem_of_nil. }
  apply Forall_cons in Hin as [Hu Hin]. destruct (csr_okb_spec _ _ _ u Hcsr Hu) as (a & b & Ha & Hb & Hab & Hbl).
  destruct (wp_inv _ _ (fill_row_spec elist f h n Hf u a b ws Hu Hab Hbl Hlen)) as (ws1 & Hrow & Hl1 & Hkeep & Hnew).
  destruct (run_csr_round cs f Hcs vlist elist u vs ws ws1 a b (vget_ok _ _ _ Ha) (vget_ok _ _ _ Hb) Hrow) as (vs1 & Hr1 & Hend1).
  destruct (IH vs1 ws1 Hin Hl1) as (vs2 & ws2 & Hr2 & Hl2 & Hw2 & Hk2 & Hend2). exists vs2, ws2. split_and!; [|done| | |].
  - unfold rounds in *. cbn [pfor_each]. by rewrite (run_bind_ok _ _ _ _ _ Hr1).
  - intros v Hv. destruct (decide (v ∈ chunk)) as [|Hnot]; [by apply Hw2|]. apply elem_of_cons in Hv as [->|?]; [|done].
    intros a' b' e d Ha' Hb' He Hd. simplify_eq. rewrite Hk2; [by apply Hnew|]. intros v Hv Hrv. rewrite Forall_forall in Hin.
    assert (u = v) as <-; [|done]. apply (in_row_inj u v e); [done|by apply Hin|by exists a, b|done].
  - intros e He. rewrite Hk2 by (intros v Hv; apply He; by right). apply Hkeep.
    destruct (decide (a ≤ e < b)); [|lia]. destruct (He u); [by left|by exists a, b].
  - intros _. destruct chunk as [|v chunk]; [|by apply Hend2]. cbn in Hr2. by injection Hr2 as <- <-.
Qed.

Context (u : Z) (c1 c2 : list Z) (Hu : 0 ≤ u < n) (Hc1 : Forall (λ v, 0 ≤ v < n) c1) (Hc2 : Forall (λ v, 0 ≤ v < n) c2).

(** One thread after the other. *)
Lemma threads_in_order vs ws :
  zlen ws = zlen elist → NoDup (u :: c1 ++ c2) →
  ∃ N schedule w, (∀ fuel, (N ≤ fuel)%nat → omp_for fuel schedule [u :: c1; c2] round (NMem vs ws) = Ok w) ∧
    ∀ v, v ∈ u :: c1 ++ c2 → weighted vlist elist h w v.
Proof using All.
  intros Hlen Hnd. destruct (run_chunk (u :: c1) vs ws) as (vs1 & ws1 & Hr1 & Hl1 & Hw1 & _ & _); [by apply Forall_cons|done|].
  destruct (run_chunk c2 vs1 ws1 Hc2 Hl1) as (vs2 & ws2 & Hr2 & Hl2 & Hw2 & Hk2 & _).
  destruct (par_reaches [rounds round (u :: c1); rounds round c2] (NMem vs ws) [Ret tt; Ret tt] (NMem vs2 ws2)) as (N & schedule & Hpar).
  { etrans; [by apply (rtc_run (rounds round (u :: c1)) _ 0)|]. change [Ret tt; Ret tt] with (<[1%nat := Ret tt]> [Ret tt; rounds round c2]).
    by apply (rtc_run (rounds round c2) _ 1). }
  { by repeat constructor. }
  exists N, schedule, ws2. split; [intros fuel Hfuel; unfold omp_for; cbn [fmap list_fmap]; by rewrite Hpar|].
  intros v Hv. rewrite app_comm_cons in Hv, Hnd. destruct (decide (v ∈ c2)) as [|Hnot]; [by apply Hw2|]. apply elem_of_app in Hv as [Hv|?]; [|done].
  intros a b e d Ha Hb He Hd. rewrite Hk2; [by eapply Hw1|]. intros v' Hv' Hrow. rewrite Forall_forall in Hc1, Hc2.
  assert (0 ≤ v < n) as Hvr by (apply elem_of_cons in Hv as [->|?]; auto).
  assert (v = v') as <-; [|done]. apply (in_row_inj v v' e); [done|by apply Hc2|by exists a, b|done].
Qed.

(** The second thread runs while the first one is about to enter the inner loop of [u]. *)
Lemma threads_interfere vs ws :
  zlen ws = zlen elist → c2 ≠ [] → NoDup (u :: c1 ++ c2) →
  ∃ N schedule w, (∀ fuel, (N ≤ fuel)%nat → omp_for fuel schedule [u :: c1; c2] round (NMem vs ws) = Ok w) ∧
    (∀ e, in_row vlist u e → w !z e = ws !z e) ∧ ∀ v, v ∈ c1 ++ c2 → weighted vlist elist h w v.
Proof using All.
  intros Hlen Hne Hnd. destruct (csr_okb_spec _ _ _ u Hcsr Hu) as (a & b & Ha & Hb & _).
  pose (vs1 := λ y, if decide (y = Eid) then a else if decide (y = End) then b else if decide (y = Start) then a else vs y).
  destruct (run_chunk c2 vs1 ws Hc2 Hlen) as (vs2 & ws2 & Hr2 & Hl2 & Hw2 & Hk2 & Hend).
  destruct (run_chunk c1 vs2 ws2 Hc1 Hl2) as (vs3 & ws3 & Hr3 & Hl3 & Hw3 & Hk3 & _).
  destruct (par_reaches [rounds round (u :: c1); rounds round c2] (NMem vs ws) [Ret tt; Ret tt] (NMem vs3 ws3)) as (N & schedule & Hpar).
  { unfold rounds at 1, csr_round at 1. cbn [pfor_each].
    etrans; [eapply (rtc_bind_bind _ _ _ _ 0); [done|by apply run_pure, vget_ok]|]. cbn [list_insert insert].
    etrans; [eapply (rtc_bind_bind _ _ _ _ 0); [done|apply run_write]|]. cbn [list_insert insert].
    etrans; [eapply (rtc_bind_bind _ _ _ _ 0); [done|by apply run_pure, vget_ok]|]. cbn [list_insert insert].
    etrans; [eapply (rtc_bind_bind _ _ _ _ 0); [done|apply run_write]|]. cbn [list_insert insert].
    etrans; [eapply (rtc_bind_bind _ _ _ _ 0); [done|apply run_read]|]. cbn [list_insert insert].
    etrans; [eapply (rtc_bind_bind _ _ _ _ 0); [done|apply run_write]|]. cbn [list_insert insert vars weights]. change (NMem _ ws) with (NMem vs1 ws).
    etrans; [by apply (rtc_run (rounds round c2) _ 1)|]. cbn [list_insert insert].
    etrans; [eapply (rtc_bind _ _ _ 0); [done|]|].
    { cbn [pwhile]. erewrite run_bind_ok by (by repeat run_next). cbn. by rewrite (proj2 (Z.ltb_ge _ _)) by (by apply Hend). }
    change [Ret tt; Ret tt] with (<[0%nat := Ret tt]> [rounds round c1; Ret tt]). by apply (rtc_run (rounds round c1) _ 0). }
  { by repeat constructor. }
  exists N, schedule, ws3. split; [intros fuel Hfuel; unfold omp_for; cbn [fmap list_fmap]; by rewrite Hpar|].
  rewrite Forall_forall in Hc1, Hc2. apply NoDup_cons in Hnd as [Hnu Hnd]. rewrite elem_of_app in Hnu. split.
  - intros e He. rewrite Hk3, Hk2; [done| |]; intros v Hv Hrow; apply Hnu; [right|left]; assert (u = v) as ->; try done; by apply (in_row_inj u v e); auto.
  - intros v Hv. destruct (decide (v ∈ c1)) as [|Hnot]; [by apply Hw3|]. apply elem_of_app in Hv as [?|Hv]; [done|].
    intros a' b' e d Ha' Hb' He Hd. rewrite Hk3; [by eapply Hw2|]. intros v' Hv' Hrow.
    assert (v = v') as <-; [|done]. apply (in_row_inj v v' e); [auto|auto|by exists a', b'|done].
Qed.
End two_threads.

(** C31: with two threads the weights depend on the schedule, for every compressed graph and
    every way to distribute its rows to the threads: the first one starts with row [u] and
    goes on with [c1], the second one runs [c2].  Under one schedule every edge gets its
    weight.  Under another one no edge of row [u] does: its weights stay what they were in
    the fresh array, and all other edges get theirs; the second thread has left the shared
    [eid] behind the shared [end]. *)
Theorem gcn_norm_race vlist elist W w0 vars0 n r u c1 c2 :
  0 ≤ n → 0 ≤ r → csr_okb vlist elist (n + r) = true → Forall (λ d, 0 ≤ d) elist →
  zlen w0 = zlen elist → zlen W = n → Forall fvalid W →
  u :: c1 ++ c2 ≡ₚ seqZ 0 (n + r) → c2 ≠ [] →
  let run fuel schedule := gcn_norm_csr_compress_omp fuel schedule [u :: c1; c2] vars0 vlist elist W w0 n in
  (∃ N schedule w, (∀ fuel, (N ≤ fuel)%nat → run fuel schedule = Ok w) ∧
    ∀ v, 0 ≤ v < n + r → weighted vlist elist (factor W n) w v) ∧
  (∃ N schedule w, (∀ fuel, (N ≤ fuel)%nat → run fuel schedule = Ok w) ∧
    (∀ e, in_row vlist u e → w !z e = w0 !z e) ∧
    ∀ v, 0 ≤ v < n + r → v ≠ u → weighted vlist elist (factor W n) w v).
Proof.
  intros Hn Hr Hcsr Hnn Hw0 HW Hval Hperm Hne. cbv zeta. rewrite Forall_forall in Hnn.
  assert (∀ v, v ∈ u :: c1 ++ c2 ↔ 0 ≤ v < n + r) as Hin by (intros v; rewrite Hperm, elem_of_seqZ; lia).
  assert (NoDup (u :: c1 ++ c2)) as Hnd by (rewrite Hperm; apply NoDup_seqZ).
  assert (0 ≤ u < n + r ∧ Forall (λ v, 0 ≤ v < n + r) c1 ∧ Forall (λ v, 0 ≤ v < n + r) c2) as (Hu & H1 & H2).
  { split; [apply Hin; by left|]. rewrite !Forall_forall. split; intros v Hv; apply Hin; right; apply elem_of_app; tauto. }
  assert (∀ v d, 0 ≤ v < n + r → d ∈ elist → edge_factor W n v d = Ok (factor W n v d)) as Hf.
  { intros v d Hv Hd. apply edge_factor_ok; [done|lia|by apply Hnn]. }
  split.
  - destruct (threads_in_order vlist elist _ _ (factor W n) _ (factor_decides W n) Hcsr Hf u c1 c2 Hu H1 H2 vars0 w0 Hw0 Hnd) as (N & sch & w & Hrun & Hw).
    exists N, sch, w. split; [done|]. intros v Hv. by apply Hw, Hin.
  - destruct (threads_interfere vlist elist _ _ (factor W n) _ (factor_decides W n) Hcsr Hf u c1 c2 Hu H1 H2 vars0 w0 Hw0 Hne Hnd) as (N & sch & w & Hrun & Hk & Hw).
    exists N, sch, w. split_and!; [done..|]. intros v Hv Hvu. apply Hw. apply Hin, elem_of_cons in Hv as [?|?]; done.
Qed.

(** Two vertices with a self loop each; the weight of the first edge is lost. *)
Lemma gcn_norm_race_witness :
  let run fuel schedule := gcn_norm_csr_compress_omp fuel schedule [[0]; [1]] (λ _, 0) [0; 1; 2] [0; 1] [fone; fone] [feps; feps] 2 in
  (∃ N schedule w, (∀ fuel, (N ≤ fuel)%nat → run fuel schedule = Ok w) ∧
    ∀ v, 0 ≤ v < 2 + 0 → weighted [0; 1; 2] [0; 1] (factor [fone; fone] 2) w v) ∧
  (∃ N schedule w, (∀ fuel, (N ≤ fuel)%nat → run fuel schedule = Ok w) ∧
    (∀ e, in_row [0; 1; 2] 0 e → w !z e = [feps; feps] !z e) ∧
    ∀ v, 0 ≤ v < 2 + 0 → v ≠ 0 → weighted [0; 1; 2] [0; 1] (factor [fone; fone] 2) w v).
Proof. apply (gcn_norm_race [0; 1; 2] [0; 1] [fone; fone] [feps; feps] (λ _, 0) 2 0 0 [] [1]); try done; repeat constructor; lia. Defined.
