(* ===== verification/Fusion.v ===== *)
(** * Fused layers

    [fusion.h]: the order in which the vertices and rules of a compressed graph
    are evaluated [num_p] times, one evaluation per layer, when layers may
    overlap.  [PC] counts the evaluations of a node, [AC] the inputs it received
    since the last one.  A round that activates no node changes nothing but
    [step], and then the loop never ends; [fuel] bounds the number of rounds. *)

From S2P Require Import Prelude Csr GenMask.

(** ** Operations *)

Definition cond_propagate (PC AC in_degree vlist elist : list Z) (vid : Z) : res bool :=
  let* ac := vget AC vid in
  let* d := vget in_degree vid in
  if ac <? d then Ok false else
  let* pc := vget PC vid in
  if pc =? 0 then Ok true else
  let* start := vget vlist vid in
  let* end_ := vget vlist (vid + 1) in
  for_up start end_ (λ eid go,
    if negb go then Ok false else
    let* dst := vget elist eid in
    let* pc := vget PC vid in
    let* pd := vget PC dst in
    Ok (negb (pd <? pc))) true.

Record fstate := FState {
  PC : list Z; AC : list Z; tmp_AC : list Z; tmp_PC : list Z;
  order : list Z; active_count : Z; active_list : list Z; step : Z
}.

(** Lines 61 to 68: is [vid] evaluated in this step? *)
Definition activate (vlist elist in_degree : list Z) (vertex_cnt rule_cnt num_p vid : Z) (st : fstate) : res fstate :=
  let* active :=
    if (step st =? 0) && (vid <? vertex_cnt) then Ok true else
    let* c := cond_propagate (PC st) (AC st) in_degree vlist elist vid in
    if c then let* pc := vget (PC st) vid in Ok (pc <? num_p) else Ok false in
  if (active : bool) then
    let* pc := vget (PC st) vid in
    let* order := vset (order st) (pc * (vertex_cnt + rule_cnt) + vid) (step st) in
    let* tmp_PC := incr (tmp_PC st) vid in
    Ok (FState (PC st) (AC st) (tmp_AC st) tmp_PC order (active_count st + 1) (active_list st ++ [vid]) (step st))
  else Ok st.

(** Lines 70 to 82: the new input counts. *)
Definition send (vlist elist active_list tmp_AC : list Z) : res (list Z) :=
  let* tmp_AC := for_each active_list (λ vid tmp_AC, vset tmp_AC vid 0) tmp_AC in
  for_each active_list (λ vid tmp_AC,
    let* start := vget vlist vid in
    let* end_ := vget vlist (vid + 1) in
    for_up start end_ (λ eid tmp_AC,
      let* dst := vget elist eid in
      incr tmp_AC dst) tmp_AC) tmp_AC.

Definition fusion_step (vlist elist in_degree : list Z) (vertex_cnt rule_cnt num_p : Z) (st : fstate) : res fstate :=
  let* st := for_up 0 (vertex_cnt + rule_cnt) (activate vlist elist in_degree vertex_cnt rule_cnt num_p) st in
  let* tmp_AC := send vlist elist (active_list st) (tmp_AC st) in
  Ok (FState (tmp_PC st) tmp_AC tmp_AC (tmp_PC st) (order st) (active_count st) [] (step st + 1)).

Definition gen_fusion_vertex_order (fuel : nat) (vlist elist : list Z) (vertex_cnt rule_cnt num_p : Z) : res (list Z * Z) :=
  let size := vertex_cnt + rule_cnt in
  let zeros := replicate (Z.to_nat size) 0 in
  let* in_degree := for_up 0 (zlen elist) (λ i in_degree, let* dst := vget elist i in incr in_degree dst) zeros in
  let* st := while fuel (λ st, Ok (active_count st <? num_p * size))
    (fusion_step vlist elist in_degree vertex_cnt rule_cnt num_p)
    (FState zeros zeros zeros zeros (replicate (Z.to_nat (num_p * size)) INIT) 0 [] 0) in
  Ok (order st, step st).

Definition fusion_mask_csr (fuel : nat) (vlist elist : list Z) (vertex_cnt rule_cnt num_p : Z) : res (list bool * Z) :=
  let* '(order, depth) := gen_fusion_vertex_order fuel vlist elist vertex_cnt rule_cnt num_p in
  let size := vertex_cnt + rule_cnt in
  let* mask := for_up 0 depth (λ d mask,
    for_up 0 (size * num_p) (λ s mask,
      let* o := vget order s in
      if o =? d then vset mask (d * size + Z.rem s size) true else Ok mask) mask)
    (replicate (Z.to_nat (size * depth)) false) in
  Ok (mask, depth).

Definition fusion_mask_coo (fuel : nat) (vlist elist : list Z) (vertex_cnt rule_cnt num_p : Z) : res (list bool * Z) :=
  let* '(order, depth) := gen_fusion_vertex_order fuel vlist elist vertex_cnt rule_cnt num_p in
  let size := vertex_cnt + rule_cnt in
  let edge_cnt := zlen elist in
  let* mask := for_up 0 depth (λ d mask,
    for_up 0 (size * num_p) (λ s mask,
      let* o := vget order s in
      if o =? d then
        let vid := Z.rem s size in
        let* start := vget vlist vid in
        let* end_ := vget vlist (vid + 1) in
        for_up start end_ (λ eid mask, vset mask (d * edge_cnt + eid) true) mask
      else Ok mask) mask)
    (replicate (Z.to_nat (edge_cnt * depth)) false) in
  Ok (mask, depth).

(** ** Sums *)

Definition sum_over (f : Z → Z) (l : list Z) : Z := foldr Z.add 0 (f <$> l).

Lemma sum_over_cons f x l : sum_over f (x :: l) = f x + sum_over f l.
Proof. done. Qed.

Lemma sum_over_snoc f l x : sum_over f (l ++ [x]) = sum_over f l + f x.
Proof. induction l as [|y l IH]; [unfold sum_over; simpl; lia|]. rewrite <-app_comm_cons, !sum_over_cons, IH. lia. Qed.

Lemma sum_over_ext f g l : (∀ x, x ∈ l → f x = g x) → sum_over f l = sum_over g l.
Proof. intros H. induction l as [|y l IH]; [done|]. rewrite !sum_over_cons, IH, H by (done || by left || (intros; apply H; by right)). done. Qed.

Lemma sum_over_add f g l : sum_over (λ x, f x + g x) l = sum_over f l + sum_over g l.
Proof. induction l as [|x l IH]; [done|]. rewrite !sum_over_cons, IH. lia. Qed.

Lemma sum_over_le f g l : (∀ x, x ∈ l → f x ≤ g x) → sum_over f l ≤ sum_over g l.
Proof.
  induction l as [|x l IH]; intros H; [done|]. rewrite !sum_over_cons.
  apply Z.add_le_mono; [apply H; by left|apply IH; intros; apply H; by right].
Qed.

(** Terms below bounds whose sum is not: they are equal. *)
Lemma sum_over_squeeze f g l :
  (∀ x, x ∈ l → f x ≤ g x) → sum_over g l ≤ sum_over f l → ∀ x, x ∈ l → f x = g x.
Proof.
  induction l as [|y l IH]; intros Hle Hsum x Hx; [by apply not_elem_of_nil in Hx|]. rewrite !sum_over_cons in Hsum.
  pose proof (Hle y ltac:(by left)). assert (sum_over f l ≤ sum_over g l) by (apply sum_over_le; intros; apply Hle; by right).
  apply elem_of_cons in Hx as [->|Hx]; [lia|]. apply IH; [intros; apply Hle; by right|lia|done].
Qed.

Lemma sum_over_lt f g l : sum_over f l < sum_over g l → ∃ x, x ∈ l ∧ f x < g x.
Proof.
  induction l as [|y l IH]; intros Hlt; [done|]. rewrite !sum_over_cons in Hlt.
  destruct (decide (f y < g y)); [exists y; split; [by left|done]|].
  destruct IH as (x & Hx & ?); [lia|]. exists x. split; [by right|done].
Qed.

Lemma sum_over_const c l : sum_over (λ _, c) l = c * zlen l.
Proof. induction l as [|x l IH]; [unfold sum_over, zlen; simpl; lia|]. rewrite sum_over_cons, IH. unfold zlen. simpl. lia. Qed.

(** An element that is minimal for a measure. *)
Lemma minimal_elem (P : Z → Prop) `{∀ x, Decision (P x)} (m : Z → Z) (l : list Z) :
  (∃ x, x ∈ l ∧ P x) → ∃ x, x ∈ l ∧ P x ∧ ∀ y, y ∈ l → P y → m x ≤ m y.
Proof.
  induction l as [|z l IH]; intros (x & Hx & HP); [by apply not_elem_of_nil in Hx|].
  destruct (decide (Exists P l)) as [He|He].
  - apply Exists_exists in He. destruct (IH He) as (y & Hy & HPy & Hmin).
    destruct (decide (P z ∧ m z ≤ m y)) as [[Hz Hle]|Hno].
    + exists z. split_and!; [by left|done|]. intros w [->|Hw]%elem_of_cons HPw; [done|]. specialize (Hmin w Hw HPw). lia.
    + exists y. split_and!; [by right|done|]. intros w [->|Hw]%elem_of_cons HPw; [|by apply Hmin].
      destruct (decide (m z ≤ m y)); [by destruct Hno|lia].
  - assert (x = z) as ->. { apply elem_of_cons in Hx as [|Hx]; [done|]. destruct He. apply Exists_exists. by exists x. }
    exists z. split_and!; [by left|done|]. intros w [->|Hw]%elem_of_cons HPw; [done|]. destruct He. apply Exists_exists. by exists w.
Qed.

(** ** One step *)

(** The number in cell [i]. *)
Definition val (l : list Z) (i : Z) : Z := default 0 (l !z i).

Lemma vget_val l i : 0 ≤ i < zlen l → vget l i = Ok (val l i).
Proof. intros Hi. unfold val. destruct (zlookup_total l i Hi) as [x Hx]. rewrite Hx. by apply vget_ok. Qed.

Lemma val_zinsert l i j x : 0 ≤ i < zlen l → val (zinsert l i x) j = if decide (j = i) then x else val l j.
Proof.
  intros Hi. unfold val. case_decide as E; [subst; by rewrite zlookup_zinsert_eq|].
  destruct (decide (0 ≤ j)); [by rewrite zlookup_zinsert_ne by lia|].
  by rewrite !(proj2 (zlookup_None _ j)) by lia.
Qed.

Lemma val_replicate n x i : 0 ≤ i < n → val (replicate (Z.to_nat n) x) i = x.
Proof. intros Hi. unfold val. by rewrite zlookup_replicate by lia. Qed.

Lemma wp_incr l i (Q : list Z → Prop) :
  0 ≤ i < zlen l → Q (zinsert l i (val l i + 1)) → wp (incr l i) Q.
Proof. intros Hi HQ. unfold incr. rewrite vget_val by done. cbn [rbind]. by rewrite vset_ok. Qed.

Section fusion.
Context (vlist elist : list Z) (vc rc num_p : Z).
Abbreviation size := (vc + rc).
Abbreviation row := (csr_row vlist elist).
Abbreviation nodes := (seqZ 0 size).
Context (Hcsr : csr_okb vlist elist size = true) (Hvc : 0 ≤ vc) (Hrc : 0 ≤ rc) (Hnp : 0 ≤ num_p).
Context (Hel : Forall (λ d, 0 ≤ d < size) elist).
Context (H0 : vlist !z 0 = Some 0) (Hn : vlist !z size = Some (zlen elist)).

(** The inputs of [v], each edge from [u] weighted by [f u]. *)
Definition inputs (f : Z → Z) (v : Z) : Z := sum_over (λ u, Z.of_nat (cnt v (row u)) * f u) nodes.

Lemma target_range e d : elist !z e = Some d → 0 ≤ d < size.
Proof using Hel. intros Hd%zlookup_elem. rewrite Forall_forall in Hel. by apply Hel. Qed.

Lemma row_range v d : d ∈ row v → 0 ≤ v < size → 0 ≤ d < size.
Proof using Hcsr Hel.
  intros Hd Hv. destruct (csr_okb_spec _ _ _ v Hcsr Hv) as (a & b & Ha & Hb & ? & ?).
  rewrite (csr_row_slice _ _ _ _ _ Ha Hb) in Hd. rewrite Forall_forall in Hel. apply Hel.
  apply list_elem_of_lookup in Hd as [i Hi]. unfold slice in Hi. rewrite lookup_take_Some in Hi. destruct Hi as [Hi _].
  rewrite lookup_drop in Hi. by eapply list_elem_of_lookup_2.
Qed.

Lemma cnt_edges (f : Z → bool) v l :
  Z.of_nat (cnt v (edges vlist elist (filter (λ u, f u = true) l))) =
  sum_over (λ u, Z.of_nat (cnt v (row u)) * Z.b2z (f u)) l.
Proof using.
  induction l as [|u l IH]; [done|]. rewrite sum_over_cons, <-IH, filter_cons.
  destruct (f u) eqn:Hf; simpl.
  - rewrite cnt_app. unfold edges. lia.
  - unfold edges. lia.
Qed.

Lemma cnt_all v : Z.of_nat (cnt v elist) = inputs (λ _, 1) v.
Proof using Hcsr Hvc Hrc H0 Hn.
  transitivity (Z.of_nat (cnt v (edges vlist elist nodes))).
  - rewrite edges_concat. fold (csr_rows vlist elist size).
    by rewrite (concat_csr_rows vlist elist size Hcsr ltac:(lia) H0 (zlen elist) Hn), slice_full.
  - unfold inputs. generalize nodes. intros l. induction l as [|u l IH]; [done|].
    rewrite sum_over_cons, <-IH. simpl. rewrite cnt_app. unfold edges. lia.
Qed.

Definition degreeOf (v : Z) : Z := inputs (λ _, 1) v.

Lemma in_degree_spec :
  wp (for_up 0 (zlen elist) (λ i in_degree, let* dst := vget elist i in incr in_degree dst) (replicate (Z.to_nat size) 0))
    (λ in_degree, zlen in_degree = size ∧ ∀ v, 0 ≤ v < size → val in_degree v = degreeOf v).
Proof using Hcsr Hvc Hrc Hel H0 Hn.
  eapply (wp_for_up (λ i deg, zlen deg = size ∧ ∀ v, 0 ≤ v < size → val deg v = Z.of_nat (cnt v (slice elist 0 i)))); [apply zlen_nonneg| | |].
  - split; [rewrite zlen_replicate; lia|]. intros v Hv. by rewrite val_replicate, slice_nil, cnt_nil by lia.
  - intros i deg Hi [Hl Hd]. destruct (zlookup_total elist i Hi) as [d Hdi]. rewrite (vget_ok _ _ _ Hdi). cbn [rbind].
    pose proof (target_range _ _ Hdi).
    apply wp_incr; [lia|]. split; [by rewrite zlen_zinsert|]. intros v Hv. rewrite val_zinsert by lia.
    rewrite (slice_snoc elist 0 i d), cnt_snoc by (done || lia). case_decide as E; [subst|]; rewrite Hd by done; lia.
  - intros deg [Hl Hd]. split; [done|]. intros v Hv. rewrite Hd, slice_full by done. unfold degreeOf.
    by rewrite <-cnt_all.
Qed.

(** Sending the inputs of the active nodes. *)
Lemma send_spec (f : Z → bool) AC0 :
  zlen AC0 = size →
  wp (send vlist elist (filter (λ u, f u = true) nodes) AC0) (λ AC, zlen AC = size ∧
    ∀ v, 0 ≤ v < size → val AC v = (if f v then 0 else val AC0 v) + inputs (λ u, Z.b2z (f u)) v).
Proof using Hcsr Hvc Hrc Hel.
  intros Hl0. unfold send. set (act := filter _ nodes).
  assert (∀ u, u ∈ act ↔ f u = true ∧ 0 ≤ u < size) as Hact.
  { intros u. unfold act. rewrite list_elem_of_filter, elem_of_seqZ. naive_solver lia. }
  apply wp_bind. eapply (wp_for_each (λ pre AC, zlen AC = size ∧
    ∀ v, val AC v = if decide (v ∈ pre) then 0 else val AC0 v)).
  - split; [done|]. intros v. by rewrite decide_False by apply not_elem_of_nil.
  - intros pre x post AC Hpre [Hl Hv]. assert (0 ≤ x < size) by (apply Hact; rewrite Hpre; apply elem_of_app; right; by left).
    rewrite vset_ok by lia. split; [by rewrite zlen_zinsert|]. intros v. rewrite val_zinsert, Hv by lia.
    destruct (decide (v = x)) as [->|Hne].
    + by rewrite decide_True by (apply elem_of_app; right; by left).
    + apply decide_ext. rewrite elem_of_app, list_elem_of_singleton. tauto.
  - intros AC1 [Hl1 H1].
    eapply (wp_for_each (λ pre AC, zlen AC = size ∧
      ∀ v, val AC v = val AC1 v + Z.of_nat (cnt v (edges vlist elist pre)))).
    + split; [done|]. intros v. simpl. rewrite cnt_nil. lia.
    + intros pre x post AC Hpre [Hl Hv]. assert (0 ≤ x < size) as Hx by (apply Hact; rewrite Hpre; apply elem_of_app; right; by left).
      destruct (csr_okb_spec _ _ _ x Hcsr Hx) as (a & b & Ha & Hb & ? & ?).
      rewrite (vget_ok _ _ _ Ha), (vget_ok _ _ _ Hb). cbn [rbind].
      eapply (wp_for_up (λ e AC', zlen AC' = size ∧ ∀ v, val AC' v = val AC v + Z.of_nat (cnt v (slice elist a e)))); [lia| | |].
      * split; [done|]. intros v. rewrite slice_nil, cnt_nil by lia. lia.
      * intros e AC' He [Hl' Hv']. destruct (zlookup_total elist e) as [d Hd]; [lia|]. rewrite (vget_ok _ _ _ Hd). cbn [rbind].
        pose proof (target_range _ _ Hd). apply wp_incr; [lia|].
        split; [by rewrite zlen_zinsert|]. intros v. rewrite val_zinsert, (slice_snoc elist a e d), cnt_snoc by (done || lia).
        case_decide; subst; rewrite Hv'; lia.
      * intros AC' [Hl' Hv']. split; [done|]. intros v. rewrite Hv', Hv. unfold edges. rewrite bind_app, cnt_app. simpl. rewrite app_nil_r.
        rewrite (csr_row_slice _ _ _ _ _ Ha Hb). lia.
    + intros AC [Hl Hv]. split; [done|]. intros v Hvr. rewrite Hv, H1. pose proof (cnt_edges f v nodes) as Hc. fold act in Hc. rewrite Hc.
      unfold inputs. f_equal. destruct (f v) eqn:Hfv.
      * by rewrite decide_True by (by apply Hact).
      * rewrite decide_False; [done|]. rewrite Hact, Hfv. by intros [? _].
Qed.

(** The decision of [cond_propagate]. *)
Definition condb (PC AC : list Z) (v : Z) : bool :=
  (degreeOf v <=? val AC v) && ((val PC v =? 0) || forallb (λ d, val PC v <=? val PC d) (row v)).

Lemma cond_propagate_ok PC AC in_degree v :
  zlen PC = size → zlen AC = size → zlen in_degree = size → (∀ v, 0 ≤ v < size → val in_degree v = degreeOf v) →
  0 ≤ v < size → cond_propagate PC AC in_degree vlist elist v = Ok (condb PC AC v).
Proof using Hcsr Hel.
  intros HP HA Hd Hdeg Hv. unfold cond_propagate, condb. rewrite !vget_val by lia. cbn [rbind]. rewrite Hdeg by done.
  rewrite Z.ltb_antisym. destruct (_ <=? _); cbn [negb]; [|done].
  destruct (val PC v =? 0); [done|].
  destruct (csr_okb_spec _ _ _ v Hcsr Hv) as (a & b & Ha & Hb & ? & ?).
  rewrite (vget_ok _ _ _ Ha), (vget_ok _ _ _ Hb). cbn [rbind]. rewrite (csr_row_slice _ _ _ _ _ Ha Hb).
  apply wp_eq. eapply (wp_for_up (λ e go, go = forallb (λ d, val PC v <=? val PC d) (slice elist a e))); [lia| | |].
  - by rewrite slice_nil by lia.
  - intros e go He ->. destruct (zlookup_total elist e) as [d Hde]; [lia|].
    rewrite (slice_snoc elist a e d), forallb_app by (done || lia). destruct (forallb _ _); [|done]. simpl negb. cbn iota.
    pose proof (target_range _ _ Hde).
    rewrite (vget_ok _ _ _ Hde). cbn [rbind]. rewrite !vget_val by lia. cbn [rbind wp]. simpl. by rewrite andb_true_r, Z.ltb_antisym, negb_involutive.
  - by intros go ->.
Qed.

(** Which nodes a step evaluates. *)
Definition act (st : fstate) (v : Z) : bool :=
  (step st =? 0) && (v <? vc) || condb (PC st) (AC st) v && (val (PC st) v <? num_p).

Definition level (order : list Z) (p v : Z) : Z := val order (p * size + v).

Lemma cell_inj p q u v : 0 ≤ u < size → 0 ≤ v < size → p * size + u = q * size + v → p = q ∧ u = v.
Proof using. intros Hu Hv E. assert (p = q) by nia. subst. lia. Qed.

(** The state between two steps. *)
Record shape (st : fstate) : Prop := {
  s_PC : zlen (PC st) = size;
  s_AC : zlen (AC st) = size;
  s_order : zlen (order st) = num_p * size;
  s_tmp_AC : tmp_AC st = AC st;
  s_tmp_PC : tmp_PC st = PC st;
  s_list : active_list st = [];
  s_pc : ∀ v, 0 ≤ v < size → 0 ≤ val (PC st) v;
  s_act : ∀ v, 0 ≤ v < size → act st v = true → val (PC st) v < num_p
}.

Lemma activate_all st in_degree :
  shape st → zlen in_degree = size → (∀ v, 0 ≤ v < size → val in_degree v = degreeOf v) →
  wp (for_up 0 size (activate vlist elist in_degree vc rc num_p) st) (λ st', ∃ tPC ord,
    st' = FState (PC st) (AC st) (AC st) tPC ord (active_count st + sum_over (λ v, Z.b2z (act st v)) nodes)
      (filter (λ u, act st u = true) nodes) (step st) ∧
    zlen tPC = size ∧ zlen ord = num_p * size ∧
    (∀ v, 0 ≤ v < size → val tPC v = val (PC st) v + Z.b2z (act st v)) ∧
    (∀ p v, 0 ≤ v < size → level ord p v = if act st v && (p =? val (PC st) v) then step st else level (order st) p v)).
Proof using Hcsr Hvc Hrc Hnp Hel.
  intros [HPC HAC Hord HtAC HtPC Hlist Hpc Hact] Hdl Hdeg.
  eapply (wp_for_up (λ i st', ∃ tPC ord,
    st' = FState (PC st) (AC st) (AC st) tPC ord (active_count st + sum_over (λ v, Z.b2z (act st v)) (seqZ 0 i))
      (filter (λ u, act st u = true) (seqZ 0 i)) (step st) ∧
    zlen tPC = size ∧ zlen ord = num_p * size ∧
    (∀ v, 0 ≤ v < size → val tPC v = val (PC st) v + Z.b2z (act st v && (v <? i))) ∧
    (∀ p v, 0 ≤ v < size → level ord p v = if act st v && (v <? i) && (p =? val (PC st) v) then step st else level (order st) p v))); [lia| | |].
  - exists (PC st), (order st). split_and!; [|done|done| |].
    + destruct st; simpl in *; subst. f_equal. unfold sum_over. simpl. lia.
    + intros v Hv. rewrite (proj2 (Z.ltb_ge v 0)), andb_false_r by lia. simpl. lia.
    + intros p v Hv. by rewrite (proj2 (Z.ltb_ge v 0)), andb_false_r by lia.
  - intros i st' Hi (tPC & ord & -> & HtP & Ho & Hval & Hlev). unfold activate; simpl.
    assert ((if (step st =? 0) && (i <? vc) then Ok true else
      let* c := cond_propagate (PC st) (AC st) in_degree vlist elist i in
      if (c : bool) then let* pc := vget (PC st) i in Ok (pc <? num_p) else Ok false) = Ok (act st i)) as ->.
    { unfold act. destruct (_ && (i <? vc)); [done|]. rewrite cond_propagate_ok by done. cbn [rbind].
      destruct (condb _ _ i); [|done]. by rewrite vget_val by lia. }
    cbn [rbind]. rewrite seqZ_app by lia. change (seqZ (0 + i) 1) with [i].
    assert (∀ v, v ≠ i → (v <? i + 1) = (v <? i)) as Hlt by (intros v ?; destruct (Z.ltb_spec v i), (Z.ltb_spec v (i + 1)); lia).
    rewrite sum_over_snoc, filter_app, filter_cons, filter_nil.
    destruct (act st i) eqn:Hai.
    + pose proof (Hact i Hi Hai). pose proof (Hpc i Hi). assert (0 ≤ val (PC st) i * size + i < num_p * size) by nia.
      rewrite vget_val by lia. cbn [rbind]. rewrite vset_ok by lia. cbn [rbind]. apply wp_bind. apply wp_incr; [lia|]. cbn [wp].
      eexists _, _. split_and!.
      * simpl. f_equal. lia.
      * by rewrite zlen_zinsert.
      * by rewrite zlen_zinsert.
      * intros v Hv. rewrite val_zinsert by lia. case_decide as E.
        -- subst v. rewrite Hval, Hai by done. rewrite (proj2 (Z.ltb_ge i i)), (proj2 (Z.ltb_lt i (i + 1))) by lia. simpl. lia.
        -- by rewrite Hval, Hlt.
      * intros p v Hv. unfold level. rewrite val_zinsert by lia. fold (level ord p v). case_decide as E.
        -- apply cell_inj in E as [-> ->]; [|done..]. rewrite Hai, (proj2 (Z.ltb_lt i (i + 1))), Z.eqb_refl by lia. done.
        -- rewrite Hlev by done. destruct (decide (v = i)) as [->|Hne]; [|by rewrite Hlt].
           destruct (Z.eqb_spec p (val (PC st) i)) as [->|]; [done|]. by rewrite !andb_false_r.
    + cbn [wp]. exists tPC, ord. split_and!; try done.
      * simpl. rewrite app_nil_r. f_equal. lia.
      * intros v Hv. rewrite Hval by done. destruct (decide (v = i)) as [->|Hne]; [by rewrite Hai|by rewrite Hlt].
      * intros p v Hv. rewrite Hlev by done. destruct (decide (v = i)) as [->|Hne]; [by rewrite Hai|by rewrite Hlt].
  - intros st' (tPC & ord & -> & HtP & Ho & Hval & Hlev). exists tPC, ord. split_and!; try done.
    + intros v Hv. by rewrite Hval, (proj2 (Z.ltb_lt v size)), andb_true_r by lia.
    + intros p v Hv. by rewrite Hlev, (proj2 (Z.ltb_lt v size)), andb_true_r by lia.
Qed.

Lemma fusion_step_spec st in_degree :
  shape st → zlen in_degree = size → (∀ v, 0 ≤ v < size → val in_degree v = degreeOf v) →
  wp (fusion_step vlist elist in_degree vc rc num_p st) (λ st', ∃ PC' AC' ord,
    st' = FState PC' AC' AC' PC' ord (active_count st + sum_over (λ v, Z.b2z (act st v)) nodes) [] (step st + 1) ∧
    zlen PC' = size ∧ zlen AC' = size ∧ zlen ord = num_p * size ∧
    (∀ v, 0 ≤ v < size → val PC' v = val (PC st) v + Z.b2z (act st v)) ∧
    (∀ v, 0 ≤ v < size → val AC' v = (if act st v then 0 else val (AC st) v) + inputs (λ u, Z.b2z (act st u)) v) ∧
    (∀ p v, 0 ≤ v < size → level ord p v = if act st v && (p =? val (PC st) v) then step st else level (order st) p v)).
Proof using Hcsr Hvc Hrc Hnp Hel.
  intros Hsh Hdl Hdeg. unfold fusion_step. apply wp_bind. eapply wp_mono; [by apply activate_all|].
  intros st' (tPC & ord & -> & HtP & Ho & Hval & Hlev). simpl. apply wp_bind.
  eapply wp_mono; [apply send_spec; by destruct Hsh|]. intros AC' [HA HAv]. cbn [wp]. by exists tPC, AC', ord.
Qed.

(** ** The invariant *)

(** [last v] is the step of the last evaluation of [v]; nodes that were never
    evaluated have -1. *)
Record finv (last : Z → Z) (st : fstate) : Prop := {
  f_PC : zlen (PC st) = size;
  f_AC : zlen (AC st) = size;
  f_ord : zlen (order st) = num_p * size;
  f_tmp_AC : tmp_AC st = AC st;
  f_tmp_PC : tmp_PC st = PC st;
  f_list : active_list st = [];
  f_step : 0 ≤ step st;
  f_count : active_count st = sum_over (val (PC st)) nodes;
  f_pc : ∀ v, 0 ≤ v < size → 0 ≤ val (PC st) v ≤ num_p;
  f_last : ∀ v, 0 ≤ v < size →
    val (PC st) v = 0 ∧ last v = -1 ∨ 0 < val (PC st) v ∧ 0 ≤ last v < step st;
  f_start : step st = 0 → ∀ v, 0 ≤ v < size → val (PC st) v = 0;
  f_vertex : 0 < step st → ∀ v, 0 ≤ v < vc → 0 < val (PC st) v;
  f_ahead : ∀ u v, 0 ≤ u < size → v ∈ row u → val (PC st) u ≤ val (PC st) v + 1;
  f_before : ∀ u v, 0 ≤ u < size → v ∈ row u → last u < last v → val (PC st) u ≤ val (PC st) v;
  f_late : ∀ v, 0 ≤ v < size →
    inputs (λ u, Z.b2z ((last v <=? last u) && (0 <=? last u))) v ≤ val (AC st) v;
  f_rule : ∀ v, vc ≤ v < size → val (AC st) v = inputs (λ u, val (PC st) u - val (PC st) v) v;
  f_level : ∀ p v, 0 ≤ v < size → 0 ≤ p < val (PC st) v → 0 ≤ level (order st) p v ≤ last v;
  f_inc : ∀ p q v, 0 ≤ v < size → 0 ≤ p < q → q < val (PC st) v → level (order st) p v < level (order st) q v;
  f_topo : ∀ u v p, 0 ≤ u < size → vc ≤ v → v ∈ row u → 0 ≤ p < val (PC st) v →
    p < val (PC st) u ∧ level (order st) p u < level (order st) p v
}.

(** A sum of inputs depends on the rows with an edge to [v] only. *)
Lemma inputs_ext f g v : (∀ u, 0 ≤ u < size → v ∈ row u → f u = g u) → inputs f v = inputs g v.
Proof using.
  intros H. apply sum_over_ext. intros u Hu%elem_of_seqZ. destruct (decide (v ∈ row u)) as [Hv|Hv%cnt_zero]; [|lia].
  rewrite H by (done || lia). done.
Qed.

Lemma inputs_le f g v : (∀ u, 0 ≤ u < size → v ∈ row u → f u ≤ g u) → inputs f v ≤ inputs g v.
Proof using.
  intros H. apply sum_over_le. intros u Hu%elem_of_seqZ. destruct (decide (v ∈ row u)) as [Hv|Hv%cnt_zero]; [|lia].
  specialize (H u ltac:(lia) Hv). nia.
Qed.

Lemma inputs_add f g v : inputs (λ u, f u + g u) v = inputs f v + inputs g v.
Proof using. unfold inputs. rewrite <-sum_over_add. apply sum_over_ext. intros; lia. Qed.

Lemma inputs_squeeze f g v :
  (∀ u, 0 ≤ u < size → v ∈ row u → f u ≤ g u) → inputs g v ≤ inputs f v → ∀ u, 0 ≤ u < size → v ∈ row u → f u = g u.
Proof using.
  intros Hle Hsum u Hu Hv. eapply (sum_over_squeeze (λ u, Z.of_nat (cnt v (row u)) * f u) (λ u, Z.of_nat (cnt v (row u)) * g u) nodes) in Hsum.
  - apply (proj2 (cnt_elem v (row u))) in Hv. cbn beta in Hsum. apply Z.mul_reg_l in Hsum; [done|lia].
  - intros w Hw%elem_of_seqZ. destruct (decide (v ∈ row w)) as [Hvw|Hvw%cnt_zero]; [|lia]. specialize (Hle w ltac:(lia) Hvw). nia.
  - apply elem_of_seqZ. lia.
Qed.

Lemma inputs_lt f g v : inputs f v < inputs g v → ∃ u, 0 ≤ u < size ∧ v ∈ row u ∧ f u < g u.
Proof using.
  intros (u & Hu%elem_of_seqZ & Hlt)%sum_over_lt. cbn beta in Hlt. exists u.
  destruct (decide (v ∈ row u)) as [Hv|Hv%cnt_zero]; [|rewrite Hv in Hlt; lia]. split; [lia|]. split; [done|]. nia.
Qed.

Lemma zlen_nodes : zlen nodes = size.
Proof using Hvc Hrc. unfold zlen. rewrite length_seqZ. lia. Qed.

Section one_step.
Context (last : Z → Z) (st : fstate) (Hinv : finv last st) (Hpos : 0 < num_p).

Lemma act_cond v : 0 ≤ v < size → act st v = true →
  (val (PC st) v = 0 ∨ ∀ d, d ∈ row v → val (PC st) v ≤ val (PC st) d) ∧ val (PC st) v < num_p ∧
  (vc ≤ v → degreeOf v ≤ val (AC st) v) ∧ (step st = 0 → val (PC st) v = 0).
Proof using Hinv Hpos.
  intros Hv Ha. split_and!.
  4: { intros Hs. by apply (f_start _ _ Hinv). }
  all: unfold act in Ha; apply orb_true_iff in Ha as [[Hs%Z.eqb_eq Hlt%Z.ltb_lt]%andb_true_iff|[Hc Hp%Z.ltb_lt]%andb_true_iff].
  - left. by apply (f_start _ _ Hinv).
  - apply andb_true_iff in Hc as [_ [Hz%Z.eqb_eq|Hall]%orb_true_iff]; [by left|right].
    intros d Hd. apply Z.leb_le. apply (proj1 (forallb_forall _ _) Hall). by apply list_elem_of_In.
  - rewrite (f_start _ _ Hinv) by done. done.
  - done.
  - lia.
  - intros _. apply andb_true_iff in Hc as [Hc%Z.leb_le _]. done.
Qed.

Lemma finv_shape : shape st.
Proof using Hinv Hpos.
  pose proof Hinv as []. split; try done.
  - intros v Hv. by apply f_pc0.
  - intros v Hv Ha. by apply act_cond.
Qed.

(** When a rule is evaluated, each of its inputs is one evaluation ahead. *)
Lemma act_inputs u v : act st v = true → vc ≤ v < size → 0 ≤ u < size → v ∈ row u → val (PC st) u = val (PC st) v + 1.
Proof using Hinv Hpos Hvc.
  intros Ha Hv Hu Huv. destruct (act_cond v ltac:(lia) Ha) as (_ & _ & Hd & _). specialize (Hd ltac:(lia)).
  rewrite (f_rule _ _ Hinv) in Hd by lia. unfold degreeOf in Hd.
  pose proof (inputs_squeeze (λ u, val (PC st) u - val (PC st) v) (λ _, 1) v) as Hsq. cbn in Hsq.
  enough (val (PC st) u - val (PC st) v = 1) by lia. apply Hsq; [|done..].
  intros w Hw Hvw. pose proof (f_ahead _ _ Hinv w v Hw Hvw). lia.
Qed.

Definition last' (v : Z) : Z := if act st v then step st else last v.

Lemma last_lt v : 0 ≤ v < size → last v < step st.
Proof using Hinv. intros Hv. pose proof (f_step _ _ Hinv). destruct (f_last _ _ Hinv v Hv) as [[? ?]|[? ?]]; lia. Qed.

Lemma finv_next PC' AC' ord c :
  zlen PC' = size → zlen AC' = size → zlen ord = num_p * size → c = active_count st + sum_over (λ v, Z.b2z (act st v)) nodes →
  (∀ v, 0 ≤ v < size → val PC' v = val (PC st) v + Z.b2z (act st v)) →
  (∀ v, 0 ≤ v < size → val AC' v = (if act st v then 0 else val (AC st) v) + inputs (λ u, Z.b2z (act st u)) v) →
  (∀ p v, 0 ≤ v < size → level ord p v = if act st v && (p =? val (PC st) v) then step st else level (order st) p v) →
  finv last' (FState PC' AC' AC' PC' ord c [] (step st + 1)).
Proof using Hinv Hpos Hcsr Hel Hvc Hrc.
  intros HlP HlA Hlo -> HP HA Ho.
  assert (∀ p v, 0 ≤ v < size → p < val (PC st) v → level ord p v = level (order st) p v) as Hold.
  { intros p v Hv Hp. rewrite Ho, (proj2 (Z.eqb_neq p _)), andb_false_r by lia. done. }
  assert (∀ v, 0 ≤ v < size → act st v = true → level ord (val (PC st) v) v = step st) as Hnew.
  { intros v Hv Ha. by rewrite Ho, Ha, Z.eqb_refl by done. }
  pose proof row_range as Hrow. pose proof last_lt as Hlt.
  pose proof Hinv as [_ _ _ _ _ _ Hstep Hcnt Hpc Hlast Hstart Hvert Hahead Hbefore Hlate Hrule Hlev Hinc Htopo].
  split; simpl; try done; try lia.
  - rewrite Hcnt. rewrite <-sum_over_add. apply sum_over_ext. intros v Hv%elem_of_seqZ. rewrite HP by lia. done.
  - intros v Hv. rewrite HP by done. pose proof (Hpc v Hv). destruct (act st v) eqn:Ha; simpl; [|lia].
    destruct (act_cond v Hv Ha) as (_ & ? & _). lia.
  - intros v Hv. rewrite HP by done. unfold last'. pose proof (Hpc v Hv). destruct (act st v) eqn:Ha; simpl; [lia|].
    destruct (Hlast v Hv) as [?|?]; lia.
  - intros _ v Hv. rewrite HP by lia. pose proof (Hpc v ltac:(lia)). destruct (decide (step st = 0)) as [Hs|Hs].
    + unfold act. rewrite Hs, (proj2 (Z.ltb_lt v vc)) by lia. simpl. lia.
    + specialize (Hvert ltac:(lia) v Hv). pose proof (Z.b2z_bit0 (act st v)). destruct (act st v); simpl; lia.
  - intros u v Hu Huv. pose proof (Hrow _ _ Huv Hu) as Hv. rewrite !HP by done. pose proof (Hahead u v Hu Huv). pose proof (Hpc v Hv).
    destruct (act st u) eqn:Ha; [|destruct (act st v); simpl; lia].
    destruct (act_cond u Hu Ha) as ([Hz|Hall] & _); [|specialize (Hall v Huv)]; destruct (act st v); simpl; lia.
  - intros u v Hu Huv. pose proof (Hrow _ _ Huv Hu) as Hv. rewrite !HP by done. unfold last'.
    pose proof (Hahead u v Hu Huv). pose proof (Hbefore u v Hu Huv). pose proof (Hlt u Hu). pose proof (Hlt v Hv).
    destruct (act st u), (act st v); simpl; lia.
  - intros v Hv. rewrite HA by done. unfold last'. specialize (Hlate v Hv). destruct (act st v) eqn:Hav.
    + simpl. apply inputs_le. intros u Hu Huv. pose proof (Hlt u Hu). destruct (act st u); simpl; [by destruct (_ && _); simpl; lia|].
      rewrite (proj2 (Z.leb_gt (step st) (last u))) by lia. simpl. lia.
    + etrans; [|apply Z.add_le_mono_r, Hlate]. rewrite <-inputs_add. apply inputs_le. intros u Hu Huv.
      destruct (act st u); simpl; destruct (_ && _); simpl; try lia; destruct (_ && _); simpl; lia.
  - intros v Hv. rewrite HA by lia. destruct (act st v) eqn:Hav.
    + simpl. apply inputs_ext. intros u Hu Huv. rewrite !HP, Hav by lia. rewrite (act_inputs u v) by done. simpl. lia.
    + rewrite Hrule by lia. rewrite <-inputs_add. apply inputs_ext. intros u Hu Huv. rewrite !HP, Hav by lia. simpl. lia.
  - intros p v Hv Hp. rewrite HP in Hp by done. unfold last'. pose proof (Hlt v Hv).
    destruct (act st v) eqn:Hav; simpl in Hp; [|rewrite Hold by lia; apply Hlev; lia].
    destruct (decide (p = val (PC st) v)) as [->|]; [rewrite Hnew by done; lia|]. rewrite Hold by lia.
    specialize (Hlev p v Hv ltac:(lia)). lia.
  - intros p q v Hv Hpq Hq. rewrite HP in Hq by done. pose proof (Hlt v Hv).
    destruct (act st v) eqn:Hav; simpl in Hq; [|rewrite !Hold by lia; apply Hinc; lia].
    destruct (decide (q = val (PC st) v)) as [->|]; [|rewrite !Hold by lia; apply Hinc; lia].
    rewrite Hnew, Hold by (done || lia). specialize (Hlev p v Hv ltac:(lia)). lia.
  - intros u v p Hu Hvr Huv Hp. pose proof (Hrow _ _ Huv Hu) as Hv. rewrite HP in Hp by done. rewrite HP by done.
    assert (p < val (PC st) v → p < val (PC st) u + Z.b2z (act st u) ∧ level ord p u < level ord p v) as Hprev.
    { intros Hpv. destruct (Htopo u v p Hu Hvr Huv ltac:(lia)) as [Hpu Hlvl]. rewrite !Hold by lia. split; [|done]. destruct (act st u); simpl; lia. }
    destruct (act st v) eqn:Hav; simpl in Hp; [|apply Hprev; lia].
    destruct (decide (p = val (PC st) v)) as [->|]; [|apply Hprev; lia].
    pose proof (act_inputs u v Hav ltac:(lia) Hu Huv). split; [destruct (act st u); simpl; lia|].
    rewrite Hnew, Hold by (done || lia). specialize (Hlev (val (PC st) v) u Hu ltac:(lia)). pose proof (Hlt u Hu). lia.
Qed.

(** ** Progress *)

(** A node that was evaluated least often, among these the one evaluated first
    of all, and among those never evaluated the lowest rule, can be evaluated. *)
Lemma progress (rank : Z → nat) :
  (∀ u v, vc ≤ u < size → vc ≤ v → v ∈ row u → (rank u < rank v)%nat) →
  active_count st < num_p * size → ∃ v, 0 ≤ v < size ∧ act st v = true.
Proof using Hinv Hpos Hcsr Hel Hvc Hrc.
  intros Hrank Hless. set (rank' v := if v <? vc then 0 else 1 + Z.of_nat (rank v)).
  pose proof Hinv as [_ _ _ _ _ _ Hstep Hcnt Hpc Hlast Hstart Hvert Hahead Hbefore Hlate Hrule Hlev Hinc Htopo].
  assert (∃ v, v ∈ nodes ∧ val (PC st) v < num_p) as (v0 & Hv0 & Hlt0).
  { apply (sum_over_lt (val (PC st)) (λ _, num_p)). rewrite <-Hcnt, sum_over_const, zlen_nodes. lia. }
  destruct (minimal_elem (λ _, True) (val (PC st)) nodes) as (v1 & Hv1 & _ & Hmin1); [by exists v0|].
  destruct (minimal_elem (λ v, val (PC st) v = val (PC st) v1) last nodes) as (v2 & Hv2 & HP2 & Hmin2); [by exists v1|].
  destruct (minimal_elem (λ v, val (PC st) v = val (PC st) v1 ∧ last v = last v2) rank' nodes) as (v & Hv & [HPv HLv] & Hmin3);
    [by exists v2|].
  assert (∀ u, u ∈ nodes → val (PC st) v ≤ val (PC st) u) as Hmin by (intros u Hu; rewrite HPv; by apply Hmin1).
  assert (val (PC st) v < num_p) as Hltv by (specialize (Hmin v0 Hv0); lia). apply elem_of_seqZ in Hv.
  exists v. split; [lia|]. unfold act. destruct ((step st =? 0) && (v <? vc)) eqn:Hfirst; [done|]. simpl.
  apply andb_true_iff. split; [|by apply Z.ltb_lt]. unfold condb. apply andb_true_iff. split.
  - apply Z.leb_le. destruct (Z.le_gt_cases (degreeOf v) (val (AC st) v)) as [|Hgt]; [done|exfalso].
    specialize (Hlate v ltac:(lia)). destruct (inputs_lt _ _ v (Z.le_lt_trans _ _ _ Hlate Hgt)) as (u & Hu & Huv & Hlu).
    assert (u ∈ nodes) as Hun by (apply elem_of_seqZ; lia).
    destruct (Z.lt_ge_cases (last u) (last v)) as [Hb|Hb].
    + pose proof (Hbefore u v Hu Huv Hb). specialize (Hmin u Hun). specialize (Hmin2 u Hun ltac:(lia)). lia.
    + rewrite (proj2 (Z.leb_le (last v) (last u))) in Hlu by done. destruct (Z.leb_spec 0 (last u)) as [|Hneg]; [simpl in Hlu; lia|].
      pose proof (Hlast u Hu). pose proof (Hlast v ltac:(lia)). assert (vc ≤ v).
      { apply andb_false_iff in Hfirst as [Hs%Z.eqb_neq|?%Z.ltb_ge]; [|done].
        destruct (Z.lt_ge_cases v vc) as [Hvv|]; [|done]. specialize (Hvert ltac:(lia) v ltac:(lia)). lia. }
      specialize (Hmin3 u Hun ltac:(split; lia)). unfold rank' in Hmin3. rewrite (proj2 (Z.ltb_ge v vc)) in Hmin3 by done.
      destruct (Z.ltb_spec u vc); [lia|]. specialize (Hrank u v ltac:(lia) ltac:(lia) Huv). lia.
  - apply orb_true_iff. right. apply forallb_forall. intros d Hd%list_elem_of_In. apply Z.leb_le, Hmin, elem_of_seqZ.
    pose proof (row_range v d Hd ltac:(lia)). lia.
Qed.
End one_step.

Definition zeros : list Z := replicate (Z.to_nat size) 0.

Lemma finv_init : finv (λ _, -1) (FState zeros zeros zeros zeros (replicate (Z.to_nat (num_p * size)) INIT) 0 [] 0).
Proof using Hvc Hrc Hnp.
  assert (zlen zeros = size) as Hz by (unfold zeros; rewrite zlen_replicate; lia).
  assert (∀ v, 0 ≤ v < size → val zeros v = 0) as Hv0 by (intros; by apply val_replicate).
  assert (∀ v, val zeros v = 0) as Hv.
  { intros v. destruct (decide (0 ≤ v < size)); [by apply Hv0|]. unfold val. by rewrite (proj2 (zlookup_None zeros v)) by lia. }
  split; simpl; try done; try lia.
  - rewrite zlen_replicate. nia.
  - rewrite (sum_over_ext _ (λ _, 0)) by (intros; apply Hv). rewrite sum_over_const. lia.
  - intros v _. rewrite Hv. lia.
  - intros v _. rewrite Hv. lia.
  - intros u v _ _. rewrite !Hv. lia.
  - intros v _. rewrite Hv. unfold inputs. rewrite (sum_over_ext _ (λ _, 0)) by (intros; simpl; lia). rewrite sum_over_const. lia.
  - intros v _. rewrite Hv. unfold inputs. rewrite (sum_over_ext _ (λ _, 0)) by (intros; rewrite Hv; lia). rewrite sum_over_const. lia.
  - intros p v _. rewrite Hv. lia.
  - intros p q v _. rewrite Hv. lia.
  - intros u v p _ _ _. rewrite Hv. lia.
Qed.

(** Every node has a level for every layer; the levels of a node increase; a
    rule is evaluated after all its inputs of the same layer. *)
Record schedule (order : list Z) (depth : Z) : Prop := {
  sch_len : zlen order = num_p * size;
  sch_range : ∀ p v, 0 ≤ p < num_p → 0 ≤ v < size → 0 ≤ level order p v < depth;
  sch_layers : ∀ p q v, 0 ≤ p < q → q < num_p → 0 ≤ v < size → level order p v < level order q v;
  sch_rules : ∀ p u v, 0 ≤ p < num_p → 0 ≤ u < size → vc ≤ v → v ∈ row u → level order p u < level order p v
}.

Lemma finv_schedule last st : finv last st → num_p * size ≤ active_count st → schedule (order st) (step st).
Proof using Hcsr Hel Hvc Hrc.
  intros Hinv Hdone. pose proof Hinv as [_ _ Hlen _ _ _ Hstep Hcnt Hpc Hlast _ _ _ _ _ _ Hlev Hinc Htopo].
  assert (∀ v, 0 ≤ v < size → val (PC st) v = num_p) as Hall.
  { intros v Hv. apply (sum_over_squeeze (val (PC st)) (λ _, num_p) nodes).
    - intros w Hw%elem_of_seqZ. apply Hpc. lia.
    - rewrite <-Hcnt, sum_over_const, zlen_nodes. lia.
    - apply elem_of_seqZ. lia. }
  split; [done| | |].
  - intros p v Hp Hv. specialize (Hlev p v Hv ltac:(rewrite Hall; lia)). pose proof (last_lt last st Hinv v Hv). lia.
  - intros p q v Hpq Hq Hv. apply Hinc; [done|lia|rewrite Hall; lia].
  - intros p u v Hp Hu Hvr Huv. pose proof (row_range _ _ Huv Hu). apply (Htopo u v p Hu Hvr Huv). rewrite Hall; lia.
Qed.

Lemma gen_fusion_vertex_order_spec (rank : Z → nat) fuel :
  (∀ u v, vc ≤ u < size → vc ≤ v → v ∈ row u → (rank u < rank v)%nat) → num_p * size < Z.of_nat fuel →
  wp (gen_fusion_vertex_order fuel vlist elist vc rc num_p) (λ '(order, depth), 0 ≤ depth ∧ schedule order depth).
Proof using Hcsr Hel Hvc Hrc Hnp H0 Hn.
  intros Hrank Hfuel. unfold gen_fusion_vertex_order. apply wp_bind. eapply wp_mono; [apply in_degree_spec|].
  intros deg [Hdl Hdeg]. fold zeros. apply wp_bind.
  apply (wp_while (λ st, (∃ last, finv last st) ∧ active_count st ≤ num_p * size) (λ st, Z.to_nat (num_p * size - active_count st))).
  - split; [eexists; apply finv_init|simpl; nia].
  - simpl. lia.
  - intros st [[last Hinv] Hle]. cbn [wp]. destruct (Z.ltb_spec (active_count st) (num_p * size)) as [Hlt|Hge].
    + assert (0 < num_p) as Hpos.
      { pose proof (f_count _ _ Hinv). assert (0 ≤ active_count st); [|nia]. rewrite H.
        transitivity (sum_over (λ _, 0) nodes); [rewrite sum_over_const; lia|]. apply sum_over_le.
        intros v Hv%elem_of_seqZ. apply (f_pc _ _ Hinv). lia. }
      destruct (progress last st Hinv Hpos rank Hrank Hlt) as (v & Hv & Hact).
      eapply wp_mono; [by apply fusion_step_spec; [eapply finv_shape| |]|].
      intros st' (PC' & AC' & ord & -> & HlP & HlA & Hlo & HP & HA & Hlv).
      assert (finv (last' last st) (FState PC' AC' AC' PC' ord (active_count st + sum_over (λ v, Z.b2z (act st v)) nodes) [] (step st + 1))) as Hinv'
        by (by apply finv_next).
      assert (0 < sum_over (λ v, Z.b2z (act st v)) nodes).
      { destruct (Z.lt_ge_cases 0 (sum_over (λ v, Z.b2z (act st v)) nodes)) as [|Hle0]; [done|exfalso].
        assert (0 = Z.b2z (act st v)) as Hbad; [|by rewrite Hact in Hbad].
        apply (sum_over_squeeze (λ _, 0) (λ v, Z.b2z (act st v)) nodes); [|rewrite sum_over_const; lia|apply elem_of_seqZ; lia].
        intros w _. destruct (act st w); simpl; lia. }
      assert (active_count st + sum_over (λ v, Z.b2z (act st v)) nodes ≤ num_p * size).
      { pose proof (f_count _ _ Hinv') as Hc. simpl in Hc. rewrite Hc. transitivity (sum_over (λ _, num_p) nodes).
        - apply sum_over_le. intros w Hw%elem_of_seqZ. apply (f_pc _ _ Hinv'). lia.
        - by rewrite sum_over_const, zlen_nodes. }
      simpl. split; [split; [by eexists|done]|lia].
    + cbn [wp]. split; [apply (f_step _ _ Hinv)|by eapply finv_schedule].
Qed.
End fusion.

(** C33: on every compressed graph with acyclic rules [gen_fusion_vertex_order]
    ends, after at most [num_p * (vertex_cnt + rule_cnt)] steps, and evaluates
    every vertex and rule exactly [num_p] times at increasing steps; a rule is
    evaluated for a layer after all rows that use it. *)
Theorem gen_fusion_vertex_order_correct vlist elist vc rc num_p (rank : Z → nat) fuel :
  csr_okb vlist elist (vc + rc) = true → 0 ≤ vc → 0 ≤ rc → 0 ≤ num_p → Forall (λ d, 0 ≤ d < vc + rc) elist →
  vlist !z 0 = Some 0 → vlist !z (vc + rc) = Some (zlen elist) →
  (∀ u v, vc ≤ u < vc + rc → vc ≤ v → v ∈ csr_row vlist elist u → (rank u < rank v)%nat) →
  num_p * (vc + rc) < Z.of_nat fuel →
  wp (gen_fusion_vertex_order fuel vlist elist vc rc num_p) (λ '(order, depth), schedule vlist elist vc rc num_p order depth).
Proof.
  intros. eapply wp_mono; [by eapply gen_fusion_vertex_order_spec|]. by intros [order depth] [_ ?].
Qed.

(** Two vertices; both use rule 3, which uses rule 2; two layers. *)
Lemma gen_fusion_vertex_order_correct_witness :
  wp (gen_fusion_vertex_order 9 [0; 2; 4; 6; 8] [3; 1; 0; 3; 0; 1; 2; 1] 2 2 2) (λ '(order, depth),
    schedule [0; 2; 4; 6; 8] [3; 1; 0; 3; 0; 1; 2; 1] 2 2 2 order depth).
Proof.
  apply (gen_fusion_vertex_order_correct _ _ _ _ _ (λ v, if v =? 3 then 0%nat else 1%nat)); try done; [repeat constructor; done|].
  intros u v Hu Hv Huv. assert (u = 2 ∨ u = 3) as [-> | ->] by lia; vm_compute in Huv.
  - apply list_elem_of_In in Huv. simpl in Huv. lia.
  - apply list_elem_of_In in Huv. simpl in Huv. assert (v = 2) as -> by lia. vm_compute. lia.
Defined.

(** ** The mask *)

(** Cell [d, v] is written by the rounds before round [s] of [d0]. *)
Definition written (order : list Z) (size d0 s d v : Z) : Prop :=
  ∃ s', order !z s' = Some d ∧ Z.rem s' size = v ∧ (d < d0 ∨ d = d0 ∧ s' < s).

Definition mask_at (order : list Z) (size depth d0 s : Z) (mask : list bool) : Prop :=
  zlen mask = size * depth ∧ ∀ d v, 0 ≤ d < depth → 0 ≤ v < size →
    ∃ b, mask !z (d * size + v) = Some b ∧ (b = true ↔ written order size d0 s d v).

Lemma mask_at_step order size depth d0 s o mask :
  0 < size → 0 ≤ d0 < depth → order !z s = Some o → mask_at order size depth d0 s mask →
  mask_at order size depth d0 (s + 1) (if o =? d0 then zinsert mask (d0 * size + Z.rem s size) true else mask).
Proof.
  intros Hsize Hd0 Ho [Hlen Hm]. pose proof (zlookup_range _ _ _ Ho) as Hs.
  pose proof (Z.rem_bound_pos s size ltac:(lia) Hsize) as Hr.
  assert (0 ≤ d0 * size + Z.rem s size < zlen mask) as Hcell by (rewrite Hlen; nia).
  split; [destruct (o =? d0); [by rewrite zlen_zinsert|done]|]. intros d v Hd Hv. destruct (Hm d v Hd Hv) as (b & Hb & Hw).
  assert (written order size d0 (s + 1) d v ↔ written order size d0 s d v ∨ d = d0 ∧ o = d0 ∧ Z.rem s size = v) as Hnext.
  { split.
    - intros (s' & Hs' & Hv' & Hlt). destruct (decide (d = d0 ∧ s' = s)) as [[-> ->]|Hne].
      + right. split_and!; [done|congruence|done].
      + left. exists s'. split_and!; [done..|]. destruct Hlt as [?|[? ?]]; [by left|right; split; [done|lia]].
    - intros [(s' & Hs' & Hv' & Hlt)|(-> & -> & Hv')]; [|exists s; split_and!; [done..|lia]].
      exists s'. split_and!; [done..|lia]. }
  setoid_rewrite Hnext. destruct (Z.eqb_spec o d0) as [->|Hne]; [|exists b; split; [done|]; rewrite Hw; tauto].
  destruct (decide (d = d0 ∧ Z.rem s size = v)) as [[-> <-]|Hne].
  - rewrite zlookup_zinsert_eq by done. exists true. tauto.
  - rewrite zlookup_zinsert_ne; [exists b; split; [done|]; rewrite Hw; tauto| |lia].
    intros E. destruct Hne. destruct (cell_inj size 0 d0 d (Z.rem s size) v) as [? ?]; [lia..|done].
Qed.

Lemma fusion_mask_spec order size depth num_p :
  0 ≤ size → 0 ≤ depth → 0 ≤ num_p → zlen order = num_p * size →
  wp (for_up 0 depth (λ d mask,
    for_up 0 (size * num_p) (λ s mask,
      let* o := vget order s in
      if o =? d then vset mask (d * size + Z.rem s size) true else Ok mask) mask)
    (replicate (Z.to_nat (size * depth)) false)) (mask_at order size depth depth 0).
Proof.
  intros Hsize Hdepth Hp Hlen. eapply (wp_for_up (λ d, mask_at order size depth d 0)); [done| | |done].
  - split; [rewrite zlen_replicate; lia|]. intros d v Hd Hv. exists false. split; [apply zlookup_replicate; nia|].
    split; [done|]. intros (s' & Hs' & _ & [?|[_ Hlt]]); [lia|]. apply zlookup_range in Hs'. lia.
  - intros d mask Hd Hm. eapply (wp_for_up (mask_at order size depth d)); [nia|done| |].
    + intros s m Hs Hms. destruct (zlookup_total order s) as [o Ho]; [nia|]. rewrite (vget_ok _ _ _ Ho). cbn [rbind].
      assert (0 < size) as Hpos by nia. pose proof (mask_at_step _ _ _ _ _ _ _ Hpos Hd Ho Hms) as Hstep.
      pose proof (Z.rem_bound_pos s size ltac:(lia) Hpos). destruct Hms as [Hml _].
      destruct (o =? d); [|done]. rewrite vset_ok by (rewrite Hml; nia). done.
    + intros m [Hml Hms]. split; [done|]. intros d' v Hd' Hv. destruct (Hms d' v Hd' Hv) as (b & Hb & Hw).
      exists b. split; [done|]. rewrite Hw. split; intros (s' & Hs' & Hv' & Hlt); exists s'; (split; [done|]); (split; [done|]); [lia|].
      apply zlookup_range in Hs'. destruct Hlt as [Hlt|[_ Hlt]]; [|lia]. destruct (decide (d' < d)); [by left|right; lia].
Qed.

(** On such a graph [fusion_mask_csr] returns a mask in which row [d] marks
    node [v] exactly if the order of [gen_fusion_vertex_order] evaluates [v] at
    step [d] for some layer. *)
Theorem fusion_mask_csr_correct vlist elist vc rc num_p (rank : Z → nat) fuel :
  csr_okb vlist elist (vc + rc) = true → 0 ≤ vc → 0 ≤ rc → 0 ≤ num_p → Forall (λ d, 0 ≤ d < vc + rc) elist →
  vlist !z 0 = Some 0 → vlist !z (vc + rc) = Some (zlen elist) →
  (∀ u v, vc ≤ u < vc + rc → vc ≤ v → v ∈ csr_row vlist elist u → (rank u < rank v)%nat) →
  num_p * (vc + rc) < Z.of_nat fuel →
  wp (fusion_mask_csr fuel vlist elist vc rc num_p) (λ '(mask, depth), ∃ order,
    gen_fusion_vertex_order fuel vlist elist vc rc num_p = Ok (order, depth) ∧ zlen mask = (vc + rc) * depth ∧
    ∀ d v, 0 ≤ d < depth → 0 ≤ v < vc + rc → ∃ b, mask !z (d * (vc + rc) + v) = Some b ∧
      (b = true ↔ ∃ p, 0 ≤ p < num_p ∧ order !z (p * (vc + rc) + v) = Some d)).
Proof.
  intros Hcsr Hvc Hrc Hnp Hel H0 Hn Hrank Hfuel.
  destruct (wp_inv _ _ (gen_fusion_vertex_order_spec _ _ _ _ _ Hcsr Hvc Hrc Hnp Hel H0 Hn rank fuel Hrank Hfuel))
    as ([order depth] & Hord & Hdepth & Hsch).
  unfold fusion_mask_csr. rewrite Hord. cbn [rbind]. apply wp_bind.
  eapply wp_mono; [apply fusion_mask_spec; [lia|done|done|by destruct Hsch]|]. intros mask [Hlen Hm]. cbn [wp].
  exists order. split_and!; [done..|]. intros d v Hd Hv. destruct (Hm d v Hd Hv) as (b & Hb & Hw). exists b. split; [done|]. rewrite Hw.
  pose proof (sch_len _ _ _ _ _ _ _ Hsch) as Hl. split.
  - intros (s & Hs & Hr & _). pose proof (zlookup_range _ _ _ Hs) as Hsr. exists (Z.quot s (vc + rc)).
    pose proof (Z.quot_rem' s (vc + rc)) as Hq. rewrite Hr in Hq. pose proof (Z.quot_pos s (vc + rc) ltac:(lia) ltac:(lia)).
    split; [nia|]. rewrite <-Hs. f_equal. lia.
  - intros (p & Hp & Ho). exists (p * (vc + rc) + v). split_and!; [done| |by left; lia].
    rewrite Z.add_comm. rewrite Z.rem_add by nia. apply Z.rem_small. lia.
Qed.

Lemma fusion_mask_csr_correct_witness :
  wp (fusion_mask_csr 9 [0; 2; 4; 6; 8] [3; 1; 0; 3; 0; 1; 2; 1] 2 2 2) (λ '(mask, depth), ∃ order,
    gen_fusion_vertex_order 9 [0; 2; 4; 6; 8] [3; 1; 0; 3; 0; 1; 2; 1] 2 2 2 = Ok (order, depth) ∧ zlen mask = (2 + 2) * depth ∧
    ∀ d v, 0 ≤ d < depth → 0 ≤ v < 2 + 2 → ∃ b, mask !z (d * (2 + 2) + v) = Some b ∧
      (b = true ↔ ∃ p, 0 ≤ p < 2 ∧ order !z (p * (2 + 2) + v) = Some d)).
Proof.
  apply (fusion_mask_csr_correct _ _ _ _ _ (λ v, if v =? 3 then 0%nat else 1%nat)); try done; [repeat constructor; done|].
  intros u v Hu Hv Huv. assert (u = 2 ∨ u = 3) as [-> | ->] by lia; vm_compute in Huv.
  - apply list_elem_of_In in Huv. simpl in Huv. lia.
  - apply list_elem_of_In in Huv. simpl in Huv. assert (v = 2) as -> by lia. vm_compute. lia.
Defined.

(** ** Vertices *)

(** The inputs of a vertex are only counted, and an input may be counted
    twice: below, vertex 1 has the two inputs 0 and, through the rule 4, rule 5.
    It is evaluated for layer 1 at step 2, in which rule 5 is evaluated for layer
    0 only, so before that input has arrived; the two inputs counted by then are
    the two evaluations of vertex 0. *)
Example fusion_vertex_early :
  ∃ vlist elist order depth,
    gen_fusion_vertex_order 13 vlist elist 4 2 2 = Ok (order, depth) ∧ csr_okb vlist elist 6 = true ∧
    (∀ u, u ∈ [0; 5] ↔ 0 ≤ u < 6 ∧ 1 ∈ csr_row vlist elist u) ∧
    level 4 2 order 0 5 = 2 ∧ level 4 2 order 1 1 = 2.
Proof.
  exists [0; 1; 1; 2; 3; 4; 5], [1; 4; 4; 5; 1], [0; 0; 0; 0; 1; 2; 1; 2; 2; 2; 3; 4], 5.
  split_and!; [by vm_compute..| |by vm_compute|by vm_compute]. intros u. rewrite !elem_of_cons. split.
  - intros [->|[->|?%not_elem_of_nil]]; [split; [lia|vm_compute; constructor].. |done].
  - intros [Hu Hin]. assert (u = 0 ∨ u = 1 ∨ u = 2 ∨ u = 3 ∨ u = 4 ∨ u = 5) as [->|[->|[->|[->|[->| ->]]]]] by lia; try tauto;
      vm_compute in Hin; apply list_elem_of_In in Hin; simpl in Hin; lia.
Qed.
