(* ===== verification/GraphIO.v ===== *)
(** * Graph files

    [graphIO.h].  A file is its text, read and written with the stream operators of
    [TextIO].  A file that cannot be opened only prints a message: [read_from_file] then
    works on a stream that fails, so [vertex_cnt] keeps its initial content
    [vertex_cnt0]. *)

From Stdlib Require Import Ascii.
From S2P Require Import Prelude Csr TextIO.

(** ** Operations *)

(** A number [>= vertex_cnt] ends a row. *)
Definition read_token (vertex_cnt : Z) (st : list Z * list Z * Z) (tmp : Z) : list Z * list Z * Z :=
  let '(back_vlist, back_elist, esize) := st in
  if vertex_cnt <=? tmp then (back_vlist ++ [esize], back_elist, esize)
  else (back_vlist, back_elist ++ [tmp], esize + 1).

(** [back_vlist.size() < vertex_cnt] compares as [size_t]. *)
Definition pad_vlist (fuel : nat) (vertex_cnt esize : Z) (back_vlist : list Z) : res (list Z) :=
  while fuel (λ back_vlist, Ok (zlen back_vlist <? u64 vertex_cnt))
    (λ back_vlist, Ok (back_vlist ++ [esize])) back_vlist.

Definition read_graph (fuel : nat) (vertex_cnt : Z) (tokens : list Z) : res (list Z * list Z) :=
  let '(back_vlist, back_elist, esize) := foldl (read_token vertex_cnt) ([0], [], 0) tokens in
  let* back_vlist := pad_vlist fuel vertex_cnt esize back_vlist in
  Ok (back_vlist, back_elist).

Definition read_from_file (fuel : nat) (vertex_cnt0 edge_cnt0 : Z) (file : option text) : res (list Z * list Z) :=
  let infile := match file with Some s => Stream s true | None => Stream [] false end in
  let '(infile, vertex_cnt) := extract int infile vertex_cnt0 in
  let '(infile, _) := extract int infile edge_cnt0 in
  read_graph fuel vertex_cnt (read_all (S (length (rest infile))) int infile 0).

(** The text written, or [None] when the file cannot be opened.  Indices and
    sizes are compared as [size_t]. *)
Definition output (good : bool) (vlist elist : list Z) (vertex_cnt rule_cnt : Z) : res (option text) :=
  if negb good then Ok None else
  let outfile := show vertex_cnt ++ [space] ++ show rule_cnt ++ [newline] in
  let* outfile :=
    for_up 0 (u64 (zlen vlist - 1)) (λ vid outfile,
      let* start := vget vlist vid in
      let* end_ := vget vlist (vid + 1) in
      let* outfile := for_up start end_ (λ eid outfile, let* x := vget elist eid in Ok (outfile ++ show x ++ [space])) outfile in
      Ok (outfile ++ [newline])) outfile in
  Ok (Some outfile).

(** ** Reading *)

(** A row in a file: its targets and the number that closes it. *)
Definition row_tokens (r : list Z * Z) : list Z := r.1 ++ [r.2].

Lemma read_targets n r vl el k :
  Forall (λ x, x < n) r → foldl (read_token n) (vl, el, k) r = (vl, el ++ r, k + zlen r).
Proof.
  revert el k. induction r as [|x r IH]; intros el k Hr; simpl.
  - rewrite app_nil_r. f_equal. unfold zlen. simpl. lia.
  - apply Forall_cons in Hr as [Hx Hr]. rewrite (proj2 (Z.leb_gt n x)) by done. rewrite IH by done.
    rewrite <-app_assoc. f_equal. unfold zlen. simpl. lia.
Qed.

Lemma read_rows n (rows : list (list Z * Z)) :
  Forall (λ r : list Z * Z, Forall (λ x, x < n) r.1 ∧ n ≤ r.2) rows →
  foldl (read_token n) ([0], [], 0) (concat (row_tokens <$> rows)) =
    (offsets (rows.*1), concat (rows.*1), zlen (concat (rows.*1))).
Proof.
  induction rows as [|[r s] rows IH] using rev_ind; intros Hrows; [done|].
  apply Forall_app in Hrows as [Hrows [[Hr Hs] _]%Forall_cons]. simpl in Hr, Hs.
  rewrite fmap_app, concat_app, foldl_app, IH by done. simpl. unfold row_tokens. simpl.
  rewrite app_nil_r, foldl_app, read_targets by done. simpl. rewrite (proj2 (Z.leb_le n s)) by done.
  rewrite fmap_app. simpl. rewrite offsets_snoc, !concat_app. simpl. rewrite app_nil_r, zlen_app. done.
Qed.

Lemma pad_vlist_ok fuel n esize vl :
  0 ≤ n < 2 ^ 64 → n < Z.of_nat fuel → 
  pad_vlist fuel n esize vl = Ok (vl ++ replicate (Z.to_nat (n - zlen vl)) esize).
Proof.
  intros Hn Hf. unfold pad_vlist. apply wp_eq.
  assert (u64 n = n) as Hu by (by apply wrapu_small). rewrite Hu.
  apply (wp_while (λ l, l ++ replicate (Z.to_nat (n - zlen l)) esize = vl ++ replicate (Z.to_nat (n - zlen vl)) esize)
    (λ l, Z.to_nat (n - zlen l))); [done|pose proof (zlen_nonneg vl); lia|].
  intros l Hl. cbn [wp]. destruct (Z.ltb_spec (zlen l) n).
  - split; [|rewrite zlen_app; unfold zlen at 2; simpl; lia]. rewrite <-Hl, <-app_assoc. f_equal.
    rewrite zlen_app. change (zlen [esize]) with 1. replace (Z.to_nat (n - zlen l)) with (S (Z.to_nat (n - (zlen l + 1)))) by lia. done.
  - rewrite <-Hl. replace (Z.to_nat (n - zlen l)) with 0%nat by lia. simpl. by rewrite app_nil_r.
Qed.

Lemma read_graph_rows fuel n (rows : list (list Z * Z)) tail :
  0 ≤ n < 2 ^ 31 → n < Z.of_nat fuel →
  Forall (λ r : list Z * Z, Forall (λ x, x < n) r.1 ∧ n ≤ r.2) rows → Forall (λ x, x < n) tail →
  read_graph fuel n (concat (row_tokens <$> rows) ++ tail) =
    Ok (offsets (rows.*1) ++ replicate (Z.to_nat (n - (zlen rows + 1))) (zlen (concat (rows.*1) ++ tail)),
        concat (rows.*1) ++ tail).
Proof.
  intros Hn Hf Hrows Htail. unfold read_graph. rewrite foldl_app, read_rows, read_targets by done.
  rewrite pad_vlist_ok by lia. cbn [rbind]. unfold offsets. rewrite zlen_offsets_from, zlen_app, zlen_fmap. done.
Qed.

Abbreviation is_int := (λ z, INT_MIN ≤ z ≤ INT_MAX).

(** C34: reading a file with the header [n m], the rows [rows] each closed by a
    number [>= n], and a last row [tail] that is not closed, as numbers with any white
    space between them: the targets are read in order, and the offsets are those of the
    closed rows, filled up with the number of edges to [n] entries.  So the [n + 1]
    offsets of [n] rows come out only if every row is closed. *)
Theorem read_from_file_correct fuel v0 e0 n m (rows : list (list Z * Z)) tail sp1 sp2 sp3 l :
  0 ≤ n < 2 ^ 31 → n < Z.of_nat fuel → is_int m →
  Forall (λ r : list Z * Z, Forall (λ x, x < n) r.1 ∧ n ≤ r.2) rows → Forall (λ x, x < n) tail →
  l.*1 = concat (row_tokens <$> rows) ++ tail → Forall is_int l.*1 → separated l →
  Forall (λ c, is_space c = true) sp1 → sp2 ≠ [] → Forall (λ c, is_space c = true) sp2 → sp3 ≠ [] → Forall (λ c, is_space c = true) sp3 →
  read_from_file fuel v0 e0 (Some (sp1 ++ show n ++ sp2 ++ show m ++ sp3 ++ numbers_text l)) =
    Ok (offsets (rows.*1) ++ replicate (Z.to_nat (n - (zlen rows + 1))) (zlen (concat (rows.*1) ++ tail)),
        concat (rows.*1) ++ tail).
Proof.
  intros Hn Hf Hm Hrows Htail Hl Hint Hsep Hs1 Hne2 Hs2 Hne3 Hs3. unfold read_from_file.
  assert (∀ sp s, sp ≠ [] → Forall (λ c, is_space c = true) sp → ends_number (sp ++ s)) as Hend.
  { intros [|c sp] s ? Hsp; [done|]. apply Forall_cons in Hsp as [? _]. by apply space_ends. }
  rewrite extract_show by (first [done|by apply Hend|cbv [type_min type_max int signed width]; lia]).
  rewrite extract_show by (first [done|by apply Hend]). cbn [rest].
  rewrite read_all_text, Hl by (first [done|rewrite length_app; pose proof (numbers_text_length l); lia]). by apply read_graph_rows.
Qed.

Lemma read_from_file_correct_witness :
  read_from_file 4 7 7 (Some ([newline] ++ show 3 ++ [space] ++ show 9 ++ [newline] ++
      numbers_text [(1, [space]); (2, [space]); (3, [newline]); (4, [newline]); (0, [])])) =
    Ok (offsets ([([1; 2], 3); ([], 4)].*1) ++ replicate (Z.to_nat (3 - (zlen [([1; 2], 3); ([], 4)] + 1))) (zlen (concat ([([1; 2], 3); ([], 4)].*1) ++ [0])),
        concat ([([1; 2], 3); ([], 4)].*1) ++ [0]).
Proof.
  apply (read_from_file_correct 4 7 7 3 9 [([1; 2], 3); ([], 4)] [0] [newline] [space] [newline]
    [(1, [space]); (2, [space]); (3, [newline]); (4, [newline]); (0, [])]); try done; try lia.
  all: repeat constructor; simpl; try lia; try done; by left.
Defined.

(** ** Writing *)

#[local] Arguments show : simpl never.

Definition row_text (row : list Z) : text := concat ((λ x, show x ++ [space]) <$> row) ++ [newline].
Definition rows_text (rows : list (list Z)) : text := concat (row_text <$> rows).

Lemma for_up_show elist a b out :
  0 ≤ a ≤ b → b ≤ zlen elist →
  for_up a b (λ eid outfile, let* x := vget elist eid in Ok (outfile ++ show x ++ [space])) out =
    Ok (out ++ concat ((λ x, show x ++ [space]) <$> slice elist a b)).
Proof.
  intros Ha Hb. apply wp_eq.
  apply (wp_for_up (λ i o, o = out ++ concat ((λ x, show x ++ [space]) <$> slice elist a i))); [lia| | |done].
  - rewrite slice_nil by lia. cbn. by rewrite app_nil_r.
  - intros i o Hi ->. destruct (zlookup_total elist i) as [x Hx]; [lia|]. rewrite (vget_ok _ _ _ Hx). cbn [rbind wp].
    rewrite (slice_snoc elist a i x), fmap_app, concat_app by (done || lia). cbn. by rewrite app_nil_r, <-app_assoc.
Qed.

(** [output] writes a header line and one line for every row. *)
Lemma output_rows vlist elist n m :
  0 < zlen vlist < 2 ^ 64 → csr_okb vlist elist (zlen vlist - 1) = true →
  output true vlist elist n m = Ok (Some (show n ++ [space] ++ show m ++ [newline] ++ rows_text (csr_rows vlist elist (zlen vlist - 1)))).
Proof.
  intros Hlen Hok. unfold output. cbn [negb].
  assert (u64 (zlen vlist - 1) = zlen vlist - 1) as -> by (apply wrapu_small; lia).
  apply wp_eq, wp_bind.
  eapply (wp_for_up (λ i out, out = show n ++ [space] ++ show m ++ [newline] ++ rows_text (csr_rows vlist elist i))); [lia|by rewrite app_nil_r| |by intros out ->].
  intros i out Hi ->. destruct (csr_okb_spec _ _ _ i Hok Hi) as (a & b & Ha & Hb & ? & ?).
  rewrite (vget_ok _ _ _ Ha), (vget_ok _ _ _ Hb). cbn [rbind]. rewrite for_up_show by lia. cbn [rbind wp].
  rewrite csr_rows_S, (csr_row_slice _ _ _ _ _ Ha Hb) by lia. unfold rows_text. rewrite fmap_app, concat_app. cbn. unfold row_text at 3.
  rewrite app_nil_r. repeat (rewrite <-app_assoc; cbn [app]). done.
Qed.

(** ** Reading what was written *)

Lemma read_all_rows fuel sp rows x :
  Forall (Forall is_int) rows → Forall (λ c, is_space c = true) sp → (length (concat rows) < fuel)%nat →
  read_all fuel int (Stream (sp ++ rows_text rows) true) x = concat rows.
Proof.
  revert fuel sp x. induction rows as [|r rows IH]; intros fuel sp x Hrows Hsp Hf.
  - apply (read_all_text int fuel sp [] x); try done.
  - apply Forall_cons in Hrows as [Hr Hrows]. unfold rows_text. rewrite fmap_cons. cbn [concat]. fold (rows_text rows).
    revert fuel sp x Hsp Hf. induction r as [|z r IHr]; intros fuel sp x Hsp Hf.
    + assert (sp ++ row_text [] ++ rows_text rows = (sp ++ [newline]) ++ rows_text rows) as -> by (by rewrite <-app_assoc).
      apply IH; [done| |done]. apply Forall_app. by split; [|constructor].
    + apply Forall_cons in Hr as [Hz Hr]. destruct fuel as [|fuel]; [simpl in Hf; lia|]. cbn [read_all].
      assert (row_text (z :: r) ++ rows_text rows = show z ++ [space] ++ row_text r ++ rows_text rows) as ->.
      { unfold row_text. cbn. by rewrite <-!app_assoc. }
      rewrite extract_show by (done || by apply space_ends). cbn [good app]. f_equal.
      apply (IHr Hr fuel [space]); [by constructor|]. simpl in *. lia.
Qed.

Lemma rows_text_length rows : (length (concat rows) ≤ length (rows_text rows))%nat.
Proof.
  induction rows as [|r rows IHr]; [done|]. unfold rows_text. rewrite fmap_cons. cbn [concat]. fold (rows_text rows). rewrite !length_app.
  enough (length r ≤ length (row_text r))%nat by lia. unfold row_text. rewrite length_app. clear. induction r as [|x r IH]; [simpl; lia|].
  rewrite fmap_cons. cbn [concat length]. rewrite !length_app. cbn [length] in *. lia.
Qed.

(** The numbers in a file, in order; line ends are lost. *)
Lemma read_output_tokens fuel v0 e0 n m rows :
  is_int n → is_int m → Forall (Forall is_int) rows →
  read_from_file fuel v0 e0 (Some (show n ++ [space] ++ show m ++ [newline] ++ rows_text rows)) = read_graph fuel n (concat rows).
Proof.
  intros Hn Hm Hrows. unfold read_from_file.
  assert (extract int (Stream (show n ++ [space] ++ show m ++ [newline] ++ rows_text rows) true) v0 =
    (Stream ([space] ++ show m ++ [newline] ++ rows_text rows) true, n)) as -> by (apply (extract_show int []); done).
  rewrite extract_show by (first [done|by apply space_ends|by constructor]). cbn [rest].
  rewrite (read_all_rows _ [newline]); [done|done|by constructor|]. pose proof (rows_text_length rows). simpl. lia.
Qed.

(** Numbers [>= n] close rows. *)
Lemma split_closed n (l : list Z) : ∃ (rows : list (list Z * Z)) tail,
  l = concat (row_tokens <$> rows) ++ tail ∧
  Forall (λ r : list Z * Z, Forall (λ x, x < n) r.1 ∧ n ≤ r.2) rows ∧ Forall (λ x, x < n) tail.
Proof.
  induction l as [|x l (rows & tail & -> & Hrows & Htail)] using rev_ind; [by exists [], []|]. destruct (decide (x < n)).
  - exists rows, (tail ++ [x]). rewrite app_assoc. split_and!; [done..|]. apply Forall_app. split; [done|by repeat constructor].
  - exists (rows ++ [(tail, x)]), []. rewrite fmap_app, concat_app. cbn. rewrite !app_nil_r, <-app_assoc. split_and!; [done| |done].
    apply Forall_app. split; [done|]. repeat constructor; [done|cbn; lia].
Qed.

(** Reading gives back the targets and the offsets only for a graph without vertices. *)
Lemma read_graph_changes n (vlist elist : list Z) (rows : list (list Z * Z)) tail :
  1 ≤ n → n + 1 ≤ zlen vlist → elist = concat (row_tokens <$> rows) ++ tail →
  (offsets (rows.*1) ++ replicate (Z.to_nat (n - (zlen rows + 1))) (zlen (concat (rows.*1) ++ tail)), concat (rows.*1) ++ tail) ≠ (vlist, elist).
Proof.
  intros Hn Hlen -> Heq. injection Heq as Hv He. destruct rows as [|[r x] rows].
  - apply (f_equal zlen) in Hv. rewrite zlen_app, zlen_replicate in Hv. change (zlen (offsets _)) with 1 in Hv. change (zlen []) with 0 in Hv. lia.
  - apply (f_equal length) in He. rewrite !length_app in He.
    assert (∀ l : list (list Z * Z), length (concat (l.*1)) + length l = length (concat (row_tokens <$> l)))%nat as Hlt.
    { clear. induction l as [|[r x] l IH]; [done|]. rewrite !fmap_cons. cbn [concat]. rewrite !length_app, <-IH. unfold row_tokens. rewrite length_app. cbn. lia. }
    pose proof (Hlt ((r, x) :: rows)) as Hx. cbn [length] in Hx. lia.
Qed.

(** C39: a file that [output] wrote is not read back by [read_from_file], for any CSR graph
    with vertices, with or without rules.  [output] ends a row with a line end, which [>>]
    skips; [read_from_file] ends one at a number [>= n], which the rule numbers of a
    compressed graph are.  So the edge list [elist] is cut at its rule numbers: the parts
    [rows] before them become the rows of the first vertices, the rule numbers are lost,
    [tail] follows, and the offsets are filled up to [n] entries.  The result is never the
    graph that was written. *)
Theorem output_read_back fuel v0 e0 vlist elist n m :
  1 ≤ n < 2 ^ 31 → n < Z.of_nat fuel → is_int m → n + 1 ≤ zlen vlist < 2 ^ 64 →
  csr_okb vlist elist (zlen vlist - 1) = true → vlist !z 0 = Some 0 → vlist !z (zlen vlist - 1) = Some (zlen elist) → Forall is_int elist →
  ∃ file rows tail, output true vlist elist n m = Ok (Some file) ∧
    elist = concat (row_tokens <$> rows) ++ tail ∧
    Forall (λ r : list Z * Z, Forall (λ x, x < n) r.1 ∧ n ≤ r.2) rows ∧ Forall (λ x, x < n) tail ∧
    read_from_file fuel v0 e0 (Some file) =
      Ok (offsets (rows.*1) ++ replicate (Z.to_nat (n - (zlen rows + 1))) (zlen (concat (rows.*1) ++ tail)), concat (rows.*1) ++ tail) ∧
    read_from_file fuel v0 e0 (Some file) ≠ Ok (vlist, elist).
Proof.
  intros Hn Hf Hm Hlen Hok H0 Hlast Hel. destruct (split_closed n elist) as (rows & tail & Hsplit & Hrows & Htail).
  assert (concat (csr_rows vlist elist (zlen vlist - 1)) = elist) as Hc.
  { rewrite (concat_csr_rows vlist elist _ Hok ltac:(lia) H0 (zlen elist) Hlast). apply slice_full. }
  assert (Forall (Forall is_int) (csr_rows vlist elist (zlen vlist - 1))) as Hint.
  { apply Forall_forall. intros r Hr. apply Forall_forall. intros x Hx. rewrite Forall_forall in Hel. apply Hel. rewrite <-Hc. apply elem_of_concat. by exists r. }
  eexists _, rows, tail. split; [apply output_rows; (done || lia)|]. split_and!; [done..| |].
  all: rewrite read_output_tokens, Hc, Hsplit, read_graph_rows by (done || unfold INT_MIN, INT_MAX; lia).
  - done.
  - intros [= Hbad1 Hbad2]. apply (read_graph_changes n vlist (concat (row_tokens <$> rows) ++ tail) rows tail); [lia|lia|done|congruence].
Qed.

(** A compressed graph: two vertices that use rule 2. *)
Lemma output_read_back_witness :
  ∃ file rows tail, output true [0; 1; 3; 5] [2; 2; 0; 0; 1] 2 1 = Ok (Some file) ∧
    [2; 2; 0; 0; 1] = concat (row_tokens <$> rows) ++ tail ∧
    Forall (λ r : list Z * Z, Forall (λ x, x < 2) r.1 ∧ 2 ≤ r.2) rows ∧ Forall (λ x, x < 2) tail ∧
    read_from_file 10 7 7 (Some file) =
      Ok (offsets (rows.*1) ++ replicate (Z.to_nat (2 - (zlen rows + 1))) (zlen (concat (rows.*1) ++ tail)), concat (rows.*1) ++ tail) ∧
    read_from_file 10 7 7 (Some file) ≠ Ok ([0; 1; 3; 5], [2; 2; 0; 0; 1]).
Proof. apply output_read_back; try done; try (unfold INT_MIN, INT_MAX; lia). all: by repeat constructor. Defined.
