(* ===== verification/Reorder.v ===== *)
(** * Renumbering the nodes of a compressed graph

    [bfs_reorder.py]: after rule compression the vertices and the rules are numbered in
    the order in which a search reaches them, and the graph is written with the new
    numbers.  The result is the same graph under a one-to-one renaming.  The model starts
    at line 15; before it the script prints the largest target, and stops there for a
    graph without edges. *)

From S2P Require Import Prelude Csr.

(** ** Operations *)

(** Elements of a numpy array: negative indices count from the end. *)
Definition np_index {A} (l : list A) (i : Z) : Z := if i <? 0 then zlen l + i else i.
Definition np_get {A} (l : list A) (i : Z) : res A := vget l (np_index l i).
Definition np_set {A} (l : list A) (i : Z) (x : A) : res (list A) := vset l (np_index l i) x.

(** The global variables of the script; the head of [bfs_queue] is its last element,
    the one that [pop] takes. *)
Record search := Search {
  bfs_queue : list Z;
  visited : list bool;
  new_id : Z;
  new_vertex_id : list Z;
  reverse_id : list Z
}.

Definition visit_neighbor (neighbor : Z) (s : search) : res search :=
  let* b := np_get (visited s) neighbor in
  if b : bool then Ok s else
  let* visited := np_set (visited s) neighbor true in
  Ok (Search (neighbor :: bfs_queue s) visited (new_id s) (new_vertex_id s) (reverse_id s)).

Definition bfs_step (vlist elist : list Z) (s : search) : res search :=
  match bfs_queue s with
  | [] => Ok s
  | curr_node :: queue =>
      let* new_vertex_id := np_set (new_vertex_id s) (new_id s) curr_node in
      let* reverse_id := np_set (reverse_id s) curr_node (new_id s) in
      let s := Search queue (visited s) (new_id s + 1) new_vertex_id reverse_id in
      let* start := np_get vlist curr_node in
      let* end_ := np_get vlist (curr_node + 1) in
      for_up start end_ (λ i s, let* neighbor := np_get elist i in visit_neighbor neighbor s) s
  end.

Definition bfs (fuel : nat) (vlist elist : list Z) (s : search) : res search :=
  while fuel (λ s, Ok (match bfs_queue s with [] => false | _ => true end)) (bfs_step vlist elist) s.

Definition search_all (fuel : nat) (vlist elist : list Z) : res search :=
  let n := zlen vlist in
  let zeros {A} (x : A) := replicate (Z.to_nat (n - 1)) x in
  for_up 0 (n - 1) (λ i s,
    let* b := np_get (visited s) i in
    if b : bool then Ok s else
    let* visited := np_set (visited s) i true in
    bfs fuel vlist elist (Search [i] visited (new_id s) (new_vertex_id s) (reverse_id s)))
    (Search [] (zeros false) 0 (zeros 0) (zeros 0)).

(** The lines of the two files. *)
Definition write_row (vlist elist : list Z) (s : search) (i : Z) (out : list Z * list Z * Z) : res (list Z * list Z * Z) :=
  let '(f1, f2, count) := out in
  let* v := np_get (new_vertex_id s) i in
  let* end_pos := if zlen vlist <=? v + 1 then Ok (zlen elist) else np_get vlist (v + 1) in
  let* start := np_get vlist v in
  let* '(f2, count) := for_up start end_pos (λ j '(f2, count),
    let* e := np_get elist j in
    let* x := np_get (reverse_id s) e in
    Ok (f2 ++ [x], count + 1)) (f2, count) in
  Ok (f1 ++ [count], f2, count).

Definition reorder (fuel : nat) (vlist elist : list Z) : res (list Z * list Z * search) :=
  let* s := search_all fuel vlist elist in
  let* '(f1, f2, _) := for_up 0 (zlen vlist - 1) (write_row vlist elist s) ([0], [], 0) in
  Ok (f1, f2, s).

(** ** The search *)

Lemma np_get_ok {A} (l : list A) i x : l !z i = Some x → np_get l i = Ok x.
Proof. intros Hx. pose proof (zlookup_range _ _ _ Hx). unfold np_get, np_index. destruct (Z.ltb_spec i 0); [lia|]. by apply vget_ok. Qed.

Lemma np_set_ok {A} (l : list A) i x : 0 ≤ i < zlen l → np_set l i x = Ok (zinsert l i x).
Proof. intros Hi. unfold np_set, np_index. destruct (Z.ltb_spec i 0); [lia|]. by apply vset_ok. Qed.

Section search.
Context (g : list (list Z)) (Hg : Forall (Forall (λ x, 0 ≤ x < zlen g)) g).
Local Abbreviation N := (zlen g).

(** [ord] lists the nodes that have a number, in order; the marked nodes are those and
    the ones in the queue. *)
Record searching (ord : list Z) (s : search) : Prop := {
  se_marks : zlen (visited s) = N;
  se_new : zlen (new_vertex_id s) = N;
  se_rev : zlen (reverse_id s) = N;
  se_count : new_id s = zlen ord;
  se_ids : ∀ j v, ord !z j = Some v → new_vertex_id s !z j = Some v ∧ reverse_id s !z v = Some j;
  se_distinct : NoDup (ord ++ bfs_queue s);
  se_range : ∀ x, x ∈ ord ++ bfs_queue s → 0 ≤ x < N;
  se_visited : ∀ x, visited s !z x = Some true ↔ x ∈ ord ++ bfs_queue s
}.

Lemma visited_some ord s x : searching ord s → 0 ≤ x < N → visited s !z x = Some (bool_decide (x ∈ ord ++ bfs_queue s)).
Proof using.
  intros Hs Hx. destruct (zlookup_total (visited s) x) as [b Hb]; [by rewrite (se_marks _ _ Hs)|]. rewrite Hb. f_equal. pose proof (se_visited _ _ Hs x) as Hv. destruct b; symmetry.
  - apply bool_decide_eq_true. by apply Hv.
  - apply bool_decide_eq_false. intros Hin%Hv. congruence.
Qed.

Lemma mark_ok ord s x : searching ord s → 0 ≤ x < N → x ∉ ord ++ bfs_queue s →
  searching ord (Search (x :: bfs_queue s) (zinsert (visited s) x true) (new_id s) (new_vertex_id s) (reverse_id s)).
Proof using.
  intros [H1 H2 H3 H4 H5 H6 H7 H8] Hx Hno. split; cbn [visited new_vertex_id reverse_id new_id bfs_queue]; rewrite ?zlen_zinsert; try done.
  - rewrite <-Permutation_middle. by apply NoDup_cons.
  - intros y. rewrite <-Permutation_middle, elem_of_cons. intros [->|Hy]; auto.
  - intros y. rewrite <-Permutation_middle, elem_of_cons. destruct (decide (x = y)) as [->|Hne].
    + rewrite zlookup_zinsert_eq by lia. tauto.
    + rewrite zlookup_zinsert_ne, H8 by (done || lia). split; [tauto|]. by intros [->|?].
Qed.

Lemma visit_neighbor_ok ord s x : searching ord s → 0 ≤ x < N → wp (visit_neighbor x s) (λ s', searching ord s' ∧ ∀ y, y ∈ bfs_queue s → y ∈ bfs_queue s').
Proof using.
  intros Hs Hx. unfold visit_neighbor. rewrite (np_get_ok _ _ _ (visited_some ord s x Hs Hx)). cbn [rbind]. case_bool_decide as E; [done|].
  rewrite np_set_ok by (by rewrite (se_marks _ _ Hs)). cbn [rbind wp]. split; [by apply mark_ok|]. intros y. by right.
Qed.

(** There are at most as many numbers as nodes. *)
Lemma searching_count ord s : searching ord s → zlen (ord ++ bfs_queue s) ≤ N.
Proof using. intros Hs. pose proof (NoDup_range _ N (se_distinct _ _ Hs) (se_range _ _ Hs)). pose proof (zlen_nonneg g). lia. Qed.

(** The node taken from the queue gets the next number. *)
Lemma number_ok ord s x q :
  searching ord s → bfs_queue s = x :: q →
  searching (ord ++ [x]) (Search q (visited s) (new_id s + 1) (zinsert (new_vertex_id s) (new_id s) x) (zinsert (reverse_id s) x (new_id s))).
Proof using.
  intros Hs Hq. pose proof (searching_count ord s Hs) as Hc. rewrite Hq, zlen_app, zlen_cons in Hc. pose proof (zlen_nonneg q). pose proof (zlen_nonneg ord).
  destruct Hs as [H1 H2 H3 H4 H5 H6 H7 H8]. rewrite Hq in H6, H7, H8. assert (0 ≤ x < N) as Hx by (apply H7; rewrite elem_of_app, elem_of_cons; tauto).
  split; cbn [visited new_vertex_id reverse_id new_id bfs_queue]; rewrite ?zlen_zinsert, ?zlen_app, <-?app_assoc; try done; [by rewrite H4|].
  intros j v Hj. pose proof (zlookup_range _ _ _ Hj) as Hjr. rewrite zlen_app in Hjr. change (zlen [x]) with 1 in Hjr. rewrite H4. destruct (decide (j = zlen ord)) as [->|Hne].
  - rewrite zlookup_app_r, Z.sub_diag in Hj by lia. injection Hj as <-. split; apply zlookup_zinsert_eq; lia.
  - rewrite zlookup_app_l in Hj by lia. destruct (H5 j v Hj) as [Hn Hr]. split; rewrite zlookup_zinsert_ne; try done; try lia.
    intros ->. apply NoDup_app in H6 as (_ & Hno & _). apply (Hno v); [by eapply zlookup_elem|by left].
Qed.

Lemma bfs_step_ok ord s x q :
  searching ord s → bfs_queue s = x :: q → wp (bfs_step (offsets g) (concat g) s) (λ s', searching (ord ++ [x]) s' ∧ ∀ y, y ∈ q → y ∈ bfs_queue s').
Proof using Hg.
  intros Hs Hq. pose proof (searching_count ord s Hs) as Hc. rewrite Hq, zlen_app, zlen_cons in Hc. pose proof (zlen_nonneg q). pose proof (zlen_nonneg ord).
  assert (0 ≤ x < N) as Hx by (apply (se_range _ _ Hs); rewrite Hq, elem_of_app, elem_of_cons; tauto).
  unfold bfs_step. rewrite Hq, np_set_ok by (rewrite (se_new _ _ Hs), (se_count _ _ Hs); lia). cbn [rbind]. rewrite np_set_ok by (by rewrite (se_rev _ _ Hs)). cbn [rbind].
  destruct (csr_okb_spec _ _ _ x (csr_okb_offsets g) Hx) as (a & b & Ha & Hb & Hab & Hbl). rewrite (np_get_ok _ _ _ Ha), (np_get_ok _ _ _ Hb). cbn [rbind].
  apply (wp_for_up (λ _ s', searching (ord ++ [x]) s' ∧ ∀ y, y ∈ q → y ∈ bfs_queue s')); [lia| | |done].
  - split; [|done]. by apply number_ok.
  - intros i s' Hi [Hs' Hqs]. destruct (zlookup_total (concat g) i ltac:(lia)) as [y Hy]. rewrite (np_get_ok _ _ _ Hy). cbn [rbind]. eapply wp_mono; [apply (visit_neighbor_ok _ _ y Hs')|].
    + pose proof (Forall_concat_rows _ _ Hg) as Hr. rewrite Forall_forall in Hr. apply Hr. by eapply zlookup_elem.
    + intros s'' [Hs'' Hmono]. auto.
Qed.

(** A search numbers the nodes of its queue and ends. *)
Lemma bfs_ok fuel ord s :
  searching ord s → N < Z.of_nat fuel →
  wp (bfs fuel (offsets g) (concat g) s) (λ s', ∃ ord', searching ord' s' ∧ bfs_queue s' = [] ∧ ∀ x, x ∈ ord ++ bfs_queue s → x ∈ ord').
Proof using Hg.
  intros Hs Hf. unfold bfs. apply (wp_while_rel (λ s' m, ∃ ord', searching ord' s' ∧ m = Z.to_nat (N - zlen ord') ∧ ∀ x, x ∈ ord ++ bfs_queue s → x ∈ ord' ++ bfs_queue s') (Z.to_nat (N - zlen ord))).
  - by exists ord.
  - pose proof (zlen_nonneg ord). pose proof (zlen_nonneg g). lia.
  - intros s' m (ord' & Hs' & -> & Hin). cbn [wp]. destruct (bfs_queue s') as [|x q] eqn:Hq; [exists ord'; rewrite app_nil_r in Hin; done|].
    eapply wp_mono; [by apply (bfs_step_ok ord' s' x q)|]. intros s'' [Hs'' Hmono]. pose proof (searching_count _ _ Hs'') as Hc. rewrite !zlen_app in Hc. pose proof (zlen_nonneg (bfs_queue s'')).
    change (zlen [x]) with 1 in Hc. eexists. split; [exists (ord' ++ [x]); split_and!; [done|done|]|rewrite zlen_app; change (zlen [x]) with 1; lia].
    intros y Hy%Hin. rewrite !elem_of_app, elem_of_cons in *. destruct Hy as [?|[?|Hy]]; [tauto|tauto|]. right. by apply Hmono.
Qed.

(** All nodes are numbered. *)
Lemma search_all_ok fuel :
  N < Z.of_nat fuel → wp (search_all fuel (offsets g) (concat g)) (λ s, ∃ ord, searching ord s ∧ ord ≡ₚ seqZ 0 N).
Proof using Hg.
  intros Hf. pose proof (zlen_nonneg g). unfold search_all. assert (zlen (offsets g) - 1 = N) as -> by (unfold offsets; rewrite zlen_offsets_from; lia).
  apply (wp_for_up (λ i s, ∃ ord, searching ord s ∧ bfs_queue s = [] ∧ ∀ x, 0 ≤ x < i → x ∈ ord)); [lia| | |].
  - exists []. split_and!; [|done|lia]. split; cbn [visited new_vertex_id reverse_id new_id bfs_queue app]; rewrite ?zlen_replicate; try (done || lia).
    + intros j v Hj%zlookup_range. change (zlen []) with 0 in Hj. lia.
    + constructor.
    + by intros x ?%not_elem_of_nil.
    + intros x. split; [intros Hx|by intros ?%not_elem_of_nil]. apply zlookup_elem, elem_of_replicate in Hx as [? _]. done.
  - intros i s Hi (ord & Hs & Hq & Hall). rewrite (np_get_ok _ _ _ (visited_some ord s i Hs Hi)). cbn [rbind]. case_bool_decide as E.
    + cbn [wp]. exists ord. split_and!; [done..|]. intros x Hx. rewrite Hq, app_nil_r in E. destruct (decide (x = i)) as [->|]; [done|]. apply Hall. lia.
    + rewrite np_set_ok by (by rewrite (se_marks _ _ Hs)). cbn [rbind]. pose proof (mark_ok ord s i Hs Hi E) as Hm. rewrite Hq in Hm.
      eapply wp_mono; [by apply (bfs_ok fuel ord)|]. cbn [bfs_queue]. intros s' (ord' & Hs' & Hq' & Hin). exists ord'. split_and!; [done..|]. intros x Hx. apply Hin. rewrite elem_of_app.
      destruct (decide (x = i)) as [->|]; [right; by left|]. left. apply Hall. lia.
  - intros s (ord & Hs & Hq & Hall). exists ord. split; [done|]. apply NoDup_Permutation; [|apply NoDup_seqZ|].
    + pose proof (se_distinct _ _ Hs) as Hd. by rewrite Hq, app_nil_r in Hd.
    + intros x. rewrite elem_of_seqZ. split; [|intros ?; apply Hall; lia]. intros Hx. pose proof (se_range _ _ Hs x) as Hr. rewrite Hq, app_nil_r in Hr. specialize (Hr Hx). lia.
Qed.

(** ** The files *)

(** The row that is written for the node with number [i]. *)
Definition new_row (s : search) (i : Z) : list Z :=
  (λ e, default 0 (reverse_id s !z e)) <$> default [] (g !z default 0 (new_vertex_id s !z i)).

Lemma write_row_ok ord s i done_ :
  searching ord s → ord ≡ₚ seqZ 0 N → 0 ≤ i < N →
  write_row (offsets g) (concat g) s i (offsets done_, concat done_, zlen (concat done_)) =
  Ok (offsets (done_ ++ [new_row s i]), concat (done_ ++ [new_row s i]), zlen (concat (done_ ++ [new_row s i]))).
Proof using Hg.
  intros Hs Hord Hi. assert (zlen ord = N) as Hlo by (unfold zlen; rewrite Hord, length_seqZ; unfold zlen; lia). destruct (zlookup_total ord i ltac:(lia)) as [v Hv].
  assert (0 ≤ v < N) as Hvr. { pose proof (zlookup_elem _ _ _ Hv) as Hin. rewrite Hord, elem_of_seqZ in Hin. lia. }
  destruct (se_ids _ _ Hs i v Hv) as [Hnew _]. destruct (zlookup_total g v Hvr) as [row Hrow]. unfold write_row. rewrite (np_get_ok _ _ _ Hnew). cbn [rbind].
  destruct (csr_okb_spec _ _ _ v (csr_okb_offsets g) Hvr) as (a & b & Ha & Hb & Hab & Hbl). destruct (Z.leb_spec (zlen (offsets g)) (v + 1)) as [Hle|_]; [unfold offsets in Hle; rewrite zlen_offsets_from in Hle; lia|].
  rewrite (np_get_ok _ _ _ Hb). cbn [rbind]. rewrite (np_get_ok _ _ _ Ha). cbn [rbind]. assert (slice (concat g) a b = row) as Hsl by (rewrite <-(csr_row_slice (offsets g) (concat g) v a b) by done; by apply csr_row_offsets).
  assert (new_row s i = (λ e, default 0 (reverse_id s !z e)) <$> row) as Hnr by (unfold new_row; rewrite Hnew; cbn [from_option id]; by rewrite Hrow).
  rewrite (proj1 (wp_eq _ (concat done_ ++ new_row s i, zlen (concat done_) + zlen row))).
  - cbn [rbind]. rewrite offsets_snoc, concat_app. cbn [concat]. rewrite app_nil_r, zlen_app, Hnr, zlen_fmap. done.
  - apply (wp_for_up (λ j '(f2, count), f2 = concat done_ ++ ((λ e, default 0 (reverse_id s !z e)) <$> slice (concat g) a j) ∧ count = zlen (concat done_) + (j - a))); [lia| | |].
    + rewrite slice_nil, app_nil_r by lia. split; [done|lia].
    + intros j [f2 count] Hj [-> ->]. destruct (zlookup_total (concat g) j ltac:(lia)) as [e He]. rewrite (np_get_ok _ _ _ He). cbn [rbind].
      destruct (zlookup_total (reverse_id s) e) as [x Hx]; [rewrite (se_rev _ _ Hs); pose proof (Forall_concat_rows _ _ Hg) as Hr; rewrite Forall_forall in Hr; apply Hr; by eapply zlookup_elem|].
      rewrite (np_get_ok _ _ _ Hx). cbn [rbind wp]. rewrite (slice_snoc _ a j e), fmap_app, app_assoc by (done || lia). cbn. rewrite Hx. split; [done|lia].
    + intros [f2 count] [-> ->]. rewrite Hsl, Hnr. f_equal. assert (zlen row = b - a); [|lia]. rewrite <-Hsl. apply zlen_slice; lia.
Qed.
End search.

(** ** Results *)

(** C35: renumbering keeps the graph.  For every graph whose targets are nodes the
    search and the output return; the new numbers are a permutation of the nodes with its inverse,
    and the files hold, row by row and in the same order, the old rows with every
    number replaced by the new one. *)
Theorem reorder_correct fuel g :
  Forall (Forall (λ x, 0 ≤ x < zlen g)) g → zlen g < Z.of_nat fuel →
  ∃ g' s, reorder fuel (offsets g) (concat g) = Ok (offsets g', concat g', s) ∧
    new_vertex_id s ≡ₚ seqZ 0 (zlen g) ∧
    (∀ v, 0 ≤ v < zlen g → ∃ i, reverse_id s !z v = Some i ∧ new_vertex_id s !z i = Some v) ∧
    ∀ i v row, new_vertex_id s !z i = Some v → g !z v = Some row →
      ∃ row', g' !z i = Some row' ∧ Forall2 (λ x' x, reverse_id s !z x = Some x') row' row.
Proof.
  intros Hg Hf. destruct (wp_inv _ _ (search_all_ok g Hg fuel Hf)) as (s & Hsearch & ord & Hs & Hord). pose proof (zlen_nonneg g). exists (new_row g s <$> seqZ 0 (zlen g)), s.
  assert (zlen ord = zlen g) as Hlo by (unfold zlen; rewrite Hord, length_seqZ; unfold zlen; lia).
  assert (new_vertex_id s = ord) as Hnew.
  { apply list_eq. intros j. destruct (ord !! j) as [v|] eqn:E.
    - destruct (se_ids _ _ _ Hs (Z.of_nat j) v) as [Hn _]; [by rewrite zlookup_of_nat|]. by rewrite zlookup_of_nat in Hn.
    - apply lookup_ge_None in E. apply lookup_ge_None. pose proof (se_new _ _ _ Hs). unfold zlen in *. lia. }
  split_and!.
  - unfold reorder. rewrite Hsearch. cbn [rbind]. assert (zlen (offsets g) - 1 = zlen g) as -> by (unfold offsets; rewrite zlen_offsets_from; lia).
    rewrite (proj1 (wp_eq _ (offsets (new_row g s <$> seqZ 0 (zlen g)), concat (new_row g s <$> seqZ 0 (zlen g)), zlen (concat (new_row g s <$> seqZ 0 (zlen g)))))); [done|].
    apply (wp_for_up (λ i out, let d := new_row g s <$> seqZ 0 i in out = (offsets d, concat d, zlen (concat d)))); [lia|done| |done].
    intros i out Hi ->. cbv zeta. rewrite (write_row_ok g Hg ord s i) by done. cbn [wp]. rewrite seqZ_app, fmap_app by lia. done.
  - by rewrite Hnew.
  - intros v Hv. assert (v ∈ ord) as [i Hi]%elem_zlookup by (rewrite Hord, elem_of_seqZ; lia). exists i. destruct (se_ids _ _ _ Hs i v Hi). done.
  - intros i v row Hi Hrow. pose proof (zlookup_range _ _ _ Hi) as Hr. rewrite Hnew in Hr. rewrite zlookup_fmap, zlookup_seqZ by lia. eexists. split; [done|].
    unfold new_row. rewrite Z.add_0_l, Hi. cbn [from_option id]. rewrite Hrow. cbn [from_option id]. apply Forall2_fmap_l, Forall_Forall2_diag, Forall_forall. intros x Hx.
    rewrite Forall_forall in Hg. specialize (Hg row (zlookup_elem _ _ _ Hrow)). rewrite Forall_forall in Hg. destruct (zlookup_total (reverse_id s) x) as [y Hy]; [rewrite (se_rev _ _ _ Hs); by apply Hg|]. unfold compose. cbn beta. by rewrite Hy.
Qed.

(** Four nodes; the search from node 0 takes node 2 before node 1. *)
Definition reorder_sample : list (list Z) := [[1; 2]; [0]; [3; 3]; []].

Lemma reorder_correct_witness :
  ∃ g' s, reorder 5 (offsets reorder_sample) (concat reorder_sample) = Ok (offsets g', concat g', s) ∧
    new_vertex_id s ≡ₚ seqZ 0 4 ∧
    (∀ v, 0 ≤ v < 4 → ∃ i, reverse_id s !z v = Some i ∧ new_vertex_id s !z i = Some v) ∧
    ∀ i v row, new_vertex_id s !z i = Some v → reorder_sample !z v = Some row →
      ∃ row', g' !z i = Some row' ∧ Forall2 (λ x' x, reverse_id s !z x = Some x') row' row.
Proof. apply (reorder_correct 5 reorder_sample); [repeat apply Forall_cons_2; try constructor; by vm_compute|by vm_compute]. Defined.

(** The order is depth first: [pop] takes the node that was added last. *)
Lemma reorder_depth_first :
  match search_all 5 (offsets reorder_sample) (concat reorder_sample) with Ok s => new_vertex_id s = [0; 2; 3; 1] | Err _ => False end.
Proof. by vm_compute. Qed.
