(* ===== verification/Atomic.v ===== *)
(** * Lock-free updates

    [core/atomic.h]: [cas], the loops [write_min] and [write_add] around it, and
    [atomic_append].  Threads interleave; a load of a word and a compare-and-swap are
    one step each.  [T] is an unsigned type of [size] bytes. *)

From stdpp Require Import relations.
From S2P Require Import Prelude.

(** ** Operations *)

(** Result: whether the cell was changed, and the cell. *)
Definition cas (size cell old_val new_val : Z) : res (bool * Z) :=
  if size =? 8 then Ok (if cell =? old_val then (true, new_val) else (false, cell))
  else if size =? 4 then Ok (if cell =? old_val then (true, new_val) else (false, cell))
  else Err AssertFail.

(** A thread in a loop around [cas]: before the load, before the swap, finished. *)
Inductive thread :=
| Load (val : Z)
| Swap (val old_val new_val : Z)
| Done (val : Z) (changed : bool).

(** What the loop does with the value it has loaded: the value to store, or the end of
    the loop. *)
Definition write_min_body (val curr_val : Z) : option Z := if val <? curr_val then Some val else None.
Definition write_add_body (size val old_val : Z) : option Z := Some (wrapu (8 * size) (old_val + val)).

Definition thread_step (size : Z) (body : Z → Z → option Z) (cell : Z) (t : thread) : res (thread * Z) :=
  match t with
  | Load val =>
      Ok (match body val cell with Some new_val => Swap val cell new_val | None => Done val false end, cell)
  | Swap val old_val new_val =>
      let* '(done, cell) := cas size cell old_val new_val in
      Ok (if done : bool then Done val true else Load val, cell)
  | Done val changed => Ok (Done val changed, cell)
  end.

(** Calls that run at the same time on one cell. *)
Definition write_min_step (size : Z) := thread_step size write_min_body.
Definition write_add_step (size : Z) := thread_step size (write_add_body size).

Definition running (t : thread) : bool := match t with Done _ _ => false | _ => true end.
Definition arg (t : thread) : Z := match t with Load v | Swap v _ _ | Done v _ => v end.
Abbreviation config := (Z * list thread)%type.

(** Some running thread makes a step. *)
Inductive cstep (step : Z → thread → res (thread * Z)) : config → config → Prop :=
| cstep_thread i t t' cell cell' ts :
    ts !! i = Some t → running t = true → step cell t = Ok (t', cell') →
    cstep step (cell, ts) (cell', <[i := t']> ts).

Definition finished (s : config) : Prop := Forall (λ t, running t = false) s.2.

(** ** Appending *)

(** A call of [atomic_append] with [data]: before [fetch_add]; before the first test;
    before it takes the lock; with the lock; before the address of [array[idx]] is
    computed; before the store to that address, in buffer [buf]; returned. *)
Inductive append :=
| AFetch (data : Z)
| ATest (data idx : Z)
| AWait (data idx : Z)
| ALocked (data idx : Z)
| AIndex (data idx : Z)
| AStore (data idx buf : Z)
| AReturn (data idx : Z).

#[global] Instance append_eq_dec : EqDecision append.
Proof. solve_decision. Defined.

(** The vector's buffer is the last one of [buffers]; [resize] copies it to a new one. *)
Record vector := Vector { length_ : Z; buffers : list (list Z); mutex : option Z; calls : list append }.

Definition array (s : vector) : list Z := default [] (last (buffers s)).

Definition grow (array : list Z) : list Z :=
  if zlen array <? 1024 then resize 1024 0 array else resize (Z.to_nat (zlen array * 2)) 0 array.

(** Call [i] makes a step.  A step on a returned call, or on one that waits for the
    lock while another call holds it, changes nothing. *)
Definition append_step (i : Z) (s : vector) : res vector :=
  let goto t s := Vector (length_ s) (buffers s) (mutex s) (zinsert (calls s) i t) in
  let* t := vget (calls s) i in
  match t with
  | AFetch data => Ok (goto (ATest data (length_ s)) (Vector (u64 (length_ s + 1)) (buffers s) (mutex s) (calls s)))
  | ATest data idx => Ok (goto (if zlen (array s) <=? idx then AWait data idx else AIndex data idx) s)
  | AWait data idx =>
      match mutex s with
      | None => Ok (goto (ALocked data idx) (Vector (length_ s) (buffers s) (Some i) (calls s)))
      | Some _ => Ok s
      end
  | ALocked data idx =>
      let buffers := if zlen (array s) <=? idx then buffers s ++ [grow (array s)] else buffers s in
      Ok (goto (AIndex data idx) (Vector (length_ s) buffers None (calls s)))
  | AIndex data idx =>
      if idx <? zlen (array s) then Ok (goto (AStore data idx (zlen (buffers s))) s) else Err OutOfBounds
  | AStore data idx buf =>
      if buf =? zlen (buffers s) then
        let* a := vset (array s) idx data in
        Ok (goto (AReturn data idx) (Vector (length_ s) (zinsert (buffers s) (buf - 1) a) (mutex s) (calls s)))
      else Err DataRace
  | AReturn _ _ => Ok s
  end.

Definition append_run (schedule : list Z) (s : vector) : res vector := for_each schedule append_step s.

(** ** Every schedule ends *)

Definition weight (cell : Z) (t : thread) : Z :=
  match t with
  | Load _ => 1
  | Swap _ old _ => if decide (old = cell) then 0 else 2
  | Done _ _ => 0
  end.

Definition sumz (f : thread → Z) (ts : list thread) : Z := foldr (λ t s, f t + s) 0 ts.

Lemma sumz_cons f t ts : sumz f (t :: ts) = f t + sumz f ts.
Proof. done. Qed.

Lemma sumz_insert f ts i t t' : ts !! i = Some t → sumz f (<[i := t']> ts) = sumz f ts - f t + f t'.
Proof.
  revert i. induction ts as [|u ts IH]; intros [|i] Hi; [done|done| |]; [injection Hi as ->; change (<[0%nat:=t']> (t :: ts)) with (t' :: ts); rewrite !sumz_cons; lia|].
  change (<[S i:=t']> (u :: ts)) with (u :: <[i:=t']> ts). rewrite !sumz_cons, (IH i Hi). lia.
Qed.

Lemma sumz_bounds f lo hi ts : (∀ t, lo ≤ f t ≤ hi) → lo * zlen ts ≤ sumz f ts ≤ hi * zlen ts.
Proof. intros Hf. induction ts as [|t ts IH]; [change (lo * 0 ≤ 0 ≤ hi * 0); lia|]. rewrite zlen_cons, sumz_cons. specialize (Hf t). lia. Qed.

Definition pending (t : thread) : Z := if running t then 1 else 0.

Definition measure (s : config) : Z := sumz pending s.2 * (2 * zlen s.2 + 1) + sumz (weight s.1) s.2.

Lemma weight_bounds cell t : 0 ≤ weight cell t ≤ 2.
Proof. destruct t; cbn; try case_decide; lia. Qed.

Lemma pending_bounds t : 0 ≤ pending t ≤ 1.
Proof. unfold pending. destruct (running t); lia. Qed.

Lemma measure_nonneg s : 0 ≤ measure s.
Proof.
  unfold measure. pose proof (zlen_nonneg s.2). pose proof (sumz_bounds _ 0 2 s.2 (weight_bounds s.1)). pose proof (sumz_bounds _ 0 1 s.2 pending_bounds). nia.
Qed.

Section loop.
Context (size : Z) (body : Z → Z → option Z).
Local Abbreviation step := (thread_step size body).

(** The steps of a running thread. *)
Lemma step_inv cell t t' cell' :
  running t = true → step cell t = Ok (t', cell') →
  (∃ v new, t = Load v ∧ body v cell = Some new ∧ t' = Swap v cell new ∧ cell' = cell) ∨
  (∃ v, t = Load v ∧ body v cell = None ∧ t' = Done v false ∧ cell' = cell) ∨
  (∃ v old new, t = Swap v old new ∧ old ≠ cell ∧ t' = Load v ∧ cell' = cell) ∨
  (∃ v new, t = Swap v cell new ∧ t' = Done v true ∧ cell' = new).
Proof using.
  intros Hr Hs. destruct t as [v|v old new|v b]; cbn in *; [|unfold cas in Hs|done].
  - destruct (body v cell) as [new|] eqn:E; injection Hs as <- <-; eauto 10.
  - destruct (_ =? 8); [|destruct (_ =? 4); [|done]]; destruct (Z.eqb_spec cell old) as [->|]; cbn in Hs; injection Hs as <- <-; do 2 right; [right|left|right|left]; eauto 10.
Qed.

Lemma step_arg cell t t' cell' : running t = true → step cell t = Ok (t', cell') → arg t' = arg t.
Proof using. intros Hr Hs. by destruct (step_inv _ _ _ _ Hr Hs) as [(? & ? & -> & _ & -> & _)|[(? & -> & _ & -> & _)|[(? & ? & ? & -> & _ & -> & _)|(? & ? & -> & -> & _)]]]. Qed.

Lemma cstep_measure s s' : cstep step s s' → measure s' < measure s ∧ length s'.2 = length s.2.
Proof using.
  intros [i t t' cell cell' ts Hi Hr Hs]. cbn [fst snd]. rewrite length_insert. split; [|done]. unfold measure. cbn [fst snd]. unfold zlen. rewrite length_insert. fold (zlen ts).
  rewrite (sumz_insert pending _ _ _ _ Hi). pose proof (zlen_nonneg ts). destruct (step_inv _ _ _ _ Hr Hs) as [(v & new & -> & _ & -> & ->)|[(v & -> & _ & -> & ->)|[(v & old & new & -> & Hne & -> & ->)|(v & new & -> & -> & ->)]]].
  1-3: rewrite (sumz_insert _ _ _ _ _ Hi); cbn [weight]; rewrite ?decide_True, ?decide_False by done; unfold pending at 2 3; cbn [running]; nia.
  - pose proof (sumz_bounds _ 0 2 ts (weight_bounds cell)). pose proof (sumz_bounds _ 0 2 (<[i:=Done v true]> ts) (weight_bounds new)) as Hb.
    unfold zlen in Hb at 2. rewrite length_insert in Hb. fold (zlen ts) in Hb. unfold pending at 2 3. cbn [running arg]. nia.
Qed.

(** No schedule is longer than the measure. *)
Lemma csteps_bound k s s' : nsteps (cstep step) k s s' → Z.of_nat k + measure s' ≤ measure s.
Proof using. induction 1 as [|k s1 s2 s3 H1%cstep_measure _ IH]; [lia|]. lia. Qed.

(** As long as a thread runs, it can make a step. *)
Lemma cstep_progress s : size = 4 ∨ size = 8 → (∀ s', ¬ cstep step s s') → finished s.
Proof using.
  intros Hsz Hstuck. destruct s as [cell ts]. apply Forall_lookup_2. intros i t Hi. cbn in Hi. destruct (running t) eqn:Hr; [|done]. exfalso.
  assert (∃ r, step cell t = Ok r) as [[t' cell'] Hs]; [|by eapply Hstuck; econstructor].
  destruct t as [v|v old new|v b]; cbn; [by eexists| |done]. unfold cas. destruct Hsz as [-> | ->]; cbn; destruct (cell =? old); by eexists.
Qed.
End loop.

Definition start (cell : Z) (vals : list Z) : config := (cell, Load <$> vals).

(** Steps keep the arguments, and with them a property of the cell and of each thread. *)
Section invariant.
Context (size : Z) (body : Z → Z → option Z) (P : Z → list thread → Prop).
Local Abbreviation step := (thread_step size body).
Context (Hstep : ∀ cell ts i t t' cell', P cell ts → ts !! i = Some t → running t = true → step cell t = Ok (t', cell') → P cell' (<[i := t']> ts)).

Lemma cstep_invariant cell vals s : P cell (Load <$> vals) → rtc (cstep step) (start cell vals) s → P s.1 s.2 ∧ arg <$> s.2 = vals.
Proof using Hstep.
  intros HP Hr. assert (P (start cell vals).1 (start cell vals).2 ∧ arg <$> (start cell vals).2 = vals) as H0.
  { split; [done|]. cbn. rewrite <-list_fmap_compose. apply list_fmap_id. }
  induction Hr as [s|s1 s2 s3 H12 _ IH]; [done|]. apply IH. destruct H0 as [H1 Ha]. destruct H12 as [i t t' c c' ts Hi Hr Hs]. cbn [fst snd] in *. split; [by eapply Hstep|].
  rewrite list_fmap_insert, Ha, (step_arg _ _ _ _ _ _ Hr Hs). apply list_insert_id. by rewrite <-Ha, list_lookup_fmap, Hi.
Qed.
End invariant.

(** The number of steps of any schedule. *)
Lemma schedule_bound size body cell vals k s :
  nsteps (cstep (thread_step size body)) k (start cell vals) s → Z.of_nat k ≤ 2 * zlen vals * (zlen vals + 1).
Proof.
  intros Hk%csteps_bound. pose proof (measure_nonneg s). unfold measure in Hk at 2. cbn [start fst snd] in Hk. rewrite zlen_fmap in Hk. pose proof (zlen_nonneg vals).
  assert (sumz pending (Load <$> vals) = zlen vals) as Hp. { clear. induction vals as [|v vals IH]; [done|]. rewrite fmap_cons, sumz_cons, zlen_cons, IH. unfold pending. cbn [running]. lia. }
  assert (sumz (weight cell) (Load <$> vals) = zlen vals) as Hw. { clear. induction vals as [|v vals IH]; [done|]. rewrite fmap_cons, sumz_cons, zlen_cons, IH. cbn [weight]. lia. }
  rewrite Hp, Hw in Hk. nia.
Qed.

(** ** Additions *)

Definition added (t : thread) : Z := match t with Done v _ => v | _ => 0 end.

Lemma wrapu_add w a b : wrapu w (wrapu w a + b) = wrapu w (a + b).
Proof. unfold wrapu. apply Zplus_mod_idemp_l. Qed.

(** The cell holds the sum of the calls that have returned. *)
Definition adding (size cell0 cell : Z) (ts : list thread) : Prop :=
  cell = wrapu (8 * size) (cell0 + sumz added ts) ∧
  Forall (λ t, match t with Load _ => True | Swap v old new => new = wrapu (8 * size) (old + v) | Done _ b => b = true end) ts.

Lemma adding_step size cell0 cell ts i t t' cell' :
  adding size cell0 cell ts → ts !! i = Some t → running t = true → write_add_step size cell t = Ok (t', cell') → adding size cell0 cell' (<[i := t']> ts).
Proof.
  intros [Hsum HQ] Hi Hr Hs. unfold adding. rewrite (sumz_insert _ _ _ _ _ Hi). pose proof (Forall_lookup_1 _ _ _ _ HQ Hi) as Ht.
  destruct (step_inv _ _ _ _ _ _ Hr Hs) as [(v & new & -> & Hb & -> & ->)|[(v & _ & Hb & _)|[(v & old & new & -> & _ & -> & ->)|(v & new & -> & -> & ->)]]]; cbn [added] in *; [|done| |].
  - injection Hb as <-. split; [rewrite Hsum at 1; f_equal; lia|by apply Forall_insert].
  - split; [rewrite Hsum at 1; f_equal; lia|by apply Forall_insert].
  - split; [|by apply Forall_insert]. rewrite Ht, Hsum, wrapu_add. f_equal. lia.
Qed.

Lemma finished_added ts : Forall (λ t, running t = false) ts → sumz added ts = foldr Z.add 0 (arg <$> ts).
Proof. induction 1 as [|t ts Ht _ IH]; [done|]. rewrite sumz_cons, IH. by destruct t. Qed.

(** C36: concurrent additions.  Any number of calls of [write_add] on one cell, in any
    interleaving, end after a bounded number of steps; when no step is left every call
    has returned and the cell holds the sum, modulo the width: no update is lost. *)
Theorem write_add_correct size cell vals k s :
  size = 4 ∨ size = 8 → 0 ≤ cell < 2 ^ (8 * size) → nsteps (cstep (write_add_step size)) k (start cell vals) s →
  Z.of_nat k ≤ 2 * zlen vals * (zlen vals + 1) ∧
  ((∀ s', ¬ cstep (write_add_step size) s s') →
    finished s ∧ s.1 = wrapu (8 * size) (cell + foldr Z.add 0 vals) ∧ s.2 = (λ v, Done v true) <$> vals).
Proof.
  intros Hsz Hc Hk. split; [by eapply schedule_bound|]. intros Hstuck. pose proof (cstep_progress _ _ s Hsz Hstuck) as Hfin. split; [done|].
  destruct (cstep_invariant size (write_add_body size) (adding size cell) (adding_step size cell) cell vals s) as [[Hsum HQ] Ha]; [|by eapply rtc_nsteps_2|].
  - split; [|by apply Forall_fmap, Forall_forall]. assert (sumz added (Load <$> vals) = 0) as ->; [|by rewrite Z.add_0_r, wrapu_small]. clear. induction vals as [|v vals IH]; [done|]. by rewrite fmap_cons, sumz_cons, IH.
  - split; [by rewrite Hsum, finished_added, Ha|]. rewrite <-Ha. clear -Hfin HQ. unfold finished in Hfin. induction Hfin as [|t ts Ht _ IH]; [done|]. apply Forall_cons in HQ as [HQt HQ]. rewrite !fmap_cons, <-IH by done.
    destruct t; [done|done|]. by subst.
Qed.

(** ** Minima *)

(** The cell is the least of the first value and of those written so far, and not more
    than the values of the calls that have returned. *)
Definition minimising (cell0 : Z) (vals : list Z) (cell : Z) (ts : list thread) : Prop :=
  cell ≤ cell0 ∧ cell ∈ cell0 :: vals ∧
  Forall (λ t, arg t ∈ vals ∧
    match t with Load _ => True | Swap v old new => new = v ∧ v < old ∧ old ≤ cell0 | Done v b => cell ≤ v ∧ (b = true → v < cell0) end) ts.

Lemma minimising_step size cell0 vals cell ts i t t' cell' :
  minimising cell0 vals cell ts → ts !! i = Some t → running t = true → write_min_step size cell t = Ok (t', cell') → minimising cell0 vals cell' (<[i := t']> ts).
Proof.
  intros (Hle & Hin & HQ) Hi Hr Hs. pose proof (Forall_lookup_1 _ _ _ _ HQ Hi) as [Ha Ht]. unfold minimising.
  destruct (step_inv _ _ _ _ _ _ Hr Hs) as [(v & new & -> & Hb & -> & ->)|[(v & -> & Hb & -> & ->)|[(v & old & new & -> & _ & -> & ->)|(v & new & -> & -> & ->)]]]; cbn [arg] in *.
  - unfold write_min_body in Hb. destruct (Z.ltb_spec v cell); [|done]. injection Hb as <-. split_and!; [done..|]. by apply Forall_insert.
  - unfold write_min_body in Hb. destruct (Z.ltb_spec v cell); [done|]. split_and!; [done..|]. apply Forall_insert; [done|]. by split_and!.
  - split_and!; [done..|]. by apply Forall_insert.
  - destruct Ht as (-> & Hlt & Hold). split_and!; [lia|by right|]. apply Forall_insert; [|split; [done|]; split; lia]. eapply Forall_impl; [exact HQ|]. intros u [Hu Hq]. split; [done|].
    destruct u; try done. destruct Hq. split; [lia|done].
Qed.

Lemma foldr_min_spec cell vals m : m ∈ cell :: vals → m ≤ cell → (∀ v, v ∈ vals → m ≤ v) → foldr Z.min cell vals = m.
Proof.
  intros Hin Hc Hv. assert (foldr Z.min cell vals ≤ m) as H1.
  { clear Hc Hv. apply elem_of_cons in Hin as [->|Hin]; [induction vals; cbn; lia|]. induction vals as [|v vals IH]; [by apply not_elem_of_nil in Hin|]. cbn. apply elem_of_cons in Hin as [->|Hin]; [lia|]. specialize (IH Hin). lia. }
  assert (m ≤ foldr Z.min cell vals); [|lia]. clear -Hc Hv. induction vals as [|v vals IH]; [done|]. cbn. apply Z.min_glb; [apply Hv; by left|]. apply IH. intros x Hx. apply Hv. by right.
Qed.

(** C37: concurrent minima.  Any number of calls of [write_min] on one cell, in any
    interleaving, end after a bounded number of steps; when no step is left every call
    has returned, the cell holds the least of its first value and of all arguments, and
    only calls with a smaller argument than the first value report a change. *)
Theorem write_min_correct size cell vals k s :
  size = 4 ∨ size = 8 → nsteps (cstep (write_min_step size)) k (start cell vals) s →
  Z.of_nat k ≤ 2 * zlen vals * (zlen vals + 1) ∧
  ((∀ s', ¬ cstep (write_min_step size) s s') →
    finished s ∧ s.1 = foldr Z.min cell vals ∧ arg <$> s.2 = vals ∧ ∀ v, Done v true ∈ s.2 → v < cell).
Proof.
  intros Hsz Hk. split; [by eapply schedule_bound|]. intros Hstuck. pose proof (cstep_progress _ _ s Hsz Hstuck) as Hfin. split; [done|].
  destruct (cstep_invariant size write_min_body (minimising cell vals) (minimising_step size cell vals) cell vals s) as [(Hle & Hin & HQ) Ha]; [|by eapply rtc_nsteps_2|].
  - split_and!; [done|by left|]. apply Forall_fmap, Forall_forall. intros v Hv. cbn. done.
  - unfold finished in Hfin. rewrite Forall_forall in Hfin, HQ. split_and!; [|done|].
    + symmetry. apply foldr_min_spec; [done..|]. intros v Hv. rewrite <-Ha in Hv. apply list_elem_of_fmap in Hv as (t & -> & Ht). destruct (HQ t Ht) as [_ Hq]. specialize (Hfin t Ht).
      destruct t; [done|done|]. cbn. lia.
    + intros v Hv. destruct (HQ _ Hv) as [_ [_ Hb]]. auto.
Qed.

(** ** Schedules *)

Fixpoint schedule (step : Z → thread → res (thread * Z)) (is_ : list nat) (s : config) : option config :=
  match is_ with
  | [] => Some s
  | i :: is' =>
      t ← s.2 !! i;
      if running t then
        match step s.1 t with
        | Ok (t', cell') => schedule step is' (cell', <[i := t']> s.2)
        | Err _ => None
        end
      else None
  end.

Lemma schedule_nsteps step is_ s s' : schedule step is_ s = Some s' → nsteps (cstep step) (length is_) s s'.
Proof.
  revert s. induction is_ as [|i is_ IH]; intros [cell ts] Hs; cbn in Hs; [injection Hs as <-; constructor|]. destruct (ts !! i) as [t|] eqn:Hi; [|done]. cbn in Hs.
  destruct (running t) eqn:Hr; [|done]. destruct (step cell t) as [[t' cell']|] eqn:Hst; [|done]. eapply nsteps_l; [by econstructor|]. by apply IH.
Qed.

(** Two additions and the wrap-around; the second thread has to try again. *)
Lemma write_add_correct_witness :
  Z.of_nat 6 ≤ 12 ∧
  ((∀ s', ¬ cstep (write_add_step 4) (5, [Done 1 true; Done 5 true]) s') →
    finished (5, [Done 1 true; Done 5 true]) ∧ 5 = wrapu 32 (2 ^ 32 - 1 + 6) ∧ [Done 1 true; Done 5 true] = (λ v, Done v true) <$> [1; 5]).
Proof.
  apply (write_add_correct 4 (2 ^ 32 - 1) [1; 5] 6 (5, [Done 1 true; Done 5 true])); [by left|by vm_compute|].
  apply (schedule_nsteps (write_add_step 4) [0; 1; 0; 1; 1; 1]%nat). by vm_compute.
Defined.

Lemma write_min_correct_witness :
  Z.of_nat 6 ≤ 24 ∧
  ((∀ s', ¬ cstep (write_min_step 8) (3, [Done 4 false; Done 3 true; Done 9 false]) s') →
    finished (3, [Done 4 false; Done 3 true; Done 9 false]) ∧ 3 = foldr Z.min 7 [4; 3; 9] ∧
    arg <$> [Done 4 false; Done 3 true; Done 9 false] = [4; 3; 9] ∧ ∀ v, Done v true ∈ [Done 4 false; Done 3 true; Done 9 false] → v < 7).
Proof.
  apply (write_min_correct 8 7 [4; 3; 9] 6 (3, [Done 4 false; Done 3 true; Done 9 false])); [by right|].
  apply (schedule_nsteps (write_min_step 8) [0; 1; 1; 0; 0; 2]%nat). by vm_compute.
Defined.

(** ** Appending without growing *)

Definition adata (t : append) : Z :=
  match t with AFetch d | ATest d _ | AWait d _ | ALocked d _ | AIndex d _ | AStore d _ _ | AReturn d _ => d end.

Definition aidx (t : append) : option Z :=
  match t with AFetch _ => None | ATest _ k | AWait _ k | ALocked _ k | AIndex _ k | AStore _ k _ | AReturn _ k => Some k end.

(** How far a call that need not grow the vector is. *)
Definition phase (t : append) : option nat :=
  match t with AFetch _ => Some 0 | ATest _ _ => Some 1 | AIndex _ _ => Some 2 | AStore _ _ buf => if decide (buf = 1%Z) then Some 3 else None | AReturn _ _ => Some 4 | _ => None end%nat.

Definition turns (i : Z) (schedule : list Z) : nat := length (filter (i =.) schedule).

Section room.
Context (n0 : Z) (a : list Z) (ds : list Z).
Context (Hn0 : 0 ≤ n0) (Hroom : n0 + zlen ds ≤ zlen a) (Hmax : zlen a < 2 ^ 64).

(** The indices handed out are different and consecutive; the vector has one buffer,
    with the data of the calls that have returned. *)
Record appending (schedule : list Z) (s : vector) : Prop := {
  ap_buffers : ∃ b, buffers s = [b] ∧ zlen b = zlen a ∧ (∀ k, k < n0 → b !z k = a !z k) ∧ ∀ d k, AReturn d k ∈ calls s → b !z k = Some d;
  ap_data : adata <$> calls s = ds;
  ap_length : length_ s = n0 + zlen (omap aidx (calls s));
  ap_idx : Forall (λ k, n0 ≤ k < length_ s) (omap aidx (calls s));
  ap_distinct : NoDup (omap aidx (calls s));
  ap_phase : ∀ i t, calls s !z i = Some t → phase t = Some (min 4 (turns i schedule))
}.

Lemma calls_split s i t : calls s !z i = Some t → ∃ l1 l2, calls s = l1 ++ t :: l2 ∧ ∀ t', zinsert (calls s) i t' = l1 ++ t' :: l2.
Proof using.
  intros Ht. pose proof (zlookup_range _ _ _ Ht) as Hi. apply zlookup_Some_nat in Ht. exists (take (Z.to_nat i) (calls s)), (drop (S (Z.to_nat i)) (calls s)). split; [by rewrite take_drop_middle|].
  intros t'. unfold zinsert. apply insert_take_drop. unfold zlen in Hi. lia.
Qed.

Lemma turns_snoc i j sched : turns i (sched ++ [j]) = (turns i sched + if decide (i = j) then 1 else 0)%nat.
Proof using. unfold turns. rewrite filter_app, length_app. f_equal. rewrite filter_cons. by case_decide. Qed.

(** The phases after a step of call [i]. *)
Lemma phase_step sched s i t t' :
  (∀ i t, calls s !z i = Some t → phase t = Some (min 4 (turns i sched))) → calls s !z i = Some t →
  phase t' = (λ p, min 4 (S p)) <$> phase t → ∀ j u, zinsert (calls s) i t' !z j = Some u → phase u = Some (min 4 (turns j (sched ++ [i]))).
Proof using.
  intros Hph Ht Ht' j u Hu. rewrite turns_snoc. pose proof (zlookup_range _ _ _ Ht) as Hi. case_decide as E.
  - subst j. rewrite zlookup_zinsert_eq in Hu by done. injection Hu as <-. rewrite Ht', (Hph i t Ht). cbn [fmap option_fmap option_map]. f_equal. lia.
  - rewrite zlookup_zinsert_ne in Hu by (congruence || lia). rewrite (Hph j u Hu). f_equal. lia.
Qed.

Lemma idx_bound s sched : appending sched s → length_ s ≤ zlen a ∧ zlen (omap aidx (calls s)) ≤ zlen ds.
Proof using Hroom.
  intros [_ Hd Hl _ _ _]. assert (zlen (omap aidx (calls s)) ≤ zlen ds); [|lia]. rewrite <-Hd, zlen_fmap. unfold zlen. clear. induction (calls s) as [|t l IH]; [done|]. cbn. destruct (aidx t); cbn; lia.
Qed.

(** A step that keeps the index of its call. *)
Lemma keep_step sched s i t t' b' :
  appending sched s → calls s !z i = Some t → adata t' = adata t → aidx t' = aidx t → phase t' = (λ p, min 4 (S p)) <$> phase t →
  zlen b' = zlen a → (∀ k, k < n0 → b' !z k = a !z k) → (∀ d k, AReturn d k ∈ zinsert (calls s) i t' → b' !z k = Some d) →
  appending (sched ++ [i]) (Vector (length_ s) [b'] (mutex s) (zinsert (calls s) i t')).
Proof using.
  intros [_ Hd Hl Hr Hnd Hph] Ht Hdata Hidx Hp Hb1 Hb2 Hb3. destruct (calls_split s i t Ht) as (l1 & l2 & Hc & Hins). pose proof (phase_step sched s i t t' Hph Ht Hp) as Hph'.
  assert (omap aidx (zinsert (calls s) i t') = omap aidx (calls s)) as Ho by (rewrite Hins, Hc, !omap_app; cbn; by rewrite Hidx).
  split; cbn [buffers calls length_]; rewrite ?Ho; try done; [by exists b'|]. rewrite Hins, fmap_app, fmap_cons, Hdata, <-Hd, Hc, fmap_app, fmap_cons. done.
Qed.

Lemma length_omap (l : list append) : (length (omap aidx l) ≤ length l)%nat.
Proof using. induction l as [|t l IH]; [done|]. cbn. destruct (aidx t); cbn; lia. Qed.

(** A call takes the next index. *)
Lemma fetch_step sched s i d :
  appending sched s → calls s !z i = Some (AFetch d) →
  appending (sched ++ [i]) (Vector (u64 (length_ s + 1)) (buffers s) (mutex s) (zinsert (calls s) i (ATest d (length_ s)))).
Proof using Hn0 Hroom Hmax.
  intros [(b & Hbuf & Hb1 & Hb2 & Hb3) Hd Hl Hr Hnd Hph] Ht. destruct (calls_split s i _ Ht) as (l1 & l2 & Hc & Hins). pose proof (phase_step sched s i _ (ATest d (length_ s)) Hph Ht eq_refl) as Hph'.
  assert (omap aidx (calls s) = omap aidx l1 ++ omap aidx l2) as Ho by (by rewrite Hc, omap_app).
  assert (omap aidx (zinsert (calls s) i (ATest d (length_ s))) = omap aidx l1 ++ length_ s :: omap aidx l2) as Ho' by (by rewrite Hins, omap_app).
  assert (length_ s + 1 ≤ zlen a) as Hlen.
  { rewrite Hl, Ho. rewrite <-Hd, zlen_fmap, Hc in Hroom. pose proof (length_omap l1). pose proof (length_omap l2). unfold zlen in *. rewrite length_app in *. cbn in Hroom. lia. }
  pose proof (zlen_nonneg (omap aidx (calls s))). rewrite wrapu_small by lia. split; cbn [buffers calls length_]; rewrite ?Ho'; try done.
  - exists b. split_and!; [done..|]. intros d' k Hin. apply Hb3. rewrite Hins, elem_of_app, elem_of_cons in Hin. rewrite Hc, elem_of_app, elem_of_cons. destruct Hin as [?|[?|?]]; [tauto|done|tauto].
  - rewrite Hins, fmap_app, fmap_cons, <-Hd, Hc, fmap_app, fmap_cons. done.
  - rewrite Hl, Ho, !zlen_app, zlen_cons. lia.
  - rewrite Ho in Hr. apply Forall_app in Hr as [H1 H2]. apply Forall_app. split; [|constructor; [lia|]]; (eapply Forall_impl; [done|]); cbn; lia.
  - rewrite <-Permutation_middle. apply NoDup_cons. split; [|by rewrite <-Ho]. rewrite <-Ho. intros Hin. rewrite Forall_forall in Hr. apply Hr in Hin. lia.
Qed.

Lemma append_step_ok sched s i : appending sched s → 0 ≤ i < zlen ds → wp (append_step i s) (appending (sched ++ [i])).
Proof using Hn0 Hroom Hmax.
  intros Hs Hi. pose proof Hs as [(b & Hbuf & Hb1 & Hb2 & Hb3) Hd Hl Hr Hnd Hph]. destruct (idx_bound s sched Hs) as [Hla _]. destruct (zlookup_total (calls s) i) as [t Ht]; [by rewrite <-(zlen_fmap adata), Hd|].
  destruct (calls_split s i t Ht) as (l1 & l2 & Hc & Hins). unfold append_step. rewrite (vget_ok _ _ _ Ht). cbn [rbind]. assert (array s = b) as -> by (unfold array; by rewrite Hbuf).
  assert (∀ k, aidx t = Some k → n0 ≤ k < length_ s) as Hk. { intros k E. rewrite Forall_forall in Hr. apply Hr. rewrite Hc, omap_app. cbn. rewrite E. apply elem_of_app. right. by left. }
  assert (∀ t', (∀ d k, t' ≠ AReturn d k) → ∀ d k, AReturn d k ∈ zinsert (calls s) i t' → b !z k = Some d) as Hret.
  { intros t' Hne d k Hin. apply Hb3. rewrite Hins in Hin. rewrite Hc. rewrite !elem_of_app, !elem_of_cons in *. destruct Hin as [?|[E|?]]; [tauto|by destruct (Hne d k)|tauto]. }
  pose proof (Hph i t Ht) as Hpt. destruct t as [d|d k|d k|d k|d k|d k buf|d k]; cbn [wp]; try done; cbn [length_ buffers mutex calls].
  - by apply (fetch_step sched s i d).
  - destruct (Z.leb_spec (zlen b) k); [pose proof (Hk k eq_refl); lia|]. cbn [wp]. rewrite Hbuf. apply (keep_step sched s i (ATest d k)); (done || by apply Hret).
  - destruct (Z.ltb_spec k (zlen b)); [|pose proof (Hk k eq_refl); lia]. cbn [wp]. rewrite Hbuf. apply (keep_step sched s i (AIndex d k)); (done || by apply Hret).
  - rewrite Hbuf. cbn in Hpt. case_decide; [|done]. subst buf. change (zlen [b]) with 1. cbn [Z.eqb Pos.eqb]. pose proof (Hk k eq_refl) as Hkr.
    rewrite (vset_ok b k d) by lia. cbn [rbind wp]. change (zinsert [b] (1 - 1) (zinsert b k d)) with [zinsert b k d].
    apply (keep_step sched s i (AStore d k 1)); try done; [by rewrite zlen_zinsert| |].
    + intros j Hj. rewrite zlookup_zinsert_ne by lia. by apply Hb2.
    + intros d' k' Hin. destruct (decide (AReturn d' k' = AReturn d k)) as [E|Hne]; [injection E as -> ->; apply zlookup_zinsert_eq; lia|].
      assert (AReturn d' k' ∈ l1 ∨ AReturn d' k' ∈ l2) as Hin' by (rewrite Hins, elem_of_app, elem_of_cons in Hin; tauto).
      rewrite zlookup_zinsert_ne; [apply Hb3; rewrite Hc, elem_of_app, elem_of_cons; tauto| |lia]. intros <-. rewrite Hc, omap_app in Hnd. cbn in Hnd. apply NoDup_app in Hnd as (_ & H1 & H2).
      apply NoDup_cons in H2 as [H2 _]. destruct Hin' as [Hin'|Hin']; [apply (H1 k)|apply H2]; [|by left|]; apply list_elem_of_omap; by exists (AReturn d' k).
  - split; try done; [by exists b|]. intros j u Hu. eapply (phase_step sched s i); [done|exact Ht| |by rewrite zinsert_id]. cbn. done.
Qed.
End room.

Lemma append_start n0 a ds : appending n0 a ds [] (Vector n0 [a] None (AFetch <$> ds)).
Proof.
  assert (omap aidx (AFetch <$> ds) = []) as Ho by (induction ds; done). split; cbn [buffers calls length_]; rewrite ?Ho.
  - exists a. split_and!; [done..|]. intros d k (x & ? & _)%list_elem_of_fmap. done.
  - rewrite <-list_fmap_compose. apply list_fmap_id.
  - change (zlen []) with 0. lia.
  - constructor.
  - constructor.
  - intros i t Hi. rewrite zlookup_fmap in Hi. destruct (ds !z i); [|done]. by injection Hi as <-.
Qed.

(** An index belongs to one call. *)
Lemma omap_position l i j t u k : NoDup (omap aidx l) → l !z i = Some t → l !z j = Some u → aidx t = Some k → aidx u = Some k → i = j.
Proof.
  revert i j. induction l as [|x l IH]; intros i j Hnd Hi Hj Ht Hu; [by apply zlookup_range in Hi; change (zlen []) with 0 in Hi; lia|].
  pose proof (zlookup_range _ _ _ Hi). pose proof (zlookup_range _ _ _ Hj). assert (∀ i t, 0 < i → (x :: l) !z i = Some t → aidx t = Some k → k ∈ omap aidx l) as Hin.
  { intros i' t' Hpos Hi' Ht'. rewrite zlookup_cons_pos in Hi' by lia. apply list_elem_of_omap. exists t'. split; [by eapply zlookup_elem|done]. }
  cbn in Hnd. destruct (decide (i = 0)) as [->|], (decide (j = 0)) as [->|]; [done| | |].
  - injection Hi as ->. rewrite Ht in Hnd. apply NoDup_cons in Hnd as [Hno _]. destruct Hno. by apply (Hin j u); [lia|..].
  - injection Hj as ->. rewrite Hu in Hnd. apply NoDup_cons in Hnd as [Hno _]. destruct Hno. by apply (Hin i t); [lia|..].
  - rewrite zlookup_cons_pos in Hi, Hj by lia. assert (i - 1 = j - 1); [|lia]. apply (IH (i - 1) (j - 1)); try done. destruct (aidx x); [|done]. by apply NoDup_cons in Hnd as [_ ?].
Qed.

(** C38: appending to a vector with room.  In every interleaving of calls of
    [atomic_append] whose indices fit the vector there is no error; a call that was
    scheduled four times has returned, at an index of its own that holds its data, and
    the elements that were there before are unchanged. *)
Theorem atomic_append_correct n0 a ds sched :
  0 ≤ n0 → n0 + zlen ds ≤ zlen a → zlen a < 2 ^ 64 → Forall (λ i, 0 ≤ i < zlen ds) sched →
  ∃ s, append_run sched (Vector n0 [a] None (AFetch <$> ds)) = Ok s ∧
    (∀ k, k < n0 → array s !z k = a !z k) ∧
    (∀ i d, ds !z i = Some d → (4 ≤ turns i sched)%nat →
      ∃ k, calls s !z i = Some (AReturn d k) ∧ n0 ≤ k < n0 + zlen ds ∧ array s !z k = Some d) ∧
    ∀ i j d d' k, calls s !z i = Some (AReturn d k) → calls s !z j = Some (AReturn d' k) → i = j.
Proof.
  intros Hn0 Hroom Hmax Hsched. assert (wp (append_run sched (Vector n0 [a] None (AFetch <$> ds))) (appending n0 a ds sched)) as H.
  { unfold append_run. apply (wp_for_each (λ pre s, appending n0 a ds pre s)); [| |done].
    - by apply append_start.
    - intros pre x post s -> Hs. apply append_step_ok; [done..|]. rewrite Forall_app, Forall_cons in Hsched. tauto. }
  apply wp_inv in H as (s & Hrun & Hs). exists s. split; [done|]. pose proof (idx_bound n0 a ds Hroom s sched Hs) as [_ Hcount]. destruct Hs as [(b & Hbuf & Hb1 & Hb2 & Hb3) Hd Hl Hr Hnd Hph].
  assert (array s = b) as -> by (unfold array; by rewrite Hbuf). split_and!; [done| |].
  - intros i d Hi Ht. rewrite <-Hd, zlookup_fmap in Hi. destruct (calls s !z i) as [t|] eqn:E; [|done]. injection Hi as <-. specialize (Hph i t E). rewrite Nat.min_l in Hph by done.
    destruct t as [| | | | |d k buf|d k]; try done; [cbn in Hph; by case_decide|]. exists k. split; [done|]. split; [|by eapply Hb3, zlookup_elem].
    rewrite Forall_forall in Hr. assert (k ∈ omap aidx (calls s)) as Hin by (apply list_elem_of_omap; exists (AReturn d k); split; [by eapply zlookup_elem|done]). specialize (Hr k Hin). lia.
  - intros i j d d' k Hi Hj. by eapply (omap_position _ i j (AReturn d k) (AReturn d' k) k).
Qed.

(** Two calls, the steps interleaved. *)
Lemma atomic_append_correct_witness :
  ∃ s, append_run [1; 0; 0; 1; 1; 0; 1; 0] (Vector 1 [[9; 0; 0]] None (AFetch <$> [5; 6])) = Ok s ∧
    (∀ k, k < 1 → array s !z k = [9; 0; 0] !z k) ∧
    (∀ i d, [5; 6] !z i = Some d → (4 ≤ turns i [1; 0; 0; 1; 1; 0; 1; 0]%Z)%nat →
      ∃ k, calls s !z i = Some (AReturn d k) ∧ 1 ≤ k < 1 + 2 ∧ array s !z k = Some d) ∧
    ∀ i j d d' k, calls s !z i = Some (AReturn d k) → calls s !z j = Some (AReturn d' k) → i = j.
Proof. apply (atomic_append_correct 1 [9; 0; 0] [5; 6]); [lia|by vm_compute..|by vm_compute; repeat constructor]. Defined.

(** Appending to a full vector.  One call has the address of its element when the other
    one moves the vector; its store goes to the old buffer.  Nothing orders the two:
    only the growing is done under the lock. *)
Lemma atomic_append_race : append_run [0; 0; 0; 1; 1; 1; 1; 0] (Vector 0 [[0]] None (AFetch <$> [5; 6])) = Err DataRace.
Proof. by vm_compute. Qed.

(** A vector with fewer than 1024 elements grows to 1024, also when the index of the
    call is larger: here the call that sees index 1024 grows it first. *)
Lemma atomic_append_out_of_bounds :
  append_run ((λ i, Z.of_nat i) <$> seq 0 25 ++ replicate 5 24%nat) (Vector 1000 [replicate 1000 0] None (AFetch <$> replicate 25 7)) = Err OutOfBounds.
Proof. by vm_compute. Qed.
