(* ===== verification/Alloc.v ===== *)
(** * Allocation wrappers and bit lengths

    [compress/basics.cc] and the allocation wrappers of [core/atomic.h].  Memory is a
    finite map from the addresses of live blocks to their contents; address 0 is
    [NULL].  The allocators are not part of the program: where they put a block is a
    parameter. *)

From S2P Require Import Prelude.

(** ** Memory *)

Abbreviation heap := (gmap Z (list Z)).

(** The end of the program with a message. *)
Inductive outcome (A : Type) : Type :=
| Return (a : A)
| Exit (code : Z).
Arguments Return {A} a.
Arguments Exit {A} code.

(** Where an allocator puts [n] bytes: an address that is not in use, or [NULL]; when a
    block is resized it may stay where it is. *)
Record allocator := Allocator {
  place : heap → Z → Z;
  move : heap → Z → Z → Z;
  place_fresh : ∀ h n, place h n = 0 ∨ (place h n ≠ 0 ∧ h !! place h n = None);
  move_fresh : ∀ h p n, move h p n = 0 ∨ move h p n = p ∨ (move h p n ≠ 0 ∧ h !! move h p n = None)
}.

(** New bytes have the value [junk]. *)
Definition malloc (A : allocator) (junk n : Z) (h : heap) : Z * heap :=
  let p := place A h n in
  if p =? 0 then (0, h) else (p, <[p := replicate (Z.to_nat n) junk]> h).

Definition realloc (A : allocator) (junk p n : Z) (h : heap) : Z * heap :=
  let q := move A h p n in
  if q =? 0 then (0, h) else (q, <[q := resize (Z.to_nat n) junk (default [] (h !! p))]> (delete p h)).

Definition free (p : Z) (h : heap) : heap := delete p h.

(** ** Operations *)

Definition myMalloc (A : allocator) (junk n : Z) (h : heap) : outcome (Z * heap) :=
  if n =? 0 then Return (0, h) else
  let '(p, h) := malloc A junk n h in
  if p =? 0 then Exit 1 else Return (p, h).

Definition myRealloc (A : allocator) (junk p n : Z) (h : heap) : outcome (Z * heap) :=
  if n =? 0 then Return (0, free p h) else
  if p =? 0 then myMalloc A junk n h else
  let '(p, h) := realloc A junk p n h in
  if p =? 0 then Exit 1 else Return (p, h).

Definition myTBBMalloc (A : allocator) (junk n : Z) (h : heap) : outcome (Z * heap) :=
  if n =? 0 then Return (0, h) else
  let '(p, h) := malloc A junk n h in
  if p =? 0 then Exit 1 else Return (p, h).

(** The result of [scalable_realloc] is neither tested nor returned. *)
Definition myTBBRealloc (A : allocator) (junk p n : Z) (h : heap) : outcome (Z * heap) :=
  if n =? 0 then Return (0, free p h) else
  if p =? 0 then myTBBMalloc A junk n h else
  let '(new_p, h) := realloc A junk p n h in
  if p =? 0 then Exit 1 else Return (p, h).

Definition blog (fuel : nat) (x : Z) : res Z :=
  let* '(_, l) :=
    while fuel (λ '(x, _), Ok (negb (x =? 0)))
      (λ '(x, l), let* l := int32 (l + 1) in Ok (Z.shiftr x 1, l)) (x, 0) in
  Ok l.

(** ** Results *)

(** A resized block.  When [myRealloc] returns for a block of a heap, the result is
    the address of a block of [n] bytes that starts with the bytes of the old block,
    and every other block is unchanged; otherwise the program ends. *)
Theorem myRealloc_correct A junk p n h old :
  0 < n → p ≠ 0 → h !! p = Some old →
  match myRealloc A junk p n h with
  | Return (q, h') => q ≠ 0 ∧ h' !! q = Some (resize (Z.to_nat n) junk old) ∧
      ∀ r, r ≠ p → r ≠ q → h' !! r = h !! r
  | Exit code => code = 1 ∧ move A h p n = 0
  end.
Proof.
  intros Hn Hp Ho. unfold myRealloc. destruct (Z.eqb_spec n 0); [lia|]. destruct (Z.eqb_spec p 0); [done|]. unfold realloc. rewrite Ho. cbn [default].
  destruct (Z.eqb_spec (move A h p n) 0) as [E|E]; [done|]. destruct (Z.eqb_spec (move A h p n) 0); [done|]. split_and!; [done|by rewrite lookup_insert_eq|].
  intros r Hr Hq. by rewrite lookup_insert_ne, lookup_delete_ne by congruence.
Qed.

(** The wrapper of [atomic.h] returns the address it was given: when the allocator moves
    the block, or has no memory, that is the address of no block, or of the old one. *)
Theorem myTBBRealloc_dangling A junk p n h old :
  0 < n → p ≠ 0 → h !! p = Some old → move A h p n ≠ p →
  ∃ h', myTBBRealloc A junk p n h = Return (p, h') ∧ (h' !! p = None ∨ h' = h).
Proof.
  intros Hn Hp Ho Hm. unfold myTBBRealloc. destruct (Z.eqb_spec n 0); [lia|]. destruct (Z.eqb_spec p 0); [done|]. unfold realloc. rewrite Ho. cbn [default].
  destruct (Z.eqb_spec (move A h p n) 0) as [E|E]; eexists; (split; [done|]); [by right|left]. by rewrite lookup_insert_ne, lookup_delete_eq by congruence.
Qed.

(** An allocator that always takes a new address. *)
Program Definition moving : allocator :=
  {| place h _ := fresh ({[0]} ∪ dom h); move h _ _ := fresh ({[0]} ∪ dom h) |}.
Next Obligation.
  intros h n. right. pose proof (is_fresh ({[0]} ∪ dom h)) as [H0 Hd]%not_elem_of_union. split; [set_solver|by apply not_elem_of_dom].
Qed.
Next Obligation.
  intros h p n. right. right. pose proof (is_fresh ({[0]} ∪ dom h)) as [H0 Hd]%not_elem_of_union. split; [set_solver|by apply not_elem_of_dom].
Qed.

Lemma myRealloc_correct_witness :
  match myRealloc moving 7 5 3 (<[5 := [1; 2]]> (<[6 := [9]]> ∅)) with
  | Return (q, h') => q ≠ 0 ∧ h' !! q = Some (resize (Z.to_nat 3) 7 [1; 2]) ∧
      ∀ r, r ≠ 5 → r ≠ q → h' !! r = (<[5 := [1; 2]]> (<[6 := [9]]> ∅) : heap) !! r
  | Exit code => code = 1 ∧ move moving (<[5 := [1; 2]]> (<[6 := [9]]> ∅)) 5 3 = 0
  end.
Proof. apply (myRealloc_correct moving 7 5 3 (<[5 := [1; 2]]> (<[6 := [9]]> ∅)) [1; 2]); [lia|done|by vm_compute]. Defined.

Lemma myTBBRealloc_dangling_witness :
  ∃ h', myTBBRealloc moving 7 5 3 (<[5 := [1; 2]]> ∅) = Return (5, h') ∧ (h' !! 5 = None ∨ h' = <[5 := [1; 2]]> ∅).
Proof. apply (myTBBRealloc_dangling moving 7 5 3 (<[5 := [1; 2]]> ∅) [1; 2]); [lia|done|by vm_compute|by vm_compute]. Defined.

(** ** Bit lengths *)

Definition bits (x : Z) : Z := if x =? 0 then 0 else Z.log2 x + 1.

Lemma bits_half x : 0 < x → bits (Z.shiftr x 1) = bits x - 1.
Proof.
  intros Hx. unfold bits. destruct (Z.eqb_spec x 0); [lia|]. destruct (Z.eqb_spec (Z.shiftr x 1) 0) as [E|E].
  - assert (x = 1) as ->; [|done]. rewrite Z.shiftr_div_pow2 in E by lia. change (2 ^ 1) with 2 in E. pose proof (Z.div_mod x 2 ltac:(lia)). pose proof (Z.mod_pos_bound x 2 ltac:(lia)). lia.
  - rewrite Z.log2_shiftr by lia. destruct (decide (x = 1)) as [->|]; [done|]. assert (1 ≤ Z.log2 x); [|lia]. change 1 with (Z.log2 2). apply Z.log2_le_mono. lia.
Qed.

Lemma bits_range x : 0 ≤ x → 0 ≤ bits x ∧ x < 2 ^ bits x ∧ (0 < x → 2 ^ (bits x - 1) ≤ x).
Proof.
  intros Hx. unfold bits. destruct (Z.eqb_spec x 0) as [->|]; [split_and!; (done || lia)|]. pose proof (Z.log2_spec x ltac:(lia)). pose proof (Z.log2_nonneg x).
  rewrite Z.add_simpl_r. replace (Z.log2 x + 1) with (Z.succ (Z.log2 x)) by lia. split_and!; lia.
Qed.

Lemma blog_loop fuel x l :
  0 ≤ x → 0 ≤ l → l + bits x ≤ INT_MAX → bits x < Z.of_nat fuel →
  while fuel (λ '(x, _), Ok (negb (x =? 0))) (λ '(x, l), let* l := int32 (l + 1) in Ok (Z.shiftr x 1, l)) (x, l) = Ok (0, l + bits x).
Proof.
  revert x l. induction fuel as [|fuel IH]; intros x l Hx Hl Hmax Hf; [pose proof (bits_range x Hx); lia|]. cbn [while rbind]. destruct (Z.eqb_spec x 0) as [->|]; cbn [negb]; [unfold bits; cbn; by rewrite Z.add_0_r|].
  pose proof (bits_half x ltac:(lia)) as Hb. assert (0 ≤ Z.shiftr x 1) as Hs by (by apply Z.shiftr_nonneg). pose proof (bits_range _ Hs). rewrite int32_small by lia. cbn [rbind].
  rewrite IH by lia. do 2 f_equal. lia.
Qed.

(** [blog] counts bits.  For every [int] that is not negative it returns the least
    number of bits that can hold it. *)
Theorem blog_correct fuel x :
  0 ≤ x ≤ INT_MAX → (32 ≤ fuel)%nat →
  ∃ l, blog fuel x = Ok l ∧ 0 ≤ l ≤ 31 ∧ x < 2 ^ l ∧ ∀ l', 0 ≤ l' → x < 2 ^ l' → l ≤ l'.
Proof.
  intros Hx Hf. pose proof (bits_range x ltac:(lia)) as (H0 & Hlt & Hge). assert (∀ l', 0 ≤ l' → x < 2 ^ l' → bits x ≤ l') as Hleast.
  { intros l' Hl' Hxl. destruct (decide (x = 0)) as [->|]; [by unfold bits; cbn|]. destruct (Z.le_gt_cases (bits x) l'); [done|]. specialize (Hge ltac:(lia)).
    assert (2 ^ l' ≤ 2 ^ (bits x - 1)) by (apply Z.pow_le_mono_r; lia). lia. }
  assert (bits x ≤ 31) by (apply Hleast; [lia|unfold INT_MAX in Hx; lia]). exists (bits x). split_and!; try done. unfold blog. rewrite blog_loop by (unfold INT_MAX; lia). done.
Qed.

Lemma blog_correct_witness : ∃ l, blog 32 1000 = Ok l ∧ 0 ≤ l ≤ 31 ∧ 1000 < 2 ^ l ∧ ∀ l', 0 ≤ l' → 1000 < 2 ^ l' → l ≤ l'.
Proof. apply (blog_correct 32 1000); [by vm_compute|lia]. Defined.

(** A negative argument is shifted to -1 and never to 0. *)
Lemma blog_negative fuel x : x < 0 → ∃ e, blog fuel x = Err e.
Proof.
  intros Hx. unfold blog. assert (∀ l, ∃ e, while fuel (λ '(x, _), Ok (negb (x =? 0))) (λ '(x, l), let* l := int32 (l + 1) in Ok (Z.shiftr x 1, l)) (x, l) = Err e) as H; [|destruct (H 0) as [e ->]; by exists e].
  revert x Hx. induction fuel as [|fuel IH]; intros x Hx l; [by eexists|]. cbn [while rbind]. destruct (Z.eqb_spec x 0); [lia|]. cbn [negb]. destruct (int32 (l + 1)); cbn [rbind]; [|by eexists].
  apply IH. by apply Z.shiftr_neg.
Qed.
